(* ===== verification/_CoqProject ===== *)
-Q . S2P
Prelude.v
CppString.v
StringUtil.v
StdMap.v
BoostAlgo.v
PTree.v
LogLevels.v
IniReader.v
ConfigTypes.v
ConfigTypesSpec.v
Files.v
LogWriter.v
Logger.v
Kernel.v
Sim.v
Secure.v
Process.v
SecureSpec.v
ProcessSpec.v
XmlRpc.v
RpcConnection.v
RpcConnectionSpec.v
RpcServer.v
ConfigParser.v
ConfigParserSpec.v
ProcessManager.v
ProcessManagerSpec.v
SigchldSpec.v
TimerSpec.v
Supervisord.v
SupervisordSpec.v
DaemonSpec.v
StoreSpec.v
InterleaveSpec.v
Platform.v
PidFile.v
PidFileSpec.v
Args.v
Main.v
MainSpec.v
Ctl.v
CtlSpec.v
