(* ===== verification/Prelude.v ===== *)
(** * supervisorcpp: a verification library

    supervisorcpp is a process supervisor in the manner of supervisord: a
    daemon that starts, watches, restarts and stops the programs of its
    configuration file and is controlled over XML-RPC on a Unix socket, and
    its command-line client.  This library models both programs, from
    [main] and the command line to the system calls, and proves what they
    promise.  Paths below are relative to supervisor-lib/src and
    supervisor-app/src.

    ** The program, and where it is modelled

    The daemon is single-threaded, around one event loop.  [main] (main.cpp,
    [Main.main]) chooses the program; [supervisord_main]
    (daemon/supervisord.cpp, [Main.supervisord_main]) reads the options
    (args_parser.{h,cpp}, [Args.parse_args]) and
    the configuration (config/config_parser.cpp, [ConfigParser.parse_file]),
    takes the pid file (util/pidfile.h, [PidFile.create_guard]) and runs the
    daemon ([Supervisord.construct], [Supervisord.run]).  The daemon owns
    the process manager (process/process_manager.cpp, [ProcessManager]) and
    the RPC server (rpc/rpc_server.cpp, [RpcServer]).  The manager owns one
    [Process.Process] per program (process/process.cpp), which forks, execs,
    signals and reads its child and owns the writers of its two logs
    (logger/log_writer.cpp, [LogWriter]).  A connection of the server
    (rpc/rpc_connection.cpp, [RpcConnection]) frames a request out of the
    chunks of the socket, dispatches it to a handler
    (daemon/rpc_handlers.h and supervisord.cpp, the [rpc_...] definitions of
    [Supervisord]), and answers with XML (rpc/xmlrpc.cpp, [XmlRpc]).  The
    connections that are open are a table of the daemon, and the events of
    its loop ([daemon_event]) are single completions: an accept, a chunk
    read, a response written, a signal, an event of the manager, in any
    order.  The client (ctl/supervisorctl.{h,cpp}, [Ctl]) reads its options,
    finds the socket in them or in the configuration, and sends such
    requests for one command or interactively
    ([Ctl.supervisorctl_main]).

    Below these stand util/secure.cpp ([Secure]: every check of paths,
    commands, signals, environments and credentials), util/string.cpp
    ([StringUtil]), config/config_types.h ([ConfigTypes]),
    config/ini_reader.h ([IniReader]), logger/log_levels.cpp and
    logger/logger.cpp ([LogLevels], [Logger]), util/platform.cpp
    ([Platform]), and what the sources use of the standard library: strings
    ([CppString]), ordered maps ([StdMap]), files and output streams
    ([Files]).  Definitions keep the names of the
    functions they model; a file X.v holds a component and XSpec.v, where
    it is separate, its properties.

    ** How it is modelled

    Statements are functions of a state ([M] below) that return, throw,
    end the process image or abort it, run into undefined behaviour
    ([Undef]: signed overflow, a dangling pointer or iterator, a shift out
    of range), or exhaust a bound of the model ([NoFuel]).  One undefined
    behaviour is recorded instead, so that what surrounds it can still be
    spoken of: [sync_processes] passes [remove_process] a reference to a key
    of the map ([name_ref]), which the latter erases and then reads to write
    a log line, when some sink takes the line ([log_info]).  Such a reference
    is marked, and every read through it is kept in [freed_reads].  [twp] says that
    a statement returns, with a postcondition; [ewp] that it returns or
    throws; [awp] that it returns, throws or aborts.  All exclude undefined
    behaviour and exhausted fuel, so every theorem stated with them is also
    one of termination.  An exception that leaves a destructor aborts
    ([noexcept], [scoped]).

    The operating system is the interface [Kernel]: a state and an answer
    to each call ([fork], [kill], [waitpid], [open], [flock], the clock,
    the socket, the questions about files and users, ...).  [KernelLaws]
    states what POSIX documents of it: a new child is not yet a child,
    [waitpid] reaps a child, the clock does not go back and advances while
    the event loop waits.  Everything else it answers is arbitrary: any call
    may fail at any time.  A [World] is a kernel, the log files, the trace
    of all calls and the static variables of util/secure.cpp.  [Sim] is a
    concrete kernel on which the witnesses run.  Faults of the file system
    are a list of booleans in its state.

    Processes are objects in a heap, as the sources share them: the map of
    the manager and the local pointers of its operations refer to them, and
    an object no longer referred to is destroyed, which runs its
    destructor.  Operations that wait for a child run the event loop inside
    themselves; what that loop finds ready is the agenda of the manager, an
    arbitrary list of handlers per round, which may again wait.

    Third-party code is an interface, with its documented behaviour as
    hypotheses and an instance that shows they can be met: [StringAlgo]
    (Boost.StringAlgorithm), [PropertyTree] (Boost.PropertyTree), [EnvGrammar] (the
    Spirit grammar of environment lists), [Transport] (the stream socket of
    the client), [OptionParser] (Boost.Program_options, over the option
    descriptions of the sources as data), [Descriptors] (the calls of
    [Platform]) and the setting up of log sinks (Boost.Log, the argument
    [add_file_log] of [Logger]).

    ** What is proved

    - The whole, within the limits stated below: the daemon with any
      connections, requests, reloads and signals terminates when it is asked
      to, signals only children of its own that were not yet reaped, destroys
      every process, and runs into no undefined behaviour but the log line of
      [remove_process], which reads only names of programs that a
      configuration dropped ([DaemonSpec.daemon_serves]; [Accounts] carries
      these names through the proofs); its main function returns 0 or 1 and
      gives back the pid file, unless an exception leaves the event loop
      while the server listens ([MainSpec.supervisord_main_returns]); which
      program runs ([MainSpec.main_mode]).  Until the destructor, the heap of
      processes and the table of connections stay typed ([StoreSpec]).
    - The manager ([ProcessManagerSpec]): its invariant, kept by every
      operation while anything happens in the nested loops, handlers that
      throw included ([Raised] says what they may throw); that [stop_all],
      [stop_process] and [sync_processes] achieve their purpose in bounded
      time, or pass on the exception of a handler, and what a reload reads
      of freed names.  Exits reach the processes they belong to
      ([SigchldSpec]), and the timer ends every wait that is over
      ([TimerSpec]).
    - A process ([Process.step] is the abstract state machine): every
      operation refines a transition with exactly its signals and children;
      safety over all sequences of operations; retries, exits, stopping;
      that no waiting state lasts for ever; the command line; what the
      child does before [exec]; that its output is in its log, through
      rotations ([ProcessSpec]).
    - The configuration: accepted configurations passed the checks of files,
      commands, signals, environments and log paths, each stated in terms of
      what the system answered ([ConfigParserSpec]); its helpers ([ConfigTypesSpec], [SecureSpec],
      [IniReader]).
    - The requests: framing, bounds ([RpcConnectionSpec]), independence of
      connections served side by side ([InterleaveSpec]), encoding
      ([XmlRpc], [StringUtil]), start, stop and reload
      ([SupervisordSpec]), the listening socket ([RpcServer]), the
      client composed with the server, and what the client does for each
      command, interactively or not, with its exit code ([CtlSpec]).
    - The logs: no byte is lost except by rotation, which keeps the latest
      [max_bytes_] ones; independence of how the text is cut; size bounds,
      rotation, behaviour under faults ([LogWriter]); which of the records of
      the main function, and of any later one, reach which sink
      ([MainSpec.log_routing], on [Logger]).
    - The pid file: exclusion among any number of daemons whose calls
      interleave ([PidFileSpec]).

    Some lemmas record behaviour that is not what the program intends; they
    stand beside the property they qualify ([backoff_overflows],
    [accepted_signals], [prefix_is_textual], [parse_size_wraps],
    [refused_daemon_truncates], [close_before_remove_races],
    [malformed_length_escapes], [framing_depends_on_chunks],
    [reload_reads_freed_key], [reload_reenters], [reload_abandoned], [accept_outlives_server],
    [destructor_aborts], [late_daemon_option],
    [exit_code_leaks], [pipe2_not_closed]).

    ** Bounds

    Integers have their widths: [int_result] is undefined out of the range
    of [int], [to_int] and [to_u64] wrap.  Loops that are not structural
    take fuel: a wait of at most [W] seconds ends within [(W + 2) * 10^9]
    rounds since each round advances the clock by a nanosecond at least, and the children
    that can be reaped meanwhile are bounded by those there are plus the
    starts that can be requested; [enough] and [DaemonSpec.limits] state the
    sum.  The depth of nested event loops is bounded by the handlers on the
    agenda.  The invariant of the manager carries a budget [b] of starts
    still to come, so that the retry counters stay below [INT_MAX]: [N]
    programs may be started by each event.  A program needs at most 31 start
    retries for the shift of its backoff to be defined.  The parser has the
    fuel of the limit of its own on the depth of includes.

    ** What is not modelled

    - Log statements inside the components, apart from the one of
      [remove_process]; those of [supervisord_main] and of [Logger] are
      modelled.  The mutex of [LogWriter], since one thread runs
      everything.
    - What the libraries do: the formatting and rotation of Boost.Log, the
      Spirit grammar, the parsing of options by Boost.Program_options, the
      completion machinery of Boost.Asio.  A handler runs when the event
      list or the agenda says so; handlers posted by a request run before
      the next event.
    - Inside a nested event loop only the handlers of the manager run:
      signals of children, the timer, reads, starts and stops, shutdown, the
      manager's part of a reload, and a handler that throws.  A request or
      a signal that arrives there appears as the operation it starts; the
      table of connections does not change meanwhile.  The theorems
      leave out a nested reload ([settled]): it can remove a process while
      another operation waits for it, and [reload_reenters] shows undefined
      behaviour.
    - A child the manager forgets ([start] of a process in STOPPING) is no
      process of the map any more, and nothing is said of its end.
    - The destructor of the daemon destroys the server before the process
      manager, whose wait may then run the completion of the outstanding
      accept, which refers to the server.  This undefined behaviour is in
      the model ([Supervisord.destroy_daemon], [OnAborted]); the theorems on
      the destructor are about daemons that were shut down or whose server
      did not start ([outlived]).
    - The acceptor is assumed to close without an error.
    - Strings that hold NUL are passed to system calls whole, where the
      program passes a C string.
    - The test helpers (util/test_util.h). *)

From Stdlib Require Import ZArith NArith Ascii String.
From stdpp Require Import base gmap sets list strings.

#[global] Open Scope Z_scope.

(** ** Notations of the development *)

Declare Scope sup_scope.
Delimit Scope sup_scope with sup.
#[global] Open Scope sup_scope.

(** A C++ [std::string] is a finite sequence of bytes, NUL included. *)
Abbreviation bytes := (list ascii).

(** A string literal as bytes: [#"RUNNING"]. *)
Definition lit (s : string) : bytes := list_ascii_of_string s.
Notation "# s" := (lit s%string) (at level 1, s at level 0, format "# s") : sup_scope.

Definition LF : ascii := ascii_of_nat 10.
Definition CR : ascii := ascii_of_nat 13.
Definition TAB : ascii := ascii_of_nat 9.
Definition NUL : ascii := ascii_of_nat 0.
Definition DQUOTE : ascii := ascii_of_nat 34.
Definition BSLASH : ascii := ascii_of_nat 92.
Definition SPACE : ascii := ascii_of_nat 32.

(** ** Machine integers *)

Definition INT_MAX : Z := 2147483647.
Definition INT_MIN : Z := -2147483648.
Definition UINT64 : Z := 2 ^ 64.

(** Whether a mathematical integer is representable as a C++ [int]. *)
Definition in_int (z : Z) : bool := (INT_MIN <=? z) && (z <=? INT_MAX).

(** Conversion of an integer to [int] (modular since C++20). *)
Definition to_int (z : Z) : Z := (z + 2 ^ 31) mod 2 ^ 32 - 2 ^ 31.

(** Conversion of an integer to [size_t]. *)
Definition to_u64 (z : Z) : Z := z mod UINT64.

Lemma in_int_iff z : in_int z = true ↔ INT_MIN ≤ z ≤ INT_MAX.
Proof. unfold in_int. rewrite andb_true_iff, !Z.leb_le. done. Qed.

Lemma to_int_id z : INT_MIN ≤ z ≤ INT_MAX → to_int z = z.
Proof.
  unfold to_int, INT_MIN, INT_MAX. intros.
  rewrite Z.mod_small; lia.
Qed.

Lemma to_u64_id z : 0 ≤ z < UINT64 → to_u64 z = z.
Proof. apply Z.mod_small. Qed.

(** ** Exceptions and outcomes

    The exception classes the program throws or catches by type.  Every one
    of them derives from [std::exception]; [SecurityError],
    [ConfigParseError] and [XmlRpcError] derive from [std::runtime_error]. *)
Inductive exn_kind :=
| InvalidArgument
| OutOfRange
| RuntimeError
| SystemError
| FilesystemError
| SecurityError
| ConfigParseError
| FileParserError (line : Z) (message : bytes)   (* of the INI reader *)
| XmlRpcError (code name : bytes)
| BoostError (refused system_category : bool)    (* boost::system::system_error *)
| BadAnyCast                                     (* boost::bad_any_cast *)
| ProgramOptionsError.                           (* boost::program_options::error *)

#[global] Instance exn_kind_eq_dec : EqDecision exn_kind.
Proof. solve_decision. Defined.

Record exn := mkExn { exn_of : exn_kind; what : bytes }.

#[global] Instance exn_eq_dec : EqDecision exn.
Proof. solve_decision. Defined.

(** Pure code that may throw. *)
Inductive result (A : Type) :=
| Ok (a : A)
| Err (e : exn).
Arguments Ok {A} a.
Arguments Err {A} e.

#[global] Instance result_ret : MRet result := λ A a, Ok a.
#[global] Instance result_bind : MBind result := λ A B f m,
  match m with Ok a => f a | Err e => Err e end.

(** How a process image ends before its function returns. *)
Inductive halt :=
| HExit (code : Z)            (* _exit *)
| HExec (argv : list bytes)   (* a successful exec *)
| HAbort.                     (* std::terminate *)

(** What running a statement on a state [S] gives: a value, an exception
    that propagates, the end of the process, undefined behaviour, or a fuel
    bound that was too small. *)
Inductive outcome (S A : Type) :=
| Ret (a : A) (s : S)
| Throw (e : exn) (s : S)
| Halt (h : halt) (s : S)
| Undef
| NoFuel.
Arguments Ret {S A} a s.
Arguments Throw {S A} e s.
Arguments Halt {S A} h s.
Arguments Undef {S A}.
Arguments NoFuel {S A}.

(** Statements over a state [S]. *)
Definition M (S A : Type) : Type := S → outcome S A.

#[global] Instance M_ret {S} : MRet (M S) := λ A a s, Ret a s.
#[global] Instance M_bind {S} : MBind (M S) := λ A B f m s,
  match m s with
  | Ret a s' => f a s'
  | Throw e s' => Throw e s'
  | Halt h s' => Halt h s'
  | Undef => Undef
  | NoFuel => NoFuel
  end.

Definition gets {S A} (f : S → A) : M S A := λ s, Ret (f s) s.
Definition modify {S} (f : S → S) : M S unit := λ s, Ret tt (f s).
Definition throw {S A} (e : exn) : M S A := λ s, Throw e s.
Definition die {S A} (h : halt) : M S A := λ s, Halt h s.
Definition undef {S A} : M S A := λ _, Undef.
Definition out_of_fuel {S A} : M S A := λ _, NoFuel.

(** [try { m } catch (const std::exception& e) { h e }]. *)
Definition try_catch {S A} (m : M S A) (h : exn → M S A) : M S A := λ s,
  match m s with
  | Throw e s' => h e s'
  | o => o
  end.

Definition lift_result {S A} (r : result A) : M S A := λ s,
  match r with Ok a => Ret a s | Err e => Throw e s end.

(** An exception may not leave a [noexcept] function, which a destructor
    is. *)
Definition noexcept {S A} (m : M S A) : M S A := try_catch m (λ _, die HAbort).

(** Leaving a scope, by an exception too, runs a destructor. *)
Definition scoped {S A} (body : M S A) (destructor : M S unit) : M S A := λ s,
  match body s with
  | Ret a s' => (noexcept destructor ;; mret a) s'
  | Throw e s' => (noexcept destructor ;; throw e) s'
  | o => o
  end.

(** An [int] computation whose result must be representable: signed overflow
    is undefined behaviour. *)
Definition int_result {S} (z : Z) : M S Z :=
  if in_int z then mret z else undef.

(** Run a statement on one part of the state. *)
Definition zoom {S T A} (get : S → T) (put : T → S → S) (m : M T A) : M S A := λ s,
  match m (get s) with
  | Ret a t => Ret a (put t s)
  | Throw e t => Throw e (put t s)
  | Halt h t => Halt h (put t s)
  | Undef => Undef
  | NoFuel => NoFuel
  end.

Fixpoint mfor {S A} (l : list A) (body : A → M S unit) : M S unit :=
  match l with
  | [] => mret tt
  | x :: l => body x ;; mfor l body
  end.

(** ** Invariants of statements

    [preserves I m]: whenever [m], started where [I] holds, ends by
    returning, throwing or ending the process, [I] holds of the state it
    leaves. *)
Definition outcome_state {S A} (o : outcome S A) : option S :=
  match o with
  | Ret _ s | Throw _ s | Halt _ s => Some s
  | Undef | NoFuel => None
  end.

Definition preserves {S A} (I : S → Prop) (m : M S A) : Prop :=
  ∀ s s', I s → outcome_state (m s) = Some s' → I s'.

Create HintDb sup discriminated.

Lemma preserves_ret {S A} (I : S → Prop) (a : A) : preserves I (mret a : M S A).
Proof. intros s s' ? [= <-]. done. Qed.

Lemma preserves_gets {S A} (I : S → Prop) (f : S → A) : preserves I (gets f).
Proof. intros s s' ? [= <-]. done. Qed.

Lemma preserves_throw {S A} (I : S → Prop) e : preserves I (throw e : M S A).
Proof. intros s s' ? [= <-]. done. Qed.

Lemma preserves_die {S A} (I : S → Prop) h : preserves I (die h : M S A).
Proof. intros s s' ? [= <-]. done. Qed.

Lemma preserves_undef {S A} (I : S → Prop) : preserves I (undef : M S A).
Proof. intros s s' ? [=]. Qed.

Lemma preserves_fuel {S A} (I : S → Prop) : preserves I (out_of_fuel : M S A).
Proof. intros s s' ? [=]. Qed.

Lemma preserves_modify {S} (I : S → Prop) f :
  (∀ s, I s → I (f s)) → preserves I (modify f).
Proof. intros H s s' ? [= <-]. auto. Qed.

Lemma preserves_bind {S A B} (I : S → Prop) (m : M S A) (f : A → M S B) :
  preserves I m → (∀ a, preserves I (f a)) → preserves I (m ≫= f).
Proof.
  intros Hm Hf s s' HI. unfold mbind, M_bind.
  destruct (m s) as [a s1|e s1|h s1| |] eqn:E; simpl; try (intros [= <-]);
    try (intros; discriminate);
    try (apply (Hm s); [done | rewrite E; done]).
  intros Ho. eapply Hf; [|exact Ho]. apply (Hm s); [done | rewrite E; done].
Qed.

Lemma preserves_int {S} (I : S → Prop) z : preserves I (int_result z : M S Z).
Proof. unfold int_result. destruct (in_int z); auto using preserves_ret, preserves_undef. Qed.

Lemma preserves_try {S A} (I : S → Prop) (m : M S A) h :
  preserves I m → (∀ e, preserves I (h e)) → preserves I (try_catch m h).
Proof.
  intros Hm Hh s s' HI. unfold try_catch.
  destruct (m s) as [a s1|e s1|x s1| |] eqn:E; simpl; try (intros [= <-]);
    try (intros; discriminate);
    try (apply (Hm s); [done | rewrite E; done]).
  intros Ho. eapply Hh; [|exact Ho]. apply (Hm s); [done | rewrite E; done].
Qed.

Lemma preserves_lift {S A} (I : S → Prop) (r : result A) : preserves I (lift_result r : M S A).
Proof. intros s s' ?. unfold lift_result. destruct r; intros [= <-]; done. Qed.

Lemma preserves_mfor {S A} (I : S → Prop) (l : list A) body :
  (∀ x, x ∈ l → preserves I (body x)) → preserves I (mfor l body).
Proof.
  induction l as [|x l IH]; simpl; intros H; [apply preserves_ret|].
  apply preserves_bind; [|intros _; apply IH]; set_solver.
Qed.

Lemma preserves_if {S A} (I : S → Prop) (b : bool) (m n : M S A) :
  preserves I m → preserves I n → preserves I (if b then m else n).
Proof. by destruct b. Qed.

Lemma preserves_decide {S A} (I : S → Prop) P `{Decision P} (m n : M S A) :
  (P → preserves I m) → (¬ P → preserves I n) → preserves I (if decide P then m else n).
Proof. destruct (decide P); auto. Qed.

Lemma preserves_zoom {S T A} (get : S → T) (put : T → S → S) (I : S → Prop) (J : T → Prop)
    (m : M T A) :
  preserves J m → (∀ s, I s → J (get s)) → (∀ s t, I s → J t → I (put t s)) →
  preserves I (zoom get put m).
Proof.
  intros Hm Hget Hput s s' HI. unfold zoom.
  destruct (m (get s)) as [a t|e t|h t| |] eqn:E; simpl; intros [= <-];
    (apply Hput; [done|]; apply (Hm (get s)); [auto | rewrite E; done]).
Qed.

#[export] Hint Resolve preserves_ret preserves_gets preserves_throw preserves_die
  preserves_undef preserves_fuel preserves_int preserves_lift : sup.

(** Decompose a goal [preserves I (statement)] along the statement, leaving
    the state changes. *)
Ltac preserve_step :=
  match goal with
  | |- preserves _ (mbind _ _) => apply preserves_bind; [|intros ?]
  | |- preserves _ (mfor _ _) => apply preserves_mfor; intros ? ?
  | |- preserves _ (try_catch _ _) => apply preserves_try; [|intros ?]
  | |- preserves _ (if decide _ then _ else _) => apply preserves_decide; intros ?
  | |- preserves _ (if ?b then _ else _) => apply preserves_if
  | |- preserves _ (match ?x with _ => _ end) => destruct x
  | |- preserves _ (modify _) => apply preserves_modify
  | |- preserves _ _ => solve [auto with sup nocore]
  end.
Ltac preserve := repeat preserve_step.

(** [safe I m]: started where [I] holds, [m] returns or throws, and leaves
    [I]; [total I m]: it returns. *)
Definition safe {S A} (I : S → Prop) (m : M S A) : Prop :=
  ∀ s, I s → match m s with Ret _ s' | Throw _ s' => I s' | _ => False end.
Definition total {S A} (I : S → Prop) (m : M S A) : Prop :=
  ∀ s, I s → match m s with Ret _ s' => I s' | _ => False end.

Section safe.
Context {S A B : Type} (I : S → Prop).
Implicit Types (m : M S A) (k : A → M S B).

Lemma total_safe m : total I m → safe I m.
Proof. intros H s Hs. specialize (H s Hs). by destruct (m s). Qed.

Lemma total_Ret m s : total I m → I s → ∃ a s', m s = Ret a s' ∧ I s'.
Proof. intros H Hs. specialize (H s Hs). destruct (m s); naive_solver. Qed.

Lemma total_ret (a : A) : total I (mret a).
Proof. intros s Hs. done. Qed.

Lemma total_modify f : (∀ s, I s → I (f s)) → total I (modify f).
Proof. intros H s Hs. by apply H. Qed.

Lemma total_bind m k : total I m → (∀ a, total I (k a)) → total I (m ≫= k).
Proof.
  intros Hm Hk s Hs. unfold mbind, M_bind. specialize (Hm s Hs).
  destruct (m s); try done. by apply Hk.
Qed.

Lemma safe_bind m k : safe I m → (∀ a, safe I (k a)) → safe I (m ≫= k).
Proof.
  intros Hm Hk s Hs. unfold mbind, M_bind. specialize (Hm s Hs).
  destruct (m s); try done. by apply Hk.
Qed.

(** Reading a part of the state the invariant determines. *)
Lemma total_bind_gets (f : S → A) x k :
  (∀ s, I s → f s = x) → total I (k x) → total I (gets f ≫= k).
Proof. intros Hf Hk s Hs. unfold mbind, M_bind, gets. rewrite (Hf s Hs). by apply Hk. Qed.

Lemma safe_bind_gets (f : S → A) x k :
  (∀ s, I s → f s = x) → safe I (k x) → safe I (gets f ≫= k).
Proof. intros Hf Hk s Hs. unfold mbind, M_bind, gets. rewrite (Hf s Hs). by apply Hk. Qed.

Lemma total_gets (f : S → A) : total I (gets f).
Proof. intros s Hs. done. Qed.

Lemma total_try m h : safe I m → (∀ e, total I (h e)) → total I (try_catch m h).
Proof.
  intros Hm Hh s Hs. unfold try_catch. specialize (Hm s Hs).
  destruct (m s); try done. by apply Hh.
Qed.

Lemma safe_throw e : safe I (throw e : M S A).
Proof. intros s Hs. done. Qed.

Lemma total_int z : in_int z = true → total I (int_result z).
Proof. intros H s Hs. unfold int_result. by rewrite H. Qed.
End safe.

Lemma total_preserves {S A} (I : S → Prop) (m : M S A) : total I m → preserves I m.
Proof. intros H s s' Hs. specialize (H s Hs). destruct (m s); intros [= <-]; done. Qed.

Lemma safe_preserves {S A} (I : S → Prop) (m : M S A) : safe I m → preserves I m.
Proof. intros H s s' Hs. specialize (H s Hs). destruct (m s); intros [= <-]; done. Qed.

#[export] Hint Resolve total_ret total_gets safe_throw : sup.

(** Decompose [total I (statement)] and [safe I (statement)]. *)
Ltac total_step :=
  match goal with
  | |- total _ _ => solve [auto with sup nocore]
  | |- safe _ _ => solve [auto with sup nocore]
  | |- total _ (mbind _ _) => apply total_bind; [|intros ?]
  | |- safe _ (mbind _ _) => apply safe_bind; [|intros ?]
  | |- total _ (try_catch _ _) => apply total_try; [|intros ?]
  | |- total _ (if ?b then _ else _) => destruct b
  | |- safe _ (if ?b then _ else _) => destruct b
  | |- total _ (modify _) => apply total_modify
  | |- safe _ (modify _) => apply total_safe, total_modify
  | |- safe _ _ => apply total_safe; solve [auto with sup nocore]
  end.
Ltac totality := repeat total_step.

(** [twp m Q s]: started in [s], [m] returns, and [Q] holds of the value
    and the state (a total weakest precondition). *)
Definition twp {S A} (m : M S A) (Q : A → S → Prop) (s : S) : Prop :=
  match m s with Ret a s' => Q a s' | _ => False end.

Lemma twp_ret {S A} (a : A) (Q : A → S → Prop) s : Q a s → twp (mret a) Q s.
Proof. done. Qed.

Lemma twp_gets {S A} (f : S → A) (Q : A → S → Prop) s : Q (f s) s → twp (gets f) Q s.
Proof. done. Qed.

Lemma twp_modify {S} (f : S → S) (Q : unit → S → Prop) s : Q tt (f s) → twp (modify f) Q s.
Proof. done. Qed.

Lemma twp_bind {S A B} (m : M S A) (k : A → M S B) (Q : B → S → Prop) s :
  twp m (λ a s', twp (k a) Q s') s → twp (m ≫= k) Q s.
Proof. unfold twp, mbind, M_bind. by destruct (m s). Qed.

Lemma twp_mono {S A} (m : M S A) (Q Q' : A → S → Prop) s :
  twp m Q s → (∀ a s', Q a s' → Q' a s') → twp m Q' s.
Proof. unfold twp. destruct (m s); naive_solver. Qed.

Lemma twp_total {S A} (I : S → Prop) (m : M S A) (Q : A → S → Prop) s :
  total I m → I s → (∀ a s', I s' → Q a s') → twp m Q s.
Proof. intros Ht HI HQ. specialize (Ht s HI). unfold twp. destruct (m s); naive_solver. Qed.

Lemma total_twp {S A} (I : S → Prop) (m : M S A) :
  (∀ s, I s → twp m (λ _, I) s) → total I m.
Proof. intros H s HI. exact (H s HI). Qed.

Lemma twp_zoom {S T A} (get : S → T) (put : T → S → S) (m : M T A) (Q : A → S → Prop) s :
  twp m (λ a t, Q a (put t s)) (get s) → twp (zoom get put m) Q s.
Proof. unfold twp, zoom. by destruct (m (get s)). Qed.

Lemma twp_int {S} z (Q : Z → S → Prop) s : in_int z = true → Q z s → twp (int_result z) Q s.
Proof. unfold twp, int_result. by intros ->. Qed.

Lemma twp_decide {S A} P `{Decision P} (m n : M S A) (Q : A → S → Prop) s :
  (P → twp m Q s) → (¬ P → twp n Q s) → twp (if decide P then m else n) Q s.
Proof. destruct (decide P); auto. Qed.

Lemma twp_if {S A} (b : bool) (m n : M S A) (Q : A → S → Prop) s :
  (b = true → twp m Q s) → (b = false → twp n Q s) → twp (if b then m else n) Q s.
Proof. destruct b; auto. Qed.

Lemma twp_scoped {S A} (body : M S A) destructor (Q : A → S → Prop) s :
  twp body (λ a s', twp destructor (λ _, Q a) s') s → twp (scoped body destructor) Q s.
Proof.
  unfold twp, scoped, noexcept, try_catch. destruct (body s) as [a s'|e s'| | |]; try done. unfold mbind, M_bind.
  by destruct (destructor s').
Qed.

Lemma twp_and {S A} (m : M S A) (Q1 Q2 : A → S → Prop) s :
  twp m Q1 s → twp m Q2 s → twp m (λ a s', Q1 a s' ∧ Q2 a s') s.
Proof. unfold twp. by destruct (m s). Qed.

Lemma twp_elim {S A} (m : M S A) (Q : A → S → Prop) s :
  twp m Q s → ∃ a s', m s = Ret a s' ∧ Q a s'.
Proof. unfold twp. destruct (m s); naive_solver. Qed.

(** [ewp m Q E s]: started in [s], [m] returns with [Q] or throws with [E]. *)
Definition ewp {S A} (m : M S A) (Q : A → S → Prop) (E : exn → S → Prop) (s : S) : Prop :=
  match m s with Ret a s' => Q a s' | Throw e s' => E e s' | _ => False end.

Lemma ewp_ret {S A} (a : A) (Q : A → S → Prop) E s : Q a s → ewp (mret a) Q E s.
Proof. done. Qed.

Lemma ewp_gets {S A} (f : S → A) (Q : A → S → Prop) E s : Q (f s) s → ewp (gets f) Q E s.
Proof. done. Qed.

Lemma ewp_modify {S} (f : S → S) (Q : unit → S → Prop) E s : Q tt (f s) → ewp (modify f) Q E s.
Proof. done. Qed.

Lemma ewp_zoom {S T A} (get : S → T) (put : T → S → S) (m : M T A) (Q : A → S → Prop) E s :
  ewp m (λ a t, Q a (put t s)) (λ e t, E e (put t s)) (get s) → ewp (zoom get put m) Q E s.
Proof. unfold ewp, zoom. by destruct (m (get s)). Qed.

Lemma ewp_throw {S A} e (Q : A → S → Prop) (E : exn → S → Prop) s : E e s → ewp (throw e) Q E s.
Proof. done. Qed.

Lemma ewp_bind {S A B} (m : M S A) (k : A → M S B) Q E s :
  ewp m (λ a s', ewp (k a) Q E s') E s → ewp (m ≫= k) Q E s.
Proof. unfold ewp, mbind, M_bind. by destruct (m s). Qed.

Lemma ewp_mono {S A} (m : M S A) (Q Q' : A → S → Prop) (E E' : exn → S → Prop) s :
  ewp m Q E s → (∀ a s', Q a s' → Q' a s') → (∀ e s', E e s' → E' e s') → ewp m Q' E' s.
Proof. unfold ewp. destruct (m s); naive_solver. Qed.

Lemma ewp_try {S A} (m : M S A) h (Q : A → S → Prop) E s :
  ewp m Q (λ e s', ewp (h e) Q E s') s → ewp (try_catch m h) Q E s.
Proof. unfold ewp, try_catch. by destruct (m s). Qed.

(** A statement whose exceptions are all caught. *)
Lemma twp_try {S A} (m : M S A) h (Q : A → S → Prop) E s :
  ewp m Q E s → (∀ e s', E e s' → twp (h e) Q s') → twp (try_catch m h) Q s.
Proof. unfold ewp, twp, try_catch. intros Hm Hh. destruct (m s); try done. by apply Hh. Qed.

Lemma ewp_scoped {S A} (body : M S A) destructor (Q : A → S → Prop) (E : exn → S → Prop) s :
  ewp body (λ a s', twp destructor (λ _, Q a) s') (λ e s', twp destructor (λ _, E e) s') s →
  ewp (scoped body destructor) Q E s.
Proof.
  unfold ewp, twp, scoped, noexcept, try_catch.
  destruct (body s) as [a s'|e s'| | |]; try done; unfold mbind, M_bind; by destruct (destructor s').
Qed.

Lemma ewp_assoc {S A B C} (m : M S A) (k : A → M S B) (k' : B → M S C) Q E s :
  ewp ((m ≫= k) ≫= k') Q E s → ewp (m ≫= λ a, k a ≫= k') Q E s.
Proof. unfold ewp, mbind, M_bind. by destruct (m s). Qed.

Lemma ewp_lift {S A} (r : result A) (Q : A → S → Prop) (E : exn → S → Prop) s :
  match r with Ok a => Q a s | Err e => E e s end → ewp (lift_result r) Q E s.
Proof. by destruct r. Qed.

Lemma ewp_if {S A} (b : bool) (m n : M S A) Q E s :
  (b = true → ewp m Q E s) → (b = false → ewp n Q E s) → ewp (if b then m else n) Q E s.
Proof. destruct b; auto. Qed.

Lemma twp_ewp {S A} (m : M S A) (Q : A → S → Prop) E s : twp m Q s → ewp m Q E s.
Proof. unfold twp, ewp. by destruct (m s). Qed.

(** A first part that does not throw. *)
Lemma ewp_first {S A B} (m : M S A) (R : A → S → Prop) (k : A → M S B) Q E s :
  twp m R s → (∀ a s', R a s' → ewp (k a) Q E s') → ewp (m ≫= k) Q E s.
Proof. unfold twp, ewp, mbind, M_bind. destruct (m s); naive_solver. Qed.

(** No exception is possible. *)
Lemma ewp_twp {S A} (m : M S A) (Q : A → S → Prop) s : ewp m Q (λ _ _, False) s → twp m Q s.
Proof. unfold twp, ewp. by destruct (m s). Qed.

Lemma ewp_int {S} z (Q : Z → S → Prop) E s : in_int z = true → Q z s → ewp (int_result z) Q E s.
Proof. intros Hz HQ. by apply twp_ewp, twp_int. Qed.

(** Evaluate the monadic operators of a goal or hypothesis. *)
Ltac run :=
  cbv beta delta [mbind M_bind mret M_ret gets modify throw die undef out_of_fuel
                  result_bind result_ret] in *; cbn beta iota in *.

(** The third assertion, with the states in which the process may abort. *)
Definition awp {S A} (m : M S A) (Q : A → S → Prop) (E : exn → S → Prop) (X : S → Prop) (s : S) : Prop :=
  match m s with Ret a s' => Q a s' | Throw e s' => E e s' | Halt HAbort s' => X s' | _ => False end.

Lemma ewp_awp {S A} (m : M S A) (Q : A → S → Prop) E X s : ewp m Q E s → awp m Q E X s.
Proof. unfold ewp, awp. by destruct (m s). Qed.

Lemma awp_bind {S A B} (m : M S A) (k : A → M S B) Q E X s :
  awp m (λ a s', awp (k a) Q E X s') E X s → awp (m ≫= k) Q E X s.
Proof. unfold awp, mbind, M_bind. by destruct (m s) as [| |[]| |]. Qed.

Lemma awp_mono {S A} (m : M S A) (Q Q' : A → S → Prop) (E E' : exn → S → Prop) (X X' : S → Prop) s :
  awp m Q E X s → (∀ a s', Q a s' → Q' a s') → (∀ e s', E e s' → E' e s') → (∀ s', X s' → X' s') →
  awp m Q' E' X' s.
Proof. unfold awp. destruct (m s) as [| |[]| |]; naive_solver. Qed.

Lemma awp_zoom {S T A} (get : S → T) (put : T → S → S) (m : M T A) (Q : A → S → Prop) E X s :
  awp m (λ a t, Q a (put t s)) (λ e t, E e (put t s)) (λ t, X (put t s)) (get s) → awp (zoom get put m) Q E X s.
Proof. unfold awp, zoom. by destruct (m (get s)) as [| |[]| |]. Qed.

Lemma awp_try {S A} (m : M S A) h (Q : A → S → Prop) E X s :
  awp m Q (λ e s', awp (h e) Q E X s') X s → awp (try_catch m h) Q E X s.
Proof. unfold awp, try_catch. by destruct (m s) as [| |[]| |]. Qed.

(** An exception that leaves the destructor aborts the process. *)
Lemma awp_scoped {S A} (body : M S A) destructor (Q : A → S → Prop) (E : exn → S → Prop) (X : S → Prop) s :
  awp body (λ a s', ewp destructor (λ _, Q a) (λ _, X) s')
    (λ e s', ewp destructor (λ _, E e) (λ _, X) s') X s →
  awp (scoped body destructor) Q E X s.
Proof.
  unfold awp, ewp, scoped, noexcept, try_catch. destruct (body s) as [a s'|e s'|[]| |]; try done;
    unfold mbind, M_bind; by destruct (destructor s').
Qed.
