(* ===== verification/CppString.v ===== *)
(** * The parts of [std::string], [std::to_string] and [<cctype>] the sources use

    Searches ([find], [rfind], [find_first_of], ...), prefixes, the classic
    locale's character classes, decimal printing and [std::stoull], with the
    lemmas the components share.  A position is a [nat]; [npos] is [None]. *)

From Stdlib Require Import ZArith NArith Ascii String.
From stdpp Require Import base gmap sets list strings.
From S2P Require Import Prelude.

(** ** Definitions *)

(** [s.starts_with(pre)] *)
Fixpoint starts_with (pre s : bytes) : bool :=
  match pre, s with
  | [], _ => true
  | c :: pre, d :: s => bool_decide (c = d) && starts_with pre s
  | _ :: _, [] => false
  end.

(** [s.find(pat)] *)
Fixpoint find (pat s : bytes) : option nat :=
  if starts_with pat s then Some O
  else match s with
       | [] => None
       | _ :: s => S <$> find pat s
       end.

(** [s.find(pat, pos)] *)
Definition find_from (pat s : bytes) (pos : nat) : option nat :=
  if decide (pos ≤ length s)%nat then (λ i, (pos + i)%nat) <$> find pat (drop pos s) else None.

(** The first position at or after [pos] whose character satisfies [p]
    ([find_first_of], [find_first_not_of], [find] of a character). *)
Fixpoint find_first (p : ascii → bool) (s : bytes) : option nat :=
  match s with
  | [] => None
  | c :: s => if p c then Some O else S <$> find_first p s
  end.
Definition find_first_from (p : ascii → bool) (s : bytes) (pos : nat) : option nat :=
  (λ i, (pos + i)%nat) <$> find_first p (drop pos s).

(** The last position satisfying [p] ([rfind] of a character,
    [find_last_not_of]). *)
Fixpoint find_last (p : ascii → bool) (s : bytes) : option nat :=
  match s with
  | [] => None
  | c :: s => match find_last p s with
              | Some i => Some (S i)
              | None => if p c then Some O else None
              end
  end.

Definition char_eqb (c d : ascii) : bool := bool_decide (c = d).

(** Character classes of the classic locale. *)
Definition between (lo hi c : ascii) : bool :=
  (nat_of_ascii lo <=? nat_of_ascii c)%nat && (nat_of_ascii c <=? nat_of_ascii hi)%nat.
Definition isdigit : ascii → bool := between "0"%char "9"%char.
Definition isupper : ascii → bool := between "A"%char "Z"%char.
Definition islower : ascii → bool := between "a"%char "z"%char.
Definition isalnum (c : ascii) : bool := isdigit c || isupper c || islower c.
Definition isspace (c : ascii) : bool := char_eqb c SPACE || between TAB CR c.

(** [std::tolower] on a byte. *)
Definition tolower (c : ascii) : ascii :=
  if isupper c then ascii_of_nat (nat_of_ascii c + 32) else c.

(** Decimal digits. *)
Definition digit (d : N) : ascii := ascii_of_N (48 + d).
Definition digit_val (c : ascii) : N := (N_of_ascii c - 48)%N.

Fixpoint dec_digits (fuel : nat) (n : N) (acc : bytes) : bytes :=
  let acc := digit (n mod 10) :: acc in
  match fuel with
  | O => acc
  | S fuel => if (n <? 10)%N then acc else dec_digits fuel (n / 10) acc
  end.
(** A number has no more decimal than binary digits: the fuel is enough. *)
Definition dec_N (n : N) : bytes := dec_digits (N.to_nat (N.log2 n)) n [].

(** [std::to_string], and [<<] of an integer. *)
Definition to_string (z : Z) : bytes :=
  if z <? 0 then "-"%char :: dec_N (Z.to_N (- z)) else dec_N (Z.to_N z).

(** The value of a string of decimal digits. *)
Definition digits_val (s : bytes) : N :=
  foldl (λ acc c, 10 * acc + digit_val c)%N 0%N s.

(** The longest prefix satisfying [p], and the rest. *)
Fixpoint span (p : ascii → bool) (s : bytes) : bytes * bytes :=
  match s with
  | [] => ([], [])
  | c :: t => if p c then let '(l, r) := span p t in (c :: l, r) else ([], s)
  end.

(** [std::stoull(s)]: skip white space, an optional sign, then decimal
    digits; trailing characters are ignored.  No digit throws
    [std::invalid_argument], a value over 2^64-1 [std::out_of_range]; a
    minus sign negates modulo 2^64 (as [strtoull] does). *)
Definition stoull (s : bytes) : result Z :=
  let s := snd (span isspace s) in
  let '(neg, s) :=
    match s with
    | c :: t => if char_eqb c "-"%char then (true, t)
                else if char_eqb c "+"%char then (false, t) else (false, s)
    | [] => (false, [])
    end in
  match fst (span isdigit s) with
  | [] => Err (mkExn InvalidArgument #"stoull")
  | ds => let v := Z.of_N (digits_val ds) in
          if UINT64 <=? v then Err (mkExn OutOfRange #"stoull")
          else Ok (if neg then to_u64 (- v) else v)
  end.

(** ** Prefixes and searches *)

Lemma starts_with_iff pre s : starts_with pre s = true ↔ ∃ r, s = pre ++ r.
Proof.
  revert s. induction pre as [|c pre IH]; intros [|d s]; simpl.
  - split; eauto.
  - split; eauto.
  - split; [done | by intros [r ?]].
  - rewrite andb_true_iff, bool_decide_eq_true, IH. split.
    + intros [-> [r ->]]. eauto.
    + intros [r [= -> ->]]. eauto.
Qed.

Lemma starts_with_app pre r : starts_with pre (pre ++ r) = true.
Proof. apply starts_with_iff. eauto. Qed.

Lemma starts_with_app_l pre s r : starts_with pre s = true → starts_with pre (s ++ r) = true.
Proof. rewrite !starts_with_iff. intros [k ->]. rewrite <- app_assoc. eauto. Qed.

Lemma starts_with_long pre s r :
  (length pre ≤ length s)%nat → starts_with pre (s ++ r) = starts_with pre s.
Proof.
  revert s. induction pre as [|c pre IH]; intros [|d s]; simpl; intros; [done|done|lia|].
  rewrite IH by lia. done.
Qed.

Lemma starts_with_short pre s : (length s < length pre)%nat → starts_with pre s = false.
Proof.
  intros H. apply not_true_is_false. rewrite starts_with_iff. intros [r ->].
  rewrite length_app in H. lia.
Qed.

Lemma find_Some pat s i :
  find pat s = Some i ↔
  ∃ l r, s = l ++ pat ++ r ∧ length l = i ∧
         ∀ j, (j < i)%nat → starts_with pat (drop j s) = false.
Proof.
  revert i. induction s as [|c s IH]; intros i; simpl.
  - destruct (starts_with pat []) eqn:E; split.
    + intros [= <-]. apply starts_with_iff in E as [r Hr].
      exists [], r. split_and!; [done|done|lia].
    + intros (l & r & Hl & <- & _). destruct l; [done|]. discriminate.
    + done.
    + intros (l & r & Hl & Hi & _). destruct l as [|? l]; [|discriminate].
      simpl in Hl. rewrite Hl, starts_with_app in E. done.
  - destruct (starts_with pat (c :: s)) eqn:E; split.
    + intros [= <-]. apply starts_with_iff in E as [r Hr].
      exists [], r. split_and!; [done|done|lia].
    + intros (l & r & Hl & <- & Hj). destruct l as [|d l]; [done|].
      specialize (Hj O ltac:(simpl; lia)). simpl in Hj. congruence.
    + intros (i' & Hi & ->)%fmap_Some. apply IH in Hi as (l & r & -> & <- & Hj).
      exists (c :: l), r. split_and!; [done|done|].
      intros [|j] ?; [done|]. apply Hj. simpl in *. lia.
    + intros (l & r & Hl & <- & Hj). destruct l as [|d l].
      { simpl in Hl. rewrite Hl, starts_with_app in E. done. }
      injection Hl as -> ->. simpl. apply fmap_Some. exists (length l). split; [|done].
      apply IH. exists l, r. split_and!; [done|done|].
      intros j ?. apply (Hj (S j)). simpl. lia.
Qed.

Lemma find_None pat s :
  find pat s = None ↔ ∀ j, (j ≤ length s)%nat → starts_with pat (drop j s) = false.
Proof.
  split.
  - revert pat. induction s as [|c s IH]; intros pat; simpl.
    + destruct (starts_with pat []) eqn:E; [done|]. intros _ [|j] ?; [done|lia].
    + destruct (starts_with pat (c :: s)) eqn:E; [done|].
      intros Hn%fmap_None [|j] ?; [done|]. apply IH; [done|lia].
  - intros H. destruct (find pat s) eqn:E; [|done].
    apply find_Some in E as (l & r & -> & <- & _).
    specialize (H (length l)). rewrite drop_app_length, starts_with_app in H.
    rewrite length_app in H. discriminate H. lia.
Qed.

(** A search that succeeded finds the same position when the string grows. *)
Lemma find_app pat s r i : find pat s = Some i → find pat (s ++ r) = Some i.
Proof.
  intros (l & r' & -> & <- & Hj)%find_Some. apply find_Some.
  exists l, (r' ++ r). split_and!; [by rewrite <- !app_assoc|done|].
  intros j Hlt. rewrite drop_app_le by (rewrite length_app; lia).
  rewrite starts_with_long; [by apply Hj|].
  rewrite length_drop, !length_app. lia.
Qed.

Lemma find_bound pat s i : find pat s = Some i → (i + length pat ≤ length s)%nat.
Proof. intros (l & r & -> & <- & _)%find_Some. rewrite !length_app. lia. Qed.

Lemma find_first_Some p s i :
  find_first p s = Some i ↔
  ∃ l c r, s = l ++ c :: r ∧ length l = i ∧ p c = true ∧ Forall (λ d, p d = false) l.
Proof.
  revert i. induction s as [|c s IH]; intros i; simpl.
  { split; [done|]. intros (l & c & r & H & _). by destruct l. }
  destruct (p c) eqn:E; split.
  - intros [= <-]. by exists [], c, s.
  - intros (l & d & r & Hl & <- & Hd & Hf). destruct l as [|e l]; [done|].
    injection Hl as -> ->. inversion Hf. congruence.
  - intros (i' & Hi & ->)%fmap_Some. apply IH in Hi as (l & d & r & -> & <- & Hd & Hf).
    exists (c :: l), d, r. split_and!; auto.
  - intros (l & d & r & Hl & <- & Hd & Hf). destruct l as [|e l]; injection Hl as -> ->; [congruence|].
    simpl. apply fmap_Some. exists (length l). split; [|done]. apply IH.
    inversion Hf. eauto 10.
Qed.

Lemma find_first_None p s : find_first p s = None ↔ Forall (λ c, p c = false) s.
Proof.
  induction s as [|c s IH]; simpl; [done|].
  destruct (p c) eqn:E; [split; [done|]; inversion 1; congruence|].
  rewrite fmap_None, IH. split; [auto|by inversion 1].
Qed.

Lemma find_last_Some p s i :
  find_last p s = Some i ↔
  ∃ l c r, s = l ++ c :: r ∧ length l = i ∧ p c = true ∧ Forall (λ d, p d = false) r.
Proof.
  revert i. induction s as [|c s IH]; intros i; simpl.
  { split; [done|]. intros (l & c & r & H & _). by destruct l. }
  destruct (find_last p s) as [k|] eqn:E.
  - split.
    + intros [= <-]. apply IH in E as _ || idtac.
      destruct (proj1 (IH k) eq_refl) as (l & d & r & -> & <- & Hd & Hf).
      exists (c :: l), d, r. done.
    + intros (l & d & r & Hl & <- & Hd & Hf).
      destruct (proj1 (IH k) eq_refl) as (l' & d' & r' & Hs & <- & Hd' & Hf').
      destruct l as [|e l]; injection Hl as -> Hl.
      * subst r. rewrite Hs in Hf. apply Forall_app in Hf as [_ Hf]. inversion Hf. congruence.
      * enough (Some (length l') = Some (length l)) as [= ->] by done.
        apply IH. rewrite Hl. eauto 10.
  - split.
    + destruct (p c) eqn:Ec; [|done]. intros [= <-]. exists [], c, s. split_and!; try done.
      apply Forall_forall. intros d Hd. destruct (p d) eqn:Ed; [|done]. exfalso.
      clear IH. induction s as [|e s IHs]; simpl in *; [by apply not_elem_of_nil in Hd|].
      destruct (find_last p s); [done|]. apply elem_of_cons in Hd as [->|Hd].
      { by rewrite Ed in E. }
      by apply IHs.
    + intros (l & d & r & Hl & <- & Hd & Hf). destruct l as [|e l]; injection Hl as -> Hl.
      { by rewrite Hd. }
      exfalso. assert (None = Some (length l)) as [=].
      apply IH. rewrite Hl. eauto 10.
Qed.

Lemma find_last_None p s : find_last p s = None ↔ Forall (λ c, p c = false) s.
Proof.
  induction s as [|c s IH]; simpl; [done|].
  destruct (find_last p s).
  - split; [done|]. inversion 1 as [|?? _ Hs]. by apply IH in Hs.
  - destruct (p c) eqn:E; [split; [done|]; inversion 1; congruence|].
    split; [|done]. intros _. constructor; [done|]. by apply IH.
Qed.

(** ** Spans *)

Lemma span_app p s : fst (span p s) ++ snd (span p s) = s.
Proof.
  induction s as [|c s IH]; simpl; [done|].
  destruct (p c); [|done]. destruct (span p s). simpl in *. by rewrite IH.
Qed.

Lemma span_fst_Forall p s : Forall (λ c, p c = true) (fst (span p s)).
Proof.
  induction s as [|c s IH]; simpl; [constructor|].
  destruct (p c) eqn:E; [|constructor]. destruct (span p s). simpl in *. by constructor.
Qed.

Lemma span_all p l r :
  Forall (λ c, p c = true) l → (∀ c, head r = Some c → p c = false) → span p (l ++ r) = (l, r).
Proof.
  induction 1 as [|c l Hc _ IH]; simpl; intros Hr.
  - destruct r as [|c r]; simpl; [done|]. by rewrite (Hr c).
  - rewrite Hc, IH by done. done.
Qed.

(** ** Decimal printing and parsing *)

Lemma digit_val_digit d : (d < 10)%N → digit_val (digit d) = d.
Proof.
  intros H. unfold digit_val, digit. rewrite N_ascii_embedding by lia. lia.
Qed.

Lemma isdigit_digit d : (d < 10)%N → isdigit (digit d) = true.
Proof.
  intros H. unfold isdigit, between, digit, nat_of_ascii.
  rewrite N_ascii_embedding by lia.
  change (N.to_nat (N_of_ascii "0"%char)) with 48%nat. change (N.to_nat (N_of_ascii "9"%char)) with 57%nat.
  apply andb_true_intro. rewrite !Nat.leb_le. lia.
Qed.

Lemma foldl_digits acc s :
  foldl (λ acc c, 10 * acc + digit_val c)%N acc s
  = (acc * 10 ^ N.of_nat (length s) + digits_val s)%N.
Proof.
  unfold digits_val. revert acc. induction s as [|c s IH]; intros acc; simpl length; cbn [foldl].
  - simpl. lia.
  - rewrite IH, (IH (10 * 0 + _)%N), Nat2N.inj_succ, N.pow_succ_r'. lia.
Qed.

Lemma digits_val_cons c s :
  digits_val (c :: s) = (digit_val c * 10 ^ N.of_nat (length s) + digits_val s)%N.
Proof. unfold digits_val at 1. cbn [foldl]. rewrite foldl_digits. f_equal. Qed.

Lemma digits_val_app s t :
  digits_val (s ++ t) = (digits_val s * 10 ^ N.of_nat (length t) + digits_val t)%N.
Proof. unfold digits_val at 1. rewrite foldl_app, foldl_digits. done. Qed.

Lemma dec_digits_val fuel n acc :
  (N.log2 n ≤ N.of_nat fuel)%N →
  digits_val (dec_digits fuel n acc) = (n * 10 ^ N.of_nat (length acc) + digits_val acc)%N.
Proof.
  revert n acc. induction fuel as [|fuel IH]; intros n acc Hf; cbn [dec_digits].
  - assert (n < 2)%N.
    { destruct (N.lt_ge_cases n 2) as [|Hn]; [done|].
      pose proof (N.log2_le_mono _ _ Hn) as Hl. change (N.log2 2) with 1%N in Hl. lia. }
    rewrite digits_val_cons, digit_val_digit by (apply N.mod_lt; lia).
    rewrite N.mod_small by lia. done.
  - destruct (N.ltb_spec n 10).
    + rewrite digits_val_cons, digit_val_digit by (apply N.mod_lt; lia).
      rewrite N.mod_small by lia. done.
    + rewrite IH.
      * rewrite digits_val_cons, digit_val_digit by (apply N.mod_lt; lia).
        cbn [length]. rewrite Nat2N.inj_succ, N.pow_succ_r'.
        pose proof (N.div_mod n 10 ltac:(lia)). nia.
      * apply N.le_trans with (N.log2 (n / 2)).
        { apply N.log2_le_mono, N.div_le_compat_l; lia. }
        rewrite <- N.div2_div. destruct n as [|[p|p|]]; simpl in *; try lia;
          destruct p; simpl in *; lia.
Qed.

Lemma digits_val_dec_N n : digits_val (dec_N n) = n.
Proof.
  unfold dec_N. rewrite dec_digits_val by lia.
  change (digits_val []) with 0%N. cbn [length]. rewrite N.pow_0_r. lia.
Qed.

Lemma dec_digits_Forall fuel n acc :
  Forall (λ c, isdigit c = true) acc → Forall (λ c, isdigit c = true) (dec_digits fuel n acc).
Proof.
  revert n acc. induction fuel as [|fuel IH]; intros n acc H; cbn [dec_digits].
  - constructor; [|done]. apply isdigit_digit, N.mod_lt. lia.
  - destruct (n <? 10)%N; [|apply IH]; (constructor; [|done]; apply isdigit_digit, N.mod_lt; lia).
Qed.

Lemma dec_N_Forall n : Forall (λ c, isdigit c = true) (dec_N n).
Proof. apply dec_digits_Forall. constructor. Qed.

Lemma dec_digits_nonnil fuel n acc : dec_digits fuel n acc ≠ [].
Proof.
  revert n acc. induction fuel as [|fuel IH]; intros n acc; cbn [dec_digits]; [done|].
  by destruct (n <? 10)%N.
Qed.

Lemma dec_N_inj n m : dec_N n = dec_N m → n = m.
Proof. intros H. by rewrite <- (digits_val_dec_N n), H, digits_val_dec_N. Qed.

Lemma isdigit_not p c :
  isdigit c = true → (isdigit p = false) → char_eqb c p = false.
Proof. intros H1 H2. apply bool_decide_eq_false. intros ->. congruence. Qed.

Lemma to_string_inj z1 z2 : to_string z1 = to_string z2 → z1 = z2.
Proof.
  assert (Hd : ∀ n m, "-"%char :: dec_N n ≠ dec_N m).
  { intros n m H. pose proof (dec_N_Forall m) as Hf. rewrite <- H in Hf. inversion Hf. done. }
  unfold to_string. destruct (Z.ltb_spec z1 0), (Z.ltb_spec z2 0); intros Heq.
  - injection Heq as Heq%dec_N_inj. lia.
  - by apply Hd in Heq.
  - symmetry in Heq. by apply Hd in Heq.
  - apply dec_N_inj in Heq. lia.
Qed.

(** What is printed is read back, whatever non-digit follows. *)
Lemma stoull_to_string z r :
  0 ≤ z < UINT64 → (∀ c, head r = Some c → isdigit c = false) →
  stoull (to_string z ++ r) = Ok z.
Proof.
  intros Hz Hr. unfold to_string. destruct (Z.ltb_spec z 0); [lia|].
  unfold stoull. pose proof (dec_N_Forall (Z.to_N z)) as Hf.
  destruct (dec_N (Z.to_N z)) as [|c ds] eqn:E.
  { unfold dec_N in E. by apply dec_digits_nonnil in E. }
  inversion Hf as [|?? Hc Hds]; subst.
  assert (Hsp : isspace c = false).
  { unfold isspace, char_eqb, isdigit, between in *. destruct c as [[] [] [] [] [] [] [] []]; vm_compute in Hc |- *; congruence. }
  cbn [span app]. rewrite Hsp. cbn [snd].
  rewrite !(isdigit_not _ _ Hc) by done. 
  change (c :: ds ++ r) with ((c :: ds) ++ r).
  rewrite span_all by done. cbn [fst].
  rewrite <- E, digits_val_dec_N, Z2N.id by lia.
  destruct (Z.leb_spec UINT64 z); [lia|done].
Qed.


(** *** Searching around characters the pattern does not have *)

Lemma starts_with_foreign pat c l r : c ∉ pat → starts_with pat (l ++ c :: r) = starts_with pat l.
Proof.
  revert pat. induction l as [|d l IH]; intros [|p pat] Hc; cbn; [done| |done|].
  - rewrite bool_decide_eq_false_2; [done|]. set_solver.
  - rewrite IH; [done|set_solver].
Qed.

Lemma find_foreign pat c l r : c ∉ pat → pat ≠ [] →
  find pat (l ++ c :: r)
  = match find pat l with
    | Some i => Some i
    | None => (λ i, (length l + 1 + i)%nat) <$> find pat r
    end.
Proof.
  intros Hc Hp. induction l as [|d l IH].
  - cbn [app]. assert (find pat [] = None) as -> by (by destruct pat).
    destruct pat as [|p pat]; [done|]. cbn [find starts_with].
    rewrite bool_decide_eq_false_2 by set_solver. cbn. by destruct (find (p :: pat) r).
  - cbn [app find]. change (d :: l ++ c :: r) with ((d :: l) ++ c :: r).
    rewrite starts_with_foreign by done. destruct (starts_with pat (d :: l)); [done|].
    rewrite IH. destruct (find pat l); [done|]. by destruct (find pat r).
Qed.

Lemma find_foreign_all pat m l r : m ≠ [] → (∀ c, c ∈ m → c ∉ pat) → pat ≠ [] →
  find pat (l ++ m ++ r)
  = match find pat l with
    | Some i => Some i
    | None => (λ i, (length l + length m + i)%nat) <$> find pat r
    end.
Proof.
  intros Hne Hm Hp. destruct m as [|c m]; [done|]. clear Hne.
  revert l c Hm. induction m as [|d m IH]; intros l c Hm; cbn [app].
  - rewrite find_foreign by (done || set_solver). by destruct (find pat l).
  - change (c :: d :: m ++ r) with ([c] ++ (d :: m) ++ r). rewrite app_assoc, IH by set_solver.
    rewrite (find_foreign pat c l []) by (done || set_solver).
    destruct (find pat l); [done|]. assert (find pat [] = None) as -> by (by destruct pat). cbn.
    destruct (find pat r); cbn; [|done]. rewrite length_app. cbn. f_equal. lia.
Qed.
