(* ===== verification/StringUtil.v ===== *)
(** * util/string.{h,cpp}

    [escape_str] with its two tables, and what the results mean: a reader
    of the XML entities, and the matching of the regular expressions that
    [glob_to_regex] produces. *)

From Stdlib Require Import ZArith NArith Ascii String.
From stdpp Require Import base gmap sets list strings.
From S2P Require Import Prelude CppString.

(** An [unordered_map] from characters; the keys of the tables are distinct. *)
Abbreviation Needles := (list (ascii * bytes)).

Fixpoint needle (needles : Needles) (c : ascii) : option bytes :=
  match needles with
  | [] => None
  | (k, v) :: needles => if char_eqb k c then Some v else needle needles c
  end.

(** [out.append(str, pos, n)] *)
Definition substr (str : bytes) (pos n : nat) : bytes := take n (drop pos str).

(** The loop over [i], with [n] iterations left: [out] and [last] are the
    local variables. *)
Fixpoint escape_loop (needles : Needles) (str : bytes) (n i last : nat) (out : bytes) : bytes * nat :=
  match n with
  | O => (out, last)
  | S n =>
    match needle needles (nth i str NUL) with
    | Some v => escape_loop needles str n (S i) (S i) (out ++ substr str last (i - last) ++ v)
    | None => escape_loop needles str n (S i) last out
    end
  end.

Definition escape_str (str : bytes) (needles : Needles) : bytes :=
  let '(out, last) := escape_loop needles str (length str) 0 0 [] in
  out ++ drop last str.

Definition xml_needles : Needles :=
  [(DQUOTE, #"&quot;"); ("'"%char, #"&apos;"); ("<"%char, #"&lt;"); (">"%char, #"&gt;");
   ("&"%char, #"&amp;")].

Definition escape_xml (str : bytes) : bytes := escape_str str xml_needles.

Definition glob_needles : Needles :=
  [("."%char, BSLASH :: #"."); ("^"%char, BSLASH :: #"^"); ("$"%char, BSLASH :: #"$");
   ("+"%char, BSLASH :: #"+"); ("("%char, BSLASH :: #"("); (")"%char, BSLASH :: #")");
   ("["%char, BSLASH :: #"["); ("]"%char, BSLASH :: #"]"); ("{"%char, BSLASH :: #"{");
   ("}"%char, BSLASH :: #"}"); (BSLASH, [BSLASH; BSLASH]); ("|"%char, BSLASH :: #"|");
   ("*"%char, #".*"); ("?"%char, #".")].

Definition glob_to_regex (str : bytes) : bytes := escape_str str glob_needles.

(** ** The loop copies or replaces every character *)

Definition escape_char (needles : Needles) (c : ascii) : bytes := default [c] (needle needles c).

Lemma escape_loop_ok needles str n i last out :
  (i + n = length str)%nat → (last ≤ i)%nat →
  let '(out', last') := escape_loop needles str n i last out in
  out' ++ drop last' str
  = out ++ substr str last (i - last) ++ concat (map (escape_char needles) (drop i str)).
Proof.
  revert i last out. induction n as [|n IH]; intros i last out Hi Hl; cbn [escape_loop].
  - rewrite (drop_ge str i) by lia. cbn [map concat]. rewrite app_nil_r. f_equal.
    unfold substr. by rewrite take_ge by (rewrite length_drop; lia).
  - destruct (lookup_lt_is_Some_2 str i) as [c Hc]; [lia|].
    rewrite (drop_S str c i Hc). cbn [map concat].
    rewrite (nth_lookup_Some str i NUL c Hc). unfold escape_char at 1.
    destruct (needle needles c) as [v|]; cbn [default].
    + specialize (IH (S i) (S i) (out ++ substr str last (i - last) ++ v) ltac:(lia) ltac:(lia)).
      destruct (escape_loop _ _ _ _ _ _) as [out' last']. rewrite IH.
      unfold substr at 2. rewrite Nat.sub_diag, take_0. cbn [app]. by rewrite <- !app_assoc.
    + specialize (IH (S i) last out ltac:(lia) ltac:(lia)).
      destruct (escape_loop _ _ _ _ _ _) as [out' last']. rewrite IH. f_equal.
      assert (substr str last (S i - last) = substr str last (i - last) ++ [c]) as ->.
      { unfold substr. replace (S i - last)%nat with (S (i - last)) by lia. apply take_S_r.
        rewrite lookup_drop. by replace (last + (i - last))%nat with i by lia. }
      by rewrite <- app_assoc.
Qed.

Lemma escape_str_chars str needles :
  escape_str str needles = concat (map (escape_char needles) str).
Proof.
  pose proof (escape_loop_ok needles str (length str) 0 0 [] ltac:(lia) ltac:(lia)) as H.
  unfold escape_str. destruct (escape_loop _ _ _ _ _ _) as [out last]. by rewrite H, drop_0.
Qed.

(** ** Reading XML text *)

(** The five predefined entities. *)
Definition entities : list (bytes * ascii) :=
  [(#"&quot;", DQUOTE); (#"&apos;", "'"%char); (#"&lt;", "<"%char); (#"&gt;", ">"%char);
   (#"&amp;", "&"%char)].

Fixpoint entity_at (table : list (bytes * ascii)) (s : bytes) : option (nat * ascii) :=
  match table with
  | [] => None
  | (e, c) :: table => if starts_with e s then Some (length e, c) else entity_at table s
  end.

(** The character data an XML reader makes of a text without markup. *)
Fixpoint unescape_xml (skip : nat) (s : bytes) : bytes :=
  match s with
  | [] => []
  | c :: t =>
    match skip with
    | S skip => unescape_xml skip t
    | O => match entity_at entities s with
           | Some (n, d) => d :: unescape_xml (n - 1) t
           | None => c :: unescape_xml 0 t
           end
    end
  end.

Lemma unescape_skip k s : unescape_xml k s = unescape_xml 0 (drop k s).
Proof. revert s. induction k as [|k IH]; intros [|c s]; [done..|]. apply IH. Qed.

Lemma unescape_char c s : unescape_xml 0 (escape_char xml_needles c ++ s) = c :: unescape_xml 0 s.
Proof.
  assert (Hent : ∀ e d, entity_at entities (e ++ s) = Some (length e, d) → e ≠ [] →
    unescape_xml 0 (e ++ s) = d :: unescape_xml 0 s).
  { intros e d He Hne. destruct e as [|x e]; [done|]. cbn [app] in *. cbn [unescape_xml].
    rewrite He, unescape_skip. cbn [length]. rewrite Nat.sub_succ, Nat.sub_0_r. by rewrite drop_app_length. }
  unfold escape_char, xml_needles. cbn [needle]. unfold char_eqb.
  repeat (case_bool_decide; [subst c; apply Hent; [by destruct s|done]|]). cbn [default app].
  assert (Hn : entity_at entities (c :: s) = None).
  { unfold entities. cbn [entity_at].
    assert (Hs : ∀ e, starts_with ("&"%char :: e) (c :: s) = false).
    { intros e. cbn [starts_with]. by rewrite bool_decide_eq_false_2. }
    change #"&quot;" with ("&"%char :: #"quot;"). change #"&apos;" with ("&"%char :: #"apos;").
    change #"&lt;" with ("&"%char :: #"lt;"). change #"&gt;" with ("&"%char :: #"gt;").
    change #"&amp;" with ("&"%char :: #"amp;"). by rewrite !Hs. }
  cbn [unescape_xml]. by rewrite Hn.
Qed.

Definition markup : list ascii := ["<"%char; ">"%char; DQUOTE; "'"%char].

Lemma escape_xml_no_markup s : Forall (λ c, c ∉ markup) (escape_xml s).
Proof.
  unfold escape_xml. rewrite escape_str_chars. induction s as [|c s IH]; [constructor|].
  cbn [map concat]. apply Forall_app. split; [|done].
  unfold escape_char, xml_needles. cbn [needle]. unfold char_eqb.
  repeat (case_bool_decide; [by apply (bool_decide_unpack _); vm_compute|]).
  cbn [default]. constructor; [|constructor]. unfold markup. set_solver.
Qed.

Lemma unescape_escape s : unescape_xml 0 (escape_xml s) = s.
Proof.
  unfold escape_xml. rewrite escape_str_chars.
  induction s as [|c s IH]; [done|]. cbn [map concat]. by rewrite unescape_char, IH.
Qed.

(** ** Matching regular expressions

    The expressions [glob_to_regex] builds, in the ECMAScript grammar of
    [std::regex]: escaped and plain characters, [.], and [.] repeated. *)

Inductive atom := AChar (c : ascii) | AAny | AStar.

Fixpoint parse_regex (s : bytes) : list atom :=
  match s with
  | [] => []
  | c :: t =>
    if char_eqb c BSLASH then
      match t with d :: t => AChar d :: parse_regex t | [] => [AChar c] end
    else if char_eqb c "."%char then
      match t with
      | d :: t' => if char_eqb d "*"%char then AStar :: parse_regex t' else AAny :: parse_regex t
      | [] => [AAny]
      end
    else AChar c :: parse_regex t
  end.

(** [.] matches everything but line terminators. *)
Definition not_newline (c : ascii) : bool := negb (char_eqb c LF || char_eqb c CR).

Fixpoint match_star (rest : bytes → bool) (s : bytes) : bool :=
  rest s || match s with [] => false | c :: s => not_newline c && match_star rest s end.

Fixpoint match_atoms (r : list atom) (s : bytes) : bool :=
  match r with
  | [] => bool_decide (s = [])
  | AChar c :: r => match s with [] => false | d :: s => char_eqb c d && match_atoms r s end
  | AAny :: r => match s with [] => false | d :: s => not_newline d && match_atoms r s end
  | AStar :: r => match_star (match_atoms r) s
  end.

(** [std::regex_match] *)
Definition regex_match (s regex : bytes) : bool := match_atoms (parse_regex regex) s.

(** What a glob pattern means: [*] is any string, [?] any character. *)
Fixpoint any_suffix (rest : bytes → bool) (s : bytes) : bool :=
  rest s || match s with [] => false | _ :: s => any_suffix rest s end.

Fixpoint glob_match (g s : bytes) : bool :=
  match g with
  | [] => bool_decide (s = [])
  | c :: g =>
    if char_eqb c "*"%char then any_suffix (glob_match g) s
    else match s with
         | [] => false
         | d :: s => (char_eqb c "?"%char || char_eqb c d) && glob_match g s
         end
  end.

Definition glob_atom (c : ascii) : atom :=
  if char_eqb c "*"%char then AStar else if char_eqb c "?"%char then AAny else AChar c.

Lemma glob_head g c : head (concat (map (escape_char glob_needles) g)) = Some c → c ≠ "*"%char.
Proof.
  destruct g as [|d g]; [done|]. cbn [map concat]. unfold escape_char, glob_needles. cbn [needle].
  unfold char_eqb. repeat (case_bool_decide; [cbn; intros [= <-]; done|]).
  cbn. intros [= <-]. congruence.
Qed.

Lemma parse_glob g :
  parse_regex (concat (map (escape_char glob_needles) g)) = map glob_atom g.
Proof.
  induction g as [|c g IH]; [done|]. cbn [map concat]. rewrite <- IH.
  pose proof (glob_head g) as Hh. set (rest := concat _) in *.
  assert (Hany : parse_regex ("."%char :: rest) = AAny :: parse_regex rest).
  { destruct rest as [|d rest']; [done|]. specialize (Hh d eq_refl).
    change (parse_regex ("."%char :: d :: rest'))
      with (if char_eqb d "*"%char then AStar :: parse_regex rest' else AAny :: parse_regex (d :: rest')).
    unfold char_eqb. by rewrite bool_decide_eq_false_2. }
  unfold escape_char, glob_needles, glob_atom. cbn [needle]. unfold char_eqb.
  repeat (case_bool_decide; [subst c; first [exact Hany|done]|]).
  cbn [default app].
  cbn [parse_regex]. unfold char_eqb. by rewrite !bool_decide_eq_false_2 by congruence.
Qed.

Lemma star_ext (f h : bytes → bool) s :
  Forall (λ c, not_newline c = true) s →
  (∀ t, Forall (λ c, not_newline c = true) t → f t = h t) → match_star f s = any_suffix h s.
Proof.
  intros Hs Hf. induction s as [|c s IH]; cbn [match_star any_suffix]; rewrite Hf by done; [done|].
  inversion Hs as [|?? Hc Hs']; subst. by rewrite Hc, IH.
Qed.

Lemma match_glob g s :
  Forall (λ c, not_newline c = true) s → match_atoms (map glob_atom g) s = glob_match g s.
Proof.
  revert s. induction g as [|c g IH]; intros s Hs; [done|]. cbn [map glob_match].
  unfold glob_atom at 1. destruct (char_eqb c "*"%char).
  - cbn [match_atoms]. by apply star_ext.
  - destruct s as [|d s]; [by destruct (char_eqb c "?"%char)|].
    inversion Hs as [|?? Hd Hs']; subst.
    destruct (char_eqb c "?"%char); cbn [match_atoms orb]; by rewrite IH, ?Hd.
Qed.

(** ** Properties *)

(** C38: Escaped text is safe inside an XML document and loses nothing: it
    contains no [<], no [>] and no quote, and a reader that replaces the
    five predefined entities gets the original back. *)
Theorem escape_xml_roundtrip s :
  Forall (λ c, c ∉ markup) (escape_xml s) ∧ unescape_xml 0 (escape_xml s) = s.
Proof. split; [apply escape_xml_no_markup|apply unescape_escape]. Qed.

(** C39: The regular expression for a glob pattern matches exactly the file
    names the pattern matches, where [*] is any string and [?] any
    character and every other character, special in regular expressions or
    not, is itself; for names without line breaks, which [.] does not
    match. *)
Theorem glob_to_regex_correct g s :
  Forall (λ c, not_newline c = true) s → regex_match s (glob_to_regex g) = glob_match g s.
Proof.
  intros Hs. unfold regex_match, glob_to_regex. by rewrite escape_str_chars, parse_glob, match_glob.
Qed.

Lemma glob_to_regex_correct_witness :
  regex_match #"a+b.conf" (glob_to_regex #"*+?.conf") = glob_match #"*+?.conf" #"a+b.conf".
Proof. apply glob_to_regex_correct. repeat constructor. Defined.
