(* ===== verification/StdMap.v ===== *)
(** * [std::map<std::string, V>] and [std::set<std::string>]

    The sources iterate over their maps, so the order of the entries is
    part of what they do: a map is the list of its entries in the order of
    [std::less<std::string>].  [sm_gmap] forgets the order; the operations
    refine those of stdpp's finite maps. *)

From Stdlib Require Import ZArith Ascii String Sorting.Sorted.
From stdpp Require Import base gmap sets list strings.
From S2P Require Import Prelude CppString.

(** ** [operator<] of [std::string]: lexicographic on unsigned bytes *)

Fixpoint bytes_ltb (s t : bytes) : bool :=
  match s, t with
  | _, [] => false
  | [], _ :: _ => true
  | c :: s, d :: t =>
    if decide (c = d) then bytes_ltb s t
    else (nat_of_ascii c <? nat_of_ascii d)%nat
  end.

Definition bytes_lt (s t : bytes) : Prop := bytes_ltb s t = true.

Lemma nat_of_ascii_inj c d : nat_of_ascii c = nat_of_ascii d → c = d.
Proof. intros H. by rewrite <- (ascii_nat_embedding c), H, ascii_nat_embedding. Qed.

Lemma bytes_ltb_irrefl s : bytes_ltb s s = false.
Proof. induction s as [|c s IH]; simpl; [done|]. by rewrite decide_True. Qed.

#[global] Instance bytes_lt_trans : Transitive bytes_lt.
Proof.
  unfold bytes_lt. intros s. induction s as [|c s IH]; intros [|d t] [|e u]; simpl; try done.
  repeat case_decide; subst; try done; rewrite ?Nat.ltb_lt; intros; try lia.
  by eapply IH.
Qed.

Lemma bytes_lt_total s t : bytes_ltb s t = false → s ≠ t → bytes_ltb t s = true.
Proof.
  revert t. induction s as [|c s IH]; intros [|d t]; simpl; try done.
  case_decide; subst.
  - rewrite decide_True by done. intros H Hne. apply IH; congruence.
  - rewrite decide_False by congruence. rewrite Nat.ltb_ge, Nat.ltb_lt. intros Hle _.
    assert (nat_of_ascii c ≠ nat_of_ascii d) by (intros ?%nat_of_ascii_inj; done). lia.
Qed.

(** ** Operations *)

Abbreviation smap V := (list (bytes * V)).

Section smap.
Context {V : Type}.
Implicit Types (m : smap V) (k : bytes) (v : V).

(** [m.find(k)] *)
Fixpoint sm_find k m : option V :=
  match m with
  | [] => None
  | (k', v) :: m => if decide (k = k') then Some v else sm_find k m
  end.

(** [m[k] = v] *)
Fixpoint sm_set k v m : smap V :=
  match m with
  | [] => [(k, v)]
  | (k', v') :: m' =>
    if decide (k = k') then (k, v) :: m'
    else if bytes_ltb k k' then (k, v) :: m
    else (k', v') :: sm_set k v m'
  end.

(** [m.erase(m.find(k))] *)
Definition sm_erase k m : smap V := filter (λ p, p.1 ≠ k) m.

(** [begin()], and the iterator after the entry of [k]; [end()] is [None]. *)
Definition sm_begin m : option (bytes * V) := head m.
Definition sm_after k m : option (bytes * V) := head (filter (λ p, bytes_ltb k p.1 = true) m).

Definition sm_keys m : list bytes := m.*1.

(** The entries are in strictly increasing order of the keys. *)
Definition sm_wf m : Prop := StronglySorted bytes_lt (sm_keys m).

Definition sm_gmap m : gmap bytes V := list_to_map m.

(** ** Lookups *)

Lemma sm_find_set_eq k v m : sm_find k (sm_set k v m) = Some v.
Proof.
  induction m as [|[k' v'] m IH]; simpl; [by rewrite decide_True|].
  repeat case_decide; simpl; subst; [by rewrite decide_True|].
  destruct (bytes_ltb k k'); simpl; [by rewrite decide_True|by rewrite decide_False].
Qed.

Lemma sm_find_set_ne k j v m : j ≠ k → sm_find j (sm_set k v m) = sm_find j m.
Proof.
  intros Hne. induction m as [|[k' v'] m IH]; simpl; [by rewrite decide_False|].
  case_decide as Hk; simpl; subst; [by rewrite !decide_False|].
  destruct (bytes_ltb k k'); simpl.
  - by rewrite (decide_False (P:=j = k)).
  - by rewrite IH.
Qed.

Lemma sm_find_set k j v m :
  sm_find j (sm_set k v m) = if decide (j = k) then Some v else sm_find j m.
Proof. case_decide; subst; auto using sm_find_set_eq, sm_find_set_ne. Qed.

(** A new key adds an entry. *)
Lemma sm_set_new k v m : sm_find k m = None → sm_set k v m ≡ₚ (k, v) :: m.
Proof.
  induction m as [|[k' v'] m IH]; simpl; [done|]. case_decide; [done|]. intros Hk.
  destruct (bytes_ltb k k'); [done|]. rewrite IH by done. apply perm_swap.
Qed.

Lemma sm_find_erase k j m :
  sm_find j (sm_erase k m) = if decide (j = k) then None else sm_find j m.
Proof.
  unfold sm_erase. induction m as [|[k' v'] m IH]; simpl; [by case_decide|].
  rewrite filter_cons. simpl. destruct (decide (k' = k)) as [->|Hk].
  - rewrite decide_False by (by intros []). rewrite IH. by repeat case_decide.
  - rewrite decide_True by done. simpl. rewrite IH. repeat case_decide; congruence.
Qed.

Lemma sm_find_elem k v m : sm_find k m = Some v → (k, v) ∈ m.
Proof.
  induction m as [|[k' v'] m IH]; simpl; [done|].
  case_decide; [intros [= ->]; subst; left | intros; right; auto].
Qed.

Lemma sm_find_keys k m : k ∈ sm_keys m ↔ is_Some (sm_find k m).
Proof.
  unfold sm_keys. induction m as [|[k' v'] m IH]; simpl.
  { split; [by intros ?%not_elem_of_nil | by intros [? ?]]. }
  rewrite elem_of_cons, IH. case_decide; naive_solver.
Qed.

Lemma sm_find_None k m : k ∉ sm_keys m ↔ sm_find k m = None.
Proof. rewrite sm_find_keys. by rewrite eq_None_not_Some. Qed.

(** ** Refinement of finite maps *)

Lemma sm_gmap_lookup k m : sm_gmap m !! k = sm_find k m.
Proof.
  unfold sm_gmap. induction m as [|[k' v'] m IH]; simpl; [apply lookup_empty|].
  rewrite lookup_insert, IH. repeat case_decide; congruence.
Qed.

Lemma sm_gmap_set k v m : sm_gmap (sm_set k v m) = <[k:=v]> (sm_gmap m).
Proof.
  apply map_eq. intros j. rewrite lookup_insert, !sm_gmap_lookup, sm_find_set.
  repeat case_decide; congruence.
Qed.

Lemma sm_gmap_erase k m : sm_gmap (sm_erase k m) = delete k (sm_gmap m).
Proof.
  apply map_eq. intros j. rewrite lookup_delete, !sm_gmap_lookup, sm_find_erase.
  repeat case_decide; congruence.
Qed.

(** ** Order *)

Lemma sm_wf_cons k v m :
  sm_wf ((k, v) :: m) ↔ sm_wf m ∧ ∀ j, j ∈ sm_keys m → bytes_lt k j.
Proof.
  unfold sm_wf, sm_keys. simpl. split.
  - inversion 1 as [|?? Hs Hf]; subst. rewrite Forall_forall in Hf. done.
  - intros [Hs Hf]. constructor; [done|]. by apply Forall_forall.
Qed.

Lemma sm_keys_set k v m j : j ∈ sm_keys (sm_set k v m) ↔ j = k ∨ j ∈ sm_keys m.
Proof.
  rewrite !sm_find_keys, sm_find_set. case_decide; subst; [|naive_solver].
  split; [by left|]. eauto.
Qed.

Lemma sm_keys_erase k m j : j ∈ sm_keys (sm_erase k m) ↔ j ≠ k ∧ j ∈ sm_keys m.
Proof.
  rewrite !sm_find_keys, sm_find_erase. case_decide; subst; [|naive_solver].
  split; [by intros [? ?]|naive_solver].
Qed.

Lemma sm_wf_nil : sm_wf [].
Proof. constructor. Qed.

Lemma sm_wf_set k v m : sm_wf m → sm_wf (sm_set k v m).
Proof.
  induction m as [|[k' v'] m IH]; simpl; intros Hw.
  { apply sm_wf_cons. split; [done|]. by intros j ?%not_elem_of_nil. }
  pose proof Hw as [Hm Hlt]%sm_wf_cons.
  case_decide; subst; [by apply sm_wf_cons|].
  destruct (bytes_ltb k k') eqn:E.
  - apply sm_wf_cons. split; [done|]. intros j.
    unfold sm_keys. simpl. rewrite elem_of_cons. intros [->|Hj]; [done|].
    transitivity k'; [done|]. by apply Hlt.
  - apply sm_wf_cons. split; [by apply IH|]. intros j. rewrite sm_keys_set.
    intros [->|Hj]; [|by apply Hlt]. by apply bytes_lt_total.
Qed.

Lemma sm_wf_erase k m : sm_wf m → sm_wf (sm_erase k m).
Proof.
  unfold sm_erase. induction m as [|[k' v'] m IH]; [done|].
  intros [Hm Hlt]%sm_wf_cons. rewrite filter_cons. simpl. case_decide; [|auto].
  apply sm_wf_cons. split; [auto|]. intros j Hj. apply Hlt.
  by apply (sm_keys_erase k) in Hj as [_ ?].
Qed.

Lemma sm_wf_NoDup m : sm_wf m → NoDup (sm_keys m).
Proof.
  induction m as [|[k v] m IH]; [constructor|].
  intros [Hm Hlt]%sm_wf_cons. constructor; [|by apply IH].
  intros Hk. specialize (Hlt k Hk). unfold bytes_lt in Hlt.
  by rewrite bytes_ltb_irrefl in Hlt.
Qed.

Lemma sm_elem_find k v m : sm_wf m → (k, v) ∈ m → sm_find k m = Some v.
Proof.
  intros Hw. induction m as [|[k' v'] m IH]; simpl; [by intros ?%not_elem_of_nil|].
  apply sm_wf_cons in Hw as [Hm Hlt]. rewrite elem_of_cons. intros [[= <- <-]|He].
  - by rewrite decide_True.
  - rewrite decide_False; [by apply IH|]. intros ->.
    assert (bytes_lt k' k') as H. { apply Hlt. unfold sm_keys. apply list_elem_of_fmap. by exists (k', v). }
    unfold bytes_lt in H. by rewrite bytes_ltb_irrefl in H.
Qed.

Lemma filter_all {A} (P : A → Prop) `{∀ x, Decision (P x)} (l : list A) :
  (∀ x, x ∈ l → P x) → filter P l = l.
Proof.
  induction l as [|x l IH]; intros Hl; [done|]. rewrite filter_cons_True by (apply Hl; left).
  f_equal. apply IH. intros y Hy. apply Hl. by right.
Qed.

(** Iterators: the entry after one in the middle, and erasing it. *)
Lemma sm_after_split k v pre post :
  sm_wf (pre ++ (k, v) :: post) → sm_after k (pre ++ (k, v) :: post) = head post.
Proof.
  unfold sm_after. induction pre as [|[k' v'] pre IH]; cbn [app]; intros [Hw Hlt]%sm_wf_cons.
  - rewrite filter_cons_False by (cbn; by rewrite bytes_ltb_irrefl). f_equal.
    apply filter_all. intros [j u] Hj. cbn. apply Hlt. unfold sm_keys. by apply (list_elem_of_fmap_2 fst) in Hj.
  - rewrite filter_cons_False; [by apply IH|]. cbn. intros Hk.
    assert (Hkk : bytes_lt k' k).
    { apply Hlt. unfold sm_keys. rewrite fmap_app. apply elem_of_app. right. left. }
    assert (Hirr : bytes_lt k k) by by transitivity k'. unfold bytes_lt in Hirr. by rewrite bytes_ltb_irrefl in Hirr.
Qed.

Lemma sm_erase_split k v pre post :
  sm_wf (pre ++ (k, v) :: post) → sm_erase k (pre ++ (k, v) :: post) = pre ++ post.
Proof.
  intros Hnd%sm_wf_NoDup. unfold sm_erase, sm_keys in *. rewrite fmap_app in Hnd. cbn in Hnd.
  apply NoDup_app in Hnd as (_ & Hpre & [Hk _]%NoDup_cons).
  rewrite filter_app, filter_cons_False by (cbn; by intros []). f_equal; apply filter_all;
    intros [j u] Hj; cbn; intros ->.
  - apply (list_elem_of_fmap_2 fst) in Hj. apply (Hpre k Hj). left.
  - apply Hk. by apply (list_elem_of_fmap_2 fst) in Hj.
Qed.

(** A map is determined by its lookups. *)
Lemma sm_ext m1 m2 :
  sm_wf m1 → sm_wf m2 → (∀ k, sm_find k m1 = sm_find k m2) → m1 = m2.
Proof.
  revert m2. induction m1 as [|[k1 v1] m1 IH]; intros [|[k2 v2] m2] H1 H2 Hf; [done|..].
  - specialize (Hf k2). simpl in Hf. by rewrite decide_True in Hf.
  - specialize (Hf k1). simpl in Hf. by rewrite decide_True in Hf.
  - apply sm_wf_cons in H1 as [H1 L1], H2 as [H2 L2].
    assert (k1 = k2) as ->.
    { destruct (decide (k1 = k2)) as [|Hne]; [done|]. exfalso.
      pose proof (Hf k1) as F1. pose proof (Hf k2) as F2. simpl in F1, F2.
      rewrite decide_True, decide_False in F1 by done.
      rewrite decide_False, decide_True in F2 by done.
      assert (bytes_lt k2 k1) as La by (apply L2, sm_find_keys; eauto).
      assert (bytes_lt k1 k2) as Lb by (apply L1, sm_find_keys; eauto).
      pose proof (transitivity La Lb) as Lc. unfold bytes_lt in Lc.
      by rewrite bytes_ltb_irrefl in Lc. }
    pose proof (Hf k2) as F. simpl in F. rewrite !decide_True in F by done.
    injection F as ->. f_equal. apply IH; [done..|]. intros k.
    destruct (decide (k = k2)) as [->|Hne].
    + assert (∀ m : smap V, (∀ j, j ∈ sm_keys m → bytes_lt k2 j) → sm_find k2 m = None) as Hn.
      { intros m Hlt. apply sm_find_None. intros Hk. specialize (Hlt _ Hk).
        unfold bytes_lt in Hlt. by rewrite bytes_ltb_irrefl in Hlt. }
      by rewrite !Hn.
    + specialize (Hf k). simpl in Hf. by rewrite !decide_False in Hf.
Qed.
End smap.

#[export] Hint Resolve sm_wf_nil sm_wf_set sm_wf_erase : sup.

(** [std::set<std::string>] *)
Definition sset_insert (k : bytes) (s : smap unit) : smap unit := sm_set k tt s.
Definition sset_contains (k : bytes) (s : smap unit) : bool := bool_decide (is_Some (sm_find k s)).

Lemma sset_contains_insert j k s :
  sset_contains j (sset_insert k s) = bool_decide (j = k) || sset_contains j s.
Proof.
  unfold sset_contains, sset_insert. rewrite sm_find_set.
  case_decide; subst.
  - rewrite !bool_decide_eq_true_2 by eauto. done.
  - rewrite (bool_decide_eq_false_2 (j = k)) by done. done.
Qed.

Lemma sset_contains_of_list j (l : list bytes) :
  sset_contains j (foldr sset_insert [] l) = true ↔ j ∈ l.
Proof.
  induction l as [|k l IH]; simpl.
  - split; [done|by intros ?%not_elem_of_nil].
  - rewrite sset_contains_insert, orb_true_iff, IH, bool_decide_eq_true, elem_of_cons. done.
Qed.

(** The set a loop of insertions builds. *)
Lemma sset_contains_foldl {A} (f : A → bytes) j (l : list A) acc :
  sset_contains j (foldl (λ s x, sset_insert (f x) s) acc l)
  = bool_decide (j ∈ f <$> l) || sset_contains j acc.
Proof.
  revert acc. induction l as [|x l IH]; intros acc; [done|]. cbn [foldl].
  rewrite IH, sset_contains_insert. cbn [fmap list_fmap].
  destruct (decide (j = f x)) as [->|Hne].
  - rewrite (bool_decide_eq_true_2 (f x = f x)) by done.
    rewrite (bool_decide_eq_true_2 (f x ∈ _ :: _)) by left. by destruct (bool_decide _).
  - rewrite (bool_decide_eq_false_2 (j = f x)) by done. simpl. f_equal.
    apply bool_decide_ext. rewrite elem_of_cons. tauto.
Qed.
