(* ===== verification/BoostAlgo.v ===== *)
(** * Interface of Boost.StringAlgorithm

    The functions of the library the sources call, and what its
    documentation states of them in the classic locale.  The components are
    proved against the interface; [classic_algo] shows it can be
    implemented. *)

From Stdlib Require Import ZArith Ascii String.
From stdpp Require Import base list strings.
From S2P Require Import Prelude CppString.

Class StringAlgo := {
  (** [boost::algorithm::to_lower_copy] *)
  to_lower_copy : bytes → bytes;
  (** [boost::iequals] *)
  iequals : bytes → bytes → bool;
  (** [boost::trim] *)
  trim : bytes → bytes;
  (** [boost::ifind_first]: the bounds of the first match, [None] for the
      empty range *)
  ifind_first : bytes → bytes → option (nat * nat);
}.

Definition lower (s : bytes) : bytes := tolower <$> s.

Class StringAlgoSpec `{StringAlgo} := {
  to_lower_copy_spec s : to_lower_copy s = lower s;
  iequals_spec s t : iequals s t = bool_decide (lower s = lower t);
  trim_spec s : ∃ l r, s = l ++ trim s ++ r ∧
    Forall (λ c, isspace c = true) l ∧ Forall (λ c, isspace c = true) r ∧
    (∀ c, head (trim s) = Some c ∨ last (trim s) = Some c → isspace c = false);
  ifind_first_spec hay pat :
    ifind_first hay pat
    = (λ i, (i, (i + length pat)%nat)) <$> find (lower pat) (lower hay);
}.

(** ** An implementation *)

Definition drop_spaces (s : bytes) : bytes := snd (span isspace s).

Definition classic_algo : StringAlgo := {|
  to_lower_copy := lower;
  iequals s t := bool_decide (lower s = lower t);
  trim s := reverse (drop_spaces (reverse (drop_spaces s)));
  ifind_first hay pat := (λ i, (i, (i + length pat)%nat)) <$> find (lower pat) (lower hay);
|}.

Lemma span_snd_head p s c : head (snd (span p s)) = Some c → p c = false.
Proof.
  induction s as [|d s IH]; simpl; [done|].
  destruct (p d) eqn:E; [|intros [= <-]; done].
  destruct (span p s). by apply IH.
Qed.

Lemma drop_spaces_split s : ∃ l, s = l ++ drop_spaces s ∧ Forall (λ c, isspace c = true) l.
Proof.
  exists (fst (span isspace s)). split; [by rewrite span_app|apply span_fst_Forall].
Qed.

Lemma head_reverse (s : bytes) : head (reverse s) = last s.
Proof.
  induction s as [|c s IH] using rev_ind; [done|].
  by rewrite reverse_snoc, last_snoc.
Qed.

Lemma last_reverse (s : bytes) : last (reverse s) = head s.
Proof. by rewrite <- head_reverse, reverse_involutive. Qed.

Lemma head_app_prefix (s l t : bytes) c : s = t ++ l → head t = Some c → head s = Some c.
Proof. intros ->. by destruct t. Qed.

#[global] Instance classic_algo_spec : @StringAlgoSpec classic_algo.
Proof.
  constructor; [done..| |done]. intros s.
  destruct (drop_spaces_split s) as (l & Hs & Hl).
  destruct (drop_spaces_split (reverse (drop_spaces s))) as (r & Hr & Hrs).
  apply (f_equal reverse) in Hr. rewrite reverse_involutive, reverse_app in Hr.
  exists l, (reverse r). split_and!; [|done| |].
  - simpl. by rewrite <- Hr.
  - by apply Forall_reverse.
  - intros c. simpl. rewrite last_reverse. intros [H|H].
    + apply (span_snd_head isspace s). by eapply head_app_prefix.
    + by apply (span_snd_head isspace) in H.
Qed.

(** A trimmed string is what it is when neither end is white space. *)
Lemma trim_id `{StringAlgoSpec} s :
  Forall (λ c, isspace c = false) s → trim s = s.
Proof.
  intros Hs. destruct (trim_spec s) as (l & r & Heq & Hl & Hr & _).
  rewrite Heq in Hs. apply Forall_app in Hs as [Hl' [_ Hr']%Forall_app].
  destruct l as [|c l]; [|inversion Hl; inversion Hl'; congruence].
  destruct r as [|c r]; [|inversion Hr; inversion Hr'; congruence].
  by rewrite app_nil_r in Heq.
Qed.
