(* ===== verification/PTree.v ===== *)
(** * Interface of Boost.PropertyTree

    A tree whose nodes hold a text and a list of named subtrees, with
    lookup by dotted paths and the XML and INI readers of the library.
    What the sources compute with trees is stated over this interface;
    [simple_trees] shows that it can be implemented. *)

From Stdlib Require Import ZArith NArith Ascii String.
From stdpp Require Import base list strings.
From S2P Require Import Prelude CppString.

Class PropertyTree := {
  ptree : Type;
  (** [get_value<std::string>()] *)
  data : ptree → bytes;
  (** [get_value_optional<int>()] *)
  int_value : ptree → option Z;
  (** the children, in order *)
  nodes : ptree → list (bytes * ptree);
  get_child_optional : ptree → bytes → option ptree;
  (** [ptree_bad_path(path).what()]; the exception is a [std::runtime_error] *)
  bad_path : bytes → bytes;
  read_xml : bytes → result ptree;
  (** a [file_parser_error] has a line and a message *)
  read_ini : bytes → ptree + (Z * bytes);
  (** its [what()], for a stream *)
  parser_error : Z * bytes → bytes;
}.

Section tree.
Context `{PropertyTree}.

Definition get_child (t : ptree) (path : bytes) : result ptree :=
  match get_child_optional t path with
  | Some c => Ok c
  | None => Err (mkExn RuntimeError (bad_path path))
  end.

(** [get_optional<std::string>] *)
Definition get_optional (t : ptree) (path : bytes) : option bytes :=
  data <$> get_child_optional t path.

(** [get_optional<int>] *)
Definition get_optional_int (t : ptree) (path : bytes) : option Z :=
  get_child_optional t path ≫= int_value.

(** [get<std::string>(path)] and [get<std::string>(path, default)] *)
Definition get_string (t : ptree) (path : bytes) : result bytes :=
  c ← get_child t path; mret (data c).
Definition get_string_or (t : ptree) (path default_value : bytes) : bytes :=
  default default_value (get_optional t path).
Definition get_int_or (t : ptree) (path : bytes) (default_value : Z) : Z :=
  default default_value (get_optional_int t path).
End tree.

(** ** An implementation *)

Inductive node := Node (text : bytes) (children : list (bytes * node)).

Definition node_text (t : node) : bytes := let 'Node d _ := t in d.
Definition node_children (t : node) : list (bytes * node) := let 'Node _ l := t in l.

(** The components of a dotted path. *)
Fixpoint path_parts (p : bytes) : list bytes :=
  match p with
  | [] => [[]]
  | c :: p =>
    match path_parts p with
    | [] => [[c]]
    | w :: ws => if char_eqb c "."%char then [] :: w :: ws else (c :: w) :: ws
    end
  end.

Definition child_named (name : bytes) (t : node) : option node :=
  snd <$> head (filter (λ p, p.1 = name) (node_children t)).

Definition node_at (t : node) (path : bytes) : option node :=
  foldl (λ acc name, acc ≫= child_named name) (Some t) (path_parts path).

(** A decimal [int]. *)
Definition node_int (t : node) : option Z :=
  let s := node_text t in
  let '(neg, ds) := match s with
                    | c :: r => if char_eqb c "-"%char then (true, r) else (false, s)
                    | [] => (false, s)
                    end in
  if bool_decide (ds = []) || negb (forallb isdigit ds) then None else
  let v := Z.of_N (digits_val ds) in
  let v := if neg then - v else v in
  if in_int v then Some v else None.

(** Lines of an INI file: sections in brackets, and keys and values. *)
Definition add_line (acc : node + (Z * bytes)) (line : Z * bytes) : node + (Z * bytes) :=
  match acc with
  | inr e => inr e
  | inl (Node d secs) =>
    let '(n, s) := line in
    match s with
    | [] => acc
    | c :: rest =>
      if char_eqb c "["%char then
        inl (Node d (secs ++ [(fst (span (λ c, negb (char_eqb c "]"%char)) rest), Node [] [])]))
      else
        let '(k, r) := span (λ c, negb (char_eqb c "="%char)) s in
        match r, last secs with
        | _ :: v, Some (sec, Node sd ks) =>
          inl (Node d (removelast secs ++ [(sec, Node sd (ks ++ [(k, Node v [])]))]))
        | _, _ => inr (n, #"'=' character not found in line")
        end
    end
  end.

Fixpoint split_lines (s : bytes) : list bytes :=
  match s with
  | [] => [[]]
  | c :: s =>
    match split_lines s with
    | [] => [[c]]
    | w :: ws => if char_eqb c LF then [] :: w :: ws else (c :: w) :: ws
    end
  end.

Definition simple_ini (s : bytes) : node + (Z * bytes) :=
  let ls := split_lines s in
  foldl add_line (inl (Node [] [])) (zip (map Z.of_nat (seq 1 (length ls))) ls).

(** This instance reads no XML; every text is one element. *)
Definition simple_trees : PropertyTree := {|
  ptree := node;
  data := node_text;
  int_value := node_int;
  nodes := node_children;
  get_child_optional := node_at;
  bad_path p := #"No such node (" ++ p ++ #")";
  read_xml s := Ok (Node [] [(#"methodCall", Node [] [(#"methodName", Node s [])])]);
  read_ini := simple_ini;
  parser_error e := #"<unspecified file>(" ++ to_string e.1 ++ #"): " ++ e.2;
|}.
