(* ===== verification/LogLevels.v ===== *)
(** * logger/log_levels.{h,cpp}

    The log levels, their names, and the arithmetic of the verbosity
    options. *)

From Stdlib Require Import ZArith NArith Ascii String.
From stdpp Require Import base list strings.
From S2P Require Import Prelude CppString BoostAlgo.

(** [ERROR] is [ERROR_] here. *)
Inductive LogLevel := TRACE | DEBUG | INFO | WARN | ERROR_ | IGNORE.

#[global] Instance LogLevel_eq_dec : EqDecision LogLevel.
Proof. solve_decision. Defined.

(** [static_cast<int>(level)], and back. *)
Definition level_code (l : LogLevel) : Z :=
  match l with TRACE => 0 | DEBUG => 1 | INFO => 2 | WARN => 3 | ERROR_ => 4 | IGNORE => 5 end.

(** [operator<<] *)
Definition level_name (l : LogLevel) : bytes :=
  match l with
  | TRACE => #"trace" | DEBUG => #"debug" | INFO => #"info"
  | WARN => #"warn" | ERROR_ => #"error" | IGNORE => #"ignore"
  end.

Definition parse_log_level `{StringAlgo} (level_str : bytes) : result LogLevel :=
  let level_str := to_lower_copy level_str in
  if bool_decide (level_str = #"trace") then Ok TRACE else
  if bool_decide (level_str = #"debug") then Ok DEBUG else
  if bool_decide (level_str = #"info") then Ok INFO else
  if bool_decide (level_str = #"warn") || bool_decide (level_str = #"warning") then Ok WARN else
  if bool_decide (level_str = #"error") then Ok ERROR_ else
  if bool_decide (level_str = #"ignore") then Ok IGNORE else
  Err (mkExn InvalidArgument (#"Invalid log level: " ++ level_str)).

(** [std::clamp] of the lowered level between [TRACE] and [ERROR]. *)
Definition shifted_level (level : LogLevel) (amount : Z) : LogLevel :=
  let v := level_code level - amount in
  if v <? level_code TRACE then TRACE else
  if level_code ERROR_ <? v then ERROR_ else
  match v with 0 => TRACE | 1 => DEBUG | 2 => INFO | 3 => WARN | _ => ERROR_ end.

(** The names are read back in any letter case. *)
Lemma parse_level_name `{StringAlgoSpec} l s :
  lower s = level_name l → parse_log_level s = Ok l.
Proof. intros Hs. unfold parse_log_level. rewrite to_lower_copy_spec, Hs. by destruct l. Qed.

(** Only names of levels are accepted; anything else is
    [std::invalid_argument]. *)
Lemma parse_level_accepts `{StringAlgoSpec} s :
  match parse_log_level s with
  | Ok l => lower s = level_name l ∨ lower s = #"warning"
  | Err e => exn_of e = InvalidArgument
  end.
Proof.
  unfold parse_log_level. rewrite to_lower_copy_spec.
  repeat (case_bool_decide as Hb; [first [by left|by right]|clear Hb]). done.
Qed.
