(* ===== verification/IniReader.v ===== *)
(** * config/ini_reader.h

    [CommentStrippingBuf]: the lines of a stream without their inline
    comments. *)

From Stdlib Require Import ZArith NArith Ascii String.
From stdpp Require Import base list strings.
From S2P Require Import Prelude CppString.

Definition blank (c : ascii) : bool := char_eqb c SPACE || char_eqb c TAB.

(** The loop over [i], with [n] iterations left. *)
Fixpoint strip_loop (line : bytes) (n i : nat) : bytes :=
  match n with
  | O => line
  | S n =>
    if char_eqb (nth i line NUL) ";"%char && blank (nth (i - 1) line NUL) then
      match find_last (λ c, negb (blank c)) (take i line) with
      | Some e => take (S e) line
      | None => []
      end
    else strip_loop line n (S i)
  end.

Definition strip_inline_comment_ (line : bytes) : bytes := strip_loop line (length line - 1) 1.

(** The lines [std::getline] reads: the text after the last line feed is a
    line if it is not empty. *)
Fixpoint getlines (s : bytes) : list bytes :=
  match s with
  | [] => []
  | c :: t =>
    if char_eqb c LF then [] :: getlines t
    else match getlines t with
         | [] => [[c]]
         | l :: ls =>
           (* [t] starts with the rest of this line *)
           (c :: l) :: ls
         end
  end.

(** What a reader of the buffer gets. *)
Definition filtered (s : bytes) : bytes :=
  concat (map (λ line, strip_inline_comment_ line ++ [LF]) (getlines s)).

(** ** What is stripped *)

(** The text without the blanks at its end. *)
Definition rtrim (s : bytes) : bytes :=
  match find_last (λ c, negb (blank c)) s with Some e => take (S e) s | None => [] end.

(** No semicolon of the text follows a blank. *)
Definition no_comment (s : bytes) : Prop := ∀ u b w, blank b = true → s ≠ u ++ b :: ";"%char :: w.

Lemma no_comment_short s : (length s ≤ 1)%nat → no_comment s.
Proof. intros Hs u b w _ ->. rewrite length_app in Hs. cbn in Hs. lia. Qed.

Lemma no_comment_snoc s x :
  no_comment s → (∀ b, last s = Some b → blank b = true → x ≠ ";"%char) → no_comment (s ++ [x]).
Proof.
  intros Hs Hx u b w Hb Heq. destruct w as [|c w _] using rev_ind.
  - change (u ++ [b; ";"%char]) with (u ++ [b] ++ [";"%char]) in Heq.
    rewrite app_assoc in Heq. apply app_inj_tail in Heq as [-> ->].
    by apply (Hx b); [apply last_snoc|..].
  - change (u ++ b :: ";"%char :: w ++ [c]) with (u ++ (b :: ";"%char :: w) ++ [c]) in Heq.
    rewrite app_assoc in Heq. apply app_inj_tail in Heq as [-> _]. by eapply Hs.
Qed.

Lemma rtrim_blank u b : blank b = true → find_last (λ c, negb (blank c)) (u ++ [b]) = find_last (λ c, negb (blank c)) u.
Proof.
  intros Hb. induction u as [|c u IH]; cbn; [by rewrite Hb|]. by rewrite IH.
Qed.

Lemma strip_loop_ok line n i :
  (1 ≤ i)%nat → (i + n = length line)%nat → no_comment (take i line) →
  (no_comment line ∧ strip_loop line n i = line)
  ∨ ∃ u b w, blank b = true ∧ line = u ++ b :: ";"%char :: w ∧ no_comment (u ++ [b])
      ∧ strip_loop line n i = rtrim u.
Proof.
  revert i. induction n as [|n IH]; intros i Hi Hl Hn.
  { left. by rewrite take_ge in Hn by lia. }
  cbn [strip_loop]. destruct (lookup_lt_is_Some_2 line i) as [x Hx]; [lia|].
  destruct (lookup_lt_is_Some_2 line (i - 1)) as [y Hy]; [lia|].
  rewrite (nth_lookup_Some line i NUL x Hx), (nth_lookup_Some line (i - 1) NUL y Hy).
  assert (Ht : take i line = take (i - 1) line ++ [y]).
  { rewrite <- (take_S_r _ _ _ Hy). f_equal. lia. }
  destruct (char_eqb x ";"%char && blank y) eqn:E.
  - apply andb_true_iff in E as [Ex Ey]. unfold char_eqb in Ex. apply bool_decide_eq_true in Ex as ->.
    right. exists (take (i - 1) line), y, (drop (S i) line). split_and!; [done| |by rewrite <- Ht|].
    + rewrite <- (take_drop (i - 1) line) at 1. f_equal. rewrite (drop_S line y (i - 1) Hy). f_equal.
      replace (S (i - 1)) with i by lia. by apply drop_S.
    + rewrite Ht, rtrim_blank by done. unfold rtrim.
      destruct (find_last _ _) as [e|] eqn:Ef; [|done].
      apply find_last_Some in Ef as (l & c & r & Hu & <- & _).
      rewrite take_take, Nat.min_l; [done|]. apply (f_equal length) in Hu.
      rewrite length_app, length_take in Hu. cbn in Hu. lia.
  - apply IH; [lia|lia|]. rewrite (take_S_r _ _ _ Hx). apply no_comment_snoc; [done|].
    intros b Hb Hbl ->. rewrite Ht, last_snoc in Hb. injection Hb as ->.
    unfold char_eqb in E. by rewrite bool_decide_eq_true_2, Hbl in E.
Qed.

(** ** Properties *)

(** An inline comment starts at the first semicolon that follows a
    blank; it is removed with the blanks before it, and a line without one
    is left as it is, so values may contain semicolons. *)
Lemma strip_inline_comment_spec line :
  (no_comment line ∧ strip_inline_comment_ line = line)
  ∨ ∃ u b w, blank b = true ∧ line = u ++ b :: ";"%char :: w ∧ no_comment (u ++ [b])
      ∧ strip_inline_comment_ line = rtrim u.
Proof.
  unfold strip_inline_comment_. destruct line as [|c line]; [by left; split; [apply no_comment_short; cbn; lia|]|].
  apply strip_loop_ok; [lia|cbn; lia|]. apply no_comment_short. rewrite length_take. lia.
Qed.
