(* ===== verification/ConfigTypes.v ===== *)
(** * config/config_types.h

    The configuration structures with their defaults, [parse_size] and
    [ProgramConfig::substitute_variables]. *)

From Stdlib Require Import ZArith NArith Ascii String.
From stdpp Require Import base gmap sets list strings.
From S2P Require Import Prelude CppString StdMap BoostAlgo LogLevels.

(** ** Structures *)

(** [ProgramConfig::Log]; a path is its string. *)
Record Log := mkLog {
  file : option bytes;
  file_maxbytes : Z;
  file_backups : Z;
}.

Record ProgramConfig := mkProgram {
  name : bytes;
  command : bytes;
  environment : smap bytes;
  directory : option bytes;
  autorestart : bool;
  user : bytes;
  stdout_log : Log;
  stderr_log : Log;
  redirect_stderr : bool;
  startsecs : Z;
  startretries : Z;
  stopwaitsecs : Z;
  stopsignal : bytes;
  umask : option Z;
}.

(** [operator==] of both is defaulted: memberwise equality. *)
#[global] Instance Log_eq_dec : EqDecision Log.
Proof. solve_decision. Defined.
#[global] Instance ProgramConfig_eq_dec : EqDecision ProgramConfig.
Proof. solve_decision. Defined.

Definition default_log : Log := mkLog None (50 * 1024 * 1024) 10.

(** A default-constructed [ProgramConfig]. *)
Definition default_program : ProgramConfig := {|
  name := []; command := []; environment := []; directory := None;
  autorestart := true; user := #"root";
  stdout_log := default_log; stderr_log := default_log; redirect_stderr := false;
  startsecs := 1; startretries := 3; stopwaitsecs := 10; stopsignal := #"TERM";
  umask := None;
|}.

Record UnixHttpServerConfig := mkHttp { socket_file : bytes }.

Record SupervisordConfig := mkSupervisord {
  logfile : bytes;
  logfile_maxbytes : Z;
  logfile_backups : Z;
  loglevel : LogLevel;
  daemon_user : bytes;
  childlogdir : bytes;
  pidfile : bytes;
  daemon_umask : Z;
}.

(** [included] is a [std::set]. *)
Record Configuration := mkConfiguration {
  config_file : bytes;
  unix_http_server : UnixHttpServerConfig;
  supervisord : SupervisordConfig;
  programs : list ProgramConfig;
  included : gset bytes;
}.

Definition default_supervisord : SupervisordConfig := {|
  logfile := #"/var/log/supervisord.log"; logfile_maxbytes := 50 * 1024 * 1024; logfile_backups := 10;
  loglevel := INFO; daemon_user := #"root"; childlogdir := #"/var/log/supervisor"; pidfile := [];
  daemon_umask := 18;  (* octal 22 *)
|}.

(** A default-constructed [Configuration]. *)
Definition default_configuration : Configuration :=
  mkConfiguration [] (mkHttp #"/run/supervisord.sock") default_supervisord [] ∅.

(** ** [parse_size] *)

Section parse_size.
Context `{StringAlgo}.

Definition size_suffix (s : bytes) : bytes * Z :=
  if (2 <=? length s)%nat then
    let cut := (length s - 2)%nat in
    let suffix := drop cut s in
    if iequals suffix #"kB" then (take cut s, 1024)
    else if iequals suffix #"MB" then (take cut s, 1024 * 1024)
    else if iequals suffix #"gB" then (take cut s, 1024 * 1024 * 1024)
    else (s, 1)
  else (s, 1).

Definition parse_size (size_str : bytes) : result Z :=
  match size_str with
  | [] => Ok 0
  | _ =>
    let '(num_str, multiplier) := size_suffix size_str in
    let num_str := trim num_str in
    let invalid := mkExn InvalidArgument (#"Invalid size format: " ++ size_str) in
    if bool_decide (num_str = []) || negb (forallb isdigit num_str) then Err invalid
    else match stoull num_str with
         | Ok v => Ok (to_u64 (v * multiplier))
         | Err e =>
           match exn_of e with
           | InvalidArgument => Err invalid
           | OutOfRange => Err (mkExn InvalidArgument (#"Size value out of range: " ++ size_str))
           | _ => Err e
           end
         end
  end.
End parse_size.

(** ** [substitute_variables] *)

Definition PROGRAM_NAME : bytes := #"%(program_name)s".

(** The [while] loop: [result], [pos] are the local variables. *)
Fixpoint substitute_loop (fuel : nat) (name result : bytes) (pos : nat) : option bytes :=
  match fuel with
  | O => None
  | S fuel =>
    match find_from PROGRAM_NAME result pos with
    | None => Some result
    | Some p =>
      substitute_loop fuel name (take p result ++ name ++ drop (p + 16) result)
        (p + length name)
    end
  end.

(** Every iteration but the last consumes 16 bytes of the input, so the
    length of the input bounds their number. *)
Definition substitute_variables (prog : ProgramConfig) (input : bytes) : option bytes :=
  substitute_loop (S (length input)) (name prog) input 0.

(** Reference: the occurrences are replaced from left to right, and the
    inserted text is not looked at again. *)
Fixpoint replace_all (name : bytes) (skip : nat) (s : bytes) : bytes :=
  match s with
  | [] => []
  | c :: t =>
    match skip with
    | S skip => replace_all name skip t
    | O => if starts_with PROGRAM_NAME s then name ++ replace_all name 15 t
           else c :: replace_all name O t
    end
  end.

(** ** Lemmas on the substitution *)

Lemma replace_all_skip name k s : replace_all name k s = replace_all name 0 (drop k s).
Proof.
  revert s. induction k as [|k IH]; intros [|c s]; [done..|]. apply IH.
Qed.

Lemma replace_all_needle name s :
  replace_all name 0 (PROGRAM_NAME ++ s) = name ++ replace_all name 0 s.
Proof.
  pose proof (starts_with_app PROGRAM_NAME s) as Hs.
  change PROGRAM_NAME with ("%"%char :: tail PROGRAM_NAME) in Hs at 2 |- *.
  cbn [app replace_all] in *. rewrite Hs, replace_all_skip. done.
Qed.

(** Text before the first occurrence is copied. *)
Lemma replace_all_copy name l s :
  (∀ j, (j < length l)%nat → starts_with PROGRAM_NAME (drop j (l ++ s)) = false) →
  replace_all name 0 (l ++ s) = l ++ replace_all name 0 s.
Proof.
  induction l as [|c l IH]; intros H; [done|].
  pose proof (H O ltac:(simpl; lia)) as H0. rewrite drop_0 in H0.
  cbn [app replace_all]. cbn [app] in H0. rewrite H0. f_equal. apply IH.
  intros j Hj. apply (H (S j)). simpl. lia.
Qed.

Lemma substitute_loop_spec fuel name acc s :
  (length s < fuel)%nat →
  substitute_loop fuel name (acc ++ s) (length acc) = Some (acc ++ replace_all name 0 s).
Proof.
  revert acc s. induction fuel as [|fuel IH]; intros acc s Hf; [lia|].
  cbn [substitute_loop]. unfold find_from.
  rewrite decide_True by (rewrite length_app; lia). rewrite drop_app_length.
  destruct (find PROGRAM_NAME s) as [i|] eqn:E; simpl.
  - apply find_Some in E as (l & r & -> & <- & Hj).
    rewrite replace_all_copy, replace_all_needle by done.
    assert (Hn : length PROGRAM_NAME = 16%nat) by done.
    replace (take (length acc + length l) (acc ++ l ++ PROGRAM_NAME ++ r)) with (acc ++ l).
    2:{ rewrite app_assoc, <- length_app, take_app_length. done. }
    replace (drop (length acc + length l + 16) (acc ++ l ++ PROGRAM_NAME ++ r)) with r.
    2:{ rewrite !app_assoc, <- Hn, <- !length_app, drop_app_length. done. }
    rewrite <- !app_assoc, (app_assoc acc l), (app_assoc (acc ++ l)).
    replace (length acc + length l + length name)%nat with (length ((acc ++ l) ++ name))
      by (rewrite !length_app; lia).
    rewrite IH by (rewrite !length_app in Hf; lia).
    by rewrite <- !app_assoc.
  - pose proof (replace_all_copy name s []) as Hc. rewrite !app_nil_r in Hc.
    rewrite Hc; [done|]. intros j Hj. apply find_None; [done|lia].
Qed.
