(* ===== verification/ConfigTypesSpec.v ===== *)
(** * What the configuration helpers promise

    The properties of [parse_size] and [substitute_variables]. *)

From Stdlib Require Import ZArith NArith Ascii String.
From stdpp Require Import base gmap sets list strings.
From S2P Require Import Prelude CppString StdMap BoostAlgo ConfigTypes.

(** C37: Variable substitution terminates, and replaces exactly the
    occurrences of [%(program_name)s] in the input, from left to right;
    what it inserts is not expanded again, so a program cannot make it run
    forever with a name that contains the variable. *)
Theorem substitute_variables_spec prog input :
  substitute_variables prog input = Some (replace_all (name prog) 0 input).
Proof. apply (substitute_loop_spec (S (length input)) (name prog) []). lia. Qed.

(** ** [parse_size] *)

Lemma to_string_digits n : 0 ≤ n → Forall (λ c, isdigit c = true) (to_string n).
Proof. intros Hn. unfold to_string. destruct (Z.ltb_spec n 0); [lia|]. apply dec_N_Forall. Qed.

Lemma to_string_nonnil n : to_string n ≠ [].
Proof.
  unfold to_string. destruct (n <? 0); [done|]. unfold dec_N. apply dec_digits_nonnil.
Qed.

Lemma isdigit_cases c :
  isdigit c = true → isspace c = false ∧ tolower c = c ∧ c ≠ "k"%char ∧ c ≠ "m"%char ∧ c ≠ "g"%char.
Proof. destruct c as [[] [] [] [] [] [] [] []]; vm_compute; intuition congruence. Qed.

Definition units : list (bytes * Z) :=
  [([], 1); (#"kB", 1024); (#"MB", 1024 * 1024); (#"GB", 1024 * 1024 * 1024)].

Section parse_size.
Context `{StringAlgoSpec}.

Lemma not_unit s c u : Forall (λ c, isdigit c = true) s →
  (c = "k"%char ∨ c = "m"%char ∨ c = "g"%char) → lower u = c :: tail (lower u) →
  iequals s u = false.
Proof.
  intros Hs Hc Hu. rewrite iequals_spec. apply bool_decide_eq_false. rewrite Hu.
  destruct s as [|d s]; [done|]. inversion Hs as [|?? Hd _]; subst.
  apply isdigit_cases in Hd as (_ & Hl & ? & ? & ?). unfold lower. cbn [fmap list_fmap].
  rewrite Hl. intros [= ->]. naive_solver.
Qed.

Lemma size_suffix_plain s : Forall (λ c, isdigit c = true) s → size_suffix s = (s, 1).
Proof.
  intros Hs. unfold size_suffix. destruct (_ <=? _)%nat; [|done].
  assert (Hd : Forall (λ c, isdigit c = true) (drop (length s - 2) s)) by by apply Forall_drop.
  rewrite (not_unit _ "k"%char), (not_unit _ "m"%char), (not_unit _ "g"%char); auto.
Qed.

Lemma size_suffix_unit s u unit mult :
  (unit, mult) ∈ tail units → lower u = lower unit → size_suffix (s ++ u) = (s, mult).
Proof.
  intros Hin Hu. assert (Hlen : length u = 2%nat).
  { apply (f_equal length) in Hu. unfold lower in Hu. rewrite !length_fmap in Hu. rewrite Hu.
    unfold units in Hin. cbn [tail] in Hin.
    repeat (apply elem_of_cons in Hin as [[= -> _]|Hin]; [done|]). by apply not_elem_of_nil in Hin. }
  unfold size_suffix. rewrite length_app, Hlen.
  destruct (Nat.leb_spec 2 (length s + 2)); [|lia].
  replace (length s + 2 - 2)%nat with (length s) by lia.
  rewrite drop_app_length, take_app_length, !iequals_spec, Hu.
  unfold units in Hin. cbn [tail] in Hin.
  repeat (apply elem_of_cons in Hin as [[= -> ->]|Hin]; [done|]). by apply not_elem_of_nil in Hin.
Qed.

Lemma parse_size_number s u mult n :
  size_suffix (s ++ u) = (s, mult) → 0 ≤ n < UINT64 → s = to_string n →
  parse_size (s ++ u) = Ok (to_u64 (n * mult)).
Proof.
  intros Hsuf Hn ->. pose proof (to_string_digits n ltac:(lia)) as Hd.
  pose proof (to_string_nonnil n) as Hne. unfold parse_size.
  destruct (to_string n ++ u) as [|c t] eqn:E.
  { apply app_eq_nil in E as [E _]. done. }
  rewrite Hsuf, trim_id.
  2:{ eapply Forall_impl; [exact Hd|]. intros d Hdig. by apply isdigit_cases in Hdig as [? _]. }
  rewrite bool_decide_eq_false_2 by done. simpl.
  assert (forallb isdigit (to_string n) = true) as ->.
  { apply forallb_forall. intros d Hin. rewrite Forall_forall in Hd.
    apply Hd. by apply list_elem_of_In. }
  simpl. rewrite <- (app_nil_r (to_string n)), stoull_to_string; [done|done|]. by intros ? [=].
Qed.

(** A size is the number before its unit times the unit: a decimal
    number below 2^64 followed by nothing, [kB], [MB] or [GB] in any
    letter case gives the number times 1, 2^10, 2^20 or 2^30, modulo
    2^64. *)
Lemma parse_size_value n u unit mult :
  (unit, mult) ∈ units → lower u = lower unit → 0 ≤ n < UINT64 →
  parse_size (to_string n ++ u) = Ok (to_u64 (n * mult)).
Proof.
  intros Hin Hu Hn. apply parse_size_number; [|done|done].
  apply elem_of_cons in Hin as [[= -> ->]|Hin].
  - destruct u; [|done]. rewrite app_nil_r. apply size_suffix_plain, to_string_digits. lia.
  - by apply (size_suffix_unit _ _ unit).
Qed.

(** [parse_size] always ends with a [size_t] or with
    [std::invalid_argument], the only exception its callers turn into a
    configuration error; a minus sign, a fraction or an unknown unit is
    such an error. *)
Lemma parse_size_total s :
  match parse_size s with
  | Ok v => 0 ≤ v < UINT64
  | Err e => exn_of e = InvalidArgument
  end
  ∧ ∀ v, parse_size s = Ok v → s = [] ∨ Forall (λ c, isdigit c = true) (trim (size_suffix s).1).
Proof.
  unfold parse_size. destruct s as [|c t]; [split; [done|by left]|].
  destruct (size_suffix (c :: t)) as [num mult] eqn:Es. cbn [fst].
  destruct (bool_decide (trim num = []) || negb (forallb isdigit (trim num))) eqn:E; [by split|].
  apply orb_false_iff in E as [_ E]. apply negb_false_iff in E.
  assert (Hd : Forall (λ c, isdigit c = true) (trim num)).
  { apply List.Forall_forall. by apply forallb_forall. }
  destruct (stoull (trim num)) as [v|[k w]] eqn:Ev.
  - split; [apply Z.mod_pos_bound; unfold UINT64; lia|by right].
  - split; [|by destruct k]. unfold stoull in Ev.
    repeat match type of Ev with
           | (let '(_, _) := ?x in _) = _ => destruct x
           | match ?x with _ => _ end = _ => destruct x
           | (if ?x then _ else _) = _ => destruct x
           end; by simplify_eq.
Qed.
End parse_size.

(** The product of number and unit is not checked: a size of 2^34 GB,
    far above what was meant to be a bound, is read as 0, which turns
    rotation off. *)
Lemma parse_size_wraps `{StringAlgoSpec} : parse_size #"17179869184GB" = Ok 0.
Proof.
  change #"17179869184GB" with (to_string 17179869184 ++ #"GB").
  by rewrite (parse_size_number _ _ (1024 * 1024 * 1024) 17179869184)
    by (try apply (size_suffix_unit _ _ #"GB"); try done; unfold units; simpl; set_solver).
Qed.

(** ** The properties at concrete inputs *)

