(* ===== verification/Files.v ===== *)
(** * The file system and [std::ofstream]

    The operations of [std::filesystem] and of output streams the sources
    use, on a state that maps the paths of the regular files to their
    content.  Any operation may fail: [faults] says, operation by operation,
    which ones do ([true]), and an exhausted list means no further failure. *)

From Stdlib Require Import ZArith NArith Ascii String.
From stdpp Require Import base gmap sets list strings.
From S2P Require Import Prelude CppString.

Record FS := mkFS {
  files : gmap bytes bytes;
  dirs : gset bytes;
  faults : list bool;
}.

Definition with_files (f : gmap bytes bytes → gmap bytes bytes) (s : FS) : FS :=
  mkFS (f (files s)) (dirs s) (faults s).
Definition with_dirs (f : gset bytes → gset bytes) (s : FS) : FS :=
  mkFS (files s) (f (dirs s)) (faults s).

Definition pop_fault : M FS bool := λ s,
  Ret (hd false (faults s)) (mkFS (files s) (dirs s) (tail (faults s))).

Definition fs_error {A} (op : bytes) : M FS A := throw (mkExn FilesystemError op).

(** ** Paths *)

Definition SLASH : ascii := "/"%char.

Fixpoint strip_slashes (rev_path : bytes) : bytes :=
  match rev_path with
  | c :: t => if char_eqb c SLASH then strip_slashes t else rev_path
  | [] => []
  end.

(** [path::parent_path()] *)
Definition parent_path (p : bytes) : bytes :=
  match find_last (λ c, char_eqb c SLASH) p with
  | None => []
  | Some i =>
    match reverse (strip_slashes (reverse (take i p))) with
    | [] => [SLASH]
    | d => d
    end
  end.

(** [path::filename()] *)
Definition filename (p : bytes) : bytes :=
  match find_last (λ c, char_eqb c SLASH) p with
  | None => p
  | Some i => drop (S i) p
  end.

(** The directories [create_directories] makes sure of: the path and its
    ancestors. *)
Fixpoint ancestors (fuel : nat) (p : bytes) : list bytes :=
  match fuel with
  | O => []
  | S fuel => match p with [] => [] | _ => p :: ancestors fuel (parent_path p) end
  end.

(** ** [std::filesystem] *)

Definition in_fs (p : bytes) (s : FS) : bool :=
  bool_decide (is_Some (files s !! p)) || bool_decide (p ∈ dirs s).

Definition fs_exists (p : bytes) : M FS bool :=
  f ← pop_fault;
  if (f : bool) then fs_error #"exists" else gets (in_fs p).

Definition fs_remove (p : bytes) : M FS unit :=
  f ← pop_fault;
  if (f : bool) then fs_error #"remove" else modify (with_files (delete p)).

(** [rename] replaces an existing file of the new name. *)
Definition fs_rename (src dst : bytes) : M FS unit :=
  f ← pop_fault;
  if (f : bool) then fs_error #"rename" else
  c ← gets (λ s, files s !! src);
  match c with
  | None => fs_error #"rename"
  | Some content => modify (with_files (λ m, <[dst := content]> (delete src m)))
  end.

Definition fs_file_size (p : bytes) : M FS Z :=
  f ← pop_fault;
  if (f : bool) then fs_error #"file_size" else
  c ← gets (λ s, files s !! p);
  match c with
  | None => fs_error #"file_size"
  | Some content => mret (Z.of_nat (length content))
  end.

Definition fs_create_directories (p : bytes) : M FS unit :=
  f ← pop_fault;
  if (f : bool) then fs_error #"create_directories" else
  modify (with_dirs (λ d, list_to_set (ancestors (S (length p)) p) ∪ d)).

(** ** [std::ofstream] in append mode *)

Record ofstream := mkOfs {
  is_open : bool;
  bad : bool;     (* badbit or failbit *)
  obuf : bytes;   (* what [write] left in the stream buffer *)
}.

Definition closed_stream : ofstream := mkOfs false false [].

(** [file.open(path, app | binary)]: creates the file if need be; a stream
    that opens has a clear state. *)
Definition ofs_open (path : bytes) (s : FS) : ofstream * FS :=
  let failed := hd false (faults s) in
  let s := mkFS (files s) (dirs s) (tail (faults s)) in
  let parent := parent_path path in
  if failed || negb (bool_decide (parent = []) || bool_decide (parent ∈ dirs s))
     || bool_decide (path ∈ dirs s)
  then (mkOfs false true [], s)
  else (mkOfs true false [],
        with_files (λ m, <[path := default [] (m !! path)]> m) s).

(** [file.write(data)] *)
Definition ofs_write (data : bytes) (o : ofstream) (s : FS) : ofstream * FS :=
  if is_open o && negb (bad o) then
    let failed := hd false (faults s) in
    let s := mkFS (files s) (dirs s) (tail (faults s)) in
    if failed then (mkOfs true true [], s)
    else (mkOfs true false (obuf o ++ data), s)
  else (mkOfs (is_open o) true (obuf o), s).

(** [file.flush()] *)
Definition ofs_flush (path : bytes) (o : ofstream) (s : FS) : ofstream * FS :=
  if is_open o && negb (bad o) then
    let failed := hd false (faults s) in
    let s := mkFS (files s) (dirs s) (tail (faults s)) in
    if failed then (mkOfs true true [], s)
    else (mkOfs true false [],
          with_files (λ m, <[path := default [] (m !! path) ++ obuf o]> m) s)
  else (o, s).

(** [file.close()] *)
Definition ofs_close (path : bytes) (o : ofstream) (s : FS) : ofstream * FS :=
  let '(o, s) := ofs_flush path o s in (mkOfs false (bad o) [], s).
