(* ===== verification/LogWriter.v ===== *)
(** * logger/log_writer.{h,cpp}

    [LogWriter]: line-buffered writing of a log file with size-based
    rotation.  The mutex of the class is not modelled: the daemon runs one
    thread. *)

From Stdlib Require Import ZArith NArith Ascii String.
From stdpp Require Import base gmap sets list strings.
From S2P Require Import Prelude CppString Files.

Record LogWriter := mkLogWriter {
  logfile_ : bytes;
  max_bytes_ : Z;
  backups_ : Z;
  file_ : ofstream;
  current_size_ : Z;
  pending_buffer_ : bytes;
}.

(** A writer and the file system it acts on. *)
Abbreviation lw_state := (LogWriter * FS)%type.

Definition set_file (o : ofstream) (w : LogWriter) : LogWriter :=
  mkLogWriter (logfile_ w) (max_bytes_ w) (backups_ w) o (current_size_ w) (pending_buffer_ w).
Definition set_size (z : Z) (w : LogWriter) : LogWriter :=
  mkLogWriter (logfile_ w) (max_bytes_ w) (backups_ w) (file_ w) z (pending_buffer_ w).
Definition set_pending (b : bytes) (w : LogWriter) : LogWriter :=
  mkLogWriter (logfile_ w) (max_bytes_ w) (backups_ w) (file_ w) (current_size_ w) b.

(** Statements on the file system, and on the stream [file_]. *)
Definition on_fs {A} (m : M FS A) : M lw_state A :=
  zoom snd (λ t s, (fst s, t)) m.
Definition on_file (f : bytes → ofstream → FS → ofstream * FS) : M lw_state unit :=
  modify (λ s, let '(o, fs) := f (logfile_ (fst s)) (file_ (fst s)) (snd s) in
               (set_file o (fst s), fs)).
Definition on_writer (f : LogWriter → LogWriter) : M lw_state unit :=
  modify (λ s, (f (fst s), snd s)).
Definition this {A} (f : LogWriter → A) : M lw_state A := gets (λ s, f (fst s)).

Definition size (s : bytes) : Z := Z.of_nat (length s).

(** [logfile_.string() + "." + std::to_string(i)] *)
Definition backup_path (logfile : bytes) (i : Z) : bytes := logfile ++ #"." ++ to_string i.

(** ** Operations *)

Definition openNL_ : M lw_state bool :=
  opened ← this (λ w, is_open (file_ w));
  (if (opened : bool) then on_file ofs_close else mret tt) ;;
  on_file (λ path _ fs, ofs_open path fs) ;;
  opened ← this (λ w, is_open (file_ w));
  if negb opened then mret false else
  try_catch
    (path ← this logfile_;
     there ← on_fs (fs_exists path);
     if (there : bool) then
       n ← on_fs (fs_file_size path);
       on_writer (set_size n)
     else on_writer (set_size 0))
    (λ _, on_writer (set_size 0)) ;;
  mret true.

(** The loop [for (int i = backups_ - 1; i >= 1; --i)]. *)
Fixpoint rotate_backups (path : bytes) (i : nat) : M lw_state unit :=
  match i with
  | O => mret tt
  | S i' =>
    let src := backup_path path (Z.of_nat i) in
    let dst := backup_path path (Z.of_nat i + 1) in
    there ← on_fs (fs_exists src);
    (if (there : bool) then on_fs (fs_rename src dst) else mret tt) ;;
    rotate_backups path i'
  end.

(** The body of the [try] block of [rotateNL_]. *)
Definition rotate_files : M lw_state unit :=
  path ← this logfile_;
  backups ← this backups_;
  (if 0 <? backups then
     there ← on_fs (fs_exists (backup_path path backups));
     if (there : bool) then on_fs (fs_remove (backup_path path backups)) else mret tt
   else mret tt) ;;
  i ← int_result (backups - 1);
  rotate_backups path (Z.to_nat i) ;;
  there ← on_fs (fs_exists path);
  if (there : bool) then on_fs (fs_rename path (backup_path path 1)) else mret tt.

Definition rotateNL_ : M lw_state unit :=
  opened ← this (λ w, is_open (file_ w));
  (if (opened : bool) then on_file ofs_close else mret tt) ;;
  try_catch rotate_files (λ _, mret tt) ;;
  on_writer (set_size 0) ;;
  openNL_ ;;
  mret tt.

Definition writeNL_ (str : bytes) : M lw_state Z :=
  w ← this (λ w, w);
  (if (0 <? max_bytes_ w) && (max_bytes_ w <? to_u64 (current_size_ w + size str))
   then rotateNL_ else mret tt) ;;
  on_file (λ _, ofs_write str) ;;
  w ← this (λ w, w);
  if bad (file_ w) then mret (-1) else
  on_writer (set_size (to_u64 (current_size_ w + size str))) ;;
  on_file ofs_flush ;;
  mret (size str).

Definition MAX_PENDING_BUFFER : Z := 64 * 1024.

(** How much of the pending buffer, [data] appended, is to be written:
    [pending] is the buffer before. *)
Definition flush_end (pending data : bytes) : nat :=
  match find_last (λ c, char_eqb c LF) data with
  | Some i => S (length pending + i)
  | None => if MAX_PENDING_BUFFER <=? size (pending ++ data)
            then length (pending ++ data) else O
  end.

Definition write (data : bytes) : M lw_state Z :=
  if bool_decide (data = []) then mret 0 else
  opened ← this (λ w, is_open (file_ w));
  ready ← (if (opened : bool) then mret true else openNL_);
  if negb ready then mret (-1) else
  pending ← this pending_buffer_;
  let buffer := pending ++ data in
  let last := flush_end pending data in
  on_writer (set_pending buffer) ;;
  if (last =? 0)%nat then mret 0 else
  res ← writeNL_ (take last buffer);
  on_writer (λ w, set_pending (drop last (pending_buffer_ w)) w) ;;
  mret res.

Definition write_line (line : bytes) : M lw_state Z :=
  write (if bool_decide (last line = Some LF) then line else line ++ [LF]).

(** Writing out what is pending, in [flush] and [closeNL_]. *)
Definition write_pending : M lw_state unit :=
  w ← this (λ w, w);
  if bool_decide (pending_buffer_ w = []) then mret tt else
  on_file (λ _, ofs_write (pending_buffer_ w)) ;;
  on_writer (λ w, set_pending [] (set_size (to_u64 (current_size_ w + size (pending_buffer_ w))) w)).

Definition flush : M lw_state unit :=
  opened ← this (λ w, is_open (file_ w));
  (if (opened : bool) then write_pending else mret tt) ;;
  opened ← this (λ w, is_open (file_ w));
  if (opened : bool) then on_file ofs_flush else mret tt.

Definition closeNL_ : M lw_state unit :=
  opened ← this (λ w, is_open (file_ w));
  if negb opened then mret tt else
  write_pending ;;
  on_file ofs_close.

Definition ensure_directory_ : M lw_state bool :=
  try_catch
    (path ← this logfile_;
     let dir := parent_path path in
     if bool_decide (dir = []) then mret true else
     there ← on_fs (fs_exists dir);
     if (there : bool) then mret true else
     on_fs (fs_create_directories dir) ;;
     mret true)
    (λ _, mret false).

(** The constructor. *)
Definition new_log_writer (logfile : bytes) (max_bytes backups : Z) : M FS LogWriter := λ fs,
  match (ensure_directory_ ;; openNL_) 
          (mkLogWriter logfile max_bytes backups closed_stream 0 [], fs) with
  | Ret _ (w, fs) => Ret w fs
  | Throw e (_, fs) => Throw e fs
  | Halt h (_, fs) => Halt h fs
  | Undef => Undef
  | NoFuel => NoFuel
  end.

(** ** What a rotation does to the files

    [shift] is the effect of the renaming loop, [rotated] that of the whole
    block when no operation of the file system fails. *)

Fixpoint shift (path : bytes) (i : nat) (m : gmap bytes bytes) : gmap bytes bytes :=
  match i with
  | O => m
  | S i' =>
    let src := backup_path path (Z.of_nat i) in
    let dst := backup_path path (Z.of_nat i + 1) in
    shift path i'
      (match m !! src with Some c => <[dst := c]> (delete src m) | None => m end)
  end.

Definition rotated (path : bytes) (backups : Z) (m : gmap bytes bytes) : gmap bytes bytes :=
  let m := if 0 <? backups then delete (backup_path path backups) m else m in
  let m := shift path (Z.to_nat (backups - 1)) m in
  match m !! path with
  | Some c => <[backup_path path 1 := c]> (delete path m)
  | None => m
  end.

(** The number of backups a writer keeps: one at least. *)
Definition kept (backups : Z) : nat := Z.to_nat (Z.max 1 backups).

(** The backups from the oldest, number [i], to number 1. *)
Fixpoint older (path : bytes) (i : nat) (m : gmap bytes bytes) : bytes :=
  match i with
  | O => []
  | S i' => default [] (m !! backup_path path (Z.of_nat i)) ++ older path i' m
  end.

(** All the text the files of a log hold, oldest first. *)
Definition history (path : bytes) (backups : Z) (m : gmap bytes bytes) : bytes :=
  older path (kept backups) m ++ default [] (m !! path).

(** ** Lemmas on the paths *)

Lemma backup_path_inj path i j : backup_path path i = backup_path path j → i = j.
Proof. unfold backup_path. intros [= H]%app_inv_head. by apply to_string_inj. Qed.

Lemma backup_path_ne path i : backup_path path i ≠ path.
Proof.
  unfold backup_path. intros H%(f_equal length). rewrite !length_app in H. simpl in H. lia.
Qed.

Lemma backup_path_neq path i j : i ≠ j → backup_path path i ≠ backup_path path j.
Proof. intros H ?%backup_path_inj. done. Qed.

#[export] Hint Resolve backup_path_ne backup_path_neq : sup.

Lemma not_eq_backup path i : path ≠ backup_path path i.
Proof. intros H. by apply (backup_path_ne path i). Qed.

(** ** The renaming loop *)

Section shift.
Context (path : bytes).
Implicit Types (m : gmap bytes bytes) (i : nat).
Local Abbreviation bk i := (backup_path path i).

Lemma shift_other i m p :
  (∀ j, 1 ≤ j ≤ Z.of_nat i + 1 → p ≠ bk j) → shift path i m !! p = m !! p.
Proof.
  revert m. induction i as [|i IH]; intros m Hp; [done|]. cbn [shift].
  rewrite IH by (intros j Hj; apply Hp; lia).
  assert (bk (Z.of_nat (S i)) ≠ p ∧ bk (Z.of_nat (S i) + 1) ≠ p) as [].
  { split; intros <-; eapply Hp; try reflexivity; lia. }
  destruct (m !! _); [|done]. by rewrite lookup_insert_ne, lookup_delete_ne.
Qed.

(** After the loop, number [j+1] is what number [j] was, and number 1 is
    gone, provided the slot above the topmost one was free. *)
Lemma shift_lookup i m :
  m !! bk (Z.of_nat i + 1) = None →
  (∀ j, 1 ≤ j ≤ Z.of_nat i → shift path i m !! bk (j + 1) = m !! bk j)
  ∧ shift path i m !! bk 1 = None.
Proof.
  revert m. induction i as [|i IH]; intros m Hm.
  { split; [lia|done]. }
  cbn [shift]. set (m' := match m !! bk (Z.of_nat (S i)) with Some _ => _ | None => _ end).
  assert (Hsrc : m' !! bk (Z.of_nat i + 1) = None).
  { unfold m'. replace (Z.of_nat i + 1) with (Z.of_nat (S i)) by lia.
    destruct (m !! bk (Z.of_nat (S i))) eqn:E; [|done].
    rewrite lookup_insert_ne by (apply backup_path_neq; lia).
    apply lookup_delete_eq. }
  destruct (IH m' Hsrc) as [Hj H1]. split; [|done].
  intros j Hj'. destruct (decide (j = Z.of_nat (S i))) as [->|Hne].
  - rewrite shift_other by (intros k Hk; apply backup_path_neq; lia).
    unfold m'. destruct (m !! bk (Z.of_nat (S i))) eqn:E; [apply lookup_insert_eq|done].
  - rewrite Hj by lia. unfold m'. destruct (m !! bk (Z.of_nat (S i))) eqn:E; [|done].
    rewrite lookup_insert_ne by (apply backup_path_neq; lia).
    rewrite lookup_delete_ne by (apply backup_path_neq; lia). done.
Qed.

Lemma rotated_lookup b m c :
  m !! path = Some c →
  rotated path b m !! path = None
  ∧ rotated path b m !! bk 1 = Some c
  ∧ (∀ j, 1 ≤ j < b → rotated path b m !! bk (j + 1) = m !! bk j)
  ∧ (∀ p, p ≠ path → (∀ j, 1 ≤ j ≤ Z.max 1 b → p ≠ bk j) → rotated path b m !! p = m !! p).
Proof.
  intros Hc. unfold rotated.
  set (m1 := if 0 <? b then _ else _).
  assert (Hm1 : m1 !! path = Some c).
  { unfold m1. destruct (0 <? b); [|done].
    rewrite lookup_delete_ne by apply backup_path_ne. done. }
  rewrite shift_other by (intros; apply not_eq_backup). rewrite Hm1.
  split_and!.
  - rewrite lookup_insert_ne by apply backup_path_ne. apply lookup_delete_eq.
  - apply lookup_insert_eq.
  - intros j Hj. rewrite lookup_insert_ne by (apply backup_path_neq; lia).
    rewrite lookup_delete_ne by apply not_eq_backup.
    assert (Hb : Z.of_nat (Z.to_nat (b - 1)) + 1 = b) by lia.
    destruct (shift_lookup (Z.to_nat (b - 1)) m1) as [Hs _].
    { rewrite Hb. unfold m1. destruct (Z.ltb_spec 0 b); [|lia]. apply lookup_delete_eq. }
    rewrite Hs by lia. unfold m1. destruct (Z.ltb_spec 0 b); [|lia].
    apply lookup_delete_ne, backup_path_neq. lia.
  - intros p Hp Hj. rewrite lookup_insert_ne by (intros <-; eapply (Hj 1); [lia|done]).
    rewrite lookup_delete_ne by done.
    rewrite shift_other by (intros j Hj'; apply Hj; lia).
    unfold m1. destruct (Z.ltb_spec 0 b); [|done].
    apply lookup_delete_ne. intros <-. eapply (Hj b); [lia|done].
Qed.
End shift.

Lemma older_shifted path n m m' :
  (∀ j, 1 ≤ j < Z.of_nat n → m' !! backup_path path (j + 1) = m !! backup_path path j) →
  (0 < n)%nat →
  default [] (m !! backup_path path (Z.of_nat n)) ++ older path n m'
  = older path n m ++ default [] (m' !! backup_path path 1).
Proof.
  destruct n as [|n]; [lia|]. intros H _. cbn [older]. rewrite <- !app_assoc. f_equal.
  clear -H. induction n as [|n IH].
  { simpl. by rewrite app_nil_r. }
  cbn [older]. rewrite (IH ltac:(intros; apply H; lia)) || rewrite <- app_assoc.
  replace (Z.of_nat (S (S n))) with (Z.of_nat (S n) + 1) by lia.
  rewrite (H (Z.of_nat (S n))) by lia. by rewrite <- app_assoc, <- IH by (intros; apply H; lia).
Qed.

(** A rotation drops the oldest backup and keeps everything else. *)
Lemma history_rotated path b m c :
  m !! path = Some c →
  history path b m
  = default [] (m !! backup_path path (Z.of_nat (kept b)))
    ++ older path (kept b) (rotated path b m).
Proof.
  intros Hc. destruct (rotated_lookup path b m c Hc) as (_ & H1 & Hj & _).
  unfold history. rewrite Hc. cbn [default].
  rewrite older_shifted.
  - by rewrite H1.
  - intros j Hlt. apply Hj. unfold kept in Hlt. lia.
  - unfold kept. lia.
Qed.

(** ** Running the operations when the file system does not fail *)

(** The state of a writer whose file is open and agrees with its size. *)
Record lw_ok (s : lw_state) : Prop := mkOk {
  ok_stream : file_ s.1 = mkOfs true false [];
  ok_faults : faults s.2 = [];
  ok_size : ∃ c, files s.2 !! logfile_ s.1 = Some c ∧ current_size_ s.1 = size c;
  ok_parent : parent_path (logfile_ s.1) = [] ∨ parent_path (logfile_ s.1) ∈ dirs s.2;
  ok_nodir : (logfile_ s.1 ∉ dirs s.2) ∧ ∀ i, backup_path (logfile_ s.1) i ∉ dirs s.2;
  ok_backups : INT_MIN < backups_ s.1 ≤ INT_MAX;
}.

(** Reduce the structures and streams of a state written out. *)
Ltac lw_simpl :=
  unfold with_files, with_dirs in *;
  cbn [fst snd hd tl tail orb andb negb faults files dirs with_files with_dirs
       is_open bad obuf file_ logfile_ max_bytes_ backups_ current_size_ pending_buffer_
       set_file set_size set_pending] in *.

Lemma fs_exists_ok p m d :
  p ∉ d → fs_exists p (mkFS m d []) = Ret (bool_decide (is_Some (m !! p))) (mkFS m d []).
Proof.
  intros Hp. unfold fs_exists, gets, in_fs. run. simpl.
  by rewrite (bool_decide_eq_false_2 (p ∈ d)), orb_false_r.
Qed.

Lemma fs_rename_ok src dst m d c :
  m !! src = Some c →
  fs_rename src dst (mkFS m d []) = Ret tt (mkFS (<[dst := c]> (delete src m)) d []).
Proof. intros H. unfold fs_rename. run. simpl. by rewrite H. Qed.

Lemma rotate_backups_ok path i w m d :
  (∀ j, backup_path path j ∉ d) →
  rotate_backups path i (w, mkFS m d []) = Ret tt (w, mkFS (shift path i m) d []).
Proof.
  intros Hd. revert m. induction i as [|i IH]; intros m; [done|].
  cbn [rotate_backups shift]. unfold on_fs, zoom. run. cbn [snd fst].
  rewrite fs_exists_ok by done.
  destruct (m !! backup_path path (Z.of_nat (S i))) as [c|] eqn:E.
  - rewrite bool_decide_eq_true_2 by eauto. cbn [snd fst].
    rewrite (fs_rename_ok _ _ _ _ _ E). apply IH.
  - rewrite bool_decide_eq_false_2 by (by intros []). apply IH.
Qed.

Lemma rotate_files_ok w m d c :
  m !! logfile_ w = Some c →
  logfile_ w ∉ d → (∀ j, backup_path (logfile_ w) j ∉ d) →
  INT_MIN < backups_ w ≤ INT_MAX →
  rotate_files (w, mkFS m d []) = Ret tt (w, mkFS (rotated (logfile_ w) (backups_ w) m) d []).
Proof.
  intros Hc Hp Hd Hb. unfold rotate_files, this, on_fs, zoom. run. cbn [fst snd].
  set (path := logfile_ w) in *. set (b := backups_ w) in *.
  set (m1 := if 0 <? b then delete (backup_path path b) m else m).
  assert (Hm1 : m1 !! path = Some c).
  { unfold m1. destruct (0 <? b); [|done].
    rewrite lookup_delete_ne by apply backup_path_ne. done. }
  match goal with |- context [match ?X (w, mkFS m d []) with _ => _ end] =>
    replace (X (w, mkFS m d [])) with (Ret tt (w, mkFS m1 d []) : outcome lw_state unit) end.
  2:{ unfold m1. destruct (0 <? b); [|done]. cbn [fst snd]. rewrite fs_exists_ok by done.
      destruct (m !! backup_path path b) eqn:E.
      - rewrite bool_decide_eq_true_2 by eauto. done.
      - rewrite bool_decide_eq_false_2 by (by intros []). by rewrite delete_id. }
  unfold int_result. rewrite (proj2 (in_int_iff (b - 1))) by lia. run.
  rewrite rotate_backups_ok by done. cbn [fst snd].
  rewrite fs_exists_ok by done. unfold rotated. fold m1.
  rewrite shift_other by (intros; apply not_eq_backup). rewrite Hm1.
  rewrite bool_decide_eq_true_2 by eauto. cbn [fst snd].
  rewrite (fs_rename_ok _ _ _ _ c); [done|].
  rewrite shift_other by (intros; apply not_eq_backup). done.
Qed.

Lemma openNL_ok w m d :
  is_open (file_ w) = false →
  parent_path (logfile_ w) = [] ∨ parent_path (logfile_ w) ∈ d → logfile_ w ∉ d →
  let c := default [] (m !! logfile_ w) in
  openNL_ (w, mkFS m d [])
  = Ret true (set_size (size c) (set_file (mkOfs true false []) w),
              mkFS (<[logfile_ w := c]> m) d []).
Proof.
  intros Ho Hpar Hd c. unfold openNL_, this, on_file, on_fs, on_writer, zoom, try_catch.
  run. lw_simpl. rewrite Ho. unfold ofs_open. lw_simpl.
  replace (bool_decide (parent_path (logfile_ w) = []) || bool_decide (parent_path (logfile_ w) ∈ d))
    with true.
  2:{ symmetry. rewrite orb_true_iff, !bool_decide_eq_true. done. }
  rewrite (bool_decide_eq_false_2 (logfile_ w ∈ d)) by done. lw_simpl.
  rewrite fs_exists_ok by done.
  rewrite lookup_insert_eq, bool_decide_eq_true_2 by eauto. lw_simpl.
  unfold fs_file_size, pop_fault. run. lw_simpl.
  by rewrite lookup_insert_eq.
Qed.

(** The state after a rotation: a new empty file. *)
Lemma rotateNL_ok w m d c :
  lw_ok (w, mkFS m d []) → m !! logfile_ w = Some c →
  rotateNL_ (w, mkFS m d [])
  = Ret tt (set_size 0 (set_file (mkOfs true false []) w),
            mkFS (<[logfile_ w := []]> (rotated (logfile_ w) (backups_ w) m)) d []).
Proof.
  destruct w as [path mb b o cs pb]. intros [Hs _ _ Hpar [Hd Hbd] Hb] Hc. simpl in *. subst o.
  unfold rotateNL_, this, on_file, on_writer, try_catch, ofs_close, ofs_flush. run. lw_simpl.
  rewrite Hc. change (default [] (Some c)) with c. rewrite app_nil_r.
  rewrite (insert_id m path c) by done.
  erewrite rotate_files_ok by (cbn; eauto). lw_simpl.
  rewrite openNL_ok by done. lw_simpl.
  destruct (rotated_lookup path b m c Hc) as (-> & _). done.
Qed.

(** Whether writing [str] after [c] rotates first, and the files and the
    content of the current one after it. *)
Definition rotates (w : LogWriter) (c str : bytes) : bool :=
  (0 <? max_bytes_ w) && (max_bytes_ w <? size c + size str).

Definition after_write (w : LogWriter) (m : gmap bytes bytes) (str : bytes) : bytes * gmap bytes bytes :=
  let path := logfile_ w in
  let c := default [] (m !! path) in
  if rotates w c str then (str, <[path := str]> (rotated path (backups_ w) m))
  else (c ++ str, <[path := c ++ str]> m).

Lemma size_app s t : size (s ++ t) = size s + size t.
Proof. unfold size. rewrite length_app. lia. Qed.

Lemma size_nonneg s : 0 ≤ size s.
Proof. unfold size. lia. Qed.

Lemma writeNL_ok w m d str :
  lw_ok (w, mkFS m d []) →
  current_size_ w + size str < UINT64 →
  writeNL_ str (w, mkFS m d [])
  = let '(c, m') := after_write w m str in
    Ret (size str) (set_size (size c) w, mkFS m' d []).
Proof.
  destruct w as [path mb b o cs pb].
  intros Hok Hcs. pose proof Hok as [Hs _ (c & Hc & Hsz) Hpar [Hd Hbd] Hb]. simpl in *. subst.
  pose proof (size_nonneg c). pose proof (size_nonneg str).
  unfold writeNL_, after_write, rotates, this, on_file, on_writer. run. lw_simpl.
  rewrite Hc. change (default [] (Some c)) with c.
  rewrite (to_u64_id (size c + size str)) by lia.
  destruct ((0 <? mb) && (mb <? size c + size str)) eqn:E.
  - erewrite rotateNL_ok by eauto. lw_simpl. unfold ofs_write, ofs_flush. lw_simpl.
    rewrite lookup_insert_eq. cbn [default app].
    rewrite insert_insert_eq, Z.add_0_l, to_u64_id by lia. done.
  - unfold ofs_write, ofs_flush. lw_simpl. rewrite Hc. cbn [default app].
    change (default [] (Some c)) with c. by rewrite to_u64_id, size_app by lia.
Qed.

(** The invariant is kept, and no text is lost but that of a backup that a
    rotation drops. *)
Lemma after_write_lookup w m d str :
  lw_ok (w, mkFS m d []) →
  snd (after_write w m str) !! logfile_ w = Some (fst (after_write w m str)).
Proof.
  intros _. unfold after_write. destruct (rotates _ _ _); apply lookup_insert_eq.
Qed.

Lemma lw_ok_after_write w m d str :
  lw_ok (w, mkFS m d []) →
  lw_ok (set_size (size (fst (after_write w m str))) w, mkFS (snd (after_write w m str)) d []).
Proof.
  intros Hok. pose proof (after_write_lookup w m d str Hok).
  destruct Hok as [Hs Hf Hsz Hpar Hd Hb]. constructor; simpl in *; eauto.
Qed.

Lemma older_insert path i m c : older path i (<[path := c]> m) = older path i m.
Proof.
  induction i as [|i IH]; [done|]. cbn [older].
  by rewrite IH, lookup_insert_ne by apply not_eq_backup.
Qed.

Definition oldest (w : LogWriter) (m : gmap bytes bytes) : bytes :=
  default [] (m !! backup_path (logfile_ w) (Z.of_nat (kept (backups_ w)))).

Lemma history_after_write w m d str :
  lw_ok (w, mkFS m d []) →
  let c := default [] (m !! logfile_ w) in
  (if rotates w c str then oldest w m else [])
    ++ history (logfile_ w) (backups_ w) (snd (after_write w m str))
  = history (logfile_ w) (backups_ w) m ++ str.
Proof.
  intros [Hs _ (c & Hc & Hsz) _ _ Hb] c0. simpl in *. unfold c0, after_write, oldest. rewrite Hc.
  change (default [] (Some c)) with c.
  destruct (rotates w c str); simpl.
  - rewrite (history_rotated _ _ _ c Hc). unfold history.
    by rewrite older_insert, lookup_insert_eq, <- !app_assoc.
  - unfold history. rewrite older_insert, lookup_insert_eq, Hc. by rewrite <- app_assoc.
Qed.

(** ** [write] *)

Lemma flush_end_bound pending data : (flush_end pending data ≤ length (pending ++ data))%nat.
Proof.
  unfold flush_end. destruct (find_last _ data) as [i|] eqn:E.
  - apply find_last_Some in E as (l & c & r & -> & <- & _). rewrite !length_app. simpl. lia.
  - case_match; lia.
Qed.

Definition no_newline (s : bytes) : Prop := Forall (λ c, char_eqb c LF = false) s.

(** What stays pending has no newline and less than [MAX_PENDING_BUFFER]
    bytes. *)
Lemma flush_end_pending pending data :
  no_newline pending → size pending < MAX_PENDING_BUFFER →
  let rest := drop (flush_end pending data) (pending ++ data) in
  no_newline rest ∧ (size rest < MAX_PENDING_BUFFER ∨ (size rest < size data ∧ LF ∈ data)).
Proof.
  unfold no_newline, flush_end. intros Hp Hs.
  destruct (find_last _ data) as [i|] eqn:E.
  - apply find_last_Some in E as (l & c & r & -> & <- & Hc & Hr).
    replace (pending ++ l ++ c :: r) with ((pending ++ l ++ [c]) ++ r) by (by rewrite <- !app_assoc).
    rewrite drop_app_length' by (rewrite !length_app; simpl; lia).
    split; [done|]. right. split.
    + rewrite size_app. unfold size. simpl. lia.
    + apply bool_decide_eq_true in Hc as ->. set_solver.
  - destruct (Z.leb_spec MAX_PENDING_BUFFER (size (pending ++ data))).
    + rewrite drop_all. split; [constructor|left; done].
    + rewrite drop_0. apply find_last_None in E. split; [by apply Forall_app|by left].
Qed.

(** The text written ends a line, unless the buffer was full. *)
Lemma flush_end_line pending data :
  let n := flush_end pending data in
  n = O ∨ last (take n (pending ++ data)) = Some LF
  ∨ (n = length (pending ++ data) ∧ MAX_PENDING_BUFFER ≤ size (pending ++ data) ∧ no_newline data).
Proof.
  unfold flush_end. destruct (find_last _ data) as [i|] eqn:E.
  - right. left. apply find_last_Some in E as (l & c & r & -> & <- & Hc & Hr).
    replace (pending ++ l ++ c :: r) with ((pending ++ l ++ [c]) ++ r) by (by rewrite <- !app_assoc).
    rewrite take_app_length' by (rewrite !length_app; simpl; lia).
    rewrite app_assoc, last_snoc. by apply bool_decide_eq_true in Hc as ->.
  - apply find_last_None in E. destruct (Z.leb_spec MAX_PENDING_BUFFER (size (pending ++ data))); auto.
Qed.

(** What [write] does when the file system does not fail. *)
Lemma write_ok w m d data :
  lw_ok (w, mkFS m d []) → data ≠ [] →
  current_size_ w + size (pending_buffer_ w) + size data < UINT64 →
  let n := flush_end (pending_buffer_ w) data in
  let buffer := pending_buffer_ w ++ data in
  write data (w, mkFS m d [])
  = if (n =? 0)%nat then Ret 0 (set_pending buffer w, mkFS m d [])
    else let '(c, m') := after_write w m (take n buffer) in
         Ret (size (take n buffer))
             (set_pending (drop n buffer) (set_size (size c) w), mkFS m' d []).
Proof.
  destruct w as [path mb b o cs pb].
  intros Hok Hdata Hcs n buffer. pose proof Hok as [Hs _ (c & Hc & Hsz) Hpar [Hd Hbd] Hb].
  simpl in *. subst.
  unfold write, this, on_writer. run. rewrite (bool_decide_eq_false_2 (data = [])) by done.
  lw_simpl. fold n. fold buffer. destruct (n =? 0)%nat; [done|].
  rewrite writeNL_ok; lw_simpl.
  - unfold after_write, rotates. lw_simpl. by destruct (_ && _).
  - constructor; simpl; eauto.
  - assert (Hle : size (take n buffer) ≤ size pb + size data).
    { rewrite <- size_app. unfold size, buffer. rewrite length_take. lia. }
    lia.
Qed.

(** ** Running the operations whatever fails *)

(** The part of a writer that only [write] and [flush] touch. *)
Definition keeps (path : bytes) (mb b : Z) (pending : bytes) (s : lw_state) : Prop :=
  logfile_ s.1 = path ∧ max_bytes_ s.1 = mb ∧ backups_ s.1 = b ∧ pending_buffer_ s.1 = pending.

Section total.
Context (path : bytes) (mb b : Z) (pending : bytes).
Context (Hb : INT_MIN < b ≤ INT_MAX).
Local Abbreviation I := (keeps path mb b pending).

Lemma total_on_file f : total I (on_file f).
Proof.
  apply total_modify. intros [w fs] (? & ? & ? & ?). simpl.
  destruct (f _ _ fs). done.
Qed.

Lemma total_set_size z : total I (on_writer (set_size z)).
Proof. apply total_modify. by intros [w fs] (? & ? & ? & ?). Qed.

Lemma safe_on_fs {A} (m : M FS A) : safe (λ _, True) m → safe I (on_fs m).
Proof.
  intros Hm [w fs] HI. unfold on_fs, zoom. specialize (Hm fs Logic.I).
  simpl in *. by destruct (m fs).
Qed.

Lemma total_on_file_if (o : bool) f : total I (if o then on_file f else mret tt).
Proof. destruct o; [apply total_on_file|apply total_ret]. Qed.

Lemma total_this {A} (f : LogWriter → A) : total I (this f).
Proof. apply total_gets. Qed.
End total.

Lemma safe_pop {A} (k : bool → M FS A) : (∀ f, safe (λ _, True) (k f)) → safe (λ _, True) (pop_fault ≫= k).
Proof. intros Hk. apply safe_bind; [by intros s|done]. Qed.

Lemma safe_fs_exists p : safe (λ _, True) (fs_exists p).
Proof. apply safe_pop. intros []; [apply safe_throw|apply total_safe, total_gets]. Qed.
Lemma safe_fs_remove p : safe (λ _, True) (fs_remove p).
Proof. apply safe_pop. intros []; [apply safe_throw|by apply total_safe, total_modify]. Qed.
Lemma safe_fs_rename p q : safe (λ _, True) (fs_rename p q).
Proof.
  apply safe_pop. intros []; [apply safe_throw|].
  apply safe_bind; [apply total_safe, total_gets|]. intros [c|]; [|apply safe_throw].
  by apply total_safe, total_modify.
Qed.
Lemma safe_fs_file_size p : safe (λ _, True) (fs_file_size p).
Proof.
  apply safe_pop. intros []; [apply safe_throw|].
  apply safe_bind; [apply total_safe, total_gets|]. intros [c|]; [|apply safe_throw].
  apply total_safe, total_ret.
Qed.

#[export] Hint Resolve safe_fs_exists safe_fs_remove safe_fs_rename safe_fs_file_size : sup.
#[export] Hint Resolve total_on_file total_on_file_if total_set_size total_this safe_on_fs : sup.

Section total_operations.
Context (path : bytes) (mb b : Z) (pending : bytes).
Context (Hb : INT_MIN < b ≤ INT_MAX).
Local Abbreviation I := (keeps path mb b pending).

Lemma total_openNL : total I openNL_.
Proof. unfold openNL_. totality. Qed.

Lemma safe_rotate_backups i : safe I (rotate_backups path i).
Proof. induction i as [|i IH]; cbn [rotate_backups]; totality. Qed.

Lemma safe_rotate_files : safe I rotate_files.
Proof.
  unfold rotate_files, this.
  apply safe_bind_gets with path; [by intros s (? & ? & ? & ?)|].
  apply safe_bind_gets with b; [by intros s (? & ? & ? & ?)|].
  apply safe_bind; [totality|intros _].
  apply safe_bind.
  { apply total_safe, total_int, in_int_iff. lia. }
  intros i. apply safe_bind; [|intros _; totality]. apply safe_rotate_backups.
Qed.

Lemma total_rotateNL : total I rotateNL_.
Proof.
  unfold rotateNL_. totality; try apply safe_rotate_files.
  apply total_openNL.
Qed.

Lemma total_writeNL str : total I (writeNL_ str).
Proof. unfold writeNL_. totality. apply total_rotateNL. Qed.
End total_operations.

(** [write] keeps the pending buffer small and free of newlines, whatever
    the file system does. *)
Lemma write_total path mb b pending data s :
  INT_MIN < b ≤ INT_MAX → keeps path mb b pending s →
  ∃ r s' pending', write data s = Ret r s' ∧ keeps path mb b pending' s' ∧
    (pending' = pending ∨ pending' = drop (flush_end pending data) (pending ++ data)).
Proof.
  intros Hb Hs. unfold write.
  destruct (bool_decide (data = [])); [by eauto 10|].
  pose proof (total_bind (keeps path mb b pending) (this (λ w, is_open (file_ w)))
    (λ opened : bool, if opened then mret true else openNL_)
    (total_this _ _ _ _ _)) as Ht.
  destruct (total_Ret _ _ s (Ht ltac:(intros []; [apply total_ret|by apply total_openNL])) Hs)
    as (ready & [w fs] & Hr & Hk).
  unfold this in *. run. rewrite Hr. destruct ready; simpl; [|by eauto 10].
  destruct Hk as (Hp & Hm & Hbk & Hpe). simpl in *. subst.
  set (n := flush_end (pending_buffer_ w) data). set (buffer := pending_buffer_ w ++ data).
  destruct (Nat.eqb_spec n 0) as [Hn|Hn].
  { eexists _, _, buffer. rewrite Hn, drop_0. split_and!; try done. by right. }
  destruct (total_Ret _ _ (set_pending buffer w, fs)
    (total_writeNL (logfile_ w) (max_bytes_ w) (backups_ w) buffer Hb (take n buffer)))
    as (r & [w' fs'] & Hw & Hk); [done|].
  destruct Hk as (? & ? & ? & Hpe'). simpl in *. unfold on_writer, modify. cbn [fst snd].
  rewrite Hw. cbn [fst snd]. rewrite Hpe'.
  eexists _, _, _. split_and!; [done|done|by right].
Qed.

(** [flush] and [closeNL_] return as well, and leave the limits alone. *)
Definition limits (w : LogWriter) : Z * Z := (max_bytes_ w, backups_ w).

Lemma total_limits_on_file l f : total (λ s, limits s.1 = l) (on_file f).
Proof. apply total_modify. intros [w fs] H. simpl in *. by destruct (f _ _ fs). Qed.

Lemma total_write_pending l : total (λ s, limits s.1 = l) write_pending.
Proof.
  unfold write_pending. apply total_bind; [apply total_gets|]. intros w.
  destruct (bool_decide _); [apply total_ret|].
  apply total_bind; [apply total_limits_on_file|]. intros _. by apply total_modify.
Qed.

Lemma total_flush l : total (λ s, limits s.1 = l) flush.
Proof.
  unfold flush. apply total_bind; [apply total_gets|]. intros o1.
  apply total_bind; [destruct o1; [apply total_write_pending|apply total_ret]|]. intros _.
  apply total_bind; [apply total_gets|]. intros [];
    [apply total_limits_on_file|apply total_ret].
Qed.

Lemma total_closeNL l : total (λ s, limits s.1 = l) closeNL_.
Proof.
  unfold closeNL_. apply total_bind; [apply total_gets|]. intros []; simpl; [|apply total_ret].
  apply total_bind; [apply total_write_pending|]. intros _. apply total_limits_on_file.
Qed.

Lemma total_write l data : INT_MIN < l.2 ≤ INT_MAX → total (λ s, limits s.1 = l) (write data).
Proof.
  intros Hb s Hs. destruct l as [mb b]. injection Hs as Hm Hb'.
  destruct (write_total (logfile_ s.1) mb b (pending_buffer_ s.1) data s Hb)
    as (r & s' & p' & -> & (_ & Hm' & Hb'' & _) & _); [done|].
  unfold limits. by rewrite Hm', Hb''.
Qed.

(** ** [flush], and sequences of writes *)

Lemma flush_ok w m d c :
  lw_ok (w, mkFS m d []) → m !! logfile_ w = Some c →
  current_size_ w + size (pending_buffer_ w) < UINT64 →
  flush (w, mkFS m d [])
  = Ret tt (set_pending [] (set_size (size (c ++ pending_buffer_ w)) w),
            mkFS (<[logfile_ w := c ++ pending_buffer_ w]> m) d []).
Proof.
  destruct w as [path mb b o cs pb].
  intros [Hs _ (c' & Hc' & Hsz) _ _ _] Hc Hlt. simpl in *. subst.
  rewrite Hc in Hc'. injection Hc' as <-.
  pose proof (size_nonneg c). pose proof (size_nonneg pb).
  unfold flush, write_pending, this, on_file, on_writer. run. lw_simpl.
  destruct (decide (pb = [])) as [->|Hpb].
  - rewrite bool_decide_eq_true_2 by done. unfold ofs_flush. lw_simpl.
    rewrite Hc. change (default [] (Some c)) with c. by rewrite !app_nil_r.
  - rewrite bool_decide_eq_false_2 by done. unfold ofs_write, ofs_flush. lw_simpl.
    rewrite Hc. change (default [] (Some c)) with c. cbn [app].
    by rewrite to_u64_id, size_app by lia.
Qed.

(** A stream of chunks, as the read handlers of a process deliver it. *)
Definition write_all (chunks : list bytes) : M lw_state unit :=
  mfor chunks (λ data, write data ;; mret tt).

(** The text a log holds, in its files and in memory. *)
Definition log_text (w : LogWriter) (m : gmap bytes bytes) : bytes :=
  history (logfile_ w) (backups_ w) m ++ pending_buffer_ w.

Definition same_log (w w' : LogWriter) : Prop :=
  logfile_ w' = logfile_ w ∧ max_bytes_ w' = max_bytes_ w ∧ backups_ w' = backups_ w.

(** The step all the theorems on [write] are about. *)
Lemma write_step w m d data :
  lw_ok (w, mkFS m d []) →
  current_size_ w + size (pending_buffer_ w) + size data < UINT64 →
  ∃ r w' m', write data (w, mkFS m d []) = Ret r (w', mkFS m' d [])
    ∧ lw_ok (w', mkFS m' d []) ∧ same_log w w'
    ∧ (∃ lost, log_text w m ++ data = lost ++ log_text w' m'
         ∧ (lost = [] ∨ (lost = oldest w m ∧ 0 < max_bytes_ w)))
    ∧ (current_size_ w' = current_size_ w
       ∨ (current_size_ w' ≤ current_size_ w + size (pending_buffer_ w) + size data
          ∧ (max_bytes_ w ≤ 0 ∨ current_size_ w' ≤ max_bytes_ w
             ∨ current_size_ w' ≤ size (pending_buffer_ w) + size data))).
Proof.
  intros Hok Hlt. destruct (decide (data = [])) as [->|Hd].
  { exists 0, w, m. split_and!; [done..| |by left].
    exists []. rewrite app_nil_r. auto. }
  pose proof (write_ok w m d data Hok Hd Hlt) as Hw. simpl in Hw.
  set (n := flush_end _ _) in *. set (buffer := pending_buffer_ w ++ data) in *.
  destruct (n =? 0)%nat.
  { eexists _, _, _. split_and!; [exact Hw| |done| |by left].
    - destruct Hok. by constructor.
    - exists []. unfold log_text. simpl. rewrite <- app_assoc. auto. }
  pose proof (lw_ok_after_write w m d (take n buffer) Hok) as Hok'.
  pose proof (history_after_write w m d (take n buffer) Hok) as Hh. simpl in Hh.
  destruct Hok as [_ _ (c & Hc & Hsz) _ _ _]. simpl in *.
  assert (Ht : size (take n buffer) ≤ size (pending_buffer_ w) + size data).
  { rewrite <- size_app. unfold size, buffer. rewrite length_take. lia. }
  pose proof (size_nonneg c).
  unfold after_write in *. rewrite Hc in *. change (default [] (Some c)) with c in *.
  destruct (rotates w c (take n buffer)) eqn:Er; simpl in *;
    (eexists _, _, _; split_and!; [exact Hw| |done| |right; split; simpl]).
  - destruct Hok'. by constructor.
  - exists (oldest w m). unfold log_text. simpl. rewrite app_assoc, Hh. split.
    + rewrite <- !app_assoc. f_equal. unfold buffer in *. by rewrite take_drop.
    + right. split; [done|]. apply andb_true_iff in Er as [Er _]. lia.
  - lia.
  - right. right. lia.
  - destruct Hok'. by constructor.
  - exists []. unfold log_text. simpl. rewrite Hh. split; [|by left].
    rewrite <- !app_assoc. f_equal. unfold buffer in *. by rewrite take_drop.
  - rewrite size_app. lia.
  - rewrite size_app. apply andb_false_iff in Er as [Er|Er]; [left|right; left]; lia.
Qed.

(** What a log holds after [text] was added to the log [w0] with the files
    [m0], its pending buffer included.  Files and pending buffer hold the text
    of before followed by [text], less a beginning that only a rotation drops,
    and only while the files hold more than [max_bytes_] bytes of later text;
    and if the current file has room for [text], or rotation is off, no other
    file changed. *)
Definition added (w0 : LogWriter) (m0 : gmap bytes bytes) (text : bytes)
    (w : LogWriter) (m : gmap bytes bytes) : Prop :=
  same_log w0 w
  ∧ current_size_ w + size (pending_buffer_ w)
    ≤ current_size_ w0 + size (pending_buffer_ w0) + size text
  ∧ (∃ lost, log_text w0 m0 ++ text = lost ++ log_text w m
       ∧ (lost = [] ∨ 0 < max_bytes_ w0 < size (history (logfile_ w0) (backups_ w0) m)))
  ∧ (max_bytes_ w0 ≤ 0
     ∨ current_size_ w0 + size (pending_buffer_ w0) + size text ≤ max_bytes_ w0 →
     default [] (m !! logfile_ w0) ++ pending_buffer_ w
     = default [] (m0 !! logfile_ w0) ++ pending_buffer_ w0 ++ text
     ∧ ∀ p, p ≠ logfile_ w0 → m !! p = m0 !! p).

Lemma added_nothing w m : added w m [] w m.
Proof.
  unfold added, same_log. rewrite !app_nil_r. change (size []) with 0.
  split_and!; [done..|lia| |done]. exists []. auto.
Qed.

(** A rotation keeps the file it closes. *)
Lemma oldest_in_older w m : size (oldest w m) ≤ size (older (logfile_ w) (kept (backups_ w)) m).
Proof.
  unfold oldest. destruct (kept (backups_ w)) as [|k] eqn:E; [unfold kept in E; lia|].
  cbn [older]. rewrite size_app. pose proof (size_nonneg (older (logfile_ w) k m)). lia.
Qed.

Lemma history_grows w m d c str :
  lw_ok (w, mkFS m d []) → m !! logfile_ w = Some c →
  let h := size (history (logfile_ w) (backups_ w) (snd (after_write w m str))) in
  if rotates w c str then size c + size str ≤ h
  else h = size (history (logfile_ w) (backups_ w) m) + size str.
Proof.
  intros Hok Hc h. pose proof (f_equal size (history_after_write w m d str Hok)) as H. simpl in H.
  rewrite Hc in H. change (default [] (Some c)) with c in H. rewrite !size_app in H. fold h in H.
  destruct (rotates w c str); [|exact H].
  pose proof (oldest_in_older w m). unfold history in H. rewrite Hc in H.
  change (default [] (Some c)) with c in H. rewrite size_app in H. lia.
Qed.

(** The part [str] of the buffer is written, the rest stays pending. *)
Lemma added_after_write w0 m0 text w m d data str rest :
  lw_ok (w, mkFS m d []) → added w0 m0 text w m →
  str ++ rest = pending_buffer_ w ++ data →
  let '(c', m') := after_write w m str in
  added w0 m0 (text ++ data) (set_pending rest (set_size (size c') w)) m'.
Proof.
  intros Hok ((Hp & Hm & Hb) & Hs & (lost & Ht & Hlost) & Hfits) Hbuf.
  pose proof Hok as [_ _ (c & Hc & Hsz) _ _ _]. simpl in Hc, Hsz.
  pose proof (history_after_write w m d str Hok) as Hh.
  pose proof (history_grows w m d c str Hok Hc) as Hg. simpl in Hh, Hg.
  pose proof (f_equal size Hbuf) as Hn. rewrite !size_app in Hn.
  pose proof (size_nonneg str). pose proof (size_nonneg rest). pose proof (size_nonneg c).
  pose proof (size_nonneg data).
  rewrite Hc in Hh. change (default [] (Some c)) with c in Hh.
  assert (Hlog : log_text w0 m0 ++ text ++ data
                 = lost ++ (history (logfile_ w) (backups_ w) m ++ str) ++ rest).
  { rewrite app_assoc, Ht. unfold log_text. by rewrite <- !app_assoc, Hbuf. }
  rewrite <- Hh in Hlog. unfold after_write in *. rewrite Hc in *.
  change (default [] (Some c)) with c in *. unfold added, log_text, same_log in *.
  rewrite <- Hp, <- Hb in *.
  destruct (rotates w c str) eqn:Er; simpl in *.
  - apply andb_true_iff in Er as [Er1%Z.ltb_lt Er2%Z.ltb_lt]. rewrite size_app.
    split_and!; [done..|lia| |intros ?; lia].
    exists (lost ++ oldest w m). rewrite Hlog, <- !app_assoc. split; [done|right; lia].
  - rewrite !size_app. split_and!; [done..|lia| |].
    + exists lost. split; [done|]. destruct Hlost; [by left|right; lia].
    + intros Hfit. destruct Hfits as [Hcur Ho]; [lia|]. rewrite lookup_insert_eq.
      change (default [] (Some (c ++ str))) with (c ++ str). split.
      * rewrite <- app_assoc, Hbuf. rewrite Hc in Hcur. change (default [] (Some c)) with c in Hcur.
        by rewrite app_assoc, Hcur, <- !app_assoc.
      * intros p Hne. rewrite lookup_insert_ne by done. auto.
Qed.

Lemma write_added w0 m0 text w m d data :
  lw_ok (w, mkFS m d []) → added w0 m0 text w m →
  current_size_ w0 + size (pending_buffer_ w0) + size (text ++ data) < UINT64 →
  ∃ r w' m', write data (w, mkFS m d []) = Ret r (w', mkFS m' d [])
    ∧ lw_ok (w', mkFS m' d []) ∧ added w0 m0 (text ++ data) w' m'.
Proof.
  intros Hok Ha Hlt. rewrite size_app in Hlt.
  destruct (decide (data = [])) as [->|Hd]; [exists 0, w, m; by rewrite app_nil_r|].
  pose proof Ha as (Hl & Hs & (lost & Ht & Hlost) & Hfits).
  pose proof (write_ok w m d data Hok Hd ltac:(lia)) as Hw. simpl in Hw.
  set (n := flush_end _ _) in *. set (buffer := pending_buffer_ w ++ data) in *.
  destruct (n =? 0)%nat.
  - eexists _, _, _. split; [exact Hw|]. split; [by destruct Hok; constructor|].
    unfold added, log_text in *. simpl. unfold buffer. rewrite !size_app. split_and!; try apply Hl; [lia| |].
    + exists lost. rewrite app_assoc, Ht, <- !app_assoc. auto.
    + intros Hfit. pose proof (size_nonneg data). destruct Hfits as [Hc Ho]; [lia|]. split; [|done].
      by rewrite app_assoc, Hc, <- !app_assoc.
  - pose proof (lw_ok_after_write w m d (take n buffer) Hok) as Hok'.
    pose proof (added_after_write w0 m0 text w m d data (take n buffer) (drop n buffer) Hok Ha
                  (take_drop n buffer)) as Ha'.
    destruct (after_write w m (take n buffer)) as [c' m']. eexists _, _, _. split; [exact Hw|].
    split; [by destruct Hok'; constructor|done].
Qed.

Lemma write_all_added w0 m0 text w m d chunks :
  lw_ok (w, mkFS m d []) → added w0 m0 text w m →
  current_size_ w0 + size (pending_buffer_ w0) + size (text ++ concat chunks) < UINT64 →
  ∃ w' m', write_all chunks (w, mkFS m d []) = Ret tt (w', mkFS m' d [])
    ∧ lw_ok (w', mkFS m' d []) ∧ added w0 m0 (text ++ concat chunks) w' m'.
Proof.
  revert text w m. induction chunks as [|data chunks IH]; intros text w m Hok Ha Hlt.
  { exists w, m. by rewrite app_nil_r. }
  cbn [concat] in *. rewrite app_assoc in Hlt |- *.
  destruct (write_added w0 m0 text w m d data Hok Ha) as (r & w1 & m1 & Hw & Hok1 & Ha1).
  { rewrite size_app in Hlt. pose proof (size_nonneg (concat chunks)). lia. }
  destruct (IH (text ++ data) w1 m1 Hok1 Ha1 Hlt) as (w' & m' & Hrun & ?). exists w', m'.
  split; [|done]. unfold write_all in *. cbn [mfor]. run. by rewrite Hw.
Qed.

(** [flush] writes what is pending. *)
Lemma flush_added w0 m0 text w m d :
  lw_ok (w, mkFS m d []) → added w0 m0 text w m →
  current_size_ w0 + size (pending_buffer_ w0) + size text < UINT64 →
  ∃ w' m', flush (w, mkFS m d []) = Ret tt (w', mkFS m' d [])
    ∧ lw_ok (w', mkFS m' d []) ∧ added w0 m0 text w' m' ∧ pending_buffer_ w' = [].
Proof.
  intros Hok Ha Hlt. pose proof Hok as [_ _ (c & Hc & Hsz) _ _ _]. simpl in Hc, Hsz.
  pose proof Ha as ((Hp & Hm & Hb) & Hs & (lost & Ht & Hlost) & Hfits).
  eexists _, _. split; [apply (flush_ok w m d c Hok Hc); lia|]. split; [|split; [|done]].
  { destruct Hok. constructor; simpl in *; try done. exists (c ++ pending_buffer_ w).
    by rewrite lookup_insert_eq. }
  unfold added, log_text, same_log, history in *. simpl. rewrite <- Hp, <- Hb in *.
  rewrite Hc in *. rewrite older_insert, lookup_insert_eq.
  change (default [] (Some c)) with c in *.
  change (default [] (Some ?x)) with x. rewrite !app_nil_r. rewrite !size_app in *.
  pose proof (size_nonneg (pending_buffer_ w)). split_and!; [done..|change (size []) with 0; lia| |].
  - exists lost. rewrite Ht, <- !app_assoc. split; [done|]. destruct Hlost; [by left|right; lia].
  - intros Hfit. destruct (Hfits Hfit) as [Hcur Ho]. split; [done|].
    intros p Hne. rewrite lookup_insert_ne by done. auto.
Qed.

(** ** Properties *)

(** C21: [write] loses no text.  When the file system works, appending
    [data] to a log whose files and pending buffer hold a text leaves files
    and a pending buffer that hold this text followed by [data], less at
    most the content of the oldest backup, which only a rotation drops. *)
Theorem write_conserves w m d data :
  lw_ok (w, mkFS m d []) →
  current_size_ w + size (pending_buffer_ w) + size data < UINT64 →
  ∃ r w' m' lost, write data (w, mkFS m d []) = Ret r (w', mkFS m' d [])
    ∧ lw_ok (w', mkFS m' d []) ∧ same_log w w'
    ∧ log_text w m ++ data = lost ++ log_text w' m'
    ∧ (lost = [] ∨ (lost = oldest w m ∧ 0 < max_bytes_ w)).
Proof.
  intros Hok Hlt. destruct (write_step w m d data Hok Hlt) as (r & w' & m' & ? & ? & ? & (lost & ?) & _).
  exists r, w', m', lost. tauto.
Qed.

(** C31: The size of the current file stays within [max_bytes_]: after a
    [write] that found it there, it is at most the larger of the limit and
    of the one piece of text the call may have written at once. *)
Theorem write_size_bound w m d data :
  lw_ok (w, mkFS m d []) →
  current_size_ w + size (pending_buffer_ w) + size data < UINT64 →
  0 < max_bytes_ w → current_size_ w ≤ max_bytes_ w →
  ∃ r w' m', write data (w, mkFS m d []) = Ret r (w', mkFS m' d [])
    ∧ size (default [] (m' !! logfile_ w)) = current_size_ w'
    ∧ current_size_ w' ≤ Z.max (max_bytes_ w) (size (pending_buffer_ w) + size data).
Proof.
  intros Hok Hlt Hm Hc.
  destruct (write_step w m d data Hok Hlt) as (r & w' & m' & ? & Hok' & (Hp & _) & _ & Hs).
  exists r, w', m'. split_and!; [done| |lia].
  destruct Hok' as [_ _ (c & Hf & Hsz) _ _ _]. simpl in *. by rewrite <- Hp, Hf, Hsz.
Qed.

(** C32: [write] returns whatever operation of the file system fails, never
    letting an exception out, and the pending buffer it leaves has no
    newline and, for the chunks of at most 64 KB the daemon reads, less
    than [MAX_PENDING_BUFFER] bytes. *)
Theorem write_always_returns path mb b pending data s :
  INT_MIN < b ≤ INT_MAX → keeps path mb b pending s →
  no_newline pending → size pending < MAX_PENDING_BUFFER → size data ≤ MAX_PENDING_BUFFER →
  ∃ r s' pending', write data s = Ret r s' ∧ keeps path mb b pending' s'
    ∧ no_newline pending' ∧ size pending' < MAX_PENDING_BUFFER.
Proof.
  intros Hb Hs Hn Hp Hd.
  destruct (write_total path mb b pending data s Hb Hs) as (r & s' & p' & ? & ? & Hp').
  pose proof (flush_end_pending pending data Hn Hp) as [Hn' Hs'].
  exists r, s', p'. split_and!; [done|done|by destruct Hp' as [->| ->]|].
  destruct Hp' as [->| ->]; [done|]. destruct Hs' as [|[? _]]; lia.
Qed.

(** C33: A rotation shifts the backups by one.  Number [j+1] becomes what
    number [j] was, number 1 what the log file was, the log file is empty,
    and no other file changes; one backup is kept even when
    [stdout_logfile_backups] is 0 or negative. *)
Theorem rotation_shifts_backups w m d c :
  lw_ok (w, mkFS m d []) → m !! logfile_ w = Some c →
  ∃ w' m', rotateNL_ (w, mkFS m d []) = Ret tt (w', mkFS m' d [])
    ∧ lw_ok (w', mkFS m' d []) ∧ current_size_ w' = 0
    ∧ m' !! logfile_ w = Some []
    ∧ m' !! backup_path (logfile_ w) 1 = Some c
    ∧ (∀ j, 1 ≤ j < backups_ w →
         m' !! backup_path (logfile_ w) (j + 1) = m !! backup_path (logfile_ w) j)
    ∧ (∀ p, p ≠ logfile_ w → (∀ j, 1 ≤ j ≤ Z.max 1 (backups_ w) → p ≠ backup_path (logfile_ w) j) →
         m' !! p = m !! p).
Proof.
  intros Hok Hc. destruct (rotated_lookup (logfile_ w) (backups_ w) m c Hc) as (H0 & H1 & Hj & Ho).
  eexists _, _. split_and!; [by eapply rotateNL_ok| |done|..]; simpl.
  - destruct Hok as [Hs _ _ Hpar Hd Hb]. constructor; simpl in *; try done.
    exists []. by rewrite lookup_insert_eq.
  - apply lookup_insert_eq.
  - rewrite lookup_insert_ne by apply not_eq_backup. done.
  - intros j Hlt. rewrite lookup_insert_ne by apply not_eq_backup. auto.
  - intros p Hp Hb. rewrite lookup_insert_ne by done. auto.
Qed.

(** C34: The log does not depend on how the output was cut into pieces,
    rotation on or off, as long as the file system works.  Writing the chunks
    and then flushing leaves nothing pending and files that hold, from the
    oldest backup to the current file, the text of before followed by exactly
    the concatenation of the chunks, less a beginning that rotations dropped
    and only while more than [max_bytes_] bytes of later text are kept; and
    when the current file has room for the chunks, or rotation is off, they
    are appended to it and no other file changes. *)
Theorem flush_after_writes w m d chunks :
  lw_ok (w, mkFS m d []) →
  current_size_ w + size (pending_buffer_ w) + size (concat chunks) < UINT64 →
  ∃ w' m', (write_all chunks ;; flush) (w, mkFS m d []) = Ret tt (w', mkFS m' d [])
    ∧ lw_ok (w', mkFS m' d []) ∧ added w m (concat chunks) w' m' ∧ pending_buffer_ w' = [].
Proof.
  intros Hok Hlt.
  destruct (write_all_added w m [] w m d chunks Hok (added_nothing w m) Hlt) as (w1 & m1 & Hw & Hok1 & Ha1).
  destruct (flush_added w m (concat chunks) w1 m1 d Hok1 Ha1 Hlt) as (w' & m' & Hf & ?).
  exists w', m'. split; [|done]. run. by rewrite Hw.
Qed.

(** ** The properties at concrete inputs *)

Definition ex_path : bytes := #"app.log".
Definition ex_writer (mb b : Z) (c pending : bytes) : LogWriter :=
  mkLogWriter ex_path mb b (mkOfs true false []) (size c) pending.
Definition ex_files (c : bytes) : gmap bytes bytes := {[ ex_path := c ]}.

Lemma ex_ok mb b c pending :
  INT_MIN < b ≤ INT_MAX → lw_ok (ex_writer mb b c pending, mkFS (ex_files c) ∅ []).
Proof.
  intros Hb. constructor; [done|done| |by left| |done].
  - exists c. split; [apply lookup_singleton_eq|done].
  - split; [|intros i]; apply not_elem_of_empty.
Defined.

Definition ex_line : bytes := #"12345678" ++ [LF].
Definition ex_data : bytes := #"cd" ++ [LF] ++ #"ef".

Lemma write_conserves_witness :
  ∃ r w' m' lost,
    write ex_data (ex_writer 10 2 ex_line #"ab", mkFS (ex_files ex_line) ∅ [])
      = Ret r (w', mkFS m' ∅ [])
    ∧ lw_ok (w', mkFS m' ∅ []) ∧ same_log (ex_writer 10 2 ex_line #"ab") w'
    ∧ log_text (ex_writer 10 2 ex_line #"ab") (ex_files ex_line) ++ ex_data
      = lost ++ log_text w' m'
    ∧ (lost = [] ∨ (lost = oldest (ex_writer 10 2 ex_line #"ab") (ex_files ex_line)
                    ∧ 0 < max_bytes_ (ex_writer 10 2 ex_line #"ab"))).
Proof. apply write_conserves; [apply ex_ok; done|done]. Defined.

Lemma write_size_bound_witness :
  ∃ r w' m',
    write ex_data (ex_writer 10 2 ex_line #"ab", mkFS (ex_files ex_line) ∅ [])
      = Ret r (w', mkFS m' ∅ [])
    ∧ size (default [] (m' !! ex_path)) = current_size_ w'
    ∧ current_size_ w' ≤ Z.max 10 (size #"ab" + size ex_data).
Proof. apply (write_size_bound (ex_writer 10 2 ex_line #"ab")); [apply ex_ok; done|done..]. Defined.

Lemma write_always_returns_witness :
  ∃ r s' pending',
    write ex_data (ex_writer 10 2 ex_line #"ab", mkFS (ex_files ex_line) ∅ [false; true; true]) = Ret r s'
    ∧ keeps ex_path 10 2 pending' s' ∧ no_newline pending' ∧ size pending' < MAX_PENDING_BUFFER.
Proof.
  apply (write_always_returns ex_path 10 2 #"ab"); try done.
  repeat constructor.
Defined.

Lemma rotation_shifts_backups_witness :
  ∃ w' m', rotateNL_ (ex_writer 10 2 ex_line [], mkFS (ex_files ex_line) ∅ []) = Ret tt (w', mkFS m' ∅ [])
    ∧ lw_ok (w', mkFS m' ∅ []) ∧ current_size_ w' = 0
    ∧ m' !! ex_path = Some []
    ∧ m' !! backup_path ex_path 1 = Some ex_line
    ∧ (∀ j, 1 ≤ j < 2 → m' !! backup_path ex_path (j + 1) = ex_files ex_line !! backup_path ex_path j)
    ∧ (∀ p, p ≠ ex_path → (∀ j, 1 ≤ j ≤ Z.max 1 2 → p ≠ backup_path ex_path j) →
         m' !! p = ex_files ex_line !! p).
Proof.
  apply (rotation_shifts_backups (ex_writer 10 2 ex_line [])); [apply ex_ok; done|].
  apply lookup_singleton_eq.
Defined.

Lemma flush_after_writes_witness :
  ∃ w' m',
    (write_all [ #"ab"; ex_data; #"x"] ;; flush)
      (ex_writer 10 2 ex_line [], mkFS (ex_files ex_line) ∅ []) = Ret tt (w', mkFS m' ∅ [])
    ∧ lw_ok (w', mkFS m' ∅ [])
    ∧ added (ex_writer 10 2 ex_line []) (ex_files ex_line) (concat [ #"ab"; ex_data; #"x"]) w' m'
    ∧ pending_buffer_ w' = [].
Proof. apply (flush_after_writes (ex_writer 10 2 ex_line [])); [by apply ex_ok|done]. Defined.
