(* ===== verification/Logger.v ===== *)
(** * logger/logger.{h,cpp}

    The two sinks of Boost.Log, console and file, with the filters that
    choose which records reach them, and their levels.  What the library
    does with an accepted record (formatting, the rotation of the file) is
    its own; adding a file sink may throw. *)

From Stdlib Require Import ZArith NArith Ascii String.
From stdpp Require Import base list strings.
From S2P Require Import Prelude CppString BoostAlgo LogLevels Files.

Inductive TrivialSeverity := S_trace | S_debug | S_info | S_warning | S_error | S_fatal.

(** The order of the severities of Boost.Log. *)
Definition severity_code (s : TrivialSeverity) : Z :=
  match s with S_trace => 0 | S_debug => 1 | S_info => 2 | S_warning => 3 | S_error => 4 | S_fatal => 5 end.

Definition to_trivial_severity (level : LogLevel) : TrivialSeverity :=
  match level with
  | TRACE => S_trace | DEBUG => S_debug | INFO => S_info
  | WARN => S_warning | ERROR_ => S_error | IGNORE => S_fatal
  end.

Inductive LogDest := D_BOTH | D_CONSOLE | D_FILE.

#[global] Instance LogDest_eq_dec : EqDecision LogDest.
Proof. solve_decision. Defined.

Record LogLevelSeverity := mkSev { level : LogLevel; severity : TrivialSeverity }.

Definition new_severity (l : LogLevel) : LogLevelSeverity := mkSev l (to_trivial_severity l).

(** [LogLevelSeverity::set] *)
Definition set_severity (l : LogLevel) (s : LogLevelSeverity) : bool * LogLevelSeverity :=
  if decide (l = level s) then (false, s) else (true, new_severity l).

(** A record: its severity, its [Dest] attribute, and its message. *)
Record LogRecord := mkRecord { of_severity : TrivialSeverity; log_dest : option LogDest; message : bytes }.

Inductive sink :=
| ConsoleSink
| FileSink (file_name target_file_name : bytes) (rotation_size : Z) (target : bytes) (max_files : Z).

(** The logger, the sinks of the core, and what they were given. *)
Record Logging := mkLogging {
  console_sev : LogLevelSeverity;
  file_sev : LogLevelSeverity;
  sinks : list sink;
  written : list (sink * LogRecord);
}.

Definition new_logging : Logging := mkLogging (new_severity INFO) (new_severity INFO) [] [].

(** The filter of a sink; it refers to the level, not to a copy of it. *)
Definition accepts (st : Logging) (r : LogRecord) (s : sink) : bool :=
  let '(own, other) := match s with
                       | ConsoleSink => (console_sev st, D_FILE)
                       | FileSink _ _ _ _ _ => (file_sev st, D_CONSOLE)
                       end in
  bool_decide (log_dest r ≠ Some other) && (severity_code (severity own) <=? severity_code (of_severity r)).

Definition log (r : LogRecord) : M Logging unit :=
  modify (λ st, mkLogging (console_sev st) (file_sev st) (sinks st)
    (written st ++ ((λ s, (s, r)) <$> filter (λ s, accepts st r s = true) (sinks st)))).

Definition add_sink (s : sink) : M Logging unit :=
  modify (λ st, mkLogging (console_sev st) (file_sev st) (sinks st ++ [s]) (written st)).

Definition set_console_level (l : LogLevel) : M Logging bool := λ st,
  let '(changed, sev) := set_severity l (console_sev st) in
  Ret changed (mkLogging sev (file_sev st) (sinks st) (written st)).
Definition set_file_level (l : LogLevel) : M Logging bool := λ st,
  let '(changed, sev) := set_severity l (file_sev st) in
  Ret changed (mkLogging (console_sev st) sev (sinks st) (written st)).

Definition init_logging (l : LogLevel) : M Logging unit :=
  add_sink ConsoleSink ;; set_console_level l ;; mret tt.

Definition get_log_level : M Logging LogLevel := gets (λ st, level (console_sev st)).

Definition set_log_level (l : LogLevel) : M Logging unit :=
  changed ← set_console_level l;
  if (changed : bool)
  then log (mkRecord S_trace None (#"Log level changed to: " ++ level_name l))
  else mret tt.

Definition increment_log_level (amount : Z) : M Logging unit :=
  l ← get_log_level;
  set_log_level (shifted_level l amount).

(** Clearing the sinks. *)
Definition shutdown_logging : M Logging unit :=
  log (mkRecord S_trace None #"Shutting down logging system") ;;
  modify (λ st, mkLogging (console_sev st) (file_sev st) [] (written st)).

Definition ruler : bytes := repeat "-"%char 60.

(** [LOG_INFO] with the attribute of the scope. *)
Definition to_file (text : bytes) : LogRecord := mkRecord S_info (Some D_FILE) text.

Section file.
(** [logging::add_file_log], which works on the file system [W] and may
    throw. *)
Context {W : Type}.
Variable add_file_log : sink → M W unit.

Definition on_logging {A} : M Logging A → M (Logging * W) A := zoom fst (λ l s, (l, s.2)).
Definition on_files {A} : M W A → M (Logging * W) A := zoom snd (λ w s, (s.1, w)).

Definition init_file_logging (logfile : bytes) (l : LogLevel) (max_bytes backups : Z) (header : bytes)
    : M (Logging * W) unit :=
  if bool_decide (logfile = []) then mret tt else
  let s := FileSink logfile (logfile ++ #".%N") max_bytes (parent_path logfile) (Z.max backups 0) in
  on_files (add_file_log s) ;;
  on_logging (add_sink s) ;;
  on_logging (set_file_level l) ;;
  if bool_decide (header = []) then mret tt else
  on_logging (log (to_file ruler)) ;;
  on_logging (log (to_file header)).
End file.

(** ** Properties *)

Lemma severity_level l : severity_code (to_trivial_severity l) = level_code l.
Proof. by destruct l. Qed.

Lemma shifted_info n : 0 ≤ n → level_code (shifted_level INFO n) = Z.max 0 (2 - n).
Proof.
  intros Hn. unfold shifted_level. cbn [level_code]. destruct (Z.ltb_spec (2 - n) 0); [cbn; lia|].
  destruct (Z.ltb_spec 4 (2 - n)); [lia|].
  assert (n = 0 ∨ n = 1 ∨ n = 2) as [-> |[-> | ->]] by lia; done.
Qed.

(** What a sink with level [own] is given of a record that is not meant for
    the [other] one only. *)
Definition given (own : Z) (other : LogDest) (s : sink) (r : LogRecord) : list (sink * LogRecord) :=
  if bool_decide (log_dest r ≠ Some other) && (own <=? severity_code (of_severity r)) then [(s, r)] else [].

(** The levels of the two sinks, kept apart from their severities. *)
Definition routed (console file : Z) (s : sink) (st : Logging) : Prop :=
  severity_code (severity (console_sev st)) = console ∧ severity_code (severity (file_sev st)) = file
  ∧ sinks st = [ConsoleSink; s] ∧ match s with ConsoleSink => False | _ => True end.

Lemma routed_log console file s r st :
  routed console file s st →
  twp (log r) (λ _ st', routed console file s st'
    ∧ written st' = written st ++ given console D_FILE ConsoleSink r ++ given file D_CONSOLE s r) st.
Proof.
  intros (Hc & Hf & Hs & Hk). unfold log. apply twp_modify. split; [done|]. cbn [written]. f_equal.
  rewrite Hs. unfold given. rewrite <- Hc, <- Hf. rewrite !filter_cons, filter_nil.
  destruct s; [done|]. cbn [accepts].
  do 2 (destruct (_ && _); [rewrite decide_True by done|rewrite decide_False by done]); done.
Qed.

(** Raising the verbosity of a logger that has its console only. *)
Lemma verbosity_raised n : 0 ≤ n →
  twp (if 0 <? n then increment_log_level n else mret tt)
    (λ _ st, st = mkLogging (new_severity (shifted_level INFO n)) (new_severity INFO) [ConsoleSink]
       (if 2 <=? n then [(ConsoleSink, mkRecord S_trace None #"Log level changed to: trace")] else []))
    (mkLogging (new_severity INFO) (new_severity INFO) [ConsoleSink] []).
Proof.
  intros Hn. assert (n = 0 ∨ n = 1 ∨ 2 ≤ n) as [-> |[-> |Hn2]] by lia; [by vm_compute..|].
  rewrite (proj2 (Z.leb_le 2 n)), (proj2 (Z.ltb_lt 0 n)) by lia.
  assert (shifted_level INFO n = TRACE) as E.
  { unfold shifted_level. cbn [level_code]. destruct (Z.ltb_spec (2 - n) 0); [done|]. by replace n with 2 by lia. }
  unfold increment_log_level, get_log_level. apply twp_bind, twp_gets. cbn [level console_sev new_severity].
  rewrite E. by vm_compute.
Qed.

(** A record of level info reaches a console that takes it. *)
Lemma log_console text con file ws : severity_code (severity con) ≤ 2 →
  log (mkRecord S_info None text) (mkLogging con file [ConsoleSink] ws)
  = Ret tt (mkLogging con file [ConsoleSink] (ws ++ [(ConsoleSink, mkRecord S_info None text)])).
Proof.
  intros Hc. unfold log, modify. cbn [console_sev file_sev sinks written]. rewrite filter_cons, decide_True; [done|].
  unfold accepts. cbn. by apply Z.leb_le.
Qed.
