(* ===== verification/Kernel.v ===== *)
(** * The operating system as the daemon sees it

    The system calls and library entry points whose answers the program
    does not determine are the calls of an interface, [Kernel]: a state and
    the answer to each call.  [KernelLaws] states what POSIX documents of
    them and the components rely on.  A [World] is a kernel, the log files,
    the trace of the calls made so far, newest first, and the static
    variables of the process. *)

From Stdlib Require Import ZArith NArith Ascii String.
From stdpp Require Import base gmap sets list strings.
From S2P Require Import Prelude CppString Files.

(** The part of [struct stat] the sources read. *)
Record stat_result := mkStat { st_mode : Z; st_uid : Z }.

Inductive call :=
(* clocks, in nanoseconds *)
| SteadyNow | SystemNow
(* descriptors *)
| Pipe2 | Close (fd : Z) | Dup2 (src dst : Z)
| GetFlags (fd : Z) | SetFlags (fd flags : Z)
| AssignStream (fd : Z)        (* constructing an asio stream_descriptor *)
| AsyncRead (fd : Z)           (* async_read_some *)
| RunFor (ms : Z)              (* the time an io_context::run_for takes *)
(* processes *)
| Fork | Kill (pid sig : Z) | Waitpid (pid : Z) (nohang : bool)
| SignalDefault (sig : Z) | Execvp (argv : list bytes)
(* credentials and limits *)
| Getuid | Geteuid | Getgid | Getegid
| Getpwnam (name : bytes) | Initgroups (name : bytes) (gid : Z)
| Setgid (gid : Z) | Setuid (uid : Z) | Getrlimit
(* the process environment *)
| Chdir (dir : bytes) | Setenv (key value : bytes) | SetUmask (mode : Z)
(* the file system *)
| Stat (path : bytes) | Lstat (path : bytes) | Chmod (path : bytes) (mode : Z)
| Exists (path : bytes) | Canonical (path : bytes) | WeaklyCanonical (path : bytes)
| CurrentPath | TempDirectory | Unlink (path : bytes)
| IsDirectory (path : bytes)
| DirectoryFiles (path : bytes)   (* the regular files of a directory_iterator *)
| ReadFile (path : bytes)         (* what an ifstream reads; None when it does not open *)
(* the pid file *)
| Getpid | OpenTruncated (path : bytes) | Flock (fd : Z) | WriteFd (fd : Z) (text : bytes)
| RemoveFile (path : bytes)
(* the listening socket *)
| Connect (path : bytes)          (* whether something accepts connections there *)
| AcceptorOpen | AcceptorBind (path : bytes) | AcceptorListen | AcceptorClose
| Strerror.                    (* strerror(errno) *)

(** What a call answers. *)
Definition answer (c : call) : Type :=
  match c with
  | SteadyNow | SystemNow => Z
  | Pipe2 => option (Z * Z)
  | AssignStream _ => bool
  | Waitpid _ _ => Z * Z
  | Getpwnam _ => option (Z * Z)          (* uid, gid *)
  | Getrlimit => option (option Z)        (* the hard limit, None for infinity *)
  | Execvp _ => bool                      (* whether the image was replaced *)
  | Stat _ | Lstat _ => option stat_result
  | Exists _ => result bool
  | Canonical _ | WeaklyCanonical _ | CurrentPath | TempDirectory => result bytes
  | Strerror => bytes
  | IsDirectory _ => result bool
  | DirectoryFiles _ => result (list bytes)
  | AcceptorOpen | AcceptorBind _ | AcceptorListen => result unit
  | ReadFile _ => option bytes
  | RemoveFile _ | Connect _ => bool
  | Close _ | AsyncRead _ | RunFor _ | SignalDefault _ | AcceptorClose => unit
  | _ => Z
  end.

Inductive event := Ev (c : call) (r : answer c).

Class Kernel (K : Type) := sys : ∀ c : call, K → answer c * K.

(** The function-local statics of util/secure.cpp: the directories its
    checks allow, resolved at the first use that succeeds and kept by the
    process. *)
Record Statics := mkStatics {
  log_dirs : option (list bytes);      (* in validate_log_path *)
  pidfile_dirs : option (list bytes);  (* in validate_pidfile_path *)
}.
Definition no_statics : Statics := mkStatics None None.

Record World (K : Type) := mkWorld { wk : K; wfs : FS; wtrace : list event; wstatics : Statics }.
Arguments mkWorld {K}.
Arguments wk {K}.
Arguments wfs {K}.
Arguments wtrace {K}.
Arguments wstatics {K}.

Section kernel.
Context {K : Type} `{!Kernel K}.

Definition do_call (c : call) : M (World K) (answer c) := λ w,
  let '(r, k) := sys c (wk w) in
  Ret r (mkWorld k (wfs w) (Ev c r :: wtrace w) (wstatics w)).

Lemma total_do_call (I : World K → Prop) c :
  (∀ w r k, I w → sys c (wk w) = (r, k) → I (mkWorld k (wfs w) (Ev c r :: wtrace w) (wstatics w))) →
  total I (do_call c).
Proof. intros H w Hw. unfold do_call. destruct (sys c (wk w)) eqn:E. eauto. Qed.
End kernel.

(** What the manual pages promise of the calls, with the children not yet
    waited for and the value of the steady clock as the relevant part of
    the kernel's state.  [Fork] is as the parent sees it. *)
Class KernelLaws (K : Type) `{!Kernel K} := {
  children : K → gset Z;
  clock : K → Z;
  fork_law k r k' : sys Fork k = (r, k') →
    r ≠ 0 ∧ (if 0 <? r then (r ∉ children k) ∧ children k' = {[ r ]} ∪ children k
             else children k' = children k);
  waitpid_law p nohang k pid st k' : sys (Waitpid p nohang) k = ((pid, st), k') →
    if 0 <? pid then
      pid ∈ children k ∧ children k' = children k ∖ {[ pid ]} ∧ (0 < p → pid = p)
    else children k' = children k;
  children_law c k r k' : sys c k = (r, k') →
    (∀ p b, c ≠ Waitpid p b) → c ≠ Fork → children k' = children k;
  steady_law k t k' : sys SteadyNow k = (t, k') → clock k ≤ t ∧ clock k' = t;
  run_for_law ms k r k' : sys (RunFor ms) k = (r, k') → clock k < clock k';
  clock_law c k r k' : sys c k = (r, k') → clock k ≤ clock k';
}.

(** ** Reading traces

    The events of a trace that concern children: the children created, the
    signals sent, and the children reaped, newest first. *)

Inductive mark := MForked (pid : Z) | MSignal (pid sig : Z) | MReaped (pid : Z).

Definition mark_of (e : event) : option mark :=
  match e with
  | Ev c r =>
    match c return answer c → option mark with
    | Fork => λ pid, if 0 <? pid then Some (MForked pid) else None
    | Kill pid sig => λ _, Some (MSignal pid sig)
    | Waitpid _ _ => λ r, if 0 <? r.1 then Some (MReaped r.1) else None
    | _ => λ _, None
    end r
  end.
Definition marks (t : list event) : list mark := omap mark_of t.

Lemma marks_forked (r : Z) t : 0 < r → marks (Ev Fork r :: t) = MForked r :: marks t.
Proof. intros H. unfold marks. simpl. by destruct (Z.ltb_spec 0 r); [|lia]. Qed.

Lemma marks_fork_failed (r : Z) t : r < 0 → marks (Ev Fork r :: t) = marks t.
Proof. intros H. unfold marks. simpl. by destruct (Z.ltb_spec 0 r); [lia|]. Qed.

Lemma marks_waitpid p b (pid st : Z) t :
  marks (Ev (Waitpid p b) (pid, st) :: t)
  = if 0 <? pid then MReaped pid :: marks t else marks t.
Proof. unfold marks. simpl. by destruct (0 <? pid). Qed.

(** The children created and not yet reaped. *)
Fixpoint live (t : list mark) : gset Z :=
  match t with
  | [] => ∅
  | MForked pid :: t => {[ pid ]} ∪ live t
  | MSignal _ _ :: t => live t
  | MReaped pid :: t => live t ∖ {[ pid ]}
  end.

(** Every signal was sent to a child that existed and was not yet reaped at
    the time, and whose process id thus was still its own. *)
Fixpoint own (t : list mark) : Prop :=
  match t with
  | [] => True
  | MSignal pid _ :: t => 0 < pid ∧ pid ∈ live t ∧ own t
  | _ :: t => own t
  end.

(** The kernel's children are those of the trace, and all signals went to
    own children. *)
Definition tracked {K} `{KernelLaws K} (w : World K) : Prop :=
  children (wk w) = live (marks (wtrace w)) ∧ own (marks (wtrace w)).
