(* ===== verification/Sim.v ===== *)
(** * A kernel to run the model on

    [Sim] is a small concrete kernel: children that die of any signal,
    pipes, a clock that only its field moves, and the credentials of one
    user.  It satisfies [KernelLaws], so what is proved from the laws can
    be evaluated here; the concrete instances of the properties use it. *)

From Stdlib Require Import ZArith NArith Ascii String.
From stdpp Require Import base gmap sets list strings.
From S2P Require Import Prelude CppString Files Kernel.

Record Sim := mkSim {
  sim_time : Z;                  (* nanoseconds *)
  sim_children : list Z;
  sim_zombies : list (Z * Z);    (* pid and wait status *)
  sim_fork_ok : bool;
  sim_uid : Z;
  sim_gid : Z;
  sim_passwd : option (Z * Z);   (* what getpwnam finds *)
}.

Definition sim_set_children (v : list Z) (k : Sim) : Sim :=
  mkSim (sim_time k) v (sim_zombies k) (sim_fork_ok k) (sim_uid k) (sim_gid k) (sim_passwd k).
Definition sim_set_zombies (v : list (Z * Z)) (k : Sim) : Sim :=
  mkSim (sim_time k) (sim_children k) v (sim_fork_ok k) (sim_uid k) (sim_gid k) (sim_passwd k).
Definition sim_set_ids (u g : Z) (k : Sim) : Sim :=
  mkSim (sim_time k) (sim_children k) (sim_zombies k) (sim_fork_ok k) u g (sim_passwd k).

Definition sim_tick (ns : Z) (k : Sim) : Sim :=
  mkSim (sim_time k + ns) (sim_children k) (sim_zombies k) (sim_fork_ok k) (sim_uid k) (sim_gid k) (sim_passwd k).

(** What every file holds. *)
Definition sim_file : bytes :=
  #"[supervisord]" ++ [LF] ++ #"logfile=/tmp/d.log" ++ [LF] ++
  #"[program:web]" ++ [LF] ++ #"command=/bin/web -v ; a comment" ++ [LF] ++
  #"stdout_logfile=/tmp/%(program_name)s.log" ++ [LF].

(** A process id no child has. *)
Definition sim_fresh (l : list Z) : Z := foldr (λ a b, Z.max (a + 1) b) 1000 l.

Definition sim_kill (pid sig : Z) (k : Sim) : Z * Sim :=
  if bool_decide (pid ∈ sim_children k)
  then (0, sim_set_zombies (sim_zombies k ++ [(pid, sig)]) k)
  else (-1, k).

(** [waitpid] for one child waits until it is dead; for any child it takes
    a zombie, if there is one. *)
Definition sim_wait (p : Z) (k : Sim) : (Z * Z) * Sim :=
  let alive := filter (λ z, z.1 ∈ sim_children k ∧ (0 < p → z.1 = p)) (sim_zombies k) in
  let reap pid st :=
    ((pid, st),
     sim_set_children (filter (λ c, c ≠ pid) (sim_children k))
       (sim_set_zombies (filter (λ z, z.1 ≠ pid) (sim_zombies k)) k)) in
  if decide (0 < p) then
    if bool_decide (p ∈ sim_children k)
    then reap p (match alive with (_, st) :: _ => st | [] => 0 end)
    else ((-1, 0), k)
  else
    match alive with
    | (pid, st) :: _ => if 0 <? pid then reap pid st else ((-1, 0), k)
    | [] => ((if bool_decide (sim_children k = []) then -1 else 0, 0), k)
    end.

#[global] Instance sim_kernel : Kernel Sim := λ c k,
  match c return answer c * Sim with
  | SteadyNow => (sim_time k, k)
  | SystemNow => (sim_time k, k)
  | Pipe2 => (Some (100, 101), k)
  | Close _ => (tt, k)
  | Dup2 _ dst => (dst, k)
  | GetFlags _ => (0, k)
  | SetFlags _ _ => (0, k)
  | AssignStream _ => (true, k)
  | AsyncRead _ => (tt, k)
  | RunFor ms => (tt, sim_tick (Z.max 1 (ms * 1000000)) k)
  | Fork =>
    if sim_fork_ok k
    then let pid := sim_fresh (sim_children k) in
         (pid, sim_set_children (sim_children k ++ [pid]) k)
    else (-1, k)
  | Kill pid sig => sim_kill pid sig k
  | Waitpid p _ => sim_wait p k
  | SignalDefault _ => (tt, k)
  | Execvp _ => (true, k)
  | Getuid => (sim_uid k, k)
  | Geteuid => (sim_uid k, k)
  | Getgid => (sim_gid k, k)
  | Getegid => (sim_gid k, k)
  | Getpwnam _ => (sim_passwd k, k)
  | Initgroups _ _ => (if sim_uid k =? 0 then 0 else -1, k)
  | Setgid g => if (sim_uid k =? 0) || (sim_gid k =? g) then (0, sim_set_ids (sim_uid k) g k) else (-1, k)
  | Setuid u => if (sim_uid k =? 0) || (sim_uid k =? u) then (0, sim_set_ids u (sim_gid k) k) else (-1, k)
  | Getrlimit => (Some (Some 64), k)
  | Chdir _ => (0, k)
  | Setenv _ _ => (0, k)
  | SetUmask _ => (0, k)
  | Stat p => (Some (mkStat (if bool_decide (p = #"/run") then 16877 else 33261) 0), k)
  | Lstat _ => (Some (mkStat 33188 0), k)
  | Chmod _ _ => (0, k)
  | Exists _ => (Ok true, k)
  | Canonical p => (Ok p, k)
  | WeaklyCanonical p => (Ok p, k)
  | CurrentPath => (Ok #"/", k)
  | TempDirectory => (Ok #"/tmp", k)
  | Unlink _ => (0, k)
  | IsDirectory _ => (Ok true, k)
  | DirectoryFiles _ => (Ok [], k)
  | ReadFile _ => (Some sim_file, k)
  | Getpid => (1, k)
  | OpenTruncated _ => (3, k)
  | Flock _ => (0, k)
  | WriteFd _ s => (Z.of_nat (length s), k)
  | RemoveFile _ => (true, k)
  | Connect _ => (false, k)
  | AcceptorOpen => (Ok tt, k)
  | AcceptorBind _ => (Ok tt, k)
  | AcceptorListen => (Ok tt, k)
  | AcceptorClose => (tt, k)
  | Strerror => (#"error", k)
  end.

Lemma sim_fresh_gt l c : c ∈ l → c < sim_fresh l.
Proof. induction 1; simpl; lia. Qed.

Lemma sim_fresh_pos l : 1000 ≤ sim_fresh l.
Proof. induction l; simpl; lia. Qed.

Lemma sim_children_quiet c k r k' :
  sys c k = (r, k') → (∀ p b, c ≠ Waitpid p b) → c ≠ Fork → sim_children k' = sim_children k.
Proof.
  intros Hs Hw Hf. unfold sys in Hs.
  destruct c; cbn in Hs; unfold sim_kill in *; repeat case_match; try congruence;
    simplify_eq/=; try done; by destruct (Hw pid nohang).
Qed.

Lemma sim_time_mono c k r k' : sys c k = (r, k') → sim_time k ≤ sim_time k'.
Proof.
  intros Hs. unfold sys in Hs.
  destruct c; cbn in Hs; unfold sim_kill, sim_wait in *; repeat case_match; simplify_eq/=; lia.
Qed.

#[global] Program Instance sim_laws : KernelLaws Sim := {|
  children k := list_to_set (sim_children k);
  clock := sim_time;
|}.
Next Obligation.
  intros k r k' Hs. cbn in Hs. destruct (sim_fork_ok k); simplify_eq/=; [|by split].
  pose proof (sim_fresh_pos (sim_children k)).
  split; [lia|]. destruct (Z.ltb_spec 0 (sim_fresh (sim_children k))); [|lia].
  split; [|set_solver].
  intros Hin%elem_of_list_to_set%sim_fresh_gt. lia.
Qed.
Next Obligation.
  intros p b k pid st k' Hs. cbn in Hs. unfold sim_wait in Hs.
  case_decide as Hp.
  - case_bool_decide as Hin; simplify_eq/=; [|done].
    destruct (Z.ltb_spec 0 pid); [|lia]. split_and!; [set_solver| |done].
    apply leibniz_equiv. intros x. rewrite elem_of_difference, elem_of_singleton, !elem_of_list_to_set, list_elem_of_filter. tauto.
  - destruct (filter _ (sim_zombies k)) as [|[q st'] l] eqn:E; [by case_bool_decide; simplify_eq/=|].
    assert (Hq : (q, st') ∈ filter (λ z, z.1 ∈ sim_children k ∧ (0 < p → z.1 = p)) (sim_zombies k)).
    { rewrite E. left. }
    apply list_elem_of_filter in Hq as [[Hq _] _]. simpl in Hq.
    destruct (0 <? q) eqn:Eq; simplify_eq/=; [|done]. rewrite Eq.
    split_and!; [set_solver| |lia].
    apply leibniz_equiv. intros x. rewrite elem_of_difference, elem_of_singleton, !elem_of_list_to_set, list_elem_of_filter. tauto.
Qed.
Next Obligation. intros c k r k' Hs Hw Hf. simpl. by rewrite (sim_children_quiet c k r k'). Qed.
Next Obligation. intros k t k' Hs. cbn in Hs. by simplify_eq/=. Qed.
Next Obligation. intros ms k r k' Hs. cbn in Hs. simplify_eq/=. lia. Qed.
Next Obligation. intros c k r k' Hs. by eapply sim_time_mono. Qed.

(** A root daemon with no child, at time 0. *)
Definition sim0 : Sim := mkSim 0 [] [] true 0 0 (Some (33, 33)).
Definition world0 : World Sim := mkWorld sim0 (mkFS ∅ ∅ []) [] no_statics.

(** The world [ns] nanoseconds later. *)
Definition later (ns : Z) (w : World Sim) : World Sim :=
  mkWorld (sim_tick ns (wk w)) (wfs w) (wtrace w) (wstatics w).
