(* ===== verification/Secure.v ===== *)
(** * util/secure.{h,cpp}

    The security checks: paths, configuration files, commands, signal
    names, environments, inherited descriptors, the socket, and the
    privilege drop.  The answers of [stat], [canonical], [getuid], ... come
    from the kernel. *)

From Stdlib Require Import ZArith NArith Ascii String.
From stdpp Require Import base gmap sets list strings.
From S2P Require Import Prelude CppString StdMap Files Kernel.

(** Bits of [st_mode]. *)
Definition S_IFMT : Z := 61440.
Definition S_IFREG : Z := 32768.
Definition S_IFLNK : Z := 40960.
Definition S_IFDIR : Z := 16384.
Definition S_IRUSR : Z := 256.
Definition S_IWUSR : Z := 128.
Definition S_IXUSR : Z := 64.
Definition S_IXGRP : Z := 8.
Definition S_IXOTH : Z := 1.
Definition S_IWOTH : Z := 2.
Definition S_ISREG (m : Z) : bool := Z.land m S_IFMT =? S_IFREG.
Definition S_ISLNK (m : Z) : bool := Z.land m S_IFMT =? S_IFLNK.
Definition S_ISDIR (m : Z) : bool := Z.land m S_IFMT =? S_IFDIR.

Definition security_error {S A} (msg : bytes) : M S A := throw (mkExn SecurityError msg).

(** [p / q] on paths. *)
Definition path_join (p q : bytes) : bytes :=
  if starts_with [SLASH] q then q
  else if bool_decide (p = []) || bool_decide (last p = Some SLASH) then p ++ q
  else p ++ [SLASH] ++ q.

(** [try { m } catch (const fs::filesystem_error&) { h }]. *)
Definition catch_filesystem {S A} (m h : M S A) : M S A :=
  try_catch m (λ e, if decide (exn_of e = FilesystemError) then h else throw e).

Definition catch_security {S A} (m : M S A) (h : exn → M S A) : M S A :=
  try_catch m (λ e, if decide (exn_of e = SecurityError) then h e else throw e).

Section secure.
Context {K : Type} `{!Kernel K}.
Local Abbreviation W A := (M (World K) A).

Definition canonical (p : bytes) : W bytes :=
  r ← do_call (Canonical p); lift_result r.
Definition weakly_canonical (p : bytes) : W bytes :=
  r ← do_call (WeaklyCanonical p); lift_result r.
Definition path_exists (p : bytes) : W bool :=
  r ← do_call (Exists p); lift_result r.

Definition current_path : W bytes :=
  r ← do_call CurrentPath; lift_result r.
Definition temp_directory_path : W bytes :=
  r ← do_call TempDirectory; lift_result r.

Definition validate_canonicalize_path (path allowed_prefix : bytes) : W bytes :=
  canonical ←
    catch_filesystem (canonical path)
      (parent ← (let parent := parent_path path in
                 if bool_decide (parent = []) then current_path else mret parent);
       catch_filesystem
         (c ← canonical parent; mret (path_join c (filename path)))
         (security_error (#"Cannot resolve path: " ++ path)));
  if bool_decide (find allowed_prefix canonical = Some O) then mret canonical
  else security_error (#"Path escapes allowed directory: " ++ path ++ #" (resolved to: "
         ++ canonical ++ #", allowed prefix: " ++ allowed_prefix ++ #")").

Definition validate_config_file_security (config_file : bytes) : W unit :=
  there ← path_exists config_file;
  if negb there then security_error (#"Config file does not exist: " ++ config_file) else
  st ← do_call (Lstat config_file);
  match st with
  | None => security_error (#"Cannot stat config file: " ++ config_file)
  | Some st =>
    if negb (S_ISREG (st_mode st))
    then security_error (#"Config file must be a regular file: " ++ config_file) else
    uid ← do_call Getuid;
    if negb (st_uid st =? uid)
    then security_error (#"Config file must be owned by root (UID 0): " ++ config_file) else
    if negb (Z.land (st_mode st) S_IWOTH =? 0)
    then security_error (#"Config file must not be world-writable: " ++ config_file) else
    mret tt
  end.

(** The loop over the prefixes of [validate_path_in_allowed_dirs]. *)
Fixpoint try_prefixes (path : bytes) (dirs : list bytes) (otherwise : W bytes) : W bytes :=
  match dirs with
  | [] => otherwise
  | prefix :: dirs =>
    catch_security (validate_canonicalize_path path prefix)
      (λ _, try_prefixes path dirs otherwise)
  end.

(** The directories, separated by commas. *)
Definition join_dirs (dirs : list bytes) : bytes :=
  foldl (λ acc dir, (if bool_decide (acc = []) then acc else acc ++ #", ") ++ dir) [] dirs.

Definition validate_path_in_allowed_dirs (path : bytes) (allowed_dirs : list bytes)
    (description : bytes) : W bytes :=
  try_prefixes path allowed_dirs
    (security_error (description ++ #" must be under " ++ join_dirs allowed_dirs
                     ++ #" - got: " ++ path)).

Definition weakly_canonical_all (paths : list bytes) : W (list bytes) :=
  foldr (λ p rest, c ← weakly_canonical p; cs ← rest; mret (c :: cs)) (mret []) paths.

(** [names] and the directory for temporary files. *)
Definition allowed_dirs (names : list bytes) : W (list bytes) :=
  dirs ← weakly_canonical_all names;
  tmp ← temp_directory_path;
  tmp ← weakly_canonical tmp;
  mret (dirs ++ [tmp]).

Definition set_log_dirs (dirs : list bytes) (w : World K) : World K :=
  mkWorld (wk w) (wfs w) (wtrace w) (mkStatics (Some dirs) (pidfile_dirs (wstatics w))).
Definition set_pidfile_dirs (dirs : list bytes) (w : World K) : World K :=
  mkWorld (wk w) (wfs w) (wtrace w) (mkStatics (log_dirs (wstatics w)) (Some dirs)).

(** A static variable of a function: an initialisation that throws is tried
    again at the next use. *)
Definition static {A} (variable : Statics → option A) (store : A → World K → World K) (init : W A) : W A :=
  v ← gets (λ w, variable (wstatics w));
  match v with
  | Some a => mret a
  | None => a ← init; modify (store a) ;; mret a
  end.

Definition validate_log_path (log_path : bytes) : W bytes :=
  allowed ← static log_dirs set_log_dirs (allowed_dirs [ #"/var/log"; #"/tmp"]);
  validate_path_in_allowed_dirs log_path allowed #"Log file".

Definition validate_pidfile_path (pidfile_path : bytes) : W bytes :=
  if negb (starts_with [SLASH] pidfile_path)
  then security_error (#"Pidfile path must be absolute: " ++ pidfile_path) else
  allowed ← static pidfile_dirs set_pidfile_dirs (allowed_dirs [ #"/run"; #"/var/run"; #"/tmp"]);
  validate_path_in_allowed_dirs pidfile_path allowed #"Pidfile".

Definition validate_command_path (command : bytes) : W unit :=
  let cmd_path := match find_first (λ c, char_eqb c SPACE) command with
                  | Some i => take i command
                  | None => command
                  end in
  if negb (bool_decide (head cmd_path = Some SLASH))
  then security_error (#"Command must be an absolute path: " ++ command) else
  st ← do_call (Stat cmd_path);
  match st with
  | None => security_error (#"Command not found: " ++ cmd_path)
  | Some st =>
    if negb (S_ISREG (st_mode st)) && negb (S_ISLNK (st_mode st))
    then security_error (#"Command must be a regular file: " ++ cmd_path) else
    if Z.land (st_mode st) (Z.lor S_IXUSR (Z.lor S_IXGRP S_IXOTH)) =? 0
    then security_error (#"Command is not executable: " ++ cmd_path) else
    mret tt
  end.

(** [for (int fd = 3; fd < max_fd; fd++) close(fd);] *)
Definition close_inherited_fds : W unit :=
  rl ← do_call Getrlimit;
  match rl with
  | None => mret tt
  | Some rlim_max =>
    let max_fd := match rlim_max with None => 1024 | Some n => to_int n end in
    mfor (seqZ 3 (max_fd - 3)) (λ fd, do_call (Close fd))
  end.

Definition validate_socket_directory (socket_path : bytes) : W unit :=
  let dir := parent_path socket_path in
  st ← do_call (Stat dir);
  match st with
  | None => security_error (#"Socket directory does not exist: " ++ dir)
  | Some st =>
    if negb (S_ISDIR (st_mode st))
    then security_error (#"Socket path parent is not a directory: " ++ dir) else
    if negb (Z.land (st_mode st) S_IWOTH =? 0)
    then security_error (#"Socket directory must not be world-writable: " ++ dir) else
    mret tt
  end.

Definition set_socket_permissions (socket_path : bytes) : W unit :=
  r ← do_call (Chmod socket_path (Z.lor S_IRUSR S_IWUSR));
  if negb ((r : Z) =? 0)
  then security_error (#"Failed to set socket permissions: " ++ socket_path) else mret tt.

Definition mismatch (what : bytes) (expected real effective : Z) : bytes :=
  #"Privilege drop failed: " ++ what ++ #" mismatch (expected " ++ to_string expected
  ++ #", got real=" ++ to_string real ++ #", effective=" ++ to_string effective ++ #")".

Definition verify_privilege_drop (expected_uid expected_gid : Z) : W unit :=
  real_uid ← do_call Getuid;
  effective_uid ← do_call Geteuid;
  real_gid ← do_call Getgid;
  effective_gid ← do_call Getegid;
  if negb (real_uid =? expected_uid) || negb (effective_uid =? expected_uid)
  then security_error (mismatch #"UID" expected_uid real_uid effective_uid) else
  if negb (real_gid =? expected_gid) || negb (effective_gid =? expected_gid)
  then security_error (mismatch #"GID" expected_gid real_gid effective_gid) else
  mret tt.
End secure.

Definition valid_signals : list bytes :=
  [ #"TERM"; #"HUP"; #"INT"; #"QUIT"; #"KILL"; #"USR1"; #"USR2"; #"ABRT"; #"ALRM"; #"CONT"; #"STOP"].

Definition validate_signal (signal_name : bytes) : result unit :=
  if bool_decide (signal_name ∈ valid_signals) then Ok tt
  else Err (mkExn InvalidArgument (#"Invalid signal name: " ++ signal_name)).

Definition valid_key (key : bytes) : bool :=
  negb (bool_decide (key = [])) && forallb (λ c, isalnum c || char_eqb c "_"%char) key.

(** The body of the loop, which inserts the entries that pass into a new map. *)
Definition sanitize_entry (sanitized : smap bytes) (entry : bytes * bytes) : smap bytes :=
  let '(key, value) := entry in
  if negb (valid_key key) then sanitized
  else if bool_decide (NUL ∈ value) then sanitized
  else sm_set key value sanitized.

Definition sanitize_environment (env : smap bytes) : smap bytes :=
  foldl sanitize_entry [] env.
