(* ===== verification/Process.v ===== *)
(** * process/process.{h,cpp}

    One supervised process: its record, the operations [start], [stop],
    [kill], [on_exit], [update], the status it reports, how it spawns the
    child and what the child does until [exec], and the reading of its
    output.  The logging statements are left out. *)

From Stdlib Require Import ZArith NArith Ascii String.
From stdpp Require Import base gmap sets list strings.
From S2P Require Import Prelude CppString StdMap ConfigTypes Files LogWriter Kernel Secure.

(** ** Data *)

Inductive State := STOPPED | STARTING | RUNNING | BACKOFF | STOPPING | EXITED | FATAL.

#[global] Instance State_eq_dec : EqDecision State.
Proof. solve_decision. Defined.

(** [static_cast<int>(state)] *)
Definition state_code (s : State) : Z :=
  match s with
  | STOPPED => 0 | STARTING => 10 | RUNNING => 20 | BACKOFF => 30
  | STOPPING => 40 | EXITED => 100 | FATAL => 200
  end.

(** [operator<<] on [State] *)
Definition state_name (s : State) : bytes :=
  match s with
  | STOPPED => #"STOPPED" | STARTING => #"STARTING" | RUNNING => #"RUNNING"
  | BACKOFF => #"BACKOFF" | STOPPING => #"STOPPING" | EXITED => #"EXITED"
  | FATAL => #"FATAL"
  end.

(** An asio [stream_descriptor]. *)
Record Stream := mkStream { stream_fd : Z; stream_open : bool }.

Record Process := mkProcess {
  config_ : ProgramConfig;
  state_ : State;
  pid_ : Z;
  exitstatus_ : Z;
  retry_count_ : Z;
  spawn_error_ : bytes;
  start_time_ : Z;
  stop_time_ : Z;
  state_change_time_ : Z;
  stdout_log_writer_ : option LogWriter;
  stderr_log_writer_ : option LogWriter;
  stdout_stream_ : option Stream;
  stderr_stream_ : option Stream;
}.

Definition set_state (v : State) (p : Process) : Process :=
  mkProcess (config_ p) v (pid_ p) (exitstatus_ p) (retry_count_ p) (spawn_error_ p) (start_time_ p) (stop_time_ p) (state_change_time_ p) (stdout_log_writer_ p) (stderr_log_writer_ p) (stdout_stream_ p) (stderr_stream_ p).
Definition set_pid (v : Z) (p : Process) : Process :=
  mkProcess (config_ p) (state_ p) v (exitstatus_ p) (retry_count_ p) (spawn_error_ p) (start_time_ p) (stop_time_ p) (state_change_time_ p) (stdout_log_writer_ p) (stderr_log_writer_ p) (stdout_stream_ p) (stderr_stream_ p).
Definition set_exitstatus (v : Z) (p : Process) : Process :=
  mkProcess (config_ p) (state_ p) (pid_ p) v (retry_count_ p) (spawn_error_ p) (start_time_ p) (stop_time_ p) (state_change_time_ p) (stdout_log_writer_ p) (stderr_log_writer_ p) (stdout_stream_ p) (stderr_stream_ p).
Definition set_retry_count (v : Z) (p : Process) : Process :=
  mkProcess (config_ p) (state_ p) (pid_ p) (exitstatus_ p) v (spawn_error_ p) (start_time_ p) (stop_time_ p) (state_change_time_ p) (stdout_log_writer_ p) (stderr_log_writer_ p) (stdout_stream_ p) (stderr_stream_ p).
Definition set_spawn_error (v : bytes) (p : Process) : Process :=
  mkProcess (config_ p) (state_ p) (pid_ p) (exitstatus_ p) (retry_count_ p) v (start_time_ p) (stop_time_ p) (state_change_time_ p) (stdout_log_writer_ p) (stderr_log_writer_ p) (stdout_stream_ p) (stderr_stream_ p).
Definition set_start_time (v : Z) (p : Process) : Process :=
  mkProcess (config_ p) (state_ p) (pid_ p) (exitstatus_ p) (retry_count_ p) (spawn_error_ p) v (stop_time_ p) (state_change_time_ p) (stdout_log_writer_ p) (stderr_log_writer_ p) (stdout_stream_ p) (stderr_stream_ p).
Definition set_stop_time (v : Z) (p : Process) : Process :=
  mkProcess (config_ p) (state_ p) (pid_ p) (exitstatus_ p) (retry_count_ p) (spawn_error_ p) (start_time_ p) v (state_change_time_ p) (stdout_log_writer_ p) (stderr_log_writer_ p) (stdout_stream_ p) (stderr_stream_ p).
Definition set_state_change_time (v : Z) (p : Process) : Process :=
  mkProcess (config_ p) (state_ p) (pid_ p) (exitstatus_ p) (retry_count_ p) (spawn_error_ p) (start_time_ p) (stop_time_ p) v (stdout_log_writer_ p) (stderr_log_writer_ p) (stdout_stream_ p) (stderr_stream_ p).
Definition set_stdout_log_writer (v : option LogWriter) (p : Process) : Process :=
  mkProcess (config_ p) (state_ p) (pid_ p) (exitstatus_ p) (retry_count_ p) (spawn_error_ p) (start_time_ p) (stop_time_ p) (state_change_time_ p) v (stderr_log_writer_ p) (stdout_stream_ p) (stderr_stream_ p).
Definition set_stderr_log_writer (v : option LogWriter) (p : Process) : Process :=
  mkProcess (config_ p) (state_ p) (pid_ p) (exitstatus_ p) (retry_count_ p) (spawn_error_ p) (start_time_ p) (stop_time_ p) (state_change_time_ p) (stdout_log_writer_ p) v (stdout_stream_ p) (stderr_stream_ p).
Definition set_stdout_stream (v : option Stream) (p : Process) : Process :=
  mkProcess (config_ p) (state_ p) (pid_ p) (exitstatus_ p) (retry_count_ p) (spawn_error_ p) (start_time_ p) (stop_time_ p) (state_change_time_ p) (stdout_log_writer_ p) (stderr_log_writer_ p) v (stderr_stream_ p).
Definition set_stderr_stream (v : option Stream) (p : Process) : Process :=
  mkProcess (config_ p) (state_ p) (pid_ p) (exitstatus_ p) (retry_count_ p) (spawn_error_ p) (start_time_ p) (stop_time_ p) (state_change_time_ p) (stdout_log_writer_ p) (stderr_log_writer_ p) (stdout_stream_ p) v.

Record ProcessInfo := mkInfo {
  info_name : bytes;
  info_state : State;
  info_pid : Z;
  info_exitstatus : Z;
  info_stdout_logfile : bytes;
  info_stderr_logfile : bytes;
  info_spawnerr : bytes;
  info_now : Z;
  info_start : Z;
  info_stop : Z;
  info_description : bytes;
}.

(** Signals and wait statuses, as on Linux. *)
Definition SIGHUP : Z := 1.
Definition SIGINT : Z := 2.
Definition SIGQUIT : Z := 3.
Definition SIGKILL : Z := 9.
Definition SIGPIPE : Z := 13.
Definition SIGTERM : Z := 15.
Definition SIGCHLD : Z := 17.
Definition WTERMSIG (st : Z) : Z := Z.land st 127.
Definition WIFEXITED (st : Z) : bool := WTERMSIG st =? 0.
Definition WEXITSTATUS (st : Z) : Z := Z.shiftr (Z.land st 65280) 8.
(** [((signed char) ((st & 0x7f) + 1) >> 1) > 0] *)
Definition WIFSIGNALED (st : Z) : bool := (0 <? WTERMSIG st) && (WTERMSIG st <? 127).
Definition O_NONBLOCK : Z := 2048.
Definition STDOUT_FILENO : Z := 1.
Definition STDERR_FILENO : Z := 2.

(** [duration_cast<seconds>] of a difference of nanoseconds. *)
Definition NS : Z := 1000000000.
Definition in_seconds (ns : Z) : Z := Z.quot ns NS.

(** ** Pure operations *)

Definition should_autorestart (p : Process) : bool :=
  autorestart (config_ p) && negb (bool_decide (state_ p = FATAL)).

(** The signal [stop] sends. *)
Definition stop_signal (config : ProgramConfig) : Z :=
  let s := stopsignal config in
  if bool_decide (s = #"INT") then SIGINT
  else if bool_decide (s = #"QUIT") then SIGQUIT
  else if bool_decide (s = #"KILL") then SIGKILL
  else if bool_decide (s = #"HUP") then SIGHUP
  else SIGTERM.

(** The local variables of the loop of [parse_command_]. *)
Record tokenizer := mkTok {
  args : list bytes;
  current : bytes;
  in_quotes : bool;
  escape_next : bool;
}.

(** The body of the loop. *)
Definition tokenize_char (t : tokenizer) (c : ascii) : tokenizer :=
  if escape_next t then mkTok (args t) (current t ++ [c]) (in_quotes t) false
  else if char_eqb c BSLASH then mkTok (args t) (current t) (in_quotes t) true
  else if char_eqb c DQUOTE then mkTok (args t) (current t) (negb (in_quotes t)) (escape_next t)
  else if char_eqb c SPACE && negb (in_quotes t) then
    if negb (bool_decide (current t = []))
    then mkTok (args t ++ [current t]) [] (in_quotes t) (escape_next t)
    else t
  else mkTok (args t) (current t ++ [c]) (in_quotes t) (escape_next t).

Definition parse_command_ (command : bytes) : list bytes :=
  let t := foldl tokenize_char (mkTok [] [] false false) command in
  if negb (bool_decide (current t = [])) then args t ++ [current t] else args t.

(** Two digits, zero-filled: [setfill('0') << setw(2)]. *)
Definition two_digits (z : Z) : bytes :=
  let s := to_string z in replicate (2 - length s) "0"%char ++ s.

Definition describe (pid uptime : Z) : bytes :=
  #"pid " ++ to_string pid ++ #", uptime " ++ to_string (Z.quot uptime 3600) ++ #":"
  ++ two_digits (Z.quot (Z.rem uptime 3600) 60) ++ #":"
  ++ two_digits (Z.rem uptime 60).

(** The shift [1 << n] on [int]: modular since C++20, undefined for a
    negative count or one not below the width. *)
Definition shl_int {S} (n : Z) : M S Z :=
  if (0 <=? n) && (n <? 32) then mret (to_int (Z.shiftl 1 n)) else undef.

(** ** Operations *)

Section process.
Context {K : Type} `{!Kernel K}.
Local Abbreviation P A := (M (Process * World K) A).

Definition the {A} (f : Process → A) : P A := gets (λ s, f (fst s)).
Definition update_process (f : Process → Process) : P unit :=
  modify (λ s, (f (fst s), snd s)).
Definition in_world {A} (m : M (World K) A) : P A :=
  zoom snd (λ w s, (fst s, w)) m.
Definition call (c : call) : P (answer c) := in_world (do_call c).

Definition now : P Z := call SteadyNow.

Definition set_state_ (new_state : State) : P unit :=
  old ← the state_;
  if decide (new_state = old) then mret tt else
  update_process (set_state new_state) ;;
  t ← now;
  update_process (set_state_change_time t).

Definition set_spawn_error_ (error : bytes) : P unit :=
  update_process (set_spawn_error error).

(** [retry_count_++] *)
Definition count_retry : P unit :=
  n ← the retry_count_;
  n ← int_result (n + 1);
  update_process (set_retry_count n).

(** *** Reading the output of the child *)

Inductive channel := Stdout | Stderr.

Definition stream_of (ch : channel) : Process → option Stream :=
  match ch with Stdout => stdout_stream_ | Stderr => stderr_stream_ end.
Definition set_stream (ch : channel) : option Stream → Process → Process :=
  match ch with Stdout => set_stdout_stream | Stderr => set_stderr_stream end.
Definition writer_of (ch : channel) : Process → option LogWriter :=
  match ch with Stdout => stdout_log_writer_ | Stderr => stderr_log_writer_ end.
Definition set_writer (ch : channel) : option LogWriter → Process → Process :=
  match ch with Stdout => set_stdout_log_writer | Stderr => set_stderr_log_writer end.

(** A call on the log writer of the channel, if there is one. *)
Definition with_writer {A} (ch : channel) (m : M lw_state A) : P unit :=
  w ← the (writer_of ch);
  match w with
  | None => mret tt
  | Some w =>
    zoom (λ s, (w, wfs (snd s)))
         (λ t s, (set_writer ch (Some (fst t)) (fst s),
                  mkWorld (wk (snd s)) (snd t) (wtrace (snd s)) (wstatics (snd s)))) m ;;
    mret tt
  end.

(** [stream_->close(ec)] on an open stream. *)
Definition close_stream (ch : channel) : P unit :=
  st ← the (stream_of ch);
  match st with
  | Some (mkStream fd true) =>
    call (Close fd) ;;
    update_process (set_stream ch (Some (mkStream fd false)))
  | _ => mret tt
  end.

Definition start_read (ch : channel) : P unit :=
  st ← the (stream_of ch);
  match st with
  | Some (mkStream fd true) => call (AsyncRead fd)
  | _ => mret tt
  end.
Definition start_stdout_read_ : P unit := start_read Stdout.
Definition start_stderr_read_ : P unit := start_read Stderr.

(** The completion handler of a read: [error] is whether it failed (end of
    file, cancellation or another error), [data] the bytes transferred. *)
Definition handle_read (ch : channel) (error : bool) (data : bytes) : P unit :=
  if error then
    close_stream ch ;;
    with_writer ch flush
  else
    (if bool_decide (data = []) then mret tt else with_writer ch (write data)) ;;
    start_read ch.
Definition handle_stdout_read_ : bool → bytes → P unit := handle_read Stdout.
Definition handle_stderr_read_ : bool → bytes → P unit := handle_read Stderr.

(** *** In the child, between [fork] and [exec] *)

Definition setup_working_directory_ : P bool :=
  dir ← the (λ p, directory (config_ p));
  match dir with
  | None => mret true
  | Some dir =>
    r ← call (Chdir dir);
    mret (negb ((r : Z) <? 0))
  end.

Definition setup_environment_ : P unit :=
  config ← the config_;
  call (Setenv #"SUPERVISOR_ENABLED" #"1") ;;
  call (Setenv #"SUPERVISOR_PROCESS_NAME" (name config)) ;;
  call (Setenv #"SUPERVISOR_GROUP_NAME" (name config)) ;;
  mfor (environment config) (λ '(key, value), call (Setenv key value) ;; mret tt).

Definition switch_user_ : P bool :=
  user ← the (λ p, user (config_ p));
  if bool_decide (user = []) || bool_decide (user = #"root") then mret true else
  uid ← call Getuid;
  if negb ((uid : Z) =? 0) then mret true else
  pwd ← call (Getpwnam user);
  match (pwd : option (Z * Z)) with
  | None => mret false
  | Some (pw_uid, pw_gid) =>
    r ← call (Initgroups user pw_gid);
    if (r : Z) <? 0 then mret false else
    r ← call (Setgid pw_gid);
    if (r : Z) <? 0 then mret false else
    r ← call (Setuid pw_uid);
    if (r : Z) <? 0 then mret false else
    catch_security
      (in_world (verify_privilege_drop pw_uid pw_gid) ;; mret true)
      (λ _, mret false)
  end.

(** Returns only when [execvp] failed. *)
Definition setup_child_process_ : P unit :=
  call (SignalDefault SIGPIPE) ;;
  call (SignalDefault SIGCHLD) ;;
  call (SignalDefault SIGTERM) ;;
  call (SignalDefault SIGINT) ;;
  in_world close_inherited_fds ;;
  ok ← setup_working_directory_;
  (if (ok : bool) then mret tt else die (HExit 126)) ;;
  setup_environment_ ;;
  mask ← the (λ p, umask (config_ p));
  (match mask with Some mode => call (SetUmask mode) ;; mret tt | None => mret tt end) ;;
  ok ← switch_user_;
  (if (ok : bool) then mret tt else die (HExit 125)) ;;
  argv ← the (λ p, parse_command_ (command (config_ p)));
  done ← call (Execvp argv);
  if (done : bool) then die (HExec argv) else mret tt.

(** The branch of [spawn_] the child takes. *)
Definition child_branch (stdout_pipe stderr_pipe : option (Z * Z)) : P unit :=
  redirect ← the (λ p, redirect_stderr (config_ p));
  (if stdout_pipe is Some (r, _) then call (Close r) else mret tt) ;;
  (if stderr_pipe is Some (r, _) then call (Close r) else mret tt) ;;
  (if stdout_pipe is Some (_, w) then
     call (Dup2 w STDOUT_FILENO) ;; call (Close w)
   else mret tt) ;;
  (if redirect && bool_decide (is_Some stdout_pipe) then
     call (Dup2 STDOUT_FILENO STDERR_FILENO) ;; mret tt
   else if stderr_pipe is Some (_, w) then
     call (Dup2 w STDERR_FILENO) ;; call (Close w)
   else mret tt) ;;
  setup_child_process_ ;;
  die (HExit 127).

(** *** In the parent *)

Definition close_pipe (pipe : option (Z * Z)) : P unit :=
  if pipe is Some (r, w) then call (Close r) ;; call (Close w) else mret tt.

(** Start reading the pipe asynchronously, or close its read end.  The new
    [stream_descriptor] replaces, and so closes, the one the process had. *)
Definition attach (ch : channel) (pipe : option (Z * Z)) : P unit :=
  w ← the (writer_of ch);
  match pipe, w with
  | Some (r, _), Some _ =>
    flags ← call (GetFlags r);
    call (SetFlags r (Z.lor flags O_NONBLOCK)) ;;
    assigned ← call (AssignStream r);
    if (assigned : bool) then
      close_stream ch ;;
      update_process (set_stream ch (Some (mkStream r true))) ;;
      start_read ch
    else call (Close r)
  | Some (r, _), None => call (Close r)
  | None, _ => mret tt
  end.

(** The read end and write end, or [None] when no pipe is wanted; the
    result is [None] when [pipe2] fails. *)
Definition open_pipe (wanted : bool) : P (option (option (Z * Z))) :=
  if wanted then
    r ← call Pipe2;
    mret (match r with Some fds => Some (Some fds) | None => None end)
  else mret (Some None).

Definition spawn_failed (what : bytes) : P unit :=
  err ← call Strerror;
  set_spawn_error_ (what ++ err).

Definition spawn_ : P Z :=
  update_process (set_spawn_error []) ;;
  config ← the config_;
  stdout_pipe ← open_pipe (bool_decide (is_Some (file (stdout_log config))));
  match stdout_pipe with
  | None => spawn_failed #"Failed to create stdout pipe: " ;; mret (-1)
  | Some stdout_pipe =>
  stderr_pipe ← open_pipe (negb (redirect_stderr config)
                           && bool_decide (is_Some (file (stderr_log config))));
  match stderr_pipe with
  | None =>
    spawn_failed #"Failed to create stderr pipe: " ;;
    close_pipe stdout_pipe ;;
    mret (-1)
  | Some stderr_pipe =>
  child_pid ← call Fork;
  if (child_pid : Z) <? 0 then
    spawn_failed #"Fork failed: " ;;
    close_pipe stdout_pipe ;;
    close_pipe stderr_pipe ;;
    mret (-1)
  else
  (if child_pid =? 0 then child_branch stdout_pipe stderr_pipe else mret tt) ;;
  (if stdout_pipe is Some (_, w) then call (Close w) else mret tt) ;;
  (if stderr_pipe is Some (_, w) then call (Close w) else mret tt) ;;
  attach Stdout stdout_pipe ;;
  attach Stderr stderr_pipe ;;
  mret child_pid
  end
  end.

(** A failed start or an early exit: count it, and give up after
    [startretries]. *)
Definition retry_or_give_up : P unit :=
  count_retry ;;
  p ← the (λ p, p);
  if startretries (config_ p) <=? retry_count_ p then set_state_ FATAL
  else set_state_ BACKOFF.

Definition start : P bool :=
  st ← the state_;
  if decide (st = RUNNING ∨ st = STARTING) then mret true else
  child_pid ← spawn_;
  if child_pid <? 0 then
    retry_or_give_up ;;
    mret false
  else
    update_process (set_pid child_pid) ;;
    t ← now;
    update_process (set_start_time t) ;;
    set_state_ STARTING ;;
    mret true.

Definition stop : P bool :=
  p ← the (λ p, p);
  if (pid_ p <=? 0) || bool_decide (state_ p = STOPPED) then mret false else
  set_state_ STOPPING ;;
  t ← now;
  update_process (set_stop_time t) ;;
  r ← call (Kill (pid_ p) (stop_signal (config_ p)));
  mret ((r : Z) =? 0).

Definition kill : P unit :=
  pid ← the pid_;
  if pid <=? 0 then mret tt else
  call (Kill pid SIGKILL) ;;
  call (Waitpid pid false) ;;
  update_process (set_pid (-1)) ;;
  set_state_ STOPPED.

Definition on_exit (exit_status : Z) : P unit :=
  update_process (set_exitstatus exit_status) ;;
  (if WIFEXITED exit_status then update_process (set_exitstatus (WEXITSTATUS exit_status))
   else if WIFSIGNALED exit_status then update_process (set_exitstatus (- WTERMSIG exit_status))
   else mret tt) ;;
  update_process (set_pid (-1)) ;;
  p ← the (λ p, p);
  if decide (state_ p = STOPPING) then
    set_state_ STOPPED ;;
    update_process (set_retry_count 0)
  else if should_autorestart p then
    if decide (state_ p = STARTING) then retry_or_give_up
    else set_state_ BACKOFF
  else set_state_ EXITED.

Definition update : P unit :=
  t ← now;
  p ← the (λ p, p);
  let elapsed := in_seconds (t - state_change_time_ p) in
  match state_ p with
  | STARTING =>
    if startsecs (config_ p) <=? elapsed then
      set_state_ RUNNING ;;
      update_process (set_retry_count 0)
    else mret tt
  | STOPPING =>
    if stopwaitsecs (config_ p) <=? elapsed then
      call (Kill (pid_ p) SIGKILL) ;; mret tt
    else mret tt
  | BACKOFF =>
    shifted ← shl_int (retry_count_ p);
    let delay := Z.min shifted 60 in
    if delay <=? elapsed then start ;; mret tt else mret tt
  | _ => mret tt
  end.

Definition get_uptime : P Z :=
  p ← the (λ p, p);
  if decide (state_ p = RUNNING ∨ state_ p = STARTING) then
    t ← now;
    mret (to_int (in_seconds (t - start_time_ p)))
  else mret 0.

Definition get_info : P ProcessInfo :=
  p ← the (λ p, p);
  let config := config_ p in
  sys_now ← call SystemNow;
  let info start description :=
    mkInfo (name config) (state_ p) (pid_ p) (exitstatus_ p)
      (default [] (file (stdout_log config))) (default [] (file (stderr_log config)))
      (spawn_error_ p) (in_seconds sys_now) start 0 description in
  if decide (state_ p = RUNNING ∨ state_ p = STARTING) then
    sys_now' ← call SystemNow;
    t ← now;
    uptime ← get_uptime;
    mret (info (in_seconds (sys_now' - (t - start_time_ p))) (describe (pid_ p) uptime))
  else mret (info 0 []).

(** The destructor: [kill] and the closing of the streams. *)
Definition destroy : P unit :=
  pid ← the pid_;
  (if 0 <? pid then kill else mret tt) ;;
  close_stream Stdout ;;
  close_stream Stderr ;;
  (* the members: a stream closes in its own destructor, a writer flushes *)
  with_writer Stderr closeNL_ ;;
  with_writer Stdout closeNL_.

(** The constructor. *)
Definition create_writer (log : Log) : M (World K) (option LogWriter) :=
  match file log with
  | None => mret None
  | Some path =>
    w ← zoom wfs (λ fs w, mkWorld (wk w) fs (wtrace w) (wstatics w))
          (new_log_writer path (file_maxbytes log) (file_backups log));
    mret (Some w)
  end.

Definition create (config : ProgramConfig) : M (World K) Process :=
  t ← do_call SteadyNow;
  out ← create_writer (stdout_log config);
  err ← create_writer (stderr_log config);
  mret (mkProcess config STOPPED (-1) 0 0 [] 0 0 t out err None None).
End process.

(** ** The state machine of a process

    The abstract state of a process, and the transitions between these
    states with the event that causes each.  The operations above refine
    it; the invariants are proved on it by induction on the rules. *)

Record Core := mkCore { c_state : State; c_pid : Z; c_retry : Z }.

Definition core (p : Process) : Core := mkCore (state_ p) (pid_ p) (retry_count_ p).

Inductive label := Spawned (pid : Z) | SpawnFailed | StopSent | Killed | Escalated | ChildExited | Started.

Definition retry_state (config : ProgramConfig) (n : Z) : State :=
  if startretries config <=? n then FATAL else BACKOFF.

Inductive step (config : ProgramConfig) : Core → label → Core → Prop :=
| step_spawned st pid n pid' :
    st ≠ RUNNING → st ≠ STARTING → 0 < pid' →
    step config (mkCore st pid n) (Spawned pid') (mkCore STARTING pid' n)
| step_spawn_failed st pid n :
    st ≠ RUNNING → st ≠ STARTING →
    step config (mkCore st pid n) SpawnFailed (mkCore (retry_state config (n + 1)) pid (n + 1))
| step_stop st pid n :
    st ≠ STOPPED → 0 < pid →
    step config (mkCore st pid n) StopSent (mkCore STOPPING pid n)
| step_kill st pid n :
    0 < pid →
    step config (mkCore st pid n) Killed (mkCore STOPPED (-1) n)
| step_escalate pid n :
    0 < pid →
    step config (mkCore STOPPING pid n) Escalated (mkCore STOPPING pid n)
| step_exit_stopped pid n :
    0 < pid →
    step config (mkCore STOPPING pid n) ChildExited (mkCore STOPPED (-1) 0)
| step_exit_early pid n :
    0 < pid → autorestart config = true →
    step config (mkCore STARTING pid n) ChildExited (mkCore (retry_state config (n + 1)) (-1) (n + 1))
| step_exit_crashed st pid n :
    st ≠ STOPPING → st ≠ STARTING → st ≠ FATAL → 0 < pid → autorestart config = true →
    step config (mkCore st pid n) ChildExited (mkCore BACKOFF (-1) n)
| step_exit_final st pid n :
    st ≠ STOPPING → autorestart config = false ∨ st = FATAL → 0 < pid →
    step config (mkCore st pid n) ChildExited (mkCore EXITED (-1) n)
| step_started pid n :
    step config (mkCore STARTING pid n) Started (mkCore RUNNING pid 0).

(** The states a process created with [config] can reach. *)
Inductive reachable (config : ProgramConfig) : Core → Prop :=
| reachable_new : reachable config (mkCore STOPPED (-1) 0)
| reachable_step c l c' : reachable config c → step config c l c' → reachable config c'.

(** What the fields of a process say of each other. *)
Record consistent (config : ProgramConfig) (c : Core) : Prop := mkConsistent {
  cons_alive : c_state c = STARTING ∨ c_state c = RUNNING ∨ c_state c = STOPPING → 0 < c_pid c;
  cons_dead : c_state c = STOPPED ∨ c_state c = EXITED → c_pid c = -1;
  cons_pid : c_pid c = -1 ∨ 0 < c_pid c;
  cons_running : c_state c = RUNNING → c_retry c = 0;
  cons_backoff : c_state c = BACKOFF → c_retry c = 0 ∨ c_retry c < startretries config;
  cons_fatal : c_state c = FATAL → startretries config ≤ c_retry c;
  cons_retry : 0 ≤ c_retry c;
}.

Lemma step_consistent config c l c' :
  consistent config c → step config c l c' → consistent config c'.
Proof.
  intros [Ha Hd Hp Hr Hb Hf Hn] Hs. destruct Hs; simpl in *;
    try (unfold retry_state; destruct (Z.leb_spec (startretries config) (n + 1)));
    constructor; simpl; try (intuition (congruence || lia)).
  all: intros _; destruct st; intuition (congruence || lia).
Qed.

Lemma reachable_consistent_aux config c : reachable config c → consistent config c.
Proof.
  induction 1 as [|c l c' _ IH Hs].
  - constructor; simpl; try (intuition (congruence || lia)).
  - by eapply step_consistent.
Qed.

(** What the exit of the child makes of the state. *)
Definition exit_core (config : ProgramConfig) (c : Core) : Core :=
  if decide (c_state c = STOPPING) then mkCore STOPPED (-1) 0
  else if autorestart config && negb (bool_decide (c_state c = FATAL)) then
    if decide (c_state c = STARTING)
    then mkCore (retry_state config (c_retry c + 1)) (-1) (c_retry c + 1)
    else mkCore BACKOFF (-1) (c_retry c)
  else mkCore EXITED (-1) (c_retry c).

(** The exit status reported for a wait status: the exit code, or the
    number of the signal negated. *)
Definition exit_code (status : Z) : Z :=
  if WIFEXITED status then WEXITSTATUS status
  else if WIFSIGNALED status then - WTERMSIG status
  else status.

(** ** The operations refine the state machine *)

(** What no operation of the state machine touches. *)
Definition fixed (p : Process) : ProgramConfig * option LogWriter * option LogWriter :=
  (config_ p, stdout_log_writer_ p, stderr_log_writer_ p).

Lemma fixed_config p q : fixed p = fixed q → config_ p = config_ q.
Proof. by intros [= -> _ _]. Qed.

(** Everything but the streams and the spawn error. *)
Definition sched (p : Process) : (ProgramConfig * option LogWriter * option LogWriter) * Core * (Z * Z * Z * Z) :=
  (fixed p, core p, (exitstatus_ p, start_time_ p, stop_time_ p, state_change_time_ p)).

Section refinement.
Context {K : Type} `{!Kernel K} {laws : KernelLaws K}.

(** [w'] follows [w] with no signal sent and no child created or reaped. *)
Definition quiet (w w' : World K) : Prop :=
  marks (wtrace w') = marks (wtrace w) ∧ children (wk w') = children (wk w)
  ∧ clock (wk w) ≤ clock (wk w').

#[global] Instance quiet_preorder : PreOrder quiet.
Proof.
  split; [by intros w; split_and!|].
  intros w1 w2 w3 (H1 & H2 & H3) (H4 & H5 & H6). split_and!; [congruence..|lia].
Qed.

Definition quiet_call (c : Kernel.call) : bool :=
  match c with Kernel.Kill _ _ | Fork | Waitpid _ _ => false | _ => true end.

Lemma quiet_sys c w r k :
  quiet_call c = true → sys c (wk w) = (r, k) →
  quiet w (mkWorld k (wfs w) (Ev c r :: wtrace w) (wstatics w)).
Proof.
  intros Hq Hs. split_and!; simpl.
  - by destruct c.
  - apply (children_law _ _ _ _ Hs); [by destruct c|by intros ->].
  - by eapply clock_law.
Qed.

(** A process and world that differ from [p0], [w0] in nothing the state
    machine speaks of. *)
Definition calm (p0 : Process) (w0 : World K) (s : Process * World K) : Prop :=
  sched s.1 = sched p0 ∧ quiet w0 s.2.

Lemma calm_refl p w : calm p w (p, w).
Proof. by split. Qed.

Lemma total_call p0 w0 c : quiet_call c = true → total (calm p0 w0) (call c).
Proof.
  intros Hq [p w] [Hp Hw]. unfold call, in_world, zoom, do_call. simpl in *.
  destruct (sys c (wk w)) as [r k] eqn:E. split; [done|].
  etransitivity; [exact Hw|]. by apply quiet_sys.
Qed.

Lemma total_update p0 w0 f :
  (∀ p, sched (f p) = sched p) → total (calm p0 w0) (update_process f).
Proof. intros Hf. apply total_modify. intros [p w] [Hp Hw]. split; simpl; [by rewrite Hf|done]. Qed.

Lemma total_the {A} p0 w0 (f : Process → A) : total (calm p0 w0) (the f).
Proof. apply total_gets. Qed.

#[local] Hint Resolve total_the : sup.

Ltac calmly := repeat (total_step || match goal with
  | |- @total _ _ _ (@call _ _ ?c) => apply (total_call _ _ c); reflexivity
  | |- total _ (update_process _) => apply total_update; reflexivity
  | |- total _ (match ?x with _ => _ end) => destruct x end).

Lemma total_close_stream p0 w0 ch : total (calm p0 w0) (close_stream ch).
Proof. unfold close_stream. destruct ch; calmly. Qed.

Lemma total_start_read p0 w0 ch : total (calm p0 w0) (start_read ch).
Proof. unfold start_read. calmly. Qed.

#[local] Hint Resolve total_close_stream total_start_read : sup.

Lemma total_attach p0 w0 ch pipe : total (calm p0 w0) (attach ch pipe).
Proof. unfold attach. destruct pipe as [[r wr]|], ch; calmly. Qed.

Lemma total_open_pipe p0 w0 b : total (calm p0 w0) (open_pipe b).
Proof. unfold open_pipe. calmly. Qed.

Lemma total_close_pipe p0 w0 pipe : total (calm p0 w0) (close_pipe pipe).
Proof. unfold close_pipe. calmly. Qed.

Lemma total_spawn_failed p0 w0 what : total (calm p0 w0) (spawn_failed what).
Proof. unfold spawn_failed, set_spawn_error_. calmly. Qed.

#[local] Hint Resolve total_attach total_open_pipe total_close_pipe total_spawn_failed : sup.

(** Running a statement the state machine does not see. *)
Lemma twp_calm {A B} (m : M (Process * World K) A) (k : A → M (Process * World K) B)
    p0 w0 (Q : B → Process * World K → Prop) s :
  total (calm p0 w0) m → calm p0 w0 s →
  (∀ a s', calm p0 w0 s' → twp (k a) Q s') → twp (m ≫= k) Q s.
Proof. intros Hm Hs Hk. by apply twp_bind, (twp_total (calm p0 w0)). Qed.

Lemma twp_the {A} (f : Process → A) (Q : A → Process * World K → Prop) s :
  Q (f s.1) s → twp (the f) Q s.
Proof. done. Qed.

Lemma twp_update (f : Process → Process) (Q : unit → Process * World K → Prop) p w :
  Q tt (f p, w) → twp (update_process f) Q (p, w).
Proof. done. Qed.

Lemma twp_call c (Q : answer c → Process * World K → Prop) p w :
  (∀ r k, sys c (wk w) = (r, k) → Q r (p, mkWorld k (wfs w) (Ev c r :: wtrace w) (wstatics w))) →
  twp (call c) Q (p, w).
Proof.
  intros HQ. unfold call, in_world, twp, zoom, do_call. simpl.
  destruct (sys c (wk w)) as [r k] eqn:E. by apply HQ.
Qed.

Lemma twp_now (Q : Z → Process * World K → Prop) p w :
  (∀ t w', quiet w w' → clock (wk w) ≤ t → clock (wk w') = t → Q t (p, w')) →
  twp now Q (p, w).
Proof.
  intros HQ. apply (twp_call SteadyNow). intros t k E.
  pose proof (steady_law _ _ _ E) as [? ?].
  apply HQ; [|done|done]. by apply (quiet_sys SteadyNow).
Qed.

(** [set_state_] assigns the state, and stamps the change if there is one. *)
Lemma twp_set_state st (Q : unit → Process * World K → Prop) p w :
  (∀ t w', quiet w w' → clock (wk w) ≤ t → clock (wk w') = t → st ≠ state_ p →
     Q tt (set_state_change_time t (set_state st p), w')) →
  (st = state_ p → Q tt (p, w)) →
  twp (set_state_ st) Q (p, w).
Proof.
  intros Hne Heq. unfold set_state_. apply twp_bind, twp_the. simpl.
  apply twp_decide; intros Hst; [by apply twp_ret, Heq|].
  apply twp_bind, twp_update, twp_bind, twp_now. intros t w' Hw Ht Ht'.
  apply twp_update. auto.
Qed.

(** What the operating system sees of a transition. *)
Definition effect (config : ProgramConfig) (l : label) (c : Core) (w w' : World K) : Prop :=
  clock (wk w) ≤ clock (wk w') ∧
  match l with
  | Spawned pid =>
    marks (wtrace w') = MForked pid :: marks (wtrace w)
    ∧ (pid ∉ children (wk w)) ∧ children (wk w') = {[ pid ]} ∪ children (wk w)
  | StopSent =>
    marks (wtrace w') = MSignal (c_pid c) (stop_signal config) :: marks (wtrace w)
    ∧ children (wk w') = children (wk w)
  | Escalated =>
    marks (wtrace w') = MSignal (c_pid c) SIGKILL :: marks (wtrace w)
    ∧ children (wk w') = children (wk w)
  | Killed =>
    (marks (wtrace w') = MSignal (c_pid c) SIGKILL :: marks (wtrace w)
     ∧ children (wk w') = children (wk w))
    ∨ (marks (wtrace w') = MReaped (c_pid c) :: MSignal (c_pid c) SIGKILL :: marks (wtrace w)
       ∧ children (wk w') = children (wk w) ∖ {[ c_pid c ]})
  | SpawnFailed | ChildExited | Started =>
    marks (wtrace w') = marks (wtrace w) ∧ children (wk w') = children (wk w)
  end.

(** An operation started on [p] in [w] made no transition, or one with a
    label in [ls], with its effect. *)
Definition moved (ls : label → Prop) (p : Process) (w : World K) (s : Process * World K) : Prop :=
  fixed s.1 = fixed p ∧
  ((core s.1 = core p ∧ quiet w s.2)
   ∨ ∃ l, ls l ∧ step (config_ p) (core p) l (core s.1) ∧ effect (config_ p) l (core p) w s.2).

Lemma moved_consistent ls p w s :
  consistent (config_ p) (core p) → moved ls p w s → consistent (config_ s.1) (core s.1).
Proof.
  intros Hc [Hf%fixed_config Hm]. rewrite Hf.
  destruct Hm as [[-> _]|(l & _ & Hs & _)]; [done|by eapply step_consistent].
Qed.

Lemma moved_reachable ls p w s :
  reachable (config_ p) (core p) → moved ls p w s → reachable (config_ s.1) (core s.1).
Proof.
  intros Hc [Hf%fixed_config Hm]. rewrite Hf.
  destruct Hm as [[-> _]|(l & _ & Hs & _)]; [done|by eapply reachable_step].
Qed.

Lemma effect_after config l c w w1 w2 :
  effect config l c w w1 → quiet w1 w2 → effect config l c w w2.
Proof.
  intros [Hck He] (Hk & Hc & Hck'). split; [lia|].
  destruct l; rewrite ?Hk, ?Hc; done.
Qed.

Lemma effect_before config l c w w1 w2 :
  quiet w w1 → effect config l c w1 w2 → effect config l c w w2.
Proof.
  intros (Hk & Hc & Hck') [Hck He]. split; [lia|].
  destruct l; rewrite <- ?Hk, <- ?Hc; done.
Qed.

Lemma effect_quiet config l c w w' :
  (l = SpawnFailed ∨ l = ChildExited ∨ l = Started) → quiet w w' → effect config l c w w'.
Proof. intros [-> |[-> | ->]] (? & ? & ?); by split. Qed.

Lemma moved_mono (ls ls' : label → Prop) p w s :
  (∀ l, ls l → ls' l) → moved ls p w s → moved ls' p w s.
Proof. intros Hl [Hc [?|(l & ? & ? & ?)]]; (split; [done|]); [by left|right; eauto]. Qed.

(** [spawn_] fails, or creates a child; it changes nothing else the state
    machine speaks of. *)
Lemma twp_spawn p w (Q : Z → Process * World K → Prop) :
  (∀ s, calm p w s → Q (-1) s) →
  (∀ r s, 0 < r → sched s.1 = sched p →
     effect (config_ p) (Spawned r) (core p) w s.2 → Q r s) →
  twp spawn_ Q (p, w).
Proof.
  intros Hfail Hok. unfold spawn_.
  apply (twp_calm _ _ p w); [by apply total_update|apply calm_refl|]. intros _ s Hs.
  apply (twp_calm _ _ p w); [apply total_the|done|]. clear s Hs. intros config s Hs.
  apply (twp_calm _ _ p w); [apply total_open_pipe|done|]. clear s Hs. intros [out|] s Hs.
  2:{ apply (twp_calm _ _ p w); [apply total_spawn_failed|done|]. intros _ s' Hs'.
      by apply twp_ret, Hfail. }
  apply (twp_calm _ _ p w); [apply total_open_pipe|done|]. clear s Hs. intros [err|] s Hs.
  2:{ apply (twp_calm _ _ p w); [apply total_spawn_failed|done|]. clear s Hs. intros _ s Hs.
      apply (twp_calm _ _ p w); [apply total_close_pipe|done|]. clear s Hs. intros _ s Hs.
      by apply twp_ret, Hfail. }
  destruct s as [p1 w1], Hs as [Hp1 Hw1]. simpl in *.
  apply twp_bind, (twp_call Fork). intros r k Hr.
  pose proof (fork_law _ _ _ Hr) as [Hr0 Hlaw].
  pose proof (clock_law _ _ _ _ Hr) as Hclk. destruct Hw1 as (Hk1 & Hc1 & Ht1).
  assert (Hquiet : r < 0 → calm p w (p1, mkWorld k (wfs w1) (Ev Fork r :: wtrace w1) (wstatics w1))).
  { intros Hneg. destruct (Z.ltb_spec 0 r); [lia|].
    split; [done|]. split_and!; cbn [snd wk wtrace]; [by rewrite marks_fork_failed|congruence|lia]. }
  destruct (Z.ltb_spec r 0).
  { apply (twp_calm _ _ p w); [apply total_spawn_failed|by apply Hquiet|]. intros _ s Hs.
    apply (twp_calm _ _ p w); [apply total_close_pipe|done|]. clear s Hs. intros _ s Hs.
    apply (twp_calm _ _ p w); [apply total_close_pipe|done|]. clear s Hs. intros _ s Hs.
    by apply twp_ret, Hfail. }
  destruct (Z.ltb_spec 0 r); [|lia]. destruct (Z.eqb_spec r 0); [done|].
  set (w2 := mkWorld k (wfs w1) (Ev Fork r :: wtrace w1) (wstatics w1)).
  apply (twp_calm _ _ p1 w2); [apply total_ret|apply calm_refl|]. intros _ s Hs.
  apply (twp_calm _ _ p1 w2); [calmly|done|]. clear s Hs. intros _ s Hs.
  apply (twp_calm _ _ p1 w2); [calmly|done|]. clear s Hs. intros _ s Hs.
  apply (twp_calm _ _ p1 w2); [apply total_attach|done|]. clear s Hs. intros _ s Hs.
  apply (twp_calm _ _ p1 w2); [apply total_attach|done|]. clear s Hs. intros _ s Hs.
  destruct Hs as [Hs Hq]. apply twp_ret, Hok; [lia|congruence|].
  apply effect_after with w2; [|done].
  destruct Hlaw as [Hfresh Hch]. split; cbn [w2 snd wk wtrace]; [lia|].
  rewrite marks_forked, <- Hc1, Hk1 by lia. done.
Qed.

Lemma sched_core p q : sched p = sched q → core p = core q ∧ fixed p = fixed q ∧ config_ p = config_ q.
Proof.
  intros [= Hc Hw Hw' Hs Hp Hr]. split_and!; [unfold core|unfold fixed|]; congruence.
Qed.

Definition starts (l : label) : Prop :=
  match l with Spawned _ | SpawnFailed => True | _ => False end.
Definition updates (l : label) : Prop :=
  starts l ∨ l = Escalated ∨ l = Started.

(** A failed attempt is counted, and decides between another and giving up. *)
Lemma twp_retry p w (Q : unit → Process * World K → Prop) :
  INT_MIN - 1 ≤ retry_count_ p < INT_MAX →
  (∀ s, fixed s.1 = fixed p →
     core s.1 = mkCore (retry_state (config_ p) (retry_count_ p + 1)) (pid_ p) (retry_count_ p + 1) →
     quiet w s.2 → Q tt s) →
  twp retry_or_give_up Q (p, w).
Proof.
  intros Hn HQ. unfold retry_or_give_up, count_retry, retry_state in *.
  apply twp_bind, twp_bind, twp_the, twp_bind, twp_int; [apply in_int_iff; simpl; lia|].
  apply twp_update, twp_bind, twp_the. simpl.
  apply twp_if; intros Hg; rewrite Hg in HQ.
  all: apply twp_set_state; simpl; intros; apply HQ; simpl; try done; unfold core; simpl; congruence.
Qed.

(** A start that has something to do makes exactly one transition, and says
    whether it failed. *)
Lemma start_result p w :
  state_ p ≠ RUNNING → state_ p ≠ STARTING → INT_MIN - 1 ≤ retry_count_ p < INT_MAX →
  twp start (λ ok s, fixed s.1 = fixed p ∧ ∃ l, starts l ∧ (ok = true ↔ l ≠ SpawnFailed)
    ∧ step (config_ p) (core p) l (core s.1) ∧ effect (config_ p) l (core p) w s.2) (p, w).
Proof.
  intros Hst1 Hst2 Hn. unfold start. apply twp_bind, twp_the. simpl.
  rewrite decide_False by tauto.
  apply twp_bind, twp_spawn.
  - intros [p1 w1] [Hp1 Hw1]. apply sched_core in Hp1 as (Hc & Hfix & Hcfg). simpl in *.
    pose proof Hc as [= Hs1 Hpid Hr].
    apply twp_bind, twp_retry; [lia|]. intros s Hcfg' Hcore Hq.
    apply twp_ret. split; [congruence|]. exists SpawnFailed. split_and!; [done|naive_solver| |].
    + rewrite Hcore, Hcfg, Hpid, Hr. by constructor.
    + apply effect_quiet; [by left|]. by etransitivity.
  - intros r [p1 w1] Hr Hp1 He. apply sched_core in Hp1 as (Hc & Hfix & Hcfg). simpl in *.
    pose proof Hc as [= Hs1 Hpid Hrc]. destruct (Z.ltb_spec r 0); [lia|].
    apply twp_bind, twp_update, twp_bind, twp_now. intros t w2 Hw2 _ _.
    apply twp_bind, twp_update, twp_bind, twp_set_state; simpl; [|congruence].
    intros t' w3 Hw3 _ _ _. apply twp_ret. split; [done|]. exists (Spawned r).
    split_and!; [done|done| |].
    + unfold core. simpl. rewrite Hrc. by constructor.
    + eapply effect_after; [exact He|]. by etransitivity.
Qed.

Lemma start_progress p w :
  state_ p ≠ RUNNING → state_ p ≠ STARTING → INT_MIN - 1 ≤ retry_count_ p < INT_MAX →
  twp start (λ _ s, fixed s.1 = fixed p ∧ ∃ l, starts l
    ∧ step (config_ p) (core p) l (core s.1) ∧ effect (config_ p) l (core p) w s.2) (p, w).
Proof.
  intros Hst1 Hst2 Hn. eapply twp_mono; [by apply start_result|].
  intros ok s (Hf & l & Hl & _ & Hs). split; [done|]. by exists l.
Qed.

Lemma start_moves p w :
  INT_MIN - 1 ≤ retry_count_ p < INT_MAX →
  twp start (λ _, moved starts p w) (p, w).
Proof.
  intros Hn. destruct (decide (state_ p = RUNNING ∨ state_ p = STARTING)) as [Hst|Hst].
  - unfold start. apply twp_bind, twp_the. simpl. rewrite decide_True by done.
    by apply twp_ret; split; [|left].
  - apply Decidable.not_or in Hst as [Hst1 Hst2].
    eapply twp_mono; [by apply start_progress|]. intros _ s [Hc Hs]. split; [done|by right].
Qed.

Lemma kill_effect p0 w0 w1 w2 sig r l :
  quiet w0 w1 →
  sys (Kernel.Kill (pid_ p0) sig) (wk w1) = (r, wk w2) →
  wtrace w2 = Ev (Kernel.Kill (pid_ p0) sig) r :: wtrace w1 →
  (l = StopSent ∧ sig = stop_signal (config_ p0)) ∨ (l = Escalated ∧ sig = SIGKILL) →
  effect (config_ p0) l (core p0) w0 w2.
Proof.
  intros (Hk & Hc & Ht) Hs Htr Hl.
  pose proof (children_law _ _ _ _ Hs ltac:(done) ltac:(done)).
  pose proof (clock_law _ _ _ _ Hs).
  split; [lia|]. rewrite Htr. destruct Hl as [[-> ->]|[-> ->]]; simpl; split; congruence.
Qed.

Lemma stop_moves p w :
  twp stop (λ ok s, moved (eq StopSent) p w s
    ∧ (state_ s.1 = STOPPING ∨ pid_ p ≤ 0 ∨ state_ p = STOPPED)) (p, w).
Proof.
  unfold stop. apply twp_bind, twp_the. cbn [fst].
  destruct (Z.leb_spec (pid_ p) 0) as [Hp|Hp]; simpl.
  { apply twp_ret. split; [|by right; left]. by split; [|left]. }
  destruct (decide (state_ p = STOPPED)) as [Hst|Hst].
  { rewrite bool_decide_eq_true_2 by done. apply twp_ret. split; [|by right; right]. by split; [|left]. }
  rewrite bool_decide_eq_false_2 by done.
  assert (Hrest : ∀ p1 w1, quiet w w1 → fixed p1 = fixed p → core p1 = mkCore STOPPING (pid_ p) (retry_count_ p) →
    twp (t ← now; update_process (set_stop_time t) ;;
         r ← call (Kernel.Kill (pid_ p) (stop_signal (config_ p))); mret ((r : Z) =? 0))
        (λ ok s, moved (eq StopSent) p w s ∧ (state_ s.1 = STOPPING ∨ pid_ p ≤ 0 ∨ state_ p = STOPPED)) (p1, w1)).
  { intros p1 w1 Hw1 Hcfg Hcore. pose proof Hcore as [= Hs1 Hpid Hr].
    apply twp_bind, twp_now. intros t w2 Hw2 _ _. apply twp_bind, twp_update.
    apply twp_bind, (twp_call (Kernel.Kill _ _)). intros r k E. apply twp_ret. simpl.
    split; [|by left]. split; [done|]. right. exists StopSent. split_and!; [done| |].
    - unfold core; simpl. rewrite Hs1, Hpid, Hr. by constructor.
    - eapply (kill_effect p w w2); [by etransitivity|exact E|done|by left]. }
  apply twp_bind, twp_set_state; intros; apply Hrest; try done.
  by unfold core; f_equal.
Qed.

Lemma kill_effects p w :
  0 < pid_ p →
  twp kill (λ _ s, fixed s.1 = fixed p ∧ effect (config_ p) Killed (core p) w s.2
    ∧ core s.1 = mkCore STOPPED (-1) (retry_count_ p)) (p, w).
Proof.
  intros Hp. unfold kill. apply twp_bind, twp_the. simpl.
  destruct (Z.leb_spec (pid_ p) 0); [lia|].
  apply twp_bind, (twp_call (Kernel.Kill _ _)). intros r k E.
  apply twp_bind, (twp_call (Waitpid _ _)). simpl. intros [pid st] k' E'.
  set (w2 := mkWorld k' _ _ _).
  assert (He : effect (config_ p) Killed (core p) w w2).
  { pose proof (children_law _ _ _ _ E ltac:(done) ltac:(done)) as Hch.
    pose proof (clock_law _ _ _ _ E). pose proof (clock_law (Waitpid _ _) _ _ _ E').
    pose proof (waitpid_law _ _ _ _ _ _ E') as Hw.
    split; [simpl; lia|]. cbn [wk wtrace w2].
    destruct (Z.ltb_spec 0 pid) as [Hpid|Hpid].
    - right. destruct Hw as (_ & Hw & Heq). specialize (Heq Hp). subst pid. rewrite marks_waitpid, Hw, Hch.
      rewrite (proj2 (Z.ltb_lt _ _)) by done. done.
    - left. rewrite marks_waitpid, Hw, Hch. by destruct (Z.ltb_spec 0 pid); [lia|]. }
  apply twp_bind, twp_update, twp_set_state; simpl.
  - intros t w3 Hw3 _ _ _. split_and!; [done| |done]. by apply effect_after with w2.
  - intros Hst. split_and!; [done|done|]. unfold core. simpl. by rewrite <- Hst.
Qed.

Lemma kill_moves p w :
  twp kill (λ _ s, moved (eq Killed) p w s ∧ pid_ s.1 ≤ 0) (p, w).
Proof.
  destruct (Z.leb_spec (pid_ p) 0) as [Hp|Hp].
  { unfold kill. apply twp_bind, twp_the. simpl. destruct (Z.leb_spec (pid_ p) 0); [|lia].
    apply twp_ret. split; [|done]. by split; [|left]. }
  eapply twp_mono; [by apply kill_effects|]. intros _ s (Hf & He & Hc).
  pose proof Hc as [= _ Hpid _]. rewrite Hpid. split; [|lia]. split; [done|]. right.
  exists Killed. split_and!; [done| |done]. rewrite Hc. by constructor.
Qed.

Lemma on_exit_ok status p w :
  INT_MIN - 1 ≤ retry_count_ p < INT_MAX →
  twp (on_exit status) (λ _ s,
    fixed s.1 = fixed p ∧ core s.1 = exit_core (config_ p) (core p)
    ∧ exitstatus_ s.1 = exit_code status ∧ quiet w s.2) (p, w).
Proof.
  intros Hn. unfold on_exit, exit_core. apply twp_bind, twp_update.
  apply twp_bind, twp_mono with (λ _ s, s = (set_exitstatus (exit_code status) p, w)).
  { unfold exit_code. apply twp_if; intros H1; rewrite ?H1; [done|].
    apply twp_if; intros H2; rewrite ?H2; done. }
  intros _ s ->. apply twp_bind, twp_update, twp_bind, twp_the. simpl.
  unfold should_autorestart. simpl.
  destruct (decide (state_ p = STOPPING)) as [Hst|Hst].
  { apply twp_bind, twp_set_state; simpl; intros; apply twp_update; simpl; split_and!; try done.
    by unfold core; simpl; f_equal. }
  apply twp_if; intros Har; rewrite Har.
  - destruct (decide (state_ p = STARTING)) as [Hst'|Hst'].
    + (* the retry bookkeeping *)
      unfold retry_or_give_up, count_retry, retry_state.
      apply twp_bind, twp_bind, twp_the, twp_bind, twp_int; [apply in_int_iff; simpl; lia|].
      apply twp_update, twp_bind, twp_the. simpl.
      apply twp_if; intros Hg; rewrite Hg; apply twp_set_state; simpl; intros; split_and!;
        try done; unfold core; simpl; congruence.
    + apply twp_set_state; simpl; intros; split_and!; try done; unfold core; simpl; congruence.
  - apply twp_set_state; simpl; intros; split_and!; try done; unfold core; simpl; congruence.
Qed.

Lemma exit_core_step config c :
  0 < c_pid c → step config c ChildExited (exit_core config c).
Proof.
  destruct c as [st pid n]. simpl. intros Hp. unfold exit_core. simpl.
  case_decide as Hst; [subst; by constructor|].
  destruct (autorestart config) eqn:Ha; simpl; [|by constructor; auto].
  case_bool_decide; simpl; [by constructor; auto|].
  case_decide; [subst; by constructor|by constructor].
Qed.

Lemma exit_moves status p w :
  0 < pid_ p → INT_MIN - 1 ≤ retry_count_ p < INT_MAX →
  twp (on_exit status) (λ _, moved (eq ChildExited) p w) (p, w).
Proof.
  intros Hp Hn. eapply twp_mono; [by apply on_exit_ok|].
  intros _ s (Hcfg & Hcore & _ & Hq). split; [done|]. right. exists ChildExited.
  split_and!; [done| |apply effect_quiet; auto].
  rewrite Hcore. by apply exit_core_step.
Qed.

(** The moment a waiting state has lasted as long as it may. *)
Lemma update_moves p w :
  consistent (config_ p) (core p) → retry_count_ p < INT_MAX →
  (state_ p = BACKOFF → retry_count_ p < 32) →
  twp update (λ _, moved updates p w) (p, w).
Proof.
  intros Hcons Hn Hb. pose proof (cons_retry _ _ Hcons) as Hn0. simpl in Hn0.
  unfold update. apply twp_bind, twp_now. intros t w1 Hw1 _ _. apply twp_bind, twp_the. simpl.
  assert (Hstay : moved updates p w (p, w1)) by (split; [done|by left]).
  destruct (state_ p) eqn:Hst; try by apply twp_ret.
  - apply twp_if; intros He; [|by apply twp_ret].
    apply twp_bind, twp_set_state; simpl; [|congruence].
    intros t' w2 Hw2 _ _ _. apply twp_update. split; [done|]. right. exists Started.
    split_and!; [by right; right| |apply effect_quiet; [auto|by etransitivity]].
    unfold core. simpl. rewrite Hst. constructor.
  - unfold shl_int. destruct (Z.leb_spec 0 (retry_count_ p)); [|lia].
    destruct (Z.ltb_spec (retry_count_ p) 32); [|specialize (Hb eq_refl); lia].
    apply twp_bind, twp_ret. apply twp_if; intros He; [|by apply twp_ret].
    apply twp_bind. eapply twp_mono; [apply start_moves; unfold INT_MIN; lia|].
    intros ok s [Hcfg Hs]. apply twp_ret. split; [done|].
    destruct Hs as [[Hc Hq]|(l & Hl & Hs & He')].
    + left. split; [done|by etransitivity].
    + right. exists l. split_and!; [by left|done|]. by apply effect_before with w1.
  - apply twp_if; intros He; [|by apply twp_ret].
    apply twp_bind, (twp_call (Kernel.Kill _ _)). intros r k E. apply twp_ret.
    split; [done|]. right. exists Escalated. split_and!; [by right; left| |].
    + unfold core. simpl. rewrite Hst. constructor. apply (cons_alive _ _ Hcons). simpl. auto.
    + by eapply (kill_effect p w w1); [|exact E| |right].
Qed.

(** The bookkeeping of children and signals along a transition. *)
Lemma quiet_tracked w w' : quiet w w' → tracked w → tracked w'.
Proof. intros (Hm & Hc & _) [Ht Ho]. split; congruence. Qed.

Lemma effect_tracked config l c c' w w' :
  consistent config c → step config c l c' → effect config l c w w' → tracked w →
  (0 < c_pid c → c_pid c ∈ children (wk w)) →
  tracked w' ∧ (0 < c_pid c' → c_pid c' ∈ children (wk w')).
Proof.
  intros Hc Hs [_ He] [Ht Ho] Hpid. unfold tracked.
  destruct Hs; simpl in *;
    repeat match goal with
           | H : _ ∧ _ |- _ => destruct H
           | H : _ ∨ _ |- _ => destruct H
           | H : marks _ = _ |- _ => rewrite H
           | H : children (wk w') = _ |- _ => rewrite H
           end; simpl; rewrite <- ?Ht; split_and?; auto; try lia; try set_solver.
Qed.

(** *** The log writers *)

Lemma writer_of_set ch w p : writer_of ch (set_writer ch w p) = w.
Proof. by destruct ch. Qed.

Lemma twp_with_writer {A} ch (m : M lw_state A) (Q : unit → Process * World K → Prop) p w lw :
  writer_of ch p = Some lw →
  twp m (λ _ t, Q tt (set_writer ch (Some t.1) p, mkWorld (wk w) t.2 (wtrace w) (wstatics w))) (lw, wfs w) →
  twp (with_writer ch m) Q (p, w).
Proof.
  intros Hlw Hm. unfold with_writer. apply twp_bind, twp_the. simpl. rewrite Hlw.
  apply twp_bind, twp_zoom. simpl. eapply twp_mono; [exact Hm|]. done.
Qed.

(** Writers whose rotation loop does not overflow. *)
Definition writers_ok (p : Process) : Prop :=
  ∀ ch lw, writer_of ch p = Some lw → INT_MIN < (limits lw).2 ≤ INT_MAX.

Definition logging (p0 : Process) (w0 : World K) (s : Process * World K) : Prop :=
  config_ s.1 = config_ p0 ∧ core s.1 = core p0 ∧ writers_ok s.1 ∧ quiet w0 s.2.

Lemma total_logging_writer p0 w0 ch {A} (m : M lw_state A) :
  (∀ l, INT_MIN < l.2 ≤ INT_MAX → total (λ s, limits s.1 = l) m) →
  total (logging p0 w0) (with_writer ch m).
Proof.
  intros Hm. apply total_twp. intros [p w] (Hc & Hcore & Hok & Hq). simpl in *.
  destruct (writer_of ch p) as [lw|] eqn:E.
  - eapply twp_with_writer; [exact E|]. apply (twp_total (λ s, limits s.1 = limits lw)); [|done|].
    { apply Hm. by eapply Hok. }
    intros _ [lw' fs'] Hl. simpl in *. split_and!; simpl; [by destruct ch..| |done].
    intros ch' lw2 H2. assert (ch' = ch ∨ ch' ≠ ch) as [->|Hne] by (destruct ch, ch'; auto).
    + rewrite writer_of_set in H2. injection H2 as <-. rewrite Hl. by eapply Hok.
    + apply (Hok ch'). by destruct ch, ch'.
  - unfold with_writer. apply twp_bind, twp_the. simpl. rewrite E. by apply twp_ret.
Qed.

Lemma total_logging_calm p0 w0 {A} (m : M (Process * World K) A) :
  (∀ p1 w1, total (calm p1 w1) m) → total (logging p0 w0) m.
Proof.
  intros Hm [p w] (Hc & Hcore & Hok & Hq). specialize (Hm p w (p, w) (calm_refl p w)). simpl in *.
  destruct (m (p, w)) as [a [p' w']|? ?|? ?| |]; try done.
  destruct Hm as [Hs Hq']. apply sched_core in Hs as (Hc' & Hf & Hcfg). simpl in *.
  unfold fixed in Hf. injection Hf as _ H1 H2.
  split_and!; simpl; [congruence|congruence| |by etransitivity].
  intros ch lw Hw. apply (Hok ch). destruct ch; simpl in *; congruence.
Qed.

Lemma handle_read_total p0 w0 ch error data :
  total (logging p0 w0) (handle_read ch error data).
Proof.
  unfold handle_read. destruct error; (apply total_bind; [|intros _]).
  - apply total_logging_calm. intros. apply total_close_stream.
  - apply total_logging_writer. intros. apply total_flush.
  - destruct (bool_decide _); [apply total_ret|].
    apply total_logging_writer. intros l Hl. by apply total_write.
  - apply total_logging_calm. intros. apply total_start_read.
Qed.

(** The destructor kills the child, if there is one. *)
Lemma destroy_ok p w :
  writers_ok p →
  twp destroy (λ _ s, if 0 <? pid_ p then effect (config_ p) Killed (core p) w s.2
                      else quiet w s.2) (p, w).
Proof.
  intros Hok. unfold destroy. apply twp_bind, twp_the. simpl. apply twp_bind.
  assert (Hrest : ∀ p1 w1 (Q : unit → Process * World K → Prop), writers_ok p1 →
    (∀ s, quiet w1 s.2 → Q tt s) →
    twp (close_stream Stdout ;; close_stream Stderr ;;
         with_writer Stderr closeNL_ ;; with_writer Stdout closeNL_) Q (p1, w1)).
  { intros p1 w1 Q Hok1 HQ. apply (twp_total (logging p1 w1)); [|by split_and!|].
    - do 2 (apply total_bind; [apply total_logging_calm; intros; apply total_close_stream|intros _]).
      apply total_bind; [|intros _]; apply total_logging_writer; intros; apply total_closeNL.
    - intros [] s (_ & _ & _ & Hq). auto. }
  destruct (0 <? pid_ p) eqn:Hp.
  - eapply twp_mono; [apply kill_effects; lia|]. intros _ [p1 w1] (Hf & He & _). simpl in *.
    apply Hrest.
    + unfold fixed in Hf. injection Hf as _ H1 H2. intros ch lw Hw. apply (Hok ch).
      destruct ch; simpl in *; congruence.
    + intros s Hq. by eapply effect_after.
  - apply twp_ret, Hrest; auto.
Qed.

(** *** The constructor *)

Lemma new_log_writer_ok path mb b fs :
  twp (new_log_writer path mb b) (λ lw _, limits lw = (mb, b)) fs.
Proof.
  unfold twp, new_log_writer.
  assert (Ht : total (keeps path mb b []) (ensure_directory_ ;; openNL_)).
  { apply total_bind; [|intros _; apply total_openNL].
    unfold ensure_directory_. apply total_try; [|intros; apply total_ret].
    apply safe_bind; [apply total_safe, total_this|]. intros path'.
    destruct (bool_decide _); [apply total_safe, total_ret|].
    apply safe_bind; [auto with sup|]. intros [].
    { apply total_safe, total_ret. }
    apply safe_bind; [|intros _; apply total_safe, total_ret]. apply safe_on_fs.
    apply safe_pop. intros []; [apply safe_throw|by apply total_safe, total_modify]. }
  destruct (total_Ret _ _ (mkLogWriter path mb b closed_stream 0 [], fs) Ht)
    as (? & [lw ?] & -> & (_ & Hm & Hb & _)); [done|].
  unfold limits. simpl in *. congruence.
Qed.

Definition logs_ok (config : ProgramConfig) : Prop :=
  INT_MIN < file_backups (stdout_log config) ≤ INT_MAX
  ∧ INT_MIN < file_backups (stderr_log config) ≤ INT_MAX.

Lemma create_writer_ok log (w : World K) :
  twp (create_writer log) (λ r w', quiet w w'
    ∧ ∀ lw, r = Some lw → (limits lw).2 = file_backups log) w.
Proof.
  unfold create_writer. destruct (file log) as [path|]; [|by apply twp_ret].
  apply twp_bind, twp_zoom. eapply twp_mono; [apply new_log_writer_ok|].
  intros lw fs Hl. apply twp_ret. split; [done|]. intros lw' [= <-]. by rewrite Hl.
Qed.

Lemma create_ok config w :
  twp (create config) (λ p w', config_ p = config ∧ core p = mkCore STOPPED (-1) 0
    ∧ quiet w w' ∧ (logs_ok config → writers_ok p)) w.
Proof.
  unfold create. apply twp_bind.
  unfold twp at 1, do_call. destruct (sys SteadyNow (wk w)) as [t k] eqn:E.
  apply (quiet_sys SteadyNow w) in E; [|done].
  apply twp_bind. eapply twp_mono; [apply create_writer_ok|]. intros out w1 [H1 Ho].
  apply twp_bind. eapply twp_mono; [apply create_writer_ok|]. intros err w2 [H2 He].
  apply twp_ret. split_and!; [done..| |].
  - by do 2 (etransitivity; [eassumption|]).
  - intros [? ?] [] lw Hlw; simpl in Hlw; [by rewrite (Ho lw)|by rewrite (He lw)].
Qed.
End refinement.
