(* ===== verification/SecureSpec.v ===== *)
(** * What the security checks promise

    The properties of [Secure.v], and of the signal names between it and
    [Process.v]. *)

From Stdlib Require Import ZArith NArith Ascii String.
From stdpp Require Import base gmap sets list strings.
From S2P Require Import Prelude CppString StdMap ConfigTypes Files Kernel Sim Secure Process.

(** ** The environment *)

Definition kept_entry (k v : bytes) : bool := valid_key k && negb (bool_decide (NUL ∈ v)).

Lemma sanitize_find env acc k :
  sm_wf env →
  sm_find k (foldl sanitize_entry acc env)
  = match sm_find k env with
    | Some v => if kept_entry k v then Some v else sm_find k acc
    | None => sm_find k acc
    end.
Proof.
  revert acc. induction env as [|[k' v'] env IH]; intros acc Hwf; [done|].
  apply sm_wf_cons in Hwf as [Hwf Hlt]. cbn [foldl sm_find sanitize_entry].
  rewrite IH by done. case_decide as Hk.
  - subst k'. assert (sm_find k env = None) as ->.
    { apply sm_find_None. intros Hin. specialize (Hlt k Hin). unfold bytes_lt in Hlt.
      by rewrite bytes_ltb_irrefl in Hlt. }
    unfold kept_entry. destruct (valid_key k); simpl; [|done].
    case_bool_decide; simpl; [done|]. by rewrite sm_find_set_eq.
  - assert (Hacc : sm_find k (if negb (valid_key k') then acc
        else if bool_decide (NUL ∈ v') then acc else sm_set k' v' acc) = sm_find k acc).
    { destruct (negb (valid_key k')); [done|]. case_bool_decide; [done|]. by rewrite sm_find_set_ne. }
    by rewrite Hacc.
Qed.

Lemma sanitize_wf env acc : sm_wf acc → sm_wf (foldl sanitize_entry acc env).
Proof.
  revert acc. induction env as [|[k v] env IH]; intros acc Hwf; cbn [foldl sanitize_entry]; [done|].
  apply IH. destruct (negb (valid_key k)); [done|]. case_bool_decide; [done|]. by apply sm_wf_set.
Qed.

(** C36: The environment handed to a child is the configured one without the
    entries that could harm: an entry is there if and only if it was
    configured, its key is a non-empty word of letters, digits and
    underscores, and its value holds no NUL; and it has the configured
    value. *)
Theorem sanitize_environment_spec env :
  sm_wf env →
  sm_wf (sanitize_environment env) ∧
  ∀ k v, sm_find k (sanitize_environment env) = Some v ↔
    sm_find k env = Some v ∧ k ≠ [] ∧ Forall (λ c, isalnum c = true ∨ c = "_"%char) k ∧ NUL ∉ v.
Proof.
  intros Hwf. split; [by apply sanitize_wf, sm_wf_nil|]. intros k v.
  unfold sanitize_environment. rewrite sanitize_find by done.
  assert (Hkept : ∀ v', kept_entry k v' = true ↔
    k ≠ [] ∧ Forall (λ c, isalnum c = true ∨ c = "_"%char) k ∧ NUL ∉ v').
  { intros v'. unfold kept_entry, valid_key.
    rewrite !andb_true_iff, !negb_true_iff, !bool_decide_eq_false, forallb_forall, List.Forall_forall.
    assert (Hc : ∀ c, isalnum c || char_eqb c "_"%char = true ↔ isalnum c = true ∨ c = "_"%char).
    { intros c. rewrite orb_true_iff. unfold char_eqb. by rewrite bool_decide_eq_true. }
    setoid_rewrite Hc. tauto. }
  destruct (sm_find k env) as [v'|]; simpl; [|naive_solver].
  destruct (kept_entry k v') eqn:E.
  - apply Hkept in E. naive_solver.
  - split; [done|]. intros [[= ->] H]. apply Hkept in H. congruence.
Qed.

(** ** Paths and files *)

Section secure.
Context {K : Type} `{!Kernel K}.

(** A call may answer anything. *)
Lemma ewp_any c (Q : answer c → World K → Prop) E w :
  (∀ r w', Q r w') → ewp (do_call c) Q E w.
Proof. intros HQ. unfold ewp, do_call. by destruct (sys c (wk w)). Qed.

Lemma canonicalize_prefix path dir (w : World K) :
  ewp (validate_canonicalize_path path dir) (λ c _, starts_with dir c = true) (λ _ _, True) w.
Proof.
  unfold validate_canonicalize_path. apply ewp_bind.
  apply ewp_mono with (λ _ _, True) (λ _ _, True); [|intros c w1 _|done].
  - unfold catch_filesystem. apply ewp_try. unfold canonical.
    apply ewp_bind, (ewp_any (Canonical _)). intros r w1. apply ewp_lift. destruct r as [c|e]; [done|].
    destruct (decide _); [|done]. apply ewp_bind.
    assert (Hp : ∀ w2 : World K, ewp (if bool_decide (parent_path path = []) then current_path
                   else mret (parent_path path)) (λ _ _, True) (λ _ _, True) w2).
    { intros w2. destruct (bool_decide _); [|done]. apply ewp_bind, (ewp_any CurrentPath). intros r w3.
      apply ewp_lift. by destruct r. }
    eapply ewp_mono; [apply Hp| |done]. intros parent w2 _. apply ewp_try, ewp_bind, ewp_bind, (ewp_any (Canonical _)).
    intros r w3. apply ewp_lift. destruct r as [c|e']; [done|]. by destruct (decide _).
  - case_bool_decide as Hf; [|done]. apply ewp_ret.
    apply find_Some in Hf as (l & r & -> & Hl & _). apply length_zero_iff_nil in Hl as ->. cbn [app].
    apply starts_with_app.
Qed.

(** A path that passes the check of the allowed directories resolves,
    symbolic links included, to a path that one of the directories is a
    prefix of; any other path is refused with an exception. *)
Lemma allowed_dirs_checked path dirs description (w : World K) :
  ewp (validate_path_in_allowed_dirs path dirs description)
    (λ c _, ∃ dir, dir ∈ dirs ∧ starts_with dir c = true) (λ _ _, True) w.
Proof.
  unfold validate_path_in_allowed_dirs. generalize (join_dirs dirs). intros shown.
  revert w. induction dirs as [|dir dirs IH]; intros w; cbn [try_prefixes]; [done|].
  unfold catch_security. apply ewp_try.
  eapply ewp_mono; [apply canonicalize_prefix| |].
  - intros c ? Hc. exists dir. split; [left|done].
  - intros e w1 _. case_decide; [|done]. eapply ewp_mono; [apply IH| |done].
    intros c ? (d & Hd & Hs). exists d. split; [by right|done].
Qed.

(** The configuration file is accepted if and only if it exists and is
    itself a regular file, not a symbolic link, that belongs to the user
    of the daemon and that not everyone may write. *)
Lemma config_file_accepted config_file (w : World K) :
  ewp (validate_config_file_security config_file)
    (λ _ w', ∃ st uid, wtrace w' = [Ev Getuid uid; Ev (Lstat config_file) (Some st);
         Ev (Exists config_file) (Ok true)] ++ wtrace w
       ∧ S_ISREG (st_mode st) = true ∧ st_uid st = uid ∧ Z.land (st_mode st) S_IWOTH = 0)
    (λ e w', (∃ e', e = e' ∧ wtrace w' = Ev (Exists config_file) (Err e') :: wtrace w)
      ∨ exn_of e = SecurityError ∧
        (wtrace w' = Ev (Exists config_file) (Ok false) :: wtrace w
         ∨ wtrace w' = [Ev (Lstat config_file) None; Ev (Exists config_file) (Ok true)] ++ wtrace w
         ∨ ∃ st t, wtrace w' = t ++ [Ev (Lstat config_file) (Some st); Ev (Exists config_file) (Ok true)] ++ wtrace w
           ∧ (S_ISREG (st_mode st) = false ∧ t = []
              ∨ (∃ uid, t = [Ev Getuid uid] ∧ (st_uid st ≠ uid ∨ Z.land (st_mode st) S_IWOTH ≠ 0))))) w.
Proof.
  unfold validate_config_file_security, path_exists, ewp, do_call, security_error, lift_result. run.
  destruct (sys (Exists config_file) (wk w)) as [[[]|e] k1]; simpl; [|right; auto|left; eauto].
  destruct (sys (Lstat config_file) k1) as [[st|] k2]; simpl; [|right; auto].
  destruct (S_ISREG (st_mode st)) eqn:Hreg; simpl.
  2:{ right. split; [done|]. right. right. exists st, []. auto. }
  destruct (sys Getuid k2) as [uid k3]; simpl.
  destruct (Z.eqb_spec (st_uid st) uid) as [Hu|Hu]; simpl.
  2:{ right. split; [done|]. right. right. exists st, [Ev Getuid uid]. eauto 10. }
  destruct (Z.eqb_spec (Z.land (st_mode st) S_IWOTH) 0) as [Hw|Hw]; simpl.
  - by exists st, uid.
  - right. split; [done|]. right. right. exists st, [Ev Getuid uid]. eauto 10.
Qed.
End secure.

(** The check of the prefix does not respect the boundaries of path
    components: with [/tmp] allowed, the path [/tmpevil/x], which is not
    under it, passes. *)
Lemma prefix_is_textual :
  ∃ w', validate_path_in_allowed_dirs #"/tmpevil/x" [ #"/var/log"; #"/tmp"] #"Log file" world0
        = Ret #"/tmpevil/x" w'.
Proof. eexists. by vm_compute. Qed.

(** Of the signal names the configuration accepts, only four have an
    effect: [stop] sends SIGTERM for each of the others, USR1, USR2, ABRT,
    ALRM, CONT and STOP included. *)
Lemma accepted_signals config :
  validate_signal (stopsignal config) = Ok tt →
  (stopsignal config, stop_signal config) ∈
    [(#"TERM", SIGTERM); (#"HUP", SIGHUP); (#"INT", SIGINT); (#"QUIT", SIGQUIT); (#"KILL", SIGKILL);
     (#"USR1", SIGTERM); (#"USR2", SIGTERM); (#"ABRT", SIGTERM); (#"ALRM", SIGTERM);
     (#"CONT", SIGTERM); (#"STOP", SIGTERM)].
Proof.
  unfold validate_signal. case_bool_decide as Hs; [|done]. intros _. unfold stop_signal.
  unfold valid_signals in Hs.
  repeat (apply elem_of_cons in Hs as [->|Hs]; [by apply (bool_decide_unpack _); vm_compute|]).
  by apply not_elem_of_nil in Hs.
Qed.

(** ** The properties at concrete inputs *)

Lemma sanitize_environment_spec_witness :
  let env : smap bytes := [(#"A-B", #"1"); (#"PATH", #"/bin")] in
  sm_wf (sanitize_environment env) ∧
  ∀ k v, sm_find k (sanitize_environment env) = Some v ↔
    sm_find k env = Some v ∧ k ≠ [] ∧ Forall (λ c, isalnum c = true ∨ c = "_"%char) k ∧ NUL ∉ v.
Proof.
  apply sanitize_environment_spec. apply sm_wf_cons. split.
  - apply sm_wf_cons. split; [constructor|]. by intros ? ?%not_elem_of_nil.
  - by intros j ->%list_elem_of_singleton.
Defined.

