(* ===== verification/ProcessSpec.v ===== *)
(** * What a process promises

    The properties of [Process.v]: the life cycle of one process as the
    manager drives it, its exits, retries and signals, its command line,
    what its child does before [exec], and its log. *)

From Stdlib Require Import ZArith NArith Ascii String.
From stdpp Require Import base gmap sets list strings.
From S2P Require Import Prelude CppString StdMap ConfigTypes Files LogWriter Kernel Sim Secure Process.

(** ** The life cycle *)

(** The calls the manager makes on a process. *)
Inductive op := OpStart | OpStop | OpKill | OpUpdate | OpExit (status : Z).

Definition op_labels (o : op) : label → Prop :=
  match o with
  | OpStart => starts
  | OpStop => eq StopSent
  | OpKill => eq Killed
  | OpUpdate => updates
  | OpExit _ => eq ChildExited
  end.

Section lifecycle.
Context {K : Type} `{!Kernel K}.
Local Abbreviation P A := (M (Process * World K) A).

(** [on_exit] is called on the process whose pid [waitpid] returned. *)
Definition run_op (o : op) : P unit :=
  match o with
  | OpStart => start ;; mret tt
  | OpStop => stop ;; mret tt
  | OpKill => kill
  | OpUpdate => update
  | OpExit status =>
    pid ← the pid_;
    if 0 <? pid then on_exit status else mret tt
  end.

Definition run_ops (ops : list op) : P unit := mfor ops run_op.

Context {laws : KernelLaws K}.

Lemma run_op_moves o p w :
  consistent (config_ p) (core p) → retry_count_ p < INT_MAX →
  (state_ p = BACKOFF → retry_count_ p < 32) →
  twp (run_op o) (λ _, moved (op_labels o) p w) (p, w).
Proof.
  intros Hc Hn Hb. pose proof (cons_retry _ _ Hc) as Hn0. simpl in Hn0.
  assert (INT_MIN - 1 ≤ retry_count_ p < INT_MAX) by (unfold INT_MIN; lia).
  destruct o; simpl.
  - apply twp_bind. eapply twp_mono; [by apply start_moves|]. auto.
  - apply twp_bind. eapply twp_mono; [apply stop_moves|]. intros ? ? [? _]. by apply twp_ret.
  - eapply twp_mono; [apply kill_moves|]. by intros ? ? [? _].
  - by apply update_moves.
  - apply twp_bind, twp_the. simpl. apply twp_if; intros Hp; [|by split; [|left]].
    apply exit_moves; lia.
Qed.

(** How far one transition can take the retry counter. *)
Lemma step_retry config c l c' : step config c l c' → 0 ≤ c_retry c → c_retry c' ≤ c_retry c + 1.
Proof. destruct 1; simpl; lia. Qed.

Lemma run_ops_reach config ops p w :
  startretries config ≤ 31 →
  config_ p = config → reachable config (core p) →
  retry_count_ p + Z.of_nat (length ops) ≤ INT_MAX →
  tracked w → (0 < pid_ p → pid_ p ∈ children (wk w)) →
  twp (run_ops ops) (λ _ s,
    config_ s.1 = config ∧ reachable config (core s.1) ∧ tracked s.2) (p, w).
Proof.
  intros Hsr. revert p w. induction ops as [|o ops IH]; intros p w Hcfg Hr Hn Ht Hp.
  { by apply twp_ret. }
  pose proof (reachable_consistent_aux _ _ Hr) as Hc. cbn [length] in Hn.
  pose proof (cons_retry _ _ Hc) as Hn0. simpl in Hn0.
  unfold run_ops. cbn [mfor]. apply twp_bind. eapply twp_mono.
  { apply run_op_moves; [by rewrite Hcfg|lia|].
    intros Hst. destruct (cons_backoff _ _ Hc Hst); simpl in *; lia. }
  intros _ [p1 w1] [Hcfg1%fixed_config Hm]. simpl in *. rewrite Hcfg in *.
  assert (tracked w1 ∧ (0 < pid_ p1 → pid_ p1 ∈ children (wk w1))) as [Ht1 Hp1].
  { destruct Hm as [[[= _ Hpid _] Hq]|(l & _ & Hs & He)].
    - rewrite Hpid. split; [by eapply quiet_tracked|]. destruct Hq as (_ & -> & _). done.
    - by eapply (effect_tracked config l (core p) (core p1)). }
  apply IH; [done|..|done|done].
  - destruct Hm as [[-> _]|(l & _ & Hs & _)]; [done|by eapply reachable_step].
  - destruct Hm as [[[= _ _ ->] _]|(l & _ & Hs & _)]; [lia|].
    apply step_retry in Hs; simpl in *; lia.
Qed.
End lifecycle.

(** ** The child, up to [exec] *)

(** [hwp m Q H]: [m] returns with [Q], or ends the process image with [H]. *)
Definition hwp {S A} (m : M S A) (Q : A → S → Prop) (H : halt → S → Prop) (s : S) : Prop :=
  match m s with Ret a s' => Q a s' | Halt h s' => H h s' | _ => False end.

Lemma hwp_bind {S A B} (m : M S A) (k : A → M S B) Q H s :
  hwp m (λ a s', hwp (k a) Q H s') H s → hwp (m ≫= k) Q H s.
Proof. unfold hwp, mbind, M_bind. by destruct (m s). Qed.

Lemma hwp_twp {S A} (m : M S A) (Q : A → S → Prop) H s : twp m Q s → hwp m Q H s.
Proof. unfold hwp, twp. by destruct (m s). Qed.

Lemma hwp_die {S A} h (Q : A → S → Prop) (H : halt → S → Prop) s : H h s → hwp (die h) Q H s.
Proof. done. Qed.

Lemma hwp_mono {S A} (m : M S A) (Q Q' : A → S → Prop) (H H' : halt → S → Prop) s :
  hwp m Q H s → (∀ a s', Q a s' → Q' a s') → (∀ h s', H h s' → H' h s') → hwp m Q' H' s.
Proof. unfold hwp. destruct (m s); naive_solver. Qed.

(** [t'] is [t] and the calls by which the process gave up its privileges
    to become [user], or found that there was nothing to give up. *)
Definition became (user : bytes) (t t' : list event) : Prop :=
  ((user = [] ∨ user = #"root") ∧ t' = t)
  ∨ (∃ u : Z, u ≠ 0 ∧ t' = Ev Getuid u :: t)
  ∨ (∃ uid gid r1 r2 r3 : Z, 0 ≤ r1 ∧ 0 ≤ r2 ∧ 0 ≤ r3 ∧
      t' = [Ev Getegid gid; Ev Getgid gid; Ev Geteuid uid; Ev Getuid uid;
            Ev (Setuid uid) r3; Ev (Setgid gid) r2; Ev (Initgroups user gid) r1;
            Ev (Getpwnam user) (Some (uid, gid)); Ev Getuid 0] ++ t).

Section child.
Context {K : Type} `{!Kernel K}.

Lemma twp_call_any c (Q : answer c → Process * World K → Prop) p w :
  (∀ r w', wtrace w' = Ev c r :: wtrace w → Q r (p, w')) → twp (call c) Q (p, w).
Proof. intros HQ. apply twp_call. intros r k _. by apply HQ. Qed.

Lemma verify_privilege_drop_trace uid gid (w : World K) :
  match verify_privilege_drop uid gid w with
  | Ret _ w' => wtrace w' = [Ev Getegid gid; Ev Getgid gid; Ev Geteuid uid; Ev Getuid uid] ++ wtrace w
  | Throw e _ => exn_of e = SecurityError
  | _ => False
  end.
Proof.
  unfold verify_privilege_drop, do_call. run.
  destruct (sys Getuid _) as [u1 k1]. cbn [wk]. destruct (sys Geteuid _) as [u2 k2]. cbn [wk].
  destruct (sys Getgid _) as [g1 k3]. cbn [wk]. destruct (sys Getegid _) as [g2 k4]. cbn [wk].
  destruct (Z.eqb_spec u1 uid), (Z.eqb_spec u2 uid); simpl; try done.
  destruct (Z.eqb_spec g1 gid), (Z.eqb_spec g2 gid); simpl; try done. by subst.
Qed.

Lemma switch_user_ok p (w : World K) :
  twp switch_user_ (λ ok s, s.1 = p ∧ (ok = true → became (user (config_ p)) (wtrace w) (wtrace s.2)))
    (p, w).
Proof.
  unfold switch_user_. apply twp_bind, twp_the. simpl.
  apply twp_if; intros Hu.
  { apply twp_ret. split; [done|]. left. split; [|done].
    apply orb_true_iff in Hu as [Hu|Hu]; apply bool_decide_eq_true in Hu; auto. }
  apply twp_bind, (twp_call_any Getuid). intros u w1 H1.
  apply twp_if; intros Hroot.
  { apply twp_ret. split; [done|]. right. left. exists u. split; [|done].
    by apply negb_true_iff, Z.eqb_neq in Hroot. }
  apply negb_false_iff, Z.eqb_eq in Hroot as ->.
  apply twp_bind, (twp_call_any (Getpwnam _)). intros [[uid gid]|] w2 H2; [|by apply twp_ret].
  apply twp_bind, (twp_call_any (Initgroups _ _)). intros r1 w3 H3. simpl in r1.
  apply twp_if; intros Hr1; [by apply twp_ret|].
  apply twp_bind, (twp_call_any (Setgid _)). intros r2 w4 H4. simpl in r2.
  apply twp_if; intros Hr2; [by apply twp_ret|].
  apply twp_bind, (twp_call_any (Setuid _)). intros r3 w5 H5. simpl in r3.
  apply twp_if; intros Hr3; [by apply twp_ret|].
  pose proof (verify_privilege_drop_trace uid gid w5) as Hv.
  unfold twp, catch_security, try_catch, in_world, zoom. run. cbn [snd].
  destruct (verify_privilege_drop uid gid w5) as [[] w6|e w6|h w6| |]; try done.
  - simpl. split; [done|]. intros _. right. right. exists uid, gid, r1, r2, r3.
    split_and!; [lia..|]. rewrite Hv, H5, H4, H3, H2, H1. done.
  - simpl. by rewrite decide_True.
Qed.

(** The process object is only read. *)
Local Abbreviation only p := (λ s : Process * World K, s.1 = p).

Lemma total_only_call p c : total (only p) (call c).
Proof. intros [q w] Hq. unfold call, in_world, zoom, do_call. simpl in *. by destruct (sys c (wk w)). Qed.

Lemma total_only_the {A} p (f : Process → A) : total (only p) (the f).
Proof. apply total_gets. Qed.

Lemma total_mfor {S A} (I : S → Prop) (l : list A) body :
  (∀ x, total I (body x)) → total I (mfor l body).
Proof. intros Hb. induction l as [|x l IH]; simpl; [apply total_ret|]. apply total_bind; auto. Qed.

Ltac only_calls := repeat (total_step || match goal with
  | |- @total _ _ _ (@call _ _ ?c) => apply (total_only_call _ c)
  | |- total _ (the _) => apply total_only_the
  | |- total _ (mfor _ _) => apply total_mfor; intros ?
  | |- total _ (match ?x with _ => _ end) => destruct x end).

Lemma total_fds : total (λ _ : World K, True) close_inherited_fds.
Proof.
  unfold close_inherited_fds. apply total_bind; [by apply (total_do_call _ Getrlimit)|].
  intros [n|]; [|apply total_ret]. apply total_mfor. intros fd.
  by apply (total_do_call _ (Close fd)).
Qed.

Lemma total_only_fds p : total (only p) (in_world close_inherited_fds).
Proof.
  intros [q w] Hq. unfold in_world, zoom. simpl in *.
  by destruct (total_Ret _ _ w total_fds Logic.I) as (a & w' & -> & _).
Qed.

Lemma hwp_only {A B} p (m : M (Process * World K) A) (k : A → M (Process * World K) B) Q H w :
  total (only p) m → (∀ a w', hwp (k a) Q H (p, w')) → hwp (m ≫= k) Q H (p, w).
Proof.
  intros Hm Hk. apply hwp_bind, hwp_twp, (twp_total (only p)); [done|done|].
  intros a [q w'] Hq. simpl in Hq. subst q. apply Hk.
Qed.

(** How the child of [p] may end: [child_end p h t]. *)
Definition child_end (p : Process) (h : halt) (t : list event) : Prop :=
  match h with
  | HExit code => code = 125 ∨ code = 126 ∨ code = 127
  | HExec argv =>
    argv = parse_command_ (command (config_ p))
    ∧ ∃ t0 t1, t = Ev (Execvp argv) true :: t1 ∧ became (user (config_ p)) t0 t1
  | HAbort => False
  end.

Lemma setup_child_ok p (w : World K) :
  hwp setup_child_process_ (λ _ _, True) (λ h s, child_end p h (wtrace s.2)) (p, w).
Proof.
  unfold setup_child_process_. do 4 (apply (hwp_only p); [only_calls|intros _ ?]).
  apply (hwp_only p); [apply total_only_fds|intros _ ?].
  apply (hwp_only p); [unfold setup_working_directory_; only_calls|intros ok ?].
  destruct ok; [|apply hwp_bind, hwp_die; simpl; auto].
  apply (hwp_only p); [only_calls|intros _ ?].
  apply (hwp_only p); [unfold setup_environment_; only_calls|intros _ ?].
  apply (hwp_only p); [only_calls|intros mask ?].
  apply (hwp_only p); [only_calls|intros _ w1].
  apply hwp_bind, hwp_twp. eapply twp_mono; [apply switch_user_ok|].
  intros ok [q w2] [Hq Hd]. simpl in *. subst q.
  destruct ok; [|apply hwp_bind, hwp_die; simpl; auto].
  apply hwp_bind, hwp_twp, twp_ret, hwp_bind, hwp_twp, twp_the. simpl.
  apply hwp_bind, hwp_twp, (twp_call_any (Execvp _)). intros [] w3 Hw3; simpl; [|done].
  split; [done|]. exists (wtrace w1), (wtrace w2). split; [done|auto].
Qed.

Lemma child_branch_ok p out err (w : World K) :
  hwp (child_branch out err) (λ _ _, False) (λ h s, child_end p h (wtrace s.2)) (p, w).
Proof.
  unfold child_branch. do 5 (apply (hwp_only p); [only_calls|intros ? ?]).
  apply hwp_bind. eapply hwp_mono; [apply setup_child_ok| |auto].
  intros _ s _. apply hwp_die. simpl. auto.
Qed.
End child.

(** ** The command line *)

(** An argument as the command line may write it. *)
Definition quote_char (c : ascii) : bytes :=
  if char_eqb c BSLASH || char_eqb c DQUOTE then [BSLASH; c] else [c].
Definition quote (arg : bytes) : bytes := [DQUOTE] ++ concat (map quote_char arg) ++ [DQUOTE].
Definition command_line (argv : list bytes) : bytes :=
  concat (map (λ arg, quote arg ++ [SPACE]) argv).

Lemma tokenize_quoted l cur s :
  foldl tokenize_char (mkTok l cur true false) (concat (map quote_char s))
  = mkTok l (cur ++ s) true false.
Proof.
  revert cur. induction s as [|c s IH]; intros cur; [by rewrite app_nil_r|].
  cbn [map concat]. rewrite foldl_app.
  assert (foldl tokenize_char (mkTok l cur true false) (quote_char c)
          = mkTok l (cur ++ [c]) true false) as ->.
  { unfold quote_char. destruct (char_eqb c BSLASH) eqn:E1; simpl; [done|].
    destruct (char_eqb c DQUOTE) eqn:E2; simpl; [done|].
    unfold tokenize_char. simpl. rewrite E1, E2, andb_false_r. done. }
  rewrite IH, <- app_assoc. done.
Qed.

Lemma tokenize_argument l s :
  foldl tokenize_char (mkTok l [] false false) (quote s ++ [SPACE])
  = mkTok (if bool_decide (s = []) then l else l ++ [s]) [] false false.
Proof.
  unfold quote. rewrite !foldl_app. simpl.
  change (tokenize_char (mkTok l [] false false) DQUOTE) with (mkTok l [] true false).
  rewrite tokenize_quoted. simpl.
  change (tokenize_char (mkTok l s true false) DQUOTE) with (mkTok l s false false).
  unfold tokenize_char. simpl. case_bool_decide; simpl; congruence.
Qed.

Lemma tokenize_command_line l argv :
  foldl tokenize_char (mkTok l [] false false) (command_line argv)
  = mkTok (l ++ filter (λ a, a ≠ []) argv) [] false false.
Proof.
  revert l. induction argv as [|a argv IH]; intros l; [by rewrite app_nil_r|].
  cbn [command_line map concat]. rewrite foldl_app, tokenize_argument.
  fold (command_line argv). rewrite IH. case_bool_decide.
  - by rewrite filter_cons_False by auto.
  - by rewrite filter_cons_True, <- app_assoc by done.
Qed.

(** ** The description *)

Lemma two_digits_ok z :
  0 ≤ z < 60 → length (two_digits z) = 2%nat ∧ digits_val (two_digits z) = Z.to_N z.
Proof.
  intros Hz.
  assert (Hall : forallb (λ z, (length (two_digits z) =? 2)%nat
            && (digits_val (two_digits z) =? Z.to_N z)%N) (seqZ 0 60) = true) by (vm_compute; done).
  rewrite forallb_forall in Hall.
  assert (Hin : In z (seqZ 0 60)) by (apply list_elem_of_In, elem_of_seqZ; lia).
  specialize (Hall z Hin). apply andb_true_iff in Hall as [H1%Nat.eqb_eq H2%N.eqb_eq]. done.
Qed.

(** ** The log of the child *)

Section output.
Context {K : Type} `{!Kernel K} (ch : channel).

(** The child wrote [chunks] and closed its end of the pipe. *)
Definition read_output (chunks : list bytes) : M (Process * World K) unit :=
  mfor chunks (handle_read ch false) ;; handle_read ch true [].

(** A working log on the channel, to which [text] was added since its writer
    was [w0] and its files [m0]. *)
Definition logs (w0 : LogWriter) (m0 : gmap bytes bytes) (text : bytes) (s : Process * World K) : Prop :=
  ∃ w m d, writer_of ch s.1 = Some w ∧ wfs s.2 = mkFS m d [] ∧ lw_ok (w, mkFS m d [])
    ∧ added w0 m0 text w m.

Lemma total_logs_call w0 m0 text c : total (logs w0 m0 text) (call c).
Proof. intros [p w] H. unfold call, in_world, zoom, do_call. simpl. by destruct (sys c (wk w)). Qed.

Lemma total_logs_start_read w0 m0 text : total (logs w0 m0 text) (start_read ch).
Proof.
  unfold start_read. apply total_bind; [apply total_gets|]. intros [[fd []]|]; try apply total_ret.
  apply (total_logs_call _ _ _ (AsyncRead fd)).
Qed.

Lemma total_logs_close w0 m0 text : total (logs w0 m0 text) (close_stream ch).
Proof.
  unfold close_stream. apply total_bind; [apply total_gets|]. intros [[fd []]|]; try apply total_ret.
  apply total_bind; [apply (total_logs_call _ _ _ (Close fd))|]. intros _.
  apply total_modify. intros [p w] (lw & m & d & H). exists lw, m, d. by destruct ch.
Qed.

Lemma handle_read_logs w0 m0 text data p w :
  logs w0 m0 text (p, w) →
  current_size_ w0 + size (pending_buffer_ w0) + size (text ++ data) < UINT64 →
  twp (handle_read ch false data) (λ _, logs w0 m0 (text ++ data)) (p, w).
Proof.
  intros (lw & m & d & Hlw & Hfs & Hok & Ha) Hlt. simpl in *.
  unfold handle_read. apply twp_bind.
  apply twp_mono with (λ _, logs w0 m0 (text ++ data)).
  2:{ intros _ s Hs. by apply (twp_total (logs w0 m0 (text ++ data))); [apply total_logs_start_read|..]. }
  destruct (decide (data = [])) as [->|Hd].
  { rewrite bool_decide_eq_true_2, app_nil_r by done. apply twp_ret. exists lw, m, d. done. }
  rewrite bool_decide_eq_false_2 by done. apply (twp_with_writer _ _ _ _ _ lw Hlw). rewrite Hfs.
  destruct (write_added w0 m0 text lw m d data Hok Ha Hlt) as (r & lw' & m' & Hw & Hok' & Ha').
  unfold twp. rewrite Hw. exists lw', m', d. cbn [fst snd]. by rewrite writer_of_set.
Qed.

Lemma read_all_logs w0 m0 chunks text p w :
  logs w0 m0 text (p, w) →
  current_size_ w0 + size (pending_buffer_ w0) + size (text ++ concat chunks) < UINT64 →
  twp (mfor chunks (handle_read ch false)) (λ _, logs w0 m0 (text ++ concat chunks)) (p, w).
Proof.
  revert text p w. induction chunks as [|data chunks IH]; intros text p w Hl Hlt.
  { rewrite app_nil_r. by apply twp_ret. }
  cbn [mfor concat] in *. rewrite app_assoc in Hlt |- *. pose proof (size_nonneg (concat chunks)).
  apply twp_bind. eapply twp_mono.
  - apply (handle_read_logs w0 m0 text); [done|]. rewrite size_app in Hlt. lia.
  - intros _ [p1 w1] Hl1. by apply IH.
Qed.

Lemma eof_flushes w0 m0 text p w :
  logs w0 m0 text (p, w) → current_size_ w0 + size (pending_buffer_ w0) + size text < UINT64 →
  twp (handle_read ch true []) (λ _ s, ∃ lw m d, writer_of ch s.1 = Some lw ∧ wfs s.2 = mkFS m d []
    ∧ lw_ok (lw, mkFS m d []) ∧ added w0 m0 text lw m ∧ pending_buffer_ lw = []) (p, w).
Proof.
  intros Hl Hlt. unfold handle_read.
  apply twp_bind, (twp_total (logs w0 m0 text)); [apply total_logs_close|done|].
  clear p w Hl. intros _ [p w] (lw & m & d & Hlw & Hfs & Hok & Ha). simpl in *.
  apply (twp_with_writer _ _ _ _ _ lw Hlw). rewrite Hfs. unfold twp.
  destruct (flush_added w0 m0 text lw m d Hok Ha Hlt) as (lw' & m' & Hf & ?).
  rewrite Hf. exists lw', m', d. cbn [fst snd]. by rewrite writer_of_set.
Qed.
End output.

(** ** Starts *)

Section timing.
Context {K : Type} `{!Kernel K} {laws : KernelLaws K}.

Lemma step_starts config c l c' :
  starts l → step config c l c' →
  (∃ pid, 0 < pid ∧ c' = mkCore STARTING pid (c_retry c))
  ∨ c' = mkCore (retry_state config (c_retry c + 1)) (c_pid c) (c_retry c + 1).
Proof. intros Hl Hs. destruct Hs; try done; [left; eauto|by right]. Qed.
End timing.

(** ** Properties *)

Section properties.
Context {K : Type} `{!Kernel K} {laws : KernelLaws K}.

(** C4: Every operation of a process returns, whatever the operating
    system answers, and refines the state machine: it changes nothing the
    machine speaks of, or makes one of the transitions of the operation,
    with the signals, the new child and the reaped child that belong to
    the transition and no other. *)
Theorem operations_refine o (p : Process) (w : World K) :
  consistent (config_ p) (core p) →
  retry_count_ p < INT_MAX → (state_ p = BACKOFF → retry_count_ p < 32) →
  twp (run_op o) (λ _ s, config_ s.1 = config_ p ∧ consistent (config_ p) (core s.1) ∧
    ((core s.1 = core p ∧ quiet w s.2)
     ∨ ∃ l, op_labels o l ∧ step (config_ p) (core p) l (core s.1)
            ∧ effect (config_ p) l (core p) w s.2)) (p, w).
Proof.
  intros Hc Hn Hb. eapply twp_mono; [by apply run_op_moves|]. intros ? s Hm.
  pose proof (moved_consistent _ _ _ _ Hc Hm) as Hc'. destruct Hm as [Hcfg%fixed_config Hm].
  rewrite Hcfg in Hc'. done.
Qed.

(** C5: A process is safe for as long as the manager drives it: created
    from any configuration with at most 31 start retries and then put
    through any sequence of operations, it never fails, stays in a state
    the state machine reaches, and sends signals only to a child it created
    and has not yet reaped: never to a process group, and never to a pid
    that may have passed to another process. *)
Theorem lifecycle_safe config ops (w : World K) :
  startretries config ≤ 31 → Z.of_nat (length ops) ≤ INT_MAX →
  tracked w →
  twp (create config) (λ p w', twp (run_ops ops) (λ _ s,
    config_ s.1 = config ∧ reachable config (core s.1) ∧ consistent config (core s.1)
    ∧ own (marks (wtrace s.2))) (p, w')) w.
Proof.
  intros Hs Hl Hk. eapply twp_mono; [apply create_ok|].
  intros p w' (Hcfg & Hcore & Hq & _). pose proof Hcore as [= _ Hp Hr]. eapply twp_mono.
  { apply (run_ops_reach config); [done..| |lia|by eapply quiet_tracked|rewrite Hp; lia].
    rewrite Hcore. constructor. }
  intros ? s (? & ? & []). split_and!; auto using reachable_consistent_aux.
Qed.

(** C25: The exit of the child is recorded and decides what follows: the
    exit status is the exit code or minus the signal, the pid is
    forgotten, a process that was being stopped is STOPPED with its
    retries reset, one that died too early is retried or given up, one
    that crashed later waits in BACKOFF without using up a retry, and one
    that is not restarted is EXITED. *)
Theorem exit_decides status (p : Process) (w : World K) :
  0 ≤ retry_count_ p < INT_MAX →
  twp (on_exit status) (λ _ s,
    exitstatus_ s.1 = exit_code status ∧ core s.1 = exit_core (config_ p) (core p)
    ∧ quiet w s.2) (p, w).
Proof.
  intros Hn. eapply twp_mono; [apply on_exit_ok; unfold INT_MIN; lia|].
  intros ? s (_ & ? & ? & ?). done.
Qed.

Lemma elapsed_enough n c t0 t : 0 ≤ n → t0 ≤ c → c + n * NS ≤ t → n <=? in_seconds (t - t0) = true.
Proof.
  intros Hn Ht0 Ht. apply Z.leb_le. unfold in_seconds.
  apply Z.quot_le_lower_bound; unfold NS in *; lia.
Qed.

(** The signal, by its number, that stands for a name of the configuration:
    only four names have one of their own.  USR1 and USR2, which the
    documentation lists, and ABRT, ALRM, CONT and STOP, which the
    configuration accepts, stand for SIGTERM, as TERM does. *)
Definition sent_for (name : bytes) (sig : Z) : Prop :=
  (name, sig) ∈ [(#"HUP", 1); (#"INT", 2); (#"QUIT", 3); (#"KILL", 9)]
  ∨ name ∉ [ #"HUP"; #"INT"; #"QUIT"; #"KILL"] ∧ sig = 15.

Lemma stop_signal_sent config : sent_for (stopsignal config) (stop_signal config).
Proof.
  unfold sent_for, stop_signal. rewrite !elem_of_cons.
  case_bool_decide as Hint; [left; right; left; by rewrite Hint|].
  case_bool_decide as Hquit; [left; right; right; left; by rewrite Hquit|].
  case_bool_decide as Hkill; [left; right; right; right; left; by rewrite Hkill|].
  case_bool_decide as Hhup; [left; left; by rewrite Hhup|]. right. split; [|done]. intros [?|[?|[?|[?|[]%not_elem_of_nil]]]]; done.
Qed.

(** C30: [stop] asks, then forces.  It sends one signal: that of the
    configured name if this is HUP, INT, QUIT or KILL, and SIGTERM for any
    other name (USR1 and USR2 included).  Once [stopwaitsecs] have passed
    since, an [update] of the still STOPPING process sends SIGKILL to the
    same pid. *)
Theorem stop_then_kill (p : Process) (w : World K) :
  0 < pid_ p → state_ p = RUNNING ∨ state_ p = STARTING → 0 ≤ stopwaitsecs (config_ p) →
  ∃ sig, sent_for (stopsignal (config_ p)) sig ∧
  twp stop (λ _ s,
    state_ s.1 = STOPPING ∧ pid_ s.1 = pid_ p
    ∧ marks (wtrace s.2) = MSignal (pid_ p) sig :: marks (wtrace w)
    ∧ ∀ w2 : World K, clock (wk s.2) + stopwaitsecs (config_ p) * NS ≤ clock (wk w2) →
        twp update (λ _ s', s'.1 = s.1
          ∧ marks (wtrace s'.2) = MSignal (pid_ p) 9 :: marks (wtrace w2)) (s.1, w2)) (p, w).
Proof.
  intros Hp Hst Hw. exists (stop_signal (config_ p)). split; [apply stop_signal_sent|].
  unfold stop. apply twp_bind, twp_the. cbn [fst].
  destruct (Z.leb_spec (pid_ p) 0); [lia|].
  rewrite bool_decide_eq_false_2 by (intros E; rewrite E in Hst; naive_solver). simpl.
  apply twp_bind, twp_set_state; [|intros E; rewrite <- E in Hst; naive_solver].
  intros t1 w1 (Hk1 & _) _ Ht1 _. apply twp_bind, twp_now. intros t2 w2 (Hk2 & _ & Hq2) _ _.
  apply twp_bind, twp_update, twp_bind, (twp_call (Kernel.Kill _ _)). intros r k E.
  pose proof (clock_law _ _ _ _ E). apply twp_ret. simpl. split_and!; [done|done|congruence|].
  intros w3 Hw3. unfold update. apply twp_bind, twp_now. intros t w4 (Hk4 & _) Ht _.
  apply twp_bind, twp_the. simpl. rewrite (elapsed_enough _ (clock k)) by lia.
  apply twp_bind, (twp_call (Kernel.Kill _ _)). intros r' k' E'. apply twp_ret. simpl.
  split; [done|]. change 9 with SIGKILL. congruence.
Qed.

(** *** The states that wait

    STARTING, STOPPING and BACKOFF last as long as [wait_of] says. *)

Definition waiting (p : Process) : Prop :=
  state_ p = STARTING ∨ state_ p = STOPPING ∨ state_ p = BACKOFF.

Definition wait_of (p : Process) : Z :=
  match state_ p with
  | STARTING => startsecs (config_ p)
  | STOPPING => stopwaitsecs (config_ p)
  | BACKOFF => Z.min (2 ^ retry_count_ p) 60
  | _ => 0
  end.

(** The transition that ends the wait. *)
Definition ended (p : Process) (w : World K) (s : Process * World K) : Prop :=
  ∃ l, updates l ∧ step (config_ p) (core p) l (core s.1) ∧ effect (config_ p) l (core p) w s.2.

Lemma shl_int_small {S} n : 0 ≤ n ≤ 30 → shl_int (S := S) n = mret (2 ^ n).
Proof.
  intros Hn. unfold shl_int. destruct (Z.leb_spec 0 n); [|lia]. destruct (Z.ltb_spec n 32); [|lia].
  cbn [andb]. f_equal. rewrite Z.shiftl_1_l. apply to_int_id. unfold INT_MIN, INT_MAX.
  pose proof (Z.pow_le_mono_r 2 n 30 ltac:(lia) ltac:(lia)). pose proof (Z.pow_nonneg 2 n ltac:(lia)). lia.
Qed.

(** Whether the wait is over at the time [t]. *)
Definition due (t : Z) (p : Process) : bool :=
  match state_ p with
  | STARTING | STOPPING | BACKOFF => wait_of p <=? in_seconds (t - state_change_time_ p)
  | _ => false
  end.

Lemma due_later t t' p : t ≤ t' → due t p = true → due t' p = true.
Proof.
  intros Ht. assert (in_seconds (t - state_change_time_ p) ≤ in_seconds (t' - state_change_time_ p)).
  { unfold in_seconds. apply Z.quot_le_mono; [done|lia]. }
  unfold due. destruct (state_ p); rewrite ?Z.leb_le; lia.
Qed.

Lemma due_waiting t p : waiting p → due t p = (wait_of p <=? in_seconds (t - state_change_time_ p)).
Proof. unfold due. by intros [-> |[-> | ->]]. Qed.

(** [update] makes the transition of a wait that is over when it reads the
    clock, and nothing otherwise. *)
Lemma update_exact (p : Process) (w : World K) :
  consistent (config_ p) (core p) → (state_ p = BACKOFF → retry_count_ p ≤ 30) →
  twp update (λ _ s, ∃ t, clock (wk w) ≤ t ≤ clock (wk s.2)
    ∧ if due t p then ended p w s else s.1 = p ∧ quiet w s.2) (p, w).
Proof.
  intros Hc Hn. pose proof (cons_retry _ _ Hc) as Hn0. simpl in Hn0.
  unfold update. apply twp_bind, twp_now. intros t w1 Hw1 Ht Hw1t. apply twp_bind, twp_the. simpl.
  assert (Hrest : due t p = false → ∃ t, clock (wk w) ≤ t ≤ clock (wk w1)
    ∧ if due t p then ended p w (p, w1) else p = p ∧ quiet w w1).
  { intros Hd. exists t. rewrite Hd. split; [lia|done]. }
  unfold due, wait_of in *. destruct (state_ p) eqn:Hst; try (by apply twp_ret, Hrest).
  - apply twp_if; intros He; [|by apply twp_ret, Hrest].
    apply twp_bind, twp_set_state; simpl; [|congruence].
    intros t' w2 Hw2 _ _ _. apply twp_update. exists t. split; [destruct Hw2 as (_ & _ & ?); simpl; lia|].
    rewrite He. exists Started. split_and!; [by right; right| |apply effect_quiet; [auto|by etransitivity]].
    unfold core. simpl. rewrite Hst. constructor.
  - specialize (Hn eq_refl). rewrite shl_int_small by lia. apply twp_bind, twp_ret.
    apply twp_if; intros He; [|by apply twp_ret, Hrest].
    apply twp_bind. eapply twp_mono; [apply start_progress; [by rewrite Hst..|unfold INT_MIN, INT_MAX; lia]|].
    intros ok s (Hcfg & l & Hl & Hs & Hef). apply twp_ret. exists t. split; [destruct Hef; lia|].
    rewrite He. exists l. split_and!; [by left|done|]. by apply effect_before with w1.
  - apply twp_if; intros He; [|by apply twp_ret, Hrest].
    apply twp_bind, (twp_call (Kernel.Kill _ _)). intros r k E. apply twp_ret.
    exists t. split; [pose proof (clock_law _ _ _ _ E); simpl in *; lia|]. rewrite He. exists Escalated.
    split_and!; [by right; left| |].
    + unfold core. simpl. rewrite Hst. constructor. apply (cons_alive _ _ Hc). simpl. auto.
    + by eapply (kill_effect p w w1); [|exact E| |right].
Qed.

Lemma update_waits (p : Process) (w : World K) :
  waiting p → consistent (config_ p) (core p) → retry_count_ p ≤ 30 →
  twp update (λ _ s, ∃ t, clock (wk w) ≤ t ∧
    if wait_of p <=? in_seconds (t - state_change_time_ p) then ended p w s
    else s.1 = p ∧ quiet w s.2) (p, w).
Proof.
  intros Hwait Hc Hn. eapply twp_mono; [by apply update_exact|]. intros _ s (t & [Ht _] & Hs).
  exists t. split; [done|]. by rewrite <- (due_waiting t p Hwait).
Qed.

(** Time passes, and the timer calls [update]. *)
Definition tick : M (Process * World K) unit := call (RunFor 1000) ;; update.

Lemma tick_waits (p : Process) (w : World K) :
  waiting p → consistent (config_ p) (core p) → retry_count_ p ≤ 30 →
  0 ≤ wait_of p → state_change_time_ p ≤ clock (wk w) →
  twp tick (λ _ s, (∃ w1, quiet w w1 ∧ ended p w1 s)
    ∨ s.1 = p ∧ quiet w s.2 ∧ clock (wk w) < clock (wk s.2)
      ∧ clock (wk w) < state_change_time_ p + wait_of p * NS) (p, w).
Proof.
  intros Hwait Hc Hn Hpos Ht0. unfold tick. apply twp_bind, (twp_call (RunFor 1000)). intros [] k E.
  pose proof (run_for_law _ _ _ _ E) as Hk. apply (quiet_sys (RunFor 1000) w) in E; [|done].
  eapply twp_mono; [by apply update_waits|]. intros _ s (t & Ht & Hs). simpl in *.
  destruct (wait_of p <=? _) eqn:He; [by left; eauto|right]. destruct Hs as [Hp Hq].
  split_and!; [done|by etransitivity| |].
  - destruct Hq as (_ & _ & Hq). simpl in Hq. lia.
  - destruct (Z.lt_ge_cases (clock (wk w)) (state_change_time_ p + wait_of p * NS)); [done|].
    rewrite (elapsed_enough _ (state_change_time_ p)) in He by lia. done.
Qed.

Lemma waits_end m (p : Process) (w : World K) :
  waiting p → consistent (config_ p) (core p) → retry_count_ p ≤ 30 →
  0 ≤ wait_of p → state_change_time_ p ≤ clock (wk w) →
  state_change_time_ p + wait_of p * NS ≤ clock (wk w) + Z.of_nat m →
  ∃ n w1, (n ≤ m)%nat ∧ quiet w w1 ∧ mfor (replicate n ()) (λ _, tick) (p, w) = Ret tt (p, w1)
    ∧ twp tick (λ _ s, ∃ w2, quiet w1 w2 ∧ ended p w2 s) (p, w1).
Proof.
  intros Hwait Hc Hn Hpos. revert w. induction m as [|m IH]; intros w Ht0 Hm;
    pose proof (tick_waits p w Hwait Hc Hn Hpos Ht0) as Ht; apply twp_elim in Ht as ([] & s & Es & Ht).
  - exists 0%nat, w. split_and!; [done|done|done|]. unfold twp. rewrite Es. destruct Ht as [?|(_ & _ & _ & ?)]; [done|lia].
  - destruct Ht as [Ht|(Hp & Hq & Hlt & _)].
    { exists 0%nat, w. split_and!; [lia|done|done|]. unfold twp. by rewrite Es. }
    destruct s as [q w1]. simpl in *. subst q.
    destruct (IH w1) as (n & w2 & Hnm & Hq2 & En & Hend); [lia|lia|].
    exists (S n), w2. split_and!; [lia|by transitivity w1| |done].
    cbn [replicate mfor]. unfold mbind, M_bind. by rewrite Es.
Qed.

(** C9: No process waits for ever.  From STARTING, STOPPING or BACKOFF
    (with at most 30 retries), and however little time passes between the
    ticks of the timer, a tick comes, after at most as many as the
    nanoseconds left of the wait, that ends it: with RUNNING, with SIGKILL
    to the child, or with another start; the ticks before it do nothing. *)
Theorem waiting_ends (p : Process) (w : World K) :
  waiting p → consistent (config_ p) (core p) → retry_count_ p ≤ 30 →
  0 ≤ wait_of p → state_change_time_ p ≤ clock (wk w) →
  ∃ n w1, Z.of_nat n ≤ Z.max 0 (state_change_time_ p + wait_of p * NS - clock (wk w))
    ∧ quiet w w1 ∧ mfor (replicate n ()) (λ _, tick) (p, w) = Ret tt (p, w1)
    ∧ twp tick (λ _ s, ∃ w2, quiet w1 w2 ∧ ended p w2 s) (p, w1).
Proof.
  intros Hwait Hc Hn Hpos Ht0.
  destruct (waits_end (Z.to_nat (state_change_time_ p + wait_of p * NS - clock (wk w))) p w)
    as (n & w1 & Hnm & Hrest); [done..|lia|]. exists n, w1. split; [lia|done].
Qed.

(** The exponential backoff.  After [n <= 30] retries a process in
    BACKOFF is restarted by the first [update] at least
    [min(2^n, 60)] seconds after it entered the state, and left alone by
    an earlier one. *)
Lemma backoff_delay (p : Process) (w : World K) :
  state_ p = BACKOFF → consistent (config_ p) (core p) → retry_count_ p ≤ 30 →
  twp update (λ _ s, ∃ t, clock (wk w) ≤ t ∧
    if Z.min (2 ^ retry_count_ p) 60 <=? in_seconds (t - state_change_time_ p)
    then ∃ l, starts l ∧ step (config_ p) (core p) l (core s.1)
              ∧ effect (config_ p) l (core p) w s.2
    else s.1 = p ∧ quiet w s.2) (p, w).
Proof.
  intros Hst Hc Hn. eapply twp_mono; [apply update_waits; [by right; right|done|done]|].
  intros _ s (t & Ht & Hs). exists t. split; [done|]. unfold wait_of in Hs. rewrite Hst in Hs.
  destruct (_ <=? _); [|done]. destruct Hs as (l & [Hl|Hl] & Hs & He); [by exists l|].
  unfold core in Hs at 1. rewrite Hst in Hs. by destruct Hl as [->| ->]; inversion Hs.
Qed.

(** *** Crash loops *)

(** [op], which starts the process, and then the exit of the child, if there
    is one: at any later time and with any status, but before the process
    was considered started. *)
Definition attempt {A} (op : M (Process * World K) A) (Q : Process → Prop) (s : Process * World K) : Prop :=
  twp op (λ _ s1,
    if decide (state_ s1.1 = STARTING)
    then ∀ status w2, twp (on_exit status) (λ _ s2, Q s2.1) (s1.1, w2)
    else Q s1.1) s.

(** [n] such attempts, each made by the update that finds the wait over. *)
Fixpoint restarts (n : nat) (Q : Process → Prop) (p : Process) : Prop :=
  match n with
  | O => Q p
  | S n => ∀ w : World K, state_change_time_ p + wait_of p * NS ≤ clock (wk w) →
             attempt update (restarts n Q) (p, w)
  end.

(** One attempt, whether the spawn fails or the child dies. *)
Lemma attempt_ok {A} (op : M (Process * World K) A) Q p w :
  autorestart (config_ p) = true → pid_ p = -1 → 0 ≤ retry_count_ p < INT_MAX →
  twp op (λ _ s, config_ s.1 = config_ p ∧ ∃ l, starts l ∧ step (config_ p) (core p) l (core s.1)) (p, w) →
  (∀ q, config_ q = config_ p →
     core q = mkCore (retry_state (config_ p) (retry_count_ p + 1)) (-1) (retry_count_ p + 1) → Q q) →
  attempt op Q (p, w).
Proof.
  intros Ha Hpid Hn Hop HQ. eapply twp_mono; [exact Hop|]. intros ? [p1 w1] (Hcfg & l & Hl & Hst). cbn [fst] in *.
  destruct (step_starts _ _ _ _ Hl Hst) as [(pid & Hpos & Hc)|Hc]; pose proof Hc as [= H1 H2 H3].
  - rewrite H1, decide_True by done. intros status w2.
    eapply twp_mono; [apply on_exit_ok; rewrite H3; unfold INT_MIN; lia|].
    intros _ [q w3] (Hcfg'%fixed_config & Hc' & _). apply HQ; [cbn in *; congruence|]. cbn [fst] in *. rewrite Hc', Hcfg, Hc.
    unfold exit_core. simpl. by rewrite Ha.
  - rewrite decide_False; [apply HQ; [done|]; by rewrite Hc; simpl; rewrite Hpid|].
    rewrite H1. unfold retry_state. by destruct (_ <=? _).
Qed.

Lemma update_config (p : Process) (w : World K) :
  consistent (config_ p) (core p) → (state_ p = BACKOFF → retry_count_ p ≤ 30) → retry_count_ p < INT_MAX →
  twp update (λ _ s, config_ s.1 = config_ p) (p, w).
Proof.
  intros Hc Hb Hn. eapply twp_mono; [apply (run_op_moves OpUpdate p w); [done|done|intros E; specialize (Hb E); lia]|].
  by intros _ s [?%fixed_config _].
Qed.

(** The update that ends the wait in BACKOFF. *)
Lemma restart_attempt Q (p : Process) (w : World K) :
  autorestart (config_ p) = true → state_ p = BACKOFF → pid_ p = -1 →
  0 ≤ retry_count_ p ≤ 30 → retry_count_ p < startretries (config_ p) →
  state_change_time_ p + wait_of p * NS ≤ clock (wk w) →
  (∀ q, config_ q = config_ p →
     core q = mkCore (retry_state (config_ p) (retry_count_ p + 1)) (-1) (retry_count_ p + 1) → Q q) →
  attempt update Q (p, w).
Proof.
  intros Ha Hst Hpid Hn Hlow Hdue HQ. assert (Hwait : wait_of p = Z.min (2 ^ retry_count_ p) 60) by (unfold wait_of; by rewrite Hst).
  assert (0 ≤ wait_of p) by (rewrite Hwait; pose proof (Z.pow_nonneg 2 (retry_count_ p) ltac:(lia)); lia).
  assert (Hc : consistent (config_ p) (core p)).
  { constructor; simpl; rewrite ?Hst, ?Hpid; intuition (congruence || lia). }
  apply attempt_ok; [done|done|unfold INT_MAX; lia| |done].
  pose proof (backoff_delay p w Hst Hc ltac:(lia)) as Hd.
  pose proof (update_config p w Hc ltac:(lia) ltac:(unfold INT_MAX; lia)) as Hcfg. unfold twp in *.
  destruct (update (p, w)) as [u s| | | |]; try done. split; [done|]. destruct Hd as (t & Ht & Hs).
  rewrite <- Hwait, (elapsed_enough _ (state_change_time_ p)) in Hs by lia.
  destruct Hs as (l & Hl & Hs & _). by exists l.
Qed.

Lemma restarts_ok k Q (p : Process) :
  autorestart (config_ p) = true → pid_ p = -1 → 0 ≤ retry_count_ p →
  state_ p = retry_state (config_ p) (retry_count_ p) →
  retry_count_ p + Z.of_nat k ≤ Z.max (retry_count_ p) (startretries (config_ p)) → retry_count_ p + Z.of_nat k ≤ 31 →
  (∀ q, config_ q = config_ p → core q = mkCore (retry_state (config_ p) (retry_count_ p + Z.of_nat k)) (-1)
     (retry_count_ p + Z.of_nat k) → Q q) →
  restarts k Q p.
Proof.
  revert p. induction k as [|k IH]; intros p Ha Hpid Hn Hst Hmax H31 HQ; cbn [restarts].
  { apply HQ; [done|]. rewrite Z.add_0_r. unfold core. by rewrite Hst, Hpid. }
  intros w Hw. apply restart_attempt; [done| |done|lia|lia|done|].
  { rewrite Hst. unfold retry_state. destruct (Z.leb_spec (startretries (config_ p)) (retry_count_ p)); [lia|done]. }
  intros q Hcfg Hcore. pose proof Hcore as [= Hs Hp Hr]. rewrite <- Hcfg in *.
  apply IH; [done|done|lia|by rewrite Hr|lia|lia|]. intros q' Hcfg' Hcore'. apply HQ; [congruence|].
  rewrite Hcore', Hr. by replace (retry_count_ p + 1 + Z.of_nat k) with (retry_count_ p + Z.of_nat (S k)) by lia.
Qed.

(** C24: A program that cannot be kept up is given up after exactly
    [max 1 startretries] attempts, the first of which is [start] and the
    others the updates that find the delay of BACKOFF over.  When [n] of them
    have failed (the spawn failed, or the child exited, with whatever status,
    before it was considered started), with autorestart, the process counts
    [n] retries and has no child; it is in BACKOFF, from which the next
    update is an attempt again, as long as [n] is less than [startretries],
    and FATAL otherwise, where updates do nothing. *)
Theorem retries_then_fatal k (p : Process) (w : World K) :
  autorestart (config_ p) = true → core p = mkCore STOPPED (-1) 0 →
  let n := 1 + Z.of_nat k in n ≤ Z.max 1 (startretries (config_ p)) → n ≤ 31 →
  attempt start (restarts k (λ q,
    pid_ q = -1 ∧ retry_count_ q = n
    ∧ state_ q = (if startretries (config_ p) <=? n then FATAL else BACKOFF)
    ∧ (state_ q = FATAL → ∀ w : World K, twp update (λ _ s, s.1 = q ∧ quiet w s.2) (q, w)))) (p, w).
Proof.
  intros Ha Hcore n Hn H31. pose proof Hcore as [= Hs Hp Hr].
  apply attempt_ok; [done|done|rewrite Hr; done|..].
  { eapply twp_mono; [apply (start_progress p w); [by rewrite Hs..|by rewrite Hr]|].
    intros ok s (Hcfg%fixed_config & l & Hl & Hst & _). split; [done|]. by exists l. }
  intros q Hcfg Hq. rewrite Hr in Hq. pose proof Hq as [= Hqs Hqp Hqr]. rewrite <- Hcfg in *.
  apply restarts_ok; [done|done|lia|by rewrite Hqr|lia|lia|]. rewrite Hqr.
  replace (0 + 1 + Z.of_nat k) with n by lia. intros q' Hcfg' [= Hs' -> ->]. split_and!; [done|done|done|].
  intros Hfatal w'. unfold update. apply twp_bind, twp_now. intros t w1 Hq1 _ _. apply twp_bind, twp_the. simpl.
  rewrite Hfatal. by apply twp_ret.
Qed.

(** Where the cap of the backoff fails.  With 31 retries the shift
    gives a negative delay, so the restart is immediate instead of after
    60 seconds; with 32 or more it is undefined behaviour. *)
Lemma backoff_overflows (p : Process) (w : World K) :
  state_ p = BACKOFF → state_change_time_ p ≤ clock (wk w) →
  (retry_count_ p = 31 →
     twp update (λ _ s, ∃ l, starts l ∧ step (config_ p) (core p) l (core s.1)
              ∧ effect (config_ p) l (core p) w s.2) (p, w))
  ∧ (32 ≤ retry_count_ p → update (p, w) = Undef).
Proof.
  intros Hst Ht0. split; intros Hn.
  - unfold update. apply twp_bind, twp_now. intros t w1 Hw1 Ht _.
    apply twp_bind, twp_the. simpl. rewrite Hst, Hn.
    change (shl_int 31) with (mret (M := M (Process * World K)) INT_MIN).
    apply twp_bind, twp_ret. change (Z.min INT_MIN 60) with INT_MIN.
    assert (INT_MIN <=? in_seconds (t - state_change_time_ p) = true) as ->.
    { apply Z.leb_le. unfold in_seconds. pose proof (Z.quot_pos (t - state_change_time_ p) NS).
      unfold NS, INT_MIN in *. lia. }
    apply twp_bind. eapply twp_mono; [apply start_progress; [by rewrite Hst..|unfold INT_MIN, INT_MAX; lia]|].
    intros ok s (Hcfg & l & Hl & Hs & Hef). apply twp_ret.
    exists l. split_and!; [done..|]. by apply effect_before with w1.
  - unfold update, now, call, in_world, zoom, do_call, the. run. simpl.
    destruct (sys SteadyNow (wk w)) as [t k]. simpl. rewrite Hst. unfold shl_int.
    destruct (Z.ltb_spec (retry_count_ p) 32); [lia|]. by rewrite andb_false_r.
Qed.
End properties.

(** C23: The command line says what it means.  Every list of arguments,
    quoted one by one, is parsed back as its non-empty arguments, whatever
    spaces, quotes and backslashes they contain. *)
Theorem parse_command_roundtrip argv :
  parse_command_ (command_line argv) = filter (λ a, a ≠ []) argv.
Proof. unfold parse_command_. by rewrite tokenize_command_line. Qed.

(** C22: What the child of a process runs, and as whom.  The child's branch
    never returns into the daemon: it exits with 125, 126 or 127, or it
    executes the parsed command; and it executes it only when no user is
    configured, when the daemon is not root, or when [initgroups], [setgid]
    and [setuid] to the configured user succeeded in this order and the four
    ids read afterwards are the user's. *)
Theorem child_never_returns {K} `{!Kernel K} p out err (w : World K) :
  match child_branch out err (p, w) with
  | Halt h s => child_end p h (wtrace s.2)
  | _ => False
  end.
Proof.
  pose proof (child_branch_ok p out err w) as H. unfold hwp in H.
  by destruct (child_branch out err (p, w)).
Qed.

(** The description of a running process can be read: the uptime is
    split into hours, minutes and seconds, the last two below 60 and
    printed as two digits. *)
Lemma describe_reads_back pid uptime :
  0 ≤ uptime →
  ∃ h m s, uptime = 3600 * h + 60 * m + s ∧ 0 ≤ h ∧ 0 ≤ m < 60 ∧ 0 ≤ s < 60
    ∧ describe pid uptime = #"pid " ++ to_string pid ++ #", uptime " ++ to_string h ++ #":"
        ++ two_digits m ++ #":" ++ two_digits s
    ∧ length (two_digits m) = 2%nat ∧ digits_val (two_digits m) = Z.to_N m
    ∧ length (two_digits s) = 2%nat ∧ digits_val (two_digits s) = Z.to_N s.
Proof.
  intros Hu. exists (uptime / 3600), (uptime mod 3600 / 60), (uptime mod 60).
  pose proof (Z.mod_pos_bound uptime 3600 ltac:(lia)).
  pose proof (Z.mod_pos_bound uptime 60 ltac:(lia)).
  assert (Hm : 0 ≤ uptime mod 3600 / 60 < 60).
  { split; [apply Z.div_pos|apply Z.div_lt_upper_bound]; lia. }
  destruct (two_digits_ok _ Hm) as [? ?]. destruct (two_digits_ok (uptime mod 60)) as [? ?]; [lia|].
  split_and!; try done; try lia.
  - pose proof (Z.div_mod uptime 3600 ltac:(lia)). pose proof (Z.div_mod (uptime mod 3600) 60 ltac:(lia)).
    assert (uptime mod 60 = (uptime mod 3600) mod 60); [|lia].
    rewrite (Z.mod_mod_divide uptime 3600 60); [done|by exists 60].
  - by apply Z.div_pos.
  - unfold describe. rewrite !Z.quot_div_nonneg, !Z.rem_mod_nonneg; try lia; try done.
    rewrite Z.rem_mod_nonneg; lia.
Qed.

(** C35: The output of a child reaches its log, rotation on or off, as long
    as the file system works.  Reading the chunks the child wrote and then the
    end of the file leaves nothing pending and log files that hold, from the
    oldest backup to the current file, the text of before followed by exactly
    the concatenation of the chunks, less a beginning that rotations dropped
    and only while more than [max_bytes_] bytes of later text are kept; and
    when the current file has room for the output, or rotation is off, the
    output is appended to it and no other file changes. *)
Theorem output_reaches_log {K} `{!Kernel K} ch chunks p (w : World K) lw m d :
  writer_of ch p = Some lw → wfs w = mkFS m d [] → lw_ok (lw, mkFS m d []) →
  current_size_ lw + size (pending_buffer_ lw) + size (concat chunks) < UINT64 →
  twp (read_output ch chunks) (λ _ s, ∃ lw' m' d', writer_of ch s.1 = Some lw'
    ∧ wfs s.2 = mkFS m' d' [] ∧ lw_ok (lw', mkFS m' d' [])
    ∧ added lw m (concat chunks) lw' m' ∧ pending_buffer_ lw' = []) (p, w).
Proof.
  intros Hw Hfs Hok Hlt. unfold read_output. apply twp_bind.
  eapply twp_mono; [apply (read_all_logs ch lw m chunks [])|].
  - exists lw, m, d. split_and!; try done. apply added_nothing.
  - done.
  - intros ? [p1 w1] Hl. by apply (eof_flushes ch lw m (concat chunks)).
Qed.

(** ** The properties at concrete inputs *)

Definition ex_config : ProgramConfig := {|
  name := #"web"; command := #"/bin/web --port 80"; environment := []; directory := None;
  autorestart := true; user := #"www";
  stdout_log := default_log; stderr_log := default_log; redirect_stderr := false;
  startsecs := 1; startretries := 3; stopwaitsecs := 10; stopsignal := #"INT";
  umask := None;
|}.

(** A process of this configuration, its state entered at time 0. *)
Definition ex_process (st : State) (pid n : Z) : Process :=
  mkProcess ex_config st pid 0 n [] 0 0 0 None None None None.

Lemma operations_refine_witness :
  twp (run_op OpUpdate) (λ _ s, config_ s.1 = ex_config ∧ consistent ex_config (core s.1) ∧
    ((core s.1 = mkCore STOPPING 1000 0 ∧ quiet (later (20 * NS) world0) s.2)
     ∨ ∃ l, updates l ∧ step ex_config (mkCore STOPPING 1000 0) l (core s.1)
            ∧ effect ex_config l (mkCore STOPPING 1000 0) (later (20 * NS) world0) s.2))
    (ex_process STOPPING 1000 0, later (20 * NS) world0).
Proof.
  apply (operations_refine OpUpdate (ex_process STOPPING 1000 0)); [|done|done].
  constructor; simpl; intuition (congruence || lia).
Defined.

Lemma lifecycle_safe_witness :
  twp (create ex_config) (λ p w', twp (run_ops [OpStart; OpUpdate; OpExit 256; OpUpdate; OpKill]) (λ _ s,
    config_ s.1 = ex_config ∧ reachable ex_config (core s.1) ∧ consistent ex_config (core s.1)
    ∧ own (marks (wtrace s.2))) (p, w')) world0.
Proof. apply lifecycle_safe; [done|done|by split]. Defined.

Lemma retries_then_fatal_witness :
  attempt start (restarts 2 (λ q,
    pid_ q = -1 ∧ retry_count_ q = 3 ∧ state_ q = FATAL
    ∧ (state_ q = FATAL → ∀ w : World Sim, twp update (λ _ s, s.1 = q ∧ quiet w s.2) (q, w))))
    (ex_process STOPPED (-1) 0, world0).
Proof. apply (retries_then_fatal 2 (ex_process STOPPED (-1) 0)); done. Defined.

Lemma exit_decides_witness :
  twp (on_exit 9) (λ _ s,
    exitstatus_ s.1 = -9 ∧ core s.1 = mkCore BACKOFF (-1) 0 ∧ quiet world0 s.2)
    (ex_process RUNNING 1000 0, world0).
Proof. by apply (exit_decides 9 (ex_process RUNNING 1000 0)). Defined.

Lemma stop_then_kill_witness :
  ∃ sig, sent_for #"INT" sig ∧
  twp stop (λ _ s,
    state_ s.1 = STOPPING ∧ pid_ s.1 = 1000
    ∧ marks (wtrace s.2) = [MSignal 1000 sig]
    ∧ ∀ w2 : World Sim, clock (wk s.2) + 10 * NS ≤ clock (wk w2) →
        twp update (λ _ s', s'.1 = s.1
          ∧ marks (wtrace s'.2) = MSignal 1000 9 :: marks (wtrace w2)) (s.1, w2))
    (ex_process RUNNING 1000 0, world0).
Proof. apply (stop_then_kill (ex_process RUNNING 1000 0)); [done|by left|done]. Defined.

Lemma waiting_ends_witness :
  ∃ n w1, Z.of_nat n ≤ Z.max 0 (0 + 10 * NS - clock (wk world0)) ∧ quiet world0 w1
    ∧ mfor (replicate n ()) (λ _, tick) (ex_process STOPPING 1000 0, world0)
      = Ret tt (ex_process STOPPING 1000 0, w1)
    ∧ twp tick (λ _ s, ∃ w2, quiet w1 w2 ∧ ended (ex_process STOPPING 1000 0) w2 s)
        (ex_process STOPPING 1000 0, w1).
Proof.
  apply (waiting_ends (ex_process STOPPING 1000 0) world0); [by right; left| |done|done|done].
  constructor; simpl; intuition (congruence || lia).
Defined.

Lemma output_reaches_log_witness :
  twp (read_output Stdout [ #"ab"; ex_data; #"x"]) (λ _ s, ∃ lw' m' d', stdout_log_writer_ s.1 = Some lw'
    ∧ wfs s.2 = mkFS m' d' [] ∧ lw_ok (lw', mkFS m' d' [])
    ∧ added (ex_writer 10 2 ex_line []) (ex_files ex_line) (concat [ #"ab"; ex_data; #"x"]) lw' m'
    ∧ pending_buffer_ lw' = [])
    (set_stdout_log_writer (Some (ex_writer 10 2 ex_line [])) (ex_process RUNNING 1000 0),
     mkWorld sim0 (mkFS (ex_files ex_line) ∅ []) [] no_statics).
Proof.
  apply (output_reaches_log Stdout _ _ _ (ex_writer 10 2 ex_line []) (ex_files ex_line) ∅);
    [done|done|by apply ex_ok|done].
Defined.
