(* ===== verification/XmlRpc.v ===== *)
(** * rpc/xmlrpc.{h,cpp}

    The XML the server writes: typed values, members and structures, and
    the description of a process.  The properties show what a client can
    rely on: the text determines the information, whatever a process is
    called and whatever its paths and error messages contain. *)

From Stdlib Require Import ZArith NArith Ascii String.
From stdpp Require Import base gmap sets list strings.
From S2P Require Import Prelude CppString StringUtil ConfigTypes Files LogWriter Kernel Process.

(** [std::variant<std::string_view, int, bool>] *)
Inductive Value := VString (s : bytes) | VInt (z : Z) | VBool (b : bool).

Record Member := mkMember { m_name : bytes; m_value : Value }.

(** A [Struct] is its [items_]. *)
Definition Struct : Type := list Member.

(** The output operators. *)
Definition value_xml (v : Value) : bytes :=
  match v with
  | VString s => #"<string>" ++ escape_xml s ++ #"</string>"
  | VInt z => #"<int>" ++ to_string z ++ #"</int>"
  | VBool b => #"<boolean>" ++ (if b then #"1" else #"0") ++ #"</boolean>"
  end.

Definition member_xml (m : Member) : bytes :=
  #"<member>"
  ++ #"<name>" ++ escape_xml (m_name m) ++ #"</name>"
  ++ #"<value>" ++ value_xml (m_value m) ++ #"</value>"
  ++ #"</member>".

Definition struct_xml (s : Struct) : bytes :=
  #"<struct>" ++ concat (map member_xml s) ++ #"</struct>".

Definition info_struct (info : ProcessInfo) : Struct :=
  [mkMember #"name" (VString (info_name info));
   mkMember #"group" (VString (info_name info));
   mkMember #"statename" (VString (state_name (info_state info)));
   mkMember #"state" (VInt (state_code (info_state info)));
   mkMember #"pid" (VInt (info_pid info));
   mkMember #"exitstatus" (VInt (info_exitstatus info));
   mkMember #"stdout_logfile" (VString (info_stdout_logfile info));
   mkMember #"spawnerr" (VString (info_spawnerr info));
   mkMember #"description" (VString (info_description info))].

Definition info_xml (info : ProcessInfo) : bytes := struct_xml (info_struct info).

Definition infos_xml (infos : list ProcessInfo) : bytes :=
  #"<array><data>"
  ++ concat (map (λ info, #"<value>" ++ info_xml info ++ #"</value>") infos)
  ++ #"</data></array>".

(** What of a process the XML shows. *)
Definition shown (info : ProcessInfo) : bytes * State * (Z * Z) * (bytes * bytes * bytes) :=
  (info_name info, info_state info, (info_pid info, info_exitstatus info),
   (info_stdout_logfile info, info_spawnerr info, info_description info)).

(** ** Texts delimited by tags *)

Definition LT : ascii := "<"%char.

Lemma tag_split a b r r' :
  LT ∉ a → LT ∉ b → a ++ LT :: r = b ++ LT :: r' → a = b ∧ r = r'.
Proof.
  revert b. induction a as [|c a IH]; intros [|d b] Ha Hb H; cbn [app] in H.
  - split; [done|congruence].
  - assert (d = LT) as -> by congruence. set_solver.
  - assert (c = LT) as -> by congruence. set_solver.
  - assert (c = d) as -> by congruence. destruct (IH b) as [-> ->]; [set_solver..|congruence|done].
Qed.

Lemma escape_no_LT s : LT ∉ escape_xml s.
Proof.
  intros H. pose proof (escape_xml_no_markup s) as Hm. rewrite Forall_forall in Hm.
  apply (Hm _ H). unfold markup, LT. set_solver.
Qed.

Lemma escape_inj s t : escape_xml s = escape_xml t → s = t.
Proof. intros H. by rewrite <- (unescape_escape s), H, unescape_escape. Qed.

Lemma to_string_no_LT z : LT ∉ to_string z.
Proof.
  unfold to_string. intros H.
  assert (Hd : ∀ n, LT ∉ dec_N n).
  { intros n Hin. pose proof (dec_N_Forall n) as Hf. rewrite Forall_forall in Hf.
    by apply Hf in Hin. }
  destruct (z <? 0); [|by eapply Hd]. apply elem_of_cons in H as [H|H]; [done|by eapply Hd].
Qed.

Lemma string_split s t r r' :
  escape_xml s ++ LT :: r = escape_xml t ++ LT :: r' → s = t ∧ r = r'.
Proof.
  intros [H ->]%tag_split; [|apply escape_no_LT..]. by apply escape_inj in H as ->.
Qed.

Lemma int_split z z' r r' :
  to_string z ++ LT :: r = to_string z' ++ LT :: r' → z = z' ∧ r = r'.
Proof.
  intros [H ->]%tag_split; [|apply to_string_no_LT..]. by apply to_string_inj in H as ->.
Qed.

Definition same_kind (v v' : Value) : Prop :=
  match v, v' with VString _, VString _ | VInt _, VInt _ | VBool _, VBool _ => True | _, _ => False end.

Lemma value_split v v' r r' :
  same_kind v v' → value_xml v ++ r = value_xml v' ++ r' → v = v' ∧ r = r'.
Proof.
  destruct v, v'; try done; intros _ H; unfold value_xml in H; rewrite <- !app_assoc in H; cbn in H;
    injection H as H.
  - by apply string_split in H as [-> [= ->]].
  - by apply int_split in H as [-> [= ->]].
  - destruct b, b0; simplify_eq/=; try done; by injection H.
Qed.

Lemma member_split n v v' r r' :
  same_kind v v' → member_xml (mkMember n v) ++ r = member_xml (mkMember n v') ++ r' →
  v = v' ∧ r = r'.
Proof.
  intros Hk H. unfold member_xml in H. cbn [m_name m_value] in H. rewrite <- !app_assoc in H.
  do 5 apply app_inv_head in H. apply value_split in H as [-> H]; [|done].
  by do 2 apply app_inv_head in H.
Qed.

Lemma state_code_inj s t : state_code s = state_code t → s = t.
Proof. by destruct s, t. Qed.

Lemma info_split i i' r r' : info_xml i ++ r = info_xml i' ++ r' → shown i = shown i' ∧ r = r'.
Proof.
  intros H. unfold info_xml, struct_xml, info_struct in H. cbn [map concat] in H.
  rewrite <- !app_assoc in H. apply app_inv_head in H.
  do 9 (let E := fresh "E" in apply member_split in H as [E H]; [|done]).
  cbn [app] in H. apply app_inv_head in H. split; [|done].
  assert (info_state i = info_state i') by (apply state_code_inj; congruence).
  unfold shown. congruence.
Qed.

(** ** Properties *)

(** C26: The answer of [getAllProcessInfo] cannot be forged.  Two lists of
    processes with the same XML agree, one by one, in every field the XML
    shows: no name, path, error message or description, whatever markup it
    contains, can pass for a field or a process of its own. *)
Theorem infos_xml_unforgeable infos infos' :
  infos_xml infos = infos_xml infos' → map shown infos = map shown infos'.
Proof.
  unfold infos_xml. intros H. apply app_inv_head in H. revert infos' H.
  induction infos as [|i infos IH]; intros [|i' infos'] H; cbn [map concat] in *;
    rewrite <- ?app_assoc in H; [done|discriminate H..|].
  apply app_inv_head, info_split in H as [-> H].
  apply app_inv_head in H. f_equal. by apply IH.
Qed.

Lemma infos_xml_unforgeable_witness :
  let i := mkInfo #"a</value>" FATAL (-1) 0 [] [] #"exec <failed>" 0 0 0 [] in
  let j := mkInfo #"a</value>" FATAL (-1) 0 [] #"/var/log/a" #"exec <failed>" 12 0 0 [] in
  infos_xml [i] = infos_xml [j] ∧ map shown [i] = map shown [j].
Proof. intros i j. split; [reflexivity|]. apply infos_xml_unforgeable. reflexivity. Defined.
