(* ===== verification/RpcConnection.v ===== *)
(** * rpc/rpc_connection.{h,cpp}

    One connection of the RPC server: the framing of the request out of the
    chunks the socket delivers, the XML-RPC call in it, and the response.
    The dispatcher is a parameter; its state, of any type [St], is threaded
    through, and the connection's own state is the other component. *)

From Stdlib Require Import ZArith NArith Ascii String.
From stdpp Require Import base list strings.
From S2P Require Import Prelude CppString StringUtil BoostAlgo PTree.
From S2P Require Import ConfigTypes Files LogWriter Kernel Process XmlRpc.

(** The buffers, whether an [async_read_some] is outstanding, and the
    responses handed to [async_write]. *)
Record Connection := mkConn {
  request_data_ : bytes;
  reading : bool;
  responses : list bytes;
  sock_open : bool;
}.

(** After the connection was accepted, and [start]ed. *)
Definition new_connection : Connection := mkConn [] false [] true.

Definition CRLFCRLF : bytes := [CR; LF; CR; LF].
Definition LFLF : bytes := [LF; LF].

Definition MAX_REQUEST_SIZE : Z := 1024 * 1024.

(** Where the headers end and the body starts. *)
Definition find_headers (request : bytes) : option (nat * nat) :=
  match find CRLFCRLF request with
  | Some i => Some (i, (i + 4)%nat)
  | None => (λ i, (i, (i + 2)%nat)) <$> find LFLF request
  end.

Definition is_blank (c : ascii) : bool := char_eqb c SPACE || char_eqb c TAB.
Definition is_eol (c : ascii) : bool := char_eqb c CR || char_eqb c LF.

(** [Content-Length] of the headers; 0 without one. *)
Definition content_length `{StringAlgo} (headers : bytes) : result Z :=
  match ifind_first headers #"content-length:" with
  | None => Ok 0
  | Some (_, after_name) =>
    match find_first_from (λ c, negb (is_blank c)) headers after_name with
    | None => Ok 0
    | Some val_start =>
      let value := drop val_start headers in
      stoull (match find_first is_eol value with Some n => take n value | None => value end)
    end
  end.

(** *** Requests and responses *)

Section xml.
Context `{PropertyTree}.

Definition param_value (param : bytes * ptree) : list bytes :=
  if bool_decide (param.1 = #"param") then
    match get_optional param.2 #"value.string" with
    | Some s => [s]
    | None =>
      match get_optional_int param.2 #"value.int" with
      | Some z => [to_string z]
      | None => match get_optional param.2 #"value" with Some s => [s] | None => [] end
      end
    end
  else [].

Definition parse_xmlrpc_request_ (xml : bytes) : result (bytes * list bytes) :=
  let parsed :=
    tree ← read_xml xml;
    method_name ← get_string tree #"methodCall.methodName";
    let params := match get_child_optional tree #"methodCall.params" with
                  | Some params_tree => concat (map param_value (nodes params_tree))
                  | None => []
                  end in
    mret (method_name, params) in
  match parsed with
  | Ok r => Ok r
  | Err e => Err (mkExn RuntimeError (#"Failed to parse XML-RPC request: " ++ what e))
  end.
End xml.

Definition NL : bytes := [LF].
Definition CRLF : bytes := [CR; LF].

(** The XML declaration, quotes included. *)
Definition xml_declaration : bytes :=
  #"<?xml version=" ++ [DQUOTE] ++ #"1.0" ++ [DQUOTE] ++ #"?>" ++ NL.

Definition generate_xmlrpc_response_ (result : bytes) : bytes :=
  xml_declaration
  ++ #"<methodResponse>" ++ NL
  ++ #"  <params>" ++ NL
  ++ #"    <param><value>" ++ result ++ #"</value></param>" ++ NL
  ++ #"  </params>" ++ NL
  ++ #"</methodResponse>" ++ NL.

Definition generate_xmlrpc_fault_ (code : Z) (message : bytes) : bytes :=
  xml_declaration
  ++ #"<methodResponse>" ++ NL
  ++ #"  <fault>" ++ NL
  ++ #"    <value>"
  ++ struct_xml [mkMember #"faultCode" (VInt code); mkMember #"faultString" (VString message)]
  ++ #"</value>" ++ NL
  ++ #"  </fault>" ++ NL
  ++ #"</methodResponse>" ++ NL.

Definition generate_http_response_ (body : bytes) : bytes :=
  #"HTTP/1.1 200 OK" ++ CRLF
  ++ #"Content-Type: text/xml" ++ CRLF
  ++ #"Content-Length: " ++ to_string (Z.of_nat (length body)) ++ CRLF
  ++ #"Connection: close" ++ CRLF
  ++ CRLF
  ++ body.

#[global] Arguments generate_xmlrpc_response_ : simpl never.
#[global] Arguments generate_xmlrpc_fault_ : simpl never.
#[global] Arguments generate_http_response_ : simpl never.

(** *** The connection *)

(** What an [async_read_some] can fail with. *)
Inductive read_error := Eof | OtherError.

#[global] Instance read_error_eq_dec : EqDecision read_error.
Proof. solve_decision. Defined.

Section connection.
Context `{PropertyTree, StringAlgo} {St : Type}.
Local Abbreviation C := (M (Connection * St)).

(** A [std::function], possibly empty. *)
Variable dispatcher_ : option (bytes → list bytes → M St bytes).

Definition this_conn {A} (f : Connection → A) : C A := gets (λ s, f s.1).
Definition update_conn (f : Connection → Connection) : C unit := modify (λ s, (f s.1, s.2)).

Definition begin_read_ : C unit :=
  update_conn (λ c, mkConn (request_data_ c) true (responses c) (sock_open c)).

Definition start_connection : C unit := begin_read_.

Definition send_response_ (body : bytes) : C unit :=
  update_conn (λ c, mkConn (request_data_ c) (reading c)
                      (responses c ++ [generate_http_response_ body]) (sock_open c)).

Definition handle_write_ : C unit :=
  update_conn (λ c, mkConn (request_data_ c) (reading c) (responses c) false).

Definition set_request (f : bytes → bytes) : C unit :=
  update_conn (λ c, mkConn (f (request_data_ c)) (reading c) (responses c) (sock_open c)).

Definition process_request_ (request : bytes) : C unit :=
  try_catch
    (match find_headers request with
     | None => throw (mkExn RuntimeError #"Invalid HTTP request")
     | Some (_, body_start) =>
       call ← lift_result (parse_xmlrpc_request_ (drop body_start request));
       match dispatcher_ with
       | None => throw (mkExn RuntimeError #"No method dispatcher")
       | Some dispatch =>
         result ← zoom snd (λ t s, (s.1, t)) (dispatch call.1 call.2);
         send_response_ (generate_xmlrpc_response_ result)
       end
     end)
    (λ e, send_response_ (generate_xmlrpc_fault_ 1 (what e))).

(** The completion of a read of [data]; the read is no longer
    outstanding. *)
Definition handle_read_ (error : option read_error) (data : bytes) : C unit :=
  update_conn (λ c, mkConn (request_data_ c) false (responses c) (sock_open c)) ;;
  let got_eof := bool_decide (error = Some Eof) in
  if bool_decide (is_Some error) && negb got_eof then mret tt else
  old ← this_conn request_data_;
  if MAX_REQUEST_SIZE <? Z.of_nat (length old) + Z.of_nat (length data) then
    send_response_ (generate_xmlrpc_fault_ 1 #"Request too large (max 1MB)")
  else
  set_request (λ d, d ++ data) ;;
  request ← this_conn request_data_;
  match find_headers request with
  | None => if negb got_eof then begin_read_ else mret tt
  | Some (header_end, body_offset) =>
    n ← lift_result (content_length (take header_end request));
    if Z.of_nat (length request) - Z.of_nat body_offset <? n then
      if negb got_eof then begin_read_ else mret tt
    else
    set_request (take (body_offset + Z.to_nat n)) ;;
    request ← this_conn request_data_;
    process_request_ request
  end.

(** The completions the event loop delivers, one for each read begun. *)
Fixpoint deliver (reads : list (option read_error * bytes)) : C unit :=
  match reads with
  | [] => mret tt
  | (error, data) :: reads =>
    r ← this_conn reading;
    if (r : bool) then handle_read_ error data ;; deliver reads else mret tt
  end.

(** What a request with body [xml] must lead to. *)
Definition answer_request (request xml : bytes) : C unit := λ s,
  let reply body t := Ret tt (mkConn request false [generate_http_response_ body] true, t) in
  match parse_xmlrpc_request_ xml with
  | Err e => reply (generate_xmlrpc_fault_ 1 (what e)) s.2
  | Ok (method_name, params) =>
    match dispatcher_ with
    | None => reply (generate_xmlrpc_fault_ 1 #"No method dispatcher") s.2
    | Some dispatch =>
      match dispatch method_name params s.2 with
      | Ret result t => reply (generate_xmlrpc_response_ result) t
      | Throw e t => reply (generate_xmlrpc_fault_ 1 (what e)) t
      | Halt h t => Halt h (mkConn request false [] true, t)
      | Undef => Undef
      | NoFuel => NoFuel
      end
    end
  end.
End connection.
