(* ===== verification/RpcConnectionSpec.v ===== *)
(** * Properties of rpc/rpc_connection.cpp

    A request is understood however the socket cuts it into chunks, and is
    answered exactly once; a connection keeps a bounded amount of data and
    never sends more than one response. *)

From Stdlib Require Import ZArith NArith Ascii String.
From stdpp Require Import base list strings.
From S2P Require Import Prelude CppString BoostAlgo PTree XmlRpc RpcConnection.

Section framing.
Context `{PropertyTree, StringAlgo} {St : Type}.
Variable dispatcher_ : option (bytes → list bytes → M St bytes).

(** Headers and a body the server can frame: the blank line ends the
    headers and there is none before it, the length is that of the body,
    and the request is not too large. *)
Record well_framed (h b : bytes) : Prop := mkFramed {
  wf_end : find CRLFCRLF (h ++ CRLFCRLF) = Some (length h);
  wf_no_blank : find LFLF (h ++ [CR; LF; CR]) = None;
  wf_length : content_length h = Ok (Z.of_nat (length b));
  wf_size : Z.of_nat (length h) + 4 + Z.of_nat (length b) ≤ MAX_REQUEST_SIZE;
}.

Definition framed (h b : bytes) : bytes := h ++ CRLFCRLF ++ b.

Lemma take_extends {A} n m (l : list A) : (n ≤ m)%nat → ∃ r, take m l = take n l ++ r.
Proof.
  intros Hn. exists (drop n (take m l)). rewrite <- (take_drop n (take m l)) at 1.
  rewrite take_take. by rewrite Nat.min_l.
Qed.

Lemma find_headers_framed h b : well_framed h b →
  find_headers (framed h b) = Some (length h, (length h + 4)%nat).
Proof.
  intros [He _ _ _]. unfold find_headers, framed. rewrite app_assoc.
  by rewrite (find_app _ _ _ _ He).
Qed.

Lemma find_headers_short h b p r : well_framed h b →
  framed h b = p ++ r → (length p < length h + 4)%nat → find_headers p = None.
Proof.
  intros [He Hb _ _] Hp Hl. unfold find_headers.
  destruct (find CRLFCRLF p) as [i|] eqn:E.
  - pose proof (find_bound _ _ _ E) as Hi. apply (find_app _ _ r) in E.
    rewrite <- Hp in E. unfold framed in E. rewrite app_assoc, (find_app _ _ b _ He) in E.
    injection E as <-. cbn [length CRLFCRLF] in Hi. lia.
  - destruct (find LFLF p) as [i|] eqn:E2; [|done].
    assert (Hq : h ++ [CR; LF; CR] = take (length h + 3) (framed h b)).
    { unfold framed. change (CRLFCRLF ++ b) with ([CR; LF; CR] ++ LF :: b).
      rewrite app_assoc. symmetry. apply take_app_length'. by rewrite length_app. }
    destruct (take_extends (length p) (length h + 3) (framed h b)) as [r' Hr]; [lia|].
    rewrite <- Hq, Hp, take_app_length in Hr.
    apply (find_app _ _ r') in E2. congruence.
Qed.

(** One read, with its conditions; it goes on reading unless the peer has
    closed the connection. *)
Lemma handle_read_ok error old data rs op t :
  handle_read_ dispatcher_ error data (mkConn old true rs op, t)
  = let more := negb (bool_decide (error = Some Eof)) in
    if bool_decide (is_Some error) && more then Ret tt (mkConn old false rs op, t) else
    if MAX_REQUEST_SIZE <? Z.of_nat (length old) + Z.of_nat (length data) then
      Ret tt (mkConn old false
        (rs ++ [generate_http_response_ (generate_xmlrpc_fault_ 1 #"Request too large (max 1MB)")]) op, t)
    else
      let request := old ++ data in
      match find_headers request with
      | None => Ret tt (mkConn request more rs op, t)
      | Some (header_end, body_offset) =>
        match content_length (take header_end request) with
        | Err e => Throw e (mkConn request false rs op, t)
        | Ok n =>
          if Z.of_nat (length request) - Z.of_nat body_offset <? n
          then Ret tt (mkConn request more rs op, t)
          else let request := take (body_offset + Z.to_nat n) request in
               process_request_ dispatcher_ request (mkConn request false rs op, t)
        end
      end.
Proof.
  unfold handle_read_, set_request, begin_read_, send_response_, this_conn, update_conn, lift_result.
  run. cbn. destruct (_ && _); [done|]. cbn. destruct (_ <? _); [done|]. cbn.
  destruct (find_headers _) as [[i j]|]; [|by destruct (bool_decide _)]. cbn.
  destruct (content_length _); [|done]. cbn. destruct (_ <? _); [by destruct (bool_decide _)|done].
Qed.

(** A proper prefix of the request: wait for more. *)
Lemma handle_read_more h b old data r t : well_framed h b →
  framed h b = (old ++ data) ++ r → r ≠ [] →
  handle_read_ dispatcher_ None data (mkConn old true [] true, t)
  = Ret tt (mkConn (old ++ data) true [] true, t).
Proof.
  intros Hwf Hp Hr. pose proof Hwf as [_ _ Hn Hs].
  assert (Hlen : (length h + 4 + length b = length (old ++ data) + length r)%nat).
  { rewrite <- length_app, <- Hp. unfold framed. rewrite !length_app. cbn. lia. }
  assert (0 < length r)%nat by (destruct r; [done|cbn; lia]). rewrite length_app in Hlen.
  rewrite handle_read_ok. cbn.
  destruct (Z.ltb_spec MAX_REQUEST_SIZE (Z.of_nat (length old) + Z.of_nat (length data))); [lia|].
  destruct (decide (length (old ++ data) < length h + 4)%nat) as [Hl|Hl].
  - by rewrite (find_headers_short h b _ r).
  - rewrite length_app in Hl.
    assert (∃ b1, old ++ data = framed h b1 ∧ b = b1 ++ r) as (b1 & Hb1 & ->).
    { exists (drop (length h + 4) (old ++ data)).
      assert (Hf : take (length h + 4) (old ++ data) = h ++ CRLFCRLF).
      { replace (h ++ CRLFCRLF) with (take (length h + 4) (framed h b)).
        - rewrite Hp. symmetry. apply take_app_le. rewrite length_app. lia.
        - unfold framed. rewrite app_assoc. apply take_app_length'. by rewrite length_app. }
      assert (Ho : old ++ data = framed h (drop (length h + 4) (old ++ data))).
      { unfold framed. by rewrite app_assoc, <- Hf, take_drop. }
      split; [done|]. rewrite Ho in Hp. unfold framed in Hp. rewrite <- !app_assoc in Hp.
      by do 2 apply app_inv_head in Hp. }
    rewrite Hb1. destruct Hwf as [He Hb _ _].
    unfold find_headers, framed at 1. rewrite app_assoc, (find_app _ _ _ _ He).
    unfold framed at 1. rewrite take_app_length, Hn.
    unfold framed. rewrite !length_app. cbn [length CRLFCRLF].
    destruct (Z.ltb_spec (Z.of_nat (length h + (4 + length b1)) - Z.of_nat (length h + 4))
      (Z.of_nat (length b1 + length r))); [done|lia].
Qed.

(** The rest of the request: process it. *)
Lemma handle_read_rest h b old data t : well_framed h b →
  framed h b = old ++ data →
  handle_read_ dispatcher_ None data (mkConn old true [] true, t)
  = answer_request dispatcher_ (framed h b) b (mkConn old true [] true, t).
Proof.
  intros Hwf Hp. pose proof Hwf as [_ _ Hn Hs].
  assert (Hlen : length (framed h b) = (length h + 4 + length b)%nat).
  { unfold framed. rewrite !length_app. cbn. lia. }
  rewrite handle_read_ok. cbn.
  destruct (Z.ltb_spec MAX_REQUEST_SIZE (Z.of_nat (length old) + Z.of_nat (length data))).
  { rewrite Hp, length_app in Hlen. lia. }
  rewrite <- Hp, (find_headers_framed h b Hwf). unfold framed at 1. rewrite take_app_length, Hn.
  destruct (Z.ltb_spec (Z.of_nat (length (framed h b)) - Z.of_nat (length h + 4)) (Z.of_nat (length b)));
    [lia|].
  rewrite Nat2Z.id, take_ge by lia. unfold process_request_. rewrite (find_headers_framed h b Hwf).
  assert (drop (length h + 4) (framed h b) = b) as ->.
  { unfold framed. rewrite app_assoc. apply drop_app_length'. by rewrite length_app. }
  unfold answer_request, try_catch, zoom, send_response_, update_conn, lift_result. run.
  destruct (parse_xmlrpc_request_ b) as [[m ps]|e]; [|done]. cbn.
  destruct dispatcher_ as [d|]; [|done]. cbn. by destruct (d m ps t).
Qed.

Lemma deliver_done reads c t : reading c = false →
  deliver dispatcher_ reads (c, t) = Ret tt (c, t).
Proof. intros Hr. destruct reads as [|[e d] reads]; [done|]. cbn. run. cbn. by rewrite Hr. Qed.

Lemma answer_ends request xml s :
  match answer_request dispatcher_ request xml s with
  | Ret u s' => u = tt ∧ reading s'.1 = false
  | Throw _ _ => False
  | _ => True
  end.
Proof.
  unfold answer_request. destruct (parse_xmlrpc_request_ xml) as [[m ps]|e]; [|done].
  destruct dispatcher_ as [d|]; [|done]. by destruct (d m ps s.2).
Qed.

Lemma answer_then_done request xml s reads :
  (answer_request dispatcher_ request xml ;; deliver dispatcher_ reads) s
  = answer_request dispatcher_ request xml s.
Proof.
  pose proof (answer_ends request xml s) as He. unfold mbind, M_bind.
  destruct (answer_request dispatcher_ request xml s) as [u [c t]|e s'| | |]; try done.
  destruct He as [-> He]. by apply deliver_done.
Qed.

Lemma deliver_framed h b chunks old t : well_framed h b →
  framed h b = old ++ concat chunks → old ≠ framed h b →
  deliver dispatcher_ (map (pair None) chunks) (mkConn old true [] true, t)
  = answer_request dispatcher_ (framed h b) b (mkConn old true [] true, t).
Proof.
  intros Hwf. revert old. induction chunks as [|data chunks IH]; intros old Hp Hne.
  { cbn in Hp. by rewrite app_nil_r in Hp. }
  change (deliver dispatcher_ (map (pair None) (data :: chunks)) (mkConn old true [] true, t))
    with ((handle_read_ dispatcher_ None data ;; deliver dispatcher_ (map (pair None) chunks))
            (mkConn old true [] true, t)).
  cbn [concat] in Hp. rewrite app_assoc in Hp.
  destruct (decide (concat chunks = [])) as [Hc|Hc].
  - rewrite Hc, app_nil_r in Hp. unfold mbind at 1, M_bind.
    rewrite (handle_read_rest h b) by done.
    pose proof (answer_then_done (framed h b) b (mkConn old true [] true, t)
      (map (pair None) chunks)) as Ha. run. exact Ha.
  - run. rewrite (handle_read_more h b _ _ (concat chunks)) by done.
    rewrite IH; [done|done|]. intros Heq. apply Hc.
    rewrite Heq in Hp. by rewrite <- (app_nil_r (framed h b)) in Hp at 1; apply app_inv_head in Hp.
Qed.
End framing.

(** ** Any sequence of reads *)

Definition conn_ok (c : Connection) : Prop :=
  Z.of_nat (length (request_data_ c)) ≤ MAX_REQUEST_SIZE
  ∧ (length (responses c) ≤ 1)%nat ∧ (reading c = true → responses c = []).

Section bounded.
Context `{PropertyTree, StringAlgo} {St : Type}.
Variable dispatcher_ : option (bytes → list bytes → M St bytes).
(** What holds before and after the one call of the dispatcher. *)
Variables before after : St → Prop.
Hypothesis dispatcher_safe : ∀ d m ps t, dispatcher_ = Some d → before t →
  ewp (d m ps) (λ _, after) (λ _, after) t.
Hypothesis before_after : ∀ t, before t → after t.

(** While the connection reads, nothing was dispatched. *)
Definition at_most_once (s : Connection * St) : Prop :=
  conn_ok s.1 ∧ if reading s.1 then before s.2 else after s.2.

Lemma conn_ok_quiet d r op : Z.of_nat (length d) ≤ MAX_REQUEST_SIZE → conn_ok (mkConn d r [] op).
Proof. intros Hd. unfold conn_ok. cbn. split_and!; [done|lia|done]. Qed.

Lemma conn_ok_answered d x op :
  Z.of_nat (length d) ≤ MAX_REQUEST_SIZE → conn_ok (mkConn d false [x] op).
Proof. intros Hd. unfold conn_ok. cbn. split_and!; [done|lia|done]. Qed.

Lemma process_request_once request c t : before t →
  twp (process_request_ dispatcher_ request)
    (λ _ s, after s.2 ∧ ∃ body, s.1 = mkConn (request_data_ c) (reading c)
       (responses c ++ [generate_http_response_ body]) (sock_open c)) (c, t).
Proof.
  intros Ht. pose proof (before_after t Ht) as Ht'.
  unfold process_request_, twp, try_catch, send_response_, update_conn, zoom, lift_result.
  destruct (find_headers request) as [[i j]|]; run; cbn; [|eauto].
  destruct (parse_xmlrpc_request_ _) as [[m ps]|e]; cbn; [|eauto].
  destruct dispatcher_ as [d|]; cbn; [|eauto].
  pose proof (dispatcher_safe d m ps t eq_refl Ht) as Hd. unfold ewp in Hd.
  destruct (d m ps t) as [a t'|e t'| | |]; cbn in *; [by eauto..|done|done|done].
Qed.

Definition length_error (e : exn) : Prop := exn_of e = InvalidArgument ∨ exn_of e = OutOfRange.

Lemma stoull_error s e : stoull s = Err e → length_error e.
Proof.
  unfold stoull, length_error. destruct (match snd (span isspace s) with [] => _ | _ => _ end) as [neg r].
  destruct (fst (span isdigit r)); [intros [= <-]; by left|].
  destruct (_ <=? _); intros [= <-]. by right.
Qed.

Lemma content_length_error headers e : content_length headers = Err e → length_error e.
Proof.
  unfold content_length. destruct (ifind_first _ _) as [[i j]|]; [|done].
  destruct (find_first_from _ _ _); [|done]. apply stoull_error.
Qed.

Lemma handle_read_bounded error data c t : conn_ok c → reading c = true → before t →
  ewp (handle_read_ dispatcher_ error data)
    (λ _, at_most_once) (λ e s, conn_ok s.1 ∧ after s.2 ∧ length_error e) (c, t).
Proof.
  intros (Hsize & _ & Hresp) Hr Ht. destruct c as [old rd rs op]. cbn in Hr. subst rd.
  specialize (Hresp eq_refl). cbn in Hresp, Hsize. subst rs. pose proof (before_after t Ht) as Ht'.
  assert (Hq : ∀ d r, Z.of_nat (length d) ≤ MAX_REQUEST_SIZE → at_most_once (mkConn d r [] op, t)).
  { intros d r Hd. split; [by apply conn_ok_quiet|]. by destruct r. }
  unfold ewp. rewrite handle_read_ok. cbn zeta.
  destruct (_ && _); [by apply Hq|].
  destruct (Z.ltb_spec MAX_REQUEST_SIZE (Z.of_nat (length old) + Z.of_nat (length data))) as [|Hl];
    [split; [by apply conn_ok_answered|done]|].
  assert (Hs : Z.of_nat (length (old ++ data)) ≤ MAX_REQUEST_SIZE) by (rewrite length_app; lia).
  destruct (find_headers (old ++ data)) as [[i j]|]; [|by apply Hq].
  destruct (content_length _) as [n|e] eqn:En; [|split_and!; [by apply conn_ok_quiet|done|by eapply content_length_error]].
  destruct (_ <? _); [by apply Hq|].
  match goal with |- context [process_request_ _ ?r ?s] =>
    pose proof (process_request_once r s.1 s.2 Ht) as Hp end.
  unfold twp in Hp. cbn in Hp. destruct (process_request_ _ _ _) as [a [c' t']|e s| | |]; try done.
  destruct Hp as [Ha [body Hc]]. cbn in Hc, Ha |- *. subst c'.
  split; [|done]. apply conn_ok_answered. rewrite length_take. lia.
Qed.

Lemma deliver_bounded reads c t : at_most_once (c, t) →
  ewp (deliver dispatcher_ reads)
    (λ _ s, conn_ok s.1 ∧ after s.2) (λ e s, conn_ok s.1 ∧ after s.2 ∧ length_error e) (c, t).
Proof.
  revert c t. induction reads as [|[error data] reads IH]; intros c t [Hc Ht]; cbn in Hc, Ht.
  { split; [done|]. destruct (reading c); [by apply before_after|done]. }
  cbn [deliver]. unfold this_conn. apply ewp_bind. unfold ewp at 1, gets. cbn.
  destruct (reading c) eqn:Hr; [|done]. apply ewp_bind. eapply ewp_mono.
  - by apply handle_read_bounded.
  - intros _ [c' t'] Ho. by apply IH.
  - done.
Qed.
End bounded.

(** ** Properties *)

(** C13: A request is understood however it arrives.  When the headers
    give the length of the body, cutting the request into chunks in any way
    makes the connection do the same: parse exactly the body, dispatch the
    call in it exactly once, and send exactly one response, with the result
    of the call, or with a fault that has the message of the exception. *)
Theorem request_framing `{PropertyTree, StringAlgo} {St} (d : option (bytes → list bytes → M St bytes))
    h b chunks t :
  well_framed h b → concat chunks = framed h b →
  (start_connection ;; deliver d (map (pair None) chunks)) (new_connection, t)
  = answer_request d (framed h b) b (new_connection, t).
Proof.
  intros Hwf Hc. change (deliver d (map (pair None) chunks) (mkConn [] true [] true, t)
    = answer_request d (framed h b) b (mkConn [] true [] true, t)).
  apply deliver_framed; [done|done|]. unfold framed, CRLFCRLF. by destruct h.
Qed.

(** C27: Whatever bytes, errors and ends of file arrive, a connection keeps
    at most [MAX_REQUEST_SIZE] bytes, sends at most one response and reads
    nothing after it, and gives only one kind of exception to the event
    loop: a Content-Length that is not a number or out of range. *)
Theorem connection_bounded `{PropertyTree, StringAlgo} {St} (d : option (bytes → list bytes → M St bytes))
    (I : St → Prop) reads t :
  (∀ f m ps, d = Some f → safe I (f m ps)) → I t →
  ewp (start_connection ;; deliver d reads)
    (λ _ s, conn_ok s.1 ∧ I s.2)
    (λ e s, conn_ok s.1 ∧ I s.2 ∧ length_error e) (new_connection, t).
Proof.
  intros Hd Ht. apply ewp_bind. change (ewp (deliver d reads)
    (λ _ s, conn_ok s.1 ∧ I s.2) (λ e s, conn_ok s.1 ∧ I s.2 ∧ length_error e)
    (mkConn [] true [] true, t)).
  apply (deliver_bounded d I I); [|done|].
  - intros f m ps s Hf Hs. specialize (Hd f m ps Hf s Hs). unfold ewp. by destruct (f m ps s).
  - split; [by apply conn_ok_quiet|done].
Qed.

(** ** The properties at concrete inputs *)

Definition ex_headers : bytes := #"POST /RPC2 HTTP/1.1" ++ CRLF ++ #"content-length:  7".
Definition ex_dispatcher : option (bytes → list bytes → M nat bytes) :=
  Some (λ m ps n, Ret (#"<string>" ++ m ++ #"</string>") (S n)).

Lemma ex_framed : @well_framed classic_algo ex_headers #"getPID!".
Proof. by constructor; vm_compute. Qed.

Lemma request_framing_witness :
  (start_connection ;; @deliver simple_trees classic_algo nat ex_dispatcher
     (map (pair None) [ex_headers ++ [CR]; [LF; CR; LF] ++ #"get"; #"PID!"])) (new_connection, O)
  = @answer_request simple_trees nat ex_dispatcher (framed ex_headers #"getPID!") #"getPID!"
      (new_connection, O).
Proof. apply (request_framing (H := simple_trees) (H0 := classic_algo)); [apply ex_framed|reflexivity]. Defined.

Lemma connection_bounded_witness :
  ewp (start_connection ;; @deliver simple_trees classic_algo nat ex_dispatcher
        [(None, ex_headers); (Some Eof, CRLFCRLF)])
    (λ _ s, conn_ok s.1 ∧ True) (λ e s, conn_ok s.1 ∧ True ∧ length_error e) (new_connection, O).
Proof.
  apply (connection_bounded (H := simple_trees) (H0 := classic_algo) ex_dispatcher (λ _, True)); [|done].
  intros f m ps [= <-] n _. exact I.
Defined.

(** A connection from the first read on. *)
Definition ex_connection (chunks : list bytes) : M (Connection * nat) unit :=
  start_connection ;; @deliver simple_trees classic_algo nat ex_dispatcher (map (pair None) chunks).

(** A length that is not a number: the exception leaves the handler, and
    with it [io_context::run]. *)
Lemma malformed_length_escapes t :
  let request := #"POST / HTTP/1.1" ++ CRLF ++ #"Content-Length: x" ++ CRLFCRLF in
  ex_connection [request] (new_connection, t)
  = Throw (mkExn InvalidArgument #"stoull") (mkConn request false [] true, t).
Proof. reflexivity. Qed.

(** A blank line of two bare line feeds inside the headers: whether it ends
    them depends on where the chunks end. *)
Lemma framing_depends_on_chunks :
  let start_line := #"POST / HTTP/1.1" ++ LFLF in
  let request := start_line ++ #"Content-Length: 7" ++ CRLFCRLF ++ #"getPID!" in
  ex_connection [request] (new_connection, O)
    = @answer_request simple_trees nat ex_dispatcher request #"getPID!" (new_connection, O)
  ∧ ex_connection [start_line; drop (length start_line) request] (new_connection, O)
    = @answer_request simple_trees nat ex_dispatcher start_line [] (new_connection, O).
Proof. by vm_compute. Qed.
