(* ===== verification/RpcServer.v ===== *)
(** * rpc/rpc_server.{h,cpp}

    The table of handlers, and the listening socket: making it, removing
    it, and accepting connections. *)

From Stdlib Require Import ZArith NArith Ascii String.
From stdpp Require Import base gmap sets list strings.
From S2P Require Import Prelude CppString StdMap Files Kernel Sim Secure.

(** *** Handlers *)

Section handlers.
Context {St : Type}.

Definition RpcHandler : Type := list bytes → M St bytes.

(** [std::map<std::string, RpcHandler>] *)
Definition Handlers : Type := smap RpcHandler.

Definition register_handler (name : bytes) (handler : RpcHandler) (handlers_ : Handlers) : Handlers :=
  sm_set name handler handlers_.

Definition dispatch_method (handlers_ : Handlers) (method_name : bytes) (params : list bytes)
    : M St bytes :=
  match sm_find method_name handlers_ with
  | Some handler => handler params
  | None => throw (mkExn RuntimeError (#"Unknown method: " ++ method_name))
  end.

(** What [start_accept_] gives a connection; it holds the server weakly. *)
Definition dispatcher (self_weak : option Handlers) (method : bytes) (params : list bytes) : M St bytes :=
  match self_weak with
  | None => throw (mkExn RuntimeError #"Server is shutting down")
  | Some handlers_ => dispatch_method handlers_ method params
  end.
End handlers.
Arguments RpcHandler : clear implicits.
Arguments Handlers : clear implicits.

(** Every handler of the table satisfies [P]. *)
Definition registered {St} (P : RpcHandler St → Prop) (hs : Handlers St) : Prop :=
  ∀ n h, sm_find n hs = Some h → P h.

Lemma registered_one {St} (P : RpcHandler St → Prop) n h hs :
  P h → registered P hs → registered P (register_handler n h hs).
Proof.
  intros Hh Hhs n' h'. unfold register_handler. rewrite sm_find_set. case_decide; [by intros [= <-]|apply Hhs].
Qed.

Lemma registered_all {St A} (P : RpcHandler St → Prop) (l : list (bytes * A)) (f : A → RpcHandler St) hs :
  Forall (λ h, P (f h.2)) l → registered P hs →
  registered P (foldl (λ hs h, register_handler h.1 (f h.2) hs) hs l).
Proof.
  intros Hl. revert hs. induction Hl as [|[n h] l Hh _ IH]; intros hs Hhs; [done|].
  apply IH. by apply registered_one.
Qed.

(** *** The listening socket *)

(** [accepting]: an [async_accept] is outstanding; [accepted] counts the
    connections started. *)
Record RpcServer := mkServer {
  socket_path_ : bytes;
  running_ : bool;
  accepting : bool;
  accepted : nat;
}.

Definition create_server (socket_path : bytes) : RpcServer := mkServer socket_path false false 0.

Section server.
Context {K : Type} `{!Kernel K}.
Local Abbreviation Srv := (M (RpcServer * World K)).

Definition in_system {A} (m : M (World K) A) : Srv A := zoom snd (λ w s, (s.1, w)) m.
Definition server {A} (f : RpcServer → A) : Srv A := gets (λ s, f s.1).
Definition set_server (f : RpcServer → RpcServer) : Srv unit := modify (λ s, (f s.1, s.2)).
Definition set_running (b : bool) : Srv unit :=
  set_server (λ v, mkServer (socket_path_ v) b (accepting v) (accepted v)).
Definition set_accepting (b : bool) : Srv unit :=
  set_server (λ v, mkServer (socket_path_ v) (running_ v) b (accepted v)).

Definition start_accept_ : Srv unit := set_accepting true.

(** A call that throws [system_error] when it fails. *)
Definition or_throw (r : result unit) : Srv unit := lift_result r.

Definition start_server : Srv unit :=
  path ← server socket_path_;
  in_system (validate_socket_directory path) ;;
  there ← in_system (path_exists path);
  (if (there : bool) then
     active ← in_system (do_call (Connect path));
     if (active : bool) then
       throw (mkExn RuntimeError (#"Another supervisord is already running? (socket " ++ path
                                  ++ #" is active)"))
     else mret tt
   else mret tt) ;;
  in_system (do_call (Unlink path)) ;;
  r ← in_system (do_call AcceptorOpen); or_throw r ;;
  r ← in_system (do_call (AcceptorBind path)); or_throw r ;;
  in_system (set_socket_permissions path) ;;
  r ← in_system (do_call AcceptorListen); or_throw r ;;
  set_running true ;;
  start_accept_.

Definition stop_server : Srv unit :=
  running ← server running_;
  if negb running then mret tt else
  set_running false ;;
  in_system (do_call AcceptorClose) ;;
  path ← server socket_path_;
  in_system (do_call (Unlink path)) ;;
  mret tt.

(** The completion of an accept. *)
Definition handle_accept_ (error : bool) : Srv unit :=
  set_accepting false ;;
  (if error then mret tt
   else set_server (λ v, mkServer (socket_path_ v) (running_ v) (accepting v) (S (accepted v)))) ;;
  running ← server running_;
  if (running : bool) then start_accept_ else mret tt.
End server.

(** ** Properties *)

(** A call that made the server listen. *)
Definition listens (e : event) : bool :=
  match e with
  | Ev c r => match c return answer c → bool with
              | AcceptorListen => λ r, match r with Ok _ => true | Err _ => false end
              | _ => λ _, false
              end r
  end.

(** The events [start_server] adds when it gets as far as [Listen]. *)
Definition listening (path : bytes) (st : stat_result) (found : list event) (t : list event) : Prop :=
  ∃ r, t = [Ev AcceptorListen (Ok tt); Ev (Chmod path (Z.lor S_IRUSR S_IWUSR)) 0;
            Ev (AcceptorBind path) (Ok tt); Ev AcceptorOpen (Ok tt); Ev (Unlink path) r]
           ++ found ++ [Ev (Stat (parent_path path)) (Some st)].

Section start.
Context {K : Type} `{!Kernel K}.
Variable v : RpcServer.
Variable w : World K.
Hypothesis not_running : running_ v = false.

(** The server as it was, after the events [t]. *)
Definition so_far (t : list event) (s : RpcServer * World K) : Prop :=
  s.1 = v ∧ wtrace s.2 = t ++ wtrace w.

Definition refused (e : exn) (s : RpcServer * World K) : Prop :=
  running_ s.1 = false ∧ ∃ t, wtrace s.2 = t ++ wtrace w ∧ Forall (λ e, listens e = false) t.

Local Abbreviation quiet t := (Forall (λ e, listens e = false) t).

Lemma refuse t e s : so_far t s → quiet t → refused e s.
Proof. intros [Hv Ht] Hl. split; [by rewrite Hv|]. eauto. Qed.

Lemma ewp_sys c t Q (E : exn → RpcServer * World K → Prop) s :
  so_far t s → (∀ r s', so_far (Ev c r :: t) s' → Q r s') → ewp (in_system (do_call c)) Q E s.
Proof.
  intros [Hv Ht] HQ. unfold ewp, in_system, zoom, do_call. destruct (sys c (wk s.2)) as [r k].
  apply HQ. split; [done|]. simpl. by rewrite Ht.
Qed.

(** The same for a statement of the system. *)
Lemma ewp_system {A} (m : M (World K) A) t s (Q : A → World K → Prop) (E : exn → World K → Prop) Q' E' :
  so_far t s → (∀ w1, wtrace w1 = t ++ wtrace w → ewp m Q E w1) →
  (∀ a w1, Q a w1 → Q' a (v, w1)) → (∀ e w1, E e w1 → E' e (v, w1)) →
  ewp (in_system m) Q' E' s.
Proof.
  intros [Hv Ht] Hm HQ HE. apply ewp_zoom. rewrite Hv. eapply ewp_mono; [by apply Hm|by auto..].
Qed.

Lemma ewp_call c t Q (E : exn → World K → Prop) w1 :
  wtrace w1 = t → (∀ r w2, wtrace w2 = Ev c r :: t → Q r w2) → ewp (do_call c) Q E w1.
Proof.
  intros Ht HQ. unfold ewp, do_call. destruct (sys c (wk w1)) as [r k]. apply HQ. simpl. by rewrite Ht.
Qed.

Lemma directory_checked t p s : so_far t s → quiet t →
  ewp (in_system (validate_socket_directory p)) (λ _ s, ∃ st,
    so_far (Ev (Stat (parent_path p)) (Some st) :: t) s
    ∧ S_ISDIR (st_mode st) = true ∧ Z.land (st_mode st) S_IWOTH = 0) refused s.
Proof.
  intros Hs Hq. unfold validate_socket_directory, security_error.
  apply (ewp_system _ t s (λ _ w2, ∃ st, wtrace w2 = (Ev (Stat (parent_path p)) (Some st) :: t) ++ wtrace w
      ∧ S_ISDIR (st_mode st) = true ∧ Z.land (st_mode st) S_IWOTH = 0)
    (λ _ w2, ∃ st, wtrace w2 = (Ev (Stat (parent_path p)) st :: t) ++ wtrace w)); [done|..].
  - intros w1 Hw. apply ewp_bind. eapply (ewp_call (Stat _)); [done|]. intros [st|] w2 H2; [|by exists None].
    destruct (S_ISDIR (st_mode st)) eqn:Hd; [|by exists (Some st)].
    destruct (Z.eqb_spec (Z.land (st_mode st) S_IWOTH) 0); [|by exists (Some st)]. by exists st.
  - intros a w1 (st & H1 & Hd). by exists st.
  - intros e w1 (st & H1). eapply refuse; [split; [done|exact H1]|by constructor].
Qed.

Lemma exists_checked t p s : so_far t s → quiet t →
  ewp (in_system (path_exists p)) (λ b s, so_far (Ev (Exists p) (Ok b) :: t) s) refused s.
Proof.
  intros Hs Hq. unfold path_exists.
  apply (ewp_system _ t s (λ b w2, wtrace w2 = (Ev (Exists p) (Ok b) :: t) ++ wtrace w)
    (λ _ w2, ∃ r, wtrace w2 = (Ev (Exists p) r :: t) ++ wtrace w)); [done|..].
  - intros w1 Hw. apply ewp_bind. eapply (ewp_call (Exists _)); [done|]. intros r w2 H2.
    apply ewp_lift. destruct r as [b|e]; [done|by exists (Err e)].
  - done.
  - intros e w1 [r H1]. eapply refuse; [split; [done|exact H1]|by constructor].
Qed.

Lemma permissions_set t p s : so_far t s → quiet t →
  ewp (in_system (set_socket_permissions p))
    (λ _ s, so_far (Ev (Chmod p (Z.lor S_IRUSR S_IWUSR)) 0 :: t) s) refused s.
Proof.
  intros Hs Hq. unfold set_socket_permissions, security_error.
  apply (ewp_system _ t s (λ _ w2, wtrace w2 = (Ev (Chmod p (Z.lor S_IRUSR S_IWUSR)) 0 :: t) ++ wtrace w)
    (λ _ w2, ∃ r : Z, wtrace w2 = (Ev (Chmod p (Z.lor S_IRUSR S_IWUSR)) r :: t) ++ wtrace w)); [done|..].
  - intros w1 Hw. apply ewp_bind. eapply (ewp_call (Chmod _ _)); [done|]. intros r w2 H2.
    cbn in r. destruct (Z.eqb_spec r 0) as [->|]; [done|by exists r].
  - done.
  - intros e w1 [r H1]. eapply refuse; [split; [done|exact H1]|by constructor].
Qed.

(** A call that must succeed for the rest to run. *)
Lemma must_succeed c (f : answer c → result unit) (k : M (RpcServer * World K) unit) t Q s :
  so_far t s → quiet t → (∀ r, f r ≠ Ok tt → listens (Ev c r) = false) →
  (∀ r s', f r = Ok tt → so_far (Ev c r :: t) s' → ewp k Q refused s') →
  ewp (r ← in_system (do_call c); or_throw (f r) ;; k) Q refused s.
Proof.
  intros Hs Hq Hl HQ. apply ewp_bind. eapply ewp_sys; [done|]. intros r s' Hs'. apply ewp_bind, ewp_lift.
  destruct (f r) as [[]|e] eqn:Ef; [by eauto|].
  eapply refuse; [done|]. constructor; [|done]. apply Hl. by rewrite Ef.
Qed.
End start.

(** C16: The socket of the server is never open to others.  [start] returns
    only after these steps, in this order: the directory was a directory
    not everyone may write; nothing existed at the path or nothing answered
    there; the path was unlinked, bound and made accessible to its owner
    only; and only then does the server listen.  When a step fails it
    throws, and the server is not running and never listened. *)
Theorem server_start_secure {K} `{!Kernel K} (v : RpcServer) (w : World K) :
  running_ v = false →
  ewp start_server
    (λ _ s, running_ s.1 = true ∧ accepting s.1 = true ∧ ∃ st found t,
       wtrace s.2 = t ++ wtrace w ∧ listening (socket_path_ v) st found t
       ∧ S_ISDIR (st_mode st) = true ∧ Z.land (st_mode st) S_IWOTH = 0
       ∧ (found = [Ev (Exists (socket_path_ v)) (Ok false)]
          ∨ found = [Ev (Connect (socket_path_ v)) false; Ev (Exists (socket_path_ v)) (Ok true)]))
    (λ _ s, running_ s.1 = false ∧ ∃ t, wtrace s.2 = t ++ wtrace w ∧ Forall (λ e, listens e = false) t)
    (v, w).
Proof.
  intros Hr. unfold start_server. apply ewp_bind, ewp_gets. cbn [fst].
  set (path := socket_path_ v).
  assert (H0 : so_far v w [] (v, w)) by done.
  apply ewp_bind. eapply ewp_mono; [apply (directory_checked v w Hr [] path _ H0); by constructor| |done].
  intros _ s1 (st & H1 & Hd). apply ewp_bind.
  eapply ewp_mono; [apply (exists_checked v w Hr _ path _ H1); by repeat constructor| |done].
  intros b s2 H2. apply ewp_bind.
  apply ewp_mono with (λ _ s, ∃ found, so_far v w (found ++ [Ev (Stat (parent_path path)) (Some st)]) s
       ∧ (found = [Ev (Exists path) (Ok false)]
          ∨ found = [Ev (Connect path) false; Ev (Exists path) (Ok true)])) (refused w); [|intros _ s3|done].
  { destruct b; [|apply ewp_ret; exists [Ev (Exists path) (Ok false)]; auto]. apply ewp_bind.
    eapply (ewp_sys v w (Connect path)); [done|]. intros [] s' H'.
    - eapply (refuse v w Hr); [done|by repeat constructor].
    - apply ewp_ret. exists [Ev (Connect path) false; Ev (Exists path) (Ok true)]. auto. }
  intros (found & H3 & Hf).
  assert (Hq : Forall (λ e, listens e = false) (found ++ [Ev (Stat (parent_path path)) (Some st)])).
  { destruct Hf as [-> | ->]; by repeat constructor. }
  apply ewp_bind. eapply (ewp_sys v w (Unlink path)); [done|]. intros r s4 H4.
  eapply (must_succeed v w Hr AcceptorOpen (λ r, r)); [done|by constructor|done|]. intros r1 s5 -> H5.
  eapply (must_succeed v w Hr (AcceptorBind path) (λ r, r)); [done|by repeat constructor|done|].
  intros r2 s6 -> H6. apply ewp_bind.
  eapply ewp_mono; [apply (permissions_set v w Hr _ path _ H6); by repeat constructor| |done].
  intros ? s7 H7.
  eapply (must_succeed v w Hr AcceptorListen (λ r, r)); [exact H7|by repeat constructor| |].
  { by intros [[]|e]. }
  intros r3 s8 E8 [Hv Ht]. cbn in E8. rewrite E8 in Ht. apply ewp_bind, ewp_modify, ewp_modify. cbn. split_and!; [done..|].
  exists st, found. eexists. split_and!; [exact Ht|by exists r|by destruct Hd..|done].
Qed.

Lemma server_start_secure_witness :
  let w := mkWorld (sim_set_children [] sim0) (mkFS ∅ ∅ []) [] no_statics in
  running_ (create_server #"/run/s.sock") = false ∧
  ewp start_server
    (λ _ s, running_ s.1 = true ∧ accepting s.1 = true ∧ ∃ st found t,
       wtrace s.2 = t ++ wtrace w ∧ listening #"/run/s.sock" st found t
       ∧ S_ISDIR (st_mode st) = true ∧ Z.land (st_mode st) S_IWOTH = 0
       ∧ (found = [Ev (Exists #"/run/s.sock") (Ok false)]
          ∨ found = [Ev (Connect #"/run/s.sock") false; Ev (Exists #"/run/s.sock") (Ok true)]))
    (λ _ s, running_ s.1 = false ∧ ∃ t, wtrace s.2 = t ++ wtrace w ∧ Forall (λ e, listens e = false) t)
    (create_server #"/run/s.sock", w).
Proof.
  intros w. split; [reflexivity|].
  apply (server_start_secure (create_server #"/run/s.sock") w). reflexivity.
Defined.
