(* ===== verification/ConfigParser.v ===== *)
(** * config/config_parser.{h,cpp} and config/ptree_ext.h

    Reading the configuration: typed values of a section, the sections of a
    file, included files, and the checks.  The INI reader is the one of the
    [PropertyTree] interface; the Spirit grammar of environment lists is
    the interface [EnvGrammar]. *)

From Stdlib Require Import ZArith NArith Ascii String.
From stdpp Require Import base gmap sets list strings.
From S2P Require Import Prelude CppString StringUtil StdMap BoostAlgo PTree LogLevels.
From S2P Require Import ConfigTypes IniReader Files Kernel Secure.

(** [qi::phrase_parse] with the grammar [env_list]: the map of the pairs
    and the text left, or failure. *)
Class EnvGrammar := env_list : bytes → option (smap bytes * bytes).

(** *** ptree_ext.h *)

(** [std::from_chars] for an [int], of the whole text. *)
Definition from_chars (s : bytes) : option Z :=
  let '(neg, ds) := match s with
                    | c :: r => if char_eqb c "-"%char then (true, r) else (false, s)
                    | [] => (false, s)
                    end in
  if bool_decide (ds = []) || negb (forallb isdigit ds) then None else
  let v := Z.of_N (digits_val ds) in
  let v := if neg then - v else v in
  if in_int v then Some v else None.

(** [std::stoul(s, nullptr, 8)]: like [stoull], with octal digits. *)
Definition isoctal (c : ascii) : bool := between "0"%char "7"%char c.
Definition octal_val (s : bytes) : N := foldl (λ acc c, 8 * acc + digit_val c)%N 0%N s.
Definition stoul_octal (s : bytes) : result Z :=
  let s := snd (span isspace s) in
  let '(neg, s) :=
    match s with
    | c :: t => if char_eqb c "-"%char then (true, t)
                else if char_eqb c "+"%char then (false, t) else (false, s)
    | [] => (false, [])
    end in
  match fst (span isoctal s) with
  | [] => Err (mkExn InvalidArgument #"stoul")
  | ds => let v := Z.of_N (octal_val ds) in
          if UINT64 <=? v then Err (mkExn OutOfRange #"stoul")
          else Ok (if neg then to_u64 (- v) else v)
  end.

(** [static_cast<mode_t>]: 32 bits. *)
Definition to_mode (z : Z) : Z := z mod 2 ^ 32.
Definition parse_umask (s : bytes) : result Z := v ← stoul_octal s; mret (to_mode v).

Definition invalid_value {A} (name s : bytes) : result A :=
  Err (mkExn InvalidArgument (#"Invalid value for '" ++ name ++ #"': " ++ s)).

(** The conversions of [pt_get] by the type of the value. *)
Definition pt_bool `{StringAlgo} (name s : bytes) : result bool :=
  let val := to_lower_copy s in
  if bool_decide (val ∈ [ #"true"; #"yes"; #"1"]) then Ok true else
  if bool_decide (val ∈ [ #"false"; #"no"; #"0"]) then Ok false else
  invalid_value name s.

Definition pt_int (name s : bytes) : result Z :=
  match from_chars s with Some v => Ok v | None => invalid_value name s end.

(** [parse_config(parser, context)] *)
Definition parse_config {A} (parser : bytes → result A) (context : bytes) (s : bytes) : result A :=
  match parser s with
  | Ok v => Ok v
  | Err e => if decide (exn_of e = InvalidArgument)
             then Err (mkExn ConfigParseError (context ++ #": " ++ what e)) else Err e
  end.

Section parser.
Context `{PropertyTree, StringAlgo, EnvGrammar} {K : Type} `{!Kernel K}.
Local Abbreviation W A := (M (World K) A).

(** [pt_get]: the value of the key [name], converted, or [value] when there
    is no such key. *)
Definition pt_get {A} (conv : bytes → result A) (tree : ptree) (name : bytes) (value : A) : W A :=
  match get_optional tree name with
  | None => mret value
  | Some s => lift_result (conv s)
  end.

(** The same for a section that may be missing. *)
Definition pt_get_in {A} (conv : bytes → result A) (section : option ptree) (name : bytes)
    (value : A) : W A :=
  match section with None => mret value | Some tree => pt_get conv tree name value end.

(** *** config_parser.cpp *)

Definition config_error {S A} (msg : bytes) : M S A := throw (mkExn ConfigParseError msg).

Definition parse_environment_ (env_str : bytes) : result (smap bytes) :=
  match env_list env_str with
  | Some (env_map, []) => Ok env_map
  | _ => Err (mkExn ConfigParseError (#"Invalid environment variable format: " ++ env_str))
  end.

(** A program with a name and nothing else. *)
Definition named_program (n : bytes) : ProgramConfig := {|
  name := n; command := []; environment := []; directory := None;
  autorestart := true; user := #"root";
  stdout_log := default_log; stderr_log := default_log; redirect_stderr := false;
  startsecs := 1; startretries := 3; stopwaitsecs := 10; stopsignal := #"TERM"; umask := None;
|}.

Definition substitute (prog : ProgramConfig) (s : bytes) : W bytes :=
  match substitute_variables prog s with Some r => mret r | None => out_of_fuel end.

(** The path of a log file, with its variables substituted. *)
Definition log_file (prog : ProgramConfig) (tree : ptree) (key : bytes) : W (option bytes) :=
  match get_optional tree key with
  | None => mret None
  | Some s => f ← substitute prog s; mret (Some f)
  end.

(** The check of a log file, if there is one. *)
Definition check_log (key field : bytes) (log : Log) : W Log :=
  match file log with
  | None => mret log
  | Some f =>
    catch_security
      (f ← validate_log_path f; mret (mkLog (Some f) (file_maxbytes log) (file_backups log)))
      (λ e, config_error (#"Program [" ++ key ++ #"] " ++ field ++ #": " ++ what e))
  end.

(** A [program:] section. *)
Definition parse_program (key : bytes) (value : ptree) : W ProgramConfig :=
  let prog := named_program (drop 8 key) in
  let context field := #"Program [" ++ key ++ #"] " ++ field in
  match get_optional value #"command" with
  | None | Some [] => config_error (#"Program [" ++ key ++ #"] missing required 'command'")
  | Some cmd =>
    env ← pt_get (λ s, env ← parse_environment_ s; mret (sanitize_environment env))
            value #"environment" (environment prog);
    restart ← pt_get (pt_bool #"autorestart") value #"autorestart" (autorestart prog);
    dir ← pt_get (λ s, Ok (Some s)) value #"directory" (directory prog);
    redirect ← pt_get (pt_bool #"redirect_stderr") value #"redirect_stderr" (redirect_stderr prog);
    retries ← pt_get (pt_int #"startretries") value #"startretries" (startretries prog);
    secs ← pt_get (pt_int #"startsecs") value #"startsecs" (startsecs prog);
    err_file ← log_file prog value #"stderr_logfile";
    err_max ← pt_get (parse_config parse_size (context #"stderr_logfile_maxbytes"))
                value #"stderr_logfile_maxbytes" (file_maxbytes default_log);
    err_backups ← pt_get (pt_int #"stderr_logfile_backups") value #"stderr_logfile_backups"
                    (file_backups default_log);
    out_file ← log_file prog value #"stdout_logfile";
    out_max ← pt_get (parse_config parse_size (context #"stdout_logfile_maxbytes"))
                value #"stdout_logfile_maxbytes" (file_maxbytes default_log);
    out_backups ← pt_get (pt_int #"stdout_logfile_backups") value #"stdout_logfile_backups"
                    (file_backups default_log);
    sig ← pt_get (parse_config (λ s, validate_signal s ;; mret s) (context #"stopsignal"))
            value #"stopsignal" (stopsignal prog);
    wait ← pt_get (pt_int #"stopwaitsecs") value #"stopwaitsecs" (stopwaitsecs prog);
    mask ← pt_get (λ s, v ← parse_umask s; mret (Some v)) value #"umask" (umask prog);
    usr ← pt_get Ok value #"user" (user prog);
    cmd ← substitute prog cmd;
    catch_security (validate_command_path cmd)
      (λ e, config_error (#"Program [" ++ key ++ #"]: " ++ what e)) ;;
    out ← check_log key #"stdout_logfile" (mkLog out_file out_max out_backups);
    err ← check_log key #"stderr_logfile" (mkLog err_file err_max err_backups);
    mret {| name := name prog; command := cmd; environment := env; directory := dir;
            autorestart := restart; user := usr; stdout_log := out; stderr_log := err;
            redirect_stderr := redirect; startsecs := secs; startretries := retries;
            stopwaitsecs := wait; stopsignal := sig; umask := mask |}
  end.

(** The [supervisord] section. *)
Definition parse_supervisord (section : option ptree) (d : SupervisordConfig) : W SupervisordConfig :=
  childlog ← pt_get_in Ok section #"childlogdir" (childlogdir d);
  log ← pt_get_in Ok section #"logfile" (logfile d);
  log_max ← pt_get_in (parse_config parse_size #"[supervisord] logfile_maxbytes")
              section #"logfile_maxbytes" (logfile_maxbytes d);
  log_backups ← pt_get_in (pt_int #"logfile_backups") section #"logfile_backups" (logfile_backups d);
  level ← pt_get_in (parse_config parse_log_level #"[supervisord] loglevel")
            section #"loglevel" (loglevel d);
  pid ← pt_get_in Ok section #"pidfile" (pidfile d);
  mask ← pt_get_in parse_umask section #"umask" (daemon_umask d);
  usr ← pt_get_in Ok section #"user" (daemon_user d);
  mret (mkSupervisord log log_max log_backups level usr childlog pid mask).

(** [while (iss >> pattern)]: the words between white space. *)
Fixpoint words_from (s : bytes) (word : bytes) : list bytes :=
  match s with
  | [] => if bool_decide (word = []) then [] else [word]
  | c :: s =>
    if isspace c then (if bool_decide (word = []) then [] else [word]) ++ words_from s []
    else words_from s (word ++ [c])
  end.
Definition split_words (s : bytes) : list bytes := words_from s [].

(** The patterns of the [include] section. *)
Definition include_patterns (tree : ptree) : list bytes :=
  match get_child_optional tree #"include" with
  | None => []
  | Some section =>
    concat (map (λ kv, if bool_decide (kv.1 = #"files") then split_words (data kv.2) else [])
              (nodes section))
  end.

(** [std::sort] on the paths of one directory. *)
Fixpoint insert_path (p : bytes) (l : list bytes) : list bytes :=
  match l with
  | [] => [p]
  | q :: l => if bytes_ltb q p then q :: insert_path p l else p :: q :: l
  end.
Definition sort_paths (l : list bytes) : list bytes := foldr insert_path [] l.

Definition expand_glob_ (base_dir pattern : bytes) : W (list bytes) :=
  let search_path := if bool_decide (head pattern = Some SLASH) then pattern
                     else path_join base_dir pattern in
  let dir := parent_path search_path in
  let file_regex := glob_to_regex (filename search_path) in
  there ← path_exists dir;
  is_dir ← (if (there : bool) then r ← do_call (IsDirectory dir); lift_result r else mret false);
  if (is_dir : bool) then
    files ← (r ← do_call (DirectoryFiles dir); lift_result r);
    mret (sort_paths (map (path_join dir) (filter (λ f, regex_match f file_regex = true) files)))
  else mret [].

Local Abbreviation P A := (M (Configuration * World K) A).

Definition in_world_of {A} (m : W A) : P A := zoom snd (λ w s, (s.1, w)) m.
Definition conf {A} (f : Configuration → A) : P A := gets (λ s, f s.1).
Definition set_conf (f : Configuration → Configuration) : P unit := modify (λ s, (f s.1, s.2)).

Definition MAX_DEPTH : nat := 10.

(** *** Files

    [parse_stream] is the recursive call for an included file. *)
Section single_file.
Variable parse_stream : option bytes → bytes → nat → P unit.

Definition parse_single_file_ (file : bytes) (depth : nat) : P unit :=
  canon ← in_world_of (weakly_canonical file);
  before ← conf included;
  (if bool_decide (canon ∈ before)
   then config_error (#"Configuration file " ++ file ++ #" has already been included!")
   else set_conf (λ c, mkConfiguration (config_file c) (unix_http_server c) (supervisord c)
                         (programs c) ({[canon]} ∪ included c))) ;;
  catch_security (in_world_of (validate_config_file_security file))
    (λ e, config_error (#"Security validation failed: " ++ what e)) ;;
  try_catch
    (text ← in_world_of (do_call (ReadFile file));
     parse_stream text (parent_path file) depth)
    (λ e, match exn_of e with
          | ConfigParseError => throw e
          | FileParserError line message =>
            config_error (file ++ (if 0 <? line then #"(" ++ to_string line ++ #")" else [])
                          ++ #": " ++ message)
          | _ => config_error (file ++ #": " ++ what e)
          end).

Definition parse_includes_ (base_dir : bytes) (patterns : list bytes) (depth : nat) : P unit :=
  mfor patterns (λ pattern,
    files ← in_world_of (expand_glob_ base_dir pattern);
    mfor files (λ file, parse_single_file_ file depth)).
End single_file.

(** [n] bounds the depth of the recursion: see [parse_fuel]. *)
Fixpoint parse_stream_ (n : nat) (text : option bytes) (base_dir : bytes) (depth : nat) : P unit :=
  match n with
  | O => out_of_fuel
  | S n =>
    match text with
    | None => config_error #"Invalid stream"
    | Some text =>
      if (MAX_DEPTH <=? depth)%nat
      then config_error (#"Include depth limit of " ++ to_string (Z.of_nat MAX_DEPTH) ++ #" hit") else
      match read_ini (filtered text) with
      | inr (line, message) => throw (mkExn (FileParserError line message) message)
      | inl tree =>
        (match get_child_optional tree #"unix_http_server" with
         | Some section =>
           match get_optional section #"file" with
           | Some f => set_conf (λ c, mkConfiguration (config_file c) (mkHttp f) (supervisord c)
                                        (programs c) (included c))
           | None => mret tt
           end
         | None => mret tt
         end) ;;
        old ← conf supervisord;
        new ← in_world_of (parse_supervisord (get_child_optional tree #"supervisord") old);
        set_conf (λ c, mkConfiguration (config_file c) (unix_http_server c) new
                         (programs c) (included c)) ;;
        let patterns := include_patterns tree in
        (if negb (bool_decide (patterns = [])) && negb (bool_decide (base_dir = []))
         then parse_includes_ (parse_stream_ n) base_dir patterns (S depth) else mret tt) ;;
        mfor (nodes tree) (λ kv,
          if starts_with #"program:" kv.1 then
            prog ← in_world_of (parse_program kv.1 kv.2);
            set_conf (λ c, mkConfiguration (config_file c) (unix_http_server c) (supervisord c)
                             (programs c ++ [prog]) (included c))
          else mret tt)
      end
    end
  end.

(** Enough for a file that is not included by another one. *)
Definition parse_fuel : nat := S MAX_DEPTH.

Definition validate_config_ (config : Configuration) : W unit :=
  if bool_decide (socket_file (unix_http_server config) = [])
  then config_error #"Missing [unix_http_server] section or 'file' parameter" else
  if bool_decide (logfile (supervisord config) = [])
  then config_error #"Missing [supervisord] section or 'logfile' parameter" else
  mfor (programs config) (λ prog,
    if bool_decide (command prog = [])
    then config_error (#"Program '" ++ name prog ++ #"' missing required 'command'") else mret tt).

(** A block with a local [Configuration]. *)
Definition with_config (config : Configuration) (m : P unit) : W Configuration := λ w,
  match m (config, w) with
  | Ret _ (config, w) => Ret config w
  | Throw e (_, w) => Throw e w
  | Halt h (_, w) => Halt h w
  | Undef => Undef
  | NoFuel => NoFuel
  end.

Definition parse_file (file : bytes) : W Configuration :=
  there ← path_exists file;
  if negb there then config_error (#"Configuration file not found: " ++ file) else
  canon ← weakly_canonical file;
  config ← with_config (mkConfiguration canon (mkHttp #"/run/supervisord.sock") default_supervisord [] ∅)
    (parse_single_file_ (parse_stream_ parse_fuel) file 0);
  validate_config_ config ;;
  mret config.

Definition parse_string (config_str : bytes) : W Configuration :=
  try_catch
    (config ← with_config default_configuration
       (parse_stream_ parse_fuel (Some config_str) [] 0);
     validate_config_ config ;;
     mret config)
    (λ e, match exn_of e with
          | ConfigParseError => throw e
          | FileParserError line message =>
            config_error (#"INI parsing error" ++ (if 0 <? line then #" line " ++ to_string line else [])
                          ++ #": " ++ message)
          | _ => config_error (#"Unexpected error: " ++ what e)
          end).
End parser.
