(* ===== verification/ConfigParserSpec.v ===== *)
(** * Properties of config/config_parser.cpp

    Reading a configuration terminates, whatever the files contain and
    however they include each other, and a configuration that is accepted
    has only programs the daemon can run safely. *)

From Stdlib Require Import ZArith NArith Ascii String.
From stdpp Require Import base gmap sets list strings.
From S2P Require Import Prelude CppString StringUtil StdMap BoostAlgo PTree LogLevels.
From S2P Require Import ConfigTypes ConfigTypesSpec IniReader Files Kernel Sim Secure Process.
From S2P Require Import SecureSpec ConfigParser.

(** ** What makes a program acceptable *)

Section valid.
Context {K : Type}.

(** The path [f] is [dir], or lies below it. *)
Definition inside (dir f : bytes) : Prop :=
  f = dir ∨ ∃ rest, f = dir ++ rest ∧ (last dir = Some SLASH ∨ head rest = Some SLASH).

(** It is not, and only its name goes on from that of [dir], as that of
    [/tmpevil] does from [/tmp]. *)
Definition beside (dir f : bytes) : Prop :=
  last dir ≠ Some SLASH ∧ ∃ c rest, f = dir ++ c :: rest ∧ c ≠ SLASH.

(** The path of a log lies under one of the directories for logs, as the
    process has resolved them; or beside one of them, which the documented
    check is to refuse and the check of the code accepts
    ([prefix_is_textual]). *)
Definition log_allowed (w : World K) (f : bytes) : Prop :=
  ∃ dirs d, log_dirs (wstatics w) = Some dirs ∧ d ∈ dirs ∧ (inside d f ∨ beside d f).

Lemma prefix_inside_beside d f : starts_with d f = true → inside d f ∨ beside d f.
Proof.
  intros Hs. apply starts_with_iff in Hs as [rest ->]. unfold inside, beside.
  destruct rest as [|c rest]; [rewrite app_nil_r; by left; left|].
  destruct (decide (last d = Some SLASH)) as [|Hd]; [left; right; by eauto|].
  destruct (decide (c = SLASH)) as [->|Hc]; [left; right; by eauto|]. right. by eauto 6.
Qed.

(** The first word of the command is an absolute path, at which the system
    found a regular file (or a link), executable for someone. *)
Definition command_executable (w : World K) (command : bytes) : Prop :=
  ∃ word rest st, command = word ++ rest ∧ SPACE ∉ word ∧ (rest = [] ∨ head rest = Some SPACE)
    ∧ head word = Some SLASH ∧ Ev (Stat word) (Some st) ∈ wtrace w
    ∧ (S_ISREG (st_mode st) = true ∨ S_ISLNK (st_mode st) = true)
    ∧ (Z.testbit (st_mode st) 6 || Z.testbit (st_mode st) 3 || Z.testbit (st_mode st) 0 = true).

Definition log_valid (w : World K) (l : Log) : Prop :=
  (∀ f, file l = Some f → log_allowed w f)
  ∧ 0 ≤ file_maxbytes l < UINT64 ∧ INT_MIN ≤ file_backups l ≤ INT_MAX.

Record program_valid (w : World K) (p : ProgramConfig) : Prop := mkValid {
  pv_command : command_executable w (command p);
  pv_signal : validate_signal (stopsignal p) = Ok tt;
  pv_environment : ∀ k v, sm_find k (environment p) = Some v → kept_entry k v = true;
  pv_startsecs : INT_MIN ≤ startsecs p ≤ INT_MAX;
  pv_startretries : INT_MIN ≤ startretries p ≤ INT_MAX;
  pv_stopwaitsecs : INT_MIN ≤ stopwaitsecs p ≤ INT_MAX;
  pv_umask : ∀ m, umask p = Some m → 0 ≤ m < 2 ^ 32;
  pv_stdout : log_valid w (stdout_log p);
  pv_stderr : log_valid w (stderr_log p);
}.

Definition config_valid (w : World K) (c : Configuration) : Prop :=
  socket_file (unix_http_server c) ≠ [] ∧ logfile (supervisord c) ≠ []
  ∧ Forall (program_valid w) (programs c).

(** A directory the kernel resolved, of one of the [names] or of the
    directory for temporary files. *)
Definition resolved (names : list bytes) (w : World K) (d : bytes) : Prop :=
  ∃ p, Ev (WeaklyCanonical p) (Ok d) ∈ wtrace w
    ∧ (p ∈ names ∨ Ev TempDirectory (Ok p) ∈ wtrace w).

Definition log_names : list bytes := [ #"/var/log"; #"/tmp"].
Definition pidfile_names : list bytes := [ #"/run"; #"/var/run"; #"/tmp"].

(** What the process remembers was resolved. *)
Definition statics_ok (w : World K) : Prop :=
  (∀ dirs, log_dirs (wstatics w) = Some dirs → Forall (resolved log_names w) dirs)
  ∧ ∀ dirs, pidfile_dirs (wstatics w) = Some dirs → Forall (resolved pidfile_names w) dirs.

Lemma no_statics_ok w : wstatics w = no_statics → statics_ok w.
Proof. intros Hw. unfold statics_ok. by rewrite Hw. Qed.

Lemma resolved_later names w w' dirs t : wtrace w' = t ++ wtrace w →
  Forall (resolved names w) dirs → Forall (resolved names w') dirs.
Proof.
  intros Ht Hdirs. apply (Forall_impl _ _ _ Hdirs). intros d (p & Hd & Hp). exists p. rewrite Ht.
  split; [set_solver|]. destruct Hp; [by left|]. right. set_solver.
Qed.
End valid.

(** ** Configuration files *)

(** What was last asked of the system: a file that is itself a regular one,
    belongs to the user of the daemon and is not writable for everyone. *)
Definition checked (f : bytes) (t : list event) : Prop :=
  ∃ st uid t', t = Ev Getuid uid :: Ev (Lstat f) (Some st) :: t'
    ∧ S_ISREG (st_mode st) = true ∧ st_uid st = uid ∧ Z.testbit (st_mode st) 1 = false.

Definition is_read (c : Kernel.call) : bool := match c with ReadFile _ => true | _ => false end.
Definition read_checked (c : Kernel.call) (t : list event) : Prop :=
  match c with ReadFile f => checked f t | _ => True end.

(** From [w] to [w'], every file that was read had been checked just before. *)
Definition files_checked {K} (w w' : World K) : Prop :=
  ∃ t, wtrace w' = t ++ wtrace w ∧
    ∀ t1 f text t2, t = t1 ++ Ev (ReadFile f) text :: t2 → checked f (t2 ++ wtrace w).

(** A call other than of reading a file that the processes do not see. *)
Definition plain_b (c : Kernel.call) : bool := quiet_call c && negb (is_read c).

Lemma plain_quiet c : plain_b c = true → quiet_call c = true.
Proof. unfold plain_b. by intros [? _]%andb_true_iff. Qed.

Lemma plain_read c t : plain_b c = true → read_checked c t.
Proof. unfold plain_b. intros [_ Hr]%andb_true_iff. by destruct c. Qed.

(** ** Commands *)

(** The first word, and what follows. *)
Lemma first_word cmd :
  let word := match find_first (λ c, char_eqb c SPACE) cmd with Some i => take i cmd | None => cmd end in
  ∃ rest, cmd = word ++ rest ∧ SPACE ∉ word ∧ (rest = [] ∨ head rest = Some SPACE).
Proof.
  assert (Hno : ∀ l, Forall (λ c, char_eqb c SPACE = false) l → SPACE ∉ l).
  { intros l Hl Hin. rewrite Forall_forall in Hl. specialize (Hl _ Hin). by vm_compute in Hl. }
  cbn zeta. destruct (find_first _ cmd) as [i|] eqn:E.
  - apply find_first_Some in E as (l & c & r & -> & <- & Hc & Hl). rewrite take_app_length. exists (c :: r).
    split_and!; [done|by apply Hno|]. right. cbn. unfold char_eqb in Hc. by apply bool_decide_eq_true in Hc as ->.
  - apply find_first_None in E. exists []. rewrite app_nil_r. split_and!; [done|by apply Hno|by left].
Qed.

(** Some bit of the mask is set. *)
Lemma some_exec_bit m : Z.land m (Z.lor S_IXUSR (Z.lor S_IXGRP S_IXOTH)) ≠ 0 →
  Z.testbit m 6 || Z.testbit m 3 || Z.testbit m 0 = true.
Proof.
  intros Hm. apply not_false_is_true. intros Hno. apply Hm.
  apply orb_false_iff in Hno as [[H6 H3]%orb_false_iff H0]. apply Z.bits_inj'. intros n Hn.
  rewrite Z.land_spec, Z.bits_0. change (Z.lor S_IXUSR (Z.lor S_IXGRP S_IXOTH)) with (2 ^ 6 + 2 ^ 3 + 2 ^ 0).
  destruct (decide (n = 6 ∨ n = 3 ∨ n = 0)) as [[-> |[-> | ->]]|Hn'].
  - by rewrite H6.
  - by rewrite H3.
  - by rewrite H0.
  - assert (Z.testbit (2 ^ 6 + 2 ^ 3 + 2 ^ 0) n = false) as ->; [|by rewrite andb_false_r].
    change (2 ^ 6 + 2 ^ 3 + 2 ^ 0) with (Z.lor (2 ^ 6) (Z.lor (2 ^ 3) (2 ^ 0))).
    rewrite !Z.lor_spec, !Z.pow2_bits_false by lia. done.
Qed.

(** ** Conversions *)

Lemma kept_sanitized env acc k v :
  (∀ k v, sm_find k acc = Some v → kept_entry k v = true) →
  sm_find k (foldl sanitize_entry acc env) = Some v → kept_entry k v = true.
Proof.
  revert acc. induction env as [|[k' v'] env IH]; intros acc Hacc; [apply Hacc|].
  cbn [foldl]. apply IH. intros j w. cbn [sanitize_entry].
  destruct (valid_key k') eqn:Ek; cbn [negb]; [|apply Hacc].
  case_bool_decide as Hn; [apply Hacc|]. rewrite sm_find_set. case_decide; [|apply Hacc].
  intros [= <-]. subst j. unfold kept_entry. rewrite Ek. by rewrite bool_decide_eq_false_2.
Qed.

Lemma pt_int_range name s v : pt_int name s = Ok v → INT_MIN ≤ v ≤ INT_MAX.
Proof.
  unfold pt_int, from_chars. destruct (match s with [] => _ | _ => _ end) as [neg ds].
  destruct (_ || _); [done|]. destruct (in_int _) eqn:E; intros [= <-]. by apply in_int_iff.
Qed.

Lemma parse_umask_range s v : parse_umask s = Ok v → 0 ≤ v < 2 ^ 32.
Proof.
  unfold parse_umask. destruct (stoul_octal s); cbn; intros [= <-]. apply Z.mod_pos_bound. lia.
Qed.

Lemma parse_size_range `{StringAlgo} s v : parse_size s = Ok v → 0 ≤ v < UINT64.
Proof.
  unfold parse_size. destruct s as [|c s]; [intros [= <-]; unfold UINT64; lia|].
  destruct (size_suffix (c :: s)) as [num mult]. destruct (_ || _); [done|].
  destruct (stoull _) as [z|[[] w]]; intros [= <-]. apply Z.mod_pos_bound. unfold UINT64. lia.
Qed.

Lemma parse_config_ok {A} (parser : bytes → result A) ctx s v :
  parse_config parser ctx s = Ok v → parser s = Ok v.
Proof. unfold parse_config. destruct (parser s); [done|]. by destruct (decide _). Qed.

(** ** Statements that only call the system *)

Section calls.
Context {K : Type} `{!Kernel K}.
Local Abbreviation W A := (M (World K) A).

(** One call that neither signals a process nor creates or reaps one, or
    the initialisation of a static variable. *)
Inductive called : World K → World K → Prop :=
| called_sys c r k w : quiet_call c = true → read_checked c (wtrace w) → sys c (wk w) = (r, k) →
    called w (mkWorld k (wfs w) (Ev c r :: wtrace w) (wstatics w))
| called_log dirs w : log_dirs (wstatics w) = None → Forall (resolved log_names w) dirs →
    called w (set_log_dirs dirs w)
| called_pidfile dirs w : pidfile_dirs (wstatics w) = None → Forall (resolved pidfile_names w) dirs →
    called w (set_pidfile_dirs dirs w).

(** Any number of such steps. *)
Definition grew : World K → World K → Prop := rtc called.

Lemma grew_trace w w' : grew w w' → ∃ t, wtrace w' = t ++ wtrace w.
Proof.
  induction 1 as [w|w w1 w2 Hc _ [t Ht]]; [by exists []|]. rewrite Ht.
  destruct Hc as [c r k w _ _ _|dirs w _ _|dirs w _ _]; [|by exists t..].
  exists (t ++ [Ev c r]). by rewrite <- app_assoc.
Qed.

Lemma grew_quiet `{!KernelLaws K} w w' : grew w w' → quiet w w'.
Proof.
  induction 1 as [w|w w1 w2 Hc _ IH]; [reflexivity|]. etransitivity; [|done].
  destruct Hc as [c r k w Hc _ Hs|dirs w _ _|dirs w _ _]; [by apply quiet_sys|by split_and!..].
Qed.

Lemma grew_files w w' : grew w w' → files_checked w w'.
Proof.
  intros Hg. pattern w'. revert w' Hg. apply rtc_ind_r; [by exists []; split; [|intros []]|].
  intros w1 w2 _ Hc (t & Ht & Hall). destruct Hc as [c r k w1 _ Hr _|dirs w1 _ _|dirs w1 _ _]; [|by exists t..].
  exists (Ev c r :: t). split; [by rewrite Ht|]. intros [|x t1] f text t2 E; simplify_eq/=.
  - by rewrite <- Ht.
  - by eapply Hall.
Qed.

(** A static variable that is initialised stays as it is. *)
Lemma grew_log_dirs w w' dirs :
  grew w w' → log_dirs (wstatics w) = Some dirs → log_dirs (wstatics w') = Some dirs.
Proof.
  induction 1 as [w|w w1 w2 Hc _ IH]; [done|]. intros Hd. apply IH.
  destruct Hc as [c r k w _ _ _|ds w Hnone _|ds w _ _]; [done| |done]. by rewrite Hnone in Hd.
Qed.

Lemma grew_statics w w' : grew w w' → statics_ok w → statics_ok w'.
Proof.
  induction 1 as [w|w w1 w2 Hc _ IH]; [done|]. intros [Hl Hp]. apply IH.
  assert (Hlater : ∀ names ds (w0 w3 : World K), (∃ t, wtrace w3 = t ++ wtrace w0) →
    Forall (resolved names w0) ds → Forall (resolved names w3) ds).
  { intros names ds w0 w3 [t Ht]. by apply (resolved_later names w0 w3 ds t). }
  destruct Hc as [c r k w _ _ _|dirs w _ Hds|dirs w _ Hds]; split; cbn; intros ds Hd.
  - apply (Hlater _ _ w); [by exists [Ev c r]|by apply Hl].
  - apply (Hlater _ _ w); [by exists [Ev c r]|by apply Hp].
  - injection Hd as <-. by apply (Hlater _ _ w); [exists []|].
  - apply (Hlater _ _ w); [by exists []|by apply Hp].
  - apply (Hlater _ _ w); [by exists []|by apply Hl].
  - injection Hd as <-. by apply (Hlater _ _ w); [exists []|].
Qed.

(** [m] returns a value with [R], or throws; it only makes calls. *)
Definition yields {A} (R : A → World K → Prop) (m : W A) : Prop :=
  ∀ w, ewp m (λ a w', R a w' ∧ grew w w') (λ _ w', grew w w') w.

Local Abbreviation plain m := (yields (λ _ _, True) m).

Lemma yields_mono {A} (R R' : A → World K → Prop) (m : W A) :
  yields R m → (∀ a w, R a w → R' a w) → yields R' m.
Proof. intros Hm HR w. eapply ewp_mono; [apply Hm| |done]. intros a w' []. auto. Qed.

Lemma yields_ret {A} (R : A → World K → Prop) a : (∀ w, R a w) → yields R (mret a).
Proof. intros HR w. by split. Qed.

Lemma yields_throw {A} (R : A → World K → Prop) e : yields R (throw e).
Proof. intros w. unfold ewp, throw. reflexivity. Qed.

Lemma yields_lift {A} (R : A → World K → Prop) (r : result A) :
  (∀ a w, r = Ok a → R a w) → yields R (lift_result r).
Proof. intros HR w. apply ewp_lift. destruct r; [split; [auto|reflexivity]|reflexivity]. Qed.

Lemma yields_bind {A B} (R : A → World K → Prop) (R' : B → World K → Prop) (m : W A) (k : A → W B) :
  yields R m →
  (∀ a w, R a w → ewp (k a) (λ b w', R' b w' ∧ grew w w') (λ _ w', grew w w') w) →
  yields R' (m ≫= k).
Proof.
  intros Hm Hk w. apply ewp_bind. eapply ewp_mono; [apply Hm| |done].
  intros a w1 [Ha Hg]. eapply ewp_mono; [by apply Hk|..].
  - intros b w2 [? ?]. split; [done|]. by transitivity w1.
  - intros e w2 ?. by transitivity w1.
Qed.

(** When what was found does not depend on the system. *)
Lemma yields_then {A B} (R : A → Prop) (R' : B → World K → Prop) (m : W A) (k : A → W B) :
  yields (λ a _, R a) m → (∀ a, R a → yields R' (k a)) → yields R' (m ≫= k).
Proof. intros Hm Hk. eapply yields_bind; [done|]. intros a w Ha. by apply Hk. Qed.

Lemma yields_call c (R : answer c → World K → Prop) : plain_b c = true →
  (∀ r w, Ev c r ∈ wtrace w → R r w) → yields R (do_call c).
Proof.
  intros Hc HR w. pose proof (plain_quiet c Hc). pose proof (plain_read c (wtrace w) Hc). unfold ewp, do_call. destruct (sys c (wk w)) as [r k] eqn:E. split.
  - apply HR. simpl. left.
  - by apply rtc_once, called_sys.
Qed.

Lemma plain_call c : plain_b c = true → plain (do_call c).
Proof. intros Hc. by apply yields_call. Qed.

Lemma yields_catch {A} (R : A → World K → Prop) (m : W A) h :
  yields R m → (∀ e, yields R (h e)) → yields R (try_catch m h).
Proof.
  intros Hm Hh w. apply ewp_try. eapply ewp_mono; [apply Hm|done|].
  intros e w1 Hg. eapply ewp_mono; [apply Hh|..].
  - intros a w2 [? ?]. split; [done|]. by transitivity w1.
  - intros e' w2 ?. by transitivity w1.
Qed.

Lemma yields_security {A} (R : A → World K → Prop) (m : W A) h :
  yields R m → (∀ e, yields R (h e)) → yields R (catch_security m h).
Proof.
  intros Hm Hh. apply yields_catch; [done|]. intros e. destruct (decide _); [done|apply yields_throw].
Qed.

(** What is known of the world stays true while it grows. *)
Definition stable (I : World K → Prop) : Prop := ∀ w w', I w → grew w w' → I w'.

Lemma ewp_yields {A B} (R : A → World K → Prop) (I : World K → Prop) (m : W A) (k : A → W B)
    (Q : B → World K → Prop) w :
  yields R m → stable I → I w →
  (∀ a w1, R a w1 → I w1 → ewp (k a) (λ b w2, Q b w2 ∧ grew w1 w2) (λ _ w2, grew w1 w2) w1) →
  ewp (m ≫= k) (λ b w2, Q b w2 ∧ grew w w2) (λ _ w2, grew w w2) w.
Proof.
  intros Hm HI Hw Hk. apply ewp_bind. eapply ewp_mono; [apply Hm| |done].
  intros a w1 [Ha Hg]. eapply ewp_mono; [apply Hk; [done|by eapply HI]|..].
  - intros b w2 [? ?]. split; [done|]. by transitivity w1.
  - intros e w2 ?. by transitivity w1.
Qed.

Lemma yields_and {A} (R : A → World K → Prop) (m : W A) :
  plain m → (∀ w, ewp m (λ a w', R a w') (λ _ _, True) w) → yields R m.
Proof.
  intros Hp Hr w. specialize (Hp w). specialize (Hr w). unfold ewp in *.
  destruct (m w); naive_solver.
Qed.

Lemma yields_mfor {A} (l : list A) (body : A → W unit) :
  (∀ x, plain (body x)) → plain (mfor l body).
Proof.
  intros Hb. induction l as [|x l IH]; [by apply yields_ret|].
  apply (yields_then (λ _, True)); [apply Hb|done].
Qed.

End calls.

Ltac plain_step :=
  match goal with
  | |- yields _ (mbind _ _) => apply (yields_then (λ _, True)); [|intros ? _]
  | |- yields _ (catch_security _ _) => apply yields_security; [|intros ?]
  | |- yields _ (catch_filesystem _ _) => apply yields_catch; [|intros ?]
  | |- yields _ (if ?b then _ else _) => destruct b
  | |- yields _ (match ?x with _ => _ end) => destruct x
  | |- yields _ (do_call ?c) => by apply (plain_call c)
  | |- yields _ (mret _) => by apply yields_ret
  | |- yields _ (throw _) => apply yields_throw
  | |- yields _ (config_error _) => apply yields_throw
  | |- yields _ (security_error _) => apply yields_throw
  | |- yields _ (lift_result _) => by apply yields_lift
  | |- yields _ (mfor _ _) => apply yields_mfor; intros ?
  end.
Ltac plain := repeat plain_step.

Section spec.
Context `{PropertyTree, StringAlgo, EnvGrammar} {K : Type} `{!Kernel K}.
Local Abbreviation W A := (M (World K) A).
Local Abbreviation plain m := (yields (λ _ _, True) m).

Lemma plain_exists p : plain (path_exists p).
Proof. unfold path_exists. plain. Qed.

Lemma plain_directory p : plain (validate_socket_directory p).
Proof. unfold validate_socket_directory. plain. Qed.

Lemma plain_permissions p : plain (set_socket_permissions p).
Proof. unfold set_socket_permissions. plain. Qed.

Lemma plain_weakly p : plain (weakly_canonical p).
Proof. unfold weakly_canonical. plain. Qed.

Lemma plain_config_file f : plain (validate_config_file_security f).
Proof.
  unfold validate_config_file_security. apply (yields_then (λ _, True)); [apply plain_exists|].
  intros b _. plain.
Qed.

Lemma plain_canonicalize path prefix : plain (validate_canonicalize_path path prefix).
Proof. unfold validate_canonicalize_path, canonical, current_path. plain. Qed.

Lemma weakly_answered p :
  yields (λ d w, Ev (WeaklyCanonical p) (Ok d) ∈ wtrace w) (weakly_canonical p).
Proof.
  unfold weakly_canonical.
  apply (yields_bind (λ r w, Ev (WeaklyCanonical p) r ∈ wtrace w)); [by apply (yields_call (WeaklyCanonical p))|].
  intros r w Hr. apply ewp_lift. destruct r; [done|reflexivity].
Qed.

Lemma temp_answered : yields (λ r w, Ev TempDirectory (Ok r) ∈ wtrace w) temp_directory_path.
Proof.
  unfold temp_directory_path.
  apply (yields_bind (λ r w, Ev TempDirectory r ∈ wtrace w)); [by apply (yields_call TempDirectory)|].
  intros r w Hr. apply ewp_lift. destruct r; [done|reflexivity].
Qed.

Lemma plain_temp : plain temp_directory_path.
Proof. eapply yields_mono; [apply temp_answered|done]. Qed.

Lemma in_allowed_dirs path dirs desc :
  yields (λ c _, ∃ dir, dir ∈ dirs ∧ starts_with dir c = true)
    (validate_path_in_allowed_dirs path dirs desc).
Proof.
  unfold validate_path_in_allowed_dirs. generalize (join_dirs dirs). intros shown.
  induction dirs as [|dir dirs IH]; cbn [try_prefixes]; [apply yields_throw|].
  apply yields_security.
  - apply yields_and; [apply plain_canonicalize|]. intros w.
    eapply ewp_mono; [apply canonicalize_prefix| |done]. intros c ? Hc. exists dir. split; [left|done].
  - intros e. eapply yields_mono; [apply IH|]. intros c w (d & Hd & Hs). exists d. split; [by right|done].
Qed.

Lemma plain_allowed_dirs path dirs desc : plain (validate_path_in_allowed_dirs path dirs desc).
Proof. eapply yields_mono; [apply in_allowed_dirs|done]. Qed.

Lemma resolved_stable names dirs : stable (λ w : World K, Forall (resolved names w) dirs).
Proof. intros w w' Hd [t Ht]%grew_trace. by apply (resolved_later names w w' dirs t). Qed.

Lemma dirs_resolved names ps : ps ⊆ names →
  yields (λ dirs w, Forall (resolved names w) dirs) (weakly_canonical_all ps).
Proof.
  unfold weakly_canonical_all. induction ps as [|p ps IH]; intros Hps; [by apply yields_ret|]. cbn [foldr].
  eapply yields_bind; [apply (weakly_answered p)|]. intros d w Hd.
  apply (ewp_yields (λ dirs w, Forall (resolved names w) dirs) (λ w, Forall (resolved names w) [d]));
    [apply IH; set_solver|apply resolved_stable| |].
  - constructor; [|done]. exists p. split; [done|]. left. set_solver.
  - intros dirs w1 Hdirs Hd1. apply ewp_ret. split; [|done]. constructor; [|done]. by inversion Hd1.
Qed.

Lemma allowed_resolved names :
  yields (λ dirs w, Forall (resolved names w) dirs) (allowed_dirs names).
Proof.
  unfold allowed_dirs. eapply yields_bind; [by apply dirs_resolved|]. intros dirs w Hdirs.
  apply (ewp_yields (λ r w, Ev TempDirectory (Ok r) ∈ wtrace w) (λ w, Forall (resolved names w) dirs));
    [apply temp_answered|apply resolved_stable|done|].
  clear w Hdirs. intros tmp w Ht Hdirs.
  apply (ewp_yields (λ d w, Ev (WeaklyCanonical tmp) (Ok d) ∈ wtrace w)
    (λ w, Ev TempDirectory (Ok tmp) ∈ wtrace w ∧ Forall (resolved names w) dirs));
    [apply weakly_answered| |done|].
  { intros w1 w2 [Ha Hb] Hg. split; [|by eapply resolved_stable]. apply grew_trace in Hg as [t ->]. set_solver. }
  clear w Ht Hdirs. intros d w Hd [Ht Hdirs]. apply ewp_ret. split; [|done].
  apply Forall_app. split; [done|]. constructor; [|done]. exists tmp. auto.
Qed.

(** Resolving directories leaves the static variables alone. *)
Lemma same_statics_call st c : preserves (λ w : World K, wstatics w = st) (do_call c).
Proof. intros w w' Hw. unfold do_call. destruct (sys c (wk w)) as [r k]. by intros [= <-]. Qed.

Lemma same_statics_weakly st p : preserves (λ w : World K, wstatics w = st) (weakly_canonical p).
Proof. apply preserves_bind; [apply (same_statics_call st (WeaklyCanonical p))|intros ?; preserve]. Qed.

#[local] Hint Resolve same_statics_weakly : sup.

Lemma same_statics_allowed st names : preserves (λ w : World K, wstatics w = st) (allowed_dirs names).
Proof.
  assert (Htemp : preserves (λ w : World K, wstatics w = st) temp_directory_path).
  { apply preserves_bind; [apply (same_statics_call st TempDirectory)|intros ?; preserve]. }
  apply preserves_bind; [|intros ?; apply preserves_bind; [done|intros ?; preserve]].
  unfold weakly_canonical_all. induction names as [|p names IH]; cbn [foldr]; [preserve|].
  apply preserves_bind; [preserve|intros ?]. apply preserves_bind; [done|intros ?; preserve].
Qed.

(** What a static variable holds afterwards is what is returned. *)
Lemma yields_static names (variable : Statics → option (list bytes)) store :
  (∀ dirs w, variable (wstatics (store dirs w)) = Some dirs) →
  (∀ dirs w, variable (wstatics w) = None → Forall (resolved names w) dirs → called w (store dirs w)) →
  yields (λ dirs w, variable (wstatics w) = Some dirs) (static variable store (allowed_dirs names)).
Proof.
  intros Hset Hcalled w. unfold static. apply ewp_bind, ewp_gets.
  destruct (variable (wstatics w)) as [dirs|] eqn:Hv; [by apply ewp_ret|]. apply ewp_bind.
  pose proof (allowed_resolved names w) as Hinit.
  pose proof (same_statics_allowed (wstatics w) names w) as Hsame. unfold ewp in Hinit. unfold ewp at 1.
  destruct (allowed_dirs names w) as [dirs w1|e w1| | |]; [|done..]. destruct Hinit as [Hdirs Hg].
  apply ewp_bind, ewp_modify, ewp_ret. split; [done|]. eapply rtc_r; [done|]. apply Hcalled; [|done].
  by rewrite (Hsame w1 eq_refl eq_refl).
Qed.

Lemma plain_pidfile_path f : plain (validate_pidfile_path f).
Proof.
  unfold validate_pidfile_path. destruct (negb _); [apply yields_throw|].
  eapply yields_bind; [by apply (yields_static pidfile_names), called_pidfile|].
  intros dirs w _. apply plain_allowed_dirs.
Qed.

Lemma log_path_allowed f : yields (λ c w, log_allowed w c) (validate_log_path f).
Proof.
  unfold validate_log_path. eapply yields_bind; [by apply (yields_static log_names), called_log|].
  intros dirs w Hdirs. eapply ewp_mono; [apply in_allowed_dirs| |done].
  intros c w1 [(d & Hin & Hs) Hg]. split; [|done]. exists dirs, d. split_and!; [by eapply grew_log_dirs|done|by apply prefix_inside_beside].
Qed.

Lemma executable_stable cmd : stable (λ w : World K, command_executable w cmd).
Proof.
  intros w w' (word & rest & st & ? & ? & ? & ? & Hst & ?) [t Ht]%grew_trace. exists word, rest, st.
  rewrite Ht. split_and!; [done..|set_solver|naive_solver|naive_solver].
Qed.

Lemma command_checked cmd : yields (λ _ w, command_executable w cmd) (validate_command_path cmd).
Proof.
  unfold validate_command_path. pose proof (first_word cmd) as Hword. cbn zeta in Hword.
  set (word := match find_first _ cmd with Some i => take i cmd | None => cmd end) in *.
  destruct Hword as (rest & Hcmd & Hno & Hrest).
  case_bool_decide as Hb; cbn [negb]; [|apply yields_throw].
  eapply yields_bind; [apply (yields_call (Stat word) (λ r w, Ev (Stat word) r ∈ wtrace w)); done|].
  intros [st|] w Hst; [|apply yields_throw]. destruct (negb _ && negb _) eqn:Hreg; [apply yields_throw|].
  destruct (Z.eqb_spec (Z.land (st_mode st) (Z.lor S_IXUSR (Z.lor S_IXGRP S_IXOTH))) 0) as [|Hx]; [apply yields_throw|].
  apply ewp_ret. split; [|reflexivity]. exists word, rest, st. split_and!; [done..| |by apply some_exec_bit].
  apply andb_false_iff in Hreg as [?%negb_false_iff|?%negb_false_iff]; auto.
Qed.

Lemma check_log_ok key field log :
  0 ≤ file_maxbytes log < UINT64 → INT_MIN ≤ file_backups log ≤ INT_MAX →
  yields (λ l w, log_valid w l) (check_log key field log).
Proof.
  intros Hm Hb. unfold check_log. destruct (file log) as [f|] eqn:Hf.
  - apply yields_security; [|intros e; apply yields_throw].
    eapply yields_bind; [apply log_path_allowed|]. intros c w Hc. apply ewp_ret. split; [|done].
    split; [|by cbn]. cbn. by intros ? [= <-].
  - apply yields_ret. intros w. split; [|done]. by rewrite Hf.
Qed.

Lemma pt_get_ok {A} (R : A → Prop) conv tree key (v : A) :
  (∀ s v, conv s = Ok v → R v) → R v → yields (λ v _, R v) (pt_get conv tree key v : W A).
Proof.
  intros Hc Hv. unfold pt_get. destruct (get_optional tree key); [|by apply yields_ret].
  apply yields_lift. eauto.
Qed.

Lemma plain_pt_get {A} conv tree key (v : A) : plain (pt_get conv tree key v : W A).
Proof. by apply (pt_get_ok (λ _, True)). Qed.

Lemma plain_pt_get_in {A} conv section key (v : A) : plain (pt_get_in conv section key v : W A).
Proof. unfold pt_get_in. destruct section; [apply plain_pt_get|by apply yields_ret]. Qed.

Lemma plain_substitute prog s : plain (substitute prog s).
Proof.
  unfold substitute, substitute_variables.
  pose proof (substitute_loop_spec (S (length s)) (name prog) [] s ltac:(lia)) as Hs.
  cbn [app length] in Hs. rewrite Hs. by apply yields_ret.
Qed.

Lemma plain_log_file prog tree key : plain (log_file prog tree key).
Proof.
  unfold log_file. destruct (get_optional tree key); [|by apply yields_ret].
  apply (yields_then (λ _, True)); [apply plain_substitute|]. intros ? _. by apply yields_ret.
Qed.
(** ** Programs *)

Lemma log_valid_stable l : stable (λ w, log_valid w l).
Proof.
  intros w w' (Hf & Hm) Hg. split; [|done]. intros f Hl. destruct (Hf f Hl) as (dirs & d & Hd & Hin).
  exists dirs, d. split; [by eapply grew_log_dirs|done].
Qed.

Local Abbreviation int_range v := (INT_MIN ≤ v ≤ INT_MAX).

Lemma pt_get_int key tree v : int_range v →
  yields (λ v _, int_range v) (pt_get (pt_int key) tree key v : W Z).
Proof. intros Hv. apply pt_get_ok; [apply pt_int_range|done]. Qed.

Lemma pt_get_size ctx tree key v : 0 ≤ v < UINT64 →
  yields (λ v _, 0 ≤ v < UINT64) (pt_get (parse_config parse_size ctx) tree key v : W Z).
Proof. intros Hv. apply pt_get_ok; [|done]. intros s z Hz%parse_config_ok. by eapply parse_size_range. Qed.

Lemma pt_get_environment tree env :
  (∀ k v, sm_find k env = Some v → kept_entry k v = true) →
  yields (λ env _, ∀ k v, sm_find k env = Some v → kept_entry k v = true)
    (pt_get (λ s, env ← parse_environment_ s; mret (sanitize_environment env)) tree #"environment" env
     : W (smap bytes)).
Proof.
  intros Henv. apply pt_get_ok; [|done]. intros s e He k v.
  unfold mbind, result_bind in He. destruct (parse_environment_ s) as [e0|]; [|done].
  injection He as <-. by apply kept_sanitized.
Qed.

Lemma pt_get_signal ctx tree sig : validate_signal sig = Ok tt →
  yields (λ sig _, validate_signal sig = Ok tt)
    (pt_get (parse_config (λ s, validate_signal s ;; mret s) ctx) tree #"stopsignal" sig : W bytes).
Proof.
  intros Hs. apply pt_get_ok; [|done]. intros s v Hv%parse_config_ok.
  unfold mbind, result_bind in Hv. destruct (validate_signal s) as [[]|] eqn:E; [|done]. by injection Hv as <-.
Qed.

Lemma pt_get_umask tree :
  yields (λ mask _, ∀ m, mask = Some m → 0 ≤ m < 2 ^ 32)
    (pt_get (λ s, v ← parse_umask s; mret (Some v)) tree #"umask" None : W (option Z)).
Proof.
  apply pt_get_ok; [|done]. intros s v Hv m ->. unfold mbind, result_bind in Hv.
  destruct (parse_umask s) eqn:E; [|done]. injection Hv as ->. by eapply parse_umask_range.
Qed.

Lemma parse_program_ok key value :
  yields (λ p w, program_valid w p) (parse_program key value).
Proof.
  unfold parse_program. destruct (get_optional value #"command") as [[|c cmd]|]; [apply yields_throw| |apply yields_throw].
  eapply yields_then; [by apply pt_get_environment|]. intros env Henv.
  apply (yields_then (λ _, True)); [apply plain_pt_get|]. intros restart _.
  apply (yields_then (λ _, True)); [apply plain_pt_get|]. intros dir _.
  apply (yields_then (λ _, True)); [apply plain_pt_get|]. intros redirect _.
  eapply yields_then; [by apply pt_get_int|]. intros retries Hretries.
  eapply yields_then; [by apply pt_get_int|]. intros secs Hsecs.
  apply (yields_then (λ _, True)); [apply plain_log_file|]. intros err_file _.
  eapply yields_then; [by apply pt_get_size|]. intros err_max Hem.
  eapply yields_then; [by apply pt_get_int|]. intros err_backups Heb.
  apply (yields_then (λ _, True)); [apply plain_log_file|]. intros out_file _.
  eapply yields_then; [by apply pt_get_size|]. intros out_max Hom.
  eapply yields_then; [by apply pt_get_int|]. intros out_backups Hob.
  eapply yields_then; [by apply pt_get_signal|]. intros sig Hsig.
  eapply yields_then; [by apply pt_get_int|]. intros wait Hwait.
  eapply yields_then; [by apply pt_get_umask|]. intros mask Hmask.
  apply (yields_then (λ _, True)); [apply plain_pt_get|]. intros usr _.
  apply (yields_then (λ _, True)); [apply plain_substitute|]. intros cmd' _.
  eapply (yields_bind (λ _ w, command_executable w cmd')).
  { apply yields_security; [apply command_checked|intros e; apply yields_throw]. }
  intros _ w0 Hcmd. apply (ewp_yields (λ l w, log_valid w l) (λ w, command_executable w cmd'));
    [by apply check_log_ok|apply executable_stable|done|]. clear w0 Hcmd. intros out w Hout Hcmd.
  apply (ewp_yields (λ l w, log_valid w l) (λ w, log_valid w out ∧ command_executable w cmd'));
    [by apply check_log_ok| |done|].
  { intros w1 w2 [? ?] Hg. split; [by eapply log_valid_stable|by eapply executable_stable]. }
  intros err w1 Herr [Hout1 Hcmd1]. apply ewp_ret. split; [|done]. by constructor.
Qed.

Lemma plain_supervisord section d : plain (parse_supervisord section d).
Proof.
  unfold parse_supervisord.
  do 8 (apply (yields_then (λ _, True)); [apply plain_pt_get_in|intros ? _]). by apply yields_ret.
Qed.

Lemma plain_glob base pattern : plain (expand_glob_ base pattern).
Proof.
  unfold expand_glob_. apply (yields_then (λ _, True)); [apply plain_exists|]. intros there _. plain.
Qed.

(** ** Files *)

Lemma programs_valid_stable ps : stable (λ w, Forall (program_valid w) ps).
Proof.
  intros w w' Hv Hg. eapply Forall_impl; [exact Hv|]. intros p [].
  constructor; try done; try by eapply log_valid_stable. by eapply executable_stable.
Qed.

Section files.
Variable w0 : World K.

(** Since the world [w0], only calls were made, and every program read so
    far is acceptable. *)
Definition all_valid (s : Configuration * World K) : Prop :=
  grew w0 s.2 ∧ Forall (program_valid s.2) (programs s.1).

Lemma all_valid_grew c w w' : all_valid (c, w) → grew w w' → all_valid (c, w').
Proof.
  intros [Hg Hv] Hw. split; [by transitivity w|]. by eapply programs_valid_stable.
Qed.

Local Abbreviation ok m := (safe all_valid m).

Lemma ok_world {A} (m : W A) : plain m → ok (in_world_of m).
Proof.
  intros Hm [c w] Hv. specialize (Hm w). unfold in_world_of, zoom, ewp in *. cbn in *.
  destruct (m w); try done; [destruct Hm as [_ Hm]|]; by eapply all_valid_grew.
Qed.

Lemma ok_set f : (∀ c, programs (f c) = programs c) → ok (set_conf f).
Proof. intros Hf [c w] Hv. unfold all_valid in *. cbn in *. by rewrite Hf. Qed.

Lemma ok_throw {A} e : ok (throw e : M (Configuration * World K) A).
Proof. by intros s Hs. Qed.

Lemma ok_try {A} (m : M (Configuration * World K) A) h : ok m → (∀ e, ok (h e)) → ok (try_catch m h).
Proof.
  intros Hm Hh s Hs. specialize (Hm s Hs). unfold try_catch. destruct (m s); try done. by apply Hh.
Qed.

Lemma ok_security {A} (m : M (Configuration * World K) A) h :
  ok m → (∀ e, ok (h e)) → ok (catch_security m h).
Proof. intros Hm Hh. apply ok_try; [done|]. intros e. destruct (decide _); [done|apply ok_throw]. Qed.

Lemma ok_mfor {A} (l : list A) body : (∀ x, ok (body x)) → ok (mfor l body).
Proof.
  intros Hb. induction l as [|x l IH]; [by intros s Hs|]. apply safe_bind; [apply Hb|done].
Qed.

Lemma ok_program key value :
  ok (prog ← in_world_of (parse_program key value);
      set_conf (λ c, mkConfiguration (config_file c) (unix_http_server c) (supervisord c)
                       (programs c ++ [prog]) (included c))).
Proof.
  intros [c w] Hv. pose proof (parse_program_ok key value w) as Hp.
  unfold in_world_of, zoom, ewp in *. unfold mbind, M_bind. cbn.
  destruct (parse_program key value w) as [p w1|e w1| | |]; try done; cbn.
  - destruct Hp as [Hp Hg]. destruct (all_valid_grew c w w1 Hv Hg) as [Hg1 Hv1].
    split; [done|]. apply Forall_app. split; [done|by constructor].
  - by eapply all_valid_grew.
Qed.

(** A file that passes the checks was checked last. *)
Lemma config_file_checked f :
  yields (λ _ w, checked f (wtrace w)) (validate_config_file_security f).
Proof.
  apply yields_and; [apply plain_config_file|]. intros w.
  eapply ewp_mono; [apply config_file_accepted| |done].
  intros _ w' (st & uid & -> & Hreg & Huid & Hw). exists st, uid. eexists. split; [done|]. split_and!; [done|done|].
  apply not_true_is_false. intros Hbit. apply (f_equal (λ z, Z.testbit z 1)) in Hw.
  rewrite Z.land_spec, Hbit, Z.bits_0 in Hw. by vm_compute in Hw.
Qed.

(** What is known after a check, whose failure is an error. *)
Lemma ok_after {A B} (R : A → World K → Prop) (m : W A) h (k : A → M (Configuration * World K) B) :
  yields R m → (∀ e s, ∃ e', h e s = Throw e' s) →
  (∀ a s, all_valid s → R a s.2 → match k a s with Ret _ s' | Throw _ s' => all_valid s' | _ => False end) →
  ok (catch_security (in_world_of m) h ≫= k).
Proof.
  intros Hm Hh Hk [c w] Hs. specialize (Hm w). unfold ewp in Hm.
  assert (Hcatch : catch_security (in_world_of m) h (c, w) = match m w with
    | Ret a w1 => Ret a (c, w1)
    | Throw e w1 => if decide (exn_of e = SecurityError) then h e (c, w1) else Throw e (c, w1)
    | Halt x w1 => Halt x (c, w1)
    | Undef => Undef
    | NoFuel => NoFuel
    end).
  { unfold catch_security, try_catch, in_world_of, zoom. cbn. destruct (m w); try done. by destruct (decide _). }
  unfold mbind, M_bind. rewrite Hcatch. destruct (m w) as [a w1|e w1| | |]; try done.
  - destruct Hm as [Ha Hg]. apply Hk; [by eapply all_valid_grew|done].
  - destruct (decide _); [destruct (Hh e (c, w1)) as [e' ->]|]; by eapply all_valid_grew.
Qed.

(** Reading a file that was just checked. *)
Lemma read_after_check f {A} (k : option bytes → M (Configuration * World K) A) s :
  (∀ text, ok (k text)) → all_valid s → checked f (wtrace s.2) →
  match (text ← in_world_of (do_call (ReadFile f)); k text) s with
  | Ret _ s' | Throw _ s' => all_valid s'
  | _ => False
  end.
Proof.
  intros Hk Hs Hf. destruct s as [c w]. unfold in_world_of, zoom, do_call, mbind, M_bind. cbn [fst snd] in *.
  destruct (sys (ReadFile f) (wk w)) as [r k'] eqn:E. apply Hk. apply (all_valid_grew c w); [done|].
  apply rtc_once. by apply (called_sys (ReadFile f)).
Qed.

Lemma ok_single_file parse file depth :
  (∀ text base, ok (parse text base depth)) → ok (parse_single_file_ parse file depth).
Proof.
  intros Hp. unfold parse_single_file_.
  apply safe_bind; [apply ok_world, plain_weakly|]. intros canon.
  apply safe_bind; [by intros s Hs|]. intros before.
  apply safe_bind; [destruct (bool_decide _); [apply ok_throw|by apply ok_set]|]. intros _.
  apply (ok_after (λ _ w, checked file (wtrace w))); [apply config_file_checked|by eexists|]. intros _ s Hs Hc.
  unfold try_catch. pose proof (read_after_check file (λ text, parse text (parent_path file) depth) s
    (λ text, Hp text _) Hs Hc) as Hr.
  revert Hr. match goal with |- match ?m with _ => _ end → _ => destruct m as [u s2|e s2| | |] end; try done.
  by destruct (exn_of e).
Qed.

Lemma ok_stream n text base depth :
  (0 < n)%nat → (MAX_DEPTH < n + depth)%nat → ok (parse_stream_ n text base depth).
Proof.
  revert text base depth. induction n as [|n IH]; intros text base depth Hn Hd; [lia|].
  cbn [parse_stream_]. destruct text as [text|]; [|apply ok_throw].
  destruct (Nat.leb_spec MAX_DEPTH depth); [apply ok_throw|].
  destruct (read_ini (filtered text)) as [tree|[line msg]]; [|apply ok_throw].
  apply safe_bind.
  { destruct (get_child_optional tree _) as [section|]; [|by intros s Hs].
    destruct (get_optional section _); [by apply ok_set|by intros s Hs]. }
  intros _. apply safe_bind; [by intros s Hs|]. intros old.
  apply safe_bind; [apply ok_world, plain_supervisord|]. intros new.
  apply safe_bind; [by apply ok_set|]. intros _.
  apply safe_bind.
  - destruct (_ && _); [|by intros s Hs]. unfold parse_includes_.
    apply ok_mfor. intros pattern. apply safe_bind; [apply ok_world, plain_glob|]. intros files.
    apply ok_mfor. intros f. apply ok_single_file. intros t b. apply IH; lia.
  - intros _. apply ok_mfor. intros [key value].
    destruct (starts_with _ _); [apply ok_program|by intros s Hs].
Qed.

End files.

(** What [validate_config_] checks. *)
Lemma validate_config_ok config :
  yields (λ _ _, socket_file (unix_http_server config) ≠ [] ∧ logfile (supervisord config) ≠ [])
    (validate_config_ config).
Proof.
  unfold validate_config_. case_bool_decide; [apply yields_throw|].
  case_bool_decide; [apply yields_throw|]. eapply yields_mono; [|intros _ w _; done].
  plain.
Qed.

Lemma with_config_ok config m :
  programs config = [] → (∀ w0, safe (all_valid w0) m) →
  yields (λ c w, Forall (program_valid w) (programs c)) (with_config config m).
Proof.
  intros Hp Hm w. assert (Hs : all_valid w (config, w)).
  { split; [reflexivity|]. cbn. by rewrite Hp. }
  specialize (Hm w (config, w) Hs). unfold ewp, with_config.
  destruct (m (config, w)) as [u [c w']|e [c w']| | |]; try done; by destruct Hm.
Qed.

(** Reading into a fresh configuration, then checking it. *)
Lemma read_and_validate config m :
  programs config = [] → (∀ w0, safe (all_valid w0) m) →
  yields (λ c w, config_valid w c)
    (c ← with_config config m; validate_config_ c ;; mret c).
Proof.
  intros Hp Hm. eapply yields_bind; [by apply with_config_ok|]. intros c w Hc.
  apply (ewp_yields (λ _ _, socket_file (unix_http_server c) ≠ [] ∧ logfile (supervisord c) ≠ [])
    (λ w, Forall (program_valid w) (programs c)));
    [apply validate_config_ok|apply programs_valid_stable|done|].
  intros _ w1 [Hs Hl] Hc1. by apply ewp_ret.
Qed.

Lemma parse_file_ok f : yields (λ c w, config_valid w c) (parse_file f).
Proof.
  unfold parse_file. apply (yields_then (λ _, True)); [apply plain_exists|]. intros there _.
  destruct there; [|apply yields_throw]. cbn [negb].
  apply (yields_then (λ _, True)); [apply plain_weakly|]. intros canon _.
  apply read_and_validate; [done|]. intros w0. apply ok_single_file.
  intros t b. apply ok_stream; unfold parse_fuel; lia.
Qed.
End spec.

(** ** Properties *)

(** C7: A configuration is read to the end or refused.  Whatever the files
    contain, however they include each other and whatever the system
    answers, [parse_file] returns or throws, within the fuel of
    [MAX_DEPTH], and so does [parse_string], whose only exception is
    [ConfigParseError].  What they return has a socket and a log file, and
    only acceptable programs: commands whose first word is an absolute path
    at which the system found an executable regular file, valid signals,
    sanitised environments, numbers in range, and log files that resolve to
    a path under a directory for logs, or beside one: the prefix is compared
    as text, so that the documented containment is not what is checked.
    Those directories are remembered from the first check on, and are what
    the system resolved [/var/log], [/tmp] and the directory for temporary
    files to.  And in every case, each configuration file that was read was,
    just before, found to be itself a regular file, owned by the user of the
    daemon and not writable for everyone. *)
Theorem configuration_sound `{PropertyTree, StringAlgo, EnvGrammar} {K} `{!Kernel K} input (w : World K) :
  let after w' := files_checked w w' ∧ (statics_ok w → statics_ok w') in
  ewp (parse_file input) (λ c w', config_valid w' c ∧ after w') (λ _, after) w
  ∧ ewp (parse_string input) (λ c w', config_valid w' c ∧ after w')
      (λ e w', exn_of e = ConfigParseError ∧ after w') w.
Proof.
  intros after. assert (Hafter : ∀ w', grew w w' → after w').
  { intros w' Hg. split; [by apply grew_files|by apply grew_statics]. }
  split.
  - eapply ewp_mono; [apply parse_file_ok|..].
    + intros c w' [? Hg]. split; [done|by apply Hafter].
    + intros e w' Hg. by apply Hafter.
  - unfold parse_string. apply ewp_try.
    eapply ewp_mono; [apply read_and_validate; [done|]|..].
    + intros w0. apply ok_stream; unfold parse_fuel; lia.
    + intros c w' [? Hg]. split; [done|by apply Hafter].
    + intros e w' Hg%Hafter. by destruct e as [[] m].
Qed.

(** One program, its command and the log file it gets. *)
Lemma configuration_sound_witness :
  let env : EnvGrammar := λ s, Some ([], []) in
  let after (w' : World Sim) := files_checked world0 w' ∧ (statics_ok world0 → statics_ok w') in
  (∃ c w, @parse_file simple_trees classic_algo env Sim _ #"/etc/s.conf" world0 = Ret c w
     ∧ map (λ p, (command p, file (stdout_log p))) (programs c)
       = [(#"/bin/web -v", Some #"/tmp/web.log")])
  ∧ ewp (@parse_file simple_trees classic_algo env Sim _ #"/etc/s.conf")
      (λ c w', config_valid w' c ∧ after w') (λ _, after) world0
  ∧ ewp (@parse_string simple_trees classic_algo env Sim _ sim_file)
      (λ c w', config_valid w' c ∧ after w')
      (λ e w', exn_of e = ConfigParseError ∧ after w') world0.
Proof.
  intros env after. split.
  - do 2 eexists. split; vm_compute; reflexivity.
  - split.
    + exact (proj1 (@configuration_sound simple_trees classic_algo env Sim _ #"/etc/s.conf" world0)).
    + exact (proj2 (@configuration_sound simple_trees classic_algo env Sim _ sim_file world0)).
Defined.
