(* ===== verification/ProcessManager.v ===== *)
(** * process/process_manager.{h,cpp}

    [ProcessManager]: the map from names to processes, the reaping of
    children, the periodic update, and the operations that wait for
    children with the event loop running inside them.

    Processes are objects of a heap, shared by the map and by the local
    pointers of [stop_process]; an object is destroyed when nothing refers
    to it.  The handlers the event loop runs are data; which of them are
    ready at each [run_for] is the agenda, an arbitrary list. *)

From Stdlib Require Import ZArith NArith Ascii String.
From stdpp Require Import base gmap sets list strings.
From S2P Require Import Prelude CppString StdMap ConfigTypes Files LogWriter Kernel Secure Process.

(** The work [io_context] can have for the manager: the handlers of SIGCHLD
    and of the timer, the completion of a read from a child, the requests of
    clients, the shutdown, an exception out of the handler of a connection,
    and the completion of an accept that outlived its server. *)
Inductive handler :=
| OnSigchld
| OnTimer
| OnRead (id : nat) (ch : channel) (error : bool) (data : bytes)
| OnStart (name : bytes)
| OnStop (name : bytes)
| OnStartAll
| OnStopAll
| OnShutdown
| OnReload (new_programs : list ProgramConfig)
| OnThrow (e : exn)
| OnAborted.

(** A [const std::string&]: the string it refers to, and whether that is the
    key of an entry of the map, which is freed together with the entry. *)
Record name_ref := mkRef { ref_name : bytes; ref_is_key : bool }.

(** [freed_reads] is not data of the program: it records the strings that
    were read after they had been freed.  The code goes on as if each such
    read had still found the old characters. *)
Record Manager (K : Type) := mkManager {
  heap : gmap nat Process;
  process_map_ : smap nat;
  next_id : nat;
  pinned : list nat;             (* local shared pointers *)
  agenda : list (list handler);  (* what each [run_for] finds ready *)
  stopped : bool;                (* [io_context_.stop()] was called *)
  log_info : bool;               (* some sink takes records of level info *)
  freed_reads : list bytes;      (* keys read after they were freed *)
  world : World K;
}.
Arguments mkManager {K}.
Arguments heap {K}.
Arguments process_map_ {K}.
Arguments next_id {K}.
Arguments pinned {K}.
Arguments agenda {K}.
Arguments stopped {K}.
Arguments log_info {K}.
Arguments freed_reads {K}.
Arguments world {K}.

Section manager.
Context {K : Type} `{!Kernel K}.
Local Abbreviation PM := (Manager K).

Definition set_heap (h : gmap nat Process) (s : PM) : PM :=
  mkManager h (process_map_ s) (next_id s) (pinned s) (agenda s) (stopped s) (log_info s) (freed_reads s) (world s).
Definition set_map (m : smap nat) (s : PM) : PM :=
  mkManager (heap s) m (next_id s) (pinned s) (agenda s) (stopped s) (log_info s) (freed_reads s) (world s).
Definition set_next (n : nat) (s : PM) : PM :=
  mkManager (heap s) (process_map_ s) n (pinned s) (agenda s) (stopped s) (log_info s) (freed_reads s) (world s).
Definition set_pinned (l : list nat) (s : PM) : PM :=
  mkManager (heap s) (process_map_ s) (next_id s) l (agenda s) (stopped s) (log_info s) (freed_reads s) (world s).
Definition set_agenda (l : list (list handler)) (s : PM) : PM :=
  mkManager (heap s) (process_map_ s) (next_id s) (pinned s) l (stopped s) (log_info s) (freed_reads s) (world s).
Definition set_stopped (b : bool) (s : PM) : PM :=
  mkManager (heap s) (process_map_ s) (next_id s) (pinned s) (agenda s) b (log_info s) (freed_reads s) (world s).
Definition set_world (w : World K) (s : PM) : PM :=
  mkManager (heap s) (process_map_ s) (next_id s) (pinned s) (agenda s) (stopped s) (log_info s) (freed_reads s) w.
Definition set_freed (l : list bytes) (s : PM) : PM :=
  mkManager (heap s) (process_map_ s) (next_id s) (pinned s) (agenda s) (stopped s) (log_info s) l (world s).

(** *** Objects *)

Definition on_world {A} (m : M (World K) A) : M PM A := zoom world set_world m.

(** A call on the object [id], through a pointer to it. *)
Definition on_object {A} (id : nat) (m : M (Process * World K) A) : M PM A := λ s,
  match heap s !! id with
  | None => Undef
  | Some p =>
    zoom (λ s, (p, world s)) (λ t s, set_world t.2 (set_heap (<[id := t.1]> (heap s)) s)) m s
  end.

Definition object (id : nat) : M PM Process := λ s,
  match heap s !! id with None => Undef | Some p => Ret p s end.

(** A pointer to [id] goes away. *)
Definition release (id : nat) : M PM unit :=
  s ← gets (λ s, s);
  if bool_decide (id ∈ pinned s) || bool_decide (id ∈ (process_map_ s).*2) then mret tt else
  on_object id destroy ;;
  modify (λ s, set_heap (delete id (heap s)) s).

(** A block with a local pointer to [id], which goes away when the block is
    left, by an exception too. *)
Definition with_pointer {A} (id : nat) (m : M PM A) : M PM A :=
  modify (λ s, set_pinned (id :: pinned s) s) ;;
  scoped m (modify (λ s, set_pinned (tail (pinned s)) s) ;; release id).

Definition find_process (name : bytes) : M PM (option nat) :=
  gets (λ s, sm_find name (process_map_ s)).

(** The objects the loops over [process_map_] visit. *)
Definition all_processes : M PM (list nat) := gets (λ s, (process_map_ s).*2).

(** *** Operations *)

Definition add_process (config : ProgramConfig) : M PM unit :=
  p ← on_world (create config);
  id ← gets next_id;
  modify (λ s, set_next (S id) (set_heap (<[id := p]> (heap s)) s)) ;;
  old ← find_process (name config);
  modify (λ s, set_map (sm_set (name config) id (process_map_ s)) s) ;;
  match old with None => mret tt | Some old => release old end.

Definition start_all : M PM unit :=
  ids ← all_processes;
  mfor ids (λ id, on_object id start ;; mret tt).

Definition start_process (name : bytes) : M PM bool :=
  it ← find_process name;
  match it with
  | None => mret false
  | Some id => with_pointer id (on_object id start)
  end.

Fixpoint any_running (ids : list nat) : M PM bool :=
  match ids with
  | [] => mret false
  | id :: ids =>
    p ← object id;
    if 0 <? pid_ p then mret true else any_running ids
  end.
Definition has_running_processes : M PM bool :=
  ids ← all_processes; any_running ids.

(** The loop that looks for the process with a given pid. *)
Fixpoint notify_exit (ids : list nat) (pid status : Z) : M PM unit :=
  match ids with
  | [] => mret tt
  | id :: ids =>
    p ← object id;
    if pid_ p =? pid then on_object id (on_exit status) else notify_exit ids pid status
  end.

(** [handle_sigchld_], at most [fuel] iterations. *)
Fixpoint handle_sigchld_ (fuel : nat) (reaped : bool) : M PM bool :=
  match fuel with
  | O => out_of_fuel
  | S fuel =>
    r ← on_world (do_call (Waitpid (-1) true));
    let '(pid, status) := r : Z * Z in
    if pid <=? 0 then mret reaped else
    ids ← all_processes;
    notify_exit ids pid status ;;
    handle_sigchld_ fuel true
  end.

Definition on_timer_ : M PM unit :=
  ids ← all_processes;
  mfor ids (λ id, on_object id update).

Definition get_process (name : bytes) : M PM (option nat) := find_process name.

Definition get_all_process_info : M PM (list ProcessInfo) :=
  ids ← all_processes;
  foldr (λ id rest, info ← on_object id get_info; infos ← rest; mret (info :: infos))
    (mret []) ids.

(** *** Operations that run the event loop

    [dispatch] runs one handler; it is tied to the operations below.
    [fuel] bounds the iterations of each loop. *)
Section waiting.
Variable dispatch : handler → M PM unit.
Variable fuel : nat.

(** [io_context_.run_for(10ms)]: the handlers that are ready run in
    turn, until the context is stopped. *)
Definition run_for : M PM unit :=
  on_world (do_call (RunFor 10)) ;;
  st ← gets stopped;
  if (st : bool) then mret tt else
  batch ← gets (λ s, default [] (head (agenda s)));
  modify (λ s, set_agenda (tail (agenda s)) s) ;;
  mfor batch (λ h, st ← gets stopped; if (st : bool) then mret tt else dispatch h).

Fixpoint reap_loop (n : nat) (deadline : Z) (keep_waiting : M PM bool) : M PM unit :=
  match n with
  | O => out_of_fuel
  | S n =>
    keep ← keep_waiting;
    if negb keep then mret tt else
    t ← on_world (do_call SteadyNow);
    if deadline <=? (t : Z) then mret tt else
    reaped ← handle_sigchld_ fuel false;
    (if (reaped : bool) then mret tt else run_for) ;;
    reap_loop n deadline keep_waiting
  end.

(** The duration is in seconds. *)
Definition reap_until_ (seconds : Z) (keep_waiting : M PM bool) : M PM unit :=
  t ← on_world (do_call SteadyNow);
  reap_loop fuel (t + seconds * NS) keep_waiting.

(** [int max_wait], the maximum over the processes with a pid. *)
Fixpoint longest_wait (ids : list nat) (max_wait : Z) : M PM Z :=
  match ids with
  | [] => mret max_wait
  | id :: ids =>
    p ← object id;
    longest_wait ids
      (if 0 <? pid_ p then Z.max max_wait (stopwaitsecs (config_ p)) else max_wait)
  end.

(** The first loop of [stop_all]: whether a process was signalled. *)
Fixpoint signal_all (ids : list nat) (signaled : bool) : M PM bool :=
  match ids with
  | [] => mret signaled
  | id :: ids =>
    p ← object id;
    if 0 <? pid_ p then on_object id stop ;; signal_all ids true
    else signal_all ids signaled
  end.

Definition stop_all : M PM unit :=
  ids ← all_processes;
  signaled ← signal_all ids false;
  if negb signaled then mret tt else
  max_wait ← longest_wait ids 0;
  wait ← int_result (max_wait + 1);
  reap_until_ wait has_running_processes ;;
  ids ← all_processes;
  mfor ids (λ id, p ← object id; if 0 <? pid_ p then on_object id kill else mret tt).

Definition stop_process (name : bytes) : M PM bool :=
  it ← find_process name;
  match it with
  | None => mret false
  | Some id =>
    with_pointer id
      (ok ← on_object id stop;
       if negb ok then mret false else
       p ← object id;
       wait ← int_result (stopwaitsecs (config_ p) + 1);
       reap_until_ wait (p ← object id; mret (0 <? pid_ p)) ;;
       mret true)
  end.

(** [LOG_INFO << "Removed process '" << name << "'"], after the entry has been
    erased: the operands are evaluated if a sink takes the record, and the
    name is gone by then if it was the key of the entry. *)
Definition log_removed (name : name_ref) : M PM unit :=
  taken ← gets log_info;
  if (taken : bool) && ref_is_key name then modify (λ s, set_freed (ref_name name :: freed_reads s) s)
  else mret tt.

(** The iterator is dangling if the entry is gone after the stop. *)
Definition remove_process (name : name_ref) : M PM bool :=
  it ← find_process (ref_name name);
  match it with
  | None => mret false
  | Some id =>
    p ← object id;
    (if 0 <? pid_ p then stop_process (ref_name name) ;; mret tt else mret tt) ;;
    it ← find_process (ref_name name);
    if bool_decide (it = Some id) then
      modify (λ s, set_map (sm_erase (ref_name name) (process_map_ s)) s) ;;
      release id ;;
      log_removed name ;;
      mret true
    else undef
  end.

(** The first loop of [sync_processes]: [it] is an iterator of the map, which
    an entry erased meanwhile leaves dangling; [name] refers to the key of
    the entry. *)
Fixpoint remove_others (n : nat) (new_names : smap unit) (it : option (bytes * nat)) : M PM unit :=
  match it with
  | None => mret tt
  | Some (name, id) =>
    match n with
    | O => out_of_fuel
    | S n =>
      found ← find_process name;
      if negb (bool_decide (found = Some id)) then undef else
      it ← gets (λ s, sm_after name (process_map_ s));
      (if negb (sset_contains name new_names) then remove_process (mkRef name true) ;; mret tt else mret tt) ;;
      remove_others n new_names it
    end
  end.

(** [changed] only selects a log message. *)
Definition sync_processes (new_programs : list ProgramConfig) : M PM unit :=
  let new_names := foldl (λ s prog, sset_insert (name prog) s) [] new_programs in
  it ← gets (λ s, sm_begin (process_map_ s));
  remove_others fuel new_names it ;;
  mfor new_programs (λ prog,
    it ← find_process (name prog);
    match it with
    | None =>
      add_process prog ;;
      start_process (name prog) ;;
      mret tt
    | Some id =>
      p ← object id;
      if negb (bool_decide (config_ p = prog)) then
        remove_process (mkRef (name prog) false) ;;
        add_process prog ;;
        start_process (name prog) ;;
        mret tt
      else mret tt
    end).

(** The destructor, and the destruction of the map. *)
Definition shut_down : M PM unit :=
  stop_all ;;
  ids ← all_processes;
  modify (set_map []) ;;
  mfor ids release.
End waiting.

(** Running a handler, which may itself run the event loop, to depth
    [depth]. *)
Fixpoint dispatch (fuel depth : nat) (h : handler) : M PM unit :=
  match depth with
  | O => out_of_fuel
  | S depth =>
    match h with
    | OnSigchld => handle_sigchld_ fuel false ;; mret tt
    | OnTimer => on_timer_
    | OnRead id ch error data =>
      (* the handler holds a weak pointer *)
      there ← gets (λ s, bool_decide (is_Some (heap s !! id)));
      if (there : bool) then on_object id (handle_read ch error data) else mret tt
    | OnStart name => start_process name ;; mret tt
    | OnStop name => stop_process (dispatch fuel depth) fuel name ;; mret tt
    | OnStartAll => start_all
    | OnStopAll => stop_all (dispatch fuel depth) fuel
    | OnShutdown => stop_all (dispatch fuel depth) fuel ;; modify (set_stopped true)
    | OnReload new_programs => sync_processes (dispatch fuel depth) fuel new_programs
    | OnThrow e => throw e
    | OnAborted => undef
    end
  end.
End manager.
