(* ===== verification/ProcessManagerSpec.v ===== *)
(** * What the process manager promises

    The invariant of [ProcessManager.v] and the proof that every operation
    keeps it and returns, whatever happens while the event loop runs inside
    it; then the properties of the operations. *)

From Stdlib Require Import ZArith NArith Ascii String.
From stdpp Require Import base gmap sets list strings.
From S2P Require Import Prelude CppString StdMap ConfigTypes Files LogWriter Kernel Sim.
From S2P Require Import Secure Process ProcessManager.

#[global] Instance starts_dec l : Decision (starts l).
Proof. destruct l; simpl; apply _. Defined.

(** [ht P m Q]: from a state with [P], [m] returns, and [Q] holds. *)
Definition ht {S A} (P : S → Prop) (m : M S A) (Q : A → S → Prop) : Prop :=
  ∀ s, P s → twp m Q s.

Lemma ht_bind {S A B} P (m : M S A) (R : A → S → Prop) (k : A → M S B) Q :
  ht P m R → (∀ a, ht (R a) (k a) Q) → ht P (m ≫= k) Q.
Proof.
  intros Hm Hk s Hs. apply twp_bind. eapply twp_mono; [by apply Hm|]. intros a s' Hr. by apply Hk.
Qed.

Lemma ht_weaken {S A} (P P' : S → Prop) (m : M S A) (Q Q' : A → S → Prop) :
  ht P' m Q' → (∀ s, P s → P' s) → (∀ a s, Q' a s → Q a s) → ht P m Q.
Proof. intros Hm HP HQ s Hs. eapply twp_mono; eauto. Qed.

Lemma ht_ret {S A} (P : S → Prop) (a : A) : ht P (mret a) (λ _, P).
Proof. by intros s. Qed.

(** Reading the state. *)
Lemma ht_gets {S A B} (P : S → Prop) (f : S → A) (k : A → M S B) Q :
  (∀ a, ht (λ s, P s ∧ f s = a) (k a) Q) → ht P (gets f ≫= k) Q.
Proof. intros Hk s Hs. apply twp_bind, twp_gets. by apply Hk. Qed.

(** [hx P m Q X]: from a state with [P], [m] returns with [Q] or throws with
    [X]. *)
Definition hx {S A} (P : S → Prop) (m : M S A) (Q : A → S → Prop) (X : exn → S → Prop) : Prop :=
  ∀ s, P s → ewp m Q X s.

Lemma ht_hx {S A} (P : S → Prop) (m : M S A) (Q : A → S → Prop) X : ht P m Q → hx P m Q X.
Proof. intros Hm s Hs. by apply twp_ewp, Hm. Qed.

Lemma hx_bind {S A B} P (m : M S A) (R : A → S → Prop) (k : A → M S B) Q X :
  hx P m R X → (∀ a, hx (R a) (k a) Q X) → hx P (m ≫= k) Q X.
Proof.
  intros Hm Hk s Hs. apply ewp_bind. eapply ewp_mono; [by apply Hm| |done]. intros a s' Hr. by apply Hk.
Qed.

Lemma hx_first {S A B} P (m : M S A) (R : A → S → Prop) (k : A → M S B) Q X :
  ht P m R → (∀ a, hx (R a) (k a) Q X) → hx P (m ≫= k) Q X.
Proof. intros Hm. by apply hx_bind, ht_hx. Qed.

Lemma hx_weaken {S A} (P P' : S → Prop) (m : M S A) (Q Q' : A → S → Prop) (X X' : exn → S → Prop) :
  hx P' m Q' X' → (∀ s, P s → P' s) → (∀ a s, Q' a s → Q a s) → (∀ e s, X' e s → X e s) → hx P m Q X.
Proof. intros Hm HP HQ HX s Hs. eapply ewp_mono; eauto. Qed.

Lemma hx_gets {S A B} (P : S → Prop) (f : S → A) (k : A → M S B) Q X :
  (∀ a, hx (λ s, P s ∧ f s = a) (k a) Q X) → hx P (gets f ≫= k) Q X.
Proof. intros Hk s Hs. apply ewp_bind, ewp_gets. by apply Hk. Qed.

(** The exceptions that the handlers of the nested event loops may raise. *)
Class Raised := raised : exn → Prop.
Definition no_exceptions : Raised := λ _, False.

(** The number of elements of a set. *)
Local Abbreviation card := (base.size (C := gset Z)).

(** ** The invariant *)

(** The retries a process has used up, counting the attempt under way. *)
Definition used (p : Process) : Z :=
  retry_count_ p + (if decide (state_ p = STARTING) then 1 else 0).

Section invariant.
Context {K : Type} `{!Kernel K} {laws : KernelLaws K} {may_raise : Raised}.
Local Abbreviation PM := (Manager K).

(** A handler that leaves the map of processes as it is, whether it returns
    or throws.  A reload that runs while another operation waits does not;
    what it can do is shown at the end. *)
Definition settled (h : handler) : Prop :=
  match h with OnReload _ | OnAborted => False | OnThrow e => raised e | _ => True end.

(** The handlers that are yet to run. *)
Definition pending (s : PM) : Z := Z.of_nat (length (concat (agenda s))).

(** What the operations never change: the map, and the configuration of
    each object.  [N] bounds the number of programs, [W] their
    [stopwaitsecs]. *)
Record static_ok (N W : Z) (m : smap nat) (cfgs : gmap nat ProgramConfig) : Prop := {
  st_wf : sm_wf m;
  st_len : Z.of_nat (length m) ≤ N;
  st_ids : NoDup m.*2;
  st_dom id : id ∈ m.*2 ↔ is_Some (cfgs !! id);
  st_names n id c : sm_find n m = Some id → cfgs !! id = Some c → name c = n;
  st_retries id c : cfgs !! id = Some c → startretries c ≤ 31;
  st_wait id c : cfgs !! id = Some c → INT_MIN ≤ stopwaitsecs c ≤ W;
}.

Record proc_ok (w : World K) (budget : Z) (p : Process) : Prop := {
  po_reach : reachable (config_ p) (core p);
  po_logs : writers_ok p;
  po_child : 0 < pid_ p → pid_ p ∈ children (wk w);
  po_budget : used p + budget < INT_MAX;
}.

(** [inv T P C b s]: [b] starts are still to be paid for, the clock is at
    [T] at least, at most [P] handlers are pending, and there are, now or
    later, at most [C] children; every process is in a state that its state
    machine reaches, and the pids are those of distinct children. *)
Record inv (N : Z) (m : smap nat) (cfgs : gmap nat ProgramConfig) (T P C b : Z) (s : PM) : Prop := {
  i_map : process_map_ s = m;
  i_cfgs : config_ <$> heap s = cfgs;
  i_next id : is_Some (cfgs !! id) → (id < next_id s)%nat;
  i_procs id p : heap s !! id = Some p → proc_ok (world s) (pending s * N + b) p;
  i_pids id1 id2 p1 p2 : heap s !! id1 = Some p1 → heap s !! id2 = Some p2 →
    0 < pid_ p1 → pid_ p1 = pid_ p2 → id1 = id2;
  i_tracked : tracked (world s);
  i_clock : T ≤ clock (wk (world s));
  i_pending : pending s ≤ P;
  i_children : Z.of_nat (card (children (wk (world s)))) + pending s * N + b ≤ C;
  i_room : pending s * N + b < INT_MAX;
  i_settled : Forall settled (concat (agenda s));
}.

Lemma pending_nonneg s : 0 ≤ pending s.
Proof. unfold pending. lia. Qed.

(** What a transition does to the children. *)
Lemma effect_cases config l c c' (w w' : World K) :
  step config c l c' → effect config l c w w' →
  (children (wk w') = children (wk w) ∧ (c_pid c' = c_pid c ∨ c_pid c' = -1))
  ∨ (starts l ∧ (c_pid c' ∉ children (wk w)) ∧ children (wk w') = {[ c_pid c' ]} ∪ children (wk w))
  ∨ (children (wk w') = children (wk w) ∖ {[ c_pid c ]} ∧ c_pid c' = -1).
Proof.
  intros Hs [_ He]. destruct Hs; simpl in *; try by (left; destruct He; auto).
  - right. left. tauto.
  - destruct He as [[_ He]|[_ He]]; auto.
Qed.

Lemma card_add (x : Z) (X : gset Z) : (card ({[ x ]} ∪ X) ≤ S (card X))%nat.
Proof.
  rewrite size_union_alt, size_singleton.
  pose proof (subseteq_size (X ∖ {[ x ]}) X ltac:(set_solver)). lia.
Qed.

Lemma effect_children config l c c' (w w' : World K) :
  step config c l c' → effect config l c w w' →
  (∀ x, x ∈ children (wk w) → x ≠ c_pid c → x ∈ children (wk w'))
  ∧ (c_pid c' = c_pid c ∨ c_pid c' = -1 ∨ c_pid c' ∉ children (wk w))
  ∧ Z.of_nat (card (children (wk w'))) ≤ Z.of_nat (card (children (wk w)))
      + (if decide (starts l) then 1 else 0).
Proof.
  intros Hs He. destruct (effect_cases _ _ _ _ _ _ Hs He) as [[-> Hc]|[(Hl & Hf & ->)|[-> Hc]]].
  - split_and!; [auto|tauto|case_decide; lia].
  - split_and!; [set_solver|auto|]. rewrite decide_True by done.
    pose proof (card_add (c_pid c') (children (wk w))). lia.
  - split_and!; [set_solver|auto|].
    pose proof (subseteq_size (children (wk w) ∖ {[ c_pid c ]}) (children (wk w)) ltac:(set_solver)).
    case_decide; lia.
Qed.

Lemma step_used config l p p' :
  step config (core p) l (core p') → 0 ≤ retry_count_ p →
  used p' ≤ used p + (if decide (starts l) then 1 else 0).
Proof.
  unfold used, core. intros Hs Hn.
  remember (mkCore (state_ p) (pid_ p) (retry_count_ p)) as c eqn:Hc.
  remember (mkCore (state_ p') (pid_ p') (retry_count_ p')) as c' eqn:Hc'.
  destruct Hs; injection Hc as G1 G2 G3; injection Hc' as G1' G2' G3';
    rewrite <- G1, <- G3, <- G1', <- G3'; rewrite <- G3 in Hn;
    try rewrite (decide_True (P := starts _)) by done;
    try rewrite (decide_False (P := starts _)) by (by intros []);
    unfold retry_state in *; repeat case_decide; simplify_eq; try lia;
    repeat case_match; try lia; done.
Qed.

Lemma writers_ok_fixed p p' : fixed p' = fixed p → writers_ok p → writers_ok p'.
Proof.
  unfold fixed. intros [= _ H1 H2] Hok ch lw Hlw. apply (Hok ch). destruct ch; simpl in *; congruence.
Qed.

(** The part of the invariant about one process survives what happens to
    the others. *)
Lemma proc_ok_frame w w' budget p :
  (0 < pid_ p → pid_ p ∈ children (wk w) → pid_ p ∈ children (wk w')) →
  proc_ok w budget p → proc_ok w' budget p.
Proof. intros Hc []. constructor; auto. Qed.

Context (N W : Z) (m : smap nat) (cfgs : gmap nat ProgramConfig).
Context (HN : 1 ≤ N) (Hst : static_ok N W m cfgs).
Local Abbreviation I := (inv N m cfgs).

Lemma inv_mono T P C b T' P' C' b' s :
  T' ≤ T → P ≤ P' → C ≤ C' → b' ≤ b → I T P C b s → I T' P' C' b' s.
Proof.
  intros HT HP HC Hb []. constructor; try done; try lia.
  intros id p Hp. destruct (i_procs0 id p Hp). constructor; try done. lia.
Qed.

Lemma inv_world T P C b s w' :
  quiet (world s) w' → I T P C b s → I T P C b (set_world w' s).
Proof.
  intros Hq Hi. destruct Hi. pose proof Hq as (Hm & Hc & Ht).
  constructor; simpl; try done; try by rewrite ?Hc.
  - intros id p Hp. apply (proc_ok_frame (world s)); [by rewrite Hc|]. by eapply i_procs0.
  - by eapply quiet_tracked.
  - lia.
Qed.

(** Replacing the object [id], at the cost of [c] starts. *)
Lemma inv_set_object T P C C' c b s id p p' w' :
  heap s !! id = Some p → I T P C (c + b) s → 0 ≤ c →
  config_ p' = config_ p → writers_ok p' → reachable (config_ p') (core p') →
  used p' ≤ used p + c → clock (wk (world s)) ≤ clock (wk w') → tracked w' →
  (∀ x, x ∈ children (wk (world s)) → x ≠ pid_ p → x ∈ children (wk w')) →
  (0 < pid_ p' → pid_ p' ∈ children (wk w')) →
  (pid_ p' = pid_ p ∨ pid_ p' = -1 ∨ pid_ p' ∉ children (wk (world s))) →
  Z.of_nat (card (children (wk w'))) ≤ Z.of_nat (card (children (wk (world s)))) + c + (C' - C) →
  I T P C' b (set_world w' (set_heap (<[id := p']> (heap s)) s)).
Proof.
  intros Hp Hi Hc Hcfg Hlogs Hcons Hused Hclk Htr Hkeep Hchild Hpid Hcard. destruct Hi.
  assert (Hother : ∀ id2 p2, heap s !! id2 = Some p2 → id2 ≠ id → 0 < pid_ p2 →
    pid_ p2 ∈ children (wk (world s)) ∧ pid_ p2 ≠ pid_ p).
  { intros id2 p2 H2 Hne Hpos. split; [by apply (po_child _ _ _ (i_procs0 _ _ H2))|].
    intros E. apply Hne. by eapply (i_pids0 id2 id p2 p). }
  constructor; simpl; try done; try lia.
  - rewrite <- i_cfgs0. rewrite fmap_insert, Hcfg. apply insert_id. by rewrite lookup_fmap, Hp.
  - intros id2 p2 H2. destruct (decide (id2 = id)) as [->|Hne].
    + rewrite lookup_insert_eq in H2. injection H2 as <-.
      pose proof (po_budget _ _ _ (i_procs0 _ _ Hp)).
      constructor; try done. change (pending _) with (pending s). lia.
    + rewrite lookup_insert_ne in H2 by done. pose proof (i_procs0 _ _ H2) as [].
      destruct (Z.lt_ge_cases 0 (pid_ p2)) as [Hpos|]; [|constructor; try done; [lia|]].
      * destruct (Hother id2 p2 H2 Hne Hpos). constructor; try done; [by auto|].
        change (pending _) with (pending s). lia.
      * change (pending _) with (pending s). lia.
  - intros id1 id2 p1 p2 H1 H2 Hpos Heq.
    destruct (decide (id1 = id)) as [->|Hne1], (decide (id2 = id)) as [->|Hne2]; try done.
    + rewrite lookup_insert_eq in H1. injection H1 as <-. rewrite lookup_insert_ne in H2 by done.
      exfalso. destruct (Hother id2 p2 H2 Hne2) as [? ?]; [lia|].
      destruct Hpid as [|[|]]; [congruence|lia|congruence].
    + rewrite lookup_insert_eq in H2. injection H2 as <-. rewrite lookup_insert_ne in H1 by done.
      exfalso. destruct (Hother id1 p1 H1 Hne1) as [? ?]; [lia|].
      destruct Hpid as [|[|]]; [congruence|lia|congruence].
    + rewrite lookup_insert_ne in H1, H2 by done. by eapply i_pids0.
  - change (pending _) with (pending s). lia.
  - change (pending _) with (pending s). lia.
Qed.

Lemma inv_moved T P C c b s id p ls p' w' :
  heap s !! id = Some p → I T P C (c + b) s → 0 ≤ c → (∀ l, ls l → starts l → 1 ≤ c) →
  moved ls p (world s) (p', w') →
  I T P C b (set_world w' (set_heap (<[id := p']> (heap s)) s)).
Proof.
  intros Hp Hi Hc Hls Hm. pose proof (i_procs _ _ _ _ _ _ _ _ Hi _ _ Hp) as [Hcons Hlogs Hchild _].
  pose proof (i_tracked _ _ _ _ _ _ _ _ Hi) as Htr.
  pose proof (moved_reachable _ _ _ _ Hcons Hm) as Hcons'. apply reachable_consistent_aux in Hcons.
  destruct Hm as [Hf Hm]. simpl in *.
  pose proof (fixed_config _ _ Hf) as Hcfg. pose proof (writers_ok_fixed _ _ Hf Hlogs).
  destruct Hm as [[Hcore Hq]|(l & Hl & Hs & He)].
  - pose proof (quiet_tracked _ _ Hq Htr). destruct Hq as (_ & Hch & Hclk).
    pose proof Hcore as [= E1 E2 E3].
    eapply (inv_set_object T P C C c b s id p); try done; rewrite ?E2, ?Hch; auto; try lia.
    unfold used. rewrite E1, E3. lia.
  - pose proof (effect_children _ _ _ _ _ _ Hs He) as (Hk & Hd & Hn).
    destruct (effect_tracked _ _ _ _ _ _ Hcons Hs He Htr Hchild) as [Htr' Hch'].
    pose proof (step_used _ _ _ _ Hs (cons_retry _ _ Hcons)).
    assert ((if decide (starts l) then 1 else 0) ≤ c) by (case_decide; eauto).
    eapply (inv_set_object T P C C c b s id p); try done; [lia|by destruct He|lia].
Qed.

(** ** One object *)

Lemma object_there T P C b s id :
  I T P C b s → id ∈ m.*2 → ∃ p, heap s !! id = Some p ∧ cfgs !! id = Some (config_ p).
Proof.
  intros Hi [c Hc]%(st_dom _ _ _ _ Hst).
  pose proof (i_cfgs _ _ _ _ _ _ _ _ Hi) as Hcfgs. rewrite <- Hcfgs in Hc |- *.
  rewrite lookup_fmap in Hc |- *. destruct (heap s !! id) as [p|]; [|done]. by exists p.
Qed.

Lemma twp_on_object {A} id (op : M (Process * World K) A) Q s p :
  heap s !! id = Some p →
  twp op (λ a t, Q a (set_world t.2 (set_heap (<[id := t.1]> (heap s)) s))) (p, world s) →
  twp (on_object id op) Q s.
Proof. intros Hp Ht. unfold twp, on_object. rewrite Hp. by apply twp_zoom. Qed.

Lemma twp_object id (Q : Process → PM → Prop) s p :
  heap s !! id = Some p → Q p s → twp (object id) Q s.
Proof. intros Hp HQ. unfold twp, object. by rewrite Hp. Qed.

Lemma ewp_object id (Q : Process → PM → Prop) E s p :
  heap s !! id = Some p → Q p s → ewp (object id) Q E s.
Proof. intros Hp HQ. unfold ewp, object. by rewrite Hp. Qed.

(** What the operations on a process need, from the invariant. *)
Lemma object_bounds T P C b s id p :
  I T P C b s → 0 ≤ b → heap s !! id = Some p →
  0 ≤ retry_count_ p < INT_MAX ∧ (state_ p = BACKOFF → retry_count_ p < 32).
Proof.
  intros Hi Hb Hp. pose proof (i_procs _ _ _ _ _ _ _ _ Hi _ _ Hp) as [Hcons _ _ Hbud].
  apply reachable_consistent_aux in Hcons.
  pose proof (cons_retry _ _ Hcons) as Hn. simpl in Hn. pose proof (pending_nonneg s).
  assert (retry_count_ p ≤ used p) by (unfold used; case_decide; lia).
  split; [nia|]. intros Hst'. pose proof (cons_backoff _ _ Hcons Hst') as Hb'. simpl in Hb'.
  assert (cfgs !! id = Some (config_ p)) as Hc.
  { pose proof (i_cfgs _ _ _ _ _ _ _ _ Hi) as Hcfgs. by rewrite <- Hcfgs, lookup_fmap, Hp. }
  apply (st_retries _ _ _ _ Hst) in Hc. lia.
Qed.

(** An operation of the state machine, at a cost of [c] starts. *)
Lemma ht_op {A} T P C c b id ls (op : M (Process * World K) A) :
  id ∈ m.*2 → 0 ≤ c → 0 ≤ b → (∀ l, ls l → starts l → 1 ≤ c) →
  (∀ p w, consistent (config_ p) (core p) → 0 ≤ retry_count_ p < INT_MAX →
     (state_ p = BACKOFF → retry_count_ p < 32) → twp op (λ _, moved ls p w) (p, w)) →
  ht (I T P C (c + b)) (on_object id op) (λ _, I T P C b).
Proof.
  intros Hid Hc Hb Hls Hop s Hi. destruct (object_there _ _ _ _ _ _ Hi Hid) as (p & Hp & _).
  destruct (object_bounds _ _ _ _ _ _ _ Hi ltac:(lia) Hp) as [Hn Hbo].
  pose proof (i_procs _ _ _ _ _ _ _ _ Hi _ _ Hp) as [Hcons _ _ _].
  apply reachable_consistent_aux in Hcons.
  eapply twp_on_object; [exact Hp|]. eapply twp_mono; [by apply Hop|].
  intros a [p' w'] Hm. simpl. by eapply inv_moved.
Qed.

Lemma ht_start T P C b id :
  id ∈ m.*2 → 0 ≤ b → ht (I T P C (1 + b)) (on_object id start) (λ _, I T P C b).
Proof.
  intros Hid Hb. apply (ht_op _ _ _ _ _ _ starts); [done|lia|done|lia|].
  intros p w _ Hn _. apply start_moves. unfold INT_MIN. lia.
Qed.

Lemma ht_update T P C b id :
  id ∈ m.*2 → 0 ≤ b → ht (I T P C (1 + b)) (on_object id update) (λ _, I T P C b).
Proof.
  intros Hid Hb. apply (ht_op _ _ _ _ _ _ updates); [done|lia|done|lia|].
  intros p w Hc Hn Hbo. apply update_moves; [done|lia|done].
Qed.

Lemma ht_stop T P C b id :
  id ∈ m.*2 → 0 ≤ b → ht (I T P C b) (on_object id stop) (λ _, I T P C b).
Proof.
  intros Hid Hb. apply (ht_op _ _ _ 0 _ _ (eq StopSent)); [done|lia|done|by intros ? <-|].
  intros p w _ _ _. eapply twp_mono; [apply stop_moves|]. by intros ? ? [? _].
Qed.

Lemma ht_kill T P C b id :
  id ∈ m.*2 → 0 ≤ b → ht (I T P C b) (on_object id kill) (λ _, I T P C b).
Proof.
  intros Hid Hb. apply (ht_op _ _ _ 0 _ _ (eq Killed)); [done|lia|done|by intros ? <-|].
  intros p w _ _ _. eapply twp_mono; [apply kill_moves|]. by intros ? ? [? _].
Qed.

Lemma ht_read T P C b id ch error data :
  id ∈ m.*2 → 0 ≤ b →
  ht (I T P C b) (on_object id (handle_read ch error data)) (λ _, I T P C b).
Proof.
  intros Hid Hb s Hi. destruct (object_there _ _ _ _ _ _ Hi Hid) as (p & Hp & _).
  pose proof (i_procs _ _ _ _ _ _ _ _ Hi _ _ Hp) as [Hcons Hlogs Hchild _].
  eapply twp_on_object; [exact Hp|].
  apply (twp_total (logging p (world s))); [apply handle_read_total|by split_and!|].
  intros a [p' w'] (Hcfg & Hcore & Hlogs' & Hq). simpl in *.
  pose proof (quiet_tracked _ _ Hq (i_tracked _ _ _ _ _ _ _ _ Hi)).
  destruct Hq as (_ & Hch & Hclk). pose proof Hcore as [= E1 E2 E3].
  eapply (inv_set_object T P C C 0 b s id p); try done; rewrite ?E2, ?Hch; auto; try lia.
  - by rewrite Hcfg, Hcore.
  - unfold used. rewrite E1, E3. lia.
Qed.

(** ** Reaping *)

Lemma world_reaped T P C b s pid st k :
  I T P C b s → sys (Waitpid (-1) true) (wk (world s)) = ((pid, st), k) → 0 < pid →
  let w1 := mkWorld k (wfs (world s)) (Ev (Waitpid (-1) true) (pid, st) :: wtrace (world s)) (wstatics (world s)) in
  pid ∈ children (wk (world s)) ∧ children (wk w1) = children (wk (world s)) ∖ {[ pid ]}
  ∧ tracked w1 ∧ clock (wk (world s)) ≤ clock (wk w1)
  ∧ Z.of_nat (card (children (wk w1))) = Z.of_nat (card (children (wk (world s)))) - 1.
Proof.
  intros Hi Hs Hpid w1. pose proof (waitpid_law _ _ _ _ _ _ Hs) as Hw.
  pose proof (clock_law (Waitpid _ _) _ _ _ Hs) as Hc.
  destruct (Z.ltb_spec 0 pid) as [_|]; [|lia]. destruct Hw as (Hin & Hch & _).
  pose proof (i_tracked _ _ _ _ _ _ _ _ Hi) as [Ht Ho].
  split_and!; [done|done| |done|].
  - unfold tracked, w1. cbn [wk wtrace]. rewrite marks_waitpid.
    destruct (Z.ltb_spec 0 pid); [|lia]. simpl. rewrite Hch, Ht. done.
  - unfold w1. cbn [wk]. rewrite Hch, size_difference by set_solver. rewrite size_singleton.
    assert (card (children (wk (world s))) ≠ 0%nat); [|lia].
    intros E%size_empty_inv. set_solver.
Qed.

(** The process whose child was reaped, if there is one, learns of it. *)
Lemma notify_ok T P C b s pid st k ids :
  I T P C b s → 0 ≤ b →
  sys (Waitpid (-1) true) (wk (world s)) = ((pid, st), k) → 0 < pid →
  (∀ id, id ∈ ids → id ∈ m.*2) →
  (∀ id p, id ∉ ids → heap s !! id = Some p → pid_ p ≠ pid) →
  twp (notify_exit ids pid st) (λ _, I T P (C - 1) b)
    (set_world (mkWorld k (wfs (world s))
       (Ev (Waitpid (-1) true) (pid, st) :: wtrace (world s)) (wstatics (world s))) s).
Proof.
  intros Hi Hb Hs Hpid Hids Hnot.
  pose proof (world_reaped _ _ _ _ _ _ _ _ Hi Hs Hpid) as (Hin & Hch & Htr & Hclk & Hcard).
  cbn [wk] in Hch, Hclk, Hcard. set (w1 := mkWorld k _ _ _) in *.
  induction ids as [|id ids IH]; cbn [notify_exit].
  - apply twp_ret. destruct Hi. constructor; simpl; try done; try lia.
    + intros id p Hp. apply (proc_ok_frame (world s)); [|by eapply i_procs0].
      intros _ Hold. change (wk w1) with k in *. rewrite Hch. pose proof (Hnot id p (not_elem_of_nil _) Hp). set_solver.
    + change (pending (set_world w1 s)) with (pending s). lia.
  - destruct (object_there _ _ _ _ _ id Hi) as (p & Hp & _); [apply Hids; left|].
    apply twp_bind. eapply twp_object; [exact Hp|].
    destruct (Z.eqb_spec (pid_ p) pid) as [Heq|Hne].
    + destruct (object_bounds _ _ _ _ _ _ _ Hi Hb Hp) as [Hn _].
      pose proof (i_procs _ _ _ _ _ _ _ _ Hi _ _ Hp) as [Hcons Hlogs _ _].
      eapply twp_on_object; [exact Hp|]. simpl.
      eapply twp_mono; [apply on_exit_ok; unfold INT_MIN; lia|].
      intros _ [p' w'] (Hf & Hcore & _ & Hq). simpl in *.
      pose proof (quiet_tracked _ _ Hq Htr) as Htr'. destruct Hq as (_ & Hch' & Hclk').
      change (wk w1) with k in *.
      pose proof (exit_core_step (config_ p) (core p) ltac:(simpl; lia)) as Hstep.
      pose proof (fixed_config _ _ Hf) as Hcfg. rewrite <- Hcore in Hstep.
      pose proof (step_used _ _ _ _ Hstep ltac:(lia)) as Hused. simpl in Hused.
      assert (Hpid' : pid_ p' = -1).
      { change (pid_ p') with (c_pid (core p')). rewrite Hcore. unfold exit_core.
        by repeat case_match. }
      eapply (inv_set_object T P C (C - 1) 0 b s id p); try done.
      * by eapply writers_ok_fixed.
      * rewrite Hcfg. by eapply reachable_step.
      * lia.
      * intros x Hx Hxp. rewrite Hch', Hch. set_solver.
      * lia.
      * auto.
      * rewrite Hch'. lia.
    + apply IH; [intros id' Hid'; apply Hids; by right|].
      intros id' p' Hid' Hp'. destruct (decide (id' = id)) as [->|].
      * by simplify_eq.
      * apply (Hnot id'); [|done]. set_solver.
Qed.

Lemma ht_sigchld T P C b fuel r :
  0 ≤ b → C < Z.of_nat fuel →
  ht (I T P C b) (handle_sigchld_ fuel r)
    (λ r' s, I T P C b s ∧ (r' = true → r = true ∨ I T P (C - 1) b s)).
Proof.
  intros Hb. revert r C. induction fuel as [|fuel IH]; intros r C Hf s Hi.
  { destruct Hi. pose proof (pending_nonneg s). nia. }
  cbn [handle_sigchld_]. apply twp_bind.
  unfold twp at 1, on_world, zoom, do_call. cbn [sys].
  destruct (sys (Waitpid (-1) true) (wk (world s))) as [[pid st] k] eqn:E.
  destruct (Z.leb_spec pid 0) as [Hpid|Hpid].
  - apply twp_ret. split; [|intros ->; by left]. apply inv_world; [|done].
    pose proof (waitpid_law _ _ _ _ _ _ E) as Hw. pose proof (clock_law (Waitpid _ _) _ _ _ E).
    destruct (Z.ltb_spec 0 pid); [lia|]. split_and!; [|done|done].
    cbn [wtrace]. rewrite marks_waitpid. destruct (Z.ltb_spec 0 pid); [lia|done].
  - apply twp_bind, twp_gets. cbn [process_map_ set_world]. rewrite (i_map _ _ _ _ _ _ _ _ Hi).
    apply twp_bind. eapply twp_mono; [apply (notify_ok T P C b); [done|done|done|done|done|]|].
    { intros id p Hid Hp. exfalso. apply Hid, (st_dom _ _ _ _ Hst).
      pose proof (i_cfgs _ _ _ _ _ _ _ _ Hi) as Hcfgs. by rewrite <- Hcfgs, lookup_fmap, Hp. }
    intros ? s1 Hi1. eapply twp_mono; [apply (IH true (C - 1)); [lia|done]|].
    intros r' s2 [Hi2 _]. split; [by eapply inv_mono; [..|exact Hi2]; lia|]. auto.
Qed.

(** ** Waiting, with the event loop running inside *)

(** The clock only moves forward; a call that concerns no child. *)
Lemma ht_now T P C b :
  ht (I T P C b) (on_world (do_call SteadyNow))
    (λ t s, I T P C b s ∧ clock (wk (world s)) = t ∧ T ≤ t).
Proof.
  intros s Hi. unfold twp, on_world, zoom, do_call.
  destruct (sys SteadyNow (wk (world s))) as [t k] eqn:E.
  pose proof (steady_law _ _ _ E) as [H1 H2]. apply (quiet_sys SteadyNow (world s)) in E; [|done].
  pose proof (i_clock _ _ _ _ _ _ _ _ Hi). split_and!; [by apply inv_world|done|lia].
Qed.

Lemma ht_pause ms T P C b :
  ht (I T P C b) (on_world (do_call (RunFor ms))) (λ _, I (T + 1) P C b).
Proof.
  intros s Hi. unfold twp, on_world, zoom, do_call.
  destruct (sys (RunFor ms) (wk (world s))) as [[] k] eqn:E.
  pose proof (run_for_law _ _ _ _ E) as H1. apply (quiet_sys (RunFor ms) (world s)) in E; [|done].
  apply (inv_world T P C b s) in E; [|done]. pose proof (i_clock _ _ _ _ _ _ _ _ Hi).
  destruct E. constructor; try done. simpl. lia.
Qed.

Lemma inv_pop T P C b s :
  let k := Z.of_nat (length (default [] (head (agenda s)))) in
  I T P C b s → I T (P - k) C (k * N + b) (set_agenda (tail (agenda s)) s).
Proof.
  intros k Hi. assert (Hk : pending s = k + pending (set_agenda (tail (agenda s)) s)).
  { unfold pending, k. simpl. destruct (agenda s); simpl; [lia|]. rewrite length_app. lia. }
  destruct Hi. constructor; simpl; try done; try lia.
  - intros id p Hp. destruct (i_procs0 id p Hp). constructor; try done. lia.
  - destruct (agenda s); [done|]. by apply Forall_app in i_settled0 as [_ ?].
Qed.

Lemma batch_settled T P C b s : I T P C b s → Forall settled (default [] (head (agenda s))).
Proof.
  intros Hi. pose proof (i_settled _ _ _ _ _ _ _ _ Hi) as Hs. destruct (agenda s); [done|].
  by apply Forall_app in Hs as [? _].
Qed.

Lemma stops_dec (s : PM) : stopped s = true ∨ stopped s = false.
Proof. destruct (stopped s); auto. Qed.

(** ** Pointers and loops over the map *)

Lemma inv_pinned T P C b l s : I T P C b s → I T P C b (set_pinned l s).
Proof. intros []. by constructor. Qed.

Lemma inv_stopped T P C b x s : I T P C b s → I T P C b (set_stopped x s).
Proof. intros []. by constructor. Qed.

(** A local pointer to an object of the map goes away without an effect. *)
Lemma unpin_ok id T P C b s : id ∈ m.*2 → I T P C b s →
  twp (modify (λ s, set_pinned (tail (pinned s)) s) ;; release id)
    (λ _ s', s' = set_pinned (tail (pinned s)) s) s.
Proof.
  intros Hid Hi. apply twp_bind, twp_modify. unfold release. apply twp_bind, twp_gets. cbn.
  by rewrite (i_map _ _ _ _ _ _ _ _ Hi), (bool_decide_eq_true_2 (id ∈ _.*2)), orb_true_r.
Qed.

Lemma ht_with_pointer {A} id (op : M PM A) T T' P C b b' (Q : A → PM → Prop) :
  id ∈ m.*2 →
  ht (I T P C b) op (λ a s, I T' P C b' s ∧ Q a s) →
  (∀ a s l, Q a s → Q a (set_pinned l s)) →
  ht (I T P C b) (with_pointer id op) (λ a s, I T' P C b' s ∧ Q a s).
Proof.
  intros Hid Hop HQ s Hi. unfold with_pointer. apply twp_bind, twp_modify, twp_scoped.
  eapply twp_mono; [apply Hop; by apply inv_pinned|]. intros a s1 [Hi1 Hq1].
  eapply twp_mono; [by apply (unpin_ok id T' P C b')|]. intros ? ? ->.
  split; [by apply inv_pinned|by apply HQ].
Qed.

(** What a wait leaves behind when a handler throws. *)
Definition thrown T P C b (e : exn) (s : PM) : Prop := raised e ∧ I T P C b s.

Lemma hx_with_pointer {A} id (op : M PM A) T P C b (Q : A → PM → Prop) :
  id ∈ m.*2 →
  hx (I T P C b) op (λ a s, I T P C b s ∧ Q a s) (thrown T P C b) →
  (∀ a s l, Q a s → Q a (set_pinned l s)) →
  hx (I T P C b) (with_pointer id op) (λ a s, I T P C b s ∧ Q a s) (thrown T P C b).
Proof.
  intros Hid Hop HQ s Hi. unfold with_pointer. apply ewp_bind, ewp_modify, ewp_scoped.
  eapply ewp_mono; [apply Hop; by apply inv_pinned|..].
  - intros a s1 [Hi1 Hq1]. eapply twp_mono; [by apply (unpin_ok id T P C b)|]. intros ? ? ->.
    split; [by apply inv_pinned|by apply HQ].
  - intros e s1 [He Hi1]. eapply twp_mono; [by apply (unpin_ok id T P C b)|]. intros ? ? ->.
    split; [done|by apply inv_pinned].
Qed.

Lemma ht_find_process name T P C b :
  ht (I T P C b) (find_process name) (λ it s, I T P C b s ∧ it = sm_find name m).
Proof. intros s Hi. split; [done|]. by rewrite (i_map _ _ _ _ _ _ _ _ Hi). Qed.

Lemma find_in_ids name id : sm_find name m = Some id → id ∈ m.*2.
Proof. intros H%sm_find_elem. by apply (list_elem_of_fmap_2 snd) in H. Qed.

Lemma ht_all_processes T P C b :
  ht (I T P C b) all_processes (λ ids s, I T P C b s ∧ ids = m.*2).
Proof. intros s Hi. split; [done|]. by rewrite (i_map _ _ _ _ _ _ _ _ Hi). Qed.

Lemma ids_length : Z.of_nat (length m.*2) ≤ N.
Proof. rewrite length_fmap. by destruct Hst. Qed.

(** A loop over the map that pays one start per object. *)
Lemma ht_each (body : nat → M PM unit) T P C b ids :
  (∀ id, id ∈ ids → id ∈ m.*2) → 0 ≤ b →
  (∀ id b, id ∈ m.*2 → 0 ≤ b → ht (I T P C (1 + b)) (body id) (λ _, I T P C b)) →
  ht (I T P C (Z.of_nat (length ids) + b)) (mfor ids body) (λ _, I T P C b).
Proof.
  intros Hids Hb Hbody. induction ids as [|id ids IH]; cbn [mfor length].
  { by apply ht_ret. }
  apply (ht_bind _ _ (λ _, I T P C (Z.of_nat (length ids) + b))).
  - replace (Z.of_nat (S (length ids)) + b) with (1 + (Z.of_nat (length ids) + b)) by lia.
    apply Hbody; [apply Hids; left|lia].
  - intros _. apply IH. intros id' Hid'. apply Hids. by right.
Qed.

Lemma ht_start_process name T P C b :
  0 ≤ b → ht (I T P C (1 + b)) (start_process name) (λ _, I T P C b).
Proof.
  intros Hb. unfold start_process. eapply ht_bind; [apply ht_find_process|].
  intros it s [Hi ->]. destruct (sm_find name m) as [id|] eqn:E.
  - apply find_in_ids in E. eapply twp_mono.
    { apply (ht_with_pointer id (on_object id start) T T P C (1 + b) b (λ _ _, True)); [done| |done|exact Hi].
      eapply ht_weaken; [by apply ht_start|done|by split]. }
    by intros a s' [? _].
  - apply twp_ret. apply (inv_mono T P C (1 + b)); [lia..|done].
Qed.

Lemma ht_start_all T P C b :
  0 ≤ b → ht (I T P C (N + b)) start_all (λ _, I T P C b).
Proof.
  intros Hb. unfold start_all. eapply ht_bind; [apply ht_all_processes|].
  intros ids s [Hi ->]. pose proof ids_length.
  apply (ht_each (λ id, on_object id start ;; mret tt) T P C b m.*2); [done|done| |].
  - intros id b' Hid Hb'. eapply ht_bind; [by apply ht_start|]. intros. apply ht_ret.
  - apply (inv_mono T P C (N + b)); [lia..|done].
Qed.

Lemma ht_on_timer T P C b :
  0 ≤ b → ht (I T P C (N + b)) on_timer_ (λ _, I T P C b).
Proof.
  intros Hb. unfold on_timer_. eapply ht_bind; [apply ht_all_processes|].
  intros ids s [Hi ->]. pose proof ids_length.
  apply (ht_each (λ id, on_object id update) T P C b m.*2); [done|done| |].
  - intros id b' Hid Hb'. by apply ht_update.
  - apply (inv_mono T P C (N + b)); [lia..|done].
Qed.

Lemma ht_object id T P C b :
  id ∈ m.*2 →
  ht (I T P C b) (object id) (λ p s, I T P C b s ∧ heap s !! id = Some p
    ∧ cfgs !! id = Some (config_ p)).
Proof.
  intros Hid s Hi. destruct (object_there _ _ _ _ _ _ Hi Hid) as (p & Hp & Hc).
  eapply twp_object; [exact Hp|]. done.
Qed.

(** No process of [ids] has a child. *)
Definition idle (ids : list nat) (s : PM) : Prop :=
  ∀ id p, id ∈ ids → heap s !! id = Some p → pid_ p ≤ 0.

Lemma any_running_state ids (s : PM) :
  match any_running ids s with Ret _ s' => s' = s | _ => True end.
Proof.
  induction ids as [|id ids IH]; cbn [any_running]; [done|].
  unfold object. run. destruct (heap s !! id) as [p|]; [|done].
  by destruct (0 <? pid_ p).
Qed.

Lemma ht_any_running ids T P C b :
  (∀ id, id ∈ ids → id ∈ m.*2) →
  ht (I T P C b) (any_running ids) (λ k s, I T P C b s ∧ (k = false → idle ids s)).
Proof.
  intros Hids. induction ids as [|id ids IH]; cbn [any_running].
  { intros s Hi. apply twp_ret. split; [done|]. intros _ id p []%not_elem_of_nil. }
  eapply ht_bind; [apply ht_object, Hids; left|]. intros p s (Hi & Hp & _). cbn beta.
  destruct (Z.ltb_spec 0 (pid_ p)); [by apply twp_ret|].
  specialize (IH ltac:(intros; apply Hids; by right) s Hi).
  unfold twp in *. pose proof (any_running_state ids s) as Hsame.
  destruct (any_running ids s) as [k s'|? ?|? ?| |]; try done. subst s'.
  destruct IH as [? Hk]. split; [done|]. intros Hf id' p' [->|Hid']%elem_of_cons Hp'.
  - by simplify_eq.
  - by apply (Hk Hf id').
Qed.

Section waiting.
Variable fuel depth : nat.
Hypothesis HW : 0 ≤ W.

(** Enough fuel for loops with [C] children. *)
Definition enough (C : Z) : Prop := (W + 2) * NS + C < Z.of_nat fuel.

Hypothesis dispatch_ok : ∀ h T P C b,
  P < Z.of_nat depth → 0 ≤ b → enough C → settled h →
  hx (I T P C (N + b)) (dispatch fuel depth h) (λ _, I T P C b) (thrown T P C b).

Lemma hx_batch batch T P C b :
  P < Z.of_nat depth ∨ batch = [] → 0 ≤ b → enough C → Forall settled batch →
  hx (I T P C (Z.of_nat (length batch) * N + b))
    (mfor batch (λ h, st ← gets stopped; if (st : bool) then mret tt else dispatch fuel depth h))
    (λ _, I T P C b) (thrown T P C b).
Proof.
  intros HP Hb HC Hset. induction batch as [|h batch IH]; cbn [mfor].
  { intros s Hi. apply ewp_ret. by replace (Z.of_nat (length []) * N + b) with b in Hi by (cbn; lia). }
  destruct HP as [HP|]; [|done]. apply Forall_cons in Hset as [Hh Hset].
  assert (Hrest : 0 ≤ Z.of_nat (length batch) * N) by (apply Z.mul_nonneg_nonneg; lia).
  replace (Z.of_nat (length (h :: batch)) * N + b)
    with (N + (Z.of_nat (length batch) * N + b)) by (simpl; lia).
  apply (hx_bind _ _ (λ _, I T P C (Z.of_nat (length batch) * N + b))); [|intros []; apply IH; [by left|done]].
  apply hx_gets. intros [].
  - intros s [Hi _]. apply ewp_ret. apply (inv_mono T P C (N + (Z.of_nat (length batch) * N + b)));
      [lia..|done].
  - intros s [Hi _]. eapply ewp_mono;
      [apply (dispatch_ok h T P C (Z.of_nat (length batch) * N + b)); [done|lia|done..]|done|].
    intros e s' [He Hi']. split; [done|]. by apply (inv_mono T P C (Z.of_nat (length batch) * N + b)); [lia..|].
Qed.

Lemma thrown_mono T P C b T' P' C' b' e s :
  T' ≤ T → P ≤ P' → C ≤ C' → b' ≤ b → thrown T P C b e s → thrown T' P' C' b' e s.
Proof. intros ???? [He Hi]. split; [done|]. by apply (inv_mono T P C b). Qed.

Lemma hx_run_for T P C b :
  P ≤ Z.of_nat depth → 0 ≤ b → enough C →
  hx (I T P C b) (run_for (dispatch fuel depth)) (λ _, I (T + 1) P C b) (thrown T P C b).
Proof.
  intros HP Hb HC. unfold run_for. eapply hx_first; [apply ht_pause|]. intros [].
  apply hx_gets. intros []; [by intros s [Hi _]; apply ewp_ret|].
  apply hx_gets. intros batch s [[Hi _] Hbatch]. apply ewp_bind, ewp_modify.
  pose proof (batch_settled _ _ _ _ _ Hi) as Hset. apply inv_pop in Hi.
  rewrite Hbatch in Hi, Hset. eapply ewp_mono.
  { apply (hx_batch batch (T + 1) (P - Z.of_nat (length batch)) C b); [|done|done|done|exact Hi].
    destruct batch; [by right|left; simpl; lia]. }
  - intros [] s' Hi'. apply (inv_mono (T + 1) (P - Z.of_nat (length batch)) C b); [lia..|done].
  - intros e s'. apply thrown_mono; lia.
Qed.

Section reap.
Variable R : PM → Prop.
Variable keep : M PM bool.
Hypothesis keep_ok : ∀ T P C b, 0 ≤ b →
  ht (I T P C b) keep (λ k s, I T P C b s ∧ (k = false → R s)).

Lemma hx_reap_loop deadline n T P C b :
  P ≤ Z.of_nat depth → 0 ≤ b → enough C → Z.max 0 (deadline - T) + C < Z.of_nat n →
  hx (I T P C b) (reap_loop (dispatch fuel depth) fuel n deadline keep)
    (λ _ s, I T P C b s ∧ (R s ∨ deadline ≤ clock (wk (world s)))) (thrown T P C b).
Proof.
  intros HP Hb. revert T C. induction n as [|n IH]; intros T C HC Hn s Hi.
  { destruct Hi. pose proof (pending_nonneg s). nia. }
  cbn [reap_loop]. eapply ewp_first; [by apply keep_ok|]. clear s Hi.
  intros k s [Hi Hk].
  destruct k; simpl; [|apply ewp_ret; auto]. clear Hk.
  eapply ewp_first; [by apply ht_now|]. intros t s1 (Hi1 & Ht & HTt). cbn beta.
  destruct (Z.leb_spec deadline t) as [Hd|Hd]; [apply ewp_ret; split; [done|right; lia]|].
  eapply ewp_first.
  { apply (ht_sigchld T P C b fuel false); [done|unfold enough, NS in *; lia|done]. }
  intros r s2 [Hi2 Hr]. apply ewp_bind. destruct r.
  - apply ewp_ret. destruct Hr as [|Hr]; [done|done|].
    eapply ewp_mono; [apply (IH T (C - 1)); [unfold enough in *; lia|lia|done]|..].
    + intros [] s3 [Hi3 ?]. split; [|done]. apply (inv_mono T P (C - 1) b); [lia..|done].
    + intros e s3. apply thrown_mono; lia.
  - assert (Hclk2 : I T P C b s2) by done.
    eapply ewp_mono; [apply hx_run_for; done| |done]. intros [] s3 Hi3.
    eapply ewp_mono; [apply (IH (T + 1) C); [done|lia|done]|..].
    + intros [] s4 [Hi4 ?]. split; [|done]. apply (inv_mono (T + 1) P C b); [lia..|done].
    + intros e s4. apply thrown_mono; lia.
Qed.

Lemma hx_reap_until seconds T P C b :
  P ≤ Z.of_nat depth → 0 ≤ b → enough C → seconds ≤ W + 1 →
  hx (I T P C b) (reap_until_ (dispatch fuel depth) fuel seconds keep)
    (λ _ s, I T P C b s ∧ (R s ∨ T + seconds * NS ≤ clock (wk (world s)))) (thrown T P C b).
Proof.
  intros HP Hb HC Hs s Hi. unfold reap_until_.
  eapply ewp_first; [by apply ht_now|]. intros t s1 (Hi1 & Ht & HTt). cbn beta.
  assert (Hi1' : I t P C b s1) by (destruct Hi1; constructor; try done; lia).
  eapply ewp_mono; [apply (hx_reap_loop (t + seconds * NS) fuel t P C b); [done|done|done| |done]|..].
  - unfold enough, NS in *. lia.
  - intros [] s2 [Hi2 Hr]. split; [by apply (inv_mono t P C b); [lia..|done]|].
    destruct Hr; [by left|right; lia].
  - intros e s2. apply thrown_mono; lia.
Qed.
End reap.

Lemma signal_all_false ids x (s : PM) :
  match signal_all ids x s with
  | Ret false s' => s' = s ∧ x = false ∧ idle ids s
  | _ => True
  end.
Proof.
  revert x s. induction ids as [|id ids IH]; intros x s; cbn [signal_all].
  { unfold mret, M_ret. destruct x; [done|]. split_and!; [done..|].
    intros id p []%not_elem_of_nil. }
  unfold object, mbind, M_bind. destruct (heap s !! id) as [p|] eqn:Hp; [|done].
  destruct (Z.ltb_spec 0 (pid_ p)) as [Hpos|Hneg].
  - destruct (on_object id stop s) as [ok s1|? ?|? ?| |]; try done.
    specialize (IH true s1). destruct (signal_all ids true s1) as [[] ?|? ?|? ?| |]; try done.
    by destruct IH as (_ & ? & _).
  - specialize (IH x s). destruct (signal_all ids x s) as [[] ?|? ?|? ?| |]; try done.
    destruct IH as (-> & -> & Hidle). split_and!; [done..|].
    intros id' p' [->|Hid']%elem_of_cons Hp'; [by simplify_eq|by apply (Hidle id')].
Qed.

Lemma ht_signal_all ids x T P C b :
  (∀ id, id ∈ ids → id ∈ m.*2) → 0 ≤ b →
  ht (I T P C b) (signal_all ids x) (λ r s, I T P C b s ∧ (r = false → idle ids s)).
Proof.
  intros Hids Hb s Hi.
  assert (Hinv : ht (I T P C b) (signal_all ids x) (λ _, I T P C b)).
  { clear s Hi. revert x. induction ids as [|id ids IH]; intros x; cbn [signal_all].
    { apply ht_ret. }
    assert (Hids' : ∀ id, id ∈ ids → id ∈ m.*2) by (intros; apply Hids; by right).
    eapply ht_bind; [apply ht_object, Hids; left|]. intros p s (Hi & _). cbn beta.
    destruct (0 <? pid_ p); [|by apply IH].
    apply twp_bind. eapply twp_mono; [apply (ht_stop T P C b id); [apply Hids; left|done|done]|].
    intros ok s1 Hi1. by apply (IH Hids' true). }
  specialize (Hinv s Hi). pose proof (signal_all_false ids x s) as Hf. unfold twp in *.
  destruct (signal_all ids x s) as [[] s'|? ?|? ?| |]; try done.
  destruct Hf as (-> & _ & Hidle). auto.
Qed.

Lemma ht_longest_wait ids x T P C b :
  (∀ id, id ∈ ids → id ∈ m.*2) → 0 ≤ x ≤ W →
  ht (I T P C b) (longest_wait ids x) (λ r s, I T P C b s ∧ 0 ≤ r ≤ W).
Proof.
  intros Hids. revert x. induction ids as [|id ids IH]; intros x Hx; cbn [longest_wait].
  { intros s Hi. by apply twp_ret. }
  eapply ht_bind; [apply ht_object, Hids; left|]. intros p s (Hi & _ & Hc). cbn beta.
  apply IH; [intros; apply Hids; by right| |done].
  apply (st_wait _ _ _ _ Hst) in Hc. destruct (0 <? pid_ p); lia.
Qed.

(** The loop that kills whatever is left. *)
Lemma ht_kill_all ids T P C b :
  (∀ id, id ∈ ids → id ∈ m.*2) → 0 ≤ b →
  ht (I T P C b)
    (mfor ids (λ id, p ← object id; if 0 <? pid_ p then on_object id kill else mret tt))
    (λ _ s, I T P C b s ∧ idle ids s).
Proof.
  intros Hids Hb.
  assert (Hgen : ∀ seen, ht (λ s, I T P C b s ∧ idle seen s)
    (mfor ids (λ id, p ← object id; if 0 <? pid_ p then on_object id kill else mret tt))
    (λ _ s, I T P C b s ∧ idle (seen ++ ids) s)).
  { induction ids as [|id ids IH]; intros seen; cbn [mfor].
    { rewrite app_nil_r. apply ht_ret. }
    apply (ht_bind _ _ (λ _ s, I T P C b s ∧ idle (seen ++ [id]) s)).
    - intros s [Hi Hidle]. destruct (object_there _ _ _ _ _ id Hi) as (p & Hp & _); [apply Hids; left|].
      apply twp_bind. eapply twp_object; [exact Hp|].
      destruct (Z.ltb_spec 0 (pid_ p)) as [Hpos|Hneg].
      + eapply twp_on_object; [exact Hp|]. eapply twp_mono; [apply kill_moves|].
        intros _ [p' w'] [Hm Hpid]. simpl. split.
        * eapply (inv_moved T P C 0 b s id p (eq Killed)); try done. by intros ? <-.
        * intros id' q Hid' Hq. simpl in Hq. destruct (decide (id' = id)) as [->|Hne].
          { rewrite lookup_insert_eq in Hq. by injection Hq as <-. }
          rewrite lookup_insert_ne in Hq by done. apply (Hidle id'); [|done].
          apply elem_of_app in Hid' as [|?%list_elem_of_singleton]; done.
      + apply twp_ret. split; [done|].
        intros id' q [Hid'|Hid'%list_elem_of_singleton]%elem_of_app Hq; [by apply (Hidle id')|].
        by simplify_eq.
    - intros _. replace (seen ++ id :: ids) with ((seen ++ [id]) ++ ids) by by rewrite <- app_assoc.
      apply IH. intros id' Hid'. apply Hids. by right. }
  intros s Hi. apply (Hgen [] s). split; [done|]. intros id p []%not_elem_of_nil.
Qed.

Lemma hx_stop_all T P C b :
  P ≤ Z.of_nat depth → 0 ≤ b → enough C → W < INT_MAX →
  hx (I T P C b) (stop_all (dispatch fuel depth) fuel)
    (λ _ s, I T P C b s ∧ idle m.*2 s) (thrown T P C b).
Proof.
  intros HP Hb HC HWi. unfold stop_all.
  eapply hx_first; [apply ht_all_processes|]. intros ids s [Hi ->].
  eapply ewp_first; [by apply (ht_signal_all m.*2 false T P C b)|].
  intros r s1 [Hi1 Hr]. cbn beta. destruct r; simpl; [|apply ewp_ret; auto]. clear Hr.
  eapply ewp_first; [by apply (ht_longest_wait m.*2 0 T P C b)|].
  intros r s2 [Hi2 Hr]. cbn beta. apply ewp_bind, ewp_int.
  { apply in_int_iff. unfold INT_MIN. lia. }
  apply ewp_bind. eapply ewp_mono; [| |done].
  { apply (hx_reap_until (λ _, True) has_running_processes); try done; [|lia].
    intros T' P' C' b' Hb'. unfold has_running_processes.
    eapply ht_bind; [apply ht_all_processes|]. intros ids s3 [Hi3 ->].
    eapply twp_mono; [by apply (ht_any_running m.*2 T' P' C' b')|]. by intros ? ? [? _]. }
  intros _ s3 [Hi3 _]. apply twp_ewp, twp_bind. eapply twp_mono; [by apply ht_all_processes|].
  intros ids s4 [Hi4 ->]. by apply (ht_kill_all m.*2 T P C b).
Qed.

(** The object has no child any more. *)
Definition dead (id : nat) (s : PM) : Prop := ∃ p, heap s !! id = Some p ∧ pid_ p ≤ 0.

Lemma hx_stop_process name T P C b :
  P ≤ Z.of_nat depth → 0 ≤ b → enough C → W < INT_MAX →
  hx (I T P C b) (stop_process (dispatch fuel depth) fuel name)
    (λ ok s, I T P C b s ∧ (ok = true → ∃ id c, sm_find name m = Some id ∧ cfgs !! id = Some c ∧
       (dead id s ∨ T + (stopwaitsecs c + 1) * NS ≤ clock (wk (world s))))) (thrown T P C b).
Proof.
  intros HP Hb HC HWi. unfold stop_process.
  eapply hx_first; [apply ht_find_process|]. intros it s [Hi ->].
  destruct (sm_find name m) as [id|] eqn:E; [|by apply ewp_ret].
  pose proof (find_in_ids _ _ E) as Hid.
  apply (hx_with_pointer id _ T P C b (λ ok s, ok = true → ∃ id' c, Some id = Some id'
    ∧ cfgs !! id' = Some c ∧ (dead id' s ∨ T + (stopwaitsecs c + 1) * NS ≤ clock (wk (world s)))));
    [done| |done|done].
  clear s Hi. eapply hx_first; [by apply ht_stop|]. intros ok s Hi. cbn beta.
  destruct ok; simpl; [|by apply ewp_ret].
  eapply ewp_first; [by apply (ht_object id)|]. intros p s1 (Hi1 & Hp & Hc).
  pose proof (st_wait _ _ _ _ Hst _ _ Hc). apply ewp_bind, ewp_int.
  { apply in_int_iff. unfold INT_MIN in *. lia. }
  apply ewp_bind. eapply ewp_mono; [| |done].
  { apply (hx_reap_until (dead id) (p ← object id; mret (0 <? pid_ p))); try done; [|lia].
    intros T' P' C' b' Hb'. eapply ht_bind; [by apply ht_object|].
    intros q s2 (Hi2 & Hq & _). apply twp_ret. split; [done|].
    intros Hf. exists q. split; [done|lia]. }
  intros _ s2 [Hi2 Hd]. apply ewp_ret. split; [done|]. intros _. by exists id, (config_ p).
Qed.
End waiting.

(** ** Dispatching *)

Lemma dispatch_all fuel depth :
  0 ≤ W < INT_MAX →
  ∀ h T P C b, P < Z.of_nat depth → 0 ≤ b → enough fuel C → settled h →
    hx (I T P C (N + b)) (dispatch fuel depth h) (λ _, I T P C b) (thrown T P C b).
Proof.
  intros HW. induction depth as [|depth IH]; intros h T P C b HP Hb HC.
  { intros _ s Hi. pose proof (i_pending _ _ _ _ _ _ _ _ Hi). pose proof (pending_nonneg s). lia. }
  assert (Hdrop : ∀ s, I T P C (N + b) s → I T P C b s).
  { intros s. apply inv_mono; lia. }
  assert (C < Z.of_nat fuel) by (unfold enough, NS in HC; lia).
  assert (Hstop : hx (I T P C (N + b)) (stop_all (dispatch fuel depth) fuel) (λ _, I T P C b) (thrown T P C b)).
  { eapply hx_weaken; [apply (hx_stop_all fuel depth) with (P := P)|exact Hdrop|by intros ? ? [? _]|done];
      try done; lia. }
  intros Hset. destruct h as [| |id ch e data|name|name| | | |progs|e|]; cbn [dispatch settled] in *; [..|done| |done].
  - apply ht_hx, (ht_bind _ _ (λ _, I T P C b)); [|intros; apply ht_ret].
    eapply ht_weaken; [by apply (ht_sigchld T P C b)|done|]. by intros ? ? [? _].
  - by apply ht_hx, ht_on_timer.
  - apply ht_hx, ht_gets. intros there s [Hi Hth]. apply Hdrop in Hi.
    destruct there; [|by apply twp_ret]. apply bool_decide_eq_true in Hth.
    apply (ht_read T P C b); [|done|done]. apply (st_dom _ _ _ _ Hst).
    rewrite <- (i_cfgs _ _ _ _ _ _ _ _ Hi), lookup_fmap. by apply fmap_is_Some.
  - apply ht_hx, (ht_bind _ _ (λ _, I T P C b)); [|intros; apply ht_ret].
    eapply ht_weaken; [by apply (ht_start_process name T P C b)| |done].
    intros s. apply inv_mono; lia.
  - apply (hx_bind _ _ (λ _, I T P C b)); [|intros; by apply ht_hx, ht_ret].
    eapply hx_weaken; [apply (hx_stop_process fuel depth) with (P := P)|exact Hdrop|by intros ? ? [? _]|done];
      try done; lia.
  - by apply ht_hx, ht_start_all.
  - done.
  - apply (hx_bind _ _ (λ _, I T P C b)); [done|]. intros _ s Hi. apply ewp_modify. by apply inv_stopped.
  - intros s Hi. apply ewp_throw. split; [done|by apply Hdrop].
Qed.
End invariant.

(** ** What settled handlers leave alone

    Every block gives back the pointers it took, also when an exception
    leaves it; no key is read after it was freed; and what the log takes
    stays as it is: [pins m]. *)
Section pins.
Context {K : Type} `{!Kernel K} {may_raise : Raised}.
Local Abbreviation PM := (Manager K).

Definition locals (s : PM) : list nat * bool * list bytes := (pinned s, log_info s, freed_reads s).

Definition settles (s : PM) : Prop := Forall settled (concat (agenda s)).

Definition steady (s s' : PM) : Prop := settles s → locals s' = locals s ∧ settles s'.

Lemma steady_trans s1 s2 s3 : steady s1 s2 → steady s2 s3 → steady s1 s3.
Proof. intros H1 H2 H. destruct (H1 H) as [E1 H']. destruct (H2 H') as [E2 ?]. split; congruence. Qed.

Definition pins {A} (op : M PM A) : Prop :=
  ∀ s, match op s with Ret _ s' | Throw _ s' => steady s s' | _ => True end.

Lemma pins_ret {A} (a : A) : pins (mret a).
Proof. done. Qed.

Lemma pins_bind {A B} (op : M PM A) (k : A → M PM B) :
  pins op → (∀ a, pins (k a)) → pins (op ≫= k).
Proof.
  intros Hop Hk s. unfold mbind, M_bind. specialize (Hop s). destruct (op s) as [a s1|? ?|? ?| |]; try done.
  specialize (Hk a s1). destruct (k a s1); try done; by eapply steady_trans.
Qed.

Lemma pins_throw {A} e : pins (throw e : M PM A).
Proof. done. Qed.

Lemma pins_gets {A} (f : PM → A) : pins (gets f).
Proof. done. Qed.

Lemma pins_modify f : (∀ s, locals (f s) = locals s ∧ agenda (f s) = agenda s) → pins (modify f).
Proof. intros H s Hs. unfold settles in *. by destruct (H s) as [? ->]. Qed.

Lemma pins_int z : pins (int_result z : M PM Z).
Proof. unfold int_result. by destruct (in_int z). Qed.

Lemma pins_mfor {A} (l : list A) body : (∀ x, pins (body x)) → pins (mfor l body).
Proof. intros Hb. induction l; cbn [mfor]; [apply pins_ret|]. apply pins_bind; auto. Qed.

Lemma pins_on_object {A} id (op : M (Process * World K) A) : pins (on_object id op).
Proof.
  intros s. unfold on_object. destruct (heap s !! id) as [p|]; [|done].
  unfold zoom. by destruct (op (p, world s)).
Qed.

Lemma pins_on_world {A} (op : M (World K) A) : pins (on_world op).
Proof. intros s. unfold on_world, zoom. by destruct (op (world s)). Qed.

Lemma pins_object id : pins (object id).
Proof. intros s. unfold object. by destruct (heap s !! id). Qed.

#[local] Hint Resolve pins_ret pins_gets pins_int pins_on_object pins_on_world pins_object : sup.

Ltac pinned_step :=
  match goal with
  | |- pins (mbind _ _) => apply pins_bind; [|intros ?]
  | |- pins (mfor _ _) => apply pins_mfor; intros ?
  | |- pins (modify _) => apply pins_modify; by intros ?
  | |- pins (if ?b then _ else _) => destruct b
  | |- pins (match ?x with _ => _ end) => destruct x
  | |- pins _ => solve [auto with sup nocore]
  | |- pins _ => done
  end.
Ltac pinned_ok := repeat pinned_step.

Lemma pins_release id : pins (release id).
Proof. unfold release. pinned_ok. Qed.

Lemma pins_with_pointer {A} id (op : M PM A) : pins op → pins (with_pointer id op).
Proof.
  intros Hop s. unfold with_pointer, scoped, noexcept, try_catch, modify. unfold mbind, M_bind.
  specialize (Hop (set_pinned (id :: pinned s) s)).
  destruct (op _) as [a s1|e s1|x s1| |]; simpl in *; try done.
  all: pose proof (pins_release id (set_pinned (tail (pinned s1)) s1)) as Hr;
    destruct (release id _); try done; intros Hs; destruct (Hop Hs) as [E1 H1];
    destruct (Hr H1) as [E2 H2]; (split; [|done]); rewrite E2;
    unfold locals in *; simpl in *; by simplify_eq E1; intros -> -> ->.
Qed.

#[local] Hint Resolve pins_release pins_with_pointer : sup.

Lemma pins_any_running ids : pins (any_running ids).
Proof. induction ids; cbn [any_running]; pinned_ok. Qed.
Lemma pins_notify_exit ids pid st : pins (notify_exit ids pid st).
Proof. induction ids; cbn [notify_exit]; pinned_ok. Qed.
#[local] Hint Resolve pins_any_running pins_notify_exit : sup.

Lemma pins_sigchld fuel r : pins (handle_sigchld_ fuel r).
Proof. revert r. induction fuel; intros r; cbn [handle_sigchld_]; [done|]. unfold all_processes. pinned_ok. Qed.
#[local] Hint Resolve pins_sigchld : sup.

Lemma pins_longest_wait ids x : pins (longest_wait ids x).
Proof. revert x. induction ids; intros x; cbn [longest_wait]; pinned_ok. Qed.
Lemma pins_signal_all ids x : pins (signal_all ids x).
Proof. revert x. induction ids; intros x; cbn [signal_all]; pinned_ok. Qed.
#[local] Hint Resolve pins_longest_wait pins_signal_all : sup.

Section waiting.
Variable d : handler → M PM unit.
Variable fuel : nat.
Hypothesis Hd : ∀ h, settled h → pins (d h).

Lemma pins_run_for : pins (run_for d).
Proof.
  unfold run_for. apply pins_bind; [auto with sup|]. intros _. apply pins_bind; [auto with sup|].
  intros [] s; [done|].
  set (batch := default [] (head (agenda s))). set (s1 := set_agenda (tail (agenda s)) s).
  assert (Hb : settles s → Forall settled batch ∧ settles s1).
  { subst batch s1. unfold settles. simpl. destruct (agenda s); [done|]. by intros ?%Forall_app. }
  assert (Hm : Forall settled batch → pins (mfor batch (λ h, st ← gets stopped; if st : bool then mret tt else d h))).
  { clear Hb. induction 1 as [|h batch Hh _ IH]; cbn [mfor]; [done|].
    apply pins_bind; [|done]. apply pins_bind; [done|]. intros []; [done|by apply Hd]. }
  set (body := λ h : handler, st ← gets stopped; if st : bool then mret () else d h) in *.
  change (match mfor batch body s1 with Ret _ s' | Throw _ s' => steady s s' | _ => True end).
  destruct (mfor batch body s1) eqn:E; try done; intros Hs; destruct (Hb Hs) as [Hset Hs1];
    specialize (Hm Hset s1); rewrite E in Hm; by apply Hm.
Qed.
#[local] Hint Resolve pins_run_for : sup.

Lemma pins_reap_loop n deadline keep : pins keep → pins (reap_loop d fuel n deadline keep).
Proof. intros Hk. induction n; cbn [reap_loop]; pinned_ok. Qed.

Lemma pins_reap_until seconds keep : pins keep → pins (reap_until_ d fuel seconds keep).
Proof. intros Hk. unfold reap_until_. apply pins_bind; [auto with sup|]. intros t. by apply pins_reap_loop. Qed.

Lemma pins_stop_all : pins (stop_all d fuel).
Proof.
  unfold stop_all, all_processes. pinned_ok. apply pins_reap_until.
  unfold has_running_processes, all_processes. pinned_ok.
Qed.

Lemma pins_stop_process name : pins (stop_process d fuel name).
Proof.
  unfold stop_process, find_process. pinned_ok. apply pins_with_pointer. pinned_ok.
  apply pins_reap_until. pinned_ok.
Qed.
#[local] Hint Resolve pins_stop_process : sup.

Lemma pins_start_process name : pins (start_process name).
Proof. unfold start_process, find_process. pinned_ok. Qed.

Lemma pins_add_process c : pins (add_process c).
Proof. unfold add_process, find_process. pinned_ok. Qed.


End waiting.

Lemma pins_dispatch fuel depth h : settled h → pins (dispatch fuel depth h).
Proof.
  revert h. induction depth as [|depth IH]; intros h Hset; cbn [dispatch]; [done|].
  pose proof (pins_stop_all (dispatch fuel depth) fuel IH).
  pose proof (λ n, pins_stop_process (dispatch fuel depth) fuel IH n).
  destruct h; unfold on_timer_, start_all, all_processes; pinned_ok; try done;
    apply pins_start_process.
Qed.
End pins.

(** ** Adding and removing processes *)

(** What a program of a configuration file satisfies. *)
Record program_ok (W : Z) (c : ProgramConfig) : Prop := {
  pr_retries : startretries c ≤ 31;
  pr_wait : INT_MIN ≤ stopwaitsecs c ≤ W;
  pr_logs : logs_ok c;
}.

Section membership.
Context {K : Type} `{!Kernel K} {laws : KernelLaws K} {may_raise : Raised}.
Local Abbreviation PM := (Manager K).
Context (N W : Z) (HN : 1 ≤ N).

Lemma ids_inj (m : smap nat) n1 n2 id :
  sm_wf m → NoDup m.*2 → sm_find n1 m = Some id → sm_find n2 m = Some id → n1 = n2.
Proof.
  intros Hwf Hnd H1%sm_find_elem H2%sm_find_elem. clear Hwf.
  induction m as [|[n i] m IH]; [by apply elem_of_nil in H1|].
  apply NoDup_cons in Hnd as [Hni Hnd].
  assert (Hno : ∀ k, (k, i) ∉ m) by (intros k Hk; apply Hni; by apply (list_elem_of_fmap_2 snd) in Hk).
  apply elem_of_cons in H1 as [H1|H1]; apply elem_of_cons in H2 as [H2|H2]; simplify_eq; try done.
  - by destruct (Hno n2).
  - by destruct (Hno n1).
  - auto.
Qed.

Lemma static_erase m cfgs name id :
  static_ok N W m cfgs → sm_find name m = Some id →
  static_ok N W (sm_erase name m) (delete id cfgs).
Proof.
  intros Hst Hf. pose proof Hst as []. pose proof (sm_find_elem _ _ _ Hf) as Hin.
  assert (Hids : ∀ id', id' ∈ (sm_erase name m).*2 ↔ id' ∈ m.*2 ∧ id' ≠ id).
  { intros id'. rewrite !list_elem_of_fmap. split.
    - intros ([n i] & -> & [Hne Hni]%list_elem_of_filter). simpl in *. split; [by exists (n, i)|].
      intros ->. apply Hne. apply (sm_elem_find _ _ _ st_wf0) in Hni.
      by apply (ids_inj m n name id).
    - intros [([n i] & -> & Hni) Hne]. exists (n, i). split; [done|].
      apply list_elem_of_filter. split; [|done]. simpl in *. intros ->.
      apply (sm_elem_find _ _ _ st_wf0) in Hni. congruence. }
  constructor.
  - by apply sm_wf_erase.
  - pose proof (length_filter (λ p : bytes * nat, p.1 ≠ name) m). unfold sm_erase. lia.
  - unfold sm_erase. apply (sublist_NoDup _ m.*2); [done|].
    apply fmap_sublist, sublist_filter.
  - intros id'. rewrite Hids, st_dom0. destruct (decide (id' = id)) as [->|Hne].
    + rewrite lookup_delete_eq. split; [by intros [_ []]|intros [? [=]]].
    + rewrite lookup_delete_ne by done. tauto.
  - intros n i c Hn Hc. rewrite sm_find_erase in Hn. case_decide; [done|].
    apply lookup_delete_Some in Hc as [_ Hc]. by eapply st_names0.
  - intros i c [_ Hc]%lookup_delete_Some. by eapply st_retries0.
  - intros i c [_ Hc]%lookup_delete_Some. by eapply st_wait0.
Qed.

Lemma static_set m cfgs c id :
  static_ok N W m cfgs → program_ok W c → sm_find (name c) m = None →
  cfgs !! id = None → Z.of_nat (length m) + 1 ≤ N →
  static_ok N W (sm_set (name c) id m) (<[id := c]> cfgs).
Proof.
  intros Hst [Hr Hw _] Hf Hid Hlen. pose proof Hst as [].
  pose proof (sm_set_new _ id m Hf) as Hperm.
  assert (Hids : ∀ id', id' ∈ (sm_set (name c) id m).*2 ↔ id' = id ∨ id' ∈ m.*2).
  { intros id'. rewrite Hperm. simpl. by rewrite elem_of_cons. }
  constructor.
  - by apply sm_wf_set.
  - rewrite Hperm. simpl. lia.
  - rewrite Hperm. simpl. apply NoDup_cons. split; [|done].
    rewrite st_dom0, Hid. by intros [? [=]].
  - intros id'. rewrite Hids, st_dom0. destruct (decide (id' = id)) as [->|Hne].
    + rewrite lookup_insert_eq. split; [by eauto|by left].
    + rewrite lookup_insert_ne by done. split; [by intros [|]|by right].
  - intros n i c' Hn Hc. rewrite sm_find_set in Hn. case_decide as Hk.
    + injection Hn as ->. rewrite lookup_insert_eq in Hc. by simplify_eq.
    + assert (i ≠ id).
      { intros ->. apply sm_find_elem, (list_elem_of_fmap_2 snd), st_dom0 in Hn. simpl in Hn.
        rewrite Hid in Hn. by destruct Hn. }
      rewrite lookup_insert_ne in Hc by done. by eapply st_names0.
  - intros i c' [[<- <-]|[_ Hc]]%lookup_insert_Some; [done|]. by eapply st_retries0.
  - intros i c' [[<- <-]|[_ Hc]]%lookup_insert_Some; [done|]. by eapply st_wait0.
Qed.

Local Abbreviation inv := (inv N).

(** Destroying an object that the map has let go of. *)
Lemma inv_destroyed m cfgs T P C b s name id p w' :
  inv m cfgs T P C b s → sm_find name m = Some id → heap s !! id = Some p → 0 ≤ b →
  (if 0 <? pid_ p then effect (config_ p) Killed (core p) (world s) w' else quiet (world s) w') →
  inv (sm_erase name m) (delete id cfgs) T P C b
    (set_heap (delete id (heap s)) (set_world w' (set_map (sm_erase name (process_map_ s)) s))).
Proof.
  intros Hi Hf Hp Hb He. pose proof (i_procs _ _ _ _ _ _ _ _ Hi _ _ Hp) as [Hcons _ Hchild _].
  apply reachable_consistent_aux in Hcons.
  pose proof (i_tracked _ _ _ _ _ _ _ _ Hi) as Htr.
  assert (tracked w' ∧ clock (wk (world s)) ≤ clock (wk w')
    ∧ (∀ x, x ∈ children (wk (world s)) → (0 < pid_ p → x ≠ pid_ p) → x ∈ children (wk w'))
    ∧ (card (children (wk w')) ≤ card (children (wk (world s))))%nat) as (Htr' & Hclk & Hkeep & Hcard).
  { destruct (Z.ltb_spec 0 (pid_ p)) as [Hpos|Hneg].
    - assert (Hs : step (config_ p) (core p) Killed (mkCore STOPPED (-1) (retry_count_ p)))
        by by constructor.
      pose proof (effect_children _ _ _ _ _ _ Hs He) as (Hk & _ & Hn). simpl in Hk.
      destruct (effect_tracked _ _ _ _ _ _ Hcons Hs He Htr Hchild) as [? _].
      rewrite decide_False in Hn by by intros [].
      split_and!; [done|by destruct He|auto|lia].
    - pose proof (quiet_tracked _ _ He Htr). destruct He as (_ & -> & ?). split_and!; auto. }
  destruct Hi. constructor; simpl; try done; try lia.
  - by rewrite i_map0.
  - rewrite fmap_delete. by f_equal.
  - intros id' [c Hc]. apply lookup_delete_Some in Hc as [_ Hc]. eauto.
  - intros id' q [Hne Hq]%lookup_delete_Some. apply (proc_ok_frame (world s)); [|by eapply i_procs0].
    intros Hpos Hin. apply Hkeep; [done|]. intros _ E. apply Hne. by eapply (i_pids0 id id' p q); [..|lia|].
  - intros id1 id2 p1 p2 [_ H1]%lookup_delete_Some [_ H2]%lookup_delete_Some. by apply i_pids0.
  - change (pending _) with (pending s). lia.
Qed.

Lemma inv_added m cfgs T P C b s c id p w' :
  inv m cfgs T P C b s → 0 ≤ b → id = next_id s → static_ok N W m cfgs →
  quiet (world s) w' → config_ p = c → core p = mkCore STOPPED (-1) 0 → writers_ok p →
  inv (sm_set (name c) id m) (<[id := c]> cfgs) T P C b
    (set_map (sm_set (name c) id (process_map_ s))
       (set_next (S id) (set_heap (<[id := p]> (heap s)) (set_world w' s)))).
Proof.
  intros Hi Hb -> Hst Hq Hc Hcore Hlogs. pose proof Hcore as [= Hs Hp Hr].
  pose proof (quiet_tracked _ _ Hq (i_tracked _ _ _ _ _ _ _ _ Hi)). destruct Hq as (_ & Hch & Hclk).
  destruct Hi. constructor; simpl; try done; try lia.
  - by rewrite i_map0.
  - rewrite fmap_insert, Hc. by f_equal.
  - intros id [c' [[<- _]|[_ Hc']]%lookup_insert_Some]; [lia|]. specialize (i_next0 id ltac:(eauto)). lia.
  - intros id q [[<- <-]|[_ Hq]]%lookup_insert_Some.
    + constructor; simpl; [|done|lia|].
      * rewrite Hcore. constructor.
      * unfold used. rewrite Hs, Hr. by rewrite decide_False by done.
    + apply (proc_ok_frame (world s)); [by rewrite Hch|by eapply i_procs0].
  - intros id1 id2 p1 p2 [[<- <-]|[_ H1]]%lookup_insert_Some [[<- <-]|[_ H2]]%lookup_insert_Some;
      [done|lia|lia|by apply i_pids0].
  - rewrite Hch. change (pending _) with (pending s). lia.
Qed.

Lemma twp_pins {A} (op : M PM A) Q s :
  pins op → settles s → twp op Q s → twp op (λ a s', Q a s' ∧ locals s' = locals s) s.
Proof. intros Hp Hs. specialize (Hp s). unfold twp. destruct (op s); try done. by destruct (Hp Hs). Qed.

Lemma ewp_pins {A} (op : M PM A) Q X s :
  pins op → settles s → ewp op Q X s →
  ewp op (λ a s', Q a s' ∧ locals s' = locals s) (λ e s', X e s' ∧ locals s' = locals s) s.
Proof. intros Hp Hs. specialize (Hp s). unfold ewp. destruct (op s); try done; by destruct (Hp Hs). Qed.

Lemma add_process_ok m cfgs T P C b s c :
  inv m cfgs T P C b s → static_ok N W m cfgs → 0 ≤ b →
  program_ok W c → sm_find (name c) m = None →
  twp (add_process c) (λ _ s', ∃ id, cfgs !! id = None
    ∧ inv (sm_set (name c) id m) (<[id := c]> cfgs) T P C b s' ∧ locals s' = locals s) s.
Proof.
  intros Hi Hst Hb [_ _ Hlogs] Hf. unfold add_process, on_world, find_process.
  apply twp_bind, twp_zoom. eapply twp_mono; [apply create_ok|].
  intros p w' (Hc & Hcore & Hq & Hw). apply twp_bind, twp_gets, twp_bind, twp_modify.
  apply twp_bind, twp_gets, twp_bind, twp_modify. simpl.
  rewrite (i_map _ _ _ _ _ _ _ _ Hi) at 1. rewrite Hf. apply twp_ret.
  exists (next_id s). split_and!; [| |done].
  - destruct (cfgs !! next_id s) eqn:E; [|done].
    pose proof (i_next _ _ _ _ _ _ _ _ Hi (next_id s) ltac:(eauto)). lia.
  - by apply (inv_added m cfgs T P C b s c (next_id s) p w'); auto.
Qed.

Section operations.
Variable fuel depth : nat.
Hypothesis HW : 0 ≤ W < INT_MAX.
Local Abbreviation dispatch := (dispatch fuel depth).

(** The freed strings read by then, after a call of [remove_process]. *)
Definition freed_by (L : bool) (r : name_ref) (F : list bytes) : list bytes :=
  if L && ref_is_key r then ref_name r :: F else F.

Lemma remove_process_ok m cfgs T P C b L F s r id :
  inv m cfgs T P C b s → static_ok N W m cfgs → P ≤ Z.of_nat depth → 0 ≤ b →
  enough W fuel C → locals s = ([], L, F) → sm_find (ref_name r) m = Some id →
  ewp (remove_process dispatch fuel r)
    (λ _ s', inv (sm_erase (ref_name r) m) (delete id cfgs) T P C b s' ∧ locals s' = ([], L, freed_by L r F))
    (λ e s', thrown N m cfgs T P C b e s' ∧ locals s' = ([], L, F)) s.
Proof.
  intros Hi Hst HP Hb HC Hl Hf. unfold remove_process, find_process. destruct r as [name key]. simpl in *.
  apply ewp_bind, ewp_gets. rewrite (i_map _ _ _ _ _ _ _ _ Hi), Hf.
  pose proof (find_in_ids m _ _ Hf) as Hid.
  destruct (object_there N W m cfgs Hst _ _ _ _ _ _ Hi Hid) as (p & Hp & _).
  apply ewp_bind. eapply ewp_object; [exact Hp|].
  apply ewp_bind. eapply ewp_mono.
  { apply (ewp_pins _ (λ _, inv m cfgs T P C b) (thrown N m cfgs T P C b));
      [destruct (0 <? pid_ p); [|done]|by apply (i_settled _ _ _ _ _ _ _ _ Hi)|destruct (0 <? pid_ p); [|done]].
    - apply pins_bind; [|done]. apply pins_stop_process. intros. by apply pins_dispatch.
    - apply ewp_bind. eapply ewp_mono; [by apply (hx_stop_process N W m cfgs HN Hst fuel depth
        ltac:(lia) (dispatch_all N W m cfgs HN Hst fuel depth HW) name T P C b); [..|lia|]| |done].
      intros ok s2 [Hi2 _]. by apply ewp_ret. }
  2:{ intros e s2 [He Hl2]. split; [done|congruence]. }
  clear p Hp. intros ? s2 [Hi2 Hl2]. rewrite Hl in Hl2. clear dependent s. injection Hl2 as Hpin HL HF.
  apply twp_ewp, twp_bind, twp_gets. rewrite (i_map _ _ _ _ _ _ _ _ Hi2), Hf, bool_decide_eq_true_2 by done.
  destruct (object_there N W m cfgs Hst _ _ _ _ _ _ Hi2 Hid) as (p & Hp & _).
  pose proof (static_erase m cfgs name id Hst Hf) as Hst'.
  apply twp_bind, twp_modify, twp_bind. unfold release. apply twp_bind, twp_gets. simpl.
  rewrite Hpin, (i_map _ _ _ _ _ _ _ _ Hi2), !bool_decide_eq_false_2; simpl.
  2:{ rewrite (st_dom _ _ _ _ Hst'), lookup_delete_eq. by intros [? [=]]. }
  2:{ apply not_elem_of_nil. }
  apply twp_bind. eapply twp_on_object; [exact Hp|].
  pose proof (i_procs _ _ _ _ _ _ _ _ Hi2 _ _ Hp) as [_ Hlogs _ _].
  eapply twp_mono; [by apply destroy_ok|]. intros ? [p' w'] He. apply twp_modify.
  pose proof (inv_destroyed m cfgs T P C b s2 name id p w' Hi2 Hf Hp Hb He) as Hi'.
  rewrite (i_map _ _ _ _ _ _ _ _ Hi2) in Hi'. apply twp_bind. unfold log_removed, freed_by.
  apply twp_bind, twp_gets. simpl. rewrite delete_insert_eq, HL. simpl.
  destruct (L && key); [apply twp_modify, twp_ret|apply twp_ret, twp_ret]; unfold locals; simpl;
    (split; [by destruct Hi'|congruence]).
Qed.

(** The process of a name: its object and its configuration. *)
Definition entry (m : smap nat) (cfgs : gmap nat ProgramConfig) (n : bytes) : option (nat * option ProgramConfig) :=
  (λ id, (id, cfgs !! id)) <$> sm_find n m.

Lemma entry_erase m cfgs name id n :
  sm_wf m → NoDup m.*2 → sm_find name m = Some id →
  entry (sm_erase name m) (delete id cfgs) n = if decide (n = name) then None else entry m cfgs n.
Proof.
  intros Hwf Hnd Hf. unfold entry. rewrite sm_find_erase. case_decide; [done|].
  destruct (sm_find n m) as [i|] eqn:E; [|done]. simpl.
  rewrite lookup_delete_ne; [done|]. intros ->.
  by pose proof (ids_inj m _ _ _ Hwf Hnd E Hf).
Qed.

Lemma entry_set m cfgs c id n :
  static_ok N W m cfgs → cfgs !! id = None →
  entry (sm_set (name c) id m) (<[id := c]> cfgs) n
  = if decide (n = name c) then Some (id, Some c) else entry m cfgs n.
Proof.
  intros Hst Hid. unfold entry. rewrite sm_find_set. case_decide; simpl.
  - by rewrite lookup_insert_eq.
  - destruct (sm_find n m) as [i|] eqn:E; [|done]. simpl. rewrite lookup_insert_ne; [done|].
    intros ->. apply sm_find_elem, (list_elem_of_fmap_2 snd), (st_dom _ _ _ _ Hst) in E.
    simpl in E. rewrite Hid in E. by destruct E.
Qed.

(** What [sync_processes] is run in, and leaves. *)
Definition synced T P C b L F m cfgs s : Prop :=
  static_ok N W m cfgs ∧ inv m cfgs T P C b s ∧ locals s = ([], L, F).

(** The names of the first loop that the new configuration does not have, and
    the freed strings read by then after it has removed [ns]. *)
Definition dropped_names (names : smap unit) (m : smap nat) : list bytes :=
  filter (λ k, sset_contains k names = false) (sm_keys m).
Definition reads_after (L : bool) (ns F : list bytes) : list bytes :=
  if L then reverse ns ++ F else F.

Lemma dropped_drop names k id rest : sset_contains k names = false →
  dropped_names names ((k, id) :: rest) = k :: dropped_names names rest.
Proof. intros Hk. unfold dropped_names, sm_keys. cbn [fmap list_fmap fst]. by rewrite filter_cons_True. Qed.

Lemma dropped_keep names k id rest : sset_contains k names = true →
  dropped_names names ((k, id) :: rest) = dropped_names names rest.
Proof. intros Hk. unfold dropped_names, sm_keys. cbn [fmap list_fmap fst]. rewrite filter_cons_False; congruence. Qed.

Lemma reads_cons L k ns F : reads_after L ns (freed_by L (mkRef k true) F) = reads_after L (k :: ns) F.
Proof. unfold reads_after, freed_by. destruct L; simpl; [|done]. by rewrite reverse_cons, <- app_assoc. Qed.

Lemma remove_others_ok names T P C b L rest n pre cfgs F s :
  synced T P C b L F (pre ++ rest) cfgs s → P ≤ Z.of_nat depth → 0 ≤ b → enough W fuel C →
  (length rest ≤ n)%nat →
  ewp (remove_others dispatch fuel n names (head rest))
    (λ _ s', ∃ m' cfgs', synced T P C b L (reads_after L (dropped_names names rest) F) m' cfgs' s'
      ∧ (length m' ≤ length (pre ++ rest))%nat
      ∧ ∀ k, entry m' cfgs' k = if decide (k ∈ sm_keys rest ∧ sset_contains k names = false)
                                then None else entry (pre ++ rest) cfgs k)
    (λ e s', raised e ∧ ∃ m' cfgs' ns, ns `prefix_of` dropped_names names rest
      ∧ synced T P C b L (reads_after L ns F) m' cfgs' s' ∧ (length m' ≤ length (pre ++ rest))%nat
      ∧ sm_keys m' ⊆ sm_keys (pre ++ rest)) s.
Proof.
  intros Hs HP Hb HC. revert n pre cfgs F s Hs.
  induction rest as [|[k id] rest IH]; intros n pre cfgs F s Hs Hn.
  { destruct n; apply ewp_ret; exists (pre ++ []), cfgs; (split_and!; [by destruct L|done|]); intros k;
      rewrite decide_False; [done| |done|]; by intros [[]%not_elem_of_nil _]. }
  destruct n as [|n]; [cbn in Hn; lia|]. pose proof Hs as (Hst & Hi & Hl). pose proof (st_wf _ _ _ _ Hst) as Hwf.
  assert (Hf : sm_find k (pre ++ (k, id) :: rest) = Some id).
  { apply sm_elem_find; [done|]. apply elem_of_app. right. left. }
  cbn [head remove_others]. apply ewp_bind, ewp_gets. rewrite (i_map _ _ _ _ _ _ _ _ Hi), Hf.
  rewrite bool_decide_eq_true_2 by done. cbn [negb]. apply ewp_bind, ewp_gets.
  rewrite (i_map _ _ _ _ _ _ _ _ Hi), sm_after_split by done. apply ewp_bind.
  destruct (sset_contains k names) eqn:Ek; cbn [negb].
  - apply ewp_ret. rewrite (dropped_keep names k id rest) by done. rewrite cons_middle, app_assoc in Hs |- *.
    eapply ewp_mono; [apply (IH n (pre ++ [(k, id)]) cfgs F s Hs); cbn in Hn; lia| |done].
    intros ? s' (m' & cfgs' & Hs' & Hlen & He). exists m', cfgs'. split_and!; [done|done|].
    intros j. rewrite He. apply decide_ext. unfold sm_keys. cbn. rewrite elem_of_cons.
    split; [tauto|]. intros [[->|] ?]; [congruence|tauto].
  - rewrite (dropped_drop names k id rest) by done. apply ewp_bind.
    eapply ewp_mono; [by apply (remove_process_ok (pre ++ (k, id) :: rest) cfgs T P C b L F s (mkRef k true) id)|..].
    2:{ intros e s1 [[He Hi1] Hl1]. split; [done|]. exists (pre ++ (k, id) :: rest), cfgs, [].
        split_and!; [apply prefix_nil|by destruct L|done|done]. }
    intros ? s1 [Hi1 Hl1]. cbn [ref_name] in *. apply ewp_ret. rewrite sm_erase_split in Hi1 by done.
    assert (Hshort : (length (pre ++ rest) ≤ length (pre ++ (k, id) :: rest))%nat) by (rewrite !length_app; cbn; lia).
    eapply ewp_mono.
    { apply (IH n pre (delete id cfgs) (freed_by L (mkRef k true) F) s1); [|cbn in Hn; lia].
      split_and!; [|done|done]. rewrite <- (sm_erase_split k id pre rest) by done. by apply static_erase. }
    2:{ intros e s' (He & m' & cfgs' & ns & Hns & Hs' & Hlen & Hk). split; [done|]. exists m', cfgs', (k :: ns).
        rewrite reads_cons in Hs'. split_and!; [by apply prefix_cons|done|lia|].
        rewrite Hk. unfold sm_keys. rewrite !fmap_app. set_solver. }
    intros ? s' (m' & cfgs' & Hs' & Hlen & He). exists m', cfgs'. rewrite reads_cons in Hs'. split_and!; [done|lia|].
    intros j. rewrite He, <- (sm_erase_split k id pre rest) by done.
      rewrite (entry_erase (pre ++ (k, id) :: rest) cfgs k id) by (by destruct Hst).
      unfold sm_keys. cbn. repeat case_decide; try done; set_solver.
Qed.

Lemma start_synced T P C b L F m cfgs s name :
  synced T P C (1 + b) L F m cfgs s → 0 ≤ b →
  twp (start_process name) (λ _ s', synced T P C b L F m cfgs s') s.
Proof.
  intros (Hst & Hi & Hl) Hb. eapply twp_mono.
  { apply twp_pins; [apply pins_start_process|by apply (i_settled _ _ _ _ _ _ _ _ Hi)|].
    by apply (ht_start_process N W m cfgs HN Hst name T P C b). }
  intros ? s' [Hi' Hl']. split_and!; [done|done|congruence].
Qed.

(** A new entry for a name that has none: [add_process], [start_process]. *)
Lemma add_start_ok T P C b L F m cfgs s c :
  synced T P C (1 + b) L F m cfgs s → 0 ≤ b → program_ok W c → sm_find (name c) m = None →
  Z.of_nat (length m) + 1 ≤ N →
  twp (add_process c ;; start_process (name c) ;; mret tt) (λ _ s', ∃ m' cfgs' id,
    synced T P C b L F m' cfgs' s' ∧ (length m' ≤ S (length m))%nat
    ∧ ∀ n, entry m' cfgs' n = if decide (n = name c) then Some (id, Some c) else entry m cfgs n) s.
Proof.
  intros (Hst & Hi & Hpin) Hb Hok Hf Hlen. apply twp_bind.
  eapply twp_mono; [apply (add_process_ok m cfgs T P C (1 + b) s c Hi Hst); try done; lia|].
  intros ? s1 (id & Hid & Hi1 & Hp1). rewrite Hpin in Hp1. apply twp_bind.
  pose proof (static_set m cfgs c id Hst Hok Hf Hid Hlen) as Hst1.
  eapply twp_mono; [by apply (start_synced T P C b L F _ _ s1 (name c) ltac:(by split_and!))|].
  intros ? s2 Hs2. apply twp_ret. eexists _, _, id. split_and!; [exact Hs2| |].
  - rewrite (sm_set_new _ id m Hf). done.
  - intros n. by apply entry_set.
Qed.

(** What one step of the second loop does for its program. *)
Definition provided (m m' : smap nat) (cfgs cfgs' : gmap nat ProgramConfig) (c : ProgramConfig) : Prop :=
  ∃ id, entry m' cfgs' (name c) = Some (id, Some c)
    ∧ (∀ id0, entry m cfgs (name c) = Some (id0, Some c) → id = id0).

Lemma sync_one_ok T P C b L F m cfgs s c :
  synced T P C (1 + b) L F m cfgs s → 0 ≤ b → P ≤ Z.of_nat depth → enough W fuel C →
  program_ok W c → Z.of_nat (length m) + 1 ≤ N →
  ewp (it ← find_process (name c);
       match it with
       | None => add_process c ;; start_process (name c) ;; mret tt
       | Some id =>
         p ← object id;
         if negb (bool_decide (config_ p = c)) then
           remove_process dispatch fuel (mkRef (name c) false) ;;
           add_process c ;;
           start_process (name c) ;;
           mret tt
         else mret tt
       end)
    (λ _ s', ∃ m' cfgs', synced T P C b L F m' cfgs' s' ∧ (length m' ≤ S (length m))%nat
      ∧ provided m m' cfgs cfgs' c ∧ ∀ n, n ≠ name c → entry m' cfgs' n = entry m cfgs n)
    (λ e s', raised e ∧ synced T P C b L F m cfgs s') s.
Proof.
  intros Hs Hb HP HC Hok Hlen. pose proof Hs as (Hst & Hi & Hpin). unfold find_process.
  apply ewp_bind, ewp_gets. rewrite (i_map _ _ _ _ _ _ _ _ Hi).
  destruct (sm_find (name c) m) as [id|] eqn:Hf.
  - pose proof (find_in_ids m _ _ Hf) as Hid.
    destruct (object_there N W m cfgs Hst _ _ _ _ _ _ Hi Hid) as (p & Hp & Hc).
    apply ewp_bind. eapply ewp_object; [exact Hp|]. case_bool_decide as Heq; simpl.
    + apply ewp_ret. exists m, cfgs. split_and!; [|lia| |done].
      * split_and!; [done| |done]. apply (inv_mono N m cfgs T P C (1 + b)); [lia..|done].
      * exists id. unfold entry. rewrite Hf. simpl. rewrite Hc, Heq. split; [done|].
        by intros id0 [= <-].
    + apply ewp_bind.
      eapply ewp_mono; [apply (remove_process_ok m cfgs T P C (1 + b) L F s (mkRef (name c) false) id); try done; lia|..].
      2:{ intros e s1 [[He Hi1] Hp1]. split; [done|]. split_and!; [done| |done].
          apply (inv_mono N m cfgs T P C (1 + b)); [lia..|done]. }
      intros ? s1 [Hi1 Hp1]. unfold freed_by in Hp1. rewrite andb_false_r in Hp1.
      apply twp_ewp. eapply twp_mono.
      { apply (add_start_ok T P C b L F (sm_erase (name c) m) (delete id cfgs) s1 c); try done.
        - split_and!; [by apply static_erase|done|done].
        - by rewrite sm_find_erase, decide_True by done.
        - pose proof (length_filter (λ p : bytes * nat, p.1 ≠ name c) m). unfold sm_erase. lia. }
      intros ? s2 (m' & cfgs' & id' & Hs' & Hl & He). exists m', cfgs'. split_and!; [done| | |].
      * pose proof (length_filter (λ p : bytes * nat, p.1 ≠ name c) m). unfold sm_erase in Hl. lia.
      * exists id'. rewrite He, decide_True by done. split; [done|].
        unfold entry. rewrite Hf. simpl. rewrite Hc. intros id0 [= _ ?]. done.
      * intros n Hn. rewrite He, decide_False, entry_erase, decide_False by (by destruct Hst). done.
  - apply twp_ewp. eapply twp_mono; [by apply (add_start_ok T P C b L F m cfgs s c)|].
    intros ? s2 (m' & cfgs' & id' & Hs' & Hl & He). exists m', cfgs'. split_and!; [done|done| |].
    + exists id'. rewrite He, decide_True by done. split; [done|]. unfold entry. by rewrite Hf.
    + intros n Hn. by rewrite He, decide_False.
Qed.

Lemma sync_loop_ok progs T P C b L F m cfgs s :
  synced T P C (Z.of_nat (length progs) + b) L F m cfgs s → 0 ≤ b → P ≤ Z.of_nat depth →
  enough W fuel C → (∀ c, c ∈ progs → program_ok W c) → NoDup (name <$> progs) →
  Z.of_nat (length m) + Z.of_nat (length progs) ≤ N →
  ewp (mfor progs (λ c,
      it ← find_process (name c);
      match it with
      | None => add_process c ;; start_process (name c) ;; mret tt
      | Some id =>
        p ← object id;
        if negb (bool_decide (config_ p = c)) then
          remove_process dispatch fuel (mkRef (name c) false) ;;
          add_process c ;;
          start_process (name c) ;;
          mret tt
        else mret tt
      end))
    (λ _ s', ∃ m' cfgs', synced T P C b L F m' cfgs' s'
      ∧ (∀ c, c ∈ progs → provided m m' cfgs cfgs' c)
      ∧ ∀ n, n ∉ name <$> progs → entry m' cfgs' n = entry m cfgs n)
    (λ e s', raised e ∧ ∃ m' cfgs', synced T P C b L F m' cfgs' s'
      ∧ ∀ n, n ∉ name <$> progs → entry m' cfgs' n = entry m cfgs n) s.
Proof.
  intros Hs Hb HP HC. revert m cfgs s Hs.
  induction progs as [|c progs IH]; intros m cfgs s Hs Hok Hnd Hlen; cbn [mfor].
  { apply ewp_ret. exists m, cfgs. split_and!; [done| |done]. by intros c []%not_elem_of_nil. }
  cbn [fmap list_fmap] in Hnd. apply NoDup_cons in Hnd as [Hc Hnd]. apply ewp_bind.
  replace (Z.of_nat (length (c :: progs)) + b) with (1 + (Z.of_nat (length progs) + b)) in Hs
    by (simpl; lia). cbn [length] in Hlen.
  eapply ewp_mono; [apply (sync_one_ok T P C (Z.of_nat (length progs) + b) L F m cfgs s c Hs); try done; try lia|..].
  { apply Hok. left. }
  2:{ intros e s1 (He & Hst1 & Hi1 & Hp1). split; [done|]. exists m, cfgs. split; [|done]. split_and!; [done| |done].
      apply (inv_mono N m cfgs T P C (Z.of_nat (length progs) + b)); [lia..|done]. }
  intros ? s1 (m1 & cfgs1 & Hs1 & Hl1 & Hp1 & He1).
  eapply ewp_mono; [apply (IH m1 cfgs1 s1 Hs1); [intros; apply Hok; by right|done|lia]|..].
  2:{ intros e s2 (He & m2 & cfgs2 & Hs2 & He2). split; [done|]. exists m2, cfgs2. split; [done|].
      intros n Hn. cbn [fmap list_fmap] in Hn. apply not_elem_of_cons in Hn as [Hn1 Hn2]. by rewrite He2, He1. }
  intros ? s2 (m2 & cfgs2 & Hs2 & Hp2 & He2). exists m2, cfgs2. split_and!; [done| |].
  - intros c' [->|Hc']%elem_of_cons.
    + destruct Hp1 as (id & He & Hid). exists id. by rewrite He2.
    + destruct (Hp2 c' Hc') as (id & He & Hid). exists id. split; [done|]. intros id0.
      rewrite <- (He1 (name c')); [apply Hid|]. intros E. apply Hc. rewrite <- E.
      by apply list_elem_of_fmap_2.
  - intros n Hn. cbn [fmap list_fmap] in Hn. apply not_elem_of_cons in Hn as [Hn1 Hn2].
    by rewrite He2, He1.
Qed.
End operations.
End membership.

(** ** Properties *)

(** A manager with no process, on a world and with a future of events. *)
Definition new_manager {K} (info : bool) (agenda : list (list handler)) (w : World K) : Manager K :=
  mkManager ∅ [] 0 [] agenda false info [] w.

(** A map of processes has only the names it may have, hence at most as
    many. *)
Lemma entries_keys m cfgs (names : list bytes) n :
  (∀ n, n ∉ names → entry m cfgs n = None) → n ∈ sm_keys m → n ∈ names.
Proof.
  intros Hout Hn. apply (sm_find_keys n m) in Hn as [id Hf].
  destruct (decide (n ∈ names)) as [|Hni]; [done|].
  specialize (Hout n Hni). unfold entry in Hout. by rewrite Hf in Hout.
Qed.

Lemma entries_bounded {N W} m cfgs (names : list bytes) :
  static_ok N W m cfgs → (∀ n, n ∉ names → entry m cfgs n = None) → (length m ≤ length names)%nat.
Proof.
  intros Hst Hout. rewrite <- (length_fmap fst m). apply submseteq_length, NoDup_submseteq.
  - apply (sm_wf_NoDup m). by destruct Hst.
  - intros n. by apply entries_keys with (cfgs := cfgs).
Qed.

Section properties.
Context {K : Type} `{!Kernel K} {laws : KernelLaws K} {may_raise : Raised}.
Context (N W : Z) (HN : 1 ≤ N) (HW : 0 ≤ W < INT_MAX).

Lemma inv_new info agenda (w : World K) b :
  tracked w → Forall settled (concat agenda) → 0 ≤ b →
  let s := new_manager info agenda w in
  pending s * N + b < INT_MAX →
  synced N W (clock (wk w)) (pending s) (Z.of_nat (card (children (wk w))) + pending s * N + b) b info [] [] ∅ s.
Proof.
  intros Ht Hset Hb s Hroom. split_and!; [| |done].
  - constructor; try done; try constructor; simpl; try lia.
    + by intros ?%not_elem_of_nil.
    + rewrite lookup_empty. by intros [? [=]].
  - constructor; simpl; try done; try lia.
    + intros id. rewrite lookup_empty. by intros [? [=]].
Qed.

Lemma add_all_ok programs T P C b L F m cfgs (s : Manager K) :
  synced N W T P C b L F m cfgs s → 0 ≤ b →
  (∀ c, c ∈ programs → program_ok W c ∧ sm_find (name c) m = None) → NoDup (name <$> programs) →
  Z.of_nat (length m) + Z.of_nat (length programs) ≤ N →
  twp (mfor programs add_process) (λ _ s', ∃ m' cfgs', synced N W T P C b L F m' cfgs' s'
    ∧ (length m' ≤ length m + length programs)%nat
    ∧ sm_keys m' ≡ₚ reverse (name <$> programs) ++ sm_keys m) s.
Proof.
  intros Hs Hb. revert m cfgs s Hs. induction programs as [|c programs IH];
    intros m cfgs s Hs Hok Hnd Hlen; cbn [mfor].
  { apply twp_ret. exists m, cfgs. split_and!; [done|simpl; lia|done]. }
  cbn [fmap list_fmap length] in *. apply NoDup_cons in Hnd as [Hc Hnd].
  destruct (Hok c) as [Hokc Hf]; [left|]. destruct Hs as (Hst & Hi & Hpin).
  apply twp_bind. eapply twp_mono; [by apply (add_process_ok N W m cfgs T P C b s c)|].
  intros ? s1 (id & Hid & Hi1 & Hp1). rewrite Hpin in Hp1.
  pose proof (static_set N W m cfgs c id Hst Hokc Hf Hid ltac:(lia)) as Hst1.
  eapply twp_mono; [eapply (IH _ _ s1); [by split_and!| |done|]|].
  - intros c' Hc'. destruct (Hok c') as [Hok' Hf']; [by right|]. split; [done|].
    rewrite sm_find_set, decide_False; [done|]. intros E. apply Hc. rewrite <- E.
    by apply list_elem_of_fmap_2.
  - rewrite (sm_set_new _ id m Hf). simpl. lia.
  - intros ? s2 (m' & cfgs' & Hs2 & Hl & Hk). exists m', cfgs'. rewrite (sm_set_new _ id m Hf) in Hl.
    split_and!; [done|simpl in *; lia|]. rewrite Hk. unfold sm_keys. rewrite (sm_set_new _ id m Hf).
    cbn [fmap list_fmap fst]. rewrite reverse_cons, <- app_assoc. done.
Qed.

(** C1: The processes of the daemon from the start to the end, without
    reloads and with [startretries] of at most 31.  Whatever programs are
    configured, whatever requests, signals, timer ticks and output arrive in
    whatever order, also while operations wait, and whatever the operating
    system answers, adding and starting the programs, handling the events and
    stopping all terminates, without undefined behaviour and without an
    exception but one that a handler raised; every signal goes to a child not
    yet reaped; and when all this returns, no process of the map has a child
    any more and each is in a state its state machine reaches.  A child the
    daemon no longer knows of may outlive it: [start] in the state STOPPING
    forgets one. *)
Theorem daemon_run_safe programs events future info fuel depth (w : World K) :
  (∀ c, c ∈ programs → program_ok W c) → NoDup (name <$> programs) →
  Forall settled (concat future ++ events) →
  tracked w → let s := new_manager info future w in
  Z.of_nat (length programs) ≤ N →
  pending s < Z.of_nat depth →
  (pending s + Z.of_nat (length events) + 1) * N < INT_MAX →
  (W + 2) * NS + Z.of_nat (card (children (wk w)))
    + (pending s + Z.of_nat (length events) + 1) * N < Z.of_nat fuel →
  ewp (mfor programs add_process ;;
       start_all ;;
       mfor events (dispatch fuel depth) ;;
       stop_all (dispatch fuel depth) fuel)
    (λ _ s', own (marks (wtrace (world s')))
      ∧ ∀ n id p, sm_find n (process_map_ s') = Some id → heap s' !! id = Some p →
          pid_ p ≤ 0 ∧ reachable (config_ p) (core p))
    (λ e s', raised e ∧ own (marks (wtrace (world s')))) s.
Proof.
  intros Hok Hnd [Hset Hevents]%Forall_app Ht s Hlen Hdepth Hroom Hfuel.
  set (b := (Z.of_nat (length events) + 1) * N).
  set (C := Z.of_nat (card (children (wk w))) + pending s * N + b).
  pose proof (inv_new info future w b Ht Hset ltac:(lia) ltac:(unfold b; fold s; lia)) as Hs.
  fold s C in Hs. set (T := clock (wk w)) in Hs.
  assert (HC : enough W fuel C) by (unfold enough, C, b; lia).
  eapply ewp_first; [apply (add_all_ok programs T (pending s) C b info [] [] ∅ s Hs)|].
  - lia.
  - intros c Hc. split; [by apply Hok|done].
  - done.
  - simpl. lia.
  - intros ? s1 (m & cfgs & (Hst & Hi & _) & _).
    eapply ewp_first.
    { apply (ht_start_all N W m cfgs HN Hst T (pending s) C (Z.of_nat (length events) * N)); [lia|].
      replace (N + Z.of_nat (length events) * N) with b by (unfold b; lia). done. }
    clear s1 Hi. intros ? s1 Hi. apply ewp_bind.
    assert (Hthrown : ∀ e s', thrown N m cfgs T (pending s) C 0 e s' → raised e ∧ own (marks (wtrace (world s')))).
    { intros e s' [He Hi']. split; [done|]. by destruct (i_tracked _ _ _ _ _ _ _ _ Hi'). }
    eapply ewp_mono with (Q := λ _, inv N m cfgs T (pending s) C 0) (E := thrown N m cfgs T (pending s) C 0); [| |done].
    { clear Hroom Hfuel Hs Hthrown. clearbody C. revert s1 Hi.
      induction events as [|h events IH]; intros s1 Hi; cbn [mfor]; [by apply ewp_ret|].
      apply Forall_cons in Hevents as [Hh Hevents].
      apply ewp_bind. eapply ewp_mono.
      { apply (dispatch_all N W m cfgs HN Hst fuel depth HW h T (pending s) C
          (Z.of_nat (length events) * N)); [done|lia|done|done|].
        replace (N + Z.of_nat (length events) * N) with (Z.of_nat (length (h :: events)) * N)
          by (simpl; lia). done. }
      - intros ? s2 Hi2. by apply IH.
      - intros e s2. apply thrown_mono; lia. }
    clear s1 Hi. intros ? s1 Hi. eapply ewp_mono; [| |done].
    { apply (hx_stop_all N W m cfgs HN Hst fuel depth ltac:(lia)
        (dispatch_all N W m cfgs HN Hst fuel depth HW) T (pending s) C 0); [lia|done|done|lia|done]. }
    intros ? s2 [Hi2 Hidle]. split; [by destruct (i_tracked _ _ _ _ _ _ _ _ Hi2)|].
    intros n id p Hf Hp. rewrite (i_map _ _ _ _ _ _ _ _ Hi2) in Hf.
    split; [by apply (Hidle id p); [apply (find_in_ids m n)|]|]. by eapply po_reach, (i_procs _ _ _ _ _ _ _ _ Hi2).
Qed.

(** C8: [stop_all] stops everything.  From any state with the invariant,
    and with any events handled while it waits (starts of processes
    included), it returns, within the fuel the longest [stopwaitsecs]
    needs, with the invariant and with no process that has a child; unless
    a handler raises an exception, which it passes on with the invariant. *)
Theorem stop_all_stops m cfgs T P C b fuel depth (s : Manager K) :
  static_ok N W m cfgs → inv N m cfgs T P C b s →
  P ≤ Z.of_nat depth → 0 ≤ b → (W + 2) * NS + C < Z.of_nat fuel →
  ewp (stop_all (dispatch fuel depth) fuel)
    (λ _ s', inv N m cfgs T P C b s'
       ∧ ∀ id p, id ∈ m.*2 → heap s' !! id = Some p → pid_ p ≤ 0)
    (λ e s', raised e ∧ inv N m cfgs T P C b s') s.
Proof.
  intros Hst Hi HP Hb HC.
  apply (hx_stop_all N W m cfgs HN Hst fuel depth ltac:(lia)
    (dispatch_all N W m cfgs HN Hst fuel depth HW) T P C b); [done|done|done|lia|done].
Qed.

(** C12: [stop_process] waits for the exit: when it returns true, the
    process has no child any more, or [stopwaitsecs] and one more second
    have passed.  Only an exception of a handler can end the wait
    earlier. *)
Theorem stop_process_waits m cfgs T P C b fuel depth n (s : Manager K) :
  static_ok N W m cfgs → inv N m cfgs T P C b s →
  P ≤ Z.of_nat depth → 0 ≤ b → (W + 2) * NS + C < Z.of_nat fuel →
  ewp (stop_process (dispatch fuel depth) fuel n)
    (λ ok s', inv N m cfgs T P C b s' ∧
       (ok = true → ∃ id c p, sm_find n m = Some id ∧ cfgs !! id = Some c ∧ heap s' !! id = Some p ∧
          (pid_ p ≤ 0 ∨ T + (stopwaitsecs c + 1) * NS ≤ clock (wk (world s')))))
    (λ e s', raised e ∧ inv N m cfgs T P C b s') s.
Proof.
  intros Hst Hi HP Hb HC. eapply ewp_mono; [| |by intros e s' He; exact He].
  { apply (hx_stop_process N W m cfgs HN Hst fuel depth ltac:(lia)
      (dispatch_all N W m cfgs HN Hst fuel depth HW) n T P C b); [done|done|done|lia|done]. }
  intros ok s' [Hi' Hw]. split; [done|]. intros Hok. destruct (Hw Hok) as (id & c & Hf & Hc & Hd).
  destruct (object_there N W m cfgs Hst _ _ _ _ _ _ Hi' (find_in_ids m _ _ Hf)) as (p & Hp & _).
  exists id, c, p. split_and!; [done..|]. destruct Hd as [(q & Hq & ?)|]; [left; by simplify_eq|by right].
Qed.

(** The processes that a reload takes away, in the order of the map. *)
Definition gone (programs : list ProgramConfig) (m : smap nat) : list bytes :=
  filter (λ n, n ∉ name <$> programs) (sm_keys m).

Lemma dropped_gone programs m :
  dropped_names (foldl (λ s prog, sset_insert (name prog) s) [] programs) m = gone programs m.
Proof.
  unfold dropped_names, gone. apply list_filter_iff. intros n.
  rewrite sset_contains_foldl, orb_false_r, bool_decide_eq_false. done.
Qed.

(** The loops of [sync_processes], one after the other. *)
Lemma sync_all_ok m cfgs T P C b L F fuel depth programs (s : Manager K) :
  synced N W T P C (Z.of_nat (length programs) + b) L F m cfgs s →
  (∀ c, c ∈ programs → program_ok W c) → NoDup (name <$> programs) →
  P ≤ Z.of_nat depth → 0 ≤ b → (W + 2) * NS + C + N < Z.of_nat fuel →
  Z.of_nat (length m) + Z.of_nat (length programs) ≤ N →
  ewp (sync_processes (dispatch fuel depth) fuel programs)
    (λ _ s', ∃ m' cfgs', synced N W T P C b L (reads_after L (gone programs m) F) m' cfgs' s'
       ∧ (∀ c, c ∈ programs → ∃ id, entry m' cfgs' (name c) = Some (id, Some c)
            ∧ ∀ id0, entry m cfgs (name c) = Some (id0, Some c) → id = id0)
       ∧ ∀ n, n ∉ name <$> programs → entry m' cfgs' n = None)
    (λ e s', raised e ∧ ∃ m' cfgs' ns, ns `prefix_of` gone programs m
       ∧ synced N W T P C b L (reads_after L ns F) m' cfgs' s'
       ∧ (length m' ≤ length m `max` length programs)%nat
       ∧ ∀ n, n ∈ sm_keys m' → n ∈ sm_keys m ∨ n ∈ name <$> programs) s.
Proof.
  intros Hs Hok Hnd HP Hb HC Hlen. unfold sync_processes. pose proof Hs as (Hst & Hi & Hpin).
  assert (HCN : N ≤ Z.of_nat fuel).
  { pose proof (i_children _ _ _ _ _ _ _ _ Hi). pose proof (pending_nonneg s). unfold NS in HC. nia. }
  rewrite <- (dropped_gone programs m). set (names := foldl _ _ _). apply ewp_bind, ewp_gets.
  rewrite (i_map _ _ _ _ _ _ _ _ Hi). apply ewp_bind. eapply ewp_mono.
  { apply (remove_others_ok N W HN fuel depth HW names T P C (Z.of_nat (length programs) + b) L
      m fuel [] cfgs F s); [done|done|lia|unfold enough; lia|lia]. }
  2:{ intros e s1 (He & m1 & cfgs1 & ns & Hns & (Hst1 & Hi1 & Hp1) & Hl1 & Hk1). split; [done|]. exists m1, cfgs1, ns.
      split_and!; [done|split_and!; [done| |done]|cbn in Hl1; lia|intros n Hn; left; by apply Hk1].
      apply (inv_mono N m1 cfgs1 T P C (Z.of_nat (length programs) + b)); [lia..|done]. }
  cbn [app]. intros ? s1 (m1 & cfgs1 & Hs1 & Hl1 & He1).
  assert (Hin : ∀ n, sset_contains n names = bool_decide (n ∈ name <$> programs)).
  { intros n. unfold names. rewrite sset_contains_foldl. by rewrite orb_false_r. }
  assert (Hgone : ∀ n, n ∉ name <$> programs → entry m1 cfgs1 n = None).
  { intros n Hn. rewrite He1. case_decide as Hd; [done|]. rewrite Hin, bool_decide_eq_false in Hd. unfold entry.
    destruct (sm_find n m) as [id|] eqn:E; [|done]. exfalso. apply Hd. split; [|done]. apply sm_find_keys. by eexists. }
  eapply ewp_mono.
  { apply (sync_loop_ok N W HN fuel depth HW programs T P C b L _ m1 cfgs1 s1 Hs1); try done; unfold enough; lia. }
  2:{ intros e s2 (He & m2 & cfgs2 & Hs2 & He2). split; [done|]. exists m2, cfgs2, (dropped_names names m).
      assert (Hnone : ∀ n, n ∉ name <$> programs → entry m2 cfgs2 n = None) by (intros n Hn; by rewrite He2, Hgone).
      split_and!; [done|done| |intros n Hn; right; by apply (entries_keys m2 cfgs2)].
      pose proof (entries_bounded m2 cfgs2 (name <$> programs) (proj1 Hs2) Hnone) as Hl2.
      rewrite length_fmap in Hl2. lia. }
  intros ? s2 (m2 & cfgs2 & Hs2 & Hprov & He2). exists m2, cfgs2. split_and!; [done| |].
  - intros c Hc. destruct (Hprov c Hc) as (id & He & Hid). exists id. split; [done|].
    intros id0 H0. apply Hid. rewrite He1, decide_False; [done|].
    rewrite Hin, bool_decide_eq_false. intros [_ []]. by apply list_elem_of_fmap_2.
  - intros n Hn. by rewrite He2, Hgone.
Qed.

(** C11: A reload brings the processes in line with the new programs: it
    terminates with the invariant, and then every new program has a
    process of exactly its configuration, the same object as before when
    its configuration did not change, and no other process is left.  The
    names of the processes it took away, and no others, were read after they
    had been freed, in a log line, if a sink takes records of level info.
    An exception of a handler that ends it earlier leaves the invariant,
    with no more processes than there were or were to be, and with such
    reads of the first of the processes to take away. *)
Theorem sync_processes_ok m cfgs T P C b fuel depth programs (s : Manager K) :
  static_ok N W m cfgs → inv N m cfgs T P C (Z.of_nat (length programs) + b) s → pinned s = [] →
  (∀ c, c ∈ programs → program_ok W c) → NoDup (name <$> programs) →
  P ≤ Z.of_nat depth → 0 ≤ b → (W + 2) * NS + C + N < Z.of_nat fuel →
  Z.of_nat (length m) + Z.of_nat (length programs) ≤ N →
  ewp (sync_processes (dispatch fuel depth) fuel programs)
    (λ _ s', ∃ m' cfgs',
       static_ok N W m' cfgs' ∧ inv N m' cfgs' T P C b s'
       ∧ (∀ c, c ∈ programs → ∃ id, entry m' cfgs' (name c) = Some (id, Some c)
            ∧ ∀ id0, entry m cfgs (name c) = Some (id0, Some c) → id = id0)
       ∧ (∀ n, n ∉ name <$> programs → entry m' cfgs' n = None)
       ∧ freed_reads s' = reads_after (log_info s) (gone programs m) (freed_reads s))
    (λ e s', raised e ∧ ∃ m' cfgs', static_ok N W m' cfgs' ∧ inv N m' cfgs' T P C b s'
       ∧ (length m' ≤ length m `max` length programs)%nat
       ∧ ∃ ns, ns `prefix_of` gone programs m
           ∧ freed_reads s' = reads_after (log_info s) ns (freed_reads s)) s.
Proof.
  intros Hst Hi Hpin **. eapply ewp_mono.
  { apply (sync_all_ok m cfgs T P C b (log_info s) (freed_reads s)); try done.
    split_and!; [done|done|]. unfold locals. by rewrite Hpin. }
  - intros ? s' (m' & cfgs' & (Hst' & Hi' & [= _ _ HF]) & Hprov & Hout). exists m', cfgs'. by split_and!.
  - intros e s' (He & m' & cfgs' & ns & Hns & (Hst' & Hi' & [= _ _ HF]) & Hlen & _). split; [done|].
    exists m', cfgs'. split_and!; [done..|]. by exists ns.
Qed.
End properties.

(** ** The properties at concrete inputs *)

(** One running process, whose child has pid 1000. *)
Definition ex_program (n : bytes) : ProgramConfig := {|
  name := n; command := #"/bin/web"; environment := []; directory := None;
  autorestart := true; user := #"www";
  stdout_log := default_log; stderr_log := default_log; redirect_stderr := false;
  startsecs := 1; startretries := 3; stopwaitsecs := 10; stopsignal := #"TERM";
  umask := None;
|}.
Definition ex_running : Process :=
  mkProcess (ex_program #"web") RUNNING 1000 0 0 [] 0 0 0 None None None None.
Definition ex_map : smap nat := [(#"web", 0%nat)].
Definition ex_cfgs : gmap nat ProgramConfig := {[ 0%nat := ex_program #"web" ]}.
Definition ex_future : list (list handler) := [[OnTimer]; [OnSigchld; OnStart #"web"]].
Definition ex_manager : Manager Sim :=
  mkManager {[ 0%nat := ex_running ]} ex_map 1 [] ex_future false true []
    (mkWorld (sim_set_children [1000] sim0) (mkFS ∅ ∅ []) [Ev Fork 1000] no_statics).
Definition ex_fuel : nat := Z.to_nat (13 * NS).

(** A future in which a request with a malformed length arrives, and the
    exceptions of such requests. *)
Definition malformed_length : exn := mkExn InvalidArgument #"stoull".
Definition ex_throwing : list (list handler) := [[OnTimer; OnThrow malformed_length]; [OnStart #"web"]].
Definition ex_raised : Raised := λ e, e = malformed_length.

Lemma ex_program_ok n : program_ok 10 (ex_program n).
Proof. by split. Qed.

Lemma ex_cfgs_lookup id c : ex_cfgs !! id = Some c → 0%nat = id ∧ ex_program #"web" = c.
Proof. apply lookup_singleton_Some. Qed.

Lemma ex_heap_lookup id p : heap ex_manager !! id = Some p → 0%nat = id ∧ ex_running = p.
Proof. apply lookup_singleton_Some. Qed.

Lemma ex_static : static_ok 2 10 ex_map ex_cfgs.
Proof.
  constructor.
  - apply sm_wf_cons. split; [constructor|]. by intros ? ?%not_elem_of_nil.
  - done.
  - apply NoDup_singleton.
  - intros id. unfold ex_cfgs. simpl. rewrite list_elem_of_singleton. split.
    + intros ->. by rewrite lookup_singleton_eq.
    + intros [c Hc]. by apply ex_cfgs_lookup in Hc as [-> _].
  - intros n id c Hn Hc. apply ex_cfgs_lookup in Hc as [<- <-]. simpl in Hn.
    by case_decide; simplify_eq.
  - intros id c Hc. by apply ex_cfgs_lookup in Hc as [<- <-].
  - intros id c Hc. by apply ex_cfgs_lookup in Hc as [<- <-].
Qed.

Lemma ex_reachable : reachable (ex_program #"web") (core ex_running).
Proof.
  eapply reachable_step; [|by apply step_started]. eapply reachable_step; [constructor|by apply step_spawned].
Qed.

Lemma ex_inv_future `{may_raise : Raised} future b :
  0 ≤ b ≤ 10 → length (concat future) = 3%nat → Forall settled (concat future) →
  inv 2 ex_map ex_cfgs 0 3 17 b (set_agenda future ex_manager).
Proof.
  intros Hb Hlen Hset. assert (Hp : pending (set_agenda future ex_manager) = 3).
  { unfold pending. cbn. by rewrite Hlen. }
  assert (Hc : children (wk (world (set_agenda future ex_manager))) = {[ 1000 ]}) by by vm_compute.
  constructor; try done; rewrite ?Hp; try lia.
  - intros id [c Hid]. apply ex_cfgs_lookup in Hid as [<- _]. simpl. lia.
  - intros id p Hid. apply ex_heap_lookup in Hid as [<- <-]. constructor.
    + apply ex_reachable.
    + by intros [] lw.
    + intros _. rewrite Hc. set_solver.
    + unfold used. simpl. unfold INT_MAX. lia.
  - intros id1 id2 p1 p2 H1 H2. apply ex_heap_lookup in H1 as [<- _].
    by apply ex_heap_lookup in H2 as [<- _].
  - rewrite Hc, size_singleton. lia.
  - unfold INT_MAX. lia.
Qed.

Lemma ex_inv `{may_raise : Raised} b : 0 ≤ b ≤ 10 → inv 2 ex_map ex_cfgs 0 3 17 b ex_manager.
Proof. intros Hb. by apply (ex_inv_future ex_future); [|done|repeat constructor]. Qed.

Lemma ex_inv_throwing b : 0 ≤ b ≤ 10 →
  inv (may_raise := ex_raised) 2 ex_map ex_cfgs 0 3 17 b (set_agenda ex_throwing ex_manager).
Proof. intros Hb. by apply (ex_inv_future ex_throwing); [|done|repeat constructor]. Qed.

Lemma daemon_run_safe_witness :
  ewp (mfor [ex_program #"web"; ex_program #"db"] add_process ;;
       start_all ;;
       mfor [OnTimer; OnStop #"web"; OnSigchld] (dispatch ex_fuel 4) ;;
       stop_all (dispatch ex_fuel 4) ex_fuel)
    (λ _ s', own (marks (wtrace (world s')))
      ∧ ∀ n id p, sm_find n (process_map_ s') = Some id → heap s' !! id = Some p →
          pid_ p ≤ 0 ∧ reachable (config_ p) (core p))
    (λ e s', e = malformed_length ∧ own (marks (wtrace (world s'))))
    (new_manager true ex_throwing world0).
Proof.
  apply (daemon_run_safe (may_raise := ex_raised) 2 10);
    [lia|by split| | |by repeat constructor|by repeat constructor|done|by vm_compute|by vm_compute|].
  - intros c Hc. repeat (apply elem_of_cons in Hc as [->|Hc]; [apply ex_program_ok|]).
    by apply not_elem_of_nil in Hc.
  - apply NoDup_cons; split; [|apply NoDup_singleton]. by intros ?%list_elem_of_singleton.
  - unfold ex_fuel. rewrite Z2Nat.id by (by vm_compute). by vm_compute.
Defined.

Lemma stop_all_stops_witness :
  ewp (stop_all (dispatch ex_fuel 3) ex_fuel)
    (λ _ s', inv (may_raise := ex_raised) 2 ex_map ex_cfgs 0 3 17 0 s'
      ∧ ∀ id p, id ∈ ex_map.*2 → heap s' !! id = Some p → pid_ p ≤ 0)
    (λ e s', e = malformed_length ∧ inv (may_raise := ex_raised) 2 ex_map ex_cfgs 0 3 17 0 s')
    (set_agenda ex_throwing ex_manager).
Proof.
  apply (stop_all_stops (may_raise := ex_raised) 2 10);
    [lia|by split|apply ex_static|by apply ex_inv_throwing|lia|lia|]. unfold ex_fuel, NS. lia.
Defined.

Lemma stop_process_waits_witness :
  ewp (stop_process (dispatch ex_fuel 3) ex_fuel #"web")
    (λ ok s', inv (may_raise := ex_raised) 2 ex_map ex_cfgs 0 3 17 0 s' ∧
      (ok = true → ∃ id c p, sm_find #"web" ex_map = Some id ∧ ex_cfgs !! id = Some c
         ∧ heap s' !! id = Some p
         ∧ (pid_ p ≤ 0 ∨ 0 + (stopwaitsecs c + 1) * NS ≤ clock (wk (world s')))))
    (λ e s', e = malformed_length ∧ inv (may_raise := ex_raised) 2 ex_map ex_cfgs 0 3 17 0 s')
    (set_agenda ex_throwing ex_manager).
Proof.
  apply (stop_process_waits (may_raise := ex_raised) 2 10);
    [lia|by split|apply ex_static|by apply ex_inv_throwing|lia|lia|]. unfold ex_fuel, NS. lia.
Defined.

Lemma sync_processes_ok_witness :
  ewp (sync_processes (dispatch ex_fuel 3) ex_fuel [ex_program #"db"])
    (λ _ s', ∃ m' cfgs',
      static_ok 2 10 m' cfgs' ∧ inv (may_raise := ex_raised) 2 m' cfgs' 0 3 17 0 s'
      ∧ (∀ c, c ∈ [ex_program #"db"] → ∃ id, entry m' cfgs' (name c) = Some (id, Some c)
           ∧ ∀ id0, entry ex_map ex_cfgs (name c) = Some (id0, Some c) → id = id0)
      ∧ (∀ n, n ∉ name <$> [ex_program #"db"] → entry m' cfgs' n = None)
      ∧ freed_reads s' = reads_after true (gone [ex_program #"db"] ex_map) [])
    (λ e s', e = malformed_length ∧ ∃ m' cfgs',
      static_ok 2 10 m' cfgs' ∧ inv (may_raise := ex_raised) 2 m' cfgs' 0 3 17 0 s' ∧ (length m' ≤ 1)%nat
      ∧ ∃ ns, ns `prefix_of` gone [ex_program #"db"] ex_map ∧ freed_reads s' = reads_after true ns [])
    (set_agenda ex_throwing ex_manager).
Proof.
  apply (sync_processes_ok (may_raise := ex_raised) 2 10 ltac:(lia) ltac:(by split) ex_map ex_cfgs 0 3 17 0
    ex_fuel 3 [ex_program #"db"] (set_agenda ex_throwing ex_manager));
    [apply ex_static|by apply ex_inv_throwing|done| |apply NoDup_singleton|lia|lia| |done].
  - intros c ->%list_elem_of_singleton. apply ex_program_ok.
  - unfold ex_fuel, NS. lia.
Defined.

(** ** A reload while another operation waits

    The theorems above leave out reloads, and nothing else, from what the
    nested event loops run.  The daemon ignores a reload while another is under way, but a
    request to terminate in between makes it forget that: the second reload
    then removes the process that the first is still removing, whose
    iterator is used afterwards. *)

(** A kernel whose children die of SIGKILL only. *)
Definition stubborn : Kernel Sim := λ c k,
  match c with
  | Kill pid sig => if sig =? SIGKILL then sim_kill pid sig k else (0, k)
  | c => sim_kernel c k
  end.

Definition ex_reentrant : Manager Sim :=
  set_agenda [[OnShutdown]; [OnReload []]] ex_manager.

Lemma reload_reenters : @dispatch Sim stubborn 2000 4 (OnReload []) ex_reentrant = Undef.
Proof. by vm_compute. Qed.

(** Without the second reload the first one ends. *)
Lemma reload_alone : ∃ s, @dispatch Sim stubborn 2000 4 (OnReload [])
  (set_agenda [[OnShutdown]] ex_manager) = Ret tt s ∧ process_map_ s = [].
Proof. vm_compute. eexists. by split. Qed.

(** ** A reload that removes a process

    The key of the entry is read by the log line of [remove_process] after
    the entry has been freed. *)
Lemma reload_reads_freed_key : ∃ s, @dispatch Sim stubborn 2000 4 (OnReload [])
  (set_agenda [] ex_manager) = Ret tt s ∧ freed_reads s = #"web" :: [].
Proof. vm_compute. eexists. by split. Qed.
