(* ===== verification/SigchldSpec.v ===== *)
(** * The reaping of children

    What one run of [handle_sigchld_] does to every process: the exits the
    system reports reach exactly the processes they belong to. *)

From Stdlib Require Import ZArith NArith Ascii String.
From stdpp Require Import base gmap sets list strings.
From S2P Require Import Prelude CppString StdMap ConfigTypes Files LogWriter Kernel Sim Secure Process.
From S2P Require Import ProcessManager ProcessManagerSpec.

(** Exits in the order they were reported: process ids with wait statuses. *)
Definition exits : Type := list (Z * Z).

(** The status reported for a process id. *)
Fixpoint status_of (l : exits) (pid : Z) : option Z :=
  match l with
  | [] => None
  | (p, st) :: l => if p =? pid then Some st else status_of l pid
  end.

(** What the exits make of the process [p]. *)
Definition exited (l : exits) (p p' : Process) : Prop :=
  match (if 0 <? pid_ p then status_of l (pid_ p) else None) with
  | Some st => fixed p' = fixed p ∧ core p' = exit_core (config_ p) (core p) ∧ exitstatus_ p' = exit_code st
  | None => p' = p
  end.

Section sigchld.
Context {K : Type} `{!Kernel K} {laws : KernelLaws K} {may_raise : Raised}.
Local Abbreviation PM := (Manager K).
Context (N W : Z) (m : smap nat) (cfgs : gmap nat ProgramConfig).
Context (HN : 1 ≤ N) (Hst : static_ok N W m cfgs).
Local Abbreviation I := (inv N m cfgs).

(** All processes of [s'] are those of [s] after the exits [l]. *)
Definition all_exited (l : exits) (s s' : PM) : Prop :=
  ∀ id, match heap s !! id, heap s' !! id with
        | Some p, Some p' => exited l p p'
        | None, None => True
        | _, _ => False
        end.

(** The last answer of the system was that no child has exited. *)
Definition no_more (s : PM) : Prop :=
  ∃ pid st t, wtrace (world s) = Ev (Waitpid (-1) true) (pid, st) :: t ∧ pid ≤ 0.

Definition reaped_marks (l : exits) : list mark := (λ e, MReaped e.1) <$> rev l.

(** The process with the pid that exited. *)
Lemma notify_exact pid st ids (s : PM) :
  0 < pid →
  (∀ id, id ∈ ids → is_Some (heap s !! id)) →
  (∀ id p, heap s !! id = Some p → 0 ≤ retry_count_ p < INT_MAX) →
  (∀ id p, id ∉ ids → heap s !! id = Some p → pid_ p ≠ pid) →
  (∀ id1 id2 p1 p2, heap s !! id1 = Some p1 → heap s !! id2 = Some p2 →
     pid_ p1 = pid → pid_ p2 = pid → id1 = id2) →
  twp (notify_exit ids pid st)
    (λ _ s', all_exited [(pid, st)] s s' ∧ marks (wtrace (world s')) = marks (wtrace (world s))) s.
Proof.
  intros Hpid Hids Hretry Hnot Hinj.
  assert (Hother : ∀ p, pid_ p ≠ pid → exited [(pid, st)] p p).
  { intros p Hp. unfold exited. cbn. destruct (Z.eqb_spec pid (pid_ p)); [congruence|]. by destruct (0 <? pid_ p). }
  induction ids as [|id ids IH]; cbn [notify_exit].
  { apply twp_ret. split; [|done]. intros id. destruct (heap s !! id) as [p|] eqn:Hp; [|done].
    apply Hother, (Hnot id); [apply not_elem_of_nil|done]. }
  destruct (Hids id) as [p Hp]; [left|]. apply twp_bind. eapply twp_object; [exact Hp|].
  destruct (Z.eqb_spec (pid_ p) pid) as [Heq|Hne].
  - eapply twp_on_object; [exact Hp|]. specialize (Hretry id p Hp).
    eapply twp_mono; [apply on_exit_ok; unfold INT_MIN; lia|].
    intros _ [p' w'] (Hf & Hcore & Hstat & Hq). cbn in *. split; [|by destruct Hq].
    intros i. destruct (decide (i = id)) as [->|Hi].
    + cbn. rewrite Hp, lookup_insert_eq. unfold exited. rewrite Heq. cbn.
      rewrite Z.eqb_refl. destruct (Z.ltb_spec 0 pid); [by split_and!|lia].
    + cbn. rewrite lookup_insert_ne by done. destruct (heap s !! i) as [q|] eqn:Hq'; [|done].
      apply Hother. intros E. apply Hi. by apply (Hinj i id q p).
  - apply IH; [intros; apply Hids; by right|]. intros i q Hi Hq.
    destruct (decide (i = id)) as [->|]; [congruence|]. apply (Hnot i q); [set_solver|done].
Qed.

Lemma exited_twice pid st l p p1 p2 :
  0 < pid → status_of l pid = None → exited [(pid, st)] p p1 → exited l p1 p2 → exited ((pid, st) :: l) p p2.
Proof.
  intros Hpid Hl. unfold exited. cbn. destruct (Z.ltb_spec 0 (pid_ p)) as [Hp|Hp]; cycle 1.
  { intros ->. by destruct (Z.ltb_spec 0 (pid_ p)); [lia|]. }
  destruct (Z.eqb_spec pid (pid_ p)) as [->|Hne]; cycle 1.
  { intros ->. by destruct (Z.ltb_spec 0 (pid_ p)); [|lia]. }
  intros (Hf & Hc & Hs). assert (pid_ p1 = -1) as ->.
  { change (pid_ p1) with (c_pid (core p1)). rewrite Hc. unfold exit_core. by repeat case_match. }
  cbn. by intros ->.
Qed.

Lemma all_exited_twice pid st l (s s1 s2 : PM) :
  0 < pid → status_of l pid = None → all_exited [(pid, st)] s s1 → all_exited l s1 s2 →
  all_exited ((pid, st) :: l) s s2.
Proof.
  intros Hpid Hl H1 H2 id. specialize (H1 id). specialize (H2 id).
  destruct (heap s !! id), (heap s1 !! id), (heap s2 !! id); try done. by eapply exited_twice.
Qed.

(** The state after [waitpid] returned a child, and [notify_exit]. *)
Lemma one_reaped T P C b (s : PM) pid st k :
  I T P C b s → 0 ≤ b → sys (Waitpid (-1) true) (wk (world s)) = ((pid, st), k) → 0 < pid →
  twp (notify_exit m.*2 pid st) (λ _ s1, I T P (C - 1) b s1 ∧ all_exited [(pid, st)] s s1
      ∧ marks (wtrace (world s1)) = MReaped pid :: marks (wtrace (world s))
      ∧ pid ∈ children (wk (world s)))
    (set_world (mkWorld k (wfs (world s)) (Ev (Waitpid (-1) true) (pid, st) :: wtrace (world s)) (wstatics (world s))) s).
Proof.
  intros Hi Hb E Hpid.
  assert (Hdom : ∀ id, id ∈ m.*2 ↔ is_Some (heap s !! id)).
  { intros id. rewrite (st_dom _ _ _ _ Hst), <- (i_cfgs _ _ _ _ _ _ _ _ Hi), lookup_fmap. by rewrite fmap_is_Some. }
  assert (Hnot : ∀ id p, id ∉ m.*2 → heap s !! id = Some p → pid_ p ≠ pid).
  { intros id p Hid Hp. exfalso. apply Hid, Hdom. by exists p. }
  eapply twp_mono; [apply twp_and|].
  - by apply (notify_ok N W m cfgs HN Hst T P C b s pid st k m.*2).
  - apply notify_exact; cbn; [done|by intros id Hid; apply Hdom| |done|].
    + intros id p Hp. pose proof (i_procs _ _ _ _ _ _ _ _ Hi _ _ Hp) as [Hc _ _ Hu]. apply reachable_consistent_aux in Hc.
      pose proof (cons_retry _ _ Hc). pose proof (pending_nonneg s). unfold used in Hu. cbn in *.
      case_decide; nia.
    + intros id1 id2 p1 p2 H1 H2 E1 E2. eapply (i_pids _ _ _ _ _ _ _ _ Hi id1 id2 p1 p2); [done|done|lia|congruence].
  - cbn. intros _ s1 (Hi1 & Hall & Hm). split_and!; [done|exact Hall| |].
    + rewrite Hm. by destruct (Z.ltb_spec 0 pid); [|lia].
    + pose proof (waitpid_law _ _ _ _ _ _ E) as Hw. destruct (Z.ltb_spec 0 pid); [|lia]. tauto.
Qed.

Lemma sigchld_exact fuel r T P C b (s : PM) :
  I T P C b s → 0 ≤ b → C < Z.of_nat fuel →
  twp (handle_sigchld_ fuel r) (λ r' s', ∃ l : exits,
    all_exited l s s' ∧ r' = r || negb (bool_decide (l = []))
    ∧ marks (wtrace (world s')) = reaped_marks l ++ marks (wtrace (world s))
    ∧ (∀ pid, pid ∉ children (wk (world s)) → status_of l pid = None) ∧ no_more s') s.
Proof.
  intros Hi Hb. revert r C s Hi. induction fuel as [|fuel IH]; intros r C s Hi Hf.
  { destruct Hi. pose proof (pending_nonneg s). nia. }
  cbn [handle_sigchld_]. apply twp_bind. unfold twp at 1, on_world, zoom, do_call. cbn [sys].
  destruct (sys (Waitpid (-1) true) (wk (world s))) as [[pid st] k] eqn:E.
  destruct (Z.leb_spec pid 0) as [Hpid|Hpid].
  - apply twp_ret. exists []. split_and!; [| by rewrite orb_false_r| |done|by do 3 eexists].
    + intros id. cbn. destruct (heap s !! id) as [p|]; [|done]. unfold exited. by destruct (0 <? pid_ p).
    + cbn. by destruct (Z.ltb_spec 0 pid); [lia|].
  - apply twp_bind, twp_gets. cbn [process_map_ set_world]. rewrite (i_map _ _ _ _ _ _ _ _ Hi).
    apply twp_bind. eapply twp_mono; [by apply (one_reaped T P C b s)|].
    intros _ s1 (Hi1 & Hall1 & Hm1 & Hin). eapply twp_mono; [apply (IH true (C - 1)); [done|lia]|].
    intros r' s2 (l & Hall & -> & Hm & Hno & Hend).
    assert (Hch : ∀ x, x ∉ children (wk (world s)) ∨ x = pid → x ∉ children (wk (world s1))).
    { destruct (i_tracked _ _ _ _ _ _ _ _ Hi) as [Ht _]. destruct (i_tracked _ _ _ _ _ _ _ _ Hi1) as [Ht1 _].
      intros x. rewrite Ht, Ht1, Hm1. cbn. set_solver. }
    exists ((pid, st) :: l). split_and!.
    + apply (all_exited_twice _ _ _ s s1); [done|by apply Hno, Hch; right|done|done].
    + by rewrite orb_true_r.
    + rewrite Hm, Hm1. unfold reaped_marks. cbn. rewrite fmap_app. by rewrite <- app_assoc.
    + intros x Hx. cbn. destruct (Z.eqb_spec pid x) as [->|]; [done|]. apply Hno, Hch. by left.
    + done.
Qed.

(** C10: Exits reach the processes they belong to.  One run of the handler
    of SIGCHLD reaps children until the system has no more to report; each
    process whose child was reaped has had exactly its own wait status
    recorded and has left for the state that follows from it; all other
    processes are untouched; and nothing but the reaping happens to any
    child. *)
Theorem sigchld_exits_delivered T P C b fuel (s : PM) :
  I T P C b s → 0 ≤ b → C < Z.of_nat fuel →
  twp (handle_sigchld_ fuel false) (λ reaped s', ∃ l : exits,
    all_exited l s s' ∧ (reaped = true ↔ l ≠ [])
    ∧ marks (wtrace (world s')) = reaped_marks l ++ marks (wtrace (world s)) ∧ no_more s') s.
Proof.
  intros Hi Hb Hf. eapply twp_mono; [by apply (sigchld_exact fuel false T P C b)|].
  intros r s' (l & Hall & -> & Hm & _ & Hend). exists l. split; [done|].
  split; [|by split]. case_bool_decide; naive_solver.
Qed.
End sigchld.

(** ** The property at a concrete input *)

(** The child of the manager has exited with code 1. *)
Definition ex_zombie : Manager Sim :=
  set_world (mkWorld (sim_set_zombies [(1000, 256)] (wk (world ex_manager))) (mkFS ∅ ∅ [])
    (wtrace (world ex_manager)) no_statics) ex_manager.

Lemma sigchld_exits_delivered_witness :
  twp (handle_sigchld_ ex_fuel false) (λ reaped s', ∃ l : exits,
    all_exited l ex_zombie s' ∧ (reaped = true ↔ l ≠ [])
    ∧ marks (wtrace (world s')) = reaped_marks l ++ marks (wtrace (world ex_zombie)) ∧ no_more s') ex_zombie.
Proof.
  apply (sigchld_exits_delivered (may_raise := no_exceptions) 2 10 ex_map ex_cfgs ltac:(lia) ex_static 0 3 17 0); [|done|].
  - apply inv_world; [done|by apply ex_inv].
  - unfold ex_fuel, NS. lia.
Defined.
