(* ===== verification/TimerSpec.v ===== *)
(** * The periodic update

    What one run of [on_timer_] does to every process: the waits that are
    over end, each with the transition of its state, and every other process
    is left alone. *)

From Stdlib Require Import ZArith NArith Ascii String.
From stdpp Require Import base gmap sets list strings.
From S2P Require Import Prelude CppString StdMap ConfigTypes Files LogWriter Kernel Sim Secure Process ProcessSpec.
From S2P Require Import ProcessManager ProcessManagerSpec.

Section timer.
Context {K : Type} `{!Kernel K} {laws : KernelLaws K} {may_raise : Raised}.
Local Abbreviation PM := (Manager K).
Context (N W : Z) (m : smap nat) (cfgs : gmap nat ProgramConfig).
Context (HN : 1 ≤ N) (Hst : static_ok N W m cfgs).
Local Abbreviation I := (inv N m cfgs).
Local Abbreviation time s := (clock (wk (world s))).

(** Time has passed, and signals were sent and children forked. *)
Definition passed (w w' : World K) : Prop :=
  clock (wk w) ≤ clock (wk w') ∧ ∃ t, marks (wtrace w') = t ++ marks (wtrace w).

#[local] Instance passed_preorder : PreOrder passed.
Proof.
  split; [by intros w; split; [|exists []]|].
  intros w1 w2 w3 (H1 & t1 & E1) (H2 & t2 & E2). split; [lia|]. exists (t2 ++ t1). by rewrite E2, E1, app_assoc.
Qed.

Lemma quiet_passed w w' : quiet w w' → passed w w'.
Proof. intros (Hm & _ & Hc). split; [done|]. exists []. by rewrite Hm. Qed.

Lemma effect_passed config l c w w' : effect config l c w w' → passed w w'.
Proof.
  intros [Hc He]. split; [done|].
  destruct l; [..|]; try (destruct He as [Hm _]; rewrite Hm; first [by eexists [_]|by exists []]).
  destruct He as [[Hm _]|[Hm _]]; rewrite Hm; [by eexists [_]|by eexists [_; _]].
Qed.

(** What a tick between [s] and [s'] made of the process [p]: it was looked
    at once, at some time [t] in between. *)
Definition timed (s s' : PM) (p p' : Process) : Prop :=
  ∃ t w1 w2, time s ≤ t ≤ time s' ∧ passed (world s) w1 ∧ passed w2 (world s')
    ∧ if due t p then ended p w1 (p', w2) else p' = p.

Lemma timed_mono s1 s1' s s' p p' :
  passed (world s) (world s1) → passed (world s1') (world s') → timed s1 s1' p p' → timed s s' p p'.
Proof.
  intros H1 H2 (t & w1 & w2 & Ht & Hw1 & Hw2 & Hd). destruct (id H1) as [? _], (id H2) as [? _].
  exists t, w1, w2. split_and!; [lia|lia|by etransitivity..|done].
Qed.

(** One process. *)
Lemma update_one T P C b s id :
  I T P C (1 + b) s → 0 ≤ b → id ∈ m.*2 →
  ∃ p, heap s !! id = Some p ∧
    twp (on_object id update) (λ _ s', I T P C b s' ∧ passed (world s) (world s')
      ∧ ∃ p', heap s' = <[id := p']> (heap s) ∧ timed s s' p p') s.
Proof.
  intros Hi Hb Hid. destruct (object_there N W m cfgs Hst _ _ _ _ _ _ Hi Hid) as (p & Hp & Hcfg).
  exists p. split; [done|]. apply twp_and; [by apply (ht_update N W m cfgs HN Hst)|].
  pose proof (reachable_consistent_aux _ _ (po_reach _ _ _ (i_procs _ _ _ _ _ _ _ _ Hi _ _ Hp))) as Hc.
  eapply twp_on_object; [exact Hp|]. eapply twp_mono; [apply update_exact; [done|]|].
  - intros Hst'. destruct (cons_backoff _ _ Hc Hst') as [Hz|Hlt]; cbn in *; [lia|].
    apply (st_retries _ _ _ _ Hst) in Hcfg. lia.
  - intros [] [p' w'] (t & Ht & Hd). cbn in *.
    assert (Hw : passed (world s) w').
    { destruct (due t p); [|apply quiet_passed, Hd]. destruct Hd as (l & _ & _ & He). by eapply effect_passed. }
    split; [done|]. exists p'. split; [done|]. exists t, (world s), w'. cbn. split_and!; [lia|lia|done..|].
    by destruct (due t p); [|destruct Hd].
Qed.

Lemma update_each ids T P C b s :
  I T P C (Z.of_nat (length ids) + b) s → 0 ≤ b → NoDup ids → (∀ id, id ∈ ids → id ∈ m.*2) →
  twp (mfor ids (λ id, on_object id update)) (λ _ s', passed (world s) (world s')
    ∧ (∀ id, id ∉ ids → heap s' !! id = heap s !! id)
    ∧ ∀ id, id ∈ ids → ∃ p p', heap s !! id = Some p ∧ heap s' !! id = Some p' ∧ timed s s' p p') s.
Proof.
  intros Hi Hb. revert s Hi. induction ids as [|id ids IH]; intros s Hi Hnd Hids; cbn [mfor].
  { apply twp_ret. split_and!; [reflexivity|done|by intros id ?%not_elem_of_nil]. }
  apply NoDup_cons in Hnd as [Hnot Hnd].
  destruct (update_one T P C (Z.of_nat (length ids) + b) s id) as (p & Hp & Hone); [|lia|apply Hids; left|].
  { cbn [length] in Hi. by replace (1 + (Z.of_nat (length ids) + b)) with (Z.of_nat (S (length ids)) + b) by lia. }
  apply twp_bind. eapply twp_mono; [exact Hone|]. intros _ s1 (Hi1 & Hw1 & p1 & Hh1 & Ht1).
  eapply twp_mono; [apply (IH s1); [done|done|intros i Hi'; apply Hids; by right]|].
  cbn beta. intros _ s2 (Hw2 & Hrest & Heach). split; [by etransitivity|]. split.
  - intros i Hi'. apply not_elem_of_cons in Hi' as [Hne Hi']. by rewrite (Hrest i Hi'), Hh1, lookup_insert_ne.
  - intros i Hi'. destruct (decide (i = id)) as [->|Hne].
    + exists p, p1. split_and!; [done|by rewrite (Hrest id Hnot), Hh1, lookup_insert_eq|].
      by apply (timed_mono s s1).
    + apply elem_of_cons in Hi' as [?|Hi']; [done|]. destruct (Heach i Hi') as (q & q' & Hq & Hq' & Ht).
      rewrite Hh1, lookup_insert_ne in Hq by done. exists q, q'. split_and!; [done..|].
      by apply (timed_mono s1 s2).
Qed.

(** C18: No wait is forgotten.  One run of [on_timer_] looks at every
    process once, at a time between its start and its end.  A process whose
    wait is over then - STARTING for [startsecs], STOPPING for
    [stopwaitsecs], in BACKOFF for its delay - makes the transition that
    ends it, with its effect: it is RUNNING, its child gets SIGKILL, or it
    is started again.  Every other process is left as it is.  So all waits
    that were over when the run began have ended, and none that are not
    over when it returns. *)
Theorem timer_advances T P C b s :
  I T P C (N + b) s → 0 ≤ b →
  twp on_timer_ (λ _ s', ∀ id,
    match heap s !! id, heap s' !! id with
    | Some p, Some p' => timed s s' p p'
        ∧ (due (time s) p = true → ∃ w1 w2, passed (world s) w1 ∧ passed w2 (world s') ∧ ended p w1 (p', w2))
        ∧ (due (time s') p = false → p' = p)
    | None, None => True
    | _, _ => False
    end) s.
Proof.
  intros Hi Hb. unfold on_timer_, all_processes. apply twp_bind, twp_gets.
  rewrite (i_map _ _ _ _ _ _ _ _ Hi). pose proof (ids_length N W m cfgs Hst) as Hlen.
  assert (Hdom : ∀ id, id ∈ m.*2 ↔ is_Some (heap s !! id)).
  { intros id. rewrite (st_dom _ _ _ _ Hst), <- (i_cfgs _ _ _ _ _ _ _ _ Hi), lookup_fmap. by rewrite fmap_is_Some. }
  eapply twp_mono; [apply (update_each m.*2 T P C b); [|done|apply (st_ids _ _ _ _ Hst)|done]|].
  { eapply inv_mono; [..|exact Hi]; lia. }
  cbn beta. intros _ s' (_ & Hrest & Heach) id. destruct (heap s !! id) as [p|] eqn:Hp.
  - destruct (Heach id) as (q & p' & Hq & Hp' & Ht); [apply Hdom; by rewrite Hp|].
    rewrite Hp in Hq. injection Hq as <-. rewrite Hp'. split; [done|].
    destruct Ht as (t & w1 & w2 & [Ht1 Ht2] & Hw1 & Hw2 & Hd). split.
    + intros Hdue. rewrite (due_later (time s) t) in Hd by done. by exists w1, w2.
    + intros Hdue. destruct (due t p) eqn:Et; [|done]. by rewrite (due_later t (time s')) in Hdue.
  - assert (id ∉ m.*2) as Hid by (rewrite Hdom, Hp; by intros [? [=]]). by rewrite (Hrest id Hid), Hp.
Qed.
End timer.

(** ** The property at a concrete input *)

(** A process that was started at time 0, two seconds later. *)
Definition ex_starting : Process :=
  mkProcess (ex_program #"web") STARTING 1000 0 0 [] 0 0 0 None None None None.
Definition ex_tick : Manager Sim :=
  mkManager {[ 0%nat := ex_starting ]} ex_map 1 [] [] false true []
    (later (2 * NS) (mkWorld (sim_set_children [1000] sim0) (mkFS ∅ ∅ []) [Ev Fork 1000] no_statics)).

Lemma ex_tick_lookup id p : heap ex_tick !! id = Some p → 0%nat = id ∧ ex_starting = p.
Proof. apply lookup_singleton_Some. Qed.

Lemma ex_tick_inv `{may_raise : Raised} : inv 2 ex_map ex_cfgs 0 3 17 2 ex_tick.
Proof.
  assert (Hc : children (wk (world ex_tick)) = {[ 1000 ]}) by by vm_compute.
  pose proof ex_tick_lookup as Hh.
  constructor; try done.
  - intros id [c Hid]. apply ex_cfgs_lookup in Hid as [<- _]. simpl. lia.
  - intros id p Hid. apply Hh in Hid as [<- <-]. constructor; [|by intros [] lw| |done].
    + eapply reachable_step; [constructor|by apply step_spawned].
    + intros _. rewrite Hc. set_solver.
  - intros id1 id2 p1 p2 H1 H2. apply Hh in H1 as [<- _]. by apply Hh in H2 as [<- _].
Qed.

Lemma timer_advances_witness :
  due (clock (wk (world ex_tick))) ex_starting = true
  ∧ twp on_timer_ (λ _ s', ∀ id,
    match heap ex_tick !! id, heap s' !! id with
    | Some p, Some p' => timed ex_tick s' p p'
        ∧ (due (clock (wk (world ex_tick))) p = true →
            ∃ w1 w2, passed (world ex_tick) w1 ∧ passed w2 (world s') ∧ ended p w1 (p', w2))
        ∧ (due (clock (wk (world s'))) p = false → p' = p)
    | None, None => True
    | _, _ => False
    end) ex_tick.
Proof.
  split; [by vm_compute|].
  apply (timer_advances (may_raise := no_exceptions) 2 10 ex_map ex_cfgs ltac:(lia) ex_static 0 3 17 0); [apply ex_tick_inv|done].
Defined.
