(* ===== verification/Supervisord.v ===== *)
(** * The daemon: daemon/supervisord.{h,cpp}, daemon_state.h, rpc_handlers.h

    The RPC methods over the process manager, the reload of the
    configuration, and the run of the daemon from its start to its end.
    [fuel] and [depth] are the bounds of the loops of the process manager;
    what its nested event loops run is its agenda. *)

From Stdlib Require Import ZArith NArith Ascii String.
From stdpp Require Import base gmap sets list strings.
From S2P Require Import Prelude CppString StdMap BoostAlgo PTree ConfigTypes Files LogWriter Kernel.
From S2P Require Import Secure Process XmlRpc RpcConnection RpcServer ConfigParser ProcessManager.

(** *** daemon_state.h *)

Inductive DaemonState := D_SHUTDOWN | D_RESTARTING | D_RUNNING | D_FATAL.

#[global] Instance DaemonState_eq_dec : EqDecision DaemonState.
Proof. solve_decision. Defined.

Definition daemon_state_code (s : DaemonState) : Z :=
  match s with D_SHUTDOWN => -1 | D_RESTARTING => 0 | D_RUNNING => 1 | D_FATAL => 2 end.

Definition daemon_state_name (s : DaemonState) : bytes :=
  match s with
  | D_FATAL => #"FATAL" | D_RUNNING => #"RUNNING"
  | D_RESTARTING => #"RESTARTING" | D_SHUTDOWN => #"SHUTDOWN"
  end.

(** *** rpc_handlers.h *)

Definition runtime_error {S A} (msg : bytes) : M S A := throw (mkExn RuntimeError msg).

(** [Value{true}.str()] *)
Definition value_true : bytes := value_xml (VBool true).

Section handlers.
Context {K : Type} `{!Kernel K}.
Local Abbreviation PM := (Manager K).
Variable dispatch : handler → M PM unit.
Variable fuel : nat.

(** The first parameter, and the process it names. *)
Definition with_named_process (params : list bytes) (m : bytes → nat → M PM bytes) : M PM bytes :=
  match params with
  | [] => runtime_error #"Process name required"
  | n :: _ =>
    it ← get_process n;
    match it with
    | None => runtime_error (#"BAD_NAME: " ++ n)
    | Some id => with_pointer id (m n id)
    end
  end.

Definition rpc_get_all_process_info (_ : list bytes) : M PM bytes :=
  infos ← get_all_process_info; mret (infos_xml infos).

Definition rpc_get_process_info (params : list bytes) : M PM bytes :=
  with_named_process params (λ n id, info ← on_object id get_info; mret (info_xml info)).

Definition rpc_start_process (params : list bytes) : M PM bytes :=
  with_named_process params (λ n id,
    p ← object id;
    if bool_decide (state_ p = RUNNING) || bool_decide (state_ p = STARTING)
    then runtime_error (#"ALREADY_STARTED: " ++ n) else
    ok ← start_process n;
    if negb ok then runtime_error (#"SPAWN_ERROR: " ++ n) else mret value_true).

Definition rpc_stop_process (params : list bytes) : M PM bytes :=
  with_named_process params (λ n id,
    p ← object id;
    if bool_decide (state_ p = STOPPED) || bool_decide (state_ p = EXITED) || bool_decide (state_ p = FATAL)
    then runtime_error (#"NOT_RUNNING: " ++ n) else
    ok ← stop_process dispatch fuel n;
    if negb ok then runtime_error (#"NOT_RUNNING: " ++ n) else mret value_true).

Definition rpc_start_all_processes (params : list bytes) : M PM bytes :=
  start_all ;; rpc_get_all_process_info params.

Definition rpc_stop_all_processes (params : list bytes) : M PM bytes :=
  stop_all dispatch fuel ;; rpc_get_all_process_info params.
End handlers.

(** *** supervisord.cpp *)

Record Daemon (K : Type) := mkDaemon {
  d_config : Configuration;          (* config_ *)
  daemon_state_ : DaemonState;
  process_manager_ : Manager K;
  rpc_server_ : RpcServer;
  posted_ : list handler;            (* queued by boost::asio::post *)
  connections_ : gmap nat Connection; (* held by the completions to come *)
}.
Arguments mkDaemon {K}.
Arguments d_config {K}.
Arguments daemon_state_ {K}.
Arguments process_manager_ {K}.
Arguments rpc_server_ {K}.
Arguments posted_ {K}.
Arguments connections_ {K}.

(** What [io_context_.run()] delivers to the daemon, one completion at a
    time: of the accept, of a read or the write of the [n]-th connection
    accepted, of a wait for a signal, and the events of the process
    manager. *)
Inductive daemon_event :=
| Accepted (error : bool)
| Received (n : nat) (error : option read_error) (data : bytes)
| Written (n : nat)
| Terminate                     (* SIGTERM or SIGINT *)
| Hangup                        (* SIGHUP *)
| Managed (h : handler).

Section daemon.
Context `{PropertyTree, StringAlgo, EnvGrammar} {K : Type} `{!Kernel K}.
Local Abbreviation D := (Daemon K).
Variables fuel depth : nat.

Definition on_manager {A} (m : M (Manager K) A) : M D A :=
  zoom process_manager_
    (λ s d, mkDaemon (d_config d) (daemon_state_ d) s (rpc_server_ d) (posted_ d) (connections_ d)) m.

Definition on_server {A} (m : M (RpcServer * World K) A) : M D A :=
  zoom (λ d, (rpc_server_ d, world (process_manager_ d)))
    (λ s d, mkDaemon (d_config d) (daemon_state_ d) (set_world s.2 (process_manager_ d)) s.1 (posted_ d) (connections_ d)) m.

Definition store_state (st : DaemonState) : M D unit :=
  modify (λ d, mkDaemon (d_config d) st (process_manager_ d) (rpc_server_ d) (posted_ d) (connections_ d)).

Definition store_config (c : Configuration) : M D unit :=
  modify (λ d, mkDaemon c (daemon_state_ d) (process_manager_ d) (rpc_server_ d) (posted_ d) (connections_ d)).

Definition store_posted (hs : list handler) : M D unit :=
  modify (λ d, mkDaemon (d_config d) (daemon_state_ d) (process_manager_ d) (rpc_server_ d) hs (connections_ d)).

Definition reload_config_ : M D unit :=
  path ← gets (λ d, config_file (d_config d));
  st ← gets daemon_state_;
  if bool_decide (path = []) then mret tt else
  if bool_decide (st = D_RESTARTING) then mret tt else
  try_catch
    (store_state D_RESTARTING ;;
     new_config ← on_manager (on_world (parse_file path));
     on_manager (sync_processes (dispatch fuel depth) fuel (programs new_config)) ;;
     store_config new_config ;;
     store_state D_RUNNING)
    (λ _, store_state D_RUNNING).

(** [boost::asio::post]: the handler runs before the next event. *)
Definition post (h : handler) : M D unit :=
  hs ← gets posted_; store_posted (hs ++ [h]).

Definition rpc_get_state (_ : list bytes) : M D bytes :=
  st ← gets daemon_state_;
  mret (struct_xml [mkMember #"statecode" (VInt (daemon_state_code st));
                    mkMember #"statename" (VString (daemon_state_name st))]).

Definition rpc_shutdown (_ : list bytes) : M D bytes :=
  post OnShutdown ;; mret value_true.

Definition rpc_reload_config (_ : list bytes) : M D bytes :=
  reload_config_ ;; mret value_true.

Definition rpc_api_version (_ : list bytes) : M D bytes := mret #"<string>3.0</string>".

Definition rpc_get_identification (_ : list bytes) : M D bytes := mret #"<string>supervisor</string>".

Definition rpc_get_pid (_ : list bytes) : M D bytes :=
  pid ← on_manager (on_world (do_call Getpid));
  mret (#"<int>" ++ to_string pid ++ #"</int>").

(** [register_process_handlers] *)
Definition register_process_handlers (hs : Handlers D) : Handlers D :=
  foldl (λ hs h, register_handler h.1 (λ params, on_manager (h.2 params)) hs) hs
    [(#"supervisor.getAllProcessInfo", rpc_get_all_process_info);
     (#"supervisor.getProcessInfo", rpc_get_process_info);
     (#"supervisor.startProcess", rpc_start_process);
     (#"supervisor.stopProcess", rpc_stop_process (dispatch fuel depth) fuel);
     (#"supervisor.startAllProcesses", rpc_start_all_processes);
     (#"supervisor.stopAllProcesses", rpc_stop_all_processes (dispatch fuel depth) fuel)].

Definition register_rpc_handlers_ : Handlers D :=
  foldl (λ hs h, register_handler h.1 h.2 hs) (register_process_handlers [])
    [(#"supervisor.getState", rpc_get_state);
     (#"supervisor.shutdown", rpc_shutdown);
     (#"supervisor.reloadConfig", rpc_reload_config);
     (#"supervisor.getVersion", rpc_api_version);
     (#"supervisor.getSupervisorVersion", rpc_api_version);
     (#"supervisor.getAPIVersion", rpc_api_version);
     (#"supervisor.getIdentification", rpc_get_identification);
     (#"supervisor.getPID", rpc_get_pid)].

(** [Supervisord::Supervisord], in a world [w] and with the future
    [agenda]. *)
Definition construct (config : Configuration) : M D unit :=
  on_manager (mfor (programs config) add_process).

Definition new_daemon (config : Configuration) (info : bool) (agenda : list (list handler)) (w : World K) : D :=
  mkDaemon config D_RUNNING (mkManager ∅ [] 0 [] agenda false info [] w)
    (create_server (socket_file (unix_http_server config))) [] ∅.

Definition stop_daemon : M D unit :=
  on_manager (stop_all (dispatch fuel depth) fuel ;; modify (set_stopped true)).

(** The completion of an accept that is outstanding outlives the server, to
    which it refers, and is what the context then finds first; a context
    that was stopped runs it no more. *)
Definition outlived (d : D) : bool := accepting (rpc_server_ d) && negb (stopped (process_manager_ d)).

Definition abort_accept (s : Manager K) : Manager K :=
  set_agenda (match agenda s with [] => [[OnAborted]] | hs :: later => (OnAborted :: hs) :: later end) s.

(** [Supervisord::~Supervisord] destroys the server, then the process
    manager. *)
Definition destroy_daemon : M D unit :=
  on_server stop_server ;;
  b ← gets outlived;
  (if (b : bool) then on_manager (modify abort_accept) else mret tt) ;;
  on_manager (shut_down (dispatch fuel depth) fuel).

(** A completion to come holds the connection: of a read begun, or of the
    write of the response. *)
Definition writing (c : Connection) : bool := negb (bool_decide (responses c = [])) && sock_open c.
Definition held (c : Connection) : bool := reading c || writing c.

Definition set_connections (cs : gmap nat Connection) (d : D) : D :=
  mkDaemon (d_config d) (daemon_state_ d) (process_manager_ d) (rpc_server_ d) (posted_ d) cs.

Definition keep_connection (n : nat) (c : Connection) (d : D) : D :=
  set_connections (if held c then <[n := c]> (connections_ d) else delete n (connections_ d)) d.

(** Runs [m] on the [n]-th connection, which is destroyed when nothing
    holds it any more. *)
Definition on_connection (n : nat) (c : Connection) (m : M (Connection * D) unit) : M D unit := λ d,
  match m (c, d) with
  | Ret _ (c, d) => Ret tt (keep_connection n c d)
  | Throw e (c, d) => Throw e (keep_connection n c d)
  | Halt h (c, d) => Halt h (keep_connection n c d)
  | Undef => Undef
  | NoFuel => NoFuel
  end.

(** The completion of a read or write of the [n]-th connection, if there
    is one to come. *)
Definition complete (n : nat) (outstanding : Connection → bool) (m : M (Connection * D) unit) : M D unit :=
  c ← gets (λ d, connections_ d !! n);
  match c with
  | Some c => if outstanding c then on_connection n c m else mret tt
  | None => mret tt
  end.

(** The function every connection is given; the daemon owns the server. *)
Definition rpc_dispatcher : option (bytes → list bytes → M D bytes) :=
  Some (dispatcher (Some register_rpc_handlers_)).

Definition handle_event (e : daemon_event) : M D unit :=
  match e with
  | Accepted error =>
    v ← gets rpc_server_;
    if negb (accepting v) then mret tt else
    (if error then mret tt else on_connection (accepted v) new_connection start_connection) ;;
    on_server (handle_accept_ error)
  | Received n error data => complete n reading (handle_read_ rpc_dispatcher error data)
  | Written n => complete n writing handle_write_
  | Terminate => store_state D_SHUTDOWN ;; stop_daemon
  | Hangup => reload_config_
  | Managed h => on_manager (dispatch fuel depth h)
  end.

Definition run_posted : M D unit :=
  hs ← gets posted_;
  store_posted [] ;;
  on_manager (mfor hs (λ h,
    st ← gets stopped;
    if (st : bool) then mret tt else dispatch fuel depth h)).

(** [io_context_.run()]: until the context is stopped. *)
Fixpoint run_events (events : list daemon_event) : M D unit :=
  run_posted ;;
  st ← gets (λ d, stopped (process_manager_ d));
  match events with
  | [] => mret tt
  | e :: events => if (st : bool) then mret tt else handle_event e ;; run_events events
  end.

Definition run (events : list daemon_event) : M D unit :=
  on_server start_server ;;
  on_manager start_all ;;
  run_events events ;;
  on_server stop_server.
End daemon.
