(* ===== verification/SupervisordSpec.v ===== *)
(** * Properties of the daemon

    What the requests to start and to stop a process answer, and what a
    reload does. *)

From Stdlib Require Import ZArith NArith Ascii String.
From stdpp Require Import base gmap sets list strings.
From S2P Require Import Prelude CppString StdMap BoostAlgo PTree ConfigTypes Files LogWriter Kernel Sim.
From S2P Require Import Secure Process RpcServer ConfigParser ConfigParserSpec ProcessManager.
From S2P Require Import ProcessManagerSpec Supervisord.

(** ** Blocks with a shared pointer *)

Section shared.
Context {K : Type} `{!Kernel K}.
Local Abbreviation PM := (Manager K).

Definition pin (id : nat) (s : PM) : PM := set_pinned (id :: pinned s) s.
Definition unpin (s : PM) : PM := set_pinned (tail (pinned s)) s.

Lemma unpin_pin id s : unpin (pin id s) = s.
Proof. by destruct s. Qed.

Lemma release_kept id (s : PM) : id ∈ (process_map_ s).*2 → release id s = Ret tt s.
Proof.
  intros Hid. unfold release. run. rewrite (bool_decide_eq_true_2 (id ∈ (process_map_ s).*2)) by done.
  by rewrite orb_true_r.
Qed.

(** When the map still refers to the process at the end. *)
Lemma ewp_with_pointer {A} id (m : M PM A) (Q : A → PM → Prop) (E : exn → PM → Prop) s :
  ewp m (λ a s', id ∈ (process_map_ s').*2 ∧ Q a (unpin s'))
    (λ e s', id ∈ (process_map_ s').*2 ∧ E e (unpin s')) (pin id s) →
  ewp (with_pointer id m) Q E s.
Proof.
  intros Hm. unfold with_pointer. apply ewp_bind, ewp_modify, ewp_scoped. fold (pin id s).
  eapply ewp_mono; [exact Hm|..]; intros x s' [Hid HQ]; apply twp_bind, twp_modify; fold (unpin s');
    unfold twp; by rewrite release_kept.
Qed.

Lemma ewp_throws {A} (m : M PM A) e s :
  ewp m (λ _ _, False) (λ e' s', e' = e ∧ s' = s) s → m s = Throw e s.
Proof. unfold ewp. destruct (m s); naive_solver. Qed.

Lemma ewp_error {A} msg (Q : A → PM → Prop) (E : exn → PM → Prop) s :
  E (mkExn RuntimeError msg) s → ewp (runtime_error msg) Q E s.
Proof. done. Qed.

(** A request that names a process of the map. *)
Lemma ewp_named n rest m id (Q : bytes → PM → Prop) (E : exn → PM → Prop) s :
  sm_find n (process_map_ s) = Some id →
  ewp (m n id) (λ a s', id ∈ (process_map_ s').*2 ∧ Q a (unpin s'))
    (λ e s', id ∈ (process_map_ s').*2 ∧ E e (unpin s')) (pin id s) →
  ewp (with_named_process (n :: rest) m) Q E s.
Proof.
  intros Hf Hm. unfold with_named_process, get_process, find_process. apply ewp_bind, ewp_gets.
  rewrite Hf. by apply ewp_with_pointer.
Qed.

Lemma in_map n id (s : PM) : sm_find n (process_map_ s) = Some id → id ∈ (process_map_ s).*2.
Proof. intros Hf%sm_find_elem. by apply (list_elem_of_fmap_2 snd) in Hf. Qed.
End shared.

(** ** Starting *)

Section properties.
Context {K : Type} `{!Kernel K} {laws : KernelLaws K}.
Local Abbreviation PM := (Manager K).

Lemma start_step config c l c' : starts l → step config c l c' →
  (∃ pid, l = Spawned pid ∧ 0 < pid ∧ c' = mkCore STARTING pid (c_retry c))
  ∨ (l = SpawnFailed ∧ c' = mkCore (retry_state config (c_retry c + 1)) (c_pid c) (c_retry c + 1)).
Proof. intros Hl Hs. destruct Hs; try done; [left; eauto|by right]. Qed.

(** [start_process] of a process that is neither RUNNING nor STARTING. *)
Lemma start_named n id p (s : PM) :
  sm_find n (process_map_ s) = Some id → heap s !! id = Some p →
  state_ p ≠ RUNNING → state_ p ≠ STARTING → 0 ≤ retry_count_ p < INT_MAX →
  twp (start_process n) (λ ok s', process_map_ s' = process_map_ s ∧ pinned s' = pinned s
    ∧ ∃ p' l, heap s' = <[id := p']> (heap s) ∧ (ok = true ↔ l ≠ SpawnFailed)
      ∧ starts l ∧ step (config_ p) (core p) l (core p')
      ∧ effect (config_ p) l (core p) (world s) (world s')) s.
Proof.
  intros Hf Hp Hr Hs Hn. unfold start_process, find_process. apply twp_bind, twp_gets. rewrite Hf.
  unfold with_pointer. apply twp_bind, twp_modify, twp_scoped.
  apply (twp_on_object id _ _ _ p); [done|].
  eapply twp_mono; [apply start_result; [done..|unfold INT_MIN; lia]|].
  intros ok [p' w'] (Hfix & l & Hl & Hok & Hst & He). apply twp_bind, twp_modify.
  unfold twp. rewrite release_kept by (by eapply (in_map n)).
  cbn. split_and!; [done..|]. exists p', l. by split_and!.
Qed.

(** The start of the process a request names. *)
Definition start_granted (s : PM) (id : nat) (p : Process) (s' : PM) : Prop :=
  process_map_ s' = process_map_ s ∧ ∃ p' pid, heap s' = <[id := p']> (heap s)
    ∧ 0 < pid ∧ core p' = mkCore STARTING pid (retry_count_ p)
    ∧ marks (wtrace (world s')) = MForked pid :: marks (wtrace (world s)).

Definition start_refused (s : PM) (id : nat) (p : Process) (s' : PM) : Prop :=
  process_map_ s' = process_map_ s ∧ ∃ p', heap s' = <[id := p']> (heap s)
    ∧ core p' = mkCore (retry_state (config_ p) (retry_count_ p + 1)) (pid_ p) (retry_count_ p + 1)
    ∧ marks (wtrace (world s')) = marks (wtrace (world s)).

(** C20: What [startProcess] answers.  An unknown name is BAD_NAME, a
    process that is RUNNING or STARTING is ALREADY_STARTED, and neither
    changes anything; any other process gets one attempt: true is answered
    exactly when it is STARTING with a new child, SPAWN_ERROR when the
    attempt failed, was counted, and left it in BACKOFF or FATAL.  No other
    process changes. *)
Theorem start_process_rpc n rest (s : PM) :
  match sm_find n (process_map_ s) with
  | None => rpc_start_process (n :: rest) s = Throw (mkExn RuntimeError (#"BAD_NAME: " ++ n)) s
  | Some id => ∀ p, heap s !! id = Some p → 0 ≤ retry_count_ p < INT_MAX →
    if decide (state_ p = RUNNING ∨ state_ p = STARTING)
    then rpc_start_process (n :: rest) s = Throw (mkExn RuntimeError (#"ALREADY_STARTED: " ++ n)) s
    else ewp (rpc_start_process (n :: rest))
           (λ r s', r = value_true ∧ start_granted s id p s')
           (λ e s', e = mkExn RuntimeError (#"SPAWN_ERROR: " ++ n) ∧ start_refused s id p s') s
  end.
Proof.
  destruct (sm_find n (process_map_ s)) as [id|] eqn:Hf; cycle 1.
  { apply ewp_throws. unfold rpc_start_process, with_named_process, get_process, find_process.
    apply ewp_bind, ewp_gets. rewrite Hf. by apply ewp_error. }
  intros p Hp Hn. pose proof (in_map _ _ _ Hf) as Hid.
  destruct (decide _) as [Hst|Hst].
  - apply ewp_throws. apply (ewp_named n rest _ id); [done|].
    apply ewp_bind, (ewp_object id _ _ (pin id s) p); [done|].
    assert (bool_decide (state_ p = RUNNING) || bool_decide (state_ p = STARTING) = true) as ->.
    { rewrite orb_true_iff, !bool_decide_eq_true. done. }
    apply ewp_error. split; [done|]. split; [done|apply unpin_pin].
  - apply Decidable.not_or in Hst as [Hr Hs]. apply (ewp_named n rest _ id); [done|].
    apply ewp_bind, (ewp_object id _ _ (pin id s) p); [done|].
    rewrite !bool_decide_eq_false_2 by done. cbn [orb]. apply ewp_bind, twp_ewp.
    eapply twp_mono; [by apply (start_named n id p)|].
    intros ok s' (Hmap & Hpin & p' & l & Hh & Hok & Hl & Hstep & _ & He).
    destruct (start_step _ _ _ _ Hl Hstep) as [(pid & -> & Hpid & Hc)|[-> Hc]].
    + assert (ok = true) as -> by (by apply Hok). cbn [negb]. apply ewp_ret.
      split; [by rewrite Hmap|]. split; [done|]. split; [done|]. exists p', pid. by destruct He.
    + assert (ok = false) as -> by (destruct ok; [by destruct (proj1 Hok eq_refl eq_refl)|done]). cbn [negb].
      apply ewp_error. split; [by rewrite Hmap|]. split; [done|]. split; [done|]. exists p'. by destruct He.
Qed.

(** C28: A process without a child cannot be stopped.  [stopProcess] answers
    BAD_NAME for an unknown name and NOT_RUNNING for a process that is
    STOPPED, EXITED or FATAL or has no child, and changes nothing: in
    particular a process in BACKOFF keeps its schedule, and the next
    [update]s will start it. *)
Theorem stop_process_rpc_refused n rest (d : handler → M PM unit) fuel (s : PM) :
  match sm_find n (process_map_ s) with
  | None => rpc_stop_process d fuel (n :: rest) s = Throw (mkExn RuntimeError (#"BAD_NAME: " ++ n)) s
  | Some id => ∀ p, heap s !! id = Some p →
    state_ p = STOPPED ∨ state_ p = EXITED ∨ state_ p = FATAL ∨ pid_ p ≤ 0 →
    rpc_stop_process d fuel (n :: rest) s = Throw (mkExn RuntimeError (#"NOT_RUNNING: " ++ n)) s
  end.
Proof.
  destruct (sm_find n (process_map_ s)) as [id|] eqn:Hf; cycle 1.
  { apply ewp_throws. unfold rpc_stop_process, with_named_process, get_process, find_process.
    apply ewp_bind, ewp_gets. rewrite Hf. by apply ewp_error. }
  intros p Hp Hst. pose proof (in_map _ _ _ Hf) as Hid.
  apply ewp_throws. apply (ewp_named n rest _ id); [done|].
  apply ewp_bind, (ewp_object id _ _ (pin id s) p); [done|].
  destruct (bool_decide (state_ p = STOPPED) || bool_decide (state_ p = EXITED)
            || bool_decide (state_ p = FATAL)) eqn:Eb.
  { apply ewp_error. split; [done|]. split; [done|apply unpin_pin]. }
  rewrite !orb_false_iff, !bool_decide_eq_false in Eb.
  assert (Hpid : pid_ p ≤ 0) by tauto.
  apply ewp_bind. unfold stop_process, find_process. apply ewp_bind, ewp_gets.
  change (process_map_ (pin id s)) with (process_map_ s). rewrite Hf.
  apply ewp_with_pointer, ewp_bind, twp_ewp.
  apply (twp_on_object id _ _ _ p); [done|].
  unfold Process.stop. apply twp_bind, twp_the. cbn [fst].
  destruct (Z.leb_spec (pid_ p) 0); [|lia]. cbn [orb]. apply twp_ret, ewp_ret.
  split; [done|]. apply ewp_error. cbn. split; [done|]. split; [done|]. destruct s; cbn. unfold unpin, set_world, set_heap, set_pinned. cbn.
  by rewrite insert_id.
Qed.

Context {may_raise : Raised}.

(** What a reload leaves: the old configuration and processes, or the new
    configuration, with exactly its processes; or, after an exception of a
    handler that ran while it waited, the old configuration with the
    processes that there were then. *)
Definition reload_refused {N} m cfgs T P C b (d d' : Daemon K) : Prop :=
  d_config d' = d_config d ∧ inv N m cfgs T P C b (process_manager_ d')
  ∧ ∃ w, process_manager_ d' = set_world w (process_manager_ d).

Definition reload_done {N W} m cfgs T P C b (d' : Daemon K) : Prop :=
  ∃ m' cfgs', static_ok N W m' cfgs' ∧ inv N m' cfgs' T P C b (process_manager_ d')
    ∧ (∀ c, c ∈ programs (d_config d') → ∃ id, entry m' cfgs' (name c) = Some (id, Some c)
         ∧ ∀ id0, entry m cfgs (name c) = Some (id0, Some c) → id = id0)
    ∧ ∀ n, n ∉ name <$> programs (d_config d') → entry m' cfgs' n = None.

Definition reload_cut_short {N W} (m : smap nat) T P C B b (d d' : Daemon K) : Prop :=
  (∃ e, raised e) ∧ d_config d' = d_config d
  ∧ ∃ m' cfgs', static_ok N W m' cfgs' ∧ inv N m' cfgs' T P C b (process_manager_ d')
      ∧ Z.of_nat (length m') ≤ Z.of_nat (length m) `max` B.
End properties.

(** The names a reload leaves in the map, and those it reads after they were
    freed: none when the configuration is refused, otherwise the first of the
    processes that the new configuration does not have. *)
Definition reload_accounts `{PropertyTree, StringAlgo, EnvGrammar} {K} `{!Kernel K} (d d' : Daemon K) : Prop :=
  let s := process_manager_ d in let s' := process_manager_ d' in
  (process_map_ s' = process_map_ s ∧ freed_reads s' = freed_reads s)
  ∨ ∃ c w' ns, parse_file (config_file (d_config d)) (world s) = Ret c w'
      ∧ ns `prefix_of` gone (programs c) (process_map_ s)
      ∧ freed_reads s' = reads_after (log_info s) ns (freed_reads s)
      ∧ ∀ n, n ∈ sm_keys (process_map_ s') → n ∈ sm_keys (process_map_ s) ∨ n ∈ name <$> programs c.

(** A reload that is not refused at once. *)
Lemma reload_ok `{PropertyTree, StringAlgo, EnvGrammar} {K} `{!Kernel K} {laws : KernelLaws K} {may_raise : Raised}
    N W m cfgs T P C B b fuel depth (d : Daemon K) :
  1 ≤ N → 0 ≤ W < INT_MAX →
  static_ok N W m cfgs → inv N m cfgs T P C (B + b) (process_manager_ d) →
  pinned (process_manager_ d) = [] →
  P ≤ Z.of_nat depth → 0 ≤ b → 0 ≤ B → (W + 2) * NS + C + N < Z.of_nat fuel → Z.of_nat (length m) + B ≤ N →
  (∀ c w', parse_file (config_file (d_config d)) (world (process_manager_ d)) = Ret c w' →
     (∀ p, p ∈ programs c → program_ok W p) ∧ NoDup (name <$> programs c)
     ∧ Z.of_nat (length (programs c)) ≤ B) →
  config_file (d_config d) ≠ [] → daemon_state_ d ≠ D_RESTARTING →
  twp (reload_config_ fuel depth) (λ _ d', daemon_state_ d' = D_RUNNING
    ∧ pinned (process_manager_ d') = [] ∧ posted_ d' = posted_ d ∧ connections_ d' = connections_ d
    ∧ log_info (process_manager_ d') = log_info (process_manager_ d)
    ∧ reload_accounts d d'
    ∧ (reload_refused (N := N) m cfgs T P C (B + b) d d'
       ∨ reload_cut_short (N := N) (W := W) m T P C B b d d'
       ∨ reload_done (N := N) (W := W) m cfgs T P C b d'
         ∧ ∃ w', parse_file (config_file (d_config d)) (world (process_manager_ d)) = Ret (d_config d') w')) d.
Proof.
  intros HN HW Hst Hi Hpin HP Hb HB HC Hlen Hnew Hp Hr. unfold reload_config_.
  set (path := config_file (d_config d)) in *. unfold twp. run. cbn. fold path.
  rewrite !bool_decide_eq_false_2 by done.
  unfold try_catch, store_state, store_config, on_manager, on_world, zoom. run. cbn.
  pose proof (parse_file_ok path (world (process_manager_ d))) as Hok. unfold ewp in Hok.
  destruct (parse_file path (world (process_manager_ d))) as [c w'|e w'| | |] eqn:Eparse; try done.
  - destruct Hok as [_ Hg]. destruct (Hnew c w' eq_refl) as (Hprogs & Hnd & Hlc).
    assert (Hs : synced N W T P C (Z.of_nat (length (programs c)) + b) (log_info (process_manager_ d))
        (freed_reads (process_manager_ d)) m cfgs (set_world w' (process_manager_ d))).
    { split_and!; [done| |unfold locals; simpl; by rewrite Hpin]. eapply (inv_mono N m cfgs T P C (B + b)); [reflexivity..|lia|].
      apply inv_world; [by apply grew_quiet|done]. }
    pose proof (sync_all_ok N W HN HW m cfgs T P C b _ _ fuel depth (programs c) _ Hs Hprogs Hnd
      HP Hb HC ltac:(lia)) as Hsync.
    unfold ewp in Hsync. destruct (sync_processes _ _ _ _) as [u s'|e s'| | |]; try done.
    + destruct Hsync as (m' & cfgs' & (Hst' & Hi2 & [= Hpin2 HL HF]) & Hin & Hout). cbn. split_and!; [done..| |].
      { right. exists c, w', (gone (programs c) m). cbn. rewrite (i_map _ _ _ _ _ _ _ _ Hi).
        split_and!; [done..|]. intros n Hn. right. rewrite (i_map _ _ _ _ _ _ _ _ Hi2) in Hn. by apply (entries_keys m' cfgs'). }
      right. right. split; [by exists m', cfgs'|by exists w'].
    + destruct Hsync as (He & m' & cfgs' & ns & Hns & (Hst' & Hi2 & [= Hpin2 HL HF]) & Hlm & Hk). cbn. split_and!; [done..| |].
      { right. exists c, w', ns. cbn. by rewrite (i_map _ _ _ _ _ _ _ _ Hi), (i_map _ _ _ _ _ _ _ _ Hi2). }
      right. left. split; [by exists e|]. split; [done|]. exists m', cfgs'. split_and!; [done..|cbn; lia].
  - cbn. split_and!; [done..|by left|]. left. split; [done|]. split; [|by exists w'].
    apply inv_world; [by apply grew_quiet|done].
Qed.

(** C6: A reload is all or nothing.  When the configuration is refused, the
    configuration and the processes stay as they are; when it is accepted,
    the daemon ends with the new configuration and exactly its processes,
    those of unchanged programs being the same objects as before.  Only an
    exception of a handler that runs while the reload waits can cut it
    short; it then has the old configuration, with the invariant.  In every
    case the reload terminates, with the daemon in its RUNNING state again,
    and the strings it read after they had been freed are names of processes
    that the new configuration does not have; and while a reload is in
    progress, or without the path of a file, nothing happens. *)
Theorem reload_all_or_nothing `{PropertyTree, StringAlgo, EnvGrammar} {K} `{!Kernel K} {laws : KernelLaws K} {may_raise : Raised}
    N W m cfgs T P C B b fuel depth (d : Daemon K) :
  1 ≤ N → 0 ≤ W < INT_MAX →
  static_ok N W m cfgs → inv N m cfgs T P C (B + b) (process_manager_ d) →
  pinned (process_manager_ d) = [] →
  P ≤ Z.of_nat depth → 0 ≤ b → 0 ≤ B → (W + 2) * NS + C + N < Z.of_nat fuel → Z.of_nat (length m) + B ≤ N →
  (∀ c w', parse_file (config_file (d_config d)) (world (process_manager_ d)) = Ret c w' →
     (∀ p, p ∈ programs c → program_ok W p) ∧ NoDup (name <$> programs c)
     ∧ Z.of_nat (length (programs c)) ≤ B) →
  if bool_decide (config_file (d_config d) = []) || bool_decide (daemon_state_ d = D_RESTARTING)
  then reload_config_ fuel depth d = Ret tt d
  else twp (reload_config_ fuel depth) (λ _ d', daemon_state_ d' = D_RUNNING
         ∧ reload_accounts d d'
         ∧ (reload_refused (N := N) m cfgs T P C (B + b) d d'
            ∨ reload_cut_short (N := N) (W := W) m T P C B b d d'
            ∨ reload_done (N := N) (W := W) m cfgs T P C b d'
              ∧ ∃ w', parse_file (config_file (d_config d)) (world (process_manager_ d)) = Ret (d_config d') w')) d.
Proof.
  intros HN HW Hst Hi Hpin HP Hb HB HC Hlen Hnew.
  case_bool_decide as Hp; [unfold reload_config_; run; by rewrite Hp|].
  case_bool_decide as Hr; cbn [orb].
  { unfold reload_config_. run. by rewrite bool_decide_eq_false_2, bool_decide_eq_true_2. }
  eapply twp_mono; [by apply (reload_ok N W m cfgs T P C B b)|].
  by intros _ d' (? & _ & _ & _ & _ & ? & ?).
Qed.

(** ** The properties at concrete inputs *)

(** The program named in the simulated configuration file. *)
Definition ex_parsed : ProgramConfig := {|
  name := #"web"; command := #"/bin/web -v"; environment := []; directory := None;
  autorestart := true; user := #"root";
  stdout_log := mkLog (Some #"/tmp/web.log") (50 * 1024 * 1024) 10; stderr_log := default_log;
  redirect_stderr := false; startsecs := 1; startretries := 3; stopwaitsecs := 10;
  stopsignal := #"TERM"; umask := None;
|}.

Definition ex_env : EnvGrammar := λ s, Some ([], []).

Definition ex_daemon (m : Manager Sim) : Daemon Sim :=
  mkDaemon (mkConfiguration #"/etc/s.conf" (mkHttp #"/run/s.sock") default_supervisord
              [ex_program #"web"] ∅) D_RUNNING m (create_server #"/run/s.sock") [] ∅.

(** What the simulated file parses to. *)
Definition ex_programs (r : outcome (World Sim) Configuration) : list ProgramConfig :=
  match r with Ret c _ => programs c | _ => [] end.

Lemma ex_parse :
  ex_programs (@parse_file simple_trees classic_algo ex_env Sim _
    (config_file (d_config (ex_daemon ex_manager)))
    (world (process_manager_ (ex_daemon ex_manager)))) = [ex_parsed].
Proof. vm_compute. reflexivity. Qed.

Lemma ex_programs_fit (l : list ProgramConfig) :
  l = [ex_parsed] →
  (∀ p, p ∈ l → program_ok 10 p) ∧ NoDup (name <$> l) ∧ Z.of_nat (length l) ≤ 1.
Proof.
  intros ->. split_and!; [|apply NoDup_singleton|simpl; lia].
  intros p ->%list_elem_of_singleton. constructor; [simpl; lia|simpl; unfold INT_MIN; lia|].
  unfold logs_ok, INT_MIN, INT_MAX. simpl. lia.
Qed.

Lemma reload_all_or_nothing_witness :
  twp (@reload_config_ simple_trees classic_algo ex_env Sim _ ex_fuel 3)
    (λ _ d', daemon_state_ d' = D_RUNNING
       ∧ @reload_accounts simple_trees classic_algo ex_env Sim _ (ex_daemon ex_manager) d'
       ∧ (@reload_refused Sim _ _ no_exceptions 2 ex_map ex_cfgs 0 3 17 (1 + 0) (ex_daemon ex_manager) d'
          ∨ @reload_cut_short Sim _ _ no_exceptions 2 10 ex_map 0 3 17 1 0 (ex_daemon ex_manager) d'
          ∨ @reload_done Sim _ _ no_exceptions 2 10 ex_map ex_cfgs 0 3 17 0 d'
            ∧ ∃ w', @parse_file simple_trees classic_algo ex_env Sim _ (config_file (d_config (ex_daemon ex_manager)))
                (world (process_manager_ (ex_daemon ex_manager))) = Ret (d_config d') w')) (ex_daemon ex_manager).
Proof.
  apply (@reload_all_or_nothing simple_trees classic_algo ex_env Sim _ sim_laws no_exceptions
    2 10 ex_map ex_cfgs 0 3 17 1 0 ex_fuel 3 (ex_daemon ex_manager)).
  - lia.
  - unfold INT_MAX. lia.
  - apply ex_static.
  - apply ex_inv. lia.
  - reflexivity.
  - simpl. lia.
  - lia.
  - lia.
  - unfold ex_fuel, NS. lia.
  - simpl. lia.
  - intros c w' Hc. apply ex_programs_fit. rewrite <- ex_parse, Hc. reflexivity.
Defined.

(** The same manager with the process stopped. *)
Definition ex_stopped : Manager Sim :=
  set_heap {[ 0%nat := set_state STOPPED (set_pid (-1) ex_running) ]} ex_manager.

Lemma start_process_rpc_witness :
  rpc_start_process [ #"web"] ex_manager
    = Throw (mkExn RuntimeError #"ALREADY_STARTED: web") ex_manager
  ∧ ewp (rpc_start_process [ #"web"])
      (λ r s', r = value_true
         ∧ start_granted ex_stopped 0 (set_state STOPPED (set_pid (-1) ex_running)) s')
      (λ e s', e = mkExn RuntimeError #"SPAWN_ERROR: web"
         ∧ start_refused ex_stopped 0 (set_state STOPPED (set_pid (-1) ex_running)) s') ex_stopped.
Proof.
  split.
  - apply (start_process_rpc #"web" [] ex_manager ex_running); [reflexivity|].
    vm_compute. split; congruence.
  - apply (start_process_rpc #"web" [] ex_stopped (set_state STOPPED (set_pid (-1) ex_running)));
      [reflexivity|]. vm_compute. split; congruence.
Defined.

Lemma stop_process_rpc_refused_witness :
  rpc_stop_process (λ _, mret tt) 5 [ #"web"] ex_stopped
    = Throw (mkExn RuntimeError #"NOT_RUNNING: web") ex_stopped
  ∧ rpc_stop_process (λ _, mret tt) 5 [ #"web"]
      (set_heap {[ 0%nat := set_state BACKOFF (set_pid (-1) ex_running) ]} ex_manager)
    = Throw (mkExn RuntimeError #"NOT_RUNNING: web")
        (set_heap {[ 0%nat := set_state BACKOFF (set_pid (-1) ex_running) ]} ex_manager).
Proof.
  split.
  - apply (stop_process_rpc_refused #"web" [] (λ _, mret tt) 5 ex_stopped
      (set_state STOPPED (set_pid (-1) ex_running))); [reflexivity|by left].
  - apply (stop_process_rpc_refused #"web" [] (λ _, mret tt) 5
      (set_heap {[ 0%nat := set_state BACKOFF (set_pid (-1) ex_running) ]} ex_manager)
      (set_state BACKOFF (set_pid (-1) ex_running))); [reflexivity|].
    right. right. right. simpl. lia.
Defined.

(** ** An exception while a reload waits

    A connection with a malformed Content-Length throws out of its handler.
    From the event loop of the daemon that ends the daemon; from the event
    loop in which a reload waits for a child, it ends the reload instead,
    whose handler takes it for a failure of its own: the daemon goes on
    with the old configuration, the process of a program that was removed
    or changed is left STOPPING, and the other programs are as they were. *)
Definition ex_interrupted : Daemon Sim :=
  ex_daemon (set_agenda [[OnThrow malformed_length]] ex_manager).

Lemma reload_abandoned :
  ∃ d, @reload_config_ simple_trees classic_algo ex_env Sim stubborn 2000 4 ex_interrupted = Ret tt d
    ∧ daemon_state_ d = D_RUNNING ∧ d_config d = d_config ex_interrupted
    ∧ (state_ <$> heap (process_manager_ d) !! 0%nat) = Some STOPPING
    ∧ pinned (process_manager_ d) = [].
Proof. vm_compute. eexists. by split_and!. Qed.
