(* ===== verification/DaemonSpec.v ===== *)
(** * The daemon as a whole

    From its construction to the end of its event loop, with connections,
    requests, signals, reloads and the events of the process manager: the
    invariant of the process manager is kept by every event, at the price
    of the starts the event may cause. *)

From Stdlib Require Import ZArith NArith Ascii String.
From stdpp Require Import base gmap sets list strings.
From S2P Require Import Prelude CppString StdMap BoostAlgo PTree ConfigTypes Files LogWriter Kernel Sim.
From S2P Require Import Secure Process XmlRpc RpcConnection RpcConnectionSpec RpcServer ConfigParser ConfigParserSpec.
From S2P Require Import ProcessManager ProcessManagerSpec Supervisord SupervisordSpec.

(** ** What a run is told

    Whether a sink takes records of level info, and the configurations it
    may be given.  A program that one of them has and another has not can be
    dropped by a reload. *)
Class Accounts := mkAccounts {
  info_taken : bool;
  known : Configuration → Prop;
}.

Definition listed `{Accounts} (n : bytes) : Prop := ∃ c, known c ∧ n ∈ name <$> programs c.
Definition dropped `{Accounts} (n : bytes) : Prop := listed n ∧ ∃ c, known c ∧ n ∉ name <$> programs c.

(** The freed strings that were read are names of dropped programs, and
    there are none if no sink takes records of level info. *)
Definition reads_known `{accounts : Accounts} {K} (s : Manager K) : Prop :=
  ∀ n, n ∈ freed_reads s → info_taken = true ∧ dropped n.

(** ** The process manager between events *)

Section manager.
Context {K : Type} `{!Kernel K} {laws : KernelLaws K} {may_raise : Raised} {accounts : Accounts}.
Local Abbreviation PM := (Manager K).
(** At most [B] programs, hence at most [N] processes during a reload;
    [T], [P] and [C] as in [inv]. *)
Context (N W B T P C : Z).

(** [b] starts are still to be paid for. *)
Definition accounted (s : PM) : Prop :=
  log_info s = info_taken ∧ (∀ n, n ∈ sm_keys (process_map_ s) → listed n) ∧ reads_known s.

Definition managed (b : Z) (s : PM) : Prop :=
  accounted s ∧ ∃ m cfgs, static_ok N W m cfgs ∧ Z.of_nat (length m) ≤ B
    ∧ inv N m cfgs T P C b s ∧ pinned s = [].

Lemma managed_same m cfgs b b' s s' :
  accounted s → static_ok N W m cfgs → Z.of_nat (length m) ≤ B → inv N m cfgs T P C b s → pinned s = [] →
  inv N m cfgs T P C b' s' → locals s' = locals s → managed b' s'.
Proof.
  intros (HL & Hlisted & Hreads) Hst Hlen Hi Hpin Hi' [= Hp' HL' HF'].
  split; [|exists m, cfgs; split_and!; [done|done|done|congruence]].
  unfold accounted, reads_known. rewrite HL', HF', (i_map _ _ _ _ _ _ _ _ Hi'), <- (i_map _ _ _ _ _ _ _ _ Hi).
  by split_and!.
Qed.

Lemma inv_settles m cfgs b s : inv N m cfgs T P C b s → settles s.
Proof. intros Hi. by apply (i_settled _ _ _ _ _ _ _ _ Hi). Qed.

(** [op] costs at most [k] starts, whether it returns or throws, which it
    does only with exceptions in [E]. *)
Definition costs {A} (E : exn → Prop) (k : Z) (op : M PM A) : Prop :=
  ∀ b s, 0 ≤ b → managed (k + b) s → ewp op (λ _, managed b) (λ e s', managed b s' ∧ E e) s.

Implicit Types (E : exn → Prop).
Local Abbreviation any := (λ _ : exn, True).

Lemma managed_mono b b' s : b' ≤ b → managed b s → managed b' s.
Proof.
  intros Hb (Hacc & m & cfgs & Hst & Hlen & Hi & Hp). split; [done|]. exists m, cfgs. split_and!; [done|done| |done].
  by apply (inv_mono N m cfgs T P C b).
Qed.

Lemma costs_more {A} E k k' (op : M PM A) : k ≤ k' → costs E k op → costs E k' op.
Proof. intros Hk Hop b s Hb Hs. apply Hop; [done|]. by apply (managed_mono (k' + b)); [lia|]. Qed.

Lemma costs_ret {A} E (a : A) : costs E 0 (mret a).
Proof. intros b s Hb Hs. by apply ewp_ret. Qed.

Lemma costs_bind {A A'} E k k' (op : M PM A) (f : A → M PM A') :
  0 ≤ k' → costs E k op → (∀ a, costs E k' (f a)) → costs E (k + k') (op ≫= f).
Proof.
  intros Hk' Hop Hf b s Hb Hs. apply ewp_bind. eapply ewp_mono.
  - apply (Hop (k' + b)); [lia|]. by replace (k + (k' + b)) with (k + k' + b) by lia.
  - intros a s' Hs'. by apply Hf.
  - intros e s' [Hs' He]. split; [|done]. by apply (managed_mono (k' + b)); [lia|].
Qed.

(** What is proved for any fixed map of processes, of an operation during
    which handlers may throw, and of one that only returns. *)
Lemma costs_hx {A} E k (op : M PM A) :
  (∀ e, raised e → E e) →
  (∀ m cfgs, static_ok N W m cfgs → ∀ b, 0 ≤ b →
     hx (inv N m cfgs T P C (k + b)) op (λ _, inv N m cfgs T P C b) (thrown N m cfgs T P C b)) →
  pins op → costs E k op.
Proof.
  intros HE Hop Hp b s Hb (Hacc & m & cfgs & Hst & Hlen & Hi & Hpin).
  eapply ewp_mono; [apply (ewp_pins op (λ _, inv N m cfgs T P C b) (thrown N m cfgs T P C b) s Hp);
    [by eapply inv_settles|by apply (Hop m cfgs Hst b Hb)]|..].
  - intros a s' [Hi' Hp']. by eapply managed_same.
  - intros e s' [[He Hi'] Hp']. split; [|by apply HE]. by eapply managed_same.
Qed.

Lemma costs_ht {A} E k (op : M PM A) :
  (∀ m cfgs, static_ok N W m cfgs → ∀ b, 0 ≤ b →
     ht (inv N m cfgs T P C (k + b)) op (λ _, inv N m cfgs T P C b)) →
  pins op → costs E k op.
Proof.
  intros Hop Hp b s Hb (Hacc & m & cfgs & Hst & Hlen & Hi & Hpin). apply twp_ewp.
  eapply twp_mono; [apply (twp_pins op (λ _, inv N m cfgs T P C b) s Hp);
    [by eapply inv_settles|by apply (Hop m cfgs Hst b Hb)]|].
  intros a s' [Hi' Hp']. by eapply managed_same.
Qed.

(** *** Requests *)

Context (HN : 1 ≤ N).

Lemma info_same p w : twp get_info (λ _ s, moved (λ _, False) p w s) (p, w).
Proof.
  assert (Ht : total (λ s, s.1 = p ∧ quiet w s.2) get_info).
  { assert (Hc : ∀ c, quiet_call c = true → total (λ s, s.1 = p ∧ quiet w s.2) (call c)).
    { intros c Hq [p' w'] [Hp Hw]. unfold call, in_world, zoom, do_call. cbn in *.
      destruct (sys c (wk w')) as [r k] eqn:E. split; [done|].
      etransitivity; [exact Hw|]. by apply quiet_sys. }
    unfold get_info, get_uptime, now, the.
    repeat first [progress cbv zeta beta | apply total_gets | apply total_ret | match goal with |- @total _ _ _ (@call _ _ ?c) => exact (Hc c eq_refl) end
      | apply total_bind; [|intros ?] | match goal with |- total _ (match ?b with _ => _ end) => destruct b end]. }
  eapply twp_total; [exact Ht|by split|]. intros a [p' w'] [Hp Hw]. cbn in *. subst p'.
  split; [done|]. left. by split.
Qed.

Lemma ht_info m cfgs b id : static_ok N W m cfgs → id ∈ m.*2 → 0 ≤ b →
  ht (inv N m cfgs T P C b) (on_object id get_info) (λ _, inv N m cfgs T P C b).
Proof.
  intros Hst Hid Hb. apply (ht_op N W m cfgs HN Hst T P C 0 b id (λ _, False)); [done|lia|done|done|].
  intros p w _ _ _. apply info_same.
Qed.

Lemma all_info_ok E : costs E 0 get_all_process_info.
Proof.
  apply costs_ht.
  - intros m cfgs Hst b Hb. unfold get_all_process_info.
    eapply ht_bind; [by apply ht_all_processes|]. intros ids s [Hi ->].
    assert (Hall : ∀ ids, (∀ id, id ∈ ids → id ∈ m.*2) → ht (inv N m cfgs T P C b)
      (foldr (λ id rest, info ← on_object id get_info; infos ← rest; mret (info :: infos)) (mret []) ids)
      (λ _, inv N m cfgs T P C b)).
    { induction ids as [|id ids IH]; intros Hids; cbn [foldr]; [apply ht_ret|].
      eapply ht_bind; [apply ht_info; [done|apply Hids; left|done]|]. intros info.
      eapply ht_bind; [apply IH; intros; apply Hids; by right|]. intros infos. apply ht_ret. }
    by apply (Hall m.*2).
  - unfold get_all_process_info. apply pins_bind; [done|]. intros ids.
    induction ids as [|id ids IH]; cbn [foldr]; [done|].
    apply pins_bind; [apply pins_on_object|]. intros info. by apply pins_bind.
Qed.

(** A handler for a process of the map, run with a pointer to it. *)
Lemma costs_named k params (f : bytes → nat → M PM bytes) : 0 ≤ k →
  (∀ m cfgs, static_ok N W m cfgs → ∀ n id b s, id ∈ m.*2 → 0 ≤ b → inv N m cfgs T P C (k + b) s →
     ewp (f n id) (λ _ s', inv N m cfgs T P C b s' ∧ locals s' = locals s)
       (λ _ s', inv N m cfgs T P C b s' ∧ locals s' = locals s) s) →
  costs any k (with_named_process params f).
Proof.
  intros Hk Hf b s Hb (Hacc & m & cfgs & Hst & Hlen & Hi & Hpin).
  assert (Hs : managed b s).
  { split; [done|]. exists m, cfgs. split_and!; [done|done| |done]. by apply (inv_mono N m cfgs T P C (k + b)); [lia..|]. }
  destruct params as [|n rest]; [by apply ewp_error|].
  destruct (sm_find n (process_map_ s)) as [id|] eqn:Hfind; cycle 1.
  { unfold with_named_process, get_process, find_process. apply ewp_bind, ewp_gets. rewrite Hfind.
    by apply ewp_error. }
  pose proof (in_map _ _ _ Hfind) as Hid.
  assert (Hback : ∀ s', inv N m cfgs T P C b s' ∧ locals s' = locals (pin id s) →
    id ∈ (process_map_ s').*2 ∧ managed b (unpin s')).
  { intros s' [Hi' [= Hp' HL' HF']]. rewrite (i_map _ _ _ _ _ _ _ _ Hi'), <- (i_map _ _ _ _ _ _ _ _ Hi).
    split; [done|]. eapply (managed_same m cfgs _ b s); try done; [by apply inv_pinned|].
    unfold locals, unpin. cbn. rewrite Hp', HL', HF'. done. }
  apply (ewp_named n rest f id); [done|]. rewrite (i_map _ _ _ _ _ _ _ _ Hi) in Hid.
  eapply ewp_mono; [apply (Hf m cfgs Hst n id b); [done|done|by apply inv_pinned]| |].
  - intros a s'. apply Hback.
  - intros e s' [Hid' Hs']%Hback. done.
Qed.

(** Statements for which pointers do not matter. *)
Lemma ewp_hx {A} m cfgs b b' (op : M PM A) (Q : A → PM → Prop) (E : exn → PM → Prop) s :
  hx (inv N m cfgs T P C b) op (λ _, inv N m cfgs T P C b') (thrown N m cfgs T P C b') → pins op →
  inv N m cfgs T P C b s →
  (∀ a s', inv N m cfgs T P C b' s' → locals s' = locals s → Q a s') →
  (∀ e s', inv N m cfgs T P C b' s' → locals s' = locals s → E e s') → ewp op Q E s.
Proof.
  intros Hop Hp Hi HQ HE. eapply ewp_mono; [apply (ewp_pins op (λ _, inv N m cfgs T P C b') (thrown N m cfgs T P C b') s Hp);
    [by eapply inv_settles|by apply Hop]|..].
  - intros a s' []. by apply HQ.
  - intros e s' [[_ ?] ?]. by apply HE.
Qed.

Lemma ewp_ht {A} m cfgs b b' (op : M PM A) (Q : A → PM → Prop) (E : exn → PM → Prop) s :
  ht (inv N m cfgs T P C b) op (λ _, inv N m cfgs T P C b') → pins op →
  inv N m cfgs T P C b s →
  (∀ a s', inv N m cfgs T P C b' s' → locals s' = locals s → Q a s') → ewp op Q E s.
Proof.
  intros Hop Hp Hi HQ. apply twp_ewp.
  eapply twp_mono; [apply (twp_pins op (λ _, inv N m cfgs T P C b') s Hp); [by eapply inv_settles|by apply Hop]|].
  intros a s' []. by apply HQ.
Qed.

Lemma get_process_info_ok params : costs any 0 (rpc_get_process_info params).
Proof.
  apply costs_named; [done|]. intros m cfgs Hst n id b s Hid Hb Hi. apply ewp_bind.
  eapply (ewp_ht m cfgs b b); [by apply ht_info|apply pins_on_object|done|].
  intros info s' Hi' Hp'. by apply ewp_ret.
Qed.

Lemma start_process_ok params : costs any N (rpc_start_process params).
Proof.
  apply costs_named; [lia|]. intros m cfgs Hst n id b s Hid Hb Hi.
  assert (Hi0 : inv N m cfgs T P C b s) by (by apply (inv_mono N m cfgs T P C (N + b)); [lia..|]).
  destruct (object_there N W m cfgs Hst _ _ _ _ _ _ Hi Hid) as (p & Hp & _).
  apply ewp_bind, (ewp_object id _ _ s p); [done|].
  destruct (_ || _); [by apply ewp_error|]. apply ewp_bind.
  eapply (ewp_ht m cfgs (1 + b) b); [by apply (ht_start_process N W m cfgs HN Hst)|apply pins_start_process| |].
  - apply (inv_mono N m cfgs T P C (N + b)); [lia..|done].
  - intros ok s' Hi' Hp'. destruct ok; cbn [negb]; [by apply ewp_ret|by apply ewp_error].
Qed.

Lemma start_all_ok E : costs E N start_all.
Proof.
  apply costs_ht; [intros m cfgs Hst b Hb; by apply (ht_start_all N W m cfgs HN Hst)|].
  unfold start_all. apply pins_bind; [done|]. intros ids. apply pins_mfor. intros id.
  apply pins_bind; [apply pins_on_object|done].
Qed.

Lemma all_infos_ok params : costs any 0 (rpc_get_all_process_info params).
Proof. apply (costs_bind any 0 0); [done|apply all_info_ok|]. intros infos. apply costs_ret. Qed.

Lemma start_all_request_ok params : costs any N (rpc_start_all_processes params).
Proof.
  apply (costs_more any (N + 0)); [lia|]. apply costs_bind; [done|apply start_all_ok|].
  intros _. apply all_infos_ok.
Qed.

(** Operations that run the event loop. *)
Context (fuel depth : nat) (HW : 0 ≤ W < INT_MAX).
Context (Hdepth : P < Z.of_nat depth) (Hfuel : enough W fuel C).

Lemma stop_process_ok params :
  costs any 0 (rpc_stop_process (dispatch fuel depth) fuel params).
Proof.
  apply costs_named; [done|]. intros m cfgs Hst n id b s Hid Hb Hi. replace (0 + b) with b in Hi by lia.
  destruct (object_there N W m cfgs Hst _ _ _ _ _ _ Hi Hid) as (p & Hp & _).
  apply ewp_bind, (ewp_object id _ _ s p); [done|].
  destruct (_ || _); [by apply ewp_error|]. apply ewp_bind.
  eapply (ewp_hx m cfgs b b); [|apply pins_stop_process; intros; by apply pins_dispatch|done|..].
  - eapply hx_weaken; [|done| |done].
    + apply (hx_stop_process N W m cfgs HN Hst fuel depth ltac:(lia)
        (dispatch_all N W m cfgs HN Hst fuel depth HW) n T P C b); [lia|done|done|lia].
    + by intros a s' [? _].
  - intros ok s' Hi' Hp'. destruct ok; cbn [negb]; [by apply ewp_ret|by apply ewp_error].
  - done.
Qed.

Lemma stop_all_ok E : (∀ e, raised e → E e) → costs E 0 (stop_all (dispatch fuel depth) fuel).
Proof.
  intros HE. apply costs_hx; [done| |apply pins_stop_all; intros; by apply pins_dispatch].
  intros m cfgs Hst b Hb. eapply hx_weaken; [|done| |done].
  - apply (hx_stop_all N W m cfgs HN Hst fuel depth ltac:(lia)
      (dispatch_all N W m cfgs HN Hst fuel depth HW) T P C b); [lia|done|done|lia].
  - by intros a s' [? _].
Qed.

Lemma dispatch_costs E h : (∀ e, raised e → E e) → settled h → costs E N (dispatch fuel depth h).
Proof.
  intros HE Hh. apply costs_hx; [done| |by apply pins_dispatch]. intros m cfgs Hst b Hb.
  by apply (dispatch_all N W m cfgs HN Hst fuel depth HW).
Qed.

Lemma stop_all_request_ok params : costs any 0 (rpc_stop_all_processes (dispatch fuel depth) fuel params).
Proof. apply (costs_bind any 0 0); [done|by apply stop_all_ok|]. intros _. apply all_infos_ok. Qed.
End manager.

(** ** The daemon between events *)

Section daemon.
Context `{PropertyTree, StringAlgo, EnvGrammar} {K : Type} `{!Kernel K} {laws : KernelLaws K} {may_raise : Raised} {accounts : Accounts}.
Local Abbreviation D := (Daemon K).
Context (N W B T P C : Z) (fuel depth : nat).
Context (HN : 1 ≤ N) (HW : 0 ≤ W < INT_MAX) (HBN : 2 * B ≤ N) (HB : 0 ≤ B).
Context (Hdepth : P < Z.of_nat depth) (Hfuel : enough W fuel C).
Context (Hsync : (W + 2) * NS + C + N < Z.of_nat fuel).

(** The configurations the files can hold. *)
Definition fits (c : Configuration) : Prop :=
  (∀ p, p ∈ programs c → program_ok W p) ∧ NoDup (name <$> programs c)
  ∧ Z.of_nat (length (programs c)) ≤ B.
Hypothesis configurations_fit : ∀ path w c w', parse_file (K := K) path w = Ret c w' → fits c ∧ known c.

(** A connection that is kept. *)
Definition kept (_ : nat) (c : Connection) : Prop := conn_ok c ∧ held c = true.

(** [b] starts are still to be paid for, after those of the handlers that
    are posted. *)
Definition served (b : Z) (d : D) : Prop :=
  Forall settled (posted_ d) ∧ map_Forall kept (connections_ d) ∧
  managed N W B T P C (Z.of_nat (length (posted_ d)) * N + b) (process_manager_ d).

Definition daemon_costs {A} (E : exn → Prop) (k : Z) (op : M D A) : Prop :=
  ∀ b d, 0 ≤ b → served (k + b) d → ewp op (λ _, served b) (λ e d', served b d' ∧ E e) d.

Implicit Types (E : exn → Prop).
Local Abbreviation any := (λ _ : exn, True).

Lemma served_mono b b' d : b' ≤ b → served b d → served b' d.
Proof. intros Hb (Hset & Hconns & Hd). split_and!; [done|done|]. revert Hd. apply managed_mono. lia. Qed.

Lemma daemon_costs_more {A} E k k' (op : M D A) : k ≤ k' → daemon_costs E k op → daemon_costs E k' op.
Proof. intros Hk Hop b d Hb Hd. apply Hop; [done|]. by apply (served_mono (k' + b)); [lia|]. Qed.

Lemma daemon_costs_error {A} E E' k (op : M D A) : (∀ e, E e → E' e) → daemon_costs E k op → daemon_costs E' k op.
Proof.
  intros HE Hop b d Hb Hd. eapply ewp_mono; [by apply Hop|done|]. intros e d' [Hd' He]. split; [done|by apply HE].
Qed.

Lemma daemon_costs_bind {A A'} E k k' (op : M D A) (f : A → M D A') :
  0 ≤ k' → daemon_costs E k op → (∀ a, daemon_costs E k' (f a)) → daemon_costs E (k + k') (op ≫= f).
Proof.
  intros Hk' Hop Hf b d Hb Hd. apply ewp_bind. eapply ewp_mono.
  - apply (Hop (k' + b)); [lia|]. by replace (k + (k' + b)) with (k + k' + b) by lia.
  - intros a d' Hd'. by apply Hf.
  - intros e d' [Hd' He]. split; [|done]. by apply (served_mono (k' + b)); [lia|].
Qed.

Lemma daemon_costs_ret {A} E (a : A) : daemon_costs E 0 (mret a).
Proof. intros b d Hb Hd. by apply ewp_ret. Qed.

Lemma daemon_costs_gets {A} E (f : D → A) : daemon_costs E 0 (gets f).
Proof. intros b d Hb Hd. by apply ewp_gets. Qed.

(** A statement of the process manager. *)
Lemma on_manager_costs {A} E k (op : M (Manager K) A) :
  0 ≤ k → costs N W B T P C E k op → daemon_costs E k (on_manager op).
Proof.
  intros Hk Hop b d Hb (Hset & Hconns & Hd). apply ewp_zoom.
  specialize (Hop (Z.of_nat (length (posted_ d)) * N + b) (process_manager_ d)).
  eapply ewp_mono; [apply Hop; [nia|]|by intros|by intros ? ? []].
  by replace (k + (Z.of_nat (length (posted_ d)) * N + b))
    with (Z.of_nat (length (posted_ d)) * N + (k + b)) by lia.
Qed.

(** A change of the world the manager does not see. *)
Lemma managed_world b s w' : quiet (world s) w' → managed N W B T P C b s → managed N W B T P C b (set_world w' s).
Proof.
  intros Hq (Hacc & m & cfgs & Hst & Hlen & Hi & Hp). split; [done|]. exists m, cfgs.
  split_and!; [done|done| |done]. by apply inv_world.
Qed.

(** A reload leaves only listed names, and reads only dropped ones. *)
Lemma reload_accounted d d' :
  accounted (process_manager_ d) → log_info (process_manager_ d') = log_info (process_manager_ d) →
  reload_accounts d d' → accounted (process_manager_ d').
Proof.
  intros (HL & Hlisted & Hreads) HL' [[Hm HF]|(c & w' & ns & Hc & Hns & HF & Hk)].
  { unfold accounted, reads_known. by rewrite HL', Hm, HF. }
  destruct (configurations_fit _ _ _ _ Hc) as [_ Hknown].
  split_and!; [congruence| |].
  - intros n [Hn|Hn]%Hk; [by apply Hlisted|by exists c].
  - intros n Hn. destruct (decide (n ∈ freed_reads (process_manager_ d))) as [|Hnew]; [by apply Hreads|].
    rewrite HF, HL in Hn. unfold reads_after in Hn. destruct info_taken; [|done].
    rewrite elem_of_app, elem_of_reverse in Hn. destruct Hn as [Hn|]; [|done].
    apply (elem_of_prefix _ _ _ Hn) in Hns. apply list_elem_of_filter in Hns as [Hno Hn'].
    split; [done|]. split; [by apply Hlisted|by exists c].
Qed.

Lemma reload_costs E : daemon_costs E N (reload_config_ fuel depth).
Proof.
  intros b d Hb Hd. destruct (decide (config_file (d_config d) = [] ∨ daemon_state_ d = D_RESTARTING)) as [Hno|Hgo].
  { assert (reload_config_ fuel depth d = Ret tt d) as Er.
    { unfold reload_config_. run. case_bool_decide; [done|]. by rewrite bool_decide_eq_true_2 by tauto. }
    unfold ewp. rewrite Er. by apply (served_mono (N + b)); [lia|]. }
  apply Decidable.not_or in Hgo as [Hpath Hstate].
  destruct Hd as (Hset & Hconns & Hacc & m & cfgs & Hst & Hlen & Hi & Hpin).
  set (k := Z.of_nat (length (posted_ d)) * N + b) in *.
  apply twp_ewp. eapply twp_mono.
  { apply (reload_ok N W m cfgs T P C B k fuel depth d); try done; [|lia|unfold k; nia|lia|].
    - apply (inv_mono N m cfgs T P C (Z.of_nat (length (posted_ d)) * N + (N + b)));
        [lia|lia|lia|unfold k; lia|done].
    - intros c w' Hc. by apply (configurations_fit _ _ _ _ Hc). }
  intros _ d' (_ & Hpin' & Hposted & Hsame & HL & Hreads & Hcases).
  pose proof (reload_accounted d d' Hacc HL Hreads) as Hacc'.
  destruct Hcases as [(_ & Hi' & _)|[(_ & _ & m' & cfgs' & Hst' & Hi' & Hl)|[(m' & cfgs' & Hst' & Hi' & _ & Hout) (w' & Hparse)]]];
    unfold served; rewrite Hposted, Hsame; fold k; (split; [done|]); (split; [done|]); (split; [done|]).
  - exists m, cfgs. split_and!; [done|done| |done]. by apply (inv_mono N m cfgs T P C (B + k)); [lia..|].
  - exists m', cfgs'. split_and!; [done|lia|done|done].
  - exists m', cfgs'. split_and!; [done| |done|done].
    pose proof (entries_bounded m' cfgs' _ Hst' Hout) as Hl. rewrite length_fmap in Hl.
    destruct (configurations_fit _ _ _ _ Hparse) as [(_ & _ & Hlc) _]. lia.
Qed.

(** *** The requests *)

Lemma shutdown_costs params : daemon_costs any N (rpc_shutdown params).
Proof.
  intros b d Hb Hd. unfold rpc_shutdown, post, store_posted.
  do 2 apply ewp_bind. apply ewp_gets, ewp_modify, ewp_ret. destruct Hd as (Hset & Hconns & Hd).
  split; cbn; [apply Forall_app; split; [done|by repeat constructor]|]. split; [done|].
  rewrite length_app. cbn. by replace (Z.of_nat (length (posted_ d) + 1) * N + b)
    with (Z.of_nat (length (posted_ d)) * N + (N + b)) by lia.
Qed.

Lemma get_pid_costs params : daemon_costs any 0 (rpc_get_pid params).
Proof.
  apply (daemon_costs_bind any 0 0); [done| |intros; apply daemon_costs_ret].
  apply on_manager_costs; [done|]. intros b s Hb Hs. apply ewp_zoom. unfold ewp, do_call.
  destruct (sys Getpid (wk (world s))) as [r k] eqn:E. apply managed_world; [|done].
  by apply (quiet_sys Getpid).
Qed.

(** Every registered handler. *)
Definition handler_costs (h : RpcHandler D) : Prop := ∀ params, daemon_costs any N (h params).

Lemma rpc_handlers_cost : registered handler_costs (register_rpc_handlers_ fuel depth).
Proof.
  assert (Hfree : ∀ {A} (op : M D A), daemon_costs any 0 op → daemon_costs any N op).
  { intros A op. apply daemon_costs_more. lia. }
  apply (registered_all _ _ (λ h, h)).
  - repeat (apply Forall_cons; split); [..|by apply Forall_nil]; intros params; cbn [snd].
    + apply Hfree, (daemon_costs_bind any 0 0); [done|apply daemon_costs_gets|intros; apply daemon_costs_ret].
    + apply shutdown_costs.
    + apply (daemon_costs_more any (N + 0)); [lia|]. apply daemon_costs_bind; [done|apply reload_costs|].
      intros. apply daemon_costs_ret.
    + apply Hfree, daemon_costs_ret.
    + apply Hfree, daemon_costs_ret.
    + apply Hfree, daemon_costs_ret.
    + apply Hfree, daemon_costs_ret.
    + apply Hfree, get_pid_costs.
  - apply (registered_all _ _ (λ h params, on_manager (h params))); [|done].
    repeat (apply Forall_cons; split); [..|by apply Forall_nil]; intros params; cbn [snd]; (apply on_manager_costs; [lia|]).
    + eapply costs_more with (k := 0); [lia|eapply all_infos_ok; done].
    + eapply costs_more with (k := 0); [lia|eapply get_process_info_ok; done].
    + by apply start_process_ok.
    + eapply costs_more with (k := 0); [lia|eapply stop_process_ok; done].
    + by apply start_all_request_ok.
    + eapply costs_more with (k := 0); [lia|eapply stop_all_request_ok; done].
Qed.

(** *** Connections *)

Lemma dispatch_ok b f m ps d : rpc_dispatcher fuel depth = Some f → 0 ≤ b → served (N + b) d →
  ewp (f m ps) (λ _, served b) (λ _, served b) d.
Proof.
  intros [= <-] Hb Hd. unfold dispatcher, dispatch_method. destruct (sm_find m _) as [h|] eqn:Hh.
  - eapply ewp_mono; [apply (rpc_handlers_cost m h Hh ps b d); done|done|by intros ? ? []].
  - apply ewp_throw. revert Hd. apply served_mono. lia.
Qed.

Lemma keep_served b n c d : conn_ok c → served b d → served b (keep_connection n c d).
Proof.
  intros Hc (Hset & Hconns & Hd). unfold served, keep_connection. cbn. split_and!; [done| |done].
  destruct (held c) eqn:Hheld; [by apply map_Forall_insert_2|by apply map_Forall_delete].
Qed.

Lemma connection_served E b n c m d :
  ewp m (λ _ s, conn_ok s.1 ∧ served b s.2) (λ e s, conn_ok s.1 ∧ served b s.2 ∧ E e) (c, d) →
  ewp (on_connection n c m) (λ _, served b) (λ e d', served b d' ∧ E e) d.
Proof.
  unfold ewp, on_connection. destruct (m (c, d)) as [a [c' d']|e [c' d']| | |]; try done; cbn.
  - intros [Hc Hd]. by apply keep_served.
  - intros (Hc & Hd & He). split; [by apply keep_served|done].
Qed.

Lemma complete_costs n outstanding m b d : served b d →
  (∀ c, connections_ d !! n = Some c → conn_ok c → outstanding c = true →
     ewp m (λ _ s, conn_ok s.1 ∧ served b s.2) (λ e s, conn_ok s.1 ∧ served b s.2 ∧ length_error e) (c, d)) →
  ewp (complete n outstanding m) (λ _, served b) (λ e d', served b d' ∧ length_error e) d.
Proof.
  intros Hd Hm. apply ewp_bind, ewp_gets. destruct (connections_ d !! n) as [c|] eqn:Hn; [|by apply ewp_ret].
  destruct (outstanding c) eqn:Ho; [|by apply ewp_ret].
  apply connection_served. destruct (proj1 (proj2 Hd) n c Hn) as [Hc _]. by apply Hm.
Qed.

(** A read dispatches at most one request; only the error of its
    Content-Length leaves it. *)
Lemma received_costs n error data :
  daemon_costs length_error N (complete n reading (handle_read_ (rpc_dispatcher fuel depth) error data)).
Proof.
  intros b d Hb Hd. assert (Hdrop : ∀ d, served (N + b) d → served b d) by (intros d'; apply served_mono; lia).
  apply complete_costs; [by apply Hdrop|]. intros c _ Hc Hr.
  eapply ewp_mono; [apply (handle_read_bounded _ (served (N + b)) (served b)); try done|..].
  - intros f m ps d' Hf Hd'. by eapply dispatch_ok.
  - intros ? [c' d'] [Hc' Hs]. split; [done|]. cbn in Hs. destruct (reading c'); [by apply Hdrop|done].
  - done.
Qed.

Lemma written_costs n : daemon_costs length_error 0 (complete n writing handle_write_).
Proof.
  intros b d Hb Hd. apply complete_costs; [done|]. intros [q r rs o] _ Hc _. by apply ewp_modify.
Qed.

(** Statements of the RPC server that only make calls. *)
Definition calls {A} (op : M (RpcServer * World K) A) : Prop :=
  ∀ s, ewp op (λ _ s', grew s.2 s'.2) (λ _ s', grew s.2 s'.2) s.

Lemma calls_bind {A A'} (op : M (RpcServer * World K) A) (f : A → M (RpcServer * World K) A') :
  calls op → (∀ a, calls (f a)) → calls (op ≫= f).
Proof.
  intros Hop Hf s. apply ewp_bind. eapply ewp_mono; [apply Hop| |done].
  intros a s1 Hg. eapply ewp_mono; [apply Hf|..]; intros ? s2 Hg2; by transitivity s1.2.
Qed.

Lemma calls_system {A} (op : M (World K) A) :
  (∀ w, ewp op (λ _ w', grew w w') (λ _ w', grew w w') w) → calls (in_system op).
Proof. intros Hop [v w]. apply ewp_zoom. eapply ewp_mono; [apply Hop|done|done]. Qed.

Lemma calls_modify f : (∀ s : RpcServer * World K, (f s).2 = s.2) → calls (modify f).
Proof. intros Hf s. apply ewp_modify. by rewrite Hf. Qed.

Lemma calls_gets {A} (f : RpcServer * World K → A) : calls (gets f).
Proof. intros s. by apply ewp_gets. Qed.

Lemma calls_ret {A} (a : A) : calls (mret a).
Proof. intros s. by apply ewp_ret. Qed.

Lemma calls_throw {A} e : calls (throw e : M _ A).
Proof. intros s. by apply ewp_throw. Qed.

Lemma calls_lift {A} (r : result A) : calls (lift_result r).
Proof. intros s. apply ewp_lift. by destruct r. Qed.

Lemma on_server_costs {A} (op : M (RpcServer * World K) A) b d :
  calls op → served b d → ewp (on_server op) (λ _, served b) (λ _, served b) d.
Proof.
  intros Hop (Hset & Hconns & Hd). apply ewp_zoom. eapply ewp_mono; [apply Hop|..]; intros ? [v w'] Hg;
    (split_and!; [done|done|]; apply managed_world; [by apply grew_quiet|done]).
Qed.

Lemma calls_plain {A} (op : M (World K) A) : yields (λ _ _, True) op → calls (in_system op).
Proof. intros Hop. apply calls_system. intros w. eapply ewp_mono; [apply Hop|by intros ? ? []|done]. Qed.

Lemma calls_call c : plain_b c = true → calls (in_system (do_call c)).
Proof. intros Hc. by apply calls_plain, plain_call. Qed.

Ltac calling :=
  repeat first
    [ apply calls_ret | apply calls_throw | apply calls_lift
    | match goal with
      | |- calls (gets _) => apply calls_gets
      | |- calls (server _) => apply calls_gets
      | |- calls (set_server _) => by apply calls_modify
      | |- calls (set_running _) => by apply calls_modify
      | |- calls (set_accepting _) => by apply calls_modify
      | |- calls start_accept_ => by apply calls_modify
      | |- @calls _ (in_system (@do_call _ _ ?c)) => exact (calls_call c eq_refl)
      | |- calls (mbind _ _) => apply calls_bind; [|intros ?]
      | |- calls (match ?b with _ => _ end) => destruct b
      end ].

Lemma start_server_calls : calls start_server.
Proof.
  unfold start_server, or_throw. apply calls_bind; [apply calls_gets|]. intros p.
  apply calls_bind; [apply calls_plain, plain_directory|intros _].
  apply calls_bind; [apply calls_plain, plain_exists|intros there].
  apply calls_bind; [calling|intros _]. apply calls_bind; [calling|intros _].
  do 4 (apply calls_bind; [calling|intros ?]).
  apply calls_bind; [apply calls_plain, plain_permissions|intros _]. calling.
Qed.

Lemma stop_server_calls : calls stop_server.
Proof. unfold stop_server. calling. Qed.

Lemma handle_accept_calls error : calls (handle_accept_ error).
Proof. unfold handle_accept_. calling. Qed.

(** *** Events *)

(** The exceptions that leave the handler of an event. *)
Definition event_error (e : exn) : Prop := length_error e ∨ raised e.

Lemma raised_event e : raised e → event_error e.
Proof. by right. Qed.

Lemma batch_costs hs : Forall settled hs →
  costs N W B T P C event_error (Z.of_nat (length hs) * N)
    (mfor hs (λ h, st ← gets stopped; if (st : bool) then mret tt else dispatch fuel depth h)).
Proof.
  induction 1 as [|h hs Hh _ IH]; cbn [mfor]; [apply costs_ret|].
  replace (Z.of_nat (length (h :: hs)) * N) with (N + Z.of_nat (length hs) * N) by (cbn [length]; lia).
  apply costs_bind; [nia| |done]. intros b s Hb Hs. apply ewp_bind, ewp_gets.
  destruct (stopped s); [|by apply (dispatch_costs N W B T P C HN fuel depth HW Hdepth Hfuel event_error h raised_event Hh)].
  apply ewp_ret. by apply (managed_mono N W B T P C (N + b)); [lia|].
Qed.

Lemma run_posted_costs : daemon_costs event_error 0 (run_posted fuel depth).
Proof.
  intros b d Hb (Hset & Hconns & Hd). unfold run_posted, store_posted. apply ewp_bind, ewp_gets, ewp_bind, ewp_modify, ewp_zoom.
  cbn. eapply ewp_mono; [apply (batch_costs (posted_ d) Hset b); [done|exact Hd]|..].
  - intros ? s Hs. done.
  - intros e s [Hs He]. done.
Qed.

(** The completion of an accept makes no calls and throws nothing. *)
Lemma handle_accept_eq error (s : RpcServer * World K) :
  handle_accept_ error s = Ret tt
    (mkServer (socket_path_ s.1) (running_ s.1) (running_ s.1) (if error then accepted s.1 else S (accepted s.1)), s.2).
Proof.
  destruct s as [[path r a n] w]. unfold handle_accept_, start_accept_, set_accepting, set_server, server. run. cbn.
  by destruct error, r.
Qed.

Lemma accept_costs E error : daemon_costs E 0 (handle_event fuel depth (Accepted error)).
Proof.
  assert (Hserver : daemon_costs E 0 (on_server (handle_accept_ error))).
  { intros b [c st s v p cs] Hb Hd. unfold ewp, on_server, zoom. rewrite handle_accept_eq. cbn.
    split_and!; [apply Hd..|]. by apply managed_world; [|apply Hd]. }
  cbn [handle_event]. apply (daemon_costs_bind E 0 0); [done|apply daemon_costs_gets|]. intros v.
  destruct (negb (accepting v)); [apply daemon_costs_ret|].
  apply (daemon_costs_bind E 0 0); [done| |done]. destruct error; [apply daemon_costs_ret|].
  intros b d Hb Hd. apply connection_served. unfold start_connection, begin_read_, update_conn. apply ewp_modify.
  split; [by apply conn_ok_quiet|done].
Qed.

Lemma store_state_costs E st : daemon_costs E 0 (store_state st).
Proof. intros b d Hb Hd. by apply ewp_modify. Qed.

Lemma stop_daemon_costs : daemon_costs event_error 0 (stop_daemon fuel depth).
Proof.
  apply on_manager_costs; [done|].
  apply (costs_bind N W B T P C event_error 0 0); [done|by apply stop_all_ok; [..|apply raised_event]|].
  intros _ b s Hb (Hacc & m & cfgs & Hst & Hlen & Hi & Hp). apply ewp_modify. split; [done|].
  exists m, cfgs. split_and!; [done|done|by apply inv_stopped|done].
Qed.

(** The events of the manager are settled; a reload is an event of the
    daemon. *)
Definition event_settled (e : daemon_event) : Prop :=
  match e with Managed h => settled h | _ => True end.

Lemma handle_event_costs e : event_settled e → daemon_costs event_error N (handle_event fuel depth e).
Proof.
  destruct e as [error|n error data|n| | |h]; cbn [event_settled]; intros He.
  - apply (daemon_costs_more event_error 0); [lia|]. apply accept_costs.
  - eapply daemon_costs_error; [|apply received_costs]. by left.
  - apply (daemon_costs_more event_error 0); [lia|].
    eapply daemon_costs_error; [|apply written_costs]. by left.
  - apply (daemon_costs_more event_error (0 + 0)); [lia|].
    apply daemon_costs_bind; [done|apply store_state_costs|]. intros _. apply stop_daemon_costs.
  - apply reload_costs.
  - apply on_manager_costs; [lia|]. apply dispatch_costs; first [done|exact raised_event].
Qed.

Lemma run_events_costs events : Forall event_settled events →
  daemon_costs event_error (Z.of_nat (length events) * N) (run_events fuel depth events).
Proof.
  induction 1 as [|e events He _ IH]; cbn [run_events].
  { apply (daemon_costs_bind event_error 0 0); [done|apply run_posted_costs|]. intros _.
    apply (daemon_costs_bind event_error 0 0); [done|apply daemon_costs_gets|]. intros _. apply daemon_costs_ret. }
  replace (Z.of_nat (length (e :: events)) * N) with (N + Z.of_nat (length events) * N) by (cbn [length]; lia).
  assert (0 ≤ Z.of_nat (length events) * N) by (apply Z.mul_nonneg_nonneg; lia).
  apply (daemon_costs_more event_error (0 + (0 + (N + Z.of_nat (length events) * N)))); [lia|].
  apply daemon_costs_bind; [lia|apply run_posted_costs|]. intros _.
  apply daemon_costs_bind; [lia|apply daemon_costs_gets|]. intros [].
  - apply (daemon_costs_more event_error 0); [lia|apply daemon_costs_ret].
  - apply daemon_costs_bind; [lia|by apply handle_event_costs|done].
Qed.

(** The exceptions that leave [run]. *)
Definition run_error (e : exn) : Prop :=
  event_error e ∨ ∃ s s', @start_server K _ s = Throw e s'.

Lemma stop_server_returns s :
  match @stop_server K _ s with Ret _ s' => accepting s'.1 = accepting s.1 | _ => False end.
Proof.
  unfold stop_server, server, set_running, set_server, in_system. run.
  destruct (negb (running_ s.1)); [done|]. unfold zoom, do_call. cbn. 
  destruct (sys AcceptorClose _). cbn. by destruct (sys (Unlink _) _).
Qed.

Lemma stop_server_ok b d :
  served b d → twp (on_server stop_server) (λ _ d', served b d' ∧ outlived d' = outlived d) d.
Proof.
  intros Hd. pose proof (on_server_costs stop_server _ d stop_server_calls Hd) as Hstop.
  pose proof (stop_server_returns (rpc_server_ d, world (process_manager_ d))) as Hr.
  unfold ewp, twp, on_server, zoom in *. destruct (stop_server _) as [u s'| | | |]; try done.
  split; [done|]. unfold outlived. cbn. by rewrite Hr.
Qed.

Lemma run_costs events b d : Forall event_settled events → 0 ≤ b →
  served ((Z.of_nat (length events) + 1) * N + b) d →
  ewp (run fuel depth events) (λ _, served b) (λ e d', served b d' ∧ run_error e) d.
Proof.
  intros Hset Hb Hd. unfold run. apply ewp_bind.
  assert (Hpos : 0 ≤ Z.of_nat (length events) * N) by (apply Z.mul_nonneg_nonneg; lia).
  pose proof (on_server_costs start_server _ d start_server_calls Hd) as Hs.
  unfold ewp in Hs |- * at 1. unfold on_server, zoom in *.
  destruct (start_server _) as [u [v w]|e [v w]| | |] eqn:Estart; try done; cycle 1.
  { split; [by apply (served_mono ((Z.of_nat (length events) + 1) * N + b)); [lia|]|].
    right. by do 2 eexists. }
  apply ewp_bind. replace ((Z.of_nat (length events) + 1) * N + b)
    with (N + (Z.of_nat (length events) * N + b)) in Hs by lia.
  eapply ewp_mono; [apply (on_manager_costs (λ _, False) N start_all ltac:(lia)
    (start_all_ok N W B T P C HN _) (Z.of_nat (length events) * N + b)); [lia|exact Hs]| |by intros ? ? []].
  intros ? d1 Hd1. apply ewp_bind. eapply ewp_mono; [apply (run_events_costs events Hset b); done| |].
  - intros ? d2 Hd2. apply twp_ewp. eapply twp_mono; [exact (stop_server_ok b d2 Hd2)|]. by intros ? ? [].
  - intros e d2 [Hd2 He]. split; [done|by left].
Qed.
End daemon.

Local Abbreviation card := (base.size (C := gset Z)).

(** *** The destructor *)

(** Objects without a child, which only the map referred to, are destroyed
    without signals. *)
Lemma release_all_ok `{KernelLaws K} ids (s : Manager K) :
  process_map_ s = [] → pinned s = [] → NoDup ids → (∀ id, id ∈ ids ↔ is_Some (heap s !! id)) →
  (∀ id p, heap s !! id = Some p → pid_ p ≤ 0 ∧ writers_ok p) →
  twp (mfor ids release) (λ _ s', quiet (world s) (world s') ∧ heap s' = ∅ ∧ process_map_ s' = []) s.
Proof.
  revert s. induction ids as [|id ids IH]; intros s Hmap Hpin Hnd Hids Hidle; cbn [mfor].
  { apply twp_ret. split_and!; [reflexivity| |done]. apply map_empty. intros id. apply eq_None_not_Some.
    rewrite <- Hids. apply not_elem_of_nil. }
  apply NoDup_cons in Hnd as [Hnew Hnd]. destruct (proj1 (Hids id)) as [p Hp]; [left|].
  destruct (Hidle id p Hp) as [Hpid Hlogs]. apply twp_bind. unfold release.
  apply twp_bind, twp_gets. rewrite Hpin, Hmap. rewrite !bool_decide_eq_false_2 by apply not_elem_of_nil.
  apply twp_bind. eapply twp_on_object; [exact Hp|]. eapply twp_mono; [by apply destroy_ok|].
  intros ? [p' w'] He. destruct (Z.ltb_spec 0 (pid_ p)); [lia|]. apply twp_modify. cbn in *.
  eapply twp_mono; [apply IH; cbn; try done|].
  - intros i. destruct (decide (i = id)) as [->|Hne].
    + rewrite lookup_delete_eq. split; [done|by intros []].
    + rewrite lookup_delete_ne, lookup_insert_ne by done. rewrite <- Hids, elem_of_cons. naive_solver.
  - intros i q. rewrite delete_insert_eq. intros [_ Hq]%lookup_delete_Some. by eapply Hidle.
  - cbn. intros _ s' (Hq & ? & ?). split; [|done]. by transitivity w'.
Qed.

Lemma pins_shut_down `{Kernel K} {may_raise : Raised} fuel depth :
  pins (K := K) (shut_down (dispatch fuel depth) fuel).
Proof.
  unfold shut_down. apply pins_bind; [apply pins_stop_all; intros; by apply pins_dispatch|]. intros _.
  apply pins_bind; [done|]. intros ids. apply pins_bind; [by apply pins_modify|]. intros _.
  apply pins_mfor. intros id. apply pins_release.
Qed.

(** The destructor of the manager terminates, all signals went to own
    children, no process is left, and no more freed strings have been read.
    An exception of a handler that runs while it waits leaves it. *)
Lemma manager_stops `{KernelLaws K} `{may_raise : Raised} N W m cfgs T P C b fuel depth (s : Manager K) :
  1 ≤ N → 0 ≤ W < INT_MAX → P < Z.of_nat depth → enough W fuel C → 0 ≤ b →
  static_ok N W m cfgs → inv N m cfgs T P C b s → pinned s = [] →
  ewp (shut_down (dispatch fuel depth) fuel)
    (λ _ s', own (marks (wtrace (world s'))) ∧ heap s' = ∅ ∧ process_map_ s' = [])
    (λ e s', raised e ∧ own (marks (wtrace (world s')))) s.
Proof.
  intros HN HW HP HC Hb Hst Hi Hpin. unfold shut_down.
  apply ewp_bind. eapply ewp_mono.
  { apply (ewp_pins _ (λ _ s, inv N m cfgs T P C b s ∧ idle m.*2 s) (thrown N m cfgs T P C b));
      [apply pins_stop_all; intros; by apply pins_dispatch|by eapply inv_settles|].
    apply (hx_stop_all N W m cfgs HN Hst fuel depth ltac:(lia)
      (dispatch_all N W m cfgs HN Hst fuel depth HW) T P C b); [lia|done|done|lia|exact Hi]. }
  2:{ intros e s1 [[He Hi'] _]. split; [done|]. by destruct (i_tracked _ _ _ _ _ _ _ _ Hi'). }
  clear Hi. intros ? s1 [[Hi Hidle] [= Hpin' _ _]]. apply twp_ewp, twp_bind, twp_gets, twp_bind, twp_modify.
  rewrite (i_map _ _ _ _ _ _ _ _ Hi). eapply twp_mono; [apply release_all_ok; cbn; try done|].
  - congruence.
  - by apply (st_ids _ _ _ _ Hst).
  - intros id. rewrite (st_dom _ _ _ _ Hst), <- (i_cfgs _ _ _ _ _ _ _ _ Hi), lookup_fmap.
    by rewrite fmap_is_Some.
  - intros id p Hp. split; [|by eapply po_logs, (i_procs _ _ _ _ _ _ _ _ Hi)].
    apply (Hidle id p); [|done]. rewrite (st_dom _ _ _ _ Hst), <- (i_cfgs _ _ _ _ _ _ _ _ Hi), lookup_fmap.
    by rewrite Hp.
  - cbn. intros ? s' [(Hm & _) ?]. split; [|done]. rewrite Hm. by destruct (i_tracked _ _ _ _ _ _ _ _ Hi).
Qed.

Lemma managed_stops `{KernelLaws K} `{may_raise : Raised} `{Accounts} N W B T P C b fuel depth (s : Manager K) :
  1 ≤ N → 0 ≤ W < INT_MAX → P < Z.of_nat depth → enough W fuel C → 0 ≤ b → managed N W B T P C b s →
  ewp (shut_down (dispatch fuel depth) fuel)
    (λ _ s', reads_known s' ∧ own (marks (wtrace (world s'))) ∧ heap s' = ∅ ∧ process_map_ s' = [])
    (λ e s', reads_known s' ∧ raised e ∧ own (marks (wtrace (world s')))) s.
Proof.
  intros HN HW HP HC Hb ((_ & _ & Hreads) & m & cfgs & Hst & _ & Hi & Hpin).
  assert (Hkept : ∀ s' : Manager K, locals s' = locals s → reads_known s').
  { intros s' [= _ _ HF]. unfold reads_known. by rewrite HF. }
  pose proof (manager_stops N W m cfgs T P C b fuel depth s HN HW HP HC Hb Hst Hi Hpin) as Hm.
  apply (ewp_pins _ _ _ s (pins_shut_down fuel depth)) in Hm; [|by eapply inv_settles].
  eapply ewp_mono; [exact Hm|..].
  - intros ? s' [? ?]. auto.
  - intros e s' [? ?]. auto.
Qed.

(** All signals went to own children, the freed strings read are known, and
    the destructor of the daemon terminates and leaves no process, unless a
    handler throws while it waits.  Nothing is said of the destructor when
    the completion of an accept outlives the server. *)
Definition stops_cleanly `{KernelLaws K} `{may_raise : Raised} `{accounts : Accounts}
    (fuel depth : nat) (d : Daemon K) : Prop :=
  own (marks (wtrace (world (process_manager_ d)))) ∧
  reads_known (process_manager_ d) ∧
  (outlived d = false →
   ewp (destroy_daemon fuel depth)
     (λ _ d', reads_known (process_manager_ d') ∧ own (marks (wtrace (world (process_manager_ d'))))
        ∧ heap (process_manager_ d') = ∅ ∧ process_map_ (process_manager_ d') = [])
     (λ e d', reads_known (process_manager_ d')
        ∧ raised e ∧ own (marks (wtrace (world (process_manager_ d'))))) d).

Lemma served_own `{KernelLaws K} `{may_raise : Raised} `{Accounts}
    N W B T P C b (d : Daemon K) :
  served N W B T P C b d → own (marks (wtrace (world (process_manager_ d)))).
Proof. intros (_ & _ & _ & m & cfgs & _ & _ & Hi & _). by destruct (i_tracked _ _ _ _ _ _ _ _ Hi). Qed.

Lemma served_stops `{KernelLaws K} `{may_raise : Raised} `{Accounts}
    N W B T P C b fuel depth (d : Daemon K) :
  1 ≤ N → 0 ≤ B → 0 ≤ W < INT_MAX → P < Z.of_nat depth → enough W fuel C → 0 ≤ b →
  served N W B T P C b d → stops_cleanly fuel depth d.
Proof.
  intros HN HB HW HP HC Hb Hd. split; [by eapply served_own|]. split; [apply Hd|]. intros Hout. eapply ewp_first; [by eapply stop_server_ok|]. cbn. intros _ d1 [(_ & _ & Hd1) Heq].
  apply ewp_bind, ewp_gets. rewrite Heq, Hout. apply ewp_bind, ewp_ret, ewp_zoom.
  eapply ewp_mono; [eapply managed_stops; [done|done|exact HP|exact HC| |exact Hd1]; lia|done|done].
Qed.

Lemma construct_ok {K} `{!Kernel K} {laws : KernelLaws K} {may_raise : Raised} {accounts : Accounts}
    N W B config agenda b (w : World K) :
  1 ≤ N → 2 * B ≤ N → fits W B config → known config → tracked w → Forall settled (concat agenda) → 0 ≤ b →
  let p := Z.of_nat (length (concat agenda)) in p * N + b < INT_MAX →
  twp (construct config) (λ _ d', (posted_ d' = [] ∧ connections_ d' = ∅)
    ∧ managed N W B (clock (wk w)) p (Z.of_nat (card (children (wk w))) + p * N + b) b (process_manager_ d'))
    (new_daemon config info_taken agenda w).
Proof.
  intros HN HB (Hok & Hnd & Hlen) Hknown Ht Hset Hb p Hroom. apply twp_zoom.
  pose proof (inv_new N W HN info_taken agenda w b Ht Hset Hb Hroom) as Hs. eapply twp_mono.
  { eapply (add_all_ok N W (programs config) _ _ _ _ info_taken [] [] ∅); [exact Hs|done| |done|simpl; lia].
    intros c Hc. split; [by apply Hok|done]. }
  intros ? s' (m & cfgs & (Hst & Hi & [= Hpin HL HF]) & Hl & Hk). split; [done|]. split.
  - split_and!; [done| |intros n; cbn; rewrite HF; by intros ?%not_elem_of_nil]. intros n. cbn.
    rewrite (i_map _ _ _ _ _ _ _ _ Hi), Hk, app_nil_r, elem_of_reverse. intros Hn. by exists config.
  - exists m, cfgs. split_and!; [done|simpl in Hl; lia|done|done].
Qed.

(** The sizes the model is run at: at most [B] programs and, during a
    reload, [N] of them, waits of at most [W] seconds, a depth of nested
    event loops that no sequence of handlers can reach, and a fuel for the
    longest wait, for every child that can be reaped during it and for a
    pass over the programs.  The
    retry counters stay below the largest [int].  Reloads are events of the
    daemon, and do not run while another operation waits; handlers that
    throw may run at any time. *)
Record limits {K} `{KernelLaws K} `{may_raise : Raised} (N W B : Z) (events : list daemon_event)
    (agenda : list (list handler)) (fuel depth : nat) (w : World K) : Prop := {
  l_some : 1 ≤ N;
  l_programs : 2 * B ≤ N;
  l_waits : 0 ≤ W < INT_MAX;
  l_depth : Z.of_nat (length (concat agenda)) < Z.of_nat depth;
  l_retries : (Z.of_nat (length (concat agenda)) + Z.of_nat (length events) + 1) * N < INT_MAX;
  l_settled : Forall settled (concat agenda) ∧ Forall event_settled events;
  l_fuel : (W + 2) * NS + Z.of_nat (card (children (wk w)))
    + (Z.of_nat (length (concat agenda)) + Z.of_nat (length events) + 2) * N < Z.of_nat fuel;
}.

(** The configurations of a run: the first one, and those that are parsed
    from files. *)
Definition run_accounts `{PropertyTree, StringAlgo, EnvGrammar} {K} `{!Kernel K}
    (info : bool) (config : Configuration) : Accounts :=
  mkAccounts info (λ c, c = config ∨ ∃ path (w w' : World K), parse_file path w = Ret c w').

(** Constructing and running the daemon keeps the invariant. *)
Lemma daemon_keeps `{PropertyTree, StringAlgo, EnvGrammar} {K} `{!Kernel K} {laws : KernelLaws K} {may_raise : Raised}
    N W B config info events agenda fuel depth (w : World K) :
  limits N W B events agenda fuel depth w →
  (∀ path w c w', parse_file (K := K) path w = Ret c w' → fits W B c) → fits W B config → tracked w →
  let p := Z.of_nat (length (concat agenda)) in
  let C := Z.of_nat (card (children (wk w))) + p * N + ((Z.of_nat (length events) + 1) * N + 0) in
  enough W fuel C ∧
  let after := served (accounts := run_accounts (K := K) info config) N W B (clock (wk w)) p C 0 in
  ewp (construct config ;; run fuel depth events) (λ _, after) (λ e d', after d' ∧ run_error (K := K) e)
    (new_daemon config info agenda w).
Proof.
  intros [HN HBN HW Hdepth Hroom [Hset Hevents] Hfuel] Hfiles Hfit Ht p C. fold p in Hdepth, Hroom, Hfuel.
  assert (HB : 0 ≤ B) by (destruct Hfit as (_ & _ & ?); lia).
  assert (HC : enough W fuel C) by (unfold enough, C; lia). split; [done|].
  set (b := (Z.of_nat (length events) + 1) * N + 0) in *.
  assert (Hb : 0 ≤ b) by (unfold b; assert (0 ≤ Z.of_nat (length events) * N) by (apply Z.mul_nonneg_nonneg; lia); lia).
  intros after. apply ewp_bind, twp_ewp. eapply twp_mono.
  { apply (construct_ok (accounts := run_accounts (K := K) info config) N W B config agenda b w HN HBN Hfit);
      [by left|done|done|done|unfold b; fold p; lia]. }
  intros ? d [[Hposted Hnone] Hm]. fold p in Hm. fold C in Hm.
  apply (run_costs N W B (clock (wk w)) p C fuel depth HN HW HBN HB Hdepth HC ltac:(unfold C, b; lia)); [|done|done|].
  { intros path w1 c w1' Hc. split; [by eapply Hfiles|]. right. by eauto. }
  unfold served. rewrite Hposted, Hnone. split_and!; [done|apply map_Forall_empty|done].
Qed.

(** C2: The whole daemon, within the limits: [startretries] of at most 31, no
    reload while another operation waits, and the sizes above.  Whatever
    connections, requests, reloads, signals and other events arrive in
    whatever order, whatever the configuration files hold by then, and
    whatever the operating system answers, constructing and running the
    daemon terminates.  The only behaviour on the way that is undefined is
    that of the log line of [remove_process]: it reads the name of a program
    after it was freed, only if a sink takes records of level info, and only
    for a program that one of the configurations has and another has not.
    The only exceptions that leave the run are those of opening the socket,
    of a malformed Content-Length and of a handler that ran while the daemon
    waited; and every signal goes to a child not yet reaped.  When the
    daemon was shut down, or its server did not start, the destructor
    terminates as well, with every process object destroyed and no more such
    reads, unless a handler throws while it waits.  An exception that leaves
    the event loop while the server listens is another matter: see
    [MainSpec]. *)
Theorem daemon_serves `{PropertyTree, StringAlgo, EnvGrammar} {K} `{!Kernel K} {laws : KernelLaws K} {may_raise : Raised}
    N W B config info events agenda fuel depth (w : World K) :
  limits N W B events agenda fuel depth w →
  (∀ path w c w', parse_file (K := K) path w = Ret c w' → fits W B c) → fits W B config → tracked w →
  let clean := stops_cleanly (accounts := run_accounts (K := K) info config) fuel depth in
  ewp (construct config ;; run fuel depth events)
    (λ _ d', clean d') (λ e d', clean d' ∧ run_error (K := K) e)
    (new_daemon config info agenda w).
Proof.
  intros Hl Hfiles Hfit Ht clean.
  destruct (daemon_keeps N W B config info events agenda fuel depth w Hl Hfiles Hfit Ht) as [HC Hrun].
  destruct Hl as [HN _ HW Hdepth _ _ _].
  assert (HB : 0 ≤ B) by (destruct Hfit as (_ & _ & ?); lia).
  assert (Hend : ∀ d', served (accounts := run_accounts (K := K) info config) N W B (clock (wk w)) _ _ 0 d' → clean d') by
    (intros d' Hd'; eapply served_stops; [done|done|done|exact Hdepth|exact HC| |exact Hd']; done).
  eapply ewp_mono; [exact Hrun|by intros ?|]. intros e d' [Hd' He]. split; [by apply Hend|done].
Qed.

(** ** The property at a concrete input *)

(** A reader for which every file holds one program, without logs: what is
    parsed does not depend on the system then. *)
Definition ex_trees : PropertyTree := {|
  ptree := @ptree simple_trees;
  data := @data simple_trees;
  int_value := @int_value simple_trees;
  nodes := @nodes simple_trees;
  get_child_optional := @get_child_optional simple_trees;
  bad_path := @bad_path simple_trees;
  read_xml := @read_xml simple_trees;
  read_ini _ := @read_ini simple_trees
    (#"[supervisord]" ++ [LF] ++ #"logfile=/tmp/d.log" ++ [LF] ++ #"[program:web]" ++ [LF] ++ #"command=/bin/web -v");
  parser_error := @parser_error simple_trees;
|}.

Lemma ex_files path (w : World Sim) c w' :
  @parse_file ex_trees classic_algo ex_env Sim _ path w = Ret c w' → fits 10 1 c.
Proof.
  destruct w as [[tm ch zo fk uid gid pw] fs t st].
  destruct uid as [|u|u]; intros Hp; vm_compute in Hp; try discriminate.
  injection Hp as <- _. split_and!; [|apply NoDup_singleton|simpl; lia].
  intros p ->%list_elem_of_singleton. constructor; [simpl; lia|simpl; unfold INT_MIN; lia|].
  unfold logs_ok, INT_MIN, INT_MAX. simpl. lia.
Qed.

(** A request, cut in two, a connection that is closed at once, a reload
    and a shutdown. *)
Definition ex_events : list daemon_event :=
  [Accepted false; Received 0 None (ex_headers ++ CRLFCRLF); Accepted false; Received 1 (Some Eof) [];
   Received 0 None #"getPID!"; Written 0; Hangup; Managed OnTimer; Terminate].

Lemma daemon_serves_witness :
  let clean := stops_cleanly (may_raise := ex_raised)
    (accounts := @run_accounts ex_trees classic_algo ex_env Sim _ true (d_config (ex_daemon ex_manager))) ex_fuel 4 in
  ewp (@construct Sim _ (d_config (ex_daemon ex_manager)) ;;
       @run ex_trees classic_algo ex_env Sim _ ex_fuel 4 ex_events)
    (λ _ d', clean d') (λ e d', clean d' ∧ run_error (may_raise := ex_raised) (K := Sim) e)
    (new_daemon (d_config (ex_daemon ex_manager)) true ex_throwing world0).
Proof.
  apply (@daemon_serves ex_trees classic_algo ex_env Sim _ sim_laws ex_raised 2 10 1
    (d_config (ex_daemon ex_manager)) true ex_events ex_throwing ex_fuel 4 world0).
  - split; [lia|lia|by split|by vm_compute|by vm_compute|by repeat constructor|].
    unfold ex_fuel. rewrite Z2Nat.id by (by vm_compute). by vm_compute.
  - apply ex_files.
  - split_and!; [|apply NoDup_singleton|simpl; lia].
    intros p ->%list_elem_of_singleton. apply ex_program_ok.
  - done.
Defined.
