(* ===== verification/StoreSpec.v ===== *)
(** * The objects the daemon shares

    The processes are objects in a heap, referred to by name through the map
    and by local pointers.  This file types that heap, and shows that the
    daemon keeps it typed while it runs, from its construction to the end of
    its event loop: no shared pointer dangles, no object leaks, and what a
    name refers to is a process of that name, in a state its state machine
    reaches.  The table of connections is typed as well.  What the
    destructor does is in [DaemonSpec] and [MainSpec]. *)

From Stdlib Require Import ZArith NArith Ascii String.
From stdpp Require Import base gmap sets list strings.
From S2P Require Import Prelude CppString StdMap BoostAlgo PTree ConfigTypes Files LogWriter Kernel Sim.
From S2P Require Import Secure Process RpcConnection RpcConnectionSpec RpcServer ConfigParser ProcessManager ProcessManagerSpec.
From S2P Require Import Supervisord SupervisordSpec DaemonSpec.

Section typing.
Context {K : Type} `{!Kernel K}.

(** A process of the configuration [c]. *)
Record process_typed (c : ProgramConfig) (p : Process) : Prop := {
  pt_config : config_ p = c;
  pt_state : reachable c (core p);
  pt_retries : 0 ≤ retry_count_ p < INT_MAX;
  pt_logs : writers_ok p;
}.

(** [Γ] gives the configuration of every object. *)
Record heap_typed (Γ : gmap nat ProgramConfig) (s : Manager K) : Prop := {
  (** the keys of the map are sorted and distinct, and so are its objects *)
  ht_map : sm_wf (process_map_ s);
  ht_shared : NoDup (process_map_ s).*2;
  (** an object exists exactly while something refers to it *)
  ht_alive id : is_Some (heap s !! id) ↔ id ∈ (process_map_ s).*2 ∨ id ∈ pinned s;
  ht_objects id : match heap s !! id, Γ !! id with
                  | Some p, Some c => process_typed c p
                  | None, None => True
                  | _, _ => False
                  end;
  ht_names n id c : sm_find n (process_map_ s) = Some id → Γ !! id = Some c → name c = n;
  (** a new object gets an identity of its own *)
  ht_fresh id : is_Some (Γ !! id) → (id < next_id s)%nat;
  (** two processes do not share a child *)
  ht_children id1 id2 p1 p2 : heap s !! id1 = Some p1 → heap s !! id2 = Some p2 →
    0 < pid_ p1 → pid_ p1 = pid_ p2 → id1 = id2;
}.

Lemma managed_typed `{!KernelLaws K} `{may_raise : Raised} `{Accounts} N W B T P C b (s : Manager K) :
  0 ≤ b → 1 ≤ N → managed N W B T P C b s → ∃ Γ, heap_typed Γ s.
Proof.
  intros Hb HN (_ & m & cfgs & Hst & _ & Hi & Hpin). exists cfgs. pose proof (i_map _ _ _ _ _ _ _ _ Hi) as Hm.
  assert (Hdom : ∀ id, is_Some (heap s !! id) ↔ is_Some (cfgs !! id)).
  { intros id. rewrite <- (i_cfgs _ _ _ _ _ _ _ _ Hi), lookup_fmap. by rewrite fmap_is_Some. }
  constructor; rewrite ?Hm.
  - apply (st_wf _ _ _ _ Hst).
  - apply (st_ids _ _ _ _ Hst).
  - intros id. rewrite Hpin, Hdom, (st_dom _ _ _ _ Hst). pose proof (not_elem_of_nil id). tauto.
  - intros id. pose proof (Hdom id) as Hd. destruct (heap s !! id) as [p|] eqn:Hp, (cfgs !! id) as [c|] eqn:Hc; try done.
    + pose proof (i_procs _ _ _ _ _ _ _ _ Hi _ _ Hp) as Hok.
      assert (config_ p = c) as Hpc.
      { pose proof (i_cfgs _ _ _ _ _ _ _ _ Hi) as Hcfgs. rewrite <- Hcfgs, lookup_fmap, Hp in Hc. by injection Hc. }
      split; [done|rewrite <- Hpc; apply Hok| |apply Hok].
      by destruct (object_bounds N W m cfgs HN Hst T P C b s id p Hi Hb Hp).
    + destruct (proj1 Hd ltac:(by eexists)); done.
    + destruct (proj2 Hd ltac:(by eexists)); done.
  - apply (st_names _ _ _ _ Hst).
  - apply (i_next _ _ _ _ _ _ _ _ Hi).
  - apply (i_pids _ _ _ _ _ _ _ _ Hi).
Qed.

Definition daemon_typed (d : Daemon K) : Prop :=
  (∃ Γ, heap_typed Γ (process_manager_ d)) ∧ map_Forall kept (connections_ d).
End typing.

(** C17: The heap stays typed while the daemon runs: when its construction
    and its event loop are over, normally or by an exception, and before the
    destructor.  Whatever connections, requests, reloads (but none nested in
    another operation), signals and events the daemon has dealt with, the
    map is sorted, its names refer to distinct live objects, an object is
    alive exactly while the map or a local pointer refers to it, each has
    the configuration it was created with, whose name is its key, is in a
    state its state machine reaches, with retries in the range of an [int]
    and its log writers as they were opened, and no two have the same
    child.  The one reference that dangled on the way is accounted for: the
    key that the log line of [remove_process] reads, only of programs that a
    configuration dropped, and only if a sink takes records of level info.
    A connection that is kept has a completion to come, at most
    [MAX_REQUEST_SIZE] bytes of a request, and one response at most, which
    it has only when it no longer reads. *)
Theorem daemon_keeps_typing `{PropertyTree, StringAlgo, EnvGrammar} {K} `{!Kernel K} {laws : KernelLaws K} {may_raise : Raised}
    N W B config info events agenda fuel depth (w : World K) :
  limits N W B events agenda fuel depth w →
  (∀ path w c w', parse_file (K := K) path w = Ret c w' → fits W B c) → fits W B config → tracked w →
  let typed (d : Daemon K) :=
    daemon_typed d ∧ reads_known (accounts := run_accounts (K := K) info config) (process_manager_ d) in
  ewp (construct config ;; run fuel depth events) (λ _, typed) (λ _, typed)
    (new_daemon config info agenda w).
Proof.
  intros Hl Hfiles Hfit Ht typed.
  destruct (daemon_keeps N W B config info events agenda fuel depth w Hl Hfiles Hfit Ht) as [_ Hrun].
  pose proof (l_some _ _ _ _ _ _ _ _ Hl) as HN.
  assert (Hend : ∀ C d', served (accounts := run_accounts (K := K) info config) N W B (clock (wk w))
      (Z.of_nat (length (concat agenda))) C 0 d' → typed d').
  { intros C d' (_ & Hconns & Hd). split; [|apply Hd]. split; [|done].
    eapply managed_typed; [|exact HN|exact Hd]. lia. }
  eapply ewp_mono; [exact Hrun|intros ? d'; apply Hend|]. intros e d' [Hd' _]. by eapply Hend.
Qed.

Lemma daemon_keeps_typing_witness :
  let typed (d : Daemon Sim) := daemon_typed d ∧ reads_known
    (accounts := @run_accounts ex_trees classic_algo ex_env Sim _ true (d_config (ex_daemon ex_manager)))
    (process_manager_ d) in
  ewp (@construct Sim _ (d_config (ex_daemon ex_manager)) ;;
       @run ex_trees classic_algo ex_env Sim _ ex_fuel 4 ex_events) (λ _, typed) (λ _, typed)
    (new_daemon (d_config (ex_daemon ex_manager)) true ex_throwing world0).
Proof.
  apply (@daemon_keeps_typing ex_trees classic_algo ex_env Sim _ sim_laws ex_raised 2 10 1
    (d_config (ex_daemon ex_manager)) true ex_events ex_throwing ex_fuel 4 world0).
  - split; [lia|lia|by split|by vm_compute|by vm_compute|by repeat constructor|].
    unfold ex_fuel. rewrite Z2Nat.id by (by vm_compute). by vm_compute.
  - apply ex_files.
  - split_and!; [|apply NoDup_singleton|simpl; lia].
    intros p ->%list_elem_of_singleton. apply ex_program_ok.
  - done.
Defined.
