(* ===== verification/InterleaveSpec.v ===== *)
(** * Connections side by side

    The daemon serves any number of connections in one loop, a completion at
    a time.  This file shows that they do not disturb one another: whatever
    else happens between the chunks of a request, the request is answered as
    if it had come in one piece, from the state of the daemon at its last
    chunk, and its connection lives until the response is written. *)

From Stdlib Require Import ZArith NArith Ascii String.
From stdpp Require Import base gmap sets list strings.
From S2P Require Import Prelude CppString StdMap BoostAlgo PTree ConfigTypes Files LogWriter Kernel Sim.
From S2P Require Import Secure Process XmlRpc RpcConnection RpcConnectionSpec RpcServer ConfigParser.
From S2P Require Import ProcessManager ProcessManagerSpec Supervisord SupervisordSpec DaemonSpec.

Section interleaving.
Context `{PropertyTree, StringAlgo, EnvGrammar} {K : Type} `{!Kernel K}.
Local Abbreviation D := (Daemon K).
Variables fuel depth : nat.

(** One turn of the loop. *)
Definition turn (e : daemon_event) : M D unit := run_posted fuel depth ;; handle_event fuel depth e.

(** The connection observed. *)
Variable n : nat.

Definition about (e : daemon_event) : bool :=
  match e with Received m _ _ | Written m => bool_decide (m = n) | _ => false end.

Definition chunk (e : daemon_event) : bytes :=
  match e with Received m _ data => if bool_decide (m = n) then data else [] | _ => [] end.

(** What the events bring for it, in order. *)
Definition received (events : list daemon_event) : bytes := concat (map chunk events).

(** Its peer neither fails nor closes. *)
Definition sound (e : daemon_event) : Prop :=
  match e with Received m error _ => m = n → error = None | _ => True end.

(** It is [c], and the next connection is another one. *)
Definition holds (c : Connection) (d : D) : Prop :=
  connections_ d !! n = Some c ∧ (n < accepted (rpc_server_ d))%nat.

(** The one answer to [request] with body [xml]. *)
Definition answer (request xml : bytes) : M D unit := λ d,
  let reply body d :=
    set_connections (<[n := mkConn request false [generate_http_response_ body] true]> (connections_ d)) d in
  match parse_xmlrpc_request_ xml with
  | Err e => Ret tt (reply (generate_xmlrpc_fault_ 1 (what e)) d)
  | Ok (method_name, params) =>
    match dispatch_method (register_rpc_handlers_ fuel depth) method_name params d with
    | Ret result d => Ret tt (reply (generate_xmlrpc_response_ result) d)
    | Throw e d => Ret tt (reply (generate_xmlrpc_fault_ 1 (what e)) d)
    | Halt h d => Halt h (set_connections (delete n (connections_ d)) d)
    | Undef => Undef
    | NoFuel => NoFuel
    end
  end.

(** ** What leaves the connection alone *)

Section kept.
Variable c : Connection.
Local Abbreviation same := (preserves (holds c)).

Lemma same_manager {A} (op : M (Manager K) A) : same (on_manager op).
Proof. apply (preserves_zoom _ _ _ (λ _, True)); [by intros ????|done|by intros [] ? [] _]. Qed.

Lemma same_store_state st : same (store_state st).
Proof. by apply preserves_modify. Qed.

Lemma same_store_config cfg : same (store_config cfg).
Proof. by apply preserves_modify. Qed.

Lemma same_store_posted hs : same (store_posted hs).
Proof. by apply preserves_modify. Qed.

#[local] Hint Resolve same_manager same_store_state same_store_config same_store_posted : sup.

Lemma same_reload : same (reload_config_ fuel depth).
Proof. unfold reload_config_. preserve. Qed.

Lemma same_posted : same (run_posted fuel depth).
Proof. unfold run_posted. preserve. Qed.

Lemma same_stop : same (stop_daemon fuel depth).
Proof. unfold stop_daemon. preserve. Qed.

#[local] Hint Resolve same_reload same_posted same_stop : sup.

Lemma same_handlers :
  registered (λ h, ∀ params, same (h params)) (register_rpc_handlers_ (K := K) fuel depth).
Proof.
  apply (registered_all _ _ (λ h, h)).
  - repeat (apply Forall_cons; split); [..|by apply Forall_nil]; intros params; cbn [snd];
      unfold rpc_get_state, rpc_shutdown, post, rpc_reload_config, rpc_api_version, rpc_get_identification,
        rpc_get_pid; preserve.
  - apply (registered_all _ _ (λ h params, on_manager (h params))); [|done].
    repeat (apply Forall_cons; split); [..|by apply Forall_nil]; intros params; preserve.
Qed.

Lemma same_dispatch m ps : same (dispatcher (Some (register_rpc_handlers_ (K := K) fuel depth)) m ps).
Proof.
  unfold dispatcher, dispatch_method.
  destruct (sm_find m _) as [h|] eqn:Hh; [by apply (same_handlers m h Hh)|preserve].
Qed.

(** A completion of another connection. *)
Lemma same_connection m c' (op : M (Connection * D) unit) : m ≠ n →
  preserves (λ s, holds c s.2) op → same (on_connection m c' op).
Proof.
  intros Hm Hop d d' Hd. unfold on_connection.
  specialize (Hop (c', d)). destruct (op (c', d)) as [a [c1 d1]|e [c1 d1]|h [c1 d1]| |]; intros [= <-];
    (destruct (Hop (c1, d1) Hd eq_refl) as [Hc Ha]; split; [|done]; cbn;
     destruct (held c1); [by rewrite lookup_insert_ne|by rewrite lookup_delete_ne]).
Qed.

Lemma same_conn_field f : preserves (λ s : Connection * D, holds c s.2) (update_conn f).
Proof. by apply preserves_modify. Qed.

Lemma same_read error data :
  preserves (λ s, holds c s.2) (handle_read_ (rpc_dispatcher (K := K) fuel depth) error data).
Proof.
  unfold handle_read_, begin_read_, set_request, send_response_, process_request_, this_conn, rpc_dispatcher.
  cbv iota. preserve; try apply same_conn_field.
  apply (preserves_zoom _ _ _ (holds c)); [apply same_dispatch|done..].
Qed.

Lemma same_write : preserves (λ s : Connection * D, holds c s.2) handle_write_.
Proof. apply same_conn_field. Qed.

Lemma same_accept error : same (handle_event fuel depth (Accepted error)).
Proof.
  intros d d' [Hn Hlt]. cbn [handle_event]. unfold mbind, M_bind, gets.
  destruct (negb (accepting (rpc_server_ d))); [by intros [= <-]|].
  unfold on_server, zoom. destruct error; cbn; rewrite handle_accept_eq; cbn; intros [= <-];
    (split; cbn; [|lia]); [done|rewrite lookup_insert_ne by lia; done].
Qed.

(** An event that is not about the connection, or that its state does not
    allow. *)
Lemma same_event e :
  match e with
  | Received m _ _ => m = n → reading c = false
  | Written m => m = n → writing c = false
  | _ => True
  end → same (turn e).
Proof.
  intros He. unfold turn. apply preserves_bind; [apply same_posted|intros ?].
  assert (Hcompletion : ∀ m outstanding op, (m = n → outstanding c = false) →
    preserves (λ s, holds c s.2) op → same (complete m outstanding op)).
  { intros m outstanding op Hno Hop d d' Hd. unfold complete, mbind, M_bind, gets.
    destruct (connections_ d !! m) as [c'|] eqn:Hm; [|by intros [= <-]].
    destruct (outstanding c') eqn:Ho; [|by intros [= <-]].
    apply same_connection; [|done|done]. intros ->. destruct Hd as [Hc _]. rewrite Hm in Hc.
    injection Hc as ->. by rewrite Hno in Ho. }
  destruct e as [error|m error data|m| | |h]; [apply same_accept| | |cbn [handle_event]; preserve..].
  - apply Hcompletion; [done|apply same_read].
  - apply Hcompletion; [done|apply same_write].
Qed.
End kept.

(** ** The request *)

Local Abbreviation collecting old := (holds (mkConn old true [] true)).

Lemma turn_chunk h b old error data r d d' : well_framed h b → framed h b = (old ++ data) ++ r → r ≠ [] →
  error = None → collecting old d → turn (Received n error data) d = Ret tt d' → collecting (old ++ data) d'.
Proof.
  intros Hwf Hp Hr -> Hd. unfold turn, mbind at 1, M_bind at 1.
  pose proof (same_posted (mkConn old true [] true) d) as Hposted.
  destruct (run_posted fuel depth d) as [[] d1| | | |]; try done.
  destruct (Hposted d1 Hd eq_refl) as [Hn Hlt]. unfold handle_event, complete, mbind, M_bind, gets.
  rewrite Hn. cbn [reading]. unfold on_connection. rewrite (handle_read_more _ h b old data r d1 Hwf Hp Hr).
  intros [= <-]. split; [|done]. cbn. by rewrite lookup_insert_eq.
Qed.

Lemma turns_collect h b events r d d' old : well_framed h b → Forall sound events →
  framed h b = (old ++ received events) ++ r → r ≠ [] →
  collecting old d → mfor events turn d = Ret tt d' → collecting (old ++ received events) d'.
Proof.
  intros Hwf Hs. revert old d. induction Hs as [|e events He Hs IH]; intros old d Hp Hr Hd; cbn [mfor].
  { intros [= <-]. cbn. by rewrite app_nil_r. }
  unfold mbind, M_bind. destruct (turn e d) as [[] d1| | | |] eqn:Eturn; try done.
  change (received (e :: events)) with (chunk e ++ received events) in *. rewrite app_assoc in Hp |- *.
  apply IH; [done..|].
  assert (Hother : chunk e = [] → match e with Received m _ _ => m ≠ n | _ => True end → collecting (old ++ chunk e) d1).
  { intros -> Hne. rewrite app_nil_r.
    apply (same_event (mkConn old true [] true) e) with d; [by destruct e|done|by rewrite Eturn]. }
  destruct e as [|m error data| | | |]; try (by apply Hother). cbn [chunk] in *.
  case_bool_decide as Hm; [subst m|by apply Hother].
  eapply (turn_chunk h b old error data (received events ++ r)); [done| | |by apply He|done|done].
  - by rewrite Hp, !app_assoc.
  - by intros [? ?]%app_nil.
Qed.

(** The last chunk. *)
Lemma last_chunk h b old data d : well_framed h b → framed h b = old ++ data → collecting old d →
  handle_event fuel depth (Received n None data) d = answer (framed h b) b d.
Proof.
  intros Hwf Hp [Hn _]. unfold handle_event, complete, mbind, M_bind, gets. rewrite Hn. cbn [reading].
  unfold on_connection. rewrite (handle_read_rest _ h b) by done. unfold answer_request, answer.
  destruct (parse_xmlrpc_request_ b) as [[m ps]|e]; [|done]. cbn [rpc_dispatcher snd].
  unfold dispatcher. by destruct (dispatch_method _ m ps d).
Qed.

Lemma answer_holds request xml d d' c : holds c d → answer request xml d = Ret tt d' →
  ∃ response, holds (mkConn request false [response] true) d'.
Proof.
  intros Hd. unfold answer. destruct (parse_xmlrpc_request_ xml) as [[m ps]|e].
  - pose proof (same_dispatch c m ps d) as Hsame. unfold dispatcher in Hsame.
    destruct (dispatch_method _ m ps d) as [result d1|e d1| | |]; try done; intros [= <-];
      (eexists; split; [apply lookup_insert_eq|by apply (Hsame d1)]).
  - intros [= <-]. eexists. split; [apply lookup_insert_eq|apply Hd].
Qed.

Lemma turns_same c events d d' : reading c = false → Forall (λ e, e ≠ Written n) events →
  holds c d → mfor events turn d = Ret tt d' → holds c d'.
Proof.
  intros Hr Hev. revert d. induction Hev as [|e events He _ IH]; intros d Hd; cbn [mfor]; [by intros [= <-]|].
  unfold mbind, M_bind. destruct (turn e d) as [[] d1| | | |] eqn:Eturn; try done.
  apply IH, (same_event c e) with d; [destruct e; by try intros ->|done|by rewrite Eturn].
Qed.

Lemma written_closes c d : writing c = true → reading c = false → holds c d →
  handle_event fuel depth (Written n) d = Ret tt (set_connections (delete n (connections_ d)) d).
Proof.
  intros Hw Hr [Hn _]. unfold handle_event, complete, mbind, M_bind, gets. rewrite Hn, Hw.
  unfold on_connection, handle_write_, update_conn, modify, keep_connection, held, writing. cbn. rewrite Hr. cbn.
  by rewrite andb_false_r.
Qed.

Lemma accepted_reads d d' : accepting (rpc_server_ d) = true → accepted (rpc_server_ d) = n →
  handle_event fuel depth (Accepted false) d = Ret tt d' → collecting [] d'.
Proof.
  intros Ha Hn. cbn [handle_event]. unfold mbind, M_bind, gets. rewrite Ha. cbn.
  unfold on_server, zoom. rewrite handle_accept_eq. cbn. intros [= <-]. rewrite Hn.
  split; cbn; [by rewrite lookup_insert_eq|lia].
Qed.

(** C19: Connections do not disturb one another.  A connection is accepted
    and a request with headers [h] and body [b] arrives on it in any chunks,
    while anything else happens between them: other connections come, send,
    are answered and go, signals arrive, the configuration is reloaded, the
    manager works.  Then its last chunk makes the daemon do exactly what
    the request says, once, in the state it has by then, and send exactly
    one response; and whatever happens next, the connection stays until the
    response is written, and is then closed and destroyed. *)
Theorem requests_interleave h b events data d0 d1 :
  well_framed h b → received events ++ data = framed h b → data ≠ [] → Forall sound events →
  accepting (rpc_server_ d0) = true → accepted (rpc_server_ d0) = n →
  (handle_event fuel depth (Accepted false) ;; mfor events turn) d0 = Ret tt d1 →
  handle_event fuel depth (Received n None data) d1 = answer (framed h b) b d1
  ∧ ∀ d2 later d3, answer (framed h b) b d1 = Ret tt d2 →
      Forall (λ e, e ≠ Written n) later → mfor later turn d2 = Ret tt d3 →
      handle_event fuel depth (Written n) d3 = Ret tt (set_connections (delete n (connections_ d3)) d3).
Proof.
  intros Hwf Hp Hdata Hsound Haccept Hn. unfold mbind, M_bind.
  destruct (handle_event fuel depth (Accepted false) d0) as [[] d| | | |] eqn:E0; try done. intros Hturns.
  assert (Hlast : collecting (received events) d1).
  { apply (turns_collect h b events data d d1 []); [done..|by eapply accepted_reads|done]. }
  split; [by apply (last_chunk h b (received events))|]. intros d2 later d3 Hanswer Hlater Hafter.
  destruct (answer_holds _ _ _ _ _ Hlast Hanswer) as [response Hd2].
  revert Hd2. set (c := mkConn _ _ _ _). intros Hd2.
  pose proof (turns_same c later d2 d3 eq_refl Hlater Hd2 Hafter) as Hd3. by apply (written_closes c).
Qed.
End interleaving.

(** ** The property at a concrete input *)

Definition ex_listening : Daemon Sim :=
  let d := ex_daemon ex_manager in
  mkDaemon (d_config d) (daemon_state_ d) (process_manager_ d) (mkServer #"/run/s.sock" true true 0)
    (posted_ d) (connections_ d).

(** The headers, a second connection that is lost, a tick of the timer, and
    the blank line; the body comes last. *)
Definition ex_between : list daemon_event :=
  [Received 0 None ex_headers; Accepted false; Received 1 None #"POST"; Managed OnTimer;
   Received 1 (Some Eof) []; Received 0 None CRLFCRLF].

Local Abbreviation ex_turns events :=
  (@handle_event simple_trees classic_algo ex_env Sim _ 50 3 (Accepted false) ;;
   mfor events (@turn simple_trees classic_algo ex_env Sim _ 50 3)).

Definition ex_collected : Daemon Sim :=
  match ex_turns ex_between ex_listening with Ret _ d => d | _ => ex_listening end.

Lemma requests_interleave_witness :
  ex_turns ex_between ex_listening = Ret tt ex_collected
  ∧ (@handle_event simple_trees classic_algo ex_env Sim _ 50 3 (Received 0 None #"getPID!") ex_collected
     = @answer simple_trees classic_algo ex_env Sim _ 50 3 0 (framed ex_headers #"getPID!") #"getPID!" ex_collected
     ∧ ∀ d2 later d3,
         @answer simple_trees classic_algo ex_env Sim _ 50 3 0 (framed ex_headers #"getPID!") #"getPID!" ex_collected
         = Ret tt d2 → Forall (λ e, e ≠ Written 0) later →
         mfor later (@turn simple_trees classic_algo ex_env Sim _ 50 3) d2 = Ret tt d3 →
         @handle_event simple_trees classic_algo ex_env Sim _ 50 3 (Written 0) d3
         = Ret tt (set_connections (delete 0%nat (connections_ d3)) d3)).
Proof.
  assert (Eturns : ex_turns ex_between ex_listening = Ret tt ex_collected) by (vm_compute; reflexivity).
  split; [exact Eturns|].
  apply (@requests_interleave simple_trees classic_algo ex_env Sim _ 50 3 0 ex_headers #"getPID!" ex_between
    #"getPID!" ex_listening ex_collected); [apply ex_framed|reflexivity|done|by repeat constructor|done|done|exact Eturns].
Defined.
