(* ===== verification/Platform.v ===== *)
(** * util/platform.cpp

    The replacement for [pipe2] on systems without it: [pipe], then
    [fcntl] on both descriptors.  The calls are an interface on the state
    of the descriptors. *)

From Stdlib Require Import ZArith NArith Ascii String.
From stdpp Require Import base gmap list.
From S2P Require Import Prelude.

(** The flag of [open] and [pipe2], and the flag of a descriptor. *)
Definition O_CLOEXEC : Z := 0x80000.
Definition FD_CLOEXEC : Z := 1.

(** [pipe], [fcntl(fd, F_GETFD)] and [fcntl(fd, F_SETFD, flags)]. *)
Class Descriptors (S : Type) := {
  pipe : S → (Z * (Z * Z)) * S;
  getfd : Z → S → Z * S;
  setfd : Z → Z → S → Z * S;
}.

(** What POSIX says of them: a pipe's descriptors are distinct, open and
    without flags; [F_GETFD] gives the flags of an open descriptor, and
    [F_SETFD] sets them. *)
Class DescriptorLaws (S : Type) `{!Descriptors S} := {
  flags_of : S → Z → option Z;
  pipe_flags s p q s' : pipe s = ((0, (p, q)), s') → p ≠ q ∧ flags_of s' p = Some 0 ∧ flags_of s' q = Some 0;
  getfd_flags fd s f : flags_of s fd = Some f → ∃ s', getfd fd s = (f, s') ∧ flags_of s' = flags_of s;
  setfd_flags fd v s f : flags_of s fd = Some f →
    ∃ s', setfd fd v s = (0, s') ∧ ∀ fd', flags_of s' fd' = if decide (fd' = fd) then Some v else flags_of s fd';
}.

Section pipe2.
Context {S : Type} `{!Descriptors S}.

Definition on_descriptors {A} (f : S → A * S) : M S A := λ s, let '(a, s') := f s in Ret a s'.

Definition add_flags (fd flags : Z) : M S unit :=
  f ← on_descriptors (getfd fd);
  on_descriptors (setfd fd (Z.lor f flags)) ;;
  mret tt.

(** The result, and the two descriptors. *)
Definition pipe2 (flags : Z) : M S (Z * (Z * Z)) :=
  '(res, fds) ← on_descriptors pipe;
  if bool_decide (res ≠ 0) then mret (res, fds) else
  add_flags fds.1 flags ;;
  add_flags fds.2 flags ;;
  mret (res, fds).

Context {laws : DescriptorLaws S}.

Lemma add_flags_ok fd flags s f : flags_of s fd = Some f →
  twp (add_flags fd flags) (λ _ s', ∀ fd', flags_of s' fd'
    = if decide (fd' = fd) then Some (Z.lor f flags) else flags_of s fd') s.
Proof.
  intros Hf. destruct (getfd_flags fd s f Hf) as (s1 & Hg & H1). unfold add_flags, twp, on_descriptors, mbind, M_bind.
  rewrite Hg. rewrite <- H1 in Hf. destruct (setfd_flags fd (Z.lor f flags) s1 f Hf) as (s2 & Hs & H2).
  rewrite Hs. cbn. intros fd'. by rewrite H2, H1.
Qed.

(** The descriptors get the flags as they are given. *)
Lemma pipe2_flags flags s :
  twp (pipe2 flags) (λ '(res, (p, q)) s', res = 0 → flags_of s' p = Some flags ∧ flags_of s' q = Some flags) s.
Proof.
  unfold pipe2. apply twp_bind. unfold twp at 1, on_descriptors. destruct (pipe s) as [[res [p q]] s1] eqn:Hp.
  case_bool_decide as Hres; [by apply twp_ret|]. assert (res = 0) as -> by lia.
  destruct (pipe_flags s p q s1 Hp) as (Hpq & H1 & H2). apply twp_bind. cbn [fst snd].
  eapply twp_mono; [by apply (add_flags_ok p flags s1 0)|]. cbn beta. intros _ s2 Hs2. apply twp_bind.
  assert (flags_of s2 q = Some 0) as Hq by (by rewrite Hs2, decide_False).
  eapply twp_mono; [by apply (add_flags_ok q flags s2 0)|]. cbn beta. intros _ s3 Hs3. apply twp_ret. intros _.
  rewrite !Hs3, decide_False, decide_True, Hs2, decide_True by done. by rewrite Z.lor_0_l.
Qed.

(** The source gives it the flag of [open] where that of a descriptor is
    needed, so the pipe stays open over [exec]. *)
Lemma pipe2_not_closed s :
  twp (pipe2 O_CLOEXEC) (λ '(res, (p, q)) s', res = 0 →
    ∀ fd f, fd = p ∨ fd = q → flags_of s' fd = Some f → Z.land f FD_CLOEXEC = 0) s.
Proof.
  eapply twp_mono; [apply pipe2_flags|]. intros [res [p q]] s' Hf Hres fd f Hfd Hfl.
  destruct (Hf Hres) as [Hp Hq]. assert (f = O_CLOEXEC) as -> by (destruct Hfd; subst; congruence). done.
Qed.
End pipe2.

(** A table of descriptors. *)
#[global] Instance fd_table : Descriptors (gmap Z Z) := {|
  pipe t := let p := fresh (dom t) in let q := fresh ({[p]} ∪ dom t) in ((0, (p, q)), <[q:=0]> (<[p:=0]> t));
  getfd fd t := (default (-1) (t !! fd), t);
  setfd fd v t := if decide (is_Some (t !! fd)) then (0, <[fd:=v]> t) else (-1, t);
|}.

#[global, program] Instance fd_table_laws : DescriptorLaws (gmap Z Z) := {| flags_of t fd := t !! fd |}.
Next Obligation.
  cbn. intros s p q s' [= <- <- <-]. set (p := fresh (dom s)). set (q := fresh _).
  assert (q ≠ p) as Hq. { intros Hqp. apply (is_fresh ({[p]} ∪ dom s)). fold q. set_solver. }
  split_and!; [done|by rewrite lookup_insert_ne, lookup_insert_eq|by rewrite lookup_insert_eq].
Qed.
Next Obligation. cbn. intros fd s f ->. by exists s. Qed.
Next Obligation.
  cbn. intros fd v s f Hf. rewrite decide_True by (by eexists). exists (<[fd:=v]> s). split; [done|].
  intros fd'. destruct (decide (fd' = fd)) as [->|]; [by rewrite lookup_insert_eq|by rewrite lookup_insert_ne].
Qed.
