(* ===== verification/PidFile.v ===== *)
(** * util/pidfile.h

    The guard of the pid file.  Its constructor and destructor are written
    as programs over system calls, [prog], so that they can be run both by
    one daemon on its [World] ([exec]) and by several daemons at once, call
    by call, on the file system they share ([PidFileSpec]). *)

From Stdlib Require Import ZArith NArith Ascii String.
From stdpp Require Import base list strings.
From S2P Require Import Prelude CppString Files Kernel Secure RpcConnection.

(** A program over system calls. *)
Inductive prog (A : Type) :=
| Done (r : A)
| Do (c : call) (k : answer c → prog A).
Arguments Done {A} r.
Arguments Do {A} c k.

Fixpoint exec {K} `{!Kernel K} {A} (p : prog A) : M (World K) A :=
  match p with
  | Done r => mret r
  | Do c k => r ← do_call c; exec (k r)
  end.

(** [path_] and [fd_]; a moved-from guard has no descriptor. *)
Record PidFileGuard := mkGuard { path_ : bytes; fd_ : Z }.

Definition pidfile_error (text : bytes) : result PidFileGuard := Err (mkExn RuntimeError text).

(** The constructor after the path was validated, from the last call to the
    first.  [errno] is read after [close] when the write fails. *)
Definition after_pid (path : bytes) (fd n : Z) : prog (result PidFileGuard) :=
  if n <? 0 then
    Do (Close fd) (λ _, Do Strerror (λ e,
      Done (pidfile_error (#"Failed to write pidfile: " ++ path ++ #" - " ++ e))))
  else Done (Ok (mkGuard path fd)).

Definition write_pid (path : bytes) (fd pid : Z) : prog (result PidFileGuard) :=
  Do (WriteFd fd (to_string pid ++ NL)) (after_pid path fd).

Definition after_flock (path : bytes) (fd r : Z) : prog (result PidFileGuard) :=
  if r <? 0 then
    Do (Close fd) (λ _,
      Done (pidfile_error (#"Another instance is already running (pidfile locked): " ++ path)))
  else Do Getpid (write_pid path fd).

Definition after_open (path : bytes) (fd : Z) : prog (result PidFileGuard) :=
  if fd <? 0 then
    Do Strerror (λ e, Done (pidfile_error (#"Failed to open pidfile: " ++ path ++ #" - " ++ e)))
  else Do (Flock fd) (after_flock path fd).

Definition acquire (path : bytes) : prog (result PidFileGuard) :=
  Do (OpenTruncated path) (after_open path).

(** The destructor. *)
Definition release_guard (g : PidFileGuard) : prog unit :=
  if fd_ g <? 0 then Done tt
  else Do (Close (fd_ g)) (λ _, Do (RemoveFile (path_ g)) (λ _, Done tt)).

(** The move constructor and the move assignment between different guards:
    the guard moved to, and the guard moved from, whose path is
    unspecified. *)
Definition move_guard (unspecified : bytes) (other : PidFileGuard) : PidFileGuard * PidFileGuard :=
  (other, mkGuard unspecified (-1)).

Definition assign_guard (unspecified : bytes) (this other : PidFileGuard)
    : prog (PidFileGuard * PidFileGuard) :=
  let moved := (mkGuard (path_ other) (fd_ other), mkGuard unspecified (-1)) in
  if 0 <=? fd_ this then Do (Close (fd_ this)) (λ _, Done moved) else Done moved.

Section guard.
Context {K : Type} `{!Kernel K}.

(** [PidFileGuard::PidFileGuard(path)] *)
Definition create_guard (path : bytes) : M (World K) PidFileGuard :=
  path ← validate_pidfile_path path;
  r ← exec (acquire path);
  lift_result r.

(** [PidFileGuard::~PidFileGuard] *)
Definition destroy_guard (g : PidFileGuard) : M (World K) unit := exec (release_guard g).
End guard.
