(* ===== verification/PidFileSpec.v ===== *)
(** * Properties of util/pidfile.h

    Several daemons with one pid file, whose calls interleave in any way on
    the file system they share: as long as nobody has removed the file, at
    most one of them runs.  Removing it after the lock was released breaks
    this, as a concrete interleaving shows. *)

From Stdlib Require Import ZArith NArith Ascii String.
From stdpp Require Import base gmap sets list strings relations.
From S2P Require Import Prelude CppString Files Kernel Secure RpcConnection PidFile.

(** ** The shared file system

    The file at the path, by inode; the content of the inodes; the
    descriptors of the daemons; the descriptor that holds the lock of an
    inode; and whether the file was ever removed. *)
Record Shared := mkShared {
  at_path : option nat;
  content : gmap nat bytes;
  descriptors : gmap (nat * Z) nat;
  lock : gmap nat (nat * Z);
  removed : bool;
}.

(** What POSIX allows a call of daemon [i] to answer and to do. *)
Inductive posix (path : bytes) (i : nat) : ∀ c : call, answer c → Shared → Shared → Prop :=
| px_open_fails fd s : fd < 0 → posix path i (OpenTruncated path) fd s s
| px_open_old fd ino s : 0 ≤ fd → descriptors s !! (i, fd) = None → at_path s = Some ino →
    posix path i (OpenTruncated path) fd s
      (mkShared (at_path s) (<[ino := []]> (content s)) (<[(i, fd) := ino]> (descriptors s)) (lock s) (removed s))
| px_open_new fd ino s : 0 ≤ fd → descriptors s !! (i, fd) = None → at_path s = None →
    (∀ d, descriptors s !! d ≠ Some ino) →
    posix path i (OpenTruncated path) fd s
      (mkShared (Some ino) (<[ino := []]> (content s)) (<[(i, fd) := ino]> (descriptors s)) (lock s) (removed s))
| px_flock_fails fd r s : r < 0 → posix path i (Flock fd) r s s
| px_flock fd r ino s : 0 ≤ r → descriptors s !! (i, fd) = Some ino →
    lock s !! ino = None ∨ lock s !! ino = Some (i, fd) →
    posix path i (Flock fd) r s
      (mkShared (at_path s) (content s) (descriptors s) (<[ino := (i, fd)]> (lock s)) (removed s))
| px_getpid pid s : posix path i Getpid pid s s
| px_strerror e s : posix path i Strerror e s s
| px_write_fails fd text n s : n < 0 → posix path i (WriteFd fd text) n s s
| px_write fd text n ino old s : 0 ≤ n → descriptors s !! (i, fd) = Some ino → content s !! ino = Some old →
    posix path i (WriteFd fd text) n s
      (mkShared (at_path s) (<[ino := old ++ text]> (content s)) (descriptors s) (lock s) (removed s))
| px_close fd ino s : descriptors s !! (i, fd) = Some ino →
    posix path i (Close fd) tt s
      (mkShared (at_path s) (content s) (delete (i, fd) (descriptors s))
         (filter (λ l, l.2 ≠ (i, fd)) (lock s)) (removed s))
| px_remove_fails s : posix path i (RemoveFile path) false s s
| px_remove s : is_Some (at_path s) →
    posix path i (RemoveFile path) true s
      (mkShared None (content s) (descriptors s) (lock s) true).

(** Where a daemon is. *)
Inductive phase :=
| Starting (p : prog (result PidFileGuard))
| Running (g : PidFileGuard)
| Refused (e : exn)
| Stopping (p : prog unit)
| Gone.

Section daemons.
Variable path : bytes.

Definition system : Type := Shared * gmap nat phase.

(** One call, or one change of phase, of one daemon. *)
Inductive step : system → system → Prop :=
| s_launch i s ds : ds !! i = None → step (s, ds) (s, <[i := Starting (acquire path)]> ds)
| s_start i c k r s s' ds : ds !! i = Some (Starting (Do c k)) → posix path i c r s s' →
    step (s, ds) (s', <[i := Starting (k r)]> ds)
| s_running i g s ds : ds !! i = Some (Starting (Done (Ok g))) → step (s, ds) (s, <[i := Running g]> ds)
| s_refused i e s ds : ds !! i = Some (Starting (Done (Err e))) → step (s, ds) (s, <[i := Refused e]> ds)
| s_stop i g s ds : ds !! i = Some (Running g) → step (s, ds) (s, <[i := Stopping (release_guard g)]> ds)
| s_stopping i c k r s s' ds : ds !! i = Some (Stopping (Do c k)) → posix path i c r s s' →
    step (s, ds) (s', <[i := Stopping (k r)]> ds)
| s_gone i s ds : ds !! i = Some (Stopping (Done tt)) → step (s, ds) (s, <[i := Gone]> ds)
| s_crash i d s ds : ds !! i = Some d →
    step (s, ds) (mkShared (at_path s) (content s) (filter (λ e, e.1.1 ≠ i) (descriptors s))
                    (filter (λ l, l.2.1 ≠ i) (lock s)) (removed s), <[i := Gone]> ds).

(** Any file at the path, no daemon. *)
Definition initial (x : system) : Prop :=
  descriptors x.1 = ∅ ∧ lock x.1 = ∅ ∧ removed x.1 = false ∧ x.2 = ∅.

(** ** Exclusion *)

(** The descriptor of daemon [i] holds the lock of its inode. *)
Definition locked (i : nat) (fd : Z) (s : Shared) : Prop :=
  ∃ ino, descriptors s !! (i, fd) = Some ino ∧ lock s !! ino = Some (i, fd).

(** A constructor that will throw. *)
Inductive failing : prog (result PidFileGuard) → Prop :=
| fl_done e : failing (Done (Err e))
| fl_call c k : (∀ r, failing (k r)) → failing (Do c k).

(** Where a constructor can be, with what it holds there. *)
Inductive start_ok (i : nat) (s : Shared) : prog (result PidFileGuard) → Prop :=
| so_open : start_ok i s (acquire path)
| so_flock fd : start_ok i s (Do (Flock fd) (after_flock path fd))
| so_getpid fd : locked i fd s → start_ok i s (Do Getpid (write_pid path fd))
| so_write fd pid : locked i fd s → start_ok i s (write_pid path fd pid)
| so_done fd : locked i fd s → start_ok i s (Done (Ok (mkGuard path fd)))
| so_failing p : failing p → start_ok i s p.

Definition phase_ok (i : nat) (s : Shared) (d : phase) : Prop :=
  match d with
  | Starting p => start_ok i s p
  | Running g => locked i (fd_ g) s
  | _ => True
  end.

Record pid_inv (x : system) : Prop := mkPidInv {
  pi_lock ino d : lock x.1 !! ino = Some d → descriptors x.1 !! d = Some ino;
  pi_one d ino : removed x.1 = false → descriptors x.1 !! d = Some ino → at_path x.1 = Some ino;
  pi_phase i d : x.2 !! i = Some d → phase_ok i x.1 d;
}.

Lemma locked_stable i j c r s s' fd : posix path j c r s s' → i ≠ j → locked i fd s → locked i fd s'.
Proof.
  intros Hp Hne (ino & Hd & Hl). exists ino. destruct Hp; cbn in *; try done.
  - split; [|done]. rewrite lookup_insert_ne; [done|congruence].
  - split; [|done]. rewrite lookup_insert_ne; [done|congruence].
  - split; [done|]. destruct (decide (ino = ino0)) as [<-|].
    + naive_solver.
    + by rewrite lookup_insert_ne.
  - split; [rewrite lookup_delete_ne; [done|congruence]|].
    apply map_lookup_filter_Some. split; [done|]. cbn. congruence.
Qed.

Lemma phase_ok_stable i j c r s s' d : posix path j c r s s' → i ≠ j → phase_ok i s d → phase_ok i s' d.
Proof.
  intros Hp Hne. pose proof (locked_stable i j c r s s' ) as Hl.
  destruct d; cbn; [|by eauto|done..]. intros [ | | | | | ]; constructor; eauto.
Qed.

(** The shared part of the invariant is kept by every call. *)
Lemma posix_shared j c r s s' : posix path j c r s s' →
  (∀ ino d, lock s !! ino = Some d → descriptors s !! d = Some ino) →
  (∀ d ino, removed s = false → descriptors s !! d = Some ino → at_path s = Some ino) →
  (∀ ino d, lock s' !! ino = Some d → descriptors s' !! d = Some ino)
  ∧ (∀ d ino, removed s' = false → descriptors s' !! d = Some ino → at_path s' = Some ino).
Proof.
  intros Hp Hl Ho. destruct Hp; cbn in *; try done.
  - split; [intros ino' d Hd%Hl; rewrite lookup_insert_ne; [done|congruence]|].
    intros d ino' Hr [[<- <-]|[_ Hd]]%lookup_insert_Some; [done|eauto].
  - split; [intros ino' d Hd%Hl; rewrite lookup_insert_ne; [done|congruence]|].
    intros d ino' Hr [[<- <-]|[_ Hd]]%lookup_insert_Some; [done|].
    apply Ho in Hd; [congruence|done].
  - split; [|done]. intros ino' d [[<- <-]|[_ Hd]]%lookup_insert_Some; [done|eauto].
  - split.
    + intros ino' d [Hd Hne]%map_lookup_filter_Some. rewrite lookup_delete_ne; [by apply Hl|]. cbn in Hne. congruence.
    + intros d ino' Hr [_ Hd]%lookup_delete_Some. eauto.
Qed.

(** What a daemon holds after a call of its own. *)
Lemma posix_own i c r s s' : posix path i c r s s' →
  match c return answer c → Prop with
  | Flock fd => λ r, 0 ≤ r → locked i fd s'
  | Getpid | WriteFd _ _ => λ _, ∀ fd, locked i fd s → locked i fd s'
  | _ => λ _, True
  end r.
Proof.
  destruct 1; try done; try lia.
  intros _. exists ino. cbn. split; [done|]. by rewrite lookup_insert_eq.
Qed.

Lemma failing_flock fd r : r < 0 → failing (after_flock path fd r).
Proof.
  intros Hr. unfold after_flock. destruct (Z.ltb_spec r 0); [|lia]. repeat constructor.
Qed.

(** A constructor after its next call. *)
Lemma start_ok_step i s p : start_ok i s p →
  match p with
  | Done _ => True
  | Do c k => ∀ r s', posix path i c r s s' → start_ok i s' (k r)
  end.
Proof.
  intros [|fd|fd Hl|fd pid Hl|fd Hl|p' [e|c k Hk]]; cbn; try done.
  - intros fd s' _. unfold after_open. destruct (fd <? 0).
    + apply so_failing. repeat constructor.
    + apply so_flock.
  - intros r s' Hp%posix_own. unfold after_flock. destruct (Z.ltb_spec r 0).
    + apply so_failing. repeat constructor.
    + apply so_getpid. by apply Hp.
  - intros pid s' Hp%posix_own. apply so_write. by apply Hp.
  - intros n s' Hp%posix_own. unfold after_pid. destruct (Z.ltb_spec n 0).
    + apply so_failing. repeat constructor.
    + apply so_done. by apply Hp.
  - intros r s' _. apply so_failing, Hk.
Qed.

Lemma inv_shared i c r s s' ds d : posix path i c r s s' → pid_inv (s, ds) → phase_ok i s' d →
  pid_inv (s', <[i := d]> ds).
Proof.
  intros Hp [Hl Ho Hph] Hd. destruct (posix_shared _ _ _ _ _ Hp Hl Ho) as [Hl' Ho'].
  constructor; [done|done|]. intros j d'. cbn.
  intros [[<- <-]|[Hne Hj]]%lookup_insert_Some; [done|].
  eapply phase_ok_stable; [exact Hp|congruence|by apply Hph].
Qed.

Lemma inv_local i s ds d : pid_inv (s, ds) → phase_ok i s d → pid_inv (s, <[i := d]> ds).
Proof.
  intros [Hl Ho Hph] Hd. constructor; [done|done|]. intros j d'. cbn.
  intros [[<- <-]|[Hne Hj]]%lookup_insert_Some; [done|by apply Hph].
Qed.

Lemma inv_crash i s ds : pid_inv (s, ds) →
  pid_inv (mkShared (at_path s) (content s) (filter (λ e, e.1.1 ≠ i) (descriptors s))
             (filter (λ l, l.2.1 ≠ i) (lock s)) (removed s), <[i := Gone]> ds).
Proof.
  intros [Hl Ho Hph]. constructor; cbn in *.
  - intros ino d [Hd Hne]%map_lookup_filter_Some. apply map_lookup_filter_Some. by split; [apply Hl|].
  - intros d ino Hr [Hd _]%map_lookup_filter_Some. by eapply Ho.
  - intros j d [[<- <-]|[Hne Hj]]%lookup_insert_Some; [done|].
    assert (Hst : ∀ fd, locked j fd s → locked j fd (mkShared (at_path s) (content s)
      (filter (λ e, e.1.1 ≠ i) (descriptors s)) (filter (λ l, l.2.1 ≠ i) (lock s)) (removed s))).
    { intros fd (ino & H1 & H2). exists ino. cbn. rewrite !map_lookup_filter_Some. cbn. naive_solver. }
    specialize (Hph j d Hj). destruct d; cbn in *; [|by eauto|done..].
    destruct Hph; constructor; eauto.
Qed.

Lemma inv_step x y : step x y → pid_inv x → pid_inv y.
Proof.
  intros Hs Hi. pose proof (pi_phase _ Hi) as Hph. destruct Hs; cbn in Hph.
  - apply inv_local; [done|]. apply so_open.
  - eapply inv_shared; [done|done|]. by apply (start_ok_step i s _ (Hph i _ H)).
  - apply inv_local; [done|]. specialize (Hph i _ H). cbn in *.
    inversion Hph as [| | | | |p' Hf]; subst; [done|]. inversion Hf.
  - by apply inv_local.
  - by apply inv_local.
  - by eapply inv_shared.
  - by apply inv_local.
  - by apply inv_crash.
Qed.

Lemma inv_reached x y : rtc step x y → initial x → pid_inv y.
Proof.
  intros Hr (Hd & Hl & Hrm & Hds). assert (Hi : pid_inv x).
  { destruct x as [s ds]. cbn in *. constructor; cbn; rewrite ?Hd, ?Hl, ?Hds; by intros ???. }
  clear Hd Hl Hrm Hds. induction Hr; eauto using inv_step.
Qed.
End daemons.

(** C15: One daemon per pid file.  However the calls of any number of
    daemons with the same pid file interleave, and whichever of them crash,
    as long as none of them has removed the file, at most one has passed
    the constructor and is running, and it holds the lock of the file that
    is at the path. *)
Theorem pidfile_exclusion path x y i g :
  initial x → rtc (step path) x y → removed y.1 = false →
  y.2 !! i = Some (Running g) →
  (∃ ino, at_path y.1 = Some ino ∧ lock y.1 !! ino = Some (i, fd_ g))
  ∧ ∀ j g', y.2 !! j = Some (Running g') → j = i.
Proof.
  intros Hx Hr Hrm Hi. pose proof (inv_reached _ _ _ Hr Hx) as [_ Ho Hph].
  destruct (Hph i _ Hi) as (ino & Hd & Hl). pose proof (Ho _ _ Hrm Hd) as Ha.
  split; [by exists ino|]. intros j g' Hj. destruct (Hph j _ Hj) as (ino' & Hd' & Hl').
  pose proof (Ho _ _ Hrm Hd'). congruence.
Qed.

(** ** Concrete interleavings *)

(** A daemon that opens the file and finds it unlocked runs. *)
Definition booted (i ino : nat) (s1 : Shared) : Shared :=
  mkShared (at_path s1) (<[ino := to_string 7 ++ NL]> (content s1)) (descriptors s1)
    (<[ino := (i, 3)]> (lock s1)) (removed s1).

Lemma daemon_boots path i s s1 ino (ds : gmap nat phase) :
  ds !! i = None → posix path i (OpenTruncated path) 3 s s1 →
  descriptors s1 !! (i, 3) = Some ino → lock s1 !! ino = None → content s1 !! ino = Some [] →
  rtc (step path) (s, ds) (booted i ino s1, <[i := Running (mkGuard path 3)]> ds).
Proof.
  intros Hds Hopen Hd Hl Hc.
  assert (Hi : ∀ (d : phase) ds', (<[i := d]> ds' : gmap nat phase) !! i = Some d)
    by (intros; apply lookup_insert_eq).
  eapply rtc_l; [by apply s_launch|]. unfold acquire.
  eapply rtc_l; [eapply (s_start path i (OpenTruncated path) (after_open path) 3); [apply Hi|exact Hopen]|]. rewrite insert_insert_eq. cbn.
  eapply rtc_l; [eapply (s_start path i (Flock 3) (after_flock path 3) 0);
                 [apply Hi|eapply px_flock; [lia|exact Hd|by left]]|]. rewrite insert_insert_eq. cbn.
  eapply rtc_l; [eapply (s_start path i Getpid (write_pid path 3) 7); [apply Hi|apply px_getpid]|].
  rewrite insert_insert_eq. unfold write_pid.
  eapply rtc_l; [eapply (s_start path i (WriteFd 3 _) (after_pid path 3) 2);
                 [apply Hi|eapply px_write; [lia|exact Hd|exact Hc]]|]. rewrite insert_insert_eq. cbn.
  eapply rtc_l; [eapply s_running, Hi|]. rewrite insert_insert_eq. apply rtc_refl.
Qed.

Definition no_daemons (file : option nat) : system :=
  (mkShared file (match file with Some ino => {[ ino := #"1" ]} | None => ∅ end) ∅ ∅ false, ∅).

Lemma no_daemons_initial file : initial (no_daemons file).
Proof. done. Qed.

(** One daemon running on a file that was there before. *)
Definition one_shared : Shared :=
  booted 1 0 (mkShared (Some 0%nat) {[ 0%nat := [] ]} {[ (1%nat, 3) := 0%nat ]} ∅ false).

Lemma one_runs path :
  rtc (step path) (no_daemons (Some 0%nat)) (one_shared, {[ 1%nat := Running (mkGuard path 3) ]}).
Proof.
  apply (daemon_boots path 1 _ _ 0 ∅); [done| |done..].
  apply (px_open_old path 1 3 0 (no_daemons (Some 0%nat)).1); [lia|done|done].
Qed.

Lemma pidfile_exclusion_witness :
  (∃ ino, at_path one_shared = Some ino ∧ lock one_shared !! ino = Some (1%nat, 3))
  ∧ ∀ j g', ({[ 1%nat := Running (mkGuard #"/run/s.pid" 3) ]} : gmap nat phase) !! j = Some (Running g') → j = 1%nat.
Proof.
  exact (pidfile_exclusion #"/run/s.pid" (no_daemons (Some 0%nat)) _ 1 (mkGuard #"/run/s.pid" 3)
    (no_daemons_initial _) (one_runs _) eq_refl eq_refl).
Defined.

(** A second daemon empties the pid file of the first before it finds the
    file locked. *)
Lemma refused_daemon_truncates path : ∃ y,
  rtc (step path) (no_daemons (Some 0%nat)) y ∧ y.2 !! 1%nat = Some (Running (mkGuard path 3))
  ∧ content one_shared !! 0%nat = Some (to_string 7 ++ NL) ∧ content y.1 !! 0%nat = Some [].
Proof.
  eexists. split.
  - etrans; [apply one_runs|].
    eapply rtc_l; [apply (s_launch path 2); done|]. unfold acquire.
    eapply rtc_l; [|apply rtc_refl].
    eapply (s_start path 2 (OpenTruncated path) (after_open path) 3); [apply lookup_insert_eq|]. apply (px_open_old path 2 3 0); [lia|done|done].
  - done.
Qed.

(** The destructor releases the lock before it removes the file.  A second
    daemon takes the lock in between and runs without a pid file, and a
    third one with a new file runs as well. *)
Lemma close_before_remove_races path : ∃ y,
  rtc (step path) (no_daemons (Some 0%nat)) y
  ∧ y.2 !! 2%nat = Some (Running (mkGuard path 3)) ∧ y.2 !! 3%nat = Some (Running (mkGuard path 3)).
Proof.
  eexists. split.
  - etrans; [apply one_runs|].
    eapply rtc_l; [by eapply (s_stop path 1)|]. rewrite insert_singleton.
    eapply rtc_l; [eapply (s_stopping path 1 (Close 3) (λ _, Do (RemoveFile path) (λ _, Done tt)) tt); [apply lookup_singleton_eq|apply (px_close path 1 3 0); done]|].
    rewrite insert_singleton.
    etrans.
    { eapply (daemon_boots path 2 _ _ 0); [done|apply (px_open_old path 2 3 0); [lia|done|done]|done..]. }
    eapply rtc_l.
    { eapply (s_stopping path 1 (RemoveFile path) (λ _, Done tt) true); [reflexivity|].
      apply px_remove. by eexists. }
    etrans; [|apply rtc_refl].
    eapply (daemon_boots path 3 _ _ 1); [done|apply (px_open_new path 3 3 1); [lia|done|done|]|done..].
    intros d. cbn. intros [[_ ?]|[_ [_ Hd]%lookup_delete_Some]]%lookup_insert_Some; [done|].
    by apply lookup_singleton_Some in Hd as [_ ?].
  - done.
Qed.
