(* ===== verification/Args.v ===== *)
(** * args_parser.{h,cpp}

    The options both programs read.  What Boost.Program_options does with
    their descriptions is an interface, [OptionParser]; the descriptions,
    the counting of [-v] and what the values lead to are the program's. *)

From Stdlib Require Import ZArith NArith Ascii String.
From stdpp Require Import base list strings.
From S2P Require Import Prelude CppString BoostAlgo LogLevels Logger.

(** *** Descriptions and values *)

Record CountValue := mkCount { count_ : Z; store_ : Z }.

Definition new_count : CountValue := mkCount 0 0.

(** One occurrence of the option: the value to store, and the new state. *)
Definition xparse (c : CountValue) : Z * CountValue :=
  let count := to_u64 (count_ c + 1) in (count, mkCount count count).

(** The values an option takes: none, a text with its default, or none but
    its occurrences are counted from 0. *)
Inductive value_semantic :=
| NoValue
| TextValue (default_value : option bytes)
| Counted (value : CountValue).

Record option_description := mkOption {
  option_name : bytes;
  option_value : value_semantic;
  option_help : bytes;
}.

(** [po::variable_value] *)
Inductive variable_value :=
| Given
| Text (text : bytes)
| Number (n : Z).

Abbreviation variables_map := (list (bytes * variable_value)).

Fixpoint variable (vm : variables_map) (name : bytes) : option variable_value :=
  match vm with
  | [] => None
  | (n, v) :: vm => if bool_decide (n = name) then Some v else variable vm name
  end.

Definition vm_count (vm : variables_map) (name : bytes) : bool := bool_decide (is_Some (variable vm name)).

Definition bad_any_cast : exn :=
  mkExn BadAnyCast #"boost::bad_any_cast: failed conversion using boost::any_cast".

(** [vm[name].as<std::string>()] and [as<size_t>()]; a value that is absent,
    or of another type, is not converted. *)
Definition as_text (vm : variables_map) (name : bytes) : result bytes :=
  match variable vm name with Some (Text t) => Ok t | _ => Err bad_any_cast end.
Definition as_size (vm : variables_map) (name : bytes) : result Z :=
  match variable vm name with Some (Number n) => Ok n | _ => Err bad_any_cast end.

(** [po::command_line_parser] with [po::store] and
    [po::collect_unrecognized], and the stream operator of a description. *)
Class OptionParser := {
  run_parser : list option_description → list bytes → result (variables_map * list bytes);
  print_description : bytes → list option_description → bytes;
}.

(** *** The terminal

    The texts written to [std::cout] and [std::cerr], and the logger. *)
Record Terminal := mkTerminal { cout : bytes; cerr : bytes; logging : Logging }.

Definition print (text : bytes) : M Terminal unit :=
  modify (λ t, mkTerminal (cout t ++ text) (cerr t) (logging t)).
Definition print_error (text : bytes) : M Terminal unit :=
  modify (λ t, mkTerminal (cout t) (cerr t ++ text) (logging t)).
Definition on_logger {A} : M Logging A → M Terminal A :=
  zoom logging (λ l t, mkTerminal (cout t) (cerr t) l).

(** *** The parser *)

(** The options both programs have. *)
Definition common_options : list option_description :=
  [ mkOption #"help,h" NoValue #"Show this help message";
    mkOption #"version" NoValue #"Show version information";
    mkOption #"configuration,c" (TextValue (Some #"/etc/supervisord.conf")) #"Configuration file path";
    mkOption #"verbose,v" (Counted new_count) #"Increase logging verbosity (-v, -vv, -vvv)" ].

Section args.
Context `{OptionParser}.
(** [VERSION_STR] *)
Variable version_str : bytes.

(** The options and the arguments, unless a text was asked for.
    [func_parser] are the options the program adds, [func_help] what it
    prints below them. *)
Definition parse_args (argv : list bytes) (caption : bytes) (func_parser : list option_description)
    (func_help : option (M Terminal unit)) : M Terminal (option (variables_map * list bytes)) :=
  let desc := common_options ++ func_parser in
  parsed ← lift_result (run_parser desc argv);
  let '(vm, args) := parsed : variables_map * list bytes in
  if vm_count vm #"version" then print (version_str ++ [LF]) ;; mret None else
  if vm_count vm #"help" then
    print (print_description caption desc ++ [LF]) ;;
    match func_help with Some help => help | None => mret tt end ;;
    mret None
  else
    verbosity ← lift_result (as_size vm #"verbose");
    (if 0 <? verbosity then on_logger (increment_log_level (to_int verbosity)) else mret tt) ;;
    mret (Some (vm, args)).
End args.

(** ** Properties *)

Fixpoint occurrences (n : nat) (c : CountValue) : CountValue :=
  match n with O => c | S n => occurrences n (xparse c).2 end.

(** The option [-v] counts its occurrences. *)
Lemma verbose_counts n : Z.of_nat n < UINT64 → store_ (occurrences n new_count) = Z.of_nat n.
Proof.
  assert (Hgen : ∀ n k, 0 ≤ k → k + Z.of_nat n < UINT64 → store_ (occurrences n (mkCount k k)) = k + Z.of_nat n).
  { clear. intros n. induction n as [|n IH]; intros k Hk Hn; cbn; [lia|].
    rewrite to_u64_id by lia. rewrite IH by lia. lia. }
  intros Hn. unfold new_count. rewrite Hgen; lia.
Qed.

(** Adding a record to the log changes the logger only. *)
Lemma increment_returns n st : twp (increment_log_level n) (λ _ st', sinks st' = sinks st) st.
Proof.
  unfold increment_log_level, get_log_level, set_log_level. apply twp_bind, twp_gets, twp_bind.
  unfold twp, set_console_level. destruct (set_severity _ _) as [[] sev]; done.
Qed.

Section parsed.
Context `{OptionParser}.
Variables (version_str : bytes) (argv : list bytes) (caption : bytes).
Variables (func_parser : list option_description) (func_help : option (M Terminal unit)).

(** What [parse_args] was asked to print instead. *)
Definition asked_text (vm : variables_map) : Prop := vm_count vm #"version" ∨ vm_count vm #"help".

(** What it returns, and what it leaves of the terminal: it throws only
    before it prints anything. *)
Lemma parse_args_spec t :
  (∀ help t, func_help = Some help → twp help (λ _ t', cerr t' = cerr t ∧ cout t `prefix_of` cout t') t) →
  ewp (parse_args version_str argv caption func_parser func_help)
    (λ r t', cerr t' = cerr t ∧ ∃ vm args, run_parser (common_options ++ func_parser) argv = Ok (vm, args)
      ∧ match r with
        | None => asked_text vm ∧ cout t `prefix_of` cout t'
        | Some p => p = (vm, args) ∧ ¬ asked_text vm ∧ cout t' = cout t
        end)
    (λ _ t', t' = t) t.
Proof.
  intros Hhelp. unfold parse_args, asked_text. apply ewp_bind, ewp_lift.
  destruct (run_parser _ _) as [[vm args]|e]; [|done].
  destruct (vm_count vm #"version") eqn:Hv.
  { apply ewp_bind, ewp_modify. split; [done|]. exists vm, args. rewrite Hv.
    split_and!; [done|by left|by apply prefix_app_r]. }
  destruct (vm_count vm #"help") eqn:Hh.
  { apply ewp_bind, ewp_modify, ewp_bind, twp_ewp. set (t1 := mkTerminal _ _ _).
    assert (twp (match func_help with Some help => help | None => mret tt end)
      (λ _ t', cerr t' = cerr t1 ∧ cout t1 `prefix_of` cout t') t1) as H1.
    { destruct func_help as [h|]; [by apply Hhelp|by apply twp_ret]. }
    eapply twp_mono; [exact H1|]. intros _ t' [He Ho]. apply ewp_ret. split; [done|]. exists vm, args. rewrite Hh.
    split_and!; [done|by right|]. etrans; [|exact Ho]. by apply prefix_app_r. }
  apply ewp_bind, ewp_lift. destruct (as_size vm _) as [n|e]; [|done]. apply ewp_bind.
  assert (Hlog : ewp (if 0 <? n then on_logger (increment_log_level (to_int n)) else mret tt)
    (λ _ t', cerr t' = cerr t ∧ cout t' = cout t) (λ _ t', t' = t) t).
  { destruct (0 <? n); [|done]. apply ewp_zoom, twp_ewp.
    eapply twp_mono; [apply increment_returns|done]. }
  eapply ewp_mono; [exact Hlog| |done]. intros _ t' [He Ho]. split; [done|]. exists vm, args.
  rewrite Hv, Hh. split_and!; [done..| |done]. by intros [?|?].
Qed.
End parsed.

(** ** A concrete parser

    Long and short names, each option with a value takes the next argument,
    what is no option is an argument. *)

Fixpoint cut_name (name : bytes) : bytes * bytes :=
  match name with
  | [] => ([], [])
  | c :: name => if char_eqb c ","%char then ([], name) else let '(l, s) := cut_name name in (c :: l, s)
  end.

Definition names (d : option_description) : list bytes :=
  let '(l, s) := cut_name (option_name d) in [#"--" ++ l; #"-" ++ s].

Fixpoint described (desc : list option_description) (arg : bytes) : option option_description :=
  match desc with
  | [] => None
  | d :: desc => if bool_decide (arg ∈ names d) then Some d else described desc arg
  end.

Definition options_error (text : bytes) : exn := mkExn ProgramOptionsError text.

(** The occurrences of options with their values, and the arguments. *)
Fixpoint scan (desc : list option_description) (args : list bytes) : result (list (bytes * bytes) * list bytes) :=
  match args with
  | [] => Ok ([], [])
  | arg :: args =>
    if negb (starts_with #"-" arg) then
      '(os, ps) ← scan desc args; Ok (os, arg :: ps)
    else match described desc arg with
    | None => Err (options_error (#"unrecognised option '" ++ arg ++ #"'"))
    | Some d =>
      let long := (cut_name (option_name d)).1 in
      match option_value d, args with
      | TextValue _, [] => Err (options_error (#"the required argument for option '" ++ arg ++ #"' is missing"))
      | TextValue _, v :: args => '(os, ps) ← scan desc args; Ok ((long, v) :: os, ps)
      | _, _ => '(os, ps) ← scan desc args; Ok ((long, []) :: os, ps)
      end
    end
  end.

(** The value of one option. *)
Definition stored (os : list (bytes * bytes)) (d : option_description) : variables_map :=
  let long := (cut_name (option_name d)).1 in
  let found := filter (λ o, o.1 = long) os in
  match option_value d, found with
  | NoValue, [] => []
  | NoValue, _ => [(long, Given)]
  | TextValue None, [] => []
  | TextValue (Some v), [] => [(long, Text v)]
  | TextValue _, o :: _ => [(long, Text o.2)]
  | Counted c, _ => [(long, Number (store_ (occurrences (length found) c)))]
  end.

#[global] Instance simple_options : OptionParser := {|
  run_parser desc argv :=
    '(os, ps) ← scan desc (tail argv); Ok (concat (map (stored os) desc), ps);
  print_description caption desc :=
    caption ++ [LF] ++ concat (map (λ d, option_name d ++ #" " ++ option_help d ++ [LF]) desc);
|}.

(** The options and arguments of a command line. *)
Example simple_command_line :
  run_parser common_options [#"supervisor"; #"-v"; #"start"; #"-c"; #"x.conf"; #"-v"; #"web"]
  = Ok ([(#"configuration", Text #"x.conf"); (#"verbose", Number 2)], [#"start"; #"web"]).
Proof. by vm_compute. Qed.
