(* ===== verification/Main.v ===== *)
(** * main.cpp, and supervisord_main of supervisord.cpp

    Which of the two programs runs, and the daemon's main function: options,
    configuration, umask, log, pid file and daemon, with the scopes of the
    pid file's guard and of the daemon. *)

From Stdlib Require Import ZArith NArith Ascii String.
From stdpp Require Import base list strings.
From S2P Require Import Prelude CppString BoostAlgo PTree ConfigTypes Files Kernel Secure Process RpcServer ConfigParser.
From S2P Require Import ProcessManager Supervisord PidFile Logger Args.

(** *** The choice of the program *)

Inductive program :=
| RunDaemon (argv : list bytes)
| RunControl (argv : list bytes) (called_supervisorctl : bool).

(** The loop over the arguments: the arguments without the daemon option,
    when it is found.  [before] are the arguments already passed over, the
    last one first. *)
Fixpoint daemon_mode (before args : list bytes) : option (list bytes) :=
  match args with
  | [] => None
  | arg :: args =>
    let found := Some (rev before ++ args) in
    if bool_decide (head arg = Some "-"%char) then
      if bool_decide (arg ≠ #"-d") && bool_decide (arg ≠ #"--daemon")
      then daemon_mode (arg :: before) args
      else found
    else if bool_decide (arg ≠ #"d") then None else found
  end.

(** [main], for the arguments [argv0 :: args]. *)
Definition main (argv0 : bytes) (args : list bytes) : program :=
  let program_name := filename argv0 in
  if bool_decide (program_name = #"supervisorctl") then RunControl (argv0 :: args) true
  else if bool_decide (program_name = #"supervisord") then RunDaemon (argv0 :: args)
  else match daemon_mode [] args with
       | Some args => RunDaemon (argv0 :: args)
       | None => RunControl (argv0 :: args) false
       end.

(** *** The daemon *)

Section supervisord.
Context `{PropertyTree, StringAlgo, EnvGrammar, OptionParser} {K : Type} `{!Kernel K}.
Variables fuel depth : nat.
(** [VERSION_STR] *)
Variable version_str : bytes.
(** Opening the log file with Boost.Log, which may fail. *)
Variable add_file_log : sink → M (World K) unit.

(** The parts of the state of the process. *)
Definition on_terminal {A} : M Terminal A → M (Terminal * World K) A := zoom fst (λ t s, (t, s.2)).
Definition on_world {A} : M (World K) A → M (Terminal * World K) A := zoom snd (λ w s, (s.1, w)).
Definition on_log_files {A} : M (Logging * World K) A → M (Terminal * World K) A :=
  zoom (λ s, (logging s.1, s.2)) (λ l s, (mkTerminal (cout s.1) (cerr s.1) l.1, l.2)).

(** [LOG_INFO << text] and [LOG_ERROR << text], which go to every sink that
    takes them. *)
Definition log_line (severity : TrivialSeverity) (text : bytes) : M (Terminal * World K) unit :=
  on_terminal (on_logger (log (mkRecord severity None text))).

(** Some sink takes records of level info.  No more levels are set while the
    daemon runs. *)
Definition takes_info (st : Logging) : bool :=
  existsb (accepts st (mkRecord S_info None [])) (sinks st).

(** [Supervisord{config}.run()]. *)
Definition supervise (config : Configuration) (info : bool) (agenda : list (list handler))
    (events : list daemon_event) : M (World K) Z := λ w,
  match scoped (construct config ;; run fuel depth events)
          (destroy_daemon fuel depth)
          (new_daemon config info agenda w) with
  | Ret _ d => Ret 0 (world (process_manager_ d))
  | Throw e d => Throw e (world (process_manager_ d))
  | Halt h d => Halt h (world (process_manager_ d))
  | Undef => Undef
  | NoFuel => NoFuel
  end.

(** The options of the daemon. *)
Definition supervisord_options : list option_description :=
  [ mkOption #"nodaemon,n" NoValue #"For compatibility - always runs in foreground";
    mkOption #"pidfile,p" (TextValue None) #"Path to pid file" ].

(** The pid file of the command line, or of the configuration. *)
Definition pidfile_of (vm : variables_map) (config : Configuration) : result (option bytes) :=
  if vm_count vm #"pidfile" then p ← as_text vm #"pidfile"; Ok (Some p) else
  let p := pidfile (supervisord config) in
  Ok (if bool_decide (p = []) then None else Some p).

(** From the options to the log: the configuration, the umask, and the log
    file. *)
Definition configure (vm : variables_map) : M (Terminal * World K) Configuration :=
  log_line S_info version_str ;;
  config_file ← lift_result (as_text vm #"configuration");
  log_line S_info (#"Config: " ++ config_file) ;;
  config ← on_world (parse_file config_file);
  let c := supervisord config in
  on_world (do_call (SetUmask (daemon_umask c))) ;;
  log_line S_info (#"Log: " ++ logfile c) ;;
  on_log_files (init_file_logging add_file_log (logfile c) (loglevel c)
    (logfile_maxbytes c) (logfile_backups c) version_str) ;;
  mret config.

(** [Supervisord{config}.run()] and the end of the log. *)
Definition run_daemon (config : Configuration) (agenda : list (list handler))
    (events : list daemon_event) : M (Terminal * World K) Z :=
  info ← on_terminal (gets (λ t, takes_info (logging t)));
  rc ← on_world (supervise config info agenda events);
  on_terminal (on_logger shutdown_logging) ;;
  mret rc.

(** Once the options are known. *)
Definition start_daemon (vm : variables_map) (agenda : list (list handler)) (events : list daemon_event)
    : M (Terminal * World K) Z :=
  config ← configure vm;
  path ← lift_result (pidfile_of vm config);
  match path with
  | None => run_daemon config agenda events
  | Some p =>
    guard ← on_world (create_guard p);
    scoped (run_daemon config agenda events) (on_world (destroy_guard guard))
  end.

(** The two handlers of exceptions. *)
Definition report_error (e : exn) : M (Terminal * World K) unit :=
  log_line S_error ((if bool_decide (exn_of e = ConfigParseError) then #"Configuration error: " else #"Error: ") ++ what e).

Definition supervisord_main (argv : list bytes) (agenda : list (list handler))
    (events : list daemon_event) : M (Terminal * World K) Z :=
  try_catch
    (parsed_opt ← on_terminal (parse_args version_str argv #"supervisord - process control system"
       supervisord_options None);
     match parsed_opt with
     | None => mret 0
     | Some (vm, args) => start_daemon vm agenda events
     end)
    (λ e, report_error e ;; mret 1).
End supervisord.
