(* ===== verification/MainSpec.v ===== *)
(** * Properties of main.cpp and supervisord_main

    Which program is chosen; that the daemon's main function returns an exit
    code, with its processes and its pid file released; what happens when an
    exception leaves the event loop while the server listens; and which log
    gets which records. *)

From Stdlib Require Import ZArith NArith Ascii String.
From stdpp Require Import base gmap sets list strings.
From S2P Require Import Prelude CppString StdMap BoostAlgo PTree ConfigTypes Files LogWriter Kernel Sim.
From S2P Require Import Secure Process XmlRpc RpcConnection RpcConnectionSpec RpcServer ConfigParser ConfigParserSpec.
From S2P Require Import ProcessManager ProcessManagerSpec Supervisord SupervisordSpec DaemonSpec LogLevels PidFile Logger Args Main.

(** ** The choice of the program *)

Definition daemon_options : list bytes := [ #"-d"; #"--daemon"; #"d"].

(** An option that is passed over. *)
Definition other_option (arg : bytes) : Prop := head arg = Some "-"%char ∧ arg ∉ daemon_options.

(** [args] is other options, then a daemon option, then the rest. *)
Definition daemon_first (opts : list bytes) (f : bytes) (rest args : list bytes) : Prop :=
  args = opts ++ f :: rest ∧ Forall other_option opts ∧ f ∈ daemon_options.

Lemma daemon_mode_spec args before :
  match daemon_mode before args with
  | Some l => ∃ opts f rest, daemon_first opts f rest args ∧ l = rev before ++ opts ++ rest
  | None => ∀ opts f rest, ¬ daemon_first opts f rest args
  end.
Proof.
  revert before. induction args as [|arg args IH]; intros before; cbn [daemon_mode].
  { intros opts f rest (Ha & _). by destruct opts. }
  assert (Hfound : arg ∈ daemon_options → ∃ opts f rest, daemon_first opts f rest (arg :: args)
    ∧ rev before ++ args = rev before ++ opts ++ rest).
  { intros Hin. exists [], arg, args. split; [by split_and!|done]. }
  assert (Hstop : ¬ other_option arg → arg ∉ daemon_options → ∀ opts f rest, ¬ daemon_first opts f rest (arg :: args)).
  { intros Hno Hni [|o opts] f rest (Ha & Hf & Hd); injection Ha as -> Ha; [done|]. by inversion Hf. }
  unfold daemon_options in *. rewrite !elem_of_cons in Hfound. setoid_rewrite elem_of_cons in Hstop.
  case_bool_decide as Hdash; cycle 1.
  - case_bool_decide as Hd; [|apply Hfound; tauto].
    apply Hstop; [by intros [? _]|]. rewrite !elem_of_cons, elem_of_nil.
    intros [->|[->|[->|[]]]]; done.
  - case_bool_decide as H1; [|apply Hfound; tauto].
    case_bool_decide as H2; [|apply Hfound; tauto]. cbn [andb].
    assert (Ho : other_option arg).
    { split; [done|]. unfold daemon_options. rewrite !elem_of_cons, elem_of_nil.
      intros [->|[->|[->|[]]]]; done. }
    specialize (IH (arg :: before)). destruct (daemon_mode (arg :: before) args) as [l|].
    + destruct IH as (opts & f & rest & (-> & Hopts & Hf) & ->). exists (arg :: opts), f, rest.
      split; [split_and!; [done|by constructor|done]|]. cbn. by rewrite <- app_assoc.
    + intros [|o opts] f rest (Ha & Hf & Hd); injection Ha as -> Ha.
      * by destruct Ho.
      * inversion Hf; subst. by apply (IH opts f rest).
Qed.

(** Which program runs.  Under the names supervisorctl and supervisord
    the program of that name gets all the arguments; under any other name
    the daemon runs exactly when the first argument that is not some other
    option is a daemon option, and gets the arguments without it, in their
    order. *)
Lemma main_mode argv0 args :
  match main argv0 args with
  | RunDaemon argv =>
    (filename argv0 = #"supervisord" ∧ argv = argv0 :: args)
    ∨ (filename argv0 ≠ #"supervisord" ∧ filename argv0 ≠ #"supervisorctl"
       ∧ ∃ opts f rest, daemon_first opts f rest args ∧ argv = argv0 :: opts ++ rest)
  | RunControl argv called =>
    argv = argv0 :: args ∧
    if called then filename argv0 = #"supervisorctl"
    else filename argv0 ≠ #"supervisord" ∧ ∀ opts f rest, ¬ daemon_first opts f rest args
  end.
Proof.
  unfold main. case_bool_decide as Hctl; [done|]. case_bool_decide as Hd; [by left|].
  pose proof (daemon_mode_spec args []) as Hm. destruct (daemon_mode [] args) as [l|]; [|done].
  right. destruct Hm as (opts & f & rest & Hf & ->). split_and!; [done|done|]. by exists opts, f, rest.
Qed.

(** The value of an option is not passed over with it: a daemon option that
    follows one with a value is not seen, and the value may be taken for
    it. *)
Lemma late_daemon_option :
  main #"supervisor" [ #"-c"; #"x.conf"; #"-d"] = RunControl [ #"supervisor"; #"-c"; #"x.conf"; #"-d"] false
  ∧ main #"supervisor" [ #"-c"; #"d"] = RunDaemon [ #"supervisor"; #"-c"].
Proof. by vm_compute. Qed.

(** ** The daemon's main function *)

Section supervisord_main.
Context `{PropertyTree, StringAlgo, EnvGrammar, OptionParser} {K : Type} `{!Kernel K} {laws : KernelLaws K} {may_raise : Raised}.
Local Abbreviation card := (base.size (C := gset Z)).
Local Abbreviation St := (Terminal * World K)%type.
Variables (N W B : Z) (fuel depth : nat) (events : list daemon_event) (agenda : list (list handler)).
Hypothesis configurations_fit : ∀ path w c w', parse_file (K := K) path w = Ret c w' → fits W B c.
Variable version_str : bytes.
(** Opening the log file makes system calls, and may throw. *)
Variable add_file_log : sink → M (World K) unit.
Hypothesis logging_calls : ∀ s, yields (λ _ _, True) (add_file_log s).

(** A world in which the daemon can be started. *)
Definition ready (w : World K) : Prop := limits N W B events agenda fuel depth w ∧ tracked w.

Lemma ready_grew w w' : grew w w' → ready w → ready w'.
Proof.
  intros Hq%grew_quiet [[] Ht]. split; [|by apply (quiet_tracked w)]. destruct Hq as (_ & Hc & _).
  split; try done. by rewrite Hc.
Qed.

Lemma ready_own w : ready w → own (marks (wtrace w)).
Proof. by intros [_ [_ ?]]. Qed.

(** *** The pid file *)

(** A program that makes calls whatever they answer, and ends with a result
    in [R]. *)
Fixpoint only_calls {A} (R : A → Prop) (p : prog A) : Prop :=
  match p with
  | Done a => R a
  | Do c k => plain_b c = true ∧ ∀ r, only_calls R (k r)
  end.

Lemma exec_calls {A} (R : A → Prop) (p : prog A) : only_calls R p → yields (K := K) (λ a _, R a) (exec p).
Proof.
  induction p as [a|c k IH]; cbn; intros Hp; [by apply yields_ret|]. destruct Hp as [Hc Hk].
  apply (yields_then (λ _, True)); [by apply plain_call|]. intros r _. by apply IH.
Qed.

Lemma create_guard_calls path : yields (K := K) (λ g _, 0 ≤ fd_ g) (create_guard path).
Proof.
  unfold create_guard. apply (yields_then (λ _, True)); [apply plain_pidfile_path|]. intros path' _.
  apply (yields_then (λ r, match r with Ok g => 0 ≤ fd_ g | Err _ => True end)).
  - apply exec_calls. split; [done|]. intros fd. unfold after_open. destruct (Z.ltb_spec fd 0); [done|].
    split; [done|]. intros r. unfold after_flock. destruct (r <? 0); [done|].
    split; [done|]. intros pid. split; [done|]. intros n. unfold after_pid. by destruct (n <? 0).
  - intros [g|e] Hr; apply yields_lift; cbn; naive_solver.
Qed.

(** The guard was destroyed last. *)
Definition released (g : PidFileGuard) (w : World K) : Prop :=
  ∃ r t, wtrace w = Ev (RemoveFile (path_ g)) r :: Ev (Close (fd_ g)) tt :: t.

Lemma destroy_guard_ok g w : 0 ≤ fd_ g → own (marks (wtrace w)) →
  twp (destroy_guard g) (λ _ w', released g w' ∧ own (marks (wtrace w'))) w.
Proof.
  intros Hfd Hw. unfold destroy_guard, release_guard. destruct (Z.ltb_spec (fd_ g) 0); [lia|].
  unfold twp. cbn [exec]. unfold do_call, mbind, M_bind. 
  destruct (sys (Close _) _) as [[] k]. cbn. destruct (sys (RemoveFile _) _) as [r k'].
  split; [by exists r, (wtrace w)|done].
Qed.

(** *** The run *)

Lemma scoped_ok {S A} (body : M S A) (destructor : M S unit) Q E X (Q' : A → S → Prop) (E' : exn → S → Prop) s :
  awp body Q E X s →
  (∀ a s', Q a s' → ewp destructor (λ _, Q' a) (λ _, X) s') →
  (∀ e s', E e s' → ewp destructor (λ _, E' e) (λ _, X) s') →
  awp (scoped body destructor) Q' E' X s.
Proof. intros Hb HQ HE. apply awp_scoped. eapply awp_mono; [exact Hb|exact HQ|exact HE|done]. Qed.

(** The process aborts only when a handler raises an exception while the
    destructor of the process manager waits. *)
Definition aborted (w : World K) : Prop := (∃ e, raised e) ∧ own (marks (wtrace w)).

(** The event loop was left without the context being stopped, and an
    accept was outstanding. *)
Definition orphaned (config : Configuration) (s : St) : Prop :=
  match (construct config ;; run fuel depth events) (new_daemon config (takes_info (logging s.1)) agenda s.2) with
  | Ret _ d | Throw _ d => outlived d = true
  | _ => False
  end.

Lemma or_bind {S A A'} (U : Prop) (m : M S A) (k : A → M S A') Q E X s :
  awp m (λ a s', U ∨ awp (k a) Q E X s') (λ e s', U ∨ E e s') (λ s', U ∨ X s') s → U ∨ awp (m ≫= k) Q E X s.
Proof. unfold awp, mbind, M_bind. by destruct (m s) as [| |[]| |]. Qed.

Lemma or_try {S A} (U : Prop) (m : M S A) h Q (E E' : exn → S → Prop) X s :
  U ∨ awp m Q E' X s → (∀ e s', E' e s' → awp (h e) Q E X s') → U ∨ awp (try_catch m h) Q E X s.
Proof. intros [|Hm] Hh; [by left|right]. by apply awp_try; eapply awp_mono; [exact Hm|..]. Qed.

Lemma supervise_ok config (s : St) : fits W B config → ready s.2 → orphaned config s ∨
  awp (supervise fuel depth config (takes_info (logging s.1)) agenda events)
    (λ rc w', rc = 0 ∧ own (marks (wtrace w'))) (λ _ w', own (marks (wtrace w'))) aborted s.2.
Proof.
  intros Hfit [Hl Ht]. unfold orphaned. set (info := takes_info (logging s.1)). set (w := s.2) in *.
  destruct (daemon_keeps N W B config info events agenda fuel depth w Hl configurations_fit Hfit Ht) as [HC Hrun].
  cbn zeta in Hrun. set (acc := run_accounts info config) in Hrun. set (after := served N W B _ _ _ 0) in Hrun.
  assert (Hend : ∀ d, after d → outlived d = false → ewp (destroy_daemon fuel depth)
    (λ _ d', own (marks (wtrace (world (process_manager_ d')))))
    (λ _ d', aborted (world (process_manager_ d'))) d).
  { destruct Hl as [HN HBN HW Hdepth _ _ _]. destruct Hfit as (_ & _ & HB). intros d Hd Hout.
    eapply ewp_mono; [eapply (served_stops N W B); [exact HN|lia|exact HW|exact Hdepth|exact HC| |exact Hd|exact Hout]; done|..].
    - by intros _ s' (_ & ? & _).
    - intros e s' (_ & He & ?). split; [by exists e|done]. }
  fold (orphaned config s). assert (Hor : orphaned config s ∨ awp (scoped (construct config ;; run fuel depth events) (destroy_daemon fuel depth))
    (λ _ d', own (marks (wtrace (world (process_manager_ d')))))
    (λ _ d', own (marks (wtrace (world (process_manager_ d')))))
    (λ d', aborted (world (process_manager_ d'))) (new_daemon config info agenda w)).
  { unfold ewp in Hrun. unfold orphaned. fold info. fold w.
    destruct ((construct config ;; run fuel depth events) _) as [u d|e d| | |] eqn:Er; try done;
      destruct (outlived d) eqn:Hout; try (by left); right; apply awp_scoped; unfold awp; rewrite Er;
      apply Hend; [done|done|apply Hrun|done]. }
  destruct Hor as [|Hscope]; [by left|right]. unfold awp, supervise in *. by destruct (scoped _ _ _) as [| |[]| |].
Qed.

(** With the end of the log. *)
Lemma run_daemon_ok config (s : St) : fits W B config → ready s.2 → orphaned config s ∨
  awp (run_daemon fuel depth config agenda events)
    (λ rc s', rc = 0 ∧ own (marks (wtrace s'.2))) (λ _ s', own (marks (wtrace s'.2))) (λ s', aborted s'.2) s.
Proof.
  intros Hfit Hw. destruct (supervise_ok config s Hfit Hw) as [|Hs]; [by left|right].
  unfold run_daemon. apply awp_bind, awp_zoom, ewp_awp, ewp_gets. destruct s as [t w]. cbn [fst snd] in *.
  apply awp_bind, awp_zoom. eapply awp_mono; [exact Hs|done..].
Qed.

(** *** Up to the guard *)

(** A record goes to the terminal's logs only. *)
Lemma ewp_line severity text (Q : unit → St → Prop) E (s : St) :
  (∀ t, Q tt (t, s.2)) → ewp (log_line severity text) Q E s.
Proof. intros HQ. apply ewp_zoom, ewp_zoom, ewp_modify, HQ. Qed.

(** The configuration is that of a file that was read, and the umask and the
    log are set up, with calls only. *)
Lemma configure_ok vm (s : St) :
  ewp (configure version_str add_file_log vm)
    (λ c s', (∃ file w1, as_text vm #"configuration" = Ok file ∧ parse_file file s.2 = Ret c w1) ∧ grew s.2 s'.2)
    (λ _ s', grew s.2 s'.2) s.
Proof.
  apply ewp_bind, ewp_line. intros t1. apply ewp_bind, ewp_lift. destruct (as_text vm _) as [file|e]; [|done].
  apply ewp_bind, ewp_line. intros t2. apply ewp_bind, ewp_zoom. cbn [fst snd].
  pose proof (parse_file_ok file s.2) as Hp. unfold ewp in Hp |- * at 1.
  destruct (parse_file file s.2) as [c w1|e w1| | |] eqn:Eparse; try done. destruct Hp as [_ Hg1].
  apply ewp_bind, ewp_zoom. eapply ewp_mono; [by apply (plain_call (SetUmask (daemon_umask (supervisord c))))| |].
  2:{ intros e w2 Hg2. cbn in *. by transitivity w1. }
  cbn. intros _ w2 [_ Hg2]. apply ewp_bind, ewp_line. intros t3. cbn [snd]. apply ewp_bind, ewp_zoom.
  assert (Hg : grew s.2 w2) by by transitivity w1.
  assert (Hc : ∃ file0 w0, Ok file = Ok file0 ∧ parse_file file0 s.2 = Ret c w0) by eauto.
  unfold init_file_logging. case_bool_decide; [by apply ewp_ret|]. cbv zeta.
  apply ewp_bind, ewp_zoom. eapply ewp_mono; [apply logging_calls|..]; cbn [fst snd].
  - intros _ w3 [_ Hg3]. assert (Hg' : grew s.2 w3) by by transitivity w2.
    apply ewp_bind, ewp_zoom, ewp_modify, ewp_bind, ewp_zoom. unfold ewp at 1, set_file_level.
    destruct (set_severity _ _) as [b sev]. by case_bool_decide.
  - intros e w3 Hg3. by transitivity w2.
Qed.

(** The configuration is read from the file, the umask and the log are set
    up. *)
Definition configured (vm : variables_map) (file : bytes) (s : St) (c : Configuration) (s' : St) : Prop :=
  as_text vm #"configuration" = Ok file ∧ (∃ w1, parse_file file s.2 = Ret c w1)
  ∧ configure version_str add_file_log vm s = Ret c s'.

(** And the guard of the pid file is created. *)
Definition guarded (vm : variables_map) (s : St) (g : PidFileGuard) : Prop :=
  ∃ file c s1 p s2, configured vm file s c s1
    ∧ pidfile_of vm c = Ok (Some p) ∧ on_world (create_guard p) s1 = Ret g s2.

(** The run below a configuration that was read. *)
Definition guarded_run (vm : variables_map) (c : Configuration) : M St Z :=
  path ← lift_result (pidfile_of vm c);
  match path with
  | None => run_daemon fuel depth c agenda events
  | Some p =>
    guard ← on_world (create_guard p);
    scoped (run_daemon fuel depth c agenda events) (on_world (destroy_guard guard))
  end.

(** The daemon is started in the state [s1]. *)
Definition starts_in (vm : variables_map) (c : Configuration) (s s1 : St) : Prop :=
  match pidfile_of vm c with
  | Ok None => s1 = s
  | Ok (Some p) => ∃ g, on_world (create_guard p) s = Ret g s1
  | Err _ => False
  end.

Lemma guarded_run_ok (U : Prop) vm c (s : St) : fits W B c → ready s.2 →
  (∀ s1, starts_in vm c s s1 → orphaned c s1 → U) →
  let after s' := own (marks (wtrace s'.2)) ∧
    ∀ p g s1, pidfile_of vm c = Ok (Some p) → on_world (create_guard p) s = Ret g s1 → released g s'.2 in
  U ∨ awp (guarded_run vm c)
    (λ rc s', rc = 0 ∧ after s'
      ∧ ∀ p, pidfile_of vm c = Ok (Some p) → ∃ g s1, on_world (create_guard p) s = Ret g s1)
    (λ _, after) (λ s', aborted s'.2) s.
Proof.
  intros Hfit Hw HU after. unfold guarded_run, starts_in in *. apply or_bind, ewp_awp, ewp_lift.
  destruct (pidfile_of vm c) as [[p|]|e] eqn:Hp; [|..]; cycle 1.
  { destruct (run_daemon_ok c s Hfit Hw) as [|Hrun]; [left; by eapply HU|right].
    eapply awp_mono; [exact Hrun|..]; [intros rc w' [-> ?]|intros e w' ?|done]; by split_and!. }
  { right. split; [by eapply ready_own|done]. }
  apply or_bind. assert (Hg : ewp (on_world (create_guard p)) (λ g s', 0 ≤ fd_ g ∧ grew s.2 s'.2)
    (λ _ s', grew s.2 s'.2) s) by apply ewp_zoom, create_guard_calls.
  unfold ewp in Hg. unfold awp at 1.
  destruct (on_world (create_guard p) s) as [g s1|e s1| | |] eqn:Eg; try done; cycle 1.
  { right. split; [by eapply ready_own, ready_grew|]. congruence. }
  destruct Hg as [Hfd Hg]. pose proof (ready_grew _ _ Hg Hw) as Hw1.
  destruct (run_daemon_ok c s1 Hfit Hw1) as [|Hrun]; [left; eapply HU; [by eexists|done]|right].
  assert (Hend : ∀ s', own (marks (wtrace s'.2)) → twp (on_world (destroy_guard g)) (λ _, after) s').
  { intros s' Hown. apply twp_zoom. eapply twp_mono; [by apply (destroy_guard_ok g s'.2)|]. intros _ w2 [Hr Ho].
    split; [done|]. intros p' g' s1' [= <-]. rewrite Eg. by intros [= <- _]. }
  eapply awp_mono; [eapply (scoped_ok _ _ _ _ _ (λ rc s', rc = 0 ∧ after s') (λ _, after)); [exact Hrun|..]|..].
  - intros rc s' [Hrc Hown]. apply twp_ewp. eapply twp_mono; [by apply Hend|]. intros ? s2 ?. by split.
  - intros e s' He. by apply twp_ewp, Hend.
  - intros rc s' [-> Ha]. split_and!; [done|by apply Ha..|]. intros p' [= <-]. eauto.
  - done.
  - done.
Qed.

Lemma start_daemon_ok (U : Prop) vm (s : St) : ready s.2 →
  (∀ file c s1 s2, configured vm file s c s1 → starts_in vm c s1 s2 → orphaned c s2 → U) →
  let after s' := own (marks (wtrace s'.2)) ∧ ∀ g, guarded vm s g → released g s'.2 in
  U ∨ awp (start_daemon fuel depth version_str add_file_log vm agenda events)
    (λ rc s', rc = 0 ∧ after s' ∧ ∃ file c s1, configured vm file s c s1
       ∧ ∀ p, pidfile_of vm c = Ok (Some p) → ∃ g, guarded vm s g)
    (λ _, after) (λ s', aborted s'.2) s.
Proof.
  intros Hw HU after. apply or_bind. pose proof (configure_ok vm s) as Hconf. unfold ewp in Hconf. unfold awp at 1.
  destruct (configure version_str add_file_log vm s) as [c s1|e s1| | |] eqn:Ec; try done; cycle 1.
  { right. split; [by eapply ready_own, ready_grew|]. intros g (file' & c & s2 & p & s3 & (_ & _ & Hc) & _). congruence. }
  destruct Hconf as [(file & w1 & Hfile & Hparse) Hg1].
  assert (Hthis : configured vm file s c s1) by (split_and!; [done|by exists w1|done]).
  assert (Hc : ∀ file' c' s2', configured vm file' s c' s2' → c' = c ∧ s2' = s1).
  { intros file' c' s2' (_ & _ & Hc). rewrite Ec in Hc. by injection Hc. }
  destruct (guarded_run_ok U vm c s1) as [|Hrun].
  - by eapply configurations_fit.
  - by eapply ready_grew.
  - intros s3. by eapply (HU file c s1 s3).
  - by left.
  - right. assert (Hafter : ∀ s', own (marks (wtrace s'.2)) ∧ (∀ p g s2, pidfile_of vm c = Ok (Some p) →
      on_world (create_guard p) s1 = Ret g s2 → released g s'.2) → after s').
    { intros s' (Ho & Hr). split; [done|]. intros g (file' & c' & s2' & p & s3 & Hconf & ? & ?).
      destruct (Hc _ _ _ Hconf) as [-> ->]. by eapply Hr. }
    eapply awp_mono; [exact Hrun|..|done]; [|intros e s'; apply Hafter].
    intros rc s' (-> & Ha & Hp). split; [done|]. split; [by apply Hafter|]. exists file, c, s1. split; [done|].
    intros p Hsome. destruct (Hp p Hsome) as (g & s3 & Hg). by exists g, file, c, s1, p, s3.
Qed.

(** The run of [supervisord_main] in which an exception leaves the event loop
    while the server listens: the destructor of the process manager may then
    run the completion of the accept, which refers to a server that is no
    more. *)
Definition left_listening argv t (w : World K) : Prop :=
  ∃ vm args t' file c s1 s2,
    parse_args version_str argv #"supervisord - process control system" supervisord_options None t
      = Ret (Some (vm, args)) t'
    ∧ configured vm file (t', w) c s1 ∧ starts_in vm c s1 s2 ∧ orphaned c s2.

(** C3: The daemon's main function.  Whatever the command line, the
    configuration file, the events and the operating system are (within
    the limits), it returns 0 or 1, having signalled only its own unreaped
    children; when it created the guard of the pid file, closing and
    removing that file are the last two things it did, also when it fails
    later; and it returns 0 only if it was asked for its version or its
    options, or after a configuration was read and the guard, if a pid file
    is given, was created.  Only a handler that throws while the destructor
    of the process manager waits for children can prevent it from
    returning: that aborts the process.  Nothing is said of a run whose
    event loop is left by an exception while the server listens.  A read of
    a freed program name by a log line is taken to go on. *)
Theorem supervisord_main_returns argv t (w : World K) : ready w →
  let parsed := parse_args version_str argv #"supervisord - process control system" supervisord_options None t in
  left_listening argv t w ∨
  awp (supervisord_main fuel depth version_str add_file_log argv agenda events)
    (λ rc s', (rc = 0 ∨ rc = 1) ∧ own (marks (wtrace s'.2))
      ∧ (∀ vm args t' g, parsed = Ret (Some (vm, args)) t' → guarded vm (t', w) g → released g s'.2)
      ∧ (rc = 0 → ∃ vm args, run_parser (common_options ++ supervisord_options) argv = Ok (vm, args)
          ∧ (asked_text vm ∨ ∃ t' file c s1, configured vm file (t', w) c s1
               ∧ ∀ p, pidfile_of vm c = Ok (Some p) → ∃ g, guarded vm (t', w) g)))
    (λ _ _, False) (λ s', aborted s'.2) (t, w).
Proof.
  intros Hw parsed. unfold supervisord_main. apply or_try with (λ _ s', own (marks (wtrace s'.2))
    ∧ ∀ vm args t' g, parsed = Ret (Some (vm, args)) t' → guarded vm (t', w) g → released g s'.2); cycle 1.
  { intros e s' [Ho Hr]. apply awp_bind, ewp_awp, ewp_line. intros t'. apply ewp_awp, ewp_ret. by split_and!; [right|..]. }
  pose proof (ready_own w Hw) as Hown. apply or_bind, awp_zoom.
  pose proof (parse_args_spec version_str argv #"supervisord - process control system" supervisord_options
    None t ltac:(done)) as Hargs. cbn [fst snd]. unfold ewp in Hargs. unfold awp at 1. fold parsed in Hargs |- *.
  destruct parsed as [[[vm args]|] t'|e t'| | |] eqn:Ep; try done; cycle 1.
  { destruct Hargs as (_ & vm & args & Hrun & Hask & _). right.
    split_and!; [by left|done|done|]. intros _. exists vm, args. split; [done|by left]. }
  { by right. }
  destruct Hargs as (_ & vm' & args' & Hrun & [= <- <-] & _).
  destruct (start_daemon_ok (left_listening argv t w) vm (t', w)) as [|Hd]; [done| |by left|right].
  { intros file c s1 s2 ???. by exists vm, args, t', file, c, s1, s2. }
  eapply awp_mono; [exact Hd|..|done].
  - intros rc s' (-> & (Ho & Hr) & file & c & s1 & Hc). split_and!; [by left|done|..].
    + intros ? ? ? g [= <- <- <-]. apply Hr.
    + intros _. exists vm, args. split; [done|]. right. by exists t', file, c, s1.
  - intros e s' (Ho & Hr). split; [done|]. intros ? ? ? g [= <- <- <-]. apply Hr.
Qed.
End supervisord_main.

(** ** The log of the daemon *)

Section logs.
Context `{PropertyTree, StringAlgo, EnvGrammar, OptionParser} {K : Type} `{!Kernel K}.
Variable version_str : bytes.
Variable add_file_log : sink → M (World K) unit.
Local Abbreviation St := (Terminal * World K)%type.

(** What [main] and [supervisord_main] do up to the end of the set-up of the
    log. *)
Definition log_set_up (argv : list bytes) : M St (option Configuration) :=
  on_terminal (on_logger (init_logging INFO)) ;;
  parsed_opt ← on_terminal (parse_args version_str argv #"supervisord - process control system"
    supervisord_options None);
  match parsed_opt with
  | None => mret None
  | Some (vm, _) => c ← configure version_str add_file_log vm; mret (Some c)
  end.

Definition on_console (text : bytes) : sink * LogRecord := (ConsoleSink, mkRecord S_info None text).

(** A terminal whose log has the console only, of level INFO at least. *)
Lemma twp_line text con fil ws out err (w : World K) Q : severity_code (severity con) ≤ 2 →
  Q tt (mkTerminal out err (mkLogging con fil [ConsoleSink] (ws ++ [on_console text])), w) →
  twp (log_line S_info text) Q (mkTerminal out err (mkLogging con fil [ConsoleSink] ws), w).
Proof.
  intros Hc HQ. apply twp_zoom, twp_zoom. unfold twp. cbn [fst logging]. by rewrite log_console.
Qed.

(** The records of the console, for [n] options [-v]. *)
Definition console_records (n : Z) (file logfile : bytes) : list (sink * LogRecord) :=
  (if 2 <=? n then [(ConsoleSink, mkRecord S_trace None #"Log level changed to: trace")] else [])
  ++ [on_console version_str; on_console (#"Config: " ++ file); on_console (#"Log: " ++ logfile)].

(** The file log is added to a console of the level INFO at least. *)
Lemma twp_file_log c n s ws out err (w : World K) : 0 ≤ n →
  s = FileSink (logfile c) (logfile c ++ #".%N") (logfile_maxbytes c) (parent_path (logfile c)) (Z.max (logfile_backups c) 0) →
  logfile c ≠ [] → version_str ≠ [] → (∀ w, twp (add_file_log s) (λ _ _, True) w) →
  twp (on_log_files (init_file_logging add_file_log (logfile c) (loglevel c)
    (logfile_maxbytes c) (logfile_backups c) version_str))
    (λ _ s', routed (Z.max 0 (2 - n)) (level_code (loglevel c)) s (logging s'.1)
       ∧ written (logging s'.1) = ws ++ given (level_code (loglevel c)) D_CONSOLE s (to_file ruler)
           ++ given (level_code (loglevel c)) D_CONSOLE s (to_file version_str))
    (mkTerminal out err (mkLogging (new_severity (shifted_level INFO n)) (new_severity INFO) [ConsoleSink] ws), w).
Proof.
  intros Hn Hs Hfile Hver Hadd. apply twp_zoom. unfold init_file_logging. rewrite bool_decide_eq_false_2 by done.
  cbv zeta. rewrite <- Hs. apply twp_bind, twp_zoom. eapply twp_mono; [apply Hadd|]. intros _ w1 _.
  apply twp_bind, twp_zoom, twp_modify, twp_bind, twp_zoom. cbn [fst snd logging console_sev file_sev sinks written app].
  apply twp_mono with (λ _ st', routed (Z.max 0 (2 - n)) (level_code (loglevel c)) s st' ∧ written st' = ws).
  { unfold twp, set_file_level. cbn. unfold set_severity.
    destruct (decide _) as [Hl|_]; (split; [|done]); unfold routed; cbn;
      rewrite <- (shifted_info n), <- !severity_level by done; subst s; by rewrite ?Hl. }
  intros _ st1 [Hr1 Hw1]. rewrite bool_decide_eq_false_2 by done. apply twp_bind, twp_zoom.
  eapply twp_mono; [by apply routed_log|]. intros _ st2 [Hr2 Hw2]. apply twp_zoom.
  eapply twp_mono; [by apply routed_log|]. intros _ st3 [Hr3 Hw3]. cbn [fst snd logging] in *. split; [done|].
  rewrite Hw3, Hw2, Hw1, <- app_assoc. done.
Qed.

(** Reading the options. *)
Lemma twp_options argv vm args n (w : World K) Q :
  run_parser (common_options ++ supervisord_options) argv = Ok (vm, args) → ¬ asked_text vm →
  as_size vm #"verbose" = Ok n → 0 ≤ n ≤ INT_MAX →
  (∀ ws, ws = (if 2 <=? n then [(ConsoleSink, mkRecord S_trace None #"Log level changed to: trace")] else []) →
     Q (Some (vm, args)) (mkTerminal [] [] (mkLogging (new_severity (shifted_level INFO n)) (new_severity INFO)
       [ConsoleSink] ws), w)) →
  twp (on_terminal (parse_args version_str argv #"supervisord - process control system" supervisord_options None)) Q
    (mkTerminal [] [] (mkLogging (new_severity INFO) (new_severity INFO) [ConsoleSink] []), w).
Proof.
  intros Hrun Hask Hn Hle HQ. unfold asked_text in Hask. apply twp_zoom. unfold parse_args. rewrite Hrun. apply twp_bind, twp_ret.
  destruct (vm_count vm #"version"); [by destruct Hask; left|]. destruct (vm_count vm #"help"); [by destruct Hask; right|].
  rewrite Hn. apply twp_bind, twp_ret, twp_bind. rewrite to_int_id by (unfold INT_MIN; lia).
  pose proof (verbosity_raised n ltac:(lia)) as Hv. destruct (0 <? n) eqn:E.
  - apply twp_zoom. eapply twp_mono; [exact Hv|]. intros _ st ->. apply twp_ret. by apply HQ.
  - unfold twp, mret, M_ret in Hv. unfold twp, mret, M_ret. rewrite Hv. by apply HQ.
Qed.

(** C40: Which log gets what, of the records of [main], [parse_args] and
    [supervisord_main] up to the end of the set-up of the log, and from then
    on.  With [n] options [-v], a log file and a configuration that is read,
    the console got the record of the change of its level, if it takes
    records of level trace, and then the version, the name of the
    configuration file and that of the log file; the log file got the ruler
    and the version as its header, and nothing else, and not even that if its
    level is above INFO.  Every record from then on reaches the console if it
    is at least of the level INFO lowered by [n] (not below TRACE), and the
    log file if it is at least of the level configured for it, whatever the
    other's level is; but one that is addressed to one of the two does not
    reach the other.  ([n] is at most [INT_MAX].) *)
Theorem log_routing argv vm args n file c (w w1 : World K) :
  run_parser (common_options ++ supervisord_options) argv = Ok (vm, args) → ¬ asked_text vm →
  as_size vm #"verbose" = Ok n → 0 ≤ n ≤ INT_MAX →
  as_text vm #"configuration" = Ok file → parse_file file w = Ret c w1 →
  let sc := supervisord c in
  let s := FileSink (logfile sc) (logfile sc ++ #".%N") (logfile_maxbytes sc) (parent_path (logfile sc))
             (Z.max (logfile_backups sc) 0) in
  logfile sc ≠ [] → version_str ≠ [] → (∀ w, twp (add_file_log s) (λ _ _, True) w) →
  twp (log_set_up argv)
    (λ r s', r = Some c
       ∧ written (logging s'.1) = console_records n file (logfile sc)
           ++ (if level_code (loglevel sc) <=? 2 then [(s, to_file ruler); (s, to_file version_str)] else [])
       ∧ ∀ r, twp (log r) (λ _ st', written st' = written (logging s'.1)
           ++ given (Z.max 0 (2 - n)) D_FILE ConsoleSink r
           ++ given (level_code (loglevel sc)) D_CONSOLE s r) (logging s'.1))
    (mkTerminal [] [] new_logging, w).
Proof.
  intros Hrun Hask Hn Hle Hconf Hparse sc s Hfile Hver Hadd. unfold log_set_up. apply twp_bind.
  apply twp_mono with (λ _ s', s' = (mkTerminal [] []
    (mkLogging (new_severity INFO) (new_severity INFO) [ConsoleSink] []), w)); [done|]. intros _ s0 ->.
  apply twp_bind. eapply (twp_options argv vm args n); [done..|]. intros ws Hws. apply twp_bind. unfold configure.
  assert (Hlev : severity_code (severity (new_severity (shifted_level INFO n))) ≤ 2).
  { cbn. rewrite severity_level, shifted_info; lia. }
  apply twp_bind, twp_line; [done|]. rewrite Hconf. apply twp_bind, twp_ret, twp_bind, twp_line; [done|].
  apply twp_bind, twp_zoom. cbn [snd]. unfold twp at 1. rewrite Hparse. cbn [fst]. apply twp_bind, twp_zoom.
  unfold twp at 1, do_call. cbn [snd]. destruct (sys _ _) as [u k]. cbn [fst].
  apply twp_bind, twp_line; [done|]. apply twp_bind.
  eapply twp_mono; [by apply (twp_file_log sc n s); lia || done|]. intros _ s' [Hr Hw]. apply twp_ret, twp_ret.
  split_and!; [done| |].
  - rewrite Hw. unfold console_records, given. cbn [to_file log_dest of_severity severity_code].
    rewrite !(bool_decide_eq_true_2 (Some D_FILE ≠ Some D_CONSOLE)) by done. rewrite Hws, <- !app_assoc. cbn [andb].
    by destruct (_ <=? 2).
  - intros r. eapply twp_mono; [by apply routed_log|]. by intros _ st4 [_ ?].
Qed.
End logs.

(** ** The property at a concrete input *)

Definition ex_argv : list bytes := [ #"supervisord"; #"-p"; #"/run/d.pid"; #"-v"].

Lemma supervisord_main_returns_witness :
  let guards t vm := @guarded ex_trees classic_algo ex_env Sim _ #"1.0" (λ _, mret tt) vm (t, world0) in
  let parsed := @parse_args simple_options #"1.0" ex_argv #"supervisord - process control system"
    supervisord_options None (mkTerminal [] [] new_logging) in
  (∃ vm args t, parsed = Ret (Some (vm, args)) t ∧ pidfile_of vm default_configuration = Ok (Some #"/run/d.pid"))
  ∧ (@left_listening ex_trees classic_algo ex_env simple_options Sim _ ex_fuel 4 ex_events ex_future #"1.0"
       (λ _, mret tt) ex_argv (mkTerminal [] [] new_logging) world0
  ∨ awp (@supervisord_main ex_trees classic_algo ex_env simple_options Sim _ ex_fuel 4 #"1.0" (λ _, mret tt)
         ex_argv ex_future ex_events)
    (λ rc s', (rc = 0 ∨ rc = 1) ∧ own (marks (wtrace s'.2))
      ∧ ∀ vm args t' g, parsed = Ret (Some (vm, args)) t' → guards t' vm g → released g s'.2)
    (λ _ _, False) (λ s', aborted (may_raise := ex_raised) s'.2)
    (mkTerminal [] [] new_logging, world0)).
Proof.
  intros guards parsed. split; [by vm_compute; do 3 eexists|].
  edestruct (@supervisord_main_returns ex_trees classic_algo ex_env simple_options Sim _ sim_laws ex_raised 2 10 1 ex_fuel 4
      ex_events ex_future) with (version_str := #"1.0") (add_file_log := λ s : sink, mret (M := M (World Sim)) tt)
      (argv := ex_argv) (t := mkTerminal [] [] new_logging) (w := world0) as [Hl|Hr].
  - apply ex_files.
  - intros c. by apply yields_ret.
  - split; [|done]. split; [lia|lia|by split|by vm_compute|by vm_compute|by repeat constructor|].
    unfold ex_fuel. rewrite Z2Nat.id by (by vm_compute). by vm_compute.
  - left. exact Hl.
  - right. eapply awp_mono; [exact Hr|..|done|done].
    intros rc s' (Hrc & Ho & Hrel & _). split_and!; [done|done|exact Hrel].
Defined.

(** What the file of the witness holds. *)
Definition ex_read : outcome (World Sim) Configuration :=
  @parse_file ex_trees classic_algo ex_env Sim _ #"/etc/supervisord.conf" world0.
Definition ex_config : Configuration := match ex_read with Ret c _ => c | _ => default_configuration end.
Definition ex_vm : variables_map :=
  match @run_parser simple_options (common_options ++ supervisord_options) ex_argv with Ok (vm, _) => vm | Err _ => [] end.

Lemma log_routing_witness :
  let s := FileSink #"/tmp/d.log" #"/tmp/d.log.%N" (50 * 1024 * 1024) #"/tmp" 10 in
  twp (@log_set_up ex_trees classic_algo ex_env simple_options Sim _ #"1.0" (λ _, mret tt) ex_argv)
    (λ r s', r = Some ex_config
       ∧ written (logging s'.1) =
           [on_console #"1.0"; on_console #"Config: /etc/supervisord.conf"; on_console #"Log: /tmp/d.log";
            (s, to_file ruler); (s, to_file #"1.0")]
       ∧ ∀ r, twp (log r) (λ _ st', written st' = written (logging s'.1)
           ++ given 1 D_FILE ConsoleSink r ++ given 2 D_CONSOLE s r) (logging s'.1))
    (mkTerminal [] [] new_logging, world0).
Proof.
  assert (E : ∃ w1, ex_read = Ret ex_config w1) by (vm_compute; by eexists). destruct E as [w1 E].
  assert (Ef : logfile (supervisord ex_config) = #"/tmp/d.log") by by vm_compute.
  assert (Elev : loglevel (supervisord ex_config) = INFO) by by vm_compute.
  assert (Em : logfile_maxbytes (supervisord ex_config) = 50 * 1024 * 1024) by by vm_compute.
  assert (Eb : logfile_backups (supervisord ex_config) = 10) by by vm_compute.
  assert (Hargs : run_parser (OptionParser := simple_options) (common_options ++ supervisord_options) ex_argv = Ok (ex_vm, []))
    by by vm_compute.
  pose proof (@log_routing ex_trees classic_algo ex_env simple_options Sim _ #"1.0" (λ _, mret tt) ex_argv ex_vm [] 1
    #"/etc/supervisord.conf" ex_config world0 w1 Hargs) as Hr.
  cbv zeta in Hr. rewrite Ef, Elev, Em, Eb in Hr. apply Hr; [|by vm_compute|by unfold INT_MAX; lia|by vm_compute|exact E|done|done|done].
  by intros [H|H]; vm_compute in H.
Defined.

(** The events above end with the shutdown, and the event loop with it. *)
Lemma ex_shut_down :
  ¬ @orphaned ex_trees classic_algo ex_env Sim _ 2000 4 ex_events ex_future (d_config (ex_daemon ex_manager))
  (mkTerminal [] [] new_logging, world0).
Proof. by vm_compute. Qed.

(** ** An exception that leaves the event loop

    A request with a malformed Content-Length makes the daemon leave its
    event loop with an exception.  The server is destroyed first, which
    makes the accept that is outstanding complete; then the destructor of
    the process manager asks the child to end, and runs the event loop while
    it waits: the completion is run for a server that is no more. *)
Definition ex_malformed : list daemon_event :=
  [Accepted false; Received 0 None (#"POST / HTTP/1.1" ++ CRLF ++ #"Content-Length: x" ++ CRLFCRLF)].

Lemma accept_outlives_server :
  @supervise ex_trees classic_algo ex_env Sim stubborn 2000 4
    (d_config (ex_daemon ex_manager)) true [] ex_malformed world0 = Undef.
Proof. by vm_compute. Qed.

(** Without programs, nothing waits, and the exception leaves the daemon. *)
Lemma no_child_to_wait_for :
  match @supervise ex_trees classic_algo ex_env Sim stubborn 2000 4
    (mkConfiguration [] (mkHttp #"/run/s.sock") default_supervisord [] ∅) true [] ex_malformed world0 with
  | Throw e w => exn_of e = InvalidArgument
  | _ => False
  end.
Proof. by vm_compute. Qed.

(** An exception that leaves the destructor of the process manager itself
    aborts the process: here, that of a request handled while the
    destructor waits.  The child, which ignores SIGTERM, is not killed. *)
Lemma destructor_aborts : ∃ s,
  @noexcept (Manager Sim) unit (@shut_down Sim stubborn (@dispatch Sim stubborn 2000 4) 2000)
    (set_agenda [[OnThrow malformed_length]] ex_manager) = Halt HAbort s
  ∧ (pid_ <$> heap s !! 0%nat) = Some 1000 ∧ elements (children (wk (world s))) = [1000].
Proof. vm_compute. eexists. by split_and!. Qed.
