(* ===== verification/Ctl.v ===== *)
(** * ctl/supervisorctl.{h,cpp}

    The command-line client: the request it builds, the call over the
    socket with its error handling, the commands and the interactive mode.
    The socket of Boost.Asio is an interface, [Transport]; the output
    streams are the texts written to them. *)

From Stdlib Require Import ZArith NArith Ascii String.
From stdpp Require Import base list strings.
From S2P Require Import Prelude CppString StringUtil BoostAlgo PTree IniReader XmlRpc RpcConnection ConfigParser Logger Args.

(** A [boost::system::error_code] that is set: whether it is [interrupted]
    or [connection_refused], whether its category is the system's, and its
    message. *)
Record socket_error := mkSockErr {
  interrupted : bool;
  refused : bool;
  in_system_category : bool;
  message : bytes;
}.

(** [boost::system::system_error(ec)]; [what] stands for [code().message()]. *)
Definition system_error (e : socket_error) : exn :=
  mkExn (BoostError (refused e) (in_system_category e)) (message e).

(** The operations of a stream socket on the state [N] of the network, with
    what they transferred and how they failed. *)
Class Transport (N : Type) := {
  sock_connect : bytes → N → (unit * option socket_error) * N;
  sock_write : bytes → N → (unit * option socket_error) * N;
  (** [read_until] may have read more than the delimiter *)
  sock_read_until : bytes → N → (bytes * option socket_error) * N;
  (** [read] of a number of bytes, all of them when there is no error *)
  sock_read : nat → N → (bytes * option socket_error) * N;
  sock_close : N → (unit * option socket_error) * N;
  (** what [std::string::resize] to that size throws, if it does *)
  resize_error : Z → option bytes;
}.

(** *** Requests *)

Definition build_xmlrpc_request_ (method_name : bytes) (params : list bytes) : bytes :=
  xml_declaration
  ++ #"<methodCall>" ++ NL
  ++ #"  <methodName>" ++ escape_xml method_name ++ #"</methodName>" ++ NL
  ++ #"  <params>"
  ++ concat (map (λ param, #"<param><value>" ++ value_xml (VString param) ++ #"</value></param>") params)
  ++ #"  </params>" ++ NL
  ++ #"</methodCall>" ++ NL.

Definition build_http_request_ (body : bytes) : bytes :=
  #"POST /RPC2 HTTP/1.1" ++ CRLF
  ++ #"Content-Type: text/xml" ++ CRLF
  ++ #"Content-Length: " ++ to_string (Z.of_nat (length body)) ++ CRLF
  ++ #"Connection: close" ++ CRLF
  ++ CRLF
  ++ body.

#[global] Arguments build_xmlrpc_request_ : simpl never.
#[global] Arguments build_http_request_ : simpl never.

(** *** Responses *)

(** One line of the headers. *)
Definition header_line (line : bytes) (content_length : Z) : result Z :=
  if starts_with #"Content-Length:" line then stoull (drop 15 line) else Ok content_length.

(** The [getline] loop: the content length, and what is left of the stream
    after the empty line.  [line] is the part of the line read so far. *)
Fixpoint read_headers (s line : bytes) (content_length : Z) : result (Z * bytes) :=
  match s with
  | [] =>
    if bool_decide (line = []) || bool_decide (line = [CR]) then Ok (content_length, [])
    else n ← header_line line content_length; Ok (n, [])
  | c :: s =>
    if char_eqb c LF then
      if bool_decide (line = [CR]) then Ok (content_length, s)
      else n ← header_line line content_length; read_headers s [] n
    else read_headers s (line ++ [c]) content_length
  end.

(** *** Faults and process information *)

Section trees.
Context `{PropertyTree}.

Fixpoint fault_string (members : list (bytes * ptree)) : bytes :=
  match members with
  | [] => []
  | (key, member) :: members =>
    if bool_decide (key ≠ #"member") then fault_string members else
    if bool_decide (get_string_or member #"name" [] ≠ #"faultString") then fault_string members else
    get_string_or member #"value.string" []
  end.

Definition translations : list (bytes * bytes) :=
  [ (#"BAD_NAME", #"no such process"); (#"NOT_RUNNING", #"not running");
    (#"ALREADY_STARTED", #"already running"); (#"SPAWN_ERROR", #"spawn error") ].

(** The exception for a fault: that of its code, or its text. *)
Fixpoint fault_error (fault : bytes) (table : list (bytes * bytes)) : exn :=
  match table with
  | [] => mkExn RuntimeError fault
  | (code, friendly) :: table =>
    let sep := code ++ #": " in
    if starts_with sep fault then
      let name := drop (length sep) fault in
      mkExn (XmlRpcError code name) (name ++ #" - " ++ friendly)
    else fault_error fault table
  end.

Definition check_fault_ (tree : ptree) : result unit :=
  match get_child_optional tree #"methodResponse.fault.value.struct" with
  | None => Ok tt
  | Some fault_struct =>
    let fault := fault_string (nodes fault_struct) in
    let fault := if bool_decide (fault = []) then #"Unknown RPC fault" else fault in
    Err (fault_error fault translations)
  end.

(** [SupervisorCtlClient::ProcessInfo]; the pid is not initialised. *)
Record CtlProcessInfo := mkCtlInfo {
  ci_name : bytes;
  ci_statename : bytes;
  ci_pid : option Z;
  ci_description : bytes;
}.

Definition from_member (info : CtlProcessInfo) (member : bytes * ptree) : result CtlProcessInfo :=
  if bool_decide (member.1 = #"member") then
    name ← get_string member.2 #"name";
    if bool_decide (name = #"name") then
      Ok (mkCtlInfo (get_string_or member.2 #"value.string" []) (ci_statename info) (ci_pid info)
            (ci_description info))
    else if bool_decide (name = #"statename") then
      Ok (mkCtlInfo (ci_name info) (get_string_or member.2 #"value.string" #"UNKNOWN") (ci_pid info)
            (ci_description info))
    else if bool_decide (name = #"pid") then
      Ok (mkCtlInfo (ci_name info) (ci_statename info) (Some (get_int_or member.2 #"value.int" (-1)))
            (ci_description info))
    else if bool_decide (name = #"description") then
      Ok (mkCtlInfo (ci_name info) (ci_statename info) (ci_pid info)
            (get_string_or member.2 #"value.string" []))
    else Ok info
  else Ok info.

Fixpoint from_members (info : CtlProcessInfo) (l : list (bytes * ptree)) : result CtlProcessInfo :=
  match l with
  | [] => Ok info
  | member :: l => info ← from_member info member; from_members info l
  end.

Definition process_info_from (pt : ptree) : result CtlProcessInfo :=
  match get_child_optional pt #"struct" with
  | None => Err (mkExn RuntimeError #"ProcessInfo expected struct")
  | Some s => from_members (mkCtlInfo [] [] None []) (nodes s)
  end.

Definition parse_failed {A} (r : result A) : result A :=
  match r with
  | Ok a => Ok a
  | Err e => Err (mkExn RuntimeError (#"Failed to parse response: " ++ what e))
  end.

Fixpoint infos_from (items : list (bytes * ptree)) : result (list CtlProcessInfo) :=
  match items with
  | [] => Ok []
  | (key, item) :: items =>
    if bool_decide (key = #"value") then
      info ← process_info_from item; infos ← infos_from items; Ok (info :: infos)
    else infos_from items
  end.

Definition parse_process_info_array_ (tree : ptree) : result (list CtlProcessInfo) :=
  parse_failed (
    value_node ← get_child tree #"methodResponse.params.param.value";
    match get_child_optional value_node #"array.data" with
    | Some array_node => infos_from (nodes array_node)
    | None => Ok []
    end).

Definition parse_process_info_ (tree : ptree) : result CtlProcessInfo :=
  parse_failed (value ← get_child tree #"methodResponse.params.param.value"; process_info_from value).
End trees.

(** *** The client *)

(** The client; [out_] and [err_] are the texts written to the streams. *)
Record Client (N : Type) := mkClient {
  socket_path_ : bytes;
  out_ : bytes;
  err_ : bytes;
  net : N;
}.
Arguments mkClient {N}.
Arguments socket_path_ {N}.
Arguments out_ {N}.
Arguments err_ {N}.
Arguments net {N}.

Section client.
Context `{PropertyTree, StringAlgo} {N : Type} `{!Transport N}.
Local Abbreviation Cl := (M (Client N)).

Definition say (text : bytes) : Cl unit :=
  modify (λ c, mkClient (socket_path_ c) (out_ c ++ text) (err_ c) (net c)).
Definition complain (text : bytes) : Cl unit :=
  modify (λ c, mkClient (socket_path_ c) (out_ c) (err_ c ++ text) (net c)).

Definition on_socket {A} (op : N → (A * option socket_error) * N) : Cl (A * option socket_error) := λ c,
  let '(r, n) := op (net c) in Ret r (mkClient (socket_path_ c) (out_ c) (err_ c) n).

(** [continue] in the [do ... while (false)] ends the loop. *)
Definition retry_eintr_ {A} (op : N → (A * option socket_error) * N) : Cl A :=
  r ← on_socket op;
  match snd r with
  | None => mret (fst r)
  | Some ec => if interrupted ec then mret (fst r) else throw (system_error ec)
  end.

(** [socket.close()] *)
Definition close_socket : Cl unit :=
  r ← on_socket sock_close;
  match snd r with None => mret tt | Some ec => throw (system_error ec) end.

(** The body: what is left of the stream, and the rest from the socket. *)
Definition read_body (content_length : Z) (rest : bytes) : Cl bytes :=
  if content_length =? 0 then mret [] else
  match resize_error content_length with
  | Some w => throw (mkExn RuntimeError w)
  | None =>
    let n := Z.to_nat content_length in
    let got := take n rest in
    if (length got <? n)%nat then
      data ← retry_eintr_ (sock_read (n - length got));
      mret (got ++ data ++ replicate (n - length got - length data) NUL)
    else mret got
  end.

(** The [try] block of [call_method_]. *)
Definition exchange (method_name : bytes) (params : list bytes) : Cl ptree :=
  path ← gets socket_path_;
  retry_eintr_ (sock_connect path) ;;
  let http_request := build_http_request_ (build_xmlrpc_request_ method_name params) in
  retry_eintr_ (sock_write http_request) ;;
  response ← retry_eintr_ (sock_read_until CRLFCRLF);
  headers ← lift_result (read_headers response [] 0);
  response_str ← read_body (fst headers) (snd headers);
  close_socket ;;
  tree ← lift_result (read_xml response_str);
  lift_result (check_fault_ tree) ;;
  mret tree.

(** The [catch] clauses of [call_method_]. *)
Definition call_error (path : bytes) (e : exn) : exn :=
  match exn_of e with
  | XmlRpcError _ _ => e
  | BoostError true _ => mkExn RuntimeError #"Connection refused — is supervisord running?"
  | BoostError false true =>
    mkExn RuntimeError (#"Connection failed: " ++ what e ++ #" (" ++ path ++ #")")
  | _ => mkExn RuntimeError (#"RPC error: " ++ what e)
  end.

Definition call_method_ (method_name : bytes) (params : list bytes) : Cl ptree :=
  try_catch (exchange method_name params) (λ e,
    path ← gets socket_path_; throw (call_error path e)).

(** [std::left << std::setw(n) << text] *)
Definition padded (n : nat) (text : bytes) : bytes := text ++ replicate (n - length text) SPACE.

Definition print_process_info_ (info : CtlProcessInfo) : Cl unit :=
  say (padded 20 (ci_name info) ++ padded 15 (ci_statename info) ++ ci_description info ++ NL).

(** *** Commands *)

Definition cmdExit_ (args : list bytes) : Cl Z := mret (-1).

Definition cmdReload_ (args : list bytes) : Cl Z :=
  say (#"Reloading supervisord configuration..." ++ NL) ;;
  call_method_ #"supervisor.reloadConfig" [] ;;
  say (#"Configuration reloaded" ++ NL) ;;
  mret 0.

(** The guard of the commands that need a name. *)
Definition with_name (args : list bytes) (k : bytes → Cl Z) : Cl Z :=
  match args with
  | [] => complain (#"Error: process name required" ++ NL) ;; mret 1
  | name :: _ => k name
  end.

Definition cmdRestart_ (args : list bytes) : Cl Z :=
  with_name args (λ name,
    (if bool_decide (name = #"all") then
       call_method_ #"supervisor.stopAllProcesses" [] ;;
       call_method_ #"supervisor.startAllProcesses" [] ;;
       say (#"All processes restarted" ++ NL)
     else
       try_catch (call_method_ #"supervisor.stopProcess" [name] ;; mret tt) (λ e,
         match exn_of e with
         | XmlRpcError code _ => if bool_decide (code = #"NOT_RUNNING") then mret tt else throw e
         | _ => throw e
         end) ;;
       call_method_ #"supervisor.startProcess" [name] ;;
       say (name ++ #": restarted" ++ NL)) ;;
    mret 0).

Definition cmdShutdown_ (args : list bytes) : Cl Z :=
  say (#"Shutting down supervisord" ++ NL) ;;
  call_method_ #"supervisor.shutdown" [] ;;
  mret 0.

Definition cmdStart_ (args : list bytes) : Cl Z :=
  with_name args (λ name,
    (if bool_decide (name = #"all") then
       call_method_ #"supervisor.startAllProcesses" [] ;;
       say (#"All processes started" ++ NL)
     else
       call_method_ #"supervisor.startProcess" [name] ;;
       say (name ++ #": started" ++ NL)) ;;
    mret 0).

Definition cmdStop_ (args : list bytes) : Cl Z :=
  with_name args (λ name,
    (if bool_decide (name = #"all") then
       call_method_ #"supervisor.stopAllProcesses" [] ;;
       say (#"All processes stopped" ++ NL)
     else
       call_method_ #"supervisor.stopProcess" [name] ;;
       say (name ++ #": stopped" ++ NL)) ;;
    mret 0).

Definition status_of_all : Cl Z :=
  tree ← call_method_ #"supervisor.getAllProcessInfo" [];
  infos ← lift_result (parse_process_info_array_ tree);
  mfor infos print_process_info_ ;;
  mret 0.

Definition cmdStatus_ (args : list bytes) : Cl Z :=
  match args with
  | [] => status_of_all
  | name :: _ =>
    if bool_decide (name = #"all") then status_of_all else
    tree ← call_method_ #"supervisor.getProcessInfo" [name];
    info ← lift_result (parse_process_info_ tree);
    print_process_info_ info ;;
    mret 0
  end.

(** The members the table of commands points to. *)
Inductive CommandFunc :=
| CmdStatus | CmdStart | CmdStop | CmdRestart | CmdShutdown | CmdReload | CmdHelp | CmdExit.

Record CommandInfo := mkCommand {
  method : bytes;
  desc_args : bytes;
  desc : bytes;
  func : CommandFunc;
}.

Definition commands_ : list CommandInfo :=
  [ mkCommand #"status"   #"[name]"     #"Show process status"  CmdStatus;
    mkCommand #"start"    #"<name|all>" #"Start process(es)"    CmdStart;
    mkCommand #"stop"     #"<name|all>" #"Stop process(es)"     CmdStop;
    mkCommand #"restart"  #"<name|all>" #"Restart process(es)"  CmdRestart;
    mkCommand #"shutdown" []            #"Shutdown supervisord" CmdShutdown;
    mkCommand #"reload"   []            #"Reload configuration" CmdReload;
    mkCommand #"help"     []            #"Show this help"       CmdHelp;
    mkCommand #"exit"     []            #"Exit supervisorctl"   CmdExit;
    mkCommand #"quit"     []            []                      CmdExit ].

Definition cmdHelp (args : list bytes) : Cl Z :=
  say (#"Commands:" ++ NL) ;;
  mfor commands_ (λ cmd,
    if bool_decide (desc cmd = []) then mret tt else
    let w := (length (method cmd) + length (desc_args cmd))%nat in
    let w := if (w <? 22)%nat then (22 - length (method cmd) - 1)%nat else w in
    say (#"  " ++ method cmd ++ #" " ++ padded w (desc_args cmd) ++ desc cmd ++ NL)) ;;
  mret 0.

Definition call_command (f : CommandFunc) : list bytes → Cl Z :=
  match f with
  | CmdStatus => cmdStatus_
  | CmdStart => cmdStart_
  | CmdStop => cmdStop_
  | CmdRestart => cmdRestart_
  | CmdShutdown => cmdShutdown_
  | CmdReload => cmdReload_
  | CmdHelp => cmdHelp
  | CmdExit => cmdExit_
  end.

(** The loop over the table. *)
Fixpoint find_command (m : bytes) (l : list CommandInfo) : option CommandInfo :=
  match l with
  | [] => None
  | cmd :: l => if bool_decide (method cmd = m) then Some cmd else find_command m l
  end.

Definition execute_command (m : bytes) (args : list bytes) : Cl Z :=
  if bool_decide (m = []) then mret 0 else
  try_catch
    (match find_command m commands_ with
     | Some cmd => call_command (func cmd) args
     | None =>
       complain (#"Error: unknown command '" ++ m ++ #"'" ++ NL) ;;
       complain (#"Use 'help' for available commands" ++ NL) ;;
       mret 1
     end)
    (λ e, complain (#"Error: " ++ what e ++ NL) ;; mret 1).

(** [stdin] is the list of the lines [getline] gives.  On a trimmed line
    that is not empty, splitting at white space with compressed separators
    gives the words. *)
Fixpoint interactive_mode (stdin : list bytes) : Cl unit :=
  say #"supervisor> " ;;
  match stdin with
  | [] => say NL
  | line :: stdin =>
    let line := trim line in
    if bool_decide (line = []) then interactive_mode stdin else
    match split_words line with
    | [] => interactive_mode stdin
    | m :: args =>
      rc ← execute_command m args;
      if rc =? -1 then say NL else interactive_mode stdin
    end
  end.

End client.

(** *** supervisorctl_main *)

Section main.
Context `{PropertyTree, StringAlgo, OptionParser} {N : Type} `{!Transport N}.
(** [VERSION_STR], and the content of the files that can be read. *)
Variable version_str : bytes.
Variable file_content : bytes → option bytes.

(** The process: its terminal and the network. *)
Local Abbreviation St := (Terminal * N)%type.

Definition on_streams {A} : M Terminal A → M St A := zoom fst (λ t s, (t, s.2)).

(** A client writes to [std::cout] and [std::cerr]. *)
Definition with_client {A} (socket_path : bytes) : M (Client N) A → M St A :=
  zoom (λ s, mkClient socket_path (cout s.1) (cerr s.1) s.2)
       (λ c s, (mkTerminal (out_ c) (err_ c) (logging s.1), net c)).

Definition ctl_name (called_supervisorctl : bool) : bytes :=
  if called_supervisorctl then #"supervisorctl" else #"supervisor".

Definition supervisorctl_options (called_supervisorctl : bool) : list option_description :=
  (if negb called_supervisorctl
   then [mkOption #"daemon,d" NoValue #"Start daemon (supervisord)"] else [])
  ++ [mkOption #"serverurl,s" (TextValue None) #"Server URL (e.g. unix:///run/supervisord.sock)"].

(** What is printed below the options. *)
Definition supervisorctl_help (name : bytes) : M Terminal unit :=
  zoom (λ t, mkClient [] (cout t) (cerr t) tt) (λ c t, mkTerminal (out_ c) (err_ c) (logging t))
    (cmdHelp []) ;;
  print (NL ++ #"Usage:" ++ NL) ;;
  print (#"  " ++ name ++ #" status           # Show all process status" ++ NL) ;;
  print (#"  " ++ name ++ #" start myapp      # Start a specific process" ++ NL) ;;
  print (#"  " ++ name ++ #"                  # Interactive mode" ++ NL).

Definition default_serverurl : bytes := #"unix:///run/supervisord.sock".

(** The server's URL of the [supervisorctl] section of the configuration
    file; a file that cannot be opened reads as empty. *)
Definition config_serverurl (vm : variables_map) : M Terminal bytes :=
  try_catch
    (file ← lift_result (as_text vm #"configuration");
     match read_ini (filtered (default [] (file_content file))) with
     | inl tree => mret (get_string_or tree #"supervisorctl.serverurl" default_serverurl)
     | inr e => throw (mkExn (FileParserError e.1 e.2) (parser_error e))
     end)
    (λ e, print_error (#"Warning: Could not load config: " ++ what e ++ NL) ;; mret default_serverurl).

(** The command line, the configuration file, or the default. *)
Definition serverurl_of (vm : variables_map) : M Terminal bytes :=
  if vm_count vm #"serverurl" then lift_result (as_text vm #"serverurl") else config_serverurl vm.

Definition socket_path_of (serverurl : bytes) : option bytes :=
  if starts_with #"unix://" serverurl then Some (drop 7 serverurl)
  else if starts_with #"/" serverurl then Some serverurl
  else None.

(** The interactive mode, or one command. *)
Definition run_client (args stdin : list bytes) : M (Client N) Z :=
  match args with
  | [] => interactive_mode stdin ;; mret 0
  | m :: args => execute_command m args
  end.

Definition supervisorctl_main (argv : list bytes) (called_supervisorctl : bool) (stdin : list bytes)
    : M St Z :=
  try_catch
    (let name := ctl_name called_supervisorctl in
     parsed_opt ← on_streams (parse_args version_str argv (name ++ #" - control supervisord processes")
       (supervisorctl_options called_supervisorctl) (Some (supervisorctl_help name)));
     match parsed_opt with
     | None => mret 0
     | Some (vm, args) =>
       serverurl ← on_streams (serverurl_of vm);
       match socket_path_of serverurl with
       | Some socket_path => with_client socket_path (run_client args stdin)
       | None =>
         on_streams (print_error (#"Error: '" ++ serverurl ++ #"' is not a valid server URL;"
           ++ #" use a unix:// URL or a socket path" ++ NL)) ;;
         mret 1
       end
     end)
    (λ e, on_streams (print_error (#"Error: " ++ what e ++ NL)) ;; mret 1).
End main.
