(* ===== verification/CtlSpec.v ===== *)
(** * Properties of ctl/supervisorctl.h

    A call of the client over a socket to a connection of the server is
    answered by the server's dispatcher, however the socket cuts the request
    and the response; a command makes its requests, and reports every
    failure. *)

From Stdlib Require Import ZArith NArith Ascii String.
From stdpp Require Import base sets list strings.
From S2P Require Import Prelude CppString StringUtil BoostAlgo PTree IniReader ConfigParser XmlRpc RpcConnection.
From S2P Require Import RpcConnectionSpec Logger Args Ctl.

(** ** The request is one the server frames *)

(** The headers of the client, before and after the length. *)
Definition request_head : bytes :=
  #"POST /RPC2 HTTP/1.1" ++ CRLF ++ #"Content-Type: text/xml" ++ CRLF ++ #"Content-Length: ".
Definition request_tail : bytes := CRLF ++ #"Connection: close".
Definition request_headers (n : nat) : bytes :=
  request_head ++ to_string (Z.of_nat n) ++ request_tail.

Lemma build_framed body : build_http_request_ body = framed (request_headers (length body)) body.
Proof.
  unfold build_http_request_, framed, request_headers, request_head, request_tail.
  rewrite <- !app_assoc. reflexivity.
Qed.

Lemma to_string_nat n : to_string (Z.of_nat n) = dec_N (N.of_nat n).
Proof. unfold to_string. destruct (Z.ltb_spec (Z.of_nat n) 0); [lia|]. f_equal. lia. Qed.

Lemma digits_foreign n c : c ∈ to_string (Z.of_nat n) → isdigit c = true.
Proof.
  rewrite to_string_nat. intros Hc. pose proof (dec_N_Forall (N.of_nat n)) as Hf.
  rewrite Forall_forall in Hf. by apply Hf.
Qed.

Lemma number_nonnil n : to_string (Z.of_nat n) ≠ [].
Proof. rewrite to_string_nat. apply dec_digits_nonnil. Qed.

(** Searching for a pattern without digits around a number. *)
Lemma find_around_number pat l r n : pat ≠ [] → forallb (λ c, negb (isdigit c)) pat = true →
  find pat (l ++ to_string (Z.of_nat n) ++ r)
  = match find pat l with
    | Some i => Some i
    | None => (λ i, (length l + length (to_string (Z.of_nat n)) + i)%nat) <$> find pat r
    end.
Proof.
  intros Hp Hd. apply find_foreign_all; [apply number_nonnil| |done].
  intros c Hc%digits_foreign Hin. rewrite forallb_forall in Hd.
  specialize (Hd c). rewrite Hc in Hd. apply list_elem_of_In in Hin. by apply Hd in Hin.
Qed.

Lemma lower_digits n : lower (to_string (Z.of_nat n)) = to_string (Z.of_nat n).
Proof.
  unfold lower. rewrite <- (list_fmap_id (to_string (Z.of_nat n))) at 2.
  apply list_fmap_ext. intros i c Hc%list_elem_of_lookup_2%digits_foreign.
  unfold tolower. destruct c as [[] [] [] [] [] [] [] []]; try done; by vm_compute in Hc.
Qed.

(** The value of the header is the length. *)
Lemma number_is_read `{StringAlgo} n r : Z.of_nat n < UINT64 →
  (∀ c, head r = Some c → is_eol c = true) →
  stoull (match find_first is_eol (to_string (Z.of_nat n) ++ r) with
          | Some k => take k (to_string (Z.of_nat n) ++ r)
          | None => to_string (Z.of_nat n) ++ r end) = Ok (Z.of_nat n).
Proof.
  intros Hn Hr.
  assert (Hd : Forall (λ c, is_eol c = false) (to_string (Z.of_nat n))).
  { apply Forall_forall. intros c Hc%digits_foreign. unfold is_eol, char_eqb.
    destruct c as [[] [] [] [] [] [] [] []]; try done; by vm_compute in Hc. }
  assert (Hs : stoull (to_string (Z.of_nat n)) = Ok (Z.of_nat n)).
  { rewrite <- (app_nil_r (to_string _)). apply stoull_to_string; [lia|done]. }
  destruct r as [|c r].
  - rewrite app_nil_r. by assert (find_first is_eol (to_string (Z.of_nat n)) = None) as ->
      by (by apply find_first_None).
  - assert (find_first is_eol (to_string (Z.of_nat n) ++ c :: r)
            = Some (length (to_string (Z.of_nat n)))) as ->.
    { apply find_first_Some. exists (to_string (Z.of_nat n)), c, r. split_and!; auto. }
    by rewrite take_app_length.
Qed.

Lemma request_length `{StringAlgoSpec} n : Z.of_nat n < UINT64 →
  content_length (request_headers n) = Ok (Z.of_nat n).
Proof.
  intros Hn. unfold content_length. rewrite ifind_first_spec. unfold request_headers.
  unfold lower at 2. rewrite !fmap_app. fold (lower (to_string (Z.of_nat n))). rewrite lower_digits.
  rewrite (find_around_number (lower #"content-length:")) by done.
  assert (find (lower #"content-length:") (tolower <$> request_head) = Some 45%nat) as -> by reflexivity.
  cbn [fmap option_fmap option_map].
  change (45 + length #"content-length:")%nat with 60%nat.
  unfold find_first_from.
  assert (drop 60 (request_head ++ to_string (Z.of_nat n) ++ request_tail)
          = SPACE :: to_string (Z.of_nat n) ++ request_tail) as -> by reflexivity.
  pose proof (digits_foreign n) as Hd. pose proof (number_nonnil n) as Hne.
  destruct (to_string (Z.of_nat n)) as [|c ds] eqn:E; [done|].
  assert (Hc : is_blank c = false).
  { specialize (Hd c ltac:(set_solver)). unfold is_blank, char_eqb.
    destruct c as [[] [] [] [] [] [] [] []]; try done; by vm_compute in Hd. }
  cbn [find_first app]. change (negb (is_blank SPACE)) with false. cbn iota. rewrite Hc. cbn [negb fmap option_fmap option_map].
  change (drop (60 + 1) (request_head ++ c :: ds ++ request_tail)) with ((c :: ds) ++ request_tail).
  cbv zeta. rewrite <- E. apply number_is_read; [done|]. by intros ? [= <-].
Qed.

Lemma dec_digits_length fuel n acc : (length (dec_digits fuel n acc) ≤ fuel + 1 + length acc)%nat.
Proof.
  revert n acc. induction fuel as [|fuel IH]; intros n acc; cbn [dec_digits]; [done|].
  destruct (n <? 10)%N; [cbn; lia|]. etrans; [apply IH|]. cbn. lia.
Qed.

Lemma number_length n : Z.of_nat n < 2 ^ 20 → (length (to_string (Z.of_nat n)) ≤ 20)%nat.
Proof.
  intros Hn. rewrite to_string_nat. unfold dec_N. etrans; [apply dec_digits_length|]. cbn [length].
  destruct (decide (n = 0%nat)) as [->|]; [vm_compute; lia|].
  assert (N.log2 (N.of_nat n) < 20)%N; [|lia]. apply N.log2_lt_pow2; [lia|].
  change (2 ^ 20)%N with 1048576%N. change (2 ^ 20) with 1048576 in Hn. lia.
Qed.

Lemma request_well_framed `{StringAlgoSpec} body :
  Z.of_nat (length body) + 128 ≤ MAX_REQUEST_SIZE →
  well_framed (request_headers (length body)) body.
Proof.
  unfold MAX_REQUEST_SIZE. intros Hn.
  assert (Hl : (length (to_string (Z.of_nat (length body))) ≤ 20)%nat) by (apply number_length; lia).
  constructor.
  - unfold request_headers. rewrite <- !app_assoc, find_around_number by done.
    assert (find CRLFCRLF request_head = None) as -> by reflexivity.
    assert (find CRLFCRLF (request_tail ++ CRLFCRLF) = Some (length request_tail)) as -> by reflexivity.
    cbn [fmap option_fmap option_map]. f_equal. rewrite !length_app. lia.
  - unfold request_headers. rewrite <- !app_assoc, find_around_number by done. reflexivity.
  - apply request_length. unfold UINT64. lia.
  - unfold request_headers, MAX_REQUEST_SIZE. rewrite !length_app.
    change (length request_head) with 61%nat. change (length request_tail) with 19%nat. lia.
Qed.

(** ** The response is read back *)

Definition one_line (l : bytes) : bool := forallb (λ c, negb (char_eqb c LF)) l.

Lemma headers_line_from l acc rest n : one_line l = true → acc ++ l ≠ [CR] →
  read_headers (l ++ LF :: rest) acc n = (k ← header_line (acc ++ l) n; read_headers rest [] k).
Proof.
  revert acc. induction l as [|c l IH]; intros acc Hl Hcr; cbn [app read_headers].
  - change (char_eqb LF LF) with true. cbn iota. rewrite app_nil_r in *.
    by rewrite bool_decide_eq_false_2.
  - cbn in Hl. apply andb_true_iff in Hl as [->%negb_true_iff Hl].
    replace (acc ++ c :: l) with ((acc ++ [c]) ++ l) in * by (by rewrite <- app_assoc).
    by apply IH.
Qed.

Lemma headers_line line rest n : one_line line = true → line ≠ [CR] →
  read_headers (line ++ LF :: rest) [] n = (k ← header_line line n; read_headers rest [] k).
Proof. intros. by rewrite headers_line_from. Qed.

Lemma headers_other line rest n :
  one_line line = true → line ≠ [CR] → starts_with #"Content-Length:" line = false →
  read_headers (line ++ LF :: rest) [] n = read_headers rest [] n.
Proof. intros H1 H2 H3. rewrite headers_line by done. unfold header_line. by rewrite H3. Qed.

(** The headers of a response. *)
Definition response_head : bytes :=
  #"HTTP/1.1 200 OK" ++ CRLF ++ #"Content-Type: text/xml" ++ CRLF ++ #"Content-Length: ".
Definition response_headers (n : nat) : bytes :=
  response_head ++ to_string (Z.of_nat n) ++ request_tail.

Lemma response_framed body : generate_http_response_ body = framed (response_headers (length body)) body.
Proof.
  unfold generate_http_response_, framed, response_headers, response_head, request_tail.
  rewrite <- !app_assoc. reflexivity.
Qed.

Lemma response_head_found body :
  find CRLFCRLF (generate_http_response_ body) = Some (length (response_headers (length body))).
Proof.
  rewrite response_framed. unfold framed. rewrite app_assoc. apply find_app.
  unfold response_headers. rewrite <- !app_assoc, find_around_number by done.
  assert (find CRLFCRLF response_head = None) as -> by reflexivity.
  assert (find CRLFCRLF (request_tail ++ CRLFCRLF) = Some (length request_tail)) as -> by reflexivity.
  cbn [fmap option_fmap option_map]. f_equal. rewrite !length_app. lia.
Qed.

Lemma one_line_number n : one_line (to_string (Z.of_nat n)) = true.
Proof.
  apply forallb_forall. intros c Hc%list_elem_of_In%digits_foreign.
  destruct c as [[] [] [] [] [] [] [] []]; try done; by vm_compute in Hc.
Qed.

Lemma length_line n k : Z.of_nat n < UINT64 →
  header_line (#"Content-Length: " ++ to_string (Z.of_nat n) ++ [CR]) k = Ok (Z.of_nat n).
Proof.
  intros Hn. unfold header_line.
  assert (starts_with #"Content-Length:" (#"Content-Length: " ++ to_string (Z.of_nat n) ++ [CR]) = true)
    as -> by reflexivity.
  change (drop 15 (#"Content-Length: " ++ to_string (Z.of_nat n) ++ [CR]))
    with (SPACE :: to_string (Z.of_nat n) ++ [CR]).
  assert (stoull (SPACE :: to_string (Z.of_nat n) ++ [CR]) = stoull (to_string (Z.of_nat n) ++ [CR])) as ->.
  { unfold stoull. cbn [span]. change (isspace SPACE) with true. cbn iota.
    by destruct (span isspace (to_string (Z.of_nat n) ++ [CR])). }
  apply stoull_to_string; [lia|by intros ? [= <-]].
Qed.

Lemma response_read n rest : Z.of_nat n < UINT64 →
  read_headers (response_headers n ++ CRLFCRLF ++ rest) [] 0 = Ok (Z.of_nat n, rest).
Proof.
  intros Hn. unfold response_headers. rewrite <- !app_assoc.
  change (response_head ++ ?r) with ((#"HTTP/1.1 200 OK" ++ [CR]) ++ LF ::
    (#"Content-Type: text/xml" ++ [CR]) ++ LF :: #"Content-Length: " ++ r).
  do 2 rewrite headers_other by done.
  change (request_tail ++ CRLFCRLF ++ rest)
    with ([CR] ++ LF :: (#"Connection: close" ++ [CR]) ++ LF :: [CR; LF] ++ rest).
  rewrite (app_assoc (to_string _) [CR]), (app_assoc #"Content-Length: " (to_string _ ++ [CR])).
  rewrite headers_line; [|unfold one_line; rewrite !forallb_app; fold (one_line (to_string (Z.of_nat n)));
                          by rewrite one_line_number|done].
  rewrite length_line by done. run. by rewrite headers_other.
Qed.

(** ** A socket to a connection of the server *)

(** The connection with its dispatcher's state, and the bytes it sent that
    were not yet read. *)
Record Loop (St : Type) := mkLoop { peer : Connection * St; inbox : bytes }.
Arguments mkLoop {St}.
Arguments peer {St}.
Arguments inbox {St}.

Definition eof_error : socket_error := mkSockErr false false false #"End of file".

Section loopback.
Context `{PropertyTree, StringAlgo} {St : Type}.
Variable d : option (bytes → list bytes → M St bytes).
(** How the request is cut into the reads of the server. *)
Variable cut : bytes → list bytes.
(** How many bytes after the delimiter [read_until] reads. *)
Variable ahead : nat.

Definition loopback : Transport (Loop St) := {|
  sock_connect path n := ((tt, None), mkLoop (new_connection, (peer n).2) []);
  sock_write text n :=
    match (start_connection ;; deliver d (map (pair None) (cut text))) (peer n) with
    | Ret _ s => ((tt, None), mkLoop s (concat (responses s.1)))
    | _ => ((tt, Some eof_error), n)
    end;
  sock_read_until delim n :=
    match find delim (inbox n) with
    | Some i => let k := (i + length delim + ahead)%nat in
                ((take k (inbox n), None), mkLoop (peer n) (drop k (inbox n)))
    | None => (([], Some eof_error), n)
    end;
  sock_read k n :=
    ((take k (inbox n), if (length (inbox n) <? k)%nat then Some eof_error else None),
     mkLoop (peer n) (drop k (inbox n)));
  sock_close n := ((tt, None), n);
  resize_error _ := None;
|}.

(** The body of the response to a call. *)
Definition server_answer (xml : bytes) : M St bytes := λ t,
  match parse_xmlrpc_request_ xml with
  | Err e => Ret (generate_xmlrpc_fault_ 1 (what e)) t
  | Ok (m, ps) =>
    match d with
    | None => Ret (generate_xmlrpc_fault_ 1 #"No method dispatcher") t
    | Some f =>
      match f m ps t with
      | Ret r t => Ret (generate_xmlrpc_response_ r) t
      | Throw e t => Ret (generate_xmlrpc_fault_ 1 (what e)) t
      | o => o
      end
    end
  end.

(** What the client makes of the body. *)
Definition understood (body : bytes) : result ptree :=
  tree ← read_xml body; check_fault_ tree ;; mret tree.

Lemma answer_request_body request xml c t :
  answer_request d request xml (c, t)
  = match server_answer xml t with
    | Ret body t => Ret tt (mkConn request false [generate_http_response_ body] true, t)
    | Throw e t => Throw e (mkConn request false [] true, t)
    | Halt h t => Halt h (mkConn request false [] true, t)
    | Undef => Undef
    | NoFuel => NoFuel
    end.
Proof.
  unfold answer_request, server_answer. cbn.
  destruct (parse_xmlrpc_request_ xml) as [[m ps]|e]; [|done].
  destruct d as [f|]; [|done]. by destruct (f m ps t).
Qed.

Lemma retry_ok {N A} (op : N → (A * option socket_error) * N) c a n :
  op (net c) = ((a, None), n) →
  retry_eintr_ op c = Ret a (mkClient (socket_path_ c) (out_ c) (err_ c) n).
Proof. intros Ho. unfold retry_eintr_, on_socket. run. by rewrite Ho. Qed.

(** The client's side: reading a whole response. *)
Lemma response_received body s c :
  Z.of_nat (length body) < UINT64 →
  net c = mkLoop s (generate_http_response_ body) →
  ∃ p, retry_eintr_ (@sock_read_until _ loopback CRLFCRLF) c
       = Ret p (mkClient (socket_path_ c) (out_ c) (err_ c)
                  (mkLoop s (drop (length p) (generate_http_response_ body))))
  ∧ ∃ rest, read_headers p [] 0 = Ok (Z.of_nat (length body), rest)
  ∧ body = rest ++ drop (length p) (generate_http_response_ body).
Proof.
  intros Hb Hn. set (R := generate_http_response_ body).
  set (k := (length (response_headers (length body)) + 4)%nat).
  set (p := take (k + ahead) R). exists p.
  assert (HR : R = (response_headers (length body) ++ CRLFCRLF) ++ body).
  { unfold R. rewrite response_framed. unfold framed. by rewrite app_assoc. }
  assert (Hk : length (response_headers (length body) ++ CRLFCRLF) = k) by (by rewrite length_app).
  assert (Hp : p = (response_headers (length body) ++ CRLFCRLF) ++ take ahead body).
  { unfold p. rewrite HR, take_app, Hk, take_ge by lia. do 2 f_equal. lia. }
  assert (Hd : drop (length p) R = drop ahead body).
  { rewrite Hp, HR, length_app, Hk, length_take, drop_app, Hk, drop_ge by lia. cbn [app].
    destruct (decide (ahead ≤ length body)%nat).
    - rewrite Nat.min_l by done. f_equal. lia.
    - rewrite Nat.min_r, !drop_ge by lia. done. }
  assert (Hd' : drop (k + ahead) R = drop ahead body).
  { rewrite HR, drop_app, Hk, drop_ge by lia. cbn [app]. f_equal. lia. }
  split.
  - rewrite Hd, <- Hd'. apply retry_ok. rewrite Hn. cbn. fold R. unfold R at 1.
    by rewrite response_head_found.
  - exists (take ahead body). rewrite Hp, <- app_assoc. split; [by apply response_read|].
    by rewrite app_assoc, <- Hp, Hd, take_drop.
Qed.

Lemma body_received body rest s c :
  body = rest ++ inbox (net c) → peer (net c) = s →
  @read_body _ loopback (Z.of_nat (length body)) rest c
  = Ret body (mkClient (socket_path_ c) (out_ c) (err_ c) (mkLoop s [])).
Proof.
  intros Hb Hs. unfold read_body. destruct (Z.eqb_spec (Z.of_nat (length body)) 0) as [Hz|Hz].
  { destruct body; [|done]. symmetry in Hb. apply app_eq_nil in Hb as [_ Hi].
    destruct c as [? ? ? [? ?]]. cbn in *. by subst. }
  cbn [resize_error loopback]. rewrite Nat2Z.id.
  assert (Hl : length body = (length rest + length (inbox (net c)))%nat) by (by rewrite Hb, length_app at 1).
  rewrite (take_ge rest) by lia.
  destruct (Nat.ltb_spec (length rest) (length body)) as [Hlt|Hge].
  - assert (length (inbox (net c)) = (length body - length rest)%nat) as Hi by lia.
    unfold mbind, M_bind. rewrite (retry_ok _ c (inbox (net c)) (mkLoop s [])).
    + run. rewrite Hi, Nat.sub_diag. cbn [replicate]. by rewrite app_nil_r, <- Hb.
    + unfold sock_read, loopback. rewrite take_ge, drop_ge, Hs by lia.
      by rewrite (proj2 (Nat.ltb_ge (length (inbox (net c))) (length body - length rest))) by lia.
  - assert (inbox (net c) = []) as Hi by (destruct (inbox (net c)); [done|cbn in *; lia]).
    rewrite Hi, app_nil_r in Hb. run. rewrite Hb. f_equal. destruct c as [? ? ? [? ?]]. cbn in *. by subst.
Qed.
End loopback.

(** The connection answers the request of the client. *)
Lemma request_sent `{PropertyTree, StringAlgoSpec} {St} (d : option (bytes → list bytes → M St bytes))
    cut ahead body (n : Loop St) :
  (∀ b, concat (cut b) = b) → Z.of_nat (length body) + 128 ≤ MAX_REQUEST_SIZE →
  (peer n).1 = new_connection →
  @sock_write _ (loopback d cut ahead) (build_http_request_ body) n
  = match answer_request d (build_http_request_ body) body (peer n) with
    | Ret _ s => ((tt, None), mkLoop s (concat (responses s.1)))
    | _ => ((tt, Some eof_error), n)
    end.
Proof.
  intros Hcut Hsize Hn. cbn [sock_write loopback]. rewrite build_framed.
  destruct (peer n) as [c t]. cbn in Hn. subst c.
  assert ((start_connection ;; deliver d (map (pair None) (cut (framed (request_headers (length body)) body))))
            (new_connection, t)
          = answer_request d (framed (request_headers (length body)) body) body (new_connection, t)) as ->; [|done].
  apply (deliver_framed d _ _ _ [] t (request_well_framed body Hsize)); [by rewrite Hcut|].
  unfold framed, CRLFCRLF. by destruct (request_headers _).
Qed.

Lemma bind_ret {S A B} (f : M S A) (k : A → M S B) s a s' :
  f s = Ret a s' → (f ≫= k) s = k a s'.
Proof. unfold mbind, M_bind. by intros ->. Qed.

(** The end of the call: the tree of the body, or the error. *)
Lemma body_understood `{PropertyTree} {N} body (c : Client N) :
  (tree ← lift_result (read_xml body); lift_result (check_fault_ tree) ;; mret tree) c
  = match understood body with Ok tree => Ret tree c | Err e => Throw e c end.
Proof.
  unfold understood, lift_result. run. destruct (read_xml body) as [tree|e]; [|done].
  by destruct (check_fault_ tree) as [[]|e].
Qed.

Lemma exchange_served `{PropertyTree, StringAlgoSpec} {St} (d : option (bytes → list bytes → M St bytes))
    cut ahead m ps (c : Client (Loop St)) body served t :
  @sock_write _ (loopback d cut ahead) (build_http_request_ (build_xmlrpc_request_ m ps))
    (mkLoop (new_connection, (peer (net c)).2) [])
  = ((tt, None), mkLoop (served, t) (generate_http_response_ body)) →
  Z.of_nat (length body) < UINT64 →
  @exchange _ _ (loopback d cut ahead) m ps c
  = (let c' := mkClient (socket_path_ c) (out_ c) (err_ c) (mkLoop (served, t) []) in
     match understood body with Ok tree => Ret tree c' | Err e => Throw e c' end).
Proof.
  intros Hw Hb. unfold exchange.
  rewrite (bind_ret _ _ c (socket_path_ c) c) by done.
  erewrite bind_ret by (by apply retry_ok).
  erewrite bind_ret by (apply retry_ok; exact Hw). cbn [socket_path_ out_ err_].
  match goal with |- context [mbind _ _ ?c2] =>
    destruct (response_received d cut ahead body (served, t) c2 Hb eq_refl) as (p & Hr & rest & Hh & Hrest) end.
  rewrite (bind_ret _ _ _ _ _ Hr). cbn [socket_path_ out_ err_].
  erewrite bind_ret by (unfold lift_result; by rewrite Hh). cbn [fst snd].
  erewrite bind_ret by (apply body_received; [exact Hrest|reflexivity]). cbn [socket_path_ out_ err_].
  erewrite bind_ret by reflexivity. apply body_understood.
Qed.

(** C14: A call of the client is a call of the server's dispatcher.  Over a
    socket to a fresh connection, however the socket cuts the request into
    the reads of the server and however much of the response the client's
    first read takes, [call_method_] sends a request the server dispatches
    exactly once, reads back exactly the body of its response, and returns
    the tree of that body or throws the error it stands for.  Nothing is
    left unread. *)
Theorem client_server_call `{PropertyTree, StringAlgoSpec} {St}
    (d : option (bytes → list bytes → M St bytes)) cut ahead m ps (c : Client (Loop St)) body t :
  (∀ b, concat (cut b) = b) →
  Z.of_nat (length (build_xmlrpc_request_ m ps)) + 128 ≤ MAX_REQUEST_SIZE →
  server_answer d (build_xmlrpc_request_ m ps) (peer (net c)).2 = Ret body t →
  Z.of_nat (length body) < UINT64 →
  let served := mkConn (build_http_request_ (build_xmlrpc_request_ m ps)) false
                  [generate_http_response_ body] true in
  let c' := mkClient (socket_path_ c) (out_ c) (err_ c) (mkLoop (served, t) []) in
  @call_method_ _ _ (loopback d cut ahead) m ps c
  = match understood body with
    | Ok tree => Ret tree c'
    | Err e => Throw (call_error (socket_path_ c) e) c'
    end.
Proof.
  intros Hcut Hsize Hans Hb served c'.
  pose proof (request_sent d cut ahead (build_xmlrpc_request_ m ps)
    (mkLoop (new_connection, (peer (net c)).2) []) Hcut Hsize eq_refl) as Hw.
  cbn [peer] in Hw. rewrite answer_request_body, Hans in Hw. cbn [responses fst concat] in Hw.
  rewrite app_nil_r in Hw. unfold call_method_, try_catch.
  rewrite (exchange_served _ _ _ _ _ _ _ _ _ Hw Hb). by destruct (understood body).
Qed.

(** ** Commands *)

Section commands.
Context `{PropertyTree, StringAlgo} {N : Type} `{!Transport N}.
Local Abbreviation Cl := (M (Client N)).

(** Only the socket is used. *)
Definition unsaid (c c' : Client N) : Prop :=
  socket_path_ c' = socket_path_ c ∧ out_ c' = out_ c ∧ err_ c' = err_ c.

(** Output is appended, errors are not touched. *)
Definition said (c c' : Client N) : Prop :=
  socket_path_ c' = socket_path_ c ∧ out_ c `prefix_of` out_ c' ∧ err_ c' = err_ c.

(** Output is appended, and nothing else is done. *)
Definition spoke (c c' : Client N) : Prop := said c c' ∧ net c' = net c.

Lemma unsaid_refl c : unsaid c c.
Proof. done. Qed.
Lemma unsaid_said c c' : unsaid c c' → said c c'.
Proof. intros (? & Ho & ?). split_and!; [done|by rewrite Ho|done]. Qed.
Lemma said_trans c c1 c2 : said c c1 → said c1 c2 → said c c2.
Proof. intros (? & ? & ?) (? & ? & ?). split_and!; [congruence|by etrans|congruence]. Qed.
Lemma said_refl c : said c c.
Proof. by apply unsaid_said. Qed.
Lemma spoke_refl c : spoke c c.
Proof. split; [apply said_refl|done]. Qed.
Lemma spoke_trans c c1 c2 : spoke c c1 → spoke c1 c2 → spoke c c2.
Proof. intros [? ?] [? ?]. split; [by eapply said_trans|congruence]. Qed.
Lemma say_spoke c text :
  spoke c (mkClient (socket_path_ c) (out_ c ++ text) (err_ c) (net c)).
Proof. split; [|done]. split_and!; [done|by apply prefix_app_r|done]. Qed.

Lemma safe_socket {A} c (op : N → (A * option socket_error) * N) : total (unsaid c) (on_socket op).
Proof. intros s Hs. unfold on_socket. by destruct (op (net s)). Qed.

Lemma safe_retry {A} c (op : N → (A * option socket_error) * N) : safe (unsaid c) (retry_eintr_ op).
Proof.
  apply safe_bind; [apply total_safe, safe_socket|]. intros [a [ec|]]; cbn.
  - destruct (interrupted ec); [by intros s|by intros s].
  - by intros s.
Qed.

Lemma safe_read_body c n rest : safe (unsaid c) (read_body n rest).
Proof.
  unfold read_body. destruct (n =? 0); [by intros s|]. destruct (resize_error n); [by intros s|].
  cbv zeta. destruct (_ <? _)%nat; [|by intros s]. apply safe_bind; [apply safe_retry|by intros a s].
Qed.

Lemma safe_result {S A} (I : S → Prop) (r : result A) : safe I (lift_result r).
Proof. intros s Hs. unfold lift_result. by destruct r. Qed.

Lemma safe_close c : safe (unsaid c) close_socket.
Proof.
  apply safe_bind; [apply total_safe, safe_socket|]. intros [a [ec|]]; by intros s.
Qed.

Lemma safe_call c m ps : safe (unsaid c) (call_method_ m ps).
Proof.
  assert (He : safe (unsaid c) (exchange m ps)).
  { unfold exchange.
    repeat first [apply safe_retry | apply safe_result | apply safe_read_body | apply safe_close
                 | by intros s | apply safe_bind; [|intros ?]]. }
  intros s Hs. unfold call_method_, try_catch. specialize (He s Hs). by destruct (exchange m ps s).
Qed.

Lemma safe_say c text : safe (said c) (say (N := N) text).
Proof. intros s Hs. cbn. eapply said_trans; [exact Hs|]. apply say_spoke. Qed.

(** *** The requests of a command *)

(** A request: the method, its parameters, and whether a fault that the
    process is not running counts as an answer. *)
Record request := mkRequest { rq_method : bytes; rq_params : list bytes; rq_tolerant : bool }.

Definition is_not_running (e : exn) : Prop := ∃ name, exn_of e = XmlRpcError #"NOT_RUNNING" name.

(** The requests were answered one after the other, and nothing was done
    between them but to print. *)
Inductive answered : list request → Client N → Client N → Prop :=
| answered_all c c' : spoke c c' → answered [] c c'
| answered_next r reqs tree c c1 c2 c' : spoke c c1 →
    call_method_ (rq_method r) (rq_params r) c1 = Ret tree c2 → answered reqs c2 c' →
    answered (r :: reqs) c c'
| answered_tolerated r reqs e c c1 c2 c' : spoke c c1 → rq_tolerant r = true →
    call_method_ (rq_method r) (rq_params r) c1 = Throw e c2 → is_not_running e → answered reqs c2 c' →
    answered (r :: reqs) c c'.

(** One of them was not, and those before it were. *)
Definition unanswered (reqs : list request) (c c' : Client N) : Prop :=
  ∃ before r after c1 e, reqs = before ++ r :: after ∧ answered before c c1
    ∧ call_method_ (rq_method r) (rq_params r) c1 = Throw e c' ∧ (rq_tolerant r = true → ¬ is_not_running e).

Lemma answered_spoke reqs c c1 c' : spoke c c1 → answered reqs c1 c' → answered reqs c c'.
Proof.
  intros Hs Ha. destruct Ha.
  - apply answered_all. by eapply spoke_trans.
  - eapply answered_next; [by eapply spoke_trans|done..].
  - eapply answered_tolerated; [by eapply spoke_trans|done..].
Qed.

Lemma answered_app reqs reqs' c c1 c' : answered reqs c c1 → answered reqs' c1 c' → answered (reqs ++ reqs') c c'.
Proof.
  induction 1; intros Ha; cbn [app].
  - by eapply answered_spoke.
  - eapply answered_next; eauto.
  - eapply answered_tolerated; eauto.
Qed.

Lemma unanswered_app_l reqs reqs' c c' : unanswered reqs c c' → unanswered (reqs ++ reqs') c c'.
Proof.
  intros (before & r & after & c1 & e & -> & Hr). exists before, r, (after ++ reqs'), c1, e.
  split; [by rewrite <- app_assoc|done].
Qed.

Lemma unanswered_app_r reqs reqs' c c1 c' : answered reqs c c1 → unanswered reqs' c1 c' → unanswered (reqs ++ reqs') c c'.
Proof.
  intros Ha (before & r & after & c2 & e & -> & Hb & Hr). exists (reqs ++ before), r, after, c2, e.
  split_and!; [by rewrite app_assoc|by eapply answered_app|apply Hr..].
Qed.

Lemma call_said m ps c c' r : call_method_ m ps c = r →
  match r with Ret _ c1 | Throw _ c1 => c1 = c' | _ => False end → said c c'.
Proof.
  intros <- Hr. pose proof (safe_call c m ps c (unsaid_refl c)) as Hc.
  destruct (call_method_ m ps c); subst; try done; by apply unsaid_said.
Qed.

Lemma answered_said reqs c c' : answered reqs c c' → said c c'.
Proof.
  induction 1 as [c c' []|r reqs tree c c1 c2 c' [] Hc _ IH|r reqs e c c1 c2 c' [] _ Hc _ _ IH]; [done|..];
    (eapply said_trans; [done|]); (eapply said_trans; [by eapply call_said|done]).
Qed.

Lemma unanswered_said reqs c c' : unanswered reqs c c' → said c c'.
Proof.
  intros (before & r & after & c1 & e & _ & Ha & Hc & _). eapply said_trans; [by eapply answered_said|by eapply call_said].
Qed.

(** [f] makes these requests and returns a value with [Q], or throws when one
    of them is not answered, or, if it [reads] the last answer, when it
    cannot be read. *)
Definition requires {A} (reqs : list request) (reads : Prop) (Q : A → Prop) (f : Cl A) : Prop := ∀ c,
  match f c with
  | Ret a c' => Q a ∧ answered reqs c c'
  | Throw _ c' => unanswered reqs c c' ∨ reads ∧ answered reqs c c'
  | _ => False
  end.

Lemma requires_ret {A} (Q : A → Prop) a : Q a → requires [] False Q (mret a).
Proof. intros Ha c. split; [done|]. apply answered_all, spoke_refl. Qed.

Lemma requires_say text : requires [] False (λ _, True) (say text).
Proof. intros c. split; [done|]. apply answered_all, say_spoke. Qed.

Lemma requires_bind {A B} reqs reqs' reads (Q : A → Prop) (Q' : B → Prop) f k :
  requires reqs False Q f → (∀ a, Q a → requires reqs' reads Q' (k a)) → requires (reqs ++ reqs') reads Q' (f ≫= k).
Proof.
  intros Hf Hk c. unfold mbind, M_bind. specialize (Hf c). destruct (f c) as [a c1|e c1| | |]; try done.
  - destruct Hf as [Ha Hf]. specialize (Hk a Ha c1). destruct (k a c1) as [b c'|e c'| | |]; try done.
    + destruct Hk as [? Hk]. split; [done|by eapply answered_app].
    + destruct Hk as [Hk|[? Hk]]; [left; by eapply unanswered_app_r|right; split; [done|by eapply answered_app]].
  - destruct Hf as [Hf|[[] _]]. left. by apply unanswered_app_l.
Qed.

(** Before and after what makes no requests. *)
Lemma requires_then {A B} reqs reads (Q : A → Prop) (Q' : B → Prop) f k :
  requires [] False Q f → (∀ a, Q a → requires reqs reads Q' (k a)) → requires reqs reads Q' (f ≫= k).
Proof. apply (requires_bind [] reqs). Qed.

Lemma requires_last {A B} reqs (Q : A → Prop) (Q' : B → Prop) f k :
  requires reqs False Q f → (∀ a, Q a → requires [] False Q' (k a)) → requires reqs False Q' (f ≫= k).
Proof. intros Hf Hk. rewrite <- (app_nil_r reqs). by eapply requires_bind. Qed.

Lemma requires_reads {A} reqs (reads : Prop) (Q : A → Prop) f : requires reqs False Q f → requires reqs reads Q f.
Proof. intros Hf c. specialize (Hf c). destruct (f c); naive_solver. Qed.

Lemma requires_call m ps : requires [mkRequest m ps false] False (λ _, True) (call_method_ m ps).
Proof.
  intros c. pose proof (safe_call c m ps c (unsaid_refl c)) as Hs.
  destruct (call_method_ m ps c) as [tree c1|e c1| | |] eqn:Ec; try done.
  - split; [done|]. eapply answered_next; [apply spoke_refl|exact Ec|apply answered_all, spoke_refl].
  - left. exists [], (mkRequest m ps false), [], c, e. split_and!; [done|apply answered_all, spoke_refl|exact Ec|done].
Qed.

(** The stop of a restart. *)
Lemma requires_stop m ps : requires [mkRequest m ps true] False (λ _, True)
  (try_catch (call_method_ m ps ;; mret tt) (λ e,
     match exn_of e with
     | XmlRpcError code _ => if bool_decide (code = #"NOT_RUNNING") then mret tt else throw e
     | _ => throw e
     end)).
Proof.
  intros c. pose proof (safe_call c m ps c (unsaid_refl c)) as Hs. unfold try_catch, mbind, M_bind.
  destruct (call_method_ m ps c) as [tree c1|e c1| | |] eqn:Ec; try done; cbn.
  { split; [done|]. eapply answered_next; [apply spoke_refl|exact Ec|apply answered_all, spoke_refl]. }
  assert (Hfail : ¬ is_not_running e → unanswered [mkRequest m ps true] c c1).
  { intros Hno. exists [], (mkRequest m ps true), [], c, e. split_and!; [done|apply answered_all, spoke_refl|exact Ec|done]. }
  destruct (exn_of e) as [| | | | | | | |code name| | |] eqn:Ee;
    try (left; apply Hfail; intros [name' Hn]; by rewrite Ee in Hn).
  case_bool_decide as Hcode; cbn.
  - subst code. split; [done|]. eapply answered_tolerated; [apply spoke_refl|done|exact Ec|by exists name|].
    apply answered_all, spoke_refl.
  - left. apply Hfail. intros [name' Hn]. rewrite Ee in Hn. by injection Hn.
Qed.

(** Reading an answer, and printing what it says. *)
Lemma requires_read {A B} (r : result A) (Q : B → Prop) k : (∀ a, requires [] False Q (k a)) →
  requires [] True Q (lift_result r ≫= k).
Proof.
  intros Hk c. destruct r as [a|e]; [apply requires_reads, Hk|]. right. split; [done|]. apply answered_all, spoke_refl.
Qed.

Lemma requires_mfor {A} (l : list A) body : (∀ x, requires [] False (λ _, True) (body x)) →
  requires [] False (λ _, True) (mfor l body).
Proof.
  intros Hb. induction l as [|x l IH]; [by apply requires_ret|]. cbn [mfor]. by eapply requires_then.
Qed.

(** What each command asks for. *)
Definition exits (f : CommandFunc) : Z := match f with CmdExit => -1 | _ => 0 end.

Definition needs_name (f : CommandFunc) : bool :=
  match f with CmdStart | CmdStop | CmdRestart => true | _ => false end.

Definition plain_request (m : bytes) (ps : list bytes) : request := mkRequest m ps false.

Definition requests (f : CommandFunc) (args : list bytes) : list request :=
  let target := match args with [] => #"all" | name :: _ => name end in
  let all := bool_decide (target = #"all") in
  match f with
  | CmdStatus => [if all then plain_request #"supervisor.getAllProcessInfo" []
                  else plain_request #"supervisor.getProcessInfo" [target]]
  | CmdStart => [if all then plain_request #"supervisor.startAllProcesses" []
                 else plain_request #"supervisor.startProcess" [target]]
  | CmdStop => [if all then plain_request #"supervisor.stopAllProcesses" []
                else plain_request #"supervisor.stopProcess" [target]]
  | CmdRestart => if all
      then [plain_request #"supervisor.stopAllProcesses" []; plain_request #"supervisor.startAllProcesses" []]
      else [mkRequest #"supervisor.stopProcess" [target] true; plain_request #"supervisor.startProcess" [target]]
  | CmdShutdown => [plain_request #"supervisor.shutdown" []]
  | CmdReload => [plain_request #"supervisor.reloadConfig" []]
  | CmdHelp | CmdExit => []
  end.

Local Abbreviation any := (λ _, True).

(** One request, and a line about it. *)
Lemma requires_told m ps text : requires [plain_request m ps] False any (call_method_ m ps ;; say text).
Proof. eapply requires_last; [apply requires_call|intros _ _; apply requires_say]. Qed.

Lemma requires_status m ps {A} (read : ptree → result A) (show : A → Cl unit) :
  (∀ a, requires [] False any (show a)) →
  requires [plain_request m ps] True (λ rc, rc = 0)
    (tree ← call_method_ m ps; info ← lift_result (read tree); show info ;; mret 0).
Proof.
  intros Hs. apply (requires_bind [plain_request m ps] [] True any); [apply requires_call|]. intros tree _.
  apply requires_read. intros a. eapply requires_then; [apply Hs|intros _ _; by apply requires_ret].
Qed.

Lemma requires_help args : requires [] False (λ rc, rc = 0) (cmdHelp args).
Proof.
  unfold cmdHelp. eapply requires_then; [apply requires_say|intros _ _].
  eapply requires_then; [|intros _ _; by apply requires_ret]. apply requires_mfor. intros cmd.
  case_bool_decide; [by apply requires_ret|apply requires_say].
Qed.

Lemma requires_restart name :
  requires (requests CmdRestart [name]) False any
    (if bool_decide (name = #"all") then
       call_method_ #"supervisor.stopAllProcesses" [] ;;
       call_method_ #"supervisor.startAllProcesses" [] ;;
       say (#"All processes restarted" ++ NL)
     else
       try_catch (call_method_ #"supervisor.stopProcess" [name] ;; mret tt) (λ e,
         match exn_of e with
         | XmlRpcError code _ => if bool_decide (code = #"NOT_RUNNING") then mret tt else throw e
         | _ => throw e
         end) ;;
       call_method_ #"supervisor.startProcess" [name] ;;
       say (name ++ #": restarted" ++ NL)).
Proof.
  cbn [requests]. case_bool_decide.
  - eapply (requires_bind [plain_request _ _] [_]); [apply requires_call|intros _ _; apply requires_told].
  - eapply (requires_bind [mkRequest _ _ true] [_]); [apply requires_stop|intros _ _; apply requires_told].
Qed.

Lemma call_command_requires f args : (needs_name f = true → args ≠ []) →
  requires (requests f args) (f = CmdStatus) (λ rc, rc = exits f) (call_command f args).
Proof.
  intros Hname. destruct f; cbn [call_command exits needs_name] in *.
  2, 3, 4: destruct args as [|name args]; [by destruct Hname|]; unfold cmdStart_, cmdStop_, cmdRestart_, with_name;
    apply requires_reads; eapply requires_last; [|intros _ _; by apply requires_ret].
  - assert (Hall : ∀ m ps, requires [plain_request m ps] True (λ rc, rc = 0)
      (tree ← call_method_ m ps; infos ← lift_result (parse_process_info_array_ tree); mfor infos print_process_info_ ;; mret 0)).
    { intros m ps. apply requires_status. intros infos. apply requires_mfor. intros info. apply requires_say. }
    intros c. assert (Hst : requires (requests CmdStatus args) True (λ rc, rc = 0) (cmdStatus_ args)); [|specialize (Hst c);
      destruct (cmdStatus_ args c); naive_solver].
    unfold cmdStatus_, requests. destruct args as [|name args]; [apply Hall|]. case_bool_decide; [apply Hall|].
    apply requires_status. intros info. apply requires_say.
  - cbn [requests]. case_bool_decide; apply requires_told.
  - cbn [requests]. case_bool_decide; apply requires_told.
  - exact (requires_restart name).
  - apply requires_reads. unfold cmdShutdown_. eapply requires_then; [apply requires_say|intros _ _].
    eapply requires_last; [apply requires_call|intros _ _; by apply requires_ret].
  - apply requires_reads. unfold cmdReload_. eapply requires_then; [apply requires_say|intros _ _].
    eapply requires_last; [apply requires_call|intros _ _].
    eapply requires_then; [apply requires_say|intros _ _; by apply requires_ret].
  - apply requires_reads, requires_help.
  - apply requires_reads. by apply requires_ret.
Qed.
End commands.

(** *** What a command comes to *)

(** The names of the commands. *)
Definition command_names : list (bytes * CommandFunc) :=
  [(#"status", CmdStatus); (#"start", CmdStart); (#"stop", CmdStop); (#"restart", CmdRestart);
   (#"shutdown", CmdShutdown); (#"reload", CmdReload); (#"help", CmdHelp); (#"exit", CmdExit); (#"quit", CmdExit)].

Lemma find_command_names m :
  match find_command m commands_ with
  | Some cmd => (m, func cmd) ∈ command_names
  | None => m ∉ command_names.*1
  end.
Proof.
  assert (Hgen : ∀ cmds, match find_command m cmds with
    | Some cmd => (m, func cmd) ∈ map (λ cmd, (method cmd, func cmd)) cmds
    | None => m ∉ (map (λ cmd, (method cmd, func cmd)) cmds).*1
    end).
  { induction cmds as [|cmd cmds IH]; [apply not_elem_of_nil|]. cbn [find_command map fmap list_fmap fst].
    case_bool_decide as Hm; [subst m; left|]. destruct (find_command m cmds); [by right|].
    intros [->|?]%elem_of_cons; done. }
  exact (Hgen commands_).
Qed.

Section command.
Context `{PropertyTree, StringAlgo} {N : Type} `{!Transport N}.
Local Abbreviation Cl := (M (Client N)).

(** An error is written, and nothing else is done. *)
Definition complained (c c' : Client N) : Prop :=
  ∃ text, c' = mkClient (socket_path_ c) (out_ c) (err_ c ++ #"Error: " ++ text) (net c).

(** What went wrong, up to the client [c1] that reports it: the command is
    unknown, or lacks a name, or a request was not answered, or the answer
    to that of status could not be read. *)
Definition command_fails (m : bytes) (args : list bytes) (c c1 : Client N) : Prop :=
  (m ∉ command_names.*1 ∧ c1 = c)
  ∨ ∃ f, (m, f) ∈ command_names ∧
      ((needs_name f = true ∧ args = [] ∧ c1 = c)
       ∨ unanswered (requests f args) c c1
       ∨ (f = CmdStatus ∧ answered (requests f args) c c1)).

Definition command_result (m : bytes) (args : list bytes) (c : Client N) (rc : Z) (c' : Client N) : Prop :=
  (m = [] ∧ rc = 0 ∧ c' = c)
  ∨ (rc = 1 ∧ ∃ c1, command_fails m args c c1 ∧ complained c1 c')
  ∨ ∃ f, (m, f) ∈ command_names ∧ (needs_name f = true → args ≠ [])
      ∧ rc = exits f ∧ answered (requests f args) c c'.

(** A command never fails silently: it makes its requests and returns 0 (or
    -1 for exit and quit), or reports what went wrong and returns 1. *)
Lemma execute_command_result m args (c : Client N) :
  twp (execute_command m args) (λ rc c', command_result m args c rc c') c.
Proof.
  unfold execute_command. case_bool_decide as Hm; [by left|].
  pose proof (find_command_names m) as Hname. destruct (find_command m commands_) as [cmd|]; cycle 1.
  { right. left. split; [done|]. exists c. split; [by left|]. eexists. cbn. by rewrite <- !app_assoc. }
  set (f := func cmd) in *. destruct (decide (needs_name f = true ∧ args = [])) as [[Hn ->]|Hn].
  { assert (Hcall : call_command f [] = (complain (#"Error: process name required" ++ NL) ;; mret 1)) by by destruct f.
    unfold twp, try_catch. rewrite Hcall. right. left. split; [done|]. exists c. split; [|by eexists].
    right. exists f. split; [done|by left]. }
  assert (Hargs : needs_name f = true → args ≠ []) by tauto.
  pose proof (call_command_requires f args Hargs c) as Hc. unfold twp, try_catch.
  destruct (call_command f args c) as [rc c'|e c'| | |]; try done.
  - destruct Hc as [-> Ha]. right. right. by exists f.
  - right. left. split; [done|]. exists c'. split; [|by eexists]. right. exists f. split; [done|]. right.
    destruct Hc as [|[-> ?]]; [by left|by right].
Qed.

(** The interactive mode, with the lines of its input: a command for each
    line that has a word, until exit or quit. *)
Inductive session : list bytes → Client N → Client N → Prop :=
| session_end c c' : spoke c c' → session [] c c'
| session_empty line lines c c1 c' :
    spoke c c1 → split_words (trim line) = [] ∨ trim line = [] → session lines c1 c' →
    session (line :: lines) c c'
| session_command line lines m args c c1 rc c2 c' :
    spoke c c1 → split_words (trim line) = m :: args → command_result m args c1 rc c2 →
    rc ≠ -1 → session lines c2 c' → session (line :: lines) c c'
| session_exit line lines m args c c1 c2 c' :
    spoke c c1 → split_words (trim line) = m :: args → command_result m args c1 (-1) c2 → spoke c2 c' →
    session (line :: lines) c c'.

Lemma interactive_session lines (c : Client N) :
  twp (interactive_mode lines) (λ _ c', session lines c c') c.
Proof.
  revert c. induction lines as [|line lines IH]; intros c; cbn [interactive_mode]; apply twp_bind, twp_modify;
    pose proof (say_spoke c #"supervisor> ") as Hs; set (c1 := mkClient _ _ _ _) in *.
  { apply twp_modify, session_end. eapply spoke_trans; [exact Hs|apply say_spoke]. }
  cbv zeta. case_bool_decide as Hline.
  { eapply twp_mono; [apply IH|]. intros ? c' Hss. eapply session_empty; [exact Hs|by right|done]. }
  destruct (split_words (trim line)) as [|m args] eqn:Hw.
  { eapply twp_mono; [apply IH|]. intros ? c' Hss. eapply session_empty; [exact Hs|by left|done]. }
  apply twp_bind. eapply twp_mono; [apply execute_command_result|]. intros rc c2 Hr. cbn beta.
  destruct (Z.eqb_spec rc (-1)) as [->|Hrc].
  - apply twp_modify. eapply session_exit; [done..|apply say_spoke].
  - eapply twp_mono; [apply IH|]. intros ? c' Hss. by eapply session_command.
Qed.

(** Nothing written is taken back. *)
Definition grows (c c' : Client N) : Prop :=
  socket_path_ c' = socket_path_ c ∧ out_ c `prefix_of` out_ c' ∧ err_ c `prefix_of` err_ c'.

Lemma grows_trans c c1 c2 : grows c c1 → grows c1 c2 → grows c c2.
Proof. intros (? & ? & ?) (? & ? & ?). split_and!; [congruence|by etrans..]. Qed.

Lemma said_grows c c' : said c c' → grows c c'.
Proof. intros (? & ? & He). split_and!; [done..|by rewrite He]. Qed.

Lemma spoke_grows c c' : spoke c c' → grows c c'.
Proof. intros [? _]. by apply said_grows. Qed.

Lemma fails_said m args c c1 : command_fails m args c c1 → said c c1.
Proof.
  intros [[_ ->]|(f & _ & [(_ & _ & ->)|[Hu|[_ Ha]]])];
    [apply said_refl|apply said_refl|by eapply unanswered_said|by eapply answered_said].
Qed.

Lemma result_grows m args c rc c' : command_result m args c rc c' → grows c c'.
Proof.
  intros [(_ & _ & ->)|[(_ & c1 & Hf%fails_said & text & ->)|(f & _ & _ & _ & Ha)]].
  - by apply said_grows, said_refl.
  - eapply grows_trans; [by apply said_grows|]. split_and!; [done..|by apply prefix_app_r].
  - by eapply said_grows, answered_said.
Qed.

Lemma session_grows lines c c' : session lines c c' → grows c c'.
Proof.
  induction 1; [by apply spoke_grows|..].
  - eapply grows_trans; [by apply spoke_grows|done].
  - eapply grows_trans; [by apply spoke_grows|]. eapply grows_trans; [by eapply result_grows|done].
  - eapply grows_trans; [by apply spoke_grows|]. eapply grows_trans; [by eapply result_grows|by apply spoke_grows].
Qed.
End command.

(** ** The main function *)

Section main.
Context `{PropertyTree, StringAlgo, OptionParser} {N : Type} `{!Transport N}.
Variables (version_str : bytes) (file_content : bytes → option bytes).
Local Abbreviation Cl := (M (Client N)).

(** What one run of the client comes to, for the arguments left. *)
Definition client_result (args stdin : list bytes) (c : Client N) (rc : Z) (c' : Client N) : Prop :=
  match args with
  | [] => rc = 0 ∧ session stdin c c'
  | m :: args => command_result m args c rc c'
  end.

Lemma client_runs args stdin c : twp (run_client args stdin) (λ rc c', client_result args stdin c rc c') c.
Proof.
  destruct args as [|m args]; cbn [run_client]; [|apply execute_command_result].
  apply twp_bind. eapply twp_mono; [apply interactive_session|]. intros ? c' Hs. by apply twp_ret.
Qed.

Lemma client_grows args stdin c rc c' : client_result args stdin c rc c' → grows c c'.
Proof. destruct args; [intros [_ ?]; by eapply session_grows|by apply result_grows]. Qed.

Lemma total_help c : total (said (N := unit) c) (cmdHelp []).
Proof.
  assert (Hsay : ∀ text, total (said (N := unit) c) (say text)) by (intros text s Hs; by apply safe_say).
  unfold cmdHelp. apply total_bind; [apply Hsay|intros _]. apply total_bind; [|by intros _ s].
  induction commands_ as [|cmd cmds IH]; [by apply total_ret|].
  apply total_bind; [|done]. case_bool_decide; [by apply total_ret|apply Hsay].
Qed.

(** Text is printed. *)
Definition printed (t t' : Terminal) : Prop := cerr t' = cerr t ∧ cout t `prefix_of` cout t'.

Lemma print_prints t text : total (printed t) (print text).
Proof. intros s [He Ho]. split; [done|]. etrans; [exact Ho|]. by apply prefix_app_r. Qed.

Lemma help_prints name t : twp (supervisorctl_help name) (λ _, printed t) t.
Proof.
  unfold supervisorctl_help. apply twp_bind, twp_zoom.
  eapply twp_total; [apply total_help|apply said_refl|]. intros _ c' (_ & Ho & He).
  eapply (twp_total (printed t)); [|by split|done].
  repeat (apply total_bind; [apply print_prints|intros _]). apply print_prints.
Qed.

(** The code by which exit ends the interactive mode is also that of the
    program, which the system truncates to 255. *)
Lemma exit_code_leaks stdin (c : Client N) : run_client [ #"exit"] stdin c = Ret (-1) c.
Proof. done. Qed.

(** A warning about the configuration file, or nothing. *)
Definition warning (w : bytes) : Prop := w = [] ∨ #"Warning: " `prefix_of` w.

Definition warned (t t' : Terminal) : Prop :=
  cout t' = cout t ∧ ∃ w, warning w ∧ cerr t' = cerr t ++ w.

Lemma warned_refl t : warned t t.
Proof. split; [done|]. exists []. split; [by left|]. by rewrite app_nil_r. Qed.

Lemma serverurl_warns vm t :
  ewp (serverurl_of file_content vm) (λ _ t', warned t t') (λ _ t', t' = t) t.
Proof.
  unfold serverurl_of. apply ewp_if; intros _.
  { apply ewp_lift. destruct (as_text vm _); [apply warned_refl|done]. }
  apply ewp_try. apply ewp_mono with (λ _ t', t' = t) (λ _ t', t' = t).
  - apply ewp_bind, ewp_lift. destruct (as_text vm _); [|done]. by destruct (read_ini _).
  - intros _ ? ->. apply warned_refl.
  - intros e ? ->. apply ewp_bind, ewp_modify, ewp_ret. split; [done|]. eexists. split; [|done].
    right. by eexists.
Qed.

(** An error was reported, after the warning if there is one. *)
Definition error_reported (t t' : Terminal) : Prop :=
  cout t `prefix_of` cout t' ∧ ∃ w report, warning w ∧ cerr t' = cerr t ++ w ++ #"Error: " ++ report.

Lemma reports_error what (t t' : Terminal) (n : N) : warned t t' →
  twp (on_streams (print_error (#"Error: " ++ what)) ;; mret 1)
    (λ rc s', rc = 1 ∧ s'.2 = n ∧ error_reported t s'.1) (t', n).
Proof.
  intros (Ho & w & Hw & He). split; [done|]. split; [done|]. cbn. split; [by rewrite Ho|].
  exists w, what. split; [done|]. by rewrite He, <- app_assoc.
Qed.

(** The client ran, on what the terminal and the network were then. *)
Definition client_ran (args stdin : list bytes) (t : Terminal) (n : N) (rc : Z) (t' : Terminal) (n' : N) : Prop :=
  ∃ t1 path, warned t t1 ∧
    client_result args stdin (mkClient path (cout t1) (cerr t1) n) rc (mkClient path (cout t') (cerr t') n').

Lemma client_ends path args stdin t t1 (n : N) : warned t t1 →
  twp (with_client path (run_client args stdin))
    (λ rc s', cout t `prefix_of` cout s'.1 ∧ client_ran args stdin t n rc s'.1 s'.2) (t1, n).
Proof.
  intros Hw. apply twp_zoom. eapply twp_mono; [apply client_runs|].
  cbn [fst snd]. intros rc c' Hr. pose proof (client_grows _ _ _ _ _ Hr) as (Hpath & Hout & _). cbn in Hpath, Hout.
  split; [by rewrite <- (proj1 Hw)|]. exists t1, path. split; [done|].
  destruct c' as [path' o e n']. cbn in *. by subst path'.
Qed.

(** C29: The client's main function says what it did.  Whatever the command
    line, the configuration file, the socket and the server are, it returns,
    and it comes to one of these.  It printed the version or the options, and
    returns 0.  Or it found the command line or the URL of the server
    unusable, reported that, made no request and returns 1.  Or it ran one
    command.  This returns 1 exactly when it reported an error, which was
    that the command is unknown or lacks its name, that the server did not
    answer one of its requests, or that the answer of status could not be
    read; otherwise its requests, in their order and no others, were all
    answered, where only the stop of a restart may have been answered with
    NOT_RUNNING, and it returns 0 (-1 for exit and quit).  Or, without a
    command, it ran the interactive mode to its end: one command after the
    other, each with a result as above; then it returns 0, whatever those
    results were. *)
Theorem supervisorctl_main_reports argv called_supervisorctl stdin t (n : N) :
  twp (supervisorctl_main version_str file_content argv called_supervisorctl stdin)
    (λ rc s', cout t `prefix_of` cout s'.1 ∧
      ((rc = 1 ∧ s'.2 = n ∧ error_reported t s'.1)
       ∨ ∃ vm args, run_parser (common_options ++ supervisorctl_options called_supervisorctl) argv = Ok (vm, args)
           ∧ ((asked_text vm ∧ rc = 0 ∧ cerr s'.1 = cerr t ∧ s'.2 = n)
              ∨ client_ran args stdin t n rc s'.1 s'.2))) (t, n).
Proof.
  unfold supervisorctl_main. apply twp_try with (λ _ s', warned t s'.1 ∧ s'.2 = n); cycle 1.
  { intros e [t' n'] [Hw Hn]. cbn in Hn. subst n'. eapply twp_mono; [by apply (reports_error _ t)|].
    intros rc s' (-> & Hn & Hr). split; [apply Hr|by left]. }
  apply ewp_bind, ewp_zoom. eapply ewp_mono; [apply parse_args_spec|..].
  { intros help t' [= <-]. apply help_prints. }
  2: { intros e t' ->. split; [apply warned_refl|done]. }
  cbn [fst snd]. intros r t1 (He & vm & args & Hrun & Hr). destruct r as [[vm' args']|].
  - destruct Hr as ([= -> ->] & _ & Ho). assert (Hw1 : warned t t1).
    { split; [done|]. exists []. split; [by left|]. by rewrite app_nil_r. }
    apply ewp_bind, ewp_zoom. eapply ewp_mono; [apply serverurl_warns|..]; cbn [fst snd].
    + intros url t2 (Ho2 & w & Hw & He2). assert (Hw2 : warned t t2).
      { split; [congruence|]. exists w. split; [done|congruence]. }
      apply twp_ewp. destruct (socket_path_of url) as [path|].
      * eapply twp_mono; [by apply (client_ends path args stdin t)|]. intros rc s' [Hout Hr].
        split; [done|]. right. exists vm, args. split; [done|by right].
      * eapply twp_mono; [by apply (reports_error _ t)|]. intros rc s' (-> & Hn & Hr). split; [apply Hr|by left].
    + intros e t2 ->. done.
  - destruct Hr as [Hask Hout]. apply ewp_ret. split; [done|]. right. exists vm, args. split; [done|]. by left.
Qed.
End main.

(** ** The properties at concrete inputs *)

Definition ex_dispatch : option (bytes → list bytes → M nat bytes) :=
  Some (λ m ps n, if bool_decide (ps = []) then Ret #"<boolean>1</boolean>" (S n)
                  else Throw (mkExn RuntimeError #"BAD_NAME: web") n).

(** A byte by byte delivery. *)
Definition ex_client : Client (Loop nat) :=
  mkClient #"/run/s.sock" [] [] (mkLoop (new_connection, 4%nat) []).

Lemma client_server_call_witness :
  let body := generate_xmlrpc_response_ #"<boolean>1</boolean>" in
  let request := build_http_request_ (build_xmlrpc_request_ #"supervisor.shutdown" []) in
  @call_method_ simple_trees _ (@loopback simple_trees classic_algo _ ex_dispatch (map (λ c, [c])) 3)
    #"supervisor.shutdown" [] ex_client
  = match @understood simple_trees body with
    | Ok tree => Ret tree (mkClient #"/run/s.sock" [] []
        (mkLoop (mkConn request false [generate_http_response_ body] true, 5%nat) []))
    | Err e => Throw (call_error #"/run/s.sock" e) (mkClient #"/run/s.sock" [] []
        (mkLoop (mkConn request false [generate_http_response_ body] true, 5%nat) []))
    end.
Proof.
  apply (client_server_call (H := simple_trees) (H0 := classic_algo)
    ex_dispatch (map (λ c, [c])) 3 #"supervisor.shutdown" [] ex_client).
  - intros b. induction b as [|c b IH]; [done|]. cbn. by rewrite IH.
  - vm_compute. discriminate.
  - vm_compute. reflexivity.
  - vm_compute. reflexivity.
Defined.
